(* ===== verification/_CoqProject ===== *)
-Q . S2P
Prelude.v
Ring.v
Machine.v
State.v
RunQueue.v
Api.v
Demo.v
Ops.v
Invariant.v
Preserve.v
Create.v
Spec.v
Refine.v
Safety.v
UContext.v
Objects.v
User.v
Threads.v
Progress.v
ForkJoin.v
Rounds.v
Phases.v
Busy.v
Coro.v
Buffers.v
FiberPool.v
WorkStealing.v
Channel.v
Sync.v
Semaphore.v
Demos.v
Bench.v
Pipeline.v
Staged.v
Graph.v
GraphRun.v
AwaitChain.v
TimerWheel.v
TimerMain.v
Resume.v
FiberMain.v
StateMachine.v
Fib.v
AsyncIO.v
Tests.v
YieldTests.v
