(* ===== verification/Prelude.v ===== *)
(** * c-coroutine: a verification development

    ** The program

    [src/coroutine.c] is a single-threaded library of stackful coroutines with
    a first-in first-out scheduler; [src/asm_ctx.S] is its x86-64 context
    switch and [include/coroutine.h] its interface: [co_create], [co_free],
    [co_yield], [co_await], [co_run], [co_id] and [co_state].  One global
    structure [S] holds the registry of all coroutines, a circular run-queue of
    the READY ones, the running one and the context of main.  A coroutine owns
    a heap object and a stack; [co_run] pops the queue and switches to it;
    [co_yield] queues it again and switches back; [co_await] makes it WAITING
    until another one is DONE; when a body returns, [co_entry] marks the
    coroutine DONE, wakes those that wait for it and switches back for good.
    The directories [examples/] and [benchmarks/] hold programs that use it, or
    an interface like it.

    ** The files

    The library, from the instructions up:
    - [Machine]: the registers and memory that [asm_ctx.S] uses, its two
      routines as lists of instructions ([co_ctx_switch], [co_trampoline]), and
      the stack image [co_create] prepares ([stack_image]).
    - [Ring]: circular buffers, once for the run-queue and for the bounded
      buffers of the examples: the relation [ring_rep] with a list.
    - [State]: [Coroutine], [CoState], the scheduler's globals ([Sched] is the
      structure [S]), the heap, the activation records a stack is made of
      ([frame]), the errors, and the state of a whole run ([world]).
    - [RunQueue]: [q_push] and [q_pop], and their specification.
    - [Api]: every other function of [coroutine.c], in its order and under its
      names, in a state and error monad ([SE] below); [step] executes the record
      on top of the current stack up to the next program point, [exec]
      iterates it.
    - [Demo]: an allocator, and scripts as user programs, for the witnesses.
    - [Ops], [Invariant], [Preserve], [Create]: what each operation does to a
      state, the invariant [inv] of a well-formed state, and that every
      operation preserves it.
    - [Spec]: the abstract scheduler, which is the contract of the library: a
      table of coroutines, a queue, and the transitions [spec_step].
    - [Refine]: every transition of the code is a transition of the abstract
      scheduler, or stops for a reason listed in [blame].
    - [Safety]: the theorems about whole runs.
    - [Objects]: the theorems about single calls.
    - [UContext]: the functions that differ when the library is built without
      the assembly switch ([USE_ASM_CTX] 0), and the equivalence of the builds.

    What programs that use the library may rely on:
    - [User]: invariants of each stretch of their code.
    - [Threads]: the library as a pool of threads ([pool_step]); [Progress]:
      runs are runs of the pool, and programs with a cost end.
    - [ForkJoin]: programs that create coroutines, run them and free them.
    - [Rounds]: what they compute when the coroutines only yield: the bodies
      executed in turn ([round_robin]); [Busy]: those that wait in loops end if
      they do not all wait at once ([Sync] has one); [Phases]: programs that create and run
      coroutines several times.

    The programs: [Buffers] (ring_buffer_demo.c, producer_consumer.c),
    [FiberPool] and [FiberMain] (fiber_pool.c), [WorkStealing]
    (work_stealing.c), [Channel] (channel.c), [Sync] (barrier.c),
    [Demos] (generator.c, ping_pong.c, echo_server.c), [Pipeline]
    (pipeline.c), [Staged] (task_graph.c, timer_coroutine.c), [Graph] and
    [GraphRun] (every task graph: its registry and coroutines; the program
    around them), [TimerWheel] and [TimerMain] (timer_wheel.c: when timers fire;
    what the demo prints), [Bench] (bench_yield.c, bench_scheduler.c,
    bench_context_switch.c, bench_memory.c), [AwaitChain] (bench_await_chain.c).
    The programs of [tests/]: [Tests] has test_basic.c, test_edge_cases.c,
    test_pipeline.c and test_stress.c; [YieldTests] has test_timer.c,
    test_generator.c, test_semaphore.c, test_barrier.c, test_scheduler.c and
    test_fiber_pool.c.

    The programs that resume coroutines by name, with an interface this
    repository does not implement: [Resume] has that interface as a parameter,
    with what holds for every schedule ([any_step]) and for the discipline the
    programs describe ([Asymmetric]); [FiberMain] (main of fiber_pool.c),
    [StateMachine] (state_machine.c), [Fib] (recursive_fib.c) and [AsyncIO]
    (async_io.c) use it.  semaphore.c awaits conditions, with another interface
    this repository does not implement: [Coro] has it as a parameter, a library
    that resumes a coroutine from [co_await] only when its condition holds;
    [Semaphore] is the program.

    ** How C is modelled

    A function is a definition with its name.  Assertions are on, as the
    Makefile builds them; a failed [assert] and undefined behaviour
    (an access to a freed or null object, an index out of bounds, a signed
    overflow, a write outside a stack, the resumption of a context that is not
    suspended) are values of the type [error]: a run that meets one stops with
    it.  Integers are [Z], every addition of an [int] in the library and in the
    buffers is checked against its range ([int_add], [cadd]), [size_t] is taken
    modulo 2^64 ([wrap64]); the counters of barrier.c,
    ping_pong.c, echo_server.c and generator.c, and the statistics of
    work_stealing.c, which the demos keep small, are unbounded.
    Pointers are addresses; the heap maps live addresses to objects and blocks,
    so a use after free is a failed lookup.  [malloc] is a parameter
    ([Allocator]) with the guarantees of C11 and may return null at any time.
    Theorems about whole programs say what holds unless [malloc] refuses a
    creation of the very run they speak of ([Threads.refused_in]), which
    executing the run decides ([Threads.refuses_spec]).

    Control is explicit: a context switch saves the stack of activation records
    of its caller in a context field and continues with the one another field
    holds.  [Machine] shows that the assembly does this to the registers and
    memory ([co_ctx_switch_refines] is the same [parked_switch] as
    [Api.co_ctx_switch]); from [State] on a suspended stack is the list of its
    records, except for a coroutine that has not run, whose context is the
    [AsmCtx] that [co_create] wrote, decoded from the stack words it stored.

    User code is a parameter ([UserCode]): between two library calls it is any
    function of the user's memory; the calls are the constructors of [ucall].
    So the theorems hold for every program, with loops that never end included.

    ** What is shown

    - The context switch saves and restores what the calling convention asks
      for, switching away and back is the identity for the caller, the first
      switch into a coroutine reaches [co_entry] with its argument; but it
      arrives there with a misaligned stack, and the image is written without a
      check that the stack is large enough.
    - Each transition from a well-formed state ends in a well-formed state and
      is the transition of the abstract scheduler that the code announces;
      hence no internal assertion fails, the states of a coroutine change as
      documented, identifiers are unique, scheduling is first-in first-out with
      bounded waiting, [co_await] blocks until the other is DONE, no wakeup is
      missed, a suspended coroutine is resumed exactly where it was, and when
      [co_run] returns everything is DONE unless coroutines wait for each other
      in a cycle.  One use is excluded, [nested_run]: a coroutine that calls
      [co_run], which the library neither supports nor refuses: the theorems
      about runs speak of those in which none does ([clean_steps]).
    - [co_create], [co_free], [co_state] and [co_id] on every branch.
    - The memory of the user program: an invariant of each stretch of its code
      is an invariant of every run ([user_invariant]); it is the base of the
      theorems about the examples: no item lost or reordered in the buffers,
      the barrier condition, the output of the closed demos.
    - The two builds of the library behave alike ([backends_agree]).
    - A program is the first-in first-out interleaving of its threads
      ([run_interleaves]) and, if its code has a cost, ends ([run_terminates], [fork_join_total]): [co_run]
      returns, with everything done.  Hence the totals of the benchmarks.
    - The semaphore and the mutex exclude, for every schedule of a library that
      resumes a coroutine from [co_await] only when its condition holds, and no
      coroutine waits for ever ([semaphore_exclusion], [mutex_log]); the whole
      program ends ([semaphore_program]).
    - The fiber pool drains its queue, in turn, and ends; the asynchronous I/O
      demo completes every request at its tick; the recursive Fibonacci demo
      computes what it should, and on no schedule reads a future or argument
      block of a function that has returned; the state machine demo never
      overflows its queue, and never establishes its connection.
    - Every acyclic task graph that fits the tables is run to its end, each task
      after those it depends on ([task_graph_completes]); a dependency given
      twice loses a task ([duplicate_dependency]).
    - If its coroutines only yield it computes what executing them in turn
      computes ([fork_join_round_robin]), loops that wait by yielding included;
      hence the exact output of the pipeline, for every number of values
      ([pipeline_total]), and of the barrier, for every number of workers
      ([barrier_completes]).  Coroutines that wait in such loops end if not all
      of them wait ([busy_wait_total]).
    - A program that creates and runs coroutines several times, and whose
      coroutines only yield, ends with what executing each group in turn
      computes, although the coroutines of the earlier runs are still
      registered ([phases_complete]): so do the tests of [YieldTests].
    - The await benchmark never ends: it is stopped by the bound on the
      registry or by a freed coroutine that is still in it
      ([await_bench_never_ends]).
    - The tests pass one by one, those of [YieldTests] and two others for every
      allocator; but test_basic, test_edge_cases and test_barrier read freed
      coroutines when they go on after [co_free] ([basic_reads_freed],
      [edge_cases_read_freed], [barrier_reads_freed]), test_scheduler when a
      coroutine frees the one it has awaited ([test_await_reads_freed]), and
      test_fiber_pool is stopped by the assertion of [co_free]
      ([test_create_free_aborts]).
    - The timer wheel: a timer fires at the tick its slot and laps say; for a
      multiple of the number of slots that is one revolution late.

    ** Bounds and fuel

    [step] is a function without fuel: the loop over the registry in
    [wakeup_waiters] is structural in [S.count].  [co_run] is one transition per
    dispatch, so runs are sequences of transitions of any length and no theorem
    about the library assumes an amount of fuel.  [exec] takes fuel for whole
    programs: the theorems that speak of it give an amount that is enough,
    computed from the cost of the program, and the closed examples end in
    [Finished].  The list loop of the timer wheel takes the size of the pool as
    fuel, and [timer_fires] shows that every tick returns.  [asm_run] takes the
    number of routines entered; the theorems give it.  Runs of the programs of
    [Resume] are sequences of steps of any length, that they end is part of what
    their theorems state; [Coro.coro_run] takes as fuel the number of its
    dispatches, and the theorems say how many are enough.

    ** What is not modelled

    The functions of the system behind the [ucontext] backend (a parameter,
    [UContext.UContext]), the text of messages, the timing and floating-point
    code of the benchmarks, the parsing of most command lines, memory
    exhaustion inside user code but for that of fiber_pool.c, and signals.  Several examples are written for
    interfaces this repository does not have ([scheduler_init], [co_spawn],
    [co_wake], [co_resume], ...); each file says what stands for those calls.
    Some create their coroutines without looking at what [co_create] returns,
    others check it at once or at the end of the creations ([ForkJoin.checking]).
    Of the tests two are missing: test_memory.c looks at the addresses of local
    variables, and test_channel.c tests a channel library that this repository
    does not have. *)

From stdpp Require Export base tactics list gmap strings.
From Stdlib Require Export ZArith Lia.

#[export] Set Default Goal Selector "!".
#[global] Open Scope Z_scope.

(** ** Results of fallible C code *)

(** The outcome of a piece of C code: it completes with a value, or it stops
    the program (a failed [assert], undefined behaviour) with an error. *)
Inductive result (E A : Type) : Type :=
| Ok (a : A)
| Err (e : E).
Arguments Ok {E A} a.
Arguments Err {E A} e.

#[export] Instance result_eq_dec `{EqDecision E, EqDecision A} :
  EqDecision (result E A).
Proof. solve_decision. Defined.

(** State and error: C code that reads and writes a store [W]. *)
Definition SE (W E A : Type) : Type := W → result E (W * A).

Section se_monad.
Context {W E : Type}.

#[export] Instance se_ret : MRet (SE W E) := λ A a w, Ok (w, a).
#[export] Instance se_bind : MBind (SE W E) := λ A B f m w,
  match m w with
  | Ok (w', a) => f a w'
  | Err e => Err e
  end.

Definition se_fail {A} (e : E) : SE W E A := λ _, Err e.
Definition se_gets {A} (f : W → A) : SE W E A := λ w, Ok (w, f w).
Definition se_modify (f : W → W) : SE W E unit := λ w, Ok (f w, ()).
(** [assert(b)]: stops the program with [e] when [b] is false. *)
Definition se_assert (b : bool) (e : E) : SE W E unit := λ w,
  if b then Ok (w, ()) else Err e.
(** A partial lookup that stops the program with [e] when it has no answer. *)
Definition se_some {A} (o : option A) (e : E) : SE W E A := λ w,
  match o with Some a => Ok (w, a) | None => Err e end.

Lemma se_bind_ok {A B} (m : SE W E A) (f : A → SE W E B) w w' a :
  m w = Ok (w', a) → (m ≫= f) w = f a w'.
Proof. intros H. unfold mbind, se_bind. by rewrite H. Qed.

Lemma se_bind_err {A B} (m : SE W E A) (f : A → SE W E B) w e :
  m w = Err e → (m ≫= f) w = Err e.
Proof. intros H. unfold mbind, se_bind. by rewrite H. Qed.

Lemma se_bind_inv {A B} (m : SE W E A) (f : A → SE W E B) w r :
  (m ≫= f) w = Ok r → ∃ w' a, m w = Ok (w', a) ∧ f a w' = Ok r.
Proof.
  unfold mbind, se_bind. destruct (m w) as [[w' a]|e]; [eauto|discriminate].
Qed.

Lemma se_bind_err_inv {A B} (m : SE W E A) (f : A → SE W E B) w e :
  (m ≫= f) w = Err e →
  m w = Err e ∨ ∃ w' a, m w = Ok (w', a) ∧ f a w' = Err e.
Proof.
  unfold mbind, se_bind. destruct (m w) as [[w' a]|e'].
  - eauto.
  - intros [= ->]. auto.
Qed.

Lemma se_assert_true b e w : b = true → se_assert b e w = Ok (w, ()).
Proof. intros ->. done. Qed.

Lemma se_some_ok {A} (o : option A) a e w :
  o = Some a → se_some o e w = Ok (w, a).
Proof. intros ->. done. Qed.
End se_monad.

(** ** C integers *)

Definition INT_MAX : Z := 2147483647.
Definition INT_MIN : Z := -2147483648.
Definition in_int (z : Z) : bool := (INT_MIN <=? z) && (z <=? INT_MAX).

(** Addition of two C [int]s; signed overflow is undefined behaviour. *)
Definition int_add {W E} (e : E) (a b : Z) : SE W E Z := λ w,
  if in_int (a + b) then Ok (w, a + b) else Err e.

Lemma int_add_ok {W E} (e : E) a b (w : W) :
  INT_MIN ≤ a + b ≤ INT_MAX → int_add e a b w = Ok (w, a + b).
Proof.
  intros H. unfold int_add, in_int.
  destruct (Z.leb_spec INT_MIN (a + b)); [|lia].
  destruct (Z.leb_spec (a + b) INT_MAX); [done|lia].
Qed.

(** Unsigned 64-bit arithmetic. *)
Definition wrap64 (z : Z) : Z := z mod 2 ^ 64.

Lemma wrap64_small z : 0 ≤ z < 2 ^ 64 → wrap64 z = z.
Proof. intros. by apply Z.mod_small. Qed.

(** ** C arrays indexed by an [int] *)

(** Reading [a[i]]: no answer outside [0, length). *)
Definition zlookup {A} (l : list A) (i : Z) : option A :=
  if 0 <=? i then l !! Z.to_nat i else None.
(** Writing [a[i] = x] where [i] is in range. *)
Definition zinsert {A} (i : Z) (x : A) (l : list A) : list A :=
  if 0 <=? i then <[Z.to_nat i := x]> l else l.
Definition in_bounds {A} (l : list A) (i : Z) : bool :=
  (0 <=? i) && (i <? Z.of_nat (length l)).

Lemma in_bounds_true {A} (l : list A) i :
  in_bounds l i = true ↔ 0 ≤ i < Z.of_nat (length l).
Proof.
  unfold in_bounds. rewrite andb_true_iff, Z.leb_le, Z.ltb_lt. lia.
Qed.

Lemma zlookup_nat {A} (l : list A) (i : nat) : zlookup l (Z.of_nat i) = l !! i.
Proof.
  unfold zlookup. destruct (Z.leb_spec 0 (Z.of_nat i)); [|lia].
  by rewrite Nat2Z.id.
Qed.

Lemma zlookup_lt_is_Some {A} (l : list A) i :
  0 ≤ i < Z.of_nat (length l) → is_Some (zlookup l i).
Proof.
  intros H. unfold zlookup. destruct (Z.leb_spec 0 i); [|lia].
  apply lookup_lt_is_Some_2. lia.
Qed.

Lemma zlookup_Some_lt {A} (l : list A) i x :
  zlookup l i = Some x → 0 ≤ i < Z.of_nat (length l).
Proof.
  unfold zlookup. destruct (Z.leb_spec 0 i); [|discriminate].
  intros Hl%lookup_lt_Some. lia.
Qed.

Lemma length_zinsert {A} i (x : A) l : length (zinsert i x l) = length l.
Proof. unfold zinsert. destruct (0 <=? i); [apply length_insert|done]. Qed.

Lemma zlookup_zinsert_eq {A} i (x : A) l :
  0 ≤ i < Z.of_nat (length l) → zlookup (zinsert i x l) i = Some x.
Proof.
  intros H. unfold zlookup, zinsert. destruct (Z.leb_spec 0 i); [|lia].
  apply list_lookup_insert_eq. lia.
Qed.

Lemma zlookup_zinsert_ne {A} i j (x : A) l :
  i ≠ j → zlookup (zinsert i x l) j = zlookup l j.
Proof.
  intros H. unfold zlookup, zinsert.
  destruct (Z.leb_spec 0 j); [|done]. destruct (Z.leb_spec 0 i); [|done].
  apply list_lookup_insert_ne. lia.
Qed.

(** ** C code that only touches its own memory

    No answer when its behaviour is undefined: an index outside an array, or
    signed overflow. *)

Definition arr_get {A} (a : list A) (i : Z) : option A := zlookup a i.
Definition arr_set {A} (a : list A) (i : Z) (x : A) : option (list A) :=
  if in_bounds a i then Some (zinsert i x a) else None.
Definition cadd (a b : Z) : option Z := if in_int (a + b) then Some (a + b) else None.

Lemma arr_set_ok {A} (a : list A) i x :
  0 ≤ i < Z.of_nat (length a) → arr_set a i x = Some (zinsert i x a).
Proof. intros H%in_bounds_true. unfold arr_set. by rewrite H. Qed.

Lemma cadd_ok a b : INT_MIN ≤ a + b ≤ INT_MAX → cadd a b = Some (a + b).
Proof.
  intros H. unfold cadd, in_int.
  destruct (Z.leb_spec INT_MIN (a + b)); [|lia].
  destruct (Z.leb_spec (a + b) INT_MAX); [done|lia].
Qed.

(** Addition of two [long]s. *)
Definition LONG_MAX : Z := 9223372036854775807.
Definition in_long (z : Z) : bool := (- LONG_MAX - 1 <=? z) && (z <=? LONG_MAX).
Definition ladd (a b : Z) : option Z := if in_long (a + b) then Some (a + b) else None.

Lemma ladd_ok a b : 0 ≤ a + b ≤ LONG_MAX → ladd a b = Some (a + b).
Proof.
  intros Hab. unfold ladd, in_long, LONG_MAX in *. rewrite !(proj2 (Z.leb_le _ _)) by lia. done.
Qed.

(** ** Sums *)

Definition sumZ : list Z → Z := foldr Z.add 0.

Lemma sumZ_app l k : sumZ (l ++ k) = sumZ l + sumZ k.
Proof. induction l as [|x l IH]; cbn; [done|]. unfold sumZ in *. lia. Qed.

Lemma sumZ_replicate n x : sumZ (replicate n x) = Z.of_nat n * x.
Proof. induction n as [|n IH]; [done|]. cbn in *. unfold sumZ in *. lia. Qed.

Lemma sumZ_insert l i x y : l !! i = Some x → sumZ (<[i := y]> l) = sumZ l - x + y.
Proof.
  revert i. induction l as [|z l IH]; intros [|i] Hi; simplify_eq/=; [lia|].
  rewrite (IH i Hi). lia.
Qed.

Lemma sumZ_member l x : x ∈ l → Forall (λ y, 0 ≤ y) l → x ≤ sumZ l.
Proof.
  intros Hx Hl. induction Hl as [|y l Hy Hl IH]; [by apply not_elem_of_nil in Hx|].
  assert (0 ≤ sumZ l) by (clear -Hl; induction Hl; cbn; [lia|unfold sumZ in *; lia]).
  apply elem_of_cons in Hx as [->|Hx]; cbn; fold (sumZ l); [lia|].
  specialize (IH Hx). lia.
Qed.

(** ** One-shot contexts

    A context switch parks the running activity in one slot and takes the
    activity parked in another.  A slot is good for one resumption: once taken,
    the stack it described moves on. *)

Section parked.
Context {K T : Type} `{Countable K}.

Definition parked_switch (from to : K) (cur : T) (P : gmap K T)
    : option (T * gmap K T) :=
  match <[from := cur]> P !! to with
  | Some t => Some (t, delete to (<[from := cur]> P))
  | None => None
  end.

Lemma parked_switch_ne from to cur P t :
  from ≠ to → P !! to = Some t →
  parked_switch from to cur P = Some (t, <[from := cur]> (delete to P)).
Proof.
  intros Hne Ht. unfold parked_switch. rewrite lookup_insert_ne by done.
  by rewrite Ht, delete_insert_ne.
Qed.
End parked.

(** ** Division *)

Lemma Z_rem_mod a b : 0 ≤ a → 0 < b → Z.rem a b = a mod b.
Proof. intros. by apply Z.rem_mod_nonneg. Qed.

(** ** Automation *)

(** [se_step]: runs the next operation of a monadic program whose result is
    known from a hypothesis or by computation. *)
Ltac se_step :=
  first
    [ erewrite se_bind_ok; [|eassumption]
    | erewrite se_bind_ok; [|apply se_assert_true; first [eassumption | done]]
    | erewrite se_bind_ok; [|apply se_some_ok; first [eassumption | done]]
    | erewrite se_bind_ok; [|reflexivity] ];
  cbn beta iota.

Create HintDb coro discriminated.
Create Rewrite HintDb coro.
#[export] Hint Rewrite @length_zinsert : coro.
#[export] Hint Resolve zlookup_lt_is_Some : coro.
