(* ===== verification/Ring.v ===== *)
(** * Circular buffers

    The repository uses the same data structure in several places: the
    scheduler's run-queue ([src/coroutine.c]) and the bounded buffers of the
    examples.  An array of fixed capacity, the index [head] of the oldest
    element, the index [tail] of the next free slot, and the number of
    elements.  This file gives the view of such a structure, the relation
    between it and the list of its elements (oldest first), and the two lemmas
    every user needs: a push appends, a pop removes the head. *)

From S2P Require Import Prelude.

Record ring (A : Type) := Ring {
  r_buf : list A;
  r_head : Z;
  r_tail : Z;
  r_size : Z
}.
Arguments Ring {A} _ _ _ _.
Arguments r_buf {A} _.
Arguments r_head {A} _.
Arguments r_tail {A} _.
Arguments r_size {A} _.

(** A type whose values hold a circular buffer of [A] of capacity
    [ring_cap]. *)
Class RingView (R A : Type) := {
  ring_view : R → ring A;
  ring_cap : Z
}.
#[export] Hint Mode RingView ! - : typeclass_instances.
Arguments ring_cap R {A RingView}.

Section ring.
Context `{RV : RingView R A}.
Local Abbreviation CAP := (ring_cap R).
Implicit Types (r : R) (l : list A).

(** [r] holds the elements [l], oldest first. *)
Record ring_rep r l : Prop := {
  rr_length : Z.of_nat (length (r_buf (ring_view r))) = CAP;
  rr_head : 0 ≤ r_head (ring_view r) < CAP;
  rr_tail : r_tail (ring_view r)
            = (r_head (ring_view r) + Z.of_nat (length l)) mod CAP;
  rr_size : r_size (ring_view r) = Z.of_nat (length l);
  rr_fits : Z.of_nat (length l) ≤ CAP;
  rr_elems : ∀ i x, l !! i = Some x →
    zlookup (r_buf (ring_view r))
      ((r_head (ring_view r) + Z.of_nat i) mod CAP) = Some x
}.

(** The relation depends on the buffer only. *)
Lemma ring_rep_ext r r' l :
  ring_view r' = ring_view r → ring_rep r l → ring_rep r' l.
Proof. intros He []. split; by rewrite ?He. Qed.

Lemma rr_cap_pos r l : ring_rep r l → 0 < CAP.
Proof. intros H. pose proof (rr_head _ _ H). lia. Qed.

Lemma rr_tail_bound r l : ring_rep r l → 0 ≤ r_tail (ring_view r) < CAP.
Proof.
  intros H. rewrite (rr_tail _ _ H). apply Z.mod_pos_bound.
  by eapply rr_cap_pos.
Qed.

Lemma rr_empty r l : ring_rep r l → r_size (ring_view r) = 0 ↔ l = [].
Proof.
  intros H. rewrite (rr_size _ _ H).
  destruct l; simpl; split; intros; done || lia.
Qed.

(** Two distinct offsets below the capacity designate distinct slots. *)
Lemma ring_slot_inj h i j :
  0 < CAP → 0 ≤ i < CAP → 0 ≤ j < CAP →
  (h + i) mod CAP = (h + j) mod CAP → i = j.
Proof.
  intros Hc Hi Hj He.
  assert (((h + i) - (h + j)) mod CAP = 0) as Hz.
  { rewrite Zminus_mod, He, Z.sub_diag. apply Z.mod_0_l. lia. }
  replace (h + i - (h + j)) with (i - j) in Hz by lia.
  apply Z.mod_divide in Hz; [|lia]. destruct Hz as [q Hq].
  assert (q = 0) by nia. lia.
Qed.

(** Writing at [tail] and advancing it appends. *)
Lemma ring_push_rep r r' l x :
  ring_rep r l → Z.of_nat (length l) < CAP →
  r_buf (ring_view r') = zinsert (r_tail (ring_view r)) x (r_buf (ring_view r)) →
  r_head (ring_view r') = r_head (ring_view r) →
  r_tail (ring_view r') = Z.rem (r_tail (ring_view r) + 1) CAP →
  r_size (ring_view r') = r_size (ring_view r) + 1 →
  ring_rep r' (l ++ [x]).
Proof.
  intros H Hlt Hb Hh Ht Hs.
  pose proof (rr_cap_pos _ _ H) as Hc. pose proof (rr_tail_bound _ _ H) as Htb.
  destruct H as [Hlen Hhead Htail Hsize Hfits Helems].
  split.
  - by rewrite Hb, length_zinsert.
  - by rewrite Hh.
  - rewrite Ht, Hh, Htail, length_app, Z_rem_mod; [| rewrite <- Htail; lia | lia].
    simpl. rewrite Zplus_mod_idemp_l. f_equal. lia.
  - rewrite Hs, Hsize, length_app. simpl. lia.
  - rewrite length_app. simpl. lia.
  - intros i y Hi. rewrite Hb, Hh. apply lookup_app_Some in Hi.
    destruct Hi as [Hi|[Hge Hi]].
    + rewrite zlookup_zinsert_ne; [by apply Helems|].
      intros Heq. rewrite Htail in Heq. apply lookup_lt_Some in Hi.
      apply ring_slot_inj in Heq; lia.
    + apply list_lookup_singleton_Some in Hi. destruct Hi as [Hi ->].
      replace i with (length l) by lia. rewrite <- Htail.
      apply zlookup_zinsert_eq. lia.
Qed.

(** Reading at [head] yields the oldest element. *)
Lemma ring_pop_head r x l :
  ring_rep r (x :: l) →
  zlookup (r_buf (ring_view r)) (r_head (ring_view r)) = Some x.
Proof.
  intros H. pose proof (rr_head _ _ H).
  rewrite <- (rr_elems _ _ H 0%nat x); [|done].
  f_equal. rewrite Z.add_0_r, Z.mod_small; [done|lia].
Qed.

(** Advancing [head] removes the oldest element. *)
Lemma ring_pop_rep r r' x l :
  ring_rep r (x :: l) →
  r_buf (ring_view r') = r_buf (ring_view r) →
  r_head (ring_view r') = Z.rem (r_head (ring_view r) + 1) CAP →
  r_tail (ring_view r') = r_tail (ring_view r) →
  r_size (ring_view r') = r_size (ring_view r) - 1 →
  ring_rep r' l.
Proof.
  intros H Hb Hh Ht Hs. pose proof (rr_cap_pos _ _ H) as Hc.
  destruct H as [Hlen Hhead Htail Hsize Hfits Helems].
  rewrite Z_rem_mod in Hh by lia. simpl in *.
  split.
  - by rewrite Hb.
  - rewrite Hh. by apply Z.mod_pos_bound.
  - rewrite Ht, Htail, Hh, Zplus_mod_idemp_l. f_equal. lia.
  - lia.
  - lia.
  - intros i y Hi. rewrite Hb, Hh, Zplus_mod_idemp_l.
    rewrite <- (Helems (S i) y Hi). f_equal. f_equal. lia.
Qed.

(** A zeroed structure is empty. *)
Lemma ring_init_rep r :
  0 < CAP → Z.of_nat (length (r_buf (ring_view r))) = CAP →
  r_head (ring_view r) = 0 → r_tail (ring_view r) = 0 →
  r_size (ring_view r) = 0 → ring_rep r [].
Proof.
  intros Hc Hlen Hh Ht Hs. split; try done.
  - lia.
  - rewrite Ht, Hh. simpl. by rewrite Z.mod_small by lia.
  - simpl. lia.
Qed.

(** A push has no undefined behaviour: the slot is in the array and the index
    arithmetic does not overflow. *)
Lemma ring_push_defined r l x :
  ring_rep r l → Z.of_nat (length l) < CAP → CAP ≤ INT_MAX →
  arr_set (r_buf (ring_view r)) (r_tail (ring_view r)) x
    = Some (zinsert (r_tail (ring_view r)) x (r_buf (ring_view r)))
  ∧ cadd (r_tail (ring_view r)) 1 = Some (r_tail (ring_view r) + 1)
  ∧ cadd (r_size (ring_view r)) 1 = Some (r_size (ring_view r) + 1).
Proof.
  intros H Hlt Hmax. pose proof (rr_tail_bound _ _ H) as Ht.
  pose proof (rr_size _ _ H) as Hs. pose proof (rr_length _ _ H) as Hlen.
  unfold INT_MAX in *. split_and!; [apply arr_set_ok|apply cadd_ok..];
    unfold INT_MIN, INT_MAX; lia.
Qed.

(** Neither has a pop. *)
Lemma ring_pop_defined r x l :
  ring_rep r (x :: l) → CAP ≤ INT_MAX →
  arr_get (r_buf (ring_view r)) (r_head (ring_view r)) = Some x
  ∧ cadd (r_head (ring_view r)) 1 = Some (r_head (ring_view r) + 1)
  ∧ cadd (r_size (ring_view r)) (-1) = Some (r_size (ring_view r) - 1).
Proof.
  intros H Hmax. pose proof (rr_head _ _ H) as Hh. pose proof (rr_size _ _ H) as Hs.
  pose proof (rr_fits _ _ H) as Hf. cbn [length] in Hs, Hf.
  unfold INT_MAX in *. split_and!; [by eapply ring_pop_head|apply cadd_ok..];
    unfold INT_MIN, INT_MAX; lia.
Qed.

(** The same for indices of type [size_t]: nothing wraps around. *)
Lemma ring_push_word r l x :
  ring_rep r l → Z.of_nat (length l) < CAP → CAP ≤ INT_MAX →
  arr_set (r_buf (ring_view r)) (r_tail (ring_view r)) x
    = Some (zinsert (r_tail (ring_view r)) x (r_buf (ring_view r)))
  ∧ wrap64 (r_tail (ring_view r) + 1) mod CAP = Z.rem (r_tail (ring_view r) + 1) CAP
  ∧ wrap64 (r_size (ring_view r) + 1) = r_size (ring_view r) + 1.
Proof.
  intros H Hlt Hmax. destruct (ring_push_defined r l x H Hlt Hmax) as (Hset & _).
  pose proof (rr_tail_bound _ _ H) as Ht. pose proof (rr_size _ _ H) as Hs.
  unfold INT_MAX in *. split; [exact Hset|]. rewrite !wrap64_small by lia.
  by rewrite Z_rem_mod by lia.
Qed.
Lemma ring_pop_word r x l :
  ring_rep r (x :: l) → CAP ≤ INT_MAX →
  arr_get (r_buf (ring_view r)) (r_head (ring_view r)) = Some x
  ∧ wrap64 (r_head (ring_view r) + 1) mod CAP = Z.rem (r_head (ring_view r) + 1) CAP
  ∧ wrap64 (r_size (ring_view r) - 1) = r_size (ring_view r) - 1.
Proof.
  intros H Hmax. destruct (ring_pop_defined r x l H Hmax) as (Hget & _).
  pose proof (rr_head _ _ H) as Hh. pose proof (rr_size _ _ H) as Hs.
  pose proof (rr_fits _ _ H) as Hf. cbn [length] in Hs, Hf.
  unfold INT_MAX in *. split; [exact Hget|]. rewrite !wrap64_small by lia.
  by rewrite Z_rem_mod by lia.
Qed.

(** The contents, computed. *)
Definition ring_contents r : list A :=
  omap (λ i, zlookup (r_buf (ring_view r)) ((r_head (ring_view r) + Z.of_nat i) mod CAP))
    (seq 0 (Z.to_nat (r_size (ring_view r)))).

Lemma omap_seq {B} (f : nat → option B) (l : list B) j :
  (∀ i x, l !! i = Some x → f (j + i)%nat = Some x) → omap f (seq j (length l)) = l.
Proof.
  revert j. induction l as [|x l IH]; intros j Hf; [done|].
  cbn. rewrite <- (Nat.add_0_r j) at 1. rewrite (Hf 0%nat x eq_refl). f_equal.
  apply IH. intros i y Hy. rewrite <- (Hf (S i) y Hy). f_equal. lia.
Qed.

Lemma ring_rep_contents r l : ring_rep r l → l = ring_contents r.
Proof.
  intros H. unfold ring_contents. rewrite (rr_size _ _ H), Nat2Z.id. symmetry.
  apply omap_seq. intros i x Hi. by apply (rr_elems _ _ H).
Qed.

Lemma length_omap_seq {B} (f : nat → option B) n j : (length (omap f (seq j n)) ≤ n)%nat.
Proof.
  revert j. induction n as [|n IH]; intros j; cbn; [done|].
  specialize (IH (S j)). destruct (f j); cbn; lia.
Qed.

Lemma omap_seq_inv {B} (f : nat → option B) (l : list B) j :
  omap f (seq j (length l)) = l → ∀ i x, l !! i = Some x → f (j + i)%nat = Some x.
Proof.
  revert j. induction l as [|y l IH]; intros j Hl i x Hi; [done|]. cbn in Hl.
  destruct (f j) as [z|] eqn:Hz.
  - injection Hl as -> Hl. destruct i as [|i]; cbn in Hi.
    + injection Hi as ->. by rewrite Nat.add_0_r.
    + rewrite Nat.add_succ_r. by apply (IH (S j)).
  - pose proof (length_omap_seq f (length l) (S j)) as Hlen. rewrite Hl in Hlen.
    cbn in Hlen. lia.
Qed.

(** The relation, decided. *)
Definition ring_test r (n : nat) : bool :=
  let v := ring_view r in
  (Z.of_nat (length (r_buf v)) =? CAP) && (0 <=? r_head v) && (r_head v <? CAP)
  && (r_tail v =? (r_head v + Z.of_nat n) mod CAP) && (r_size v =? Z.of_nat n)
  && (Z.of_nat n <=? CAP) && (length (ring_contents r) =? n)%nat.

Lemma ring_test_rep r n : ring_test r n = true → ring_rep r (ring_contents r).
Proof.
  unfold ring_test. rewrite !andb_true_iff, !Z.eqb_eq, !Z.leb_le, Z.ltb_lt, Nat.eqb_eq.
  intros ((((((Hlen & Hh) & Hh') & Ht) & Hs) & Hn) & Hc).
  split; rewrite ?Hc; try done; try lia.
  intros i x Hi. pose proof Hc as Hc'. unfold ring_contents in Hc' at 1.
  rewrite Hs, Nat2Z.id in Hc'.
  apply (omap_seq_inv (λ i, zlookup (r_buf (ring_view r))
    ((r_head (ring_view r) + Z.of_nat i) mod CAP)) (ring_contents r) 0%nat); [|done].
  rewrite Hc. unfold ring_contents. by rewrite Hs, Nat2Z.id.
Qed.

Lemma ring_test_list r l :
  ring_test r (length l) = true → ring_contents r = l → ring_rep r l.
Proof. intros Ht <-. by eapply ring_test_rep. Qed.
End ring.

#[export] Hint Resolve rr_cap_pos rr_tail_bound : coro.

(** [ring_push_ops], [ring_pop_ops]: run the array access and the index
    arithmetic of a push or a pop on a buffer known to hold a list. *)
Ltac ring_push_ops Hr x :=
  let Ha := fresh in let Ht := fresh in let Hn := fresh in
  destruct (ring_push_defined _ _ x Hr) as (Ha & Ht & Hn); [cbn; lia|done|];
  cbn in Ha, Ht, Hn; rewrite Ha; cbn; rewrite Ht; cbn; rewrite Hn; cbn; clear Ha Ht Hn.
Ltac ring_pop_ops Hr :=
  let Ha := fresh in let Ht := fresh in let Hn := fresh in
  destruct (ring_pop_defined _ _ _ Hr) as (Ha & Ht & Hn); [done|];
  cbn in Ha, Ht, Hn; rewrite Ha; cbn; rewrite Ht; cbn; rewrite Hn; cbn; clear Ha Ht Hn.
