(* ===== verification/Machine.v ===== *)
(** * The x86-64 context switch ([src/asm_ctx.S])

    An interpreter for the few instructions the assembly file uses, over a
    register file and a memory of aligned 64-bit words; the two routines of the
    file, transcribed instruction by instruction; the layout of [AsmCtx]; and
    the stack image that [co_create] prepares for a new coroutine. *)

From stdpp Require Import gmap.
From S2P Require Import Prelude.

(** ** Machine state *)

Inductive reg : Set :=
| RAX | RBX | RCX | RDX | RSI | RDI | RBP | RSP
| R8 | R9 | R10 | R11 | R12 | R13 | R14 | R15.

#[export] Instance reg_eq_dec : EqDecision reg.
Proof. solve_decision. Defined.

(** Registers, instruction pointer and the mapped memory: one 64-bit word per
    8-aligned address. *)
Record mstate := MState {
  m_regs : reg → Z;
  m_rip : Z;
  m_mem : gmap Z Z
}.

Definition set_reg (r : reg) (v : Z) (f : reg → Z) : reg → Z :=
  λ r', if decide (r = r') then v else f r'.

Lemma set_reg_eq r v f : set_reg r v f r = v.
Proof. unfold set_reg. by rewrite decide_True. Qed.
Lemma set_reg_ne r r' v f : r ≠ r' → set_reg r v f r' = f r'.
Proof. intros. unfold set_reg. by rewrite decide_False. Qed.

(** A load or a store faults on an address that is not mapped; the model also
    faults where the address is not 8-aligned. *)
Definition load64 (m : gmap Z Z) (a : Z) : option Z :=
  if a mod 8 =? 0 then m !! a else None.
Definition store64 (m : gmap Z Z) (a v : Z) : option (gmap Z Z) :=
  if a mod 8 =? 0 then
    match m !! a with Some _ => Some (<[a := v]> m) | None => None end
  else None.

(** ** Instructions *)

Inductive instr : Set :=
| movq_store (src : reg) (off : Z) (base : reg)  (* movq %src, off(%base) *)
| movq_load (off : Z) (base : reg) (dst : reg)   (* movq off(%base), %dst *)
| pop (dst : reg)
| jmp (target : Z)
| ret.

Definition exec_instr (i : instr) (s : mstate) : option mstate :=
  let R := m_regs s in
  match i with
  | movq_store src off base =>
      m' ← store64 (m_mem s) (wrap64 (R base + off)) (R src);
      Some (MState R (m_rip s) m')
  | movq_load off base dst =>
      v ← load64 (m_mem s) (wrap64 (R base + off));
      Some (MState (set_reg dst v R) (m_rip s) (m_mem s))
  | pop dst =>
      v ← load64 (m_mem s) (R RSP);
      Some (MState (set_reg dst v (set_reg RSP (wrap64 (R RSP + 8)) R))
              (m_rip s) (m_mem s))
  | jmp target => Some (MState R target (m_mem s))
  | ret =>
      v ← load64 (m_mem s) (R RSP);
      Some (MState (set_reg RSP (wrap64 (R RSP + 8)) R) v (m_mem s))
  end.

(** Runs a routine up to the jump or return that leaves it. *)
Fixpoint exec_block (code : list instr) (s : mstate) : option mstate :=
  match code with
  | [] => Some s
  | i :: code =>
      s' ← exec_instr i s;
      match i with
      | jmp _ | ret => Some s'
      | _ => exec_block code s'
      end
  end.

(** ** The routines of asm_ctx.S *)

Definition co_ctx_switch : list instr :=
  [ movq_store RSP 0x00 RDI;
    movq_store RBP 0x08 RDI;
    movq_store RBX 0x10 RDI;
    movq_store R12 0x18 RDI;
    movq_store R13 0x20 RDI;
    movq_store R14 0x28 RDI;
    movq_store R15 0x30 RDI;
    movq_load 0x00 RSI RSP;
    movq_load 0x08 RSI RBP;
    movq_load 0x10 RSI RBX;
    movq_load 0x18 RSI R12;
    movq_load 0x20 RSI R13;
    movq_load 0x28 RSI R14;
    movq_load 0x30 RSI R15;
    ret ].

(** The addresses the linker gives to the symbols involved. *)
Class LinkMap := {
  sym_co_ctx_switch : Z;
  sym_co_trampoline : Z;
  sym_co_entry : Z;
  sym_distinct : sym_co_ctx_switch ≠ sym_co_trampoline
                 ∧ sym_co_ctx_switch ≠ sym_co_entry
                 ∧ sym_co_trampoline ≠ sym_co_entry
}.

Definition co_trampoline `{LinkMap} : list instr :=
  [ pop RDI;
    jmp sym_co_entry ].

(** The code at an address, when it is a routine of asm_ctx.S. *)
Definition fetch `{LinkMap} (a : Z) : option (list instr) :=
  if a =? sym_co_ctx_switch then Some co_ctx_switch
  else if a =? sym_co_trampoline then Some co_trampoline
  else None.

(** Runs assembly routines until control reaches code compiled from C. *)
Fixpoint asm_run `{LinkMap} (fuel : nat) (s : mstate) : option mstate :=
  match fetch (m_rip s), fuel with
  | None, _ => Some s
  | Some code, Datatypes.S fuel => exec_block code s ≫= asm_run fuel
  | Some _, O => None
  end.

(** ** AsmCtx *)

Record AsmCtx := MkAsmCtx {
  rsp : Z; rbp : Z; rbx : Z; r12 : Z; r13 : Z; r14 : Z; r15 : Z
}.

#[export] Instance AsmCtx_eq_dec : EqDecision AsmCtx.
Proof. solve_decision. Defined.

Definition zero_ctx : AsmCtx := MkAsmCtx 0 0 0 0 0 0 0.

(** The callee-saved registers and the stack pointer. *)
Definition regs_ctx (f : reg → Z) : AsmCtx :=
  MkAsmCtx (f RSP) (f RBP) (f RBX) (f R12) (f R13) (f R14) (f R15).
Definition load_ctx (c : AsmCtx) (f : reg → Z) : reg → Z :=
  set_reg R15 (r15 c) (set_reg R14 (r14 c) (set_reg R13 (r13 c)
  (set_reg R12 (r12 c) (set_reg RBX (rbx c) (set_reg RBP (rbp c)
  (set_reg RSP (rsp c) f)))))).

(** The seven words of an [AsmCtx] object at address [a]. *)
Definition save_ctx (a : Z) (c : AsmCtx) (m : gmap Z Z) : gmap Z Z :=
  <[a + 0x30 := r15 c]> (<[a + 0x28 := r14 c]> (<[a + 0x20 := r13 c]>
  (<[a + 0x18 := r12 c]> (<[a + 0x10 := rbx c]> (<[a + 0x08 := rbp c]>
  (<[a + 0x00 := rsp c]> m)))))).

Record ctx_at (m : gmap Z Z) (a : Z) (c : AsmCtx) : Prop := {
  ca_rsp : m !! (a + 0x00) = Some (rsp c);
  ca_rbp : m !! (a + 0x08) = Some (rbp c);
  ca_rbx : m !! (a + 0x10) = Some (rbx c);
  ca_r12 : m !! (a + 0x18) = Some (r12 c);
  ca_r13 : m !! (a + 0x20) = Some (r13 c);
  ca_r14 : m !! (a + 0x28) = Some (r14 c);
  ca_r15 : m !! (a + 0x30) = Some (r15 c)
}.

Definition AsmCtx_size : Z := 56.

(** An object that can hold an [AsmCtx]: aligned, inside the address space,
    and mapped. *)
Record ctx_obj (m : gmap Z Z) (a : Z) : Prop := {
  co_align : a mod 8 = 0;
  co_range : 0 ≤ a ∧ a + AsmCtx_size ≤ 2 ^ 64;
  co_mapped : ∃ c, ctx_at m a c
}.

Definition in_ctx (a x : Z) : Prop := a ≤ x < a + AsmCtx_size.
Definition ctx_disjoint (a b : Z) : Prop :=
  a + AsmCtx_size ≤ b ∨ b + AsmCtx_size ≤ a.

(** ** The stack image of a new coroutine ([co_create], lines 186-195) *)

(** [top &= ~(uintptr_t)15] *)
Definition align16 (top : Z) : Z := Z.land top (wrap64 (Z.lnot 15)).

(** The two words pushed at the top of the stack, in the order in which they
    are written, and the initial context. *)
Definition stack_image `{LinkMap} (stack stack_size co : Z)
    : AsmCtx * list (Z * Z) :=
  let stack_top := wrap64 (stack + stack_size) in
  let top := align16 stack_top in
  let sp1 := wrap64 (top - 8) in
  let sp2 := wrap64 (sp1 - 8) in
  (MkAsmCtx sp2 0 0 0 0 0 0, [(sp1, co); (sp2, sym_co_trampoline)]).

Definition write_words (ws : list (Z * Z)) (m : gmap Z Z) : gmap Z Z :=
  fold_left (λ m w, <[w.1 := w.2]> m) ws m.

(** ** Memory lemmas *)

Lemma store64_ok m a v :
  a mod 8 = 0 → is_Some (m !! a) → store64 m a v = Some (<[a := v]> m).
Proof.
  intros Ha [w Hw]. unfold store64. by rewrite Ha, Hw.
Qed.

Lemma load64_ok m a v : a mod 8 = 0 → m !! a = Some v → load64 m a = Some v.
Proof. intros Ha Hv. unfold load64. by rewrite Ha. Qed.

Lemma mapped_insert (m : gmap Z Z) a b v :
  is_Some (m !! a) → is_Some (<[b := v]> m !! a).
Proof. intros H. rewrite lookup_insert. case_decide; eauto. Qed.

Lemma mod8_add a k : a mod 8 = 0 → (a + 8 * k) mod 8 = 0.
Proof. intros H. rewrite Z.mul_comm, Z.mod_add; lia. Qed.

(** The effective address of a field of an [AsmCtx] object. *)
Lemma ctx_field m a k :
  ctx_obj m a → 0 ≤ k ≤ 6 →
  wrap64 (a + 8 * k) = a + 8 * k ∧ (a + 8 * k) mod 8 = 0
  ∧ is_Some (m !! (a + 8 * k)).
Proof.
  intros [Hal [H0 Hr] [c Hc]] Hk. unfold AsmCtx_size in Hr. split_and!.
  - apply wrap64_small. lia.
  - by apply mod8_add.
  - assert (k = 0 ∨ k = 1 ∨ k = 2 ∨ k = 3 ∨ k = 4 ∨ k = 5 ∨ k = 6)
      as Hcases by lia.
    destruct Hc. destruct_or!; subst k; eauto.
Qed.

Lemma ctx_obj_insert m a b v : ctx_obj m a → ctx_obj (<[b := v]> m) a.
Proof.
  intros Ho. pose proof (ctx_field m a) as Hf.
  destruct (co_mapped _ _ Ho) as [c0 _].
  assert (∀ k, 0 ≤ k ≤ 6 → ∃ w, <[b:=v]> m !! (a + 8 * k) = Some w) as Hm.
  { intros k Hk. apply mapped_insert. by apply Hf. }
  split; [apply Ho..|].
  destruct (Hm 0) as [w0 ?]; [lia|]. destruct (Hm 1) as [w1 ?]; [lia|].
  destruct (Hm 2) as [w2 ?]; [lia|]. destruct (Hm 3) as [w3 ?]; [lia|].
  destruct (Hm 4) as [w4 ?]; [lia|]. destruct (Hm 5) as [w5 ?]; [lia|].
  destruct (Hm 6) as [w6 ?]; [lia|].
  by exists (MkAsmCtx w0 w1 w2 w3 w4 w5 w6).
Qed.

(** One save instruction: a field of the object in the base register. *)
Lemma exec_movq_store s src base k :
  ctx_obj (m_mem s) (m_regs s base) → 0 ≤ k ≤ 6 →
  exec_instr (movq_store src (8 * k) base) s
  = Some (MState (m_regs s) (m_rip s)
            (<[m_regs s base + 8 * k := m_regs s src]> (m_mem s))).
Proof.
  intros Ho Hk. destruct (ctx_field _ _ k Ho Hk) as (Hw & Ha & Hm).
  cbn [exec_instr]. rewrite Hw, (store64_ok _ _ _ Ha Hm). done.
Qed.

(** One restore instruction. *)
Lemma exec_movq_load s base dst k v :
  ctx_obj (m_mem s) (m_regs s base) → 0 ≤ k ≤ 6 →
  m_mem s !! (m_regs s base + 8 * k) = Some v →
  exec_instr (movq_load (8 * k) base dst) s
  = Some (MState (set_reg dst v (m_regs s)) (m_rip s) (m_mem s)).
Proof.
  intros Ho Hk Hv. destruct (ctx_field _ _ k Ho Hk) as (Hw & Ha & Hm).
  cbn [exec_instr]. rewrite Hw, (load64_ok _ _ _ Ha Hv). done.
Qed.

Lemma exec_ret s v :
  (m_regs s RSP) mod 8 = 0 → m_mem s !! (m_regs s RSP) = Some v →
  exec_instr ret s
  = Some (MState (set_reg RSP (wrap64 (m_regs s RSP + 8)) (m_regs s)) v
            (m_mem s)).
Proof. intros Ha Hv. cbn [exec_instr]. by rewrite (load64_ok _ _ _ Ha Hv). Qed.

Lemma exec_block_cons i code s s' :
  exec_instr i s = Some s' →
  (match i with jmp _ | ret => False | _ => True end) →
  exec_block (i :: code) s = exec_block code s'.
Proof. intros He Hi. cbn [exec_block]. rewrite He. by destruct i. Qed.

Lemma save_ctx_other a c m x : ¬ in_ctx a x → save_ctx a c m !! x = m !! x.
Proof.
  unfold in_ctx, AsmCtx_size, save_ctx. intros Hx.
  rewrite !lookup_insert_ne by lia. done.
Qed.

Lemma save_ctx_at a c m : ctx_at (save_ctx a c m) a c.
Proof.
  unfold save_ctx. split;
    rewrite ?lookup_insert_ne by lia; rewrite lookup_insert_eq; done.
Qed.

Lemma ctx_at_ext m m' a c :
  (∀ x, in_ctx a x → m' !! x = m !! x) → ctx_at m a c → ctx_at m' a c.
Proof.
  unfold in_ctx, AsmCtx_size. intros He [].
  split; rewrite He by lia; done.
Qed.

Lemma ctx_obj_save m a b c : ctx_obj m b → ctx_obj (save_ctx a c m) b.
Proof. intros H. unfold save_ctx. repeat apply ctx_obj_insert. exact H. Qed.

(** The seven saves. *)
Lemma exec_saves code s :
  ctx_obj (m_mem s) (m_regs s RDI) →
  exec_block (take 7 co_ctx_switch ++ code) s
  = exec_block code
      (MState (m_regs s) (m_rip s)
         (save_ctx (m_regs s RDI) (regs_ctx (m_regs s)) (m_mem s))).
Proof.
  intros Ho. destruct s as [R ip m]. cbn [m_regs m_rip m_mem] in *.
  cbn [take co_ctx_switch app].
  erewrite exec_block_cons;
    [|apply (exec_movq_store _ RSP RDI 0); [exact Ho|lia]|done].
  erewrite exec_block_cons;
    [|apply (exec_movq_store _ RBP RDI 1); cbn; auto using ctx_obj_insert; lia|done].
  erewrite exec_block_cons;
    [|apply (exec_movq_store _ RBX RDI 2); cbn; auto using ctx_obj_insert; lia|done].
  erewrite exec_block_cons;
    [|apply (exec_movq_store _ R12 RDI 3); cbn; auto using ctx_obj_insert; lia|done].
  erewrite exec_block_cons;
    [|apply (exec_movq_store _ R13 RDI 4); cbn; auto using ctx_obj_insert; lia|done].
  erewrite exec_block_cons;
    [|apply (exec_movq_store _ R14 RDI 5); cbn; auto 10 using ctx_obj_insert; lia|done].
  erewrite exec_block_cons;
    [|apply (exec_movq_store _ R15 RDI 6); cbn; auto 10 using ctx_obj_insert; lia|done].
  reflexivity.
Qed.

(** The seven restores and the return. *)
Lemma exec_restores s c ra :
  ctx_obj (m_mem s) (m_regs s RSI) → ctx_at (m_mem s) (m_regs s RSI) c →
  rsp c mod 8 = 0 → m_mem s !! rsp c = Some ra →
  exec_block (drop 7 co_ctx_switch) s
  = Some (MState (set_reg RSP (wrap64 (rsp c + 8)) (load_ctx c (m_regs s))) ra
            (m_mem s)).
Proof.
  intros Ho Hc Hal Hra. destruct s as [R ip m]. cbn [m_regs m_rip m_mem] in *.
  cbn [drop co_ctx_switch]. destruct Hc.
  erewrite exec_block_cons;
    [|apply (exec_movq_load _ RSI RSP 0); [exact Ho|lia|eassumption]|done].
  erewrite exec_block_cons;
    [|apply (exec_movq_load _ RSI RBP 1); [exact Ho|lia|eassumption]|done].
  erewrite exec_block_cons;
    [|apply (exec_movq_load _ RSI RBX 2); [exact Ho|lia|eassumption]|done].
  erewrite exec_block_cons;
    [|apply (exec_movq_load _ RSI R12 3); [exact Ho|lia|eassumption]|done].
  erewrite exec_block_cons;
    [|apply (exec_movq_load _ RSI R13 4); [exact Ho|lia|eassumption]|done].
  erewrite exec_block_cons;
    [|apply (exec_movq_load _ RSI R14 5); [exact Ho|lia|eassumption]|done].
  erewrite exec_block_cons;
    [|apply (exec_movq_load _ RSI R15 6); [exact Ho|lia|eassumption]|done].
  cbn [exec_block]. erewrite exec_ret; cbn; [reflexivity|exact Hal|exact Hra].
Qed.

(** The whole routine: the outgoing registers go to [*from], the incoming ones
    come from [*to], and control continues at the word on top of the incoming
    stack. *)
Lemma co_ctx_switch_exec s c ra :
  ctx_obj (m_mem s) (m_regs s RDI) → ctx_obj (m_mem s) (m_regs s RSI) →
  ctx_disjoint (m_regs s RDI) (m_regs s RSI) →
  ctx_at (m_mem s) (m_regs s RSI) c →
  rsp c mod 8 = 0 → m_mem s !! rsp c = Some ra → ¬ in_ctx (m_regs s RDI) (rsp c) →
  exec_block co_ctx_switch s
  = Some (MState
      (set_reg RSP (wrap64 (rsp c + 8)) (load_ctx c (m_regs s))) ra
      (save_ctx (m_regs s RDI) (regs_ctx (m_regs s)) (m_mem s))).
Proof.
  intros Hf Ht Hd Hc Hal Hra Hslot.
  rewrite <- (take_drop 7 co_ctx_switch), exec_saves by done.
  rewrite (exec_restores _ c ra); cbn [m_regs m_rip m_mem].
  - done.
  - by apply ctx_obj_save.
  - eapply ctx_at_ext; [|exact Hc]. intros x Hx. apply save_ctx_other.
    revert Hx Hd. unfold in_ctx, ctx_disjoint, AsmCtx_size. lia.
  - done.
  - by rewrite save_ctx_other.
Qed.

(** ** Parked threads *)

(** A thread suspended inside a call to [co_ctx_switch]: its callee-saved
    registers, with the stack pointer at the slot of its return address, and
    that return address. *)
Record thread := MkThread { th_saved : AsmCtx; th_rip : Z }.

(** [a] holds the context of a parked thread [t]. *)
Record parked (m : gmap Z Z) (a : Z) (t : thread) : Prop := {
  pk_obj : ctx_obj m a;
  pk_ctx : ctx_at m a (th_saved t);
  pk_align : rsp (th_saved t) mod 8 = 0;
  pk_ret : m !! rsp (th_saved t) = Some (th_rip t)
}.

(** The machine runs [t], just returned from its call to [co_ctx_switch]. *)
Record resumed (s : mstate) (t : thread) : Prop := {
  rs_rip : m_rip s = th_rip t;
  rs_rsp : m_regs s RSP = wrap64 (rsp (th_saved t) + 8);
  rs_rbp : m_regs s RBP = rbp (th_saved t);
  rs_rbx : m_regs s RBX = rbx (th_saved t);
  rs_r12 : m_regs s R12 = r12 (th_saved t);
  rs_r13 : m_regs s R13 = r13 (th_saved t);
  rs_r14 : m_regs s R14 = r14 (th_saved t);
  rs_r15 : m_regs s R15 = r15 (th_saved t)
}.

(** Every slot of [P] holds its thread. *)
Definition all_parked (m : gmap Z Z) (P : gmap Z thread) : Prop :=
  ∀ a t, P !! a = Some t → parked m a t.

(** Context objects do not overlap, and no parked thread's return address is
    stored inside one; [from] is the object about to be written. *)
Record separated (from : Z) (P : gmap Z thread) : Prop := {
  sep_fresh : P !! from = None;
  sep_ctx : ∀ a, is_Some (P !! a) → ctx_disjoint from a;
  sep_ret : ∀ a t, P !! a = Some t → ¬ in_ctx from (rsp (th_saved t))
}.

Definition callee_saved (r : reg) : bool :=
  match r with RBX | RBP | R12 | R13 | R14 | R15 => true | _ => false end.

Lemma load_regs_resumed c ip f ra m :
  resumed (MState (set_reg RSP (wrap64 (rsp c + 8)) (load_ctx c f)) ip m)
    (MkThread c ra) ↔ ip = ra.
Proof. split; [by intros []|]. intros ->. by split. Qed.

Lemma parked_save_self m a f ra :
  ctx_obj m a → f RSP mod 8 = 0 → m !! f RSP = Some ra → ¬ in_ctx a (f RSP) →
  parked (save_ctx a (regs_ctx f) m) a (MkThread (regs_ctx f) ra).
Proof.
  intros Ho Hal Hra Hn. split; cbn.
  - by apply ctx_obj_save.
  - apply save_ctx_at.
  - done.
  - by rewrite save_ctx_other.
Qed.

Lemma parked_save_other m from c a t :
  parked m a t → ctx_disjoint from a → ¬ in_ctx from (rsp (th_saved t)) →
  parked (save_ctx from c m) a t.
Proof.
  intros [Ho Hc Hal Hra] Hd Hn. split.
  - by apply ctx_obj_save.
  - eapply ctx_at_ext; [|exact Hc]. intros x Hx. apply save_ctx_other.
    revert Hx Hd. unfold in_ctx, ctx_disjoint, AsmCtx_size. lia.
  - done.
  - by rewrite save_ctx_other.
Qed.

(** Only the store instruction writes memory. *)
Definition is_store (i : instr) : bool :=
  match i with movq_store _ _ _ => true | _ => false end.

Lemma exec_instr_mem i s s' :
  is_store i = false → exec_instr i s = Some s' → m_mem s' = m_mem s.
Proof.
  destruct i; cbn [is_store exec_instr]; intros ? He; try done.
  all: repeat (apply bind_Some in He; destruct He as (? & _ & He)).
  all: by injection He as <-.
Qed.

Lemma exec_block_mem code s s' :
  forallb (λ i, negb (is_store i)) code = true →
  exec_block code s = Some s' → m_mem s' = m_mem s.
Proof.
  revert s. induction code as [|i code IH]; intros s Hs He.
  { by injection He as <-. }
  cbn in Hs. apply andb_prop in Hs as [Hi%negb_true_iff Hs].
  cbn [exec_block] in He. apply bind_Some in He as (s1 & H1 & He).
  apply exec_instr_mem in H1; [|done]. rewrite <- H1.
  destruct i; try (by apply IH); by injection He as <-.
Qed.

Lemma co_ctx_switch_mem s s1 :
  ctx_obj (m_mem s) (m_regs s RDI) →
  exec_block co_ctx_switch s = Some s1 →
  m_mem s1 = save_ctx (m_regs s RDI) (regs_ctx (m_regs s)) (m_mem s).
Proof.
  intros Ho He. rewrite <- (take_drop 7 co_ctx_switch), exec_saves in He by done.
  by apply exec_block_mem in He.
Qed.

(** A call to [co_ctx_switch] at a point where the caller's return address is
    on top of the stack. *)
Record calling (s : mstate) (ra : Z) : Prop := {
  cl_align : m_regs s RSP mod 8 = 0;
  cl_ret : m_mem s !! m_regs s RSP = Some ra;
  cl_from : ctx_obj (m_mem s) (m_regs s RDI);
  cl_slot : ¬ in_ctx (m_regs s RDI) (m_regs s RSP)
}.

Definition caller (s : mstate) (ra : Z) : thread :=
  MkThread (regs_ctx (m_regs s)) ra.

(** ** Properties of the context switch *)

(** C14: [co_ctx_switch(from, to)] implements a one-shot switch between parked
    threads: when [*to] holds a parked thread, the routine terminates, the
    machine then runs that thread (its callee-saved registers, its stack
    pointer just above its return address, its program counter), [*from] holds
    the caller, every other parked thread is still parked, and no word outside
    [*from] has changed. *)
Theorem co_ctx_switch_refines s ra P t :
  calling s ra → all_parked (m_mem s) P → separated (m_regs s RDI) P →
  P !! m_regs s RSI = Some t →
  ∃ s' P',
    exec_block co_ctx_switch s = Some s'
    ∧ parked_switch (m_regs s RDI) (m_regs s RSI) (caller s ra) P = Some (t, P')
    ∧ resumed s' t
    ∧ all_parked (m_mem s') P'
    ∧ P' !! m_regs s RDI = Some (caller s ra)
    ∧ ∀ x, ¬ in_ctx (m_regs s RDI) x → m_mem s' !! x = m_mem s !! x.
Proof.
  intros [Hal Hra Hfrom Hslot] Hall [Hfresh Hctx Hret] Ht.
  destruct (Hall _ _ Ht) as [Hto Hc Htal Htret].
  assert (m_regs s RDI ≠ m_regs s RSI) as Hne by congruence.
  eexists _, _. split_and!.
  - apply (co_ctx_switch_exec s (th_saved t) (th_rip t)); eauto.
  - by apply parked_switch_ne.
  - destruct t. by apply load_regs_resumed.
  - intros a u Ha. cbn [m_mem]. rewrite lookup_insert in Ha. case_decide.
    + simplify_eq. by apply parked_save_self.
    + rewrite lookup_delete in Ha. case_decide; [done|].
      apply parked_save_other; eauto.
  - apply lookup_insert_eq.
  - intros x Hx. by apply save_ctx_other.
Qed.

(** C15: seen from its caller, [co_ctx_switch(a, _)] behaves as an ordinary
    call: whenever a later [co_ctx_switch(_, a)] runs with the context object
    and the return address intact, execution continues at the caller's return
    address with every callee-saved register and the stack pointer as an
    ordinary return would leave them. *)
Theorem co_ctx_switch_roundtrip s ra s1 s2 :
  calling s ra →
  exec_block co_ctx_switch s = Some s1 →
  m_regs s2 RSI = m_regs s RDI →
  (∀ x, in_ctx (m_regs s RDI) x ∨ x = m_regs s RSP →
     m_mem s2 !! x = m_mem s1 !! x) →
  ctx_obj (m_mem s2) (m_regs s2 RDI) →
  ctx_disjoint (m_regs s2 RDI) (m_regs s RDI) →
  ¬ in_ctx (m_regs s2 RDI) (m_regs s RSP) →
  ∃ s3, exec_block co_ctx_switch s2 = Some s3
    ∧ m_rip s3 = ra
    ∧ m_regs s3 RSP = wrap64 (m_regs s RSP + 8)
    ∧ ∀ r, callee_saved r = true → m_regs s3 r = m_regs s r.
Proof.
  intros [Hal Hra Hfrom Hslot] Hex Hsi Hmem Hobj Hdisj Hnin.
  rewrite (co_ctx_switch_mem _ _ Hfrom Hex) in Hmem.
  pose proof (parked_save_self _ _ _ _ Hfrom Hal Hra Hslot) as Hp.
  set (m1 := save_ctx _ _ _) in *. destruct Hp as [Ho Hc _ Hr]. cbn in *.
  assert (ctx_at (m_mem s2) (m_regs s RDI) (regs_ctx (m_regs s))) as Hc2.
  { apply (ctx_at_ext m1); [|exact Hc]. intros x Hx. apply Hmem. by left. }
  eexists. split; [|split_and!].
  - apply (co_ctx_switch_exec s2 (regs_ctx (m_regs s)) ra);
      rewrite ?Hsi; auto.
    + destruct Ho. split; eauto.
    + cbn. rewrite Hmem by auto. done.
  - done.
  - done.
  - by intros [].
Qed.

(** ** The first switch into a new coroutine *)

(** Masking the low four bits rounds down to a multiple of 16. *)
Lemma align16_spec x : 0 ≤ x < 2 ^ 64 → align16 x = x - x mod 16.
Proof.
  intros Hx. unfold align16.
  replace (wrap64 (Z.lnot 15)) with (Z.ldiff (Z.ones 64) (Z.ones 4)) by reflexivity.
  replace (x mod 16) with (Z.land x (Z.ones 4)) by (by rewrite Z.land_ones by lia).
  assert (Z.land x (Z.ldiff (Z.ones 64) (Z.ones 4)) = Z.ldiff x (Z.ones 4)) as ->.
  { apply Z.bits_inj'. intros n Hn. rewrite Z.land_spec, !Z.ldiff_spec.
    destruct (decide (n < 64)) as [Hlt|Hge].
    - rewrite (Z.ones_spec_low 64) by lia. done.
    - rewrite (Z.bits_above_log2 x n), ?andb_false_l; [done|lia|].
      destruct (decide (x = 0)) as [->|Hx0]; [cbn; lia|].
      apply Z.log2_lt_pow2; [lia|]. apply Z.lt_le_trans with (2 ^ 64); [lia|].
      apply Z.pow_le_mono_r; lia. }
  rewrite Z.sub_nocarry_ldiff; apply Z.bits_inj'; intros n Hn;
    rewrite ?Z.ldiff_spec, ?Z.land_spec, ?Z.bits_0;
    by destruct (Z.testbit x n), (Z.testbit (Z.ones 4) n).
Qed.

(** The memory block of a stack. *)
Definition in_block (base size a : Z) : Prop := base ≤ a ∧ a + 8 ≤ base + size.

Section first_switch.
Context `{LinkMap}.

(** The top of the stack, rounded down. *)
Definition stack_top (stack stack_size : Z) : Z :=
  (stack + stack_size) - (stack + stack_size) mod 16.

Lemma stack_image_eq stack stack_size co :
  0 ≤ stack + stack_size < 2 ^ 64 → 16 ≤ stack_top stack stack_size →
  stack_image stack stack_size co
  = (MkAsmCtx (stack_top stack stack_size - 16) 0 0 0 0 0 0,
     [(stack_top stack stack_size - 8, co);
      (stack_top stack stack_size - 16, sym_co_trampoline)]).
Proof.
  intros Hr Htop. unfold stack_image. rewrite (wrap64_small (stack + _)) by lia.
  rewrite align16_spec by lia. fold (stack_top stack stack_size).
  assert (stack_top stack stack_size ≤ stack + stack_size) as Hle.
  { unfold stack_top. pose proof (Z.mod_pos_bound (stack + stack_size) 16). lia. }
  rewrite (wrap64_small (stack_top _ _ - 8)) by lia.
  rewrite wrap64_small by lia.
  by replace (stack_top stack stack_size - 8 - 8)
    with (stack_top stack stack_size - 16) by lia.
Qed.

Lemma stack_top_aligned stack stack_size :
  stack mod 16 = 0 →
  stack_top stack stack_size = stack + (stack_size - stack_size mod 16).
Proof.
  intros Hal. unfold stack_top. rewrite Zplus_mod, Hal, Z.add_0_l, Z.mod_mod by lia.
  lia.
Qed.

(** Rounding down keeps 16 bytes exactly when there are 16. *)
Lemma round16_ge n : 0 ≤ n → 16 ≤ n - n mod 16 ↔ 16 ≤ n.
Proof.
  intros Hn. pose proof (Z.mod_pos_bound n 16). pose proof (Z.div_mod n 16).
  split; [lia|]. intros. assert (1 ≤ n / 16) by (apply Z.div_le_lower_bound; lia).
  lia.
Qed.

Lemma stack_top_mod stack stack_size : stack_top stack stack_size mod 16 = 0.
Proof. unfold stack_top. rewrite Zminus_mod_idemp_r, Z.sub_diag. done. Qed.

(** The machine is about to switch for the first time into the coroutine
    object [co], whose context is at [to]. *)
Record first_switch (s : mstate) (stack stack_size co : Z) : Prop := {
  fs_rip : m_rip s = sym_co_ctx_switch;
  fs_from : ctx_obj (m_mem s) (m_regs s RDI);
  fs_to : ctx_obj (m_mem s) (m_regs s RSI);
  fs_disj : ctx_disjoint (m_regs s RDI) (m_regs s RSI);
  fs_block : 0 ≤ stack ∧ stack + stack_size < 2 ^ 64
             ∧ 16 ≤ stack_top stack stack_size;
  fs_ctx : ctx_at (m_mem s) (m_regs s RSI) (stack_image stack stack_size co).1;
  fs_words : Forall (λ w, m_mem s !! w.1 = Some w.2)
               (stack_image stack stack_size co).2;
  fs_sep : Forall (λ w, ¬ in_ctx (m_regs s RDI) w.1)
             (stack_image stack stack_size co).2
}.

(** The state in which the coroutine's C code starts. *)
Lemma first_switch_run s stack stack_size co :
  first_switch s stack stack_size co →
  asm_run 2 s = Some (MState
    (set_reg RDI co (set_reg RSP (stack_top stack stack_size)
       (set_reg RSP (stack_top stack stack_size - 8)
          (load_ctx (stack_image stack stack_size co).1 (m_regs s)))))
    sym_co_entry
    (save_ctx (m_regs s RDI) (regs_ctx (m_regs s)) (m_mem s))).
Proof.
  intros [Hrip Hf Ht Hd (H0 & Hr & Htop) Hc Hw Hs].
  assert (0 ≤ stack + stack_size) as Hnn.
  { unfold stack_top in Htop.
    pose proof (Z.mod_pos_bound (stack + stack_size) 16). lia. }
  assert (stack_top stack stack_size ≤ stack + stack_size) as Hle.
  { unfold stack_top. pose proof (Z.mod_pos_bound (stack + stack_size) 16). lia. }
  rewrite (stack_image_eq _ _ co (conj Hnn Hr) Htop) in *.
  pose proof (stack_top_mod stack stack_size) as Hmod.
  set (top := stack_top stack stack_size) in *. cbn [fst snd] in *.
  apply Forall_cons_1 in Hw as [Hw1 Hw2%Forall_inv].
  apply Forall_cons_1 in Hs as [Hs1 Hs2%Forall_inv]. cbn [fst snd] in *.
  assert (top mod 8 = 0) as Hmod8.
  { apply Z.mod_divide; [lia|]. apply Z.mod_divide in Hmod as [q ->]; [|lia].
    exists (2 * q). lia. }
  pose proof sym_distinct as (Hsw & Hse & Hte).
  cbn [asm_run]. unfold fetch at 1. rewrite Hrip, Z.eqb_refl. cbn [mbind option_bind].
  erewrite co_ctx_switch_exec; [|exact Hf|exact Ht|exact Hd|exact Hc|..]; cycle 1.
  { cbn. rewrite Zminus_mod, Hmod8. done. }
  { exact Hw2. }
  { exact Hs2. }
  cbn [mbind option_bind asm_run m_rip]. unfold fetch at 1.
  rewrite (proj2 (Z.eqb_neq sym_co_trampoline sym_co_ctx_switch)) by congruence.
  rewrite Z.eqb_refl. cbn [co_trampoline exec_block exec_instr m_regs m_rip m_mem rsp].
  assert (set_reg RSP (wrap64 (top - 16 + 8))
    (load_ctx (MkAsmCtx (top - 16) 0 0 0 0 0 0) (m_regs s)) RSP = top - 8) as ->.
  { rewrite set_reg_eq, wrap64_small by lia. lia. }
  rewrite (load64_ok _ _ co); cycle 1.
  { rewrite Zminus_mod, Hmod8. done. }
  { by rewrite save_ctx_other. }
  cbn [mbind option_bind exec_block exec_instr m_regs m_rip m_mem asm_run].
  unfold fetch. rewrite (proj2 (Z.eqb_neq sym_co_entry sym_co_ctx_switch)) by congruence.
  rewrite (proj2 (Z.eqb_neq sym_co_entry sym_co_trampoline)) by congruence.
  rewrite !wrap64_small by lia.
  by replace (top - 16 + 8) with (top - 8) by lia;
    replace (top - 8 + 8) with top by lia.
Qed.
End first_switch.

(** The System V AMD64 ABI: when control reaches the first instruction of a
    function, the stack pointer plus 8 is a multiple of 16. *)
Definition abi_entry_aligned (s : mstate) : Prop := (m_regs s RSP + 8) mod 16 = 0.

(** C16: the first switch into a new coroutine runs [co_trampoline] and arrives
    at [co_entry] with the coroutine in the first argument register, the stack
    pointer at the 16-aligned top of the private stack, the callee-saved
    registers cleared, and the caller parked in [*from]. *)
Theorem first_switch_enters_co_entry `{LinkMap} s stack stack_size co :
  first_switch s stack stack_size co →
  ∃ s', asm_run 2 s = Some s'
    ∧ m_rip s' = sym_co_entry
    ∧ m_regs s' RDI = co
    ∧ m_regs s' RSP = stack_top stack stack_size
    ∧ (∀ r, callee_saved r = true → m_regs s' r = 0)
    ∧ ctx_at (m_mem s') (m_regs s RDI) (regs_ctx (m_regs s)).
Proof.
  intros Hfs. eexists. split; [by apply first_switch_run|]. split_and!; try done.
  - intros r Hr. destruct (fs_block _ _ _ _ Hfs) as (? & ? & Htop).
    rewrite stack_image_eq; [by destruct r|..|done].
    unfold stack_top in Htop. pose proof (Z.mod_pos_bound (stack + stack_size) 16).
    lia.
  - apply save_ctx_at.
Qed.

(** C20: that first entry violates the calling convention: [co_trampoline]
    pops the argument and jumps, so [co_entry] starts with the stack pointer
    itself a multiple of 16, eight bytes away from what a C function may
    assume. *)
Theorem co_entry_stack_misaligned `{LinkMap} s stack stack_size co :
  first_switch s stack stack_size co →
  ∃ s', asm_run 2 s = Some s' ∧ m_rip s' = sym_co_entry
    ∧ m_regs s' RSP mod 16 = 0 ∧ ¬ abi_entry_aligned s'.
Proof.
  intros Hfs. eexists. split; [by apply first_switch_run|]. split_and!; [done|..].
  - apply stack_top_mod.
  - unfold abi_entry_aligned. cbn [m_regs].
    rewrite set_reg_ne, set_reg_eq by done.
    rewrite Zplus_mod, stack_top_mod. done.
Qed.

(** C19: [co_create] writes two words at the top of the stack without checking
    its size.  For a block that [malloc] aligned on 16 bytes both writes are
    inside the block exactly when the requested size is at least 16. *)
Theorem stack_image_in_block `{LinkMap} stack stack_size co :
  stack mod 16 = 0 → 0 < stack → 0 < stack_size → stack + stack_size < 2 ^ 64 →
  Forall (λ w, in_block stack stack_size w.1) (stack_image stack stack_size co).2
  ↔ 16 ≤ stack_size.
Proof.
  intros Hal Hlow Hpos Hhi. unfold in_block.
  pose proof (stack_top_aligned stack stack_size Hal) as Htop.
  pose proof (Z.mod_pos_bound stack_size 16).
  assert (stack_size mod 16 ≤ stack_size) by (apply Z.mod_le; lia).
  assert (16 ≤ stack).
  { pose proof (Z.div_mod stack 16). lia. }
  rewrite stack_image_eq by lia. cbn [snd].
  rewrite !Forall_cons, Forall_nil, Htop. cbn [fst].
  rewrite <- (round16_ge stack_size) by lia. lia.
Qed.

(** ** Concrete machine states *)

Module MachineDemo.
#[export] Instance link : LinkMap.
Proof.
  refine {| sym_co_ctx_switch := 0x401000; sym_co_trampoline := 0x401040;
            sym_co_entry := 0x401100 |}.
  done.
Defined.

(** Scheduler context at 0x5000, coroutine context at 0x6000, coroutine stack
    block [0x7000, 0x8000), scheduler stack word at 0x9000. *)
Definition regs (r : reg) : Z :=
  match r with
  | RDI => 0x5000 | RSI => 0x6000 | RSP => 0x9000
  | RBX => 11 | RBP => 22 | R12 => 33 | R13 => 44 | R14 => 55 | R15 => 66
  | _ => 0
  end.
Definition co_saved : AsmCtx := MkAsmCtx 0x7ff0 1 2 3 4 5 6.

Definition mem : gmap Z Z :=
  save_ctx 0x6000 co_saved
    (save_ctx 0x5000 zero_ctx
       (write_words [(0x7ff8, 0x6000); (0x7ff0, 0x401040); (0x9000, 0x402000)] ∅)).
Definition state : mstate := MState regs 0x401000 mem.

(** The same memory with the context [co_create] builds. *)
Definition fresh_mem : gmap Z Z :=
  save_ctx 0x6000 (stack_image 0x7000 0x1000 0x6000).1 mem.
Definition fresh_state : mstate := MState regs 0x401000 fresh_mem.

(** The switch back: [from] and [to] exchanged, from the coroutine's stack. *)
Definition regs_back (r : reg) : Z :=
  match r with RDI => 0x6000 | RSI => 0x5000 | RSP => 0x7ff0 | _ => 7 end.
Definition state_back : mstate :=
  MState regs_back 0x401000 (save_ctx 0x5000 (regs_ctx regs) mem).

Lemma calling_state : calling state 0x402000.
Proof.
  split; try reflexivity.
  - split; [reflexivity|split; vm_compute; discriminate|].
    exists zero_ctx. by split.
  - cbn. unfold in_ctx, AsmCtx_size. lia.
Qed.

Lemma ctx_obj_co : ctx_obj mem 0x6000.
Proof.
  split; [reflexivity|split; vm_compute; discriminate|].
  exists co_saved. by split.
Qed.

Lemma first_switch_fresh : first_switch fresh_state 0x7000 0x1000 0x6000.
Proof.
  split; try reflexivity.
  - split; [reflexivity|split; vm_compute; discriminate|].
    exists zero_ctx. by split.
  - split; [reflexivity|split; vm_compute; discriminate|].
    eexists. apply save_ctx_at.
  - left. done.
  - unfold stack_top. split_and!; vm_compute; done || discriminate.
  - apply save_ctx_at.
  - repeat constructor.
  - repeat constructor; unfold in_ctx, AsmCtx_size; vm_compute; intros []; done.
Qed.
End MachineDemo.
#[local] Existing Instance MachineDemo.link.

Lemma co_ctx_switch_refines_witness :
  ∃ s' (P' : gmap Z thread), exec_block co_ctx_switch MachineDemo.state = Some s'
    ∧ P' !! 0x5000 = Some (caller MachineDemo.state 0x402000)
    ∧ resumed s' (MkThread MachineDemo.co_saved 0x401040).
Proof.
  destruct (co_ctx_switch_refines MachineDemo.state 0x402000
    {[ 0x6000 := MkThread MachineDemo.co_saved 0x401040 ]}
    (MkThread MachineDemo.co_saved 0x401040)) as (s' & P' & H1 & _ & H3 & _ & H5 & _).
  - apply MachineDemo.calling_state.
  - intros a t [<- <-]%lookup_singleton_Some.
    split; try reflexivity; [apply MachineDemo.ctx_obj_co|by split].
  - split; [reflexivity|..].
    + intros a [t [<- <-]%lookup_singleton_Some]. by left.
    + intros a t [<- <-]%lookup_singleton_Some.
      unfold in_ctx, AsmCtx_size. cbn. lia.
  - reflexivity.
  - exists s', P'. by split_and!.
Defined.

Lemma co_ctx_switch_roundtrip_witness :
  ∃ s3, exec_block co_ctx_switch MachineDemo.state_back = Some s3
    ∧ m_rip s3 = 0x402000 ∧ m_regs s3 RBX = 11.
Proof.
  destruct (co_ctx_switch_roundtrip MachineDemo.state 0x402000
    (MState (set_reg RSP 0x7ff8 (load_ctx MachineDemo.co_saved MachineDemo.regs))
       0x401040 (save_ctx 0x5000 (regs_ctx MachineDemo.regs) MachineDemo.mem))
    MachineDemo.state_back) as (s3 & H1 & H2 & _ & H4).
  - apply MachineDemo.calling_state.
  - rewrite (co_ctx_switch_exec _ MachineDemo.co_saved 0x401040).
    + done.
    + apply MachineDemo.calling_state.
    + apply MachineDemo.ctx_obj_co.
    + by left.
    + by split.
    + done.
    + done.
    + cbn. unfold in_ctx, AsmCtx_size. lia.
  - reflexivity.
  - intros x _. reflexivity.
  - cbn. apply ctx_obj_save, MachineDemo.ctx_obj_co.
  - by right.
  - cbn. unfold in_ctx, AsmCtx_size. lia.
  - exists s3. split_and!; [done..|]. by apply H4.
Defined.

Lemma first_switch_enters_co_entry_witness :
  ∃ s', asm_run 2 MachineDemo.fresh_state = Some s' ∧ m_regs s' RDI = 0x6000
    ∧ m_regs s' RSP = 0x8000.
Proof.
  destruct (first_switch_enters_co_entry _ _ _ _ MachineDemo.first_switch_fresh)
    as (s' & H1 & _ & H2 & H3 & _).
  exists s'. by split_and!.
Defined.

Lemma co_entry_stack_misaligned_witness :
  ∃ s', asm_run 2 MachineDemo.fresh_state = Some s' ∧ ¬ abi_entry_aligned s'.
Proof.
  destruct (co_entry_stack_misaligned _ _ _ _ MachineDemo.first_switch_fresh)
    as (s' & H1 & _ & _ & H2).
  exists s'. by split.
Defined.

Lemma stack_image_in_block_witness :
  ¬ Forall (λ w, in_block 0x7000 8 w.1)
      (stack_image (H := MachineDemo.link) 0x7000 8 0x6000).2.
Proof.
  rewrite (stack_image_in_block (H := MachineDemo.link)); done || lia.
Defined.
