(* ===== verification/State.v ===== *)
(** * The data of the scheduler ([src/coroutine.c], [include/coroutine.h])

    The coroutine object, the scheduler's global structure [S], the heap they
    live in, and what the library relies on from outside: the allocator and the
    code of the coroutine bodies. *)

From stdpp Require Import gmap.
From S2P Require Import Prelude Ring Machine.

Abbreviation ptr := Z (only parsing).
Definition NULL : ptr := 0.

Definition DEFAULT_STACK_SIZE : Z := 256 * 1024.
Definition MAX_COROUTINES : Z := 512.
Definition QUEUE_CAP : Z := MAX_COROUTINES * 2.

(** [consts]: gives [lia] the values of the constants. *)
Lemma const_values :
  QUEUE_CAP = 1024 ∧ MAX_COROUTINES = 512 ∧ INT_MAX = 2147483647
  ∧ INT_MIN = -2147483648 ∧ DEFAULT_STACK_SIZE = 262144 ∧ NULL = 0.
Proof. done. Qed.
Ltac consts := pose proof const_values as (? & ? & ? & ? & ? & ?).

(** [sizeof(Coroutine)] on x86-64: two ints, six words and an [AsmCtx]. *)
Definition sizeof_Coroutine : Z := 4 + 4 + 5 * 8 + AsmCtx_size.

Inductive CoState : Set := CO_READY | CO_RUNNING | CO_WAITING | CO_DONE.

#[export] Instance CoState_eq_dec : EqDecision CoState.
Proof. solve_decision. Defined.

(** The C [enum] values. *)
Definition CoState_val (s : CoState) : Z :=
  match s with CO_READY => 0 | CO_RUNNING => 1 | CO_WAITING => 2 | CO_DONE => 3 end.

Record Coroutine := MkCo {
  c_id : Z;
  c_state : CoState;
  c_fn : ptr;
  c_arg : ptr;
  c_stack : ptr;
  c_stack_size : Z;
  c_awaiting : ptr
}.

#[export] Instance Coroutine_eq_dec : EqDecision Coroutine.
Proof. solve_decision. Defined.

(** What [calloc] returns: every field zero. *)
Definition zero_co : Coroutine := MkCo 0 CO_READY NULL NULL NULL 0 NULL.

Definition with_state (st : CoState) (c : Coroutine) : Coroutine :=
  MkCo (c_id c) st (c_fn c) (c_arg c) (c_stack c) (c_stack_size c) (c_awaiting c).
Definition with_awaiting (p : ptr) (c : Coroutine) : Coroutine :=
  MkCo (c_id c) (c_state c) (c_fn c) (c_arg c) (c_stack c) (c_stack_size c) p.
Definition with_stack (p : ptr) (c : Coroutine) : Coroutine :=
  MkCo (c_id c) (c_state c) (c_fn c) (c_arg c) p (c_stack_size c) (c_awaiting c).

(** The context fields: the coroutine object holds [ctx], the scheduler
    [main_ctx].  Their contents are kept in a map of slots. *)
Inductive ctx_ref : Set := MainCtx | CoCtx (co : ptr).

#[export] Instance ctx_ref_eq_dec : EqDecision ctx_ref.
Proof. solve_decision. Defined.
#[export] Instance ctx_ref_countable : Countable ctx_ref.
Proof.
  refine (inj_countable'
    (λ r, match r with MainCtx => None | CoCtx p => Some p end)
    (λ o, match o with None => MainCtx | Some p => CoCtx p end) _).
  by intros [].
Defined.

(** The scheduler's globals. *)
Record Sched := MkSched {
  s_all : list ptr;
  s_count : Z;
  s_queue : list ptr;
  s_q_head : Z;
  s_q_tail : Z;
  s_q_size : Z;
  s_running : ptr
}.

(** Static storage: everything zero. *)
Definition zero_sched : Sched :=
  MkSched (replicate (Z.to_nat MAX_COROUTINES) NULL) 0
          (replicate (Z.to_nat QUEUE_CAP) NULL) 0 0 0 NULL.

Definition with_all (x : list ptr) (s : Sched) : Sched :=
  MkSched x (s_count s) (s_queue s) (s_q_head s) (s_q_tail s) (s_q_size s) (s_running s).
Definition with_count (x : Z) (s : Sched) : Sched :=
  MkSched (s_all s) x (s_queue s) (s_q_head s) (s_q_tail s) (s_q_size s) (s_running s).
Definition with_queue (x : list ptr) (s : Sched) : Sched :=
  MkSched (s_all s) (s_count s) x (s_q_head s) (s_q_tail s) (s_q_size s) (s_running s).
Definition with_q_head (x : Z) (s : Sched) : Sched :=
  MkSched (s_all s) (s_count s) (s_queue s) x (s_q_tail s) (s_q_size s) (s_running s).
Definition with_q_tail (x : Z) (s : Sched) : Sched :=
  MkSched (s_all s) (s_count s) (s_queue s) (s_q_head s) x (s_q_size s) (s_running s).
Definition with_q_size (x : Z) (s : Sched) : Sched :=
  MkSched (s_all s) (s_count s) (s_queue s) (s_q_head s) (s_q_tail s) x (s_running s).
Definition with_running (x : ptr) (s : Sched) : Sched :=
  MkSched (s_all s) (s_count s) (s_queue s) (s_q_head s) (s_q_tail s) (s_q_size s) x.

(** The run-queue is a circular buffer. *)
#[export] Instance run_queue : RingView Sched ptr := {|
  ring_view s := Ring (s_queue s) (s_q_head s) (s_q_tail s) (s_q_size s);
  ring_cap := QUEUE_CAP
|}.

(** ** What the library gets from outside *)

(** [malloc] and [calloc] (C11 7.22.3, and the 16-byte alignment of
    [max_align_t] on x86-64): a block of the requested size that overlaps no
    live block, or a null pointer.  The strategy may depend on any state. *)
Class Allocator := {
  alloc_state : Type;
  alloc_block : alloc_state → gmap ptr Z → Z → alloc_state * option ptr;
  alloc_ok σ bl n σ' p :
    0 < n → alloc_block σ bl n = (σ', Some p) →
    0 < p ∧ p mod 16 = 0 ∧ p + n < 2 ^ 64
    ∧ ∀ q m, bl !! q = Some m → p + n ≤ q ∨ q + m ≤ p
}.

(** The library calls a body makes between two of its control points of type
    [L]; the library's answer selects the next one. *)
Inductive ucall (L : Type) : Type :=
| UReturn
| UTau (k : L)
| UYield (k : L)
| UAwait (other : ptr) (k : L)
| UCreate (fn arg : ptr) (stack_size : Z) (k : ptr → L)
| UFree (co : ptr) (k : L)
| UState (co : ptr) (k : CoState → L)
| UId (k : Z → L)
| URun (k : L).
Arguments UReturn {L}.
Arguments UTau {L} k.
Arguments UYield {L} k.
Arguments UAwait {L} other k.
Arguments UCreate {L} fn arg stack_size k.
Arguments UFree {L} co k.
Arguments UState {L} co k.
Arguments UId {L} k.
Arguments URun {L} k.

(** The program that uses the library: at control point [l] with user memory
    [u] it computes up to its next library call; [ufn] is the code behind a
    function pointer. *)
Class UserCode (L U : Type) := {
  ustep : L → U → ucall L * U;
  ufn : ptr → ptr → L
}.

(** ** Control *)

(** An activation record, at the program point where it continues. *)
Inductive frame (L : Type) : Type :=
| FUser (l : L)              (* user code at [l] *)
| FTrampoline (co : ptr)     (* co_trampoline, [co] popped into %rdi *)
| FEntry (co : ptr)          (* co_entry, before [co->fn(co->arg)] *)
| FEntryRet (co : ptr)       (* co_entry, after the body returned *)
| FEntryAbort                (* co_entry, after its last context switch *)
| FRun                       (* co_run, at the loop condition *)
| FResume.                   (* resume, after its context switch *)
Arguments FUser {L} l.
Arguments FTrampoline {L} co.
Arguments FEntry {L} co.
Arguments FEntryRet {L} co.
Arguments FEntryAbort {L}.
Arguments FRun {L}.
Arguments FResume {L}.

(** A stack of activation records, innermost first. *)
Abbreviation stackL L := (list (frame L)) (only parsing).

(** The contents of a context field: the bits [co_create] wrote, or what
    [co_ctx_switch] saved there, represented by the stack it resumes. *)
Inductive saved (L : Type) : Type :=
| SFresh (c : AsmCtx)
| SFrames (k : stackL L).
Arguments SFresh {L} c.
Arguments SFrames {L} k.

(** How a run goes wrong: a failed assertion, or undefined behaviour. *)
Inductive error : Set :=
| AssertQueueOverflow     (* q_push: "run-queue overflow" *)
| AssertFnNull            (* co_create: "fn must not be NULL" *)
| AssertTooMany           (* co_create: "too many coroutines" *)
| AssertFreeNull          (* co_free: "NULL coroutine" *)
| AssertFreeNotDone       (* co_free on non-finished coroutine *)
| AssertRunNotReady       (* co_run: co->state == CO_READY *)
| AssertYieldOutside      (* co_yield called outside a coroutine *)
| AssertAwaitNull         (* co_await on NULL *)
| AssertAwaitOutside      (* co_await called outside a coroutine *)
| AssertStateNull         (* co_state: co *)
| Aborted                 (* co_entry: abort() *)
| BadDeref (p : ptr)      (* access to an object that is not live *)
| BadFree (p : ptr)       (* free of a block that is not live *)
| BadStore (a : Z)        (* write outside the block of the stack *)
| BadIndex                (* array index out of bounds *)
| IntOverflow             (* signed integer overflow *)
| BadCall                 (* call through a null function pointer *)
| StaleContext            (* resumption of a context already resumed *)
| BadContext.             (* initial context that is not a stack image *)

#[export] Instance error_eq_dec : EqDecision error.
Proof. solve_decision. Defined.

(** ** The whole state *)

Record world (L U : Type) `{Allocator} := MkWorld {
  w_S : Sched;
  w_objs : gmap ptr Coroutine;         (* live coroutine objects *)
  w_blocks : gmap ptr Z;               (* live heap blocks and their sizes *)
  w_words : gmap Z Z;                  (* the words written to stacks *)
  w_ctxs : gmap ctx_ref (saved L);     (* the context fields *)
  w_alloc : alloc_state;
  w_user : U;                          (* the user program's memory *)
  w_cpu : stackL L                     (* the stack being executed *)
}.
Arguments MkWorld {L U _} _ _ _ _ _ _ _ _.
Arguments w_S {L U _} _.
Arguments w_objs {L U _} _.
Arguments w_blocks {L U _} _.
Arguments w_words {L U _} _.
Arguments w_ctxs {L U _} _.
Arguments w_alloc {L U _} _.
Arguments w_user {L U _} _.
Arguments w_cpu {L U _} _.

Section setters.
Context {L U : Type} `{Allocator}.
Implicit Types w : world L U.

Definition set_S x w : world L U :=
  MkWorld x (w_objs w) (w_blocks w) (w_words w) (w_ctxs w) (w_alloc w) (w_user w) (w_cpu w).
Definition set_objs x w : world L U :=
  MkWorld (w_S w) x (w_blocks w) (w_words w) (w_ctxs w) (w_alloc w) (w_user w) (w_cpu w).
Definition set_blocks x w : world L U :=
  MkWorld (w_S w) (w_objs w) x (w_words w) (w_ctxs w) (w_alloc w) (w_user w) (w_cpu w).
Definition set_words x w : world L U :=
  MkWorld (w_S w) (w_objs w) (w_blocks w) x (w_ctxs w) (w_alloc w) (w_user w) (w_cpu w).
Definition set_ctxs x w : world L U :=
  MkWorld (w_S w) (w_objs w) (w_blocks w) (w_words w) x (w_alloc w) (w_user w) (w_cpu w).
Definition set_alloc x w : world L U :=
  MkWorld (w_S w) (w_objs w) (w_blocks w) (w_words w) (w_ctxs w) x (w_user w) (w_cpu w).
Definition set_user x w : world L U :=
  MkWorld (w_S w) (w_objs w) (w_blocks w) (w_words w) (w_ctxs w) (w_alloc w) x (w_cpu w).
Definition set_cpu x w : world L U :=
  MkWorld (w_S w) (w_objs w) (w_blocks w) (w_words w) (w_ctxs w) (w_alloc w) (w_user w) x.

(** The state before [main] starts at control point [l]. *)
Definition init_world (σ : alloc_state) (u : U) (l : L) : world L U :=
  MkWorld zero_sched ∅ ∅ ∅ {[ MainCtx := SFresh zero_ctx ]} σ u [FUser l].
End setters.

(** Library code: state, and the errors above. *)
Abbreviation M L U := (SE (world L U) error).
