(* ===== verification/RunQueue.v ===== *)
(** * The run-queue ([q_push], [q_pop], src/coroutine.c lines 107-121)

    The circular buffer of READY coroutines, its abstract specification as a
    FIFO list, and the refinement between the two. *)

From stdpp Require Import gmap.
From S2P Require Import Prelude Ring Machine State.

Section run_queue.
Context {L U : Type} `{Allocator}.
Implicit Types w : world L U.

Definition get_S : M L U Sched := se_gets w_S.
Definition mod_S (f : Sched → Sched) : M L U unit :=
  se_modify (λ w, set_S (f (w_S w)) w).

(** [a\[i\]] for an array of the scheduler. *)
Definition array_get {A} (a : list A) (i : Z) : M L U A :=
  se_some (zlookup a i) BadIndex.

Definition q_push (co : ptr) : M L U unit :=
  s ← get_S;
  _ ← se_assert (s_q_size s <? QUEUE_CAP) AssertQueueOverflow;
  _ ← se_assert (in_bounds (s_queue s) (s_q_tail s)) BadIndex;
  _ ← mod_S (with_queue (zinsert (s_q_tail s) co (s_queue s)));
  t ← int_add IntOverflow (s_q_tail s) 1;
  _ ← mod_S (with_q_tail (Z.rem t QUEUE_CAP));
  n ← int_add IntOverflow (s_q_size s) 1;
  mod_S (with_q_size n).

Definition q_pop : M L U ptr :=
  s ← get_S;
  if s_q_size s =? 0 then mret NULL
  else
    co ← array_get (s_queue s) (s_q_head s);
    h ← int_add IntOverflow (s_q_head s) 1;
    _ ← mod_S (with_q_head (Z.rem h QUEUE_CAP));
    n ← int_add IntOverflow (s_q_size s) (-1);
    _ ← mod_S (with_q_size n);
    mret co.

(** ** The state after each operation *)

Definition pushed (co : ptr) (s : Sched) : Sched :=
  MkSched (s_all s) (s_count s) (zinsert (s_q_tail s) co (s_queue s))
    (s_q_head s) (Z.rem (s_q_tail s + 1) QUEUE_CAP) (s_q_size s + 1)
    (s_running s).
Definition popped (s : Sched) : Sched :=
  MkSched (s_all s) (s_count s) (s_queue s)
    (Z.rem (s_q_head s + 1) QUEUE_CAP) (s_q_tail s) (s_q_size s - 1)
    (s_running s).

Lemma q_push_ok w co l :
  ring_rep (w_S w) l → Z.of_nat (length l) < QUEUE_CAP →
  q_push co w = Ok (set_S (pushed co (w_S w)) w, ()).
Proof.
  intros Hr Hl. pose proof (rr_tail_bound _ _ Hr) as Ht.
  pose proof (rr_size _ _ Hr) as Hs. pose proof (rr_length _ _ Hr) as Hlen.
  cbn in Ht, Hs, Hlen.
  consts. unfold q_push, get_S, se_gets. se_step.
  erewrite se_bind_ok; [|apply se_assert_true, Z.ltb_lt; lia].
  erewrite se_bind_ok; [|apply se_assert_true, in_bounds_true; lia].
  se_step.
  erewrite se_bind_ok; [|apply int_add_ok; lia].
  se_step.
  erewrite se_bind_ok; [|apply int_add_ok; lia].
  reflexivity.
Qed.

Lemma pushed_rep s co l :
  ring_rep s l → Z.of_nat (length l) < QUEUE_CAP →
  ring_rep (pushed co s) (l ++ [co]).
Proof. intros Hr Hl. by eapply (ring_push_rep s). Qed.

Lemma q_pop_empty w : ring_rep (w_S w) [] → q_pop w = Ok (w, NULL).
Proof.
  intros Hr. unfold q_pop, get_S, se_gets. se_step.
  pose proof (rr_size _ _ Hr) as Hs. cbn in Hs. by rewrite Hs.
Qed.

Lemma q_pop_ok w co l :
  ring_rep (w_S w) (co :: l) →
  q_pop w = Ok (set_S (popped (w_S w)) w, co).
Proof.
  intros Hr. pose proof (rr_head _ _ Hr) as Hh. pose proof (rr_size _ _ Hr) as Hs.
  pose proof (rr_fits _ _ Hr) as Hf. pose proof (ring_pop_head _ _ _ Hr) as Hhd.
  cbn in Hh, Hs, Hf, Hhd. consts.
  unfold q_pop, get_S, se_gets. se_step.
  rewrite (proj2 (Z.eqb_neq _ _)) by lia.
  unfold array_get. erewrite se_bind_ok; [|by apply se_some_ok].
  erewrite se_bind_ok; [|apply int_add_ok; lia].
  se_step.
  erewrite se_bind_ok; [|apply int_add_ok; lia].
  reflexivity.
Qed.

Lemma popped_rep s co l : ring_rep s (co :: l) → ring_rep (popped s) l.
Proof. intros Hr. by eapply (ring_pop_rep s). Qed.

(** ** Specification: a bounded FIFO *)

Definition fifo_push (co : ptr) (l : list ptr) : option (list ptr) :=
  if (length l <? Z.to_nat QUEUE_CAP)%nat then Some (l ++ [co]) else None.
Definition fifo_pop (l : list ptr) : ptr * list ptr :=
  match l with [] => (NULL, []) | co :: l => (co, l) end.

(** Everything in a state but the run-queue. *)
Definition same_but_queue w w' : Prop :=
  w' = set_S (MkSched (s_all (w_S w)) (s_count (w_S w)) (s_queue (w_S w'))
                (s_q_head (w_S w')) (s_q_tail (w_S w')) (s_q_size (w_S w'))
                (s_running (w_S w))) w.
End run_queue.

Section run_queue_props.
Context {L U : Type} `{Allocator}.
Implicit Types w : world L U.

(** C17: [q_push] refines the push of a bounded FIFO list: it appends and
    changes nothing else while there is room, and stops the program with
    the overflow assertion (and with nothing else: no index leaves the array,
    no index computation overflows) when the queue is full. *)
Theorem q_push_refines w co l :
  ring_rep (w_S w) l →
  match fifo_push co l with
  | Some l' => ∃ w', q_push co w = Ok (w', ()) ∧ ring_rep (w_S w') l'
                     ∧ same_but_queue w w'
  | None => q_push co w = Err AssertQueueOverflow
  end.
Proof.
  intros Hr. unfold fifo_push. pose proof (rr_size _ _ Hr) as Hs. cbn in Hs.
  destruct (Nat.ltb_spec (length l) (Z.to_nat QUEUE_CAP)) as [Hlt|Hge].
  - assert (Z.of_nat (length l) < QUEUE_CAP) by lia.
    eexists. split; [by eapply q_push_ok|]. split; [|done].
    by apply pushed_rep.
  - unfold q_push, get_S, se_gets. se_step. apply se_bind_err.
    unfold se_assert. by rewrite (proj2 (Z.ltb_ge _ _)) by lia.
Qed.

(** [q_pop] refines the pop of that list: it never fails, returns the
    oldest element (or a null pointer when there is none) and changes nothing
    but the queue. *)
Theorem q_pop_refines w l :
  ring_rep (w_S w) l →
  ∃ w', q_pop w = Ok (w', (fifo_pop l).1) ∧ ring_rep (w_S w') (fifo_pop l).2
        ∧ same_but_queue w w'.
Proof.
  intros Hr. destruct l as [|co l]; cbn.
  - exists w. split_and!; [by apply q_pop_empty|done|]. by destruct w as [[]].
  - eexists. split; [by eapply q_pop_ok|]. split; [|done].
    by eapply popped_rep.
Qed.
End run_queue_props.

Lemma zero_sched_rep : ring_rep zero_sched [].
Proof. by apply ring_init_rep. Qed.

(** ** Concrete queues: one that wraps around, and a full one *)

Module RunQueueDemo.
(** An allocator that never has a block. *)
#[local, refine] Instance no_heap : Allocator := {|
  alloc_state := (); alloc_block σ _ _ := (σ, None)
|}.
Proof. done. Defined.

Definition sched_with (q : list ptr) (h t n : Z) : world () () :=
  set_S (MkSched (s_all zero_sched) 0 q h t n NULL) (init_world (() : alloc_state) () ()).

Definition empty : world () () := sched_with (s_queue zero_sched) 0 0 0.
(** Three coroutines, at indices 1022, 1023 and 0. *)
Definition wrapped : world () () :=
  sched_with (<[0%nat := 48]> (<[1023%nat := 32]> (<[1022%nat := 16]>
    (replicate (Z.to_nat QUEUE_CAP) NULL)))) 1022 1 3.
Definition full : world () () :=
  sched_with (replicate (Z.to_nat QUEUE_CAP) 16) 5 5 QUEUE_CAP.

Lemma q_push_refines_witness :
  (∃ w', q_push 64 wrapped = Ok (w', ()) ∧ ring_rep (w_S w') [16; 32; 48; 64]
         ∧ same_but_queue wrapped w')
  ∧ q_push 64 full = Err AssertQueueOverflow.
Proof.
  assert (ring_rep (w_S wrapped) [16; 32; 48]) as Hw.
  { apply ring_test_list; by vm_compute. }
  assert (ring_rep (w_S full) (replicate (Z.to_nat QUEUE_CAP) 16)) as Hf.
  { apply ring_test_list; by vm_compute. }
  split.
  - apply (q_push_refines wrapped 64 _ Hw).
  - apply (q_push_refines full 64 _ Hf).
Defined.

Lemma q_pop_refines_witness :
  (∃ w', q_pop wrapped = Ok (w', 16) ∧ ring_rep (w_S w') [32; 48]
         ∧ same_but_queue wrapped w')
  ∧ ∃ w', q_pop empty = Ok (w', NULL) ∧ ring_rep (w_S w') [].
Proof.
  assert (ring_rep (w_S wrapped) [16; 32; 48]) as Hw.
  { apply ring_test_list; by vm_compute. }
  split.
  - apply (q_pop_refines wrapped _ Hw).
  - destruct (q_pop_refines empty [] zero_sched_rep)
      as (w' & ? & ? & _). by exists w'.
Defined.
End RunQueueDemo.
