(* ===== verification/Api.v ===== *)
(** * The library's operations ([src/coroutine.c])

    The functions of the file, in its order, over the state of [State.v].  A
    function that contains a context switch takes the stack [k] of its caller:
    what the switch parks.  [step] runs the activation record on top of the
    current stack up to the next program point; [exec] iterates it. *)

From stdpp Require Import gmap.
From S2P Require Import Prelude Ring Machine State RunQueue.

Section api.
Context {L U : Type} `{Allocator, LinkMap, UserCode L U}.
Implicit Types w : world L U.

(** ** Heap access *)

Definition deref (p : ptr) : M L U Coroutine :=
  w ← se_gets (λ w, w); se_some (w_objs w !! p) (BadDeref p).

(** [*p] is updated by [f]. *)
Definition mod_co (p : ptr) (f : Coroutine → Coroutine) : M L U unit :=
  c ← deref p;
  se_modify (λ w, set_objs (<[p := f c]> (w_objs w)) w).

Definition malloc (n : Z) : M L U ptr :=
  w ← se_gets (λ w, w);
  let '(σ, r) := alloc_block (w_alloc w) (w_blocks w) n in
  _ ← se_modify (set_alloc σ);
  match r with
  | None => mret NULL
  | Some p => _ ← se_modify (λ w, set_blocks (<[p := n]> (w_blocks w)) w); mret p
  end.

(** [calloc(1, sizeof(Coroutine))] *)
Definition calloc_Coroutine : M L U ptr :=
  p ← malloc sizeof_Coroutine;
  if p =? NULL then mret NULL
  else _ ← se_modify (λ w, set_objs (<[p := zero_co]> (w_objs w)) w); mret p.

Definition free (p : ptr) : M L U unit :=
  if p =? NULL then mret ()
  else
    w ← se_gets (λ w, w);
    match w_blocks w !! p with
    | None => se_fail (BadFree p)
    | Some _ => se_modify (λ w,
        set_blocks (delete p (w_blocks w))
          (set_objs (delete p (w_objs w))
             (set_ctxs (delete (CoCtx p) (w_ctxs w)) w)))
    end.

(** [*a = v] for a word of the stack block at [stack]. *)
Definition store_stack (stack : ptr) (a v : Z) : M L U unit :=
  w ← se_gets (λ w, w);
  match w_blocks w !! stack with
  | Some n =>
      if (stack <=? a) && (a + 8 <=? stack + n)
      then se_modify (λ w, set_words (<[a := v]> (w_words w)) w)
      else se_fail (BadStore a)
  | None => se_fail (BadStore a)
  end.

Definition set_stack (k : stackL L) : M L U unit := se_modify (set_cpu k).

(** ** Context switch *)

(** The stack a context resumes: a fresh one is decoded from the words that
    [ret] and [pop] will read. *)
Definition resolve (w : world L U) (s : saved L) : result error (stackL L) :=
  match s with
  | SFrames k => Ok k
  | SFresh c =>
      match w_words w !! rsp c, w_words w !! (rsp c + 8) with
      | Some a, Some p =>
          if a =? sym_co_trampoline then Ok [FTrampoline p] else Err BadContext
      | _, _ => Err BadContext
      end
  end.

(** [co_ctx_switch(from, to)] called from the stack [k]. *)
Definition co_ctx_switch (from to : ctx_ref) (k : stackL L) : M L U unit := λ w,
  match parked_switch from to (SFrames k) (w_ctxs w) with
  | None => Err StaleContext
  | Some (s, P) =>
      match resolve w s with
      | Ok k' => Ok (set_cpu k' (set_ctxs P w), ())
      | Err e => Err e
      end
  end.

(** ** Wakeup *)

Definition wakeup_one (done co : ptr) : M L U unit :=
  c ← deref co;
  if bool_decide (c_state c = CO_WAITING) && (c_awaiting c =? done) then
    _ ← mod_co co (with_state CO_READY);
    _ ← mod_co co (with_awaiting NULL);
    q_push co
  else mret ().

(** [for (int i = 0; i < S.count; i++)]: [n] iterations left. *)
Fixpoint wakeup_loop (done : ptr) (n : nat) (i : Z) : M L U unit :=
  match n with
  | O => mret ()
  | Datatypes.S n =>
      s ← get_S;
      co ← array_get (s_all s) i;
      _ ← wakeup_one done co;
      i' ← int_add IntOverflow i 1;
      wakeup_loop done n i'
  end.

Definition wakeup_waiters (done : ptr) : M L U unit :=
  s ← get_S; wakeup_loop done (Z.to_nat (s_count s)) 0.

(** ** co_entry *)

(** [co->fn(co->arg);] *)
Definition co_entry (co : ptr) (k : stackL L) : M L U unit :=
  c ← deref co;
  _ ← se_assert (negb (c_fn c =? NULL)) BadCall;
  set_stack (FUser (ufn (c_fn c) (c_arg c)) :: FEntryRet co :: k).

(** What follows the call. *)
Definition co_entry_done (co : ptr) (k : stackL L) : M L U unit :=
  _ ← mod_co co (with_state CO_DONE);
  _ ← wakeup_waiters co;
  co_ctx_switch (CoCtx co) MainCtx (FEntryAbort :: k).

(** ** Public functions *)

Fixpoint store_words (stack : ptr) (ws : list (Z * Z)) : M L U unit :=
  match ws with
  | [] => mret ()
  | (a, v) :: ws => _ ← store_stack stack a v; store_words stack ws
  end.

Definition co_create (fn arg : ptr) (stack_size : Z) : M L U ptr :=
  _ ← se_assert (negb (fn =? NULL)) AssertFnNull;
  s ← get_S;
  _ ← se_assert (s_count s <? MAX_COROUTINES) AssertTooMany;
  let stack_size := if stack_size =? 0 then DEFAULT_STACK_SIZE else stack_size in
  co ← calloc_Coroutine;
  if co =? NULL then mret NULL
  else
    stack ← malloc stack_size;
    _ ← mod_co co (with_stack stack);
    if stack =? NULL then _ ← free co; mret NULL
    else
      s ← get_S;
      id ← int_add IntOverflow (s_count s) 1;
      _ ← mod_co co (λ c, MkCo id CO_READY fn arg (c_stack c) stack_size NULL);
      let '(ctx, ws) := stack_image stack stack_size co in
      _ ← store_words stack ws;
      _ ← se_modify (λ w, set_ctxs (<[CoCtx co := SFresh ctx]> (w_ctxs w)) w);
      s ← get_S;
      _ ← se_assert (in_bounds (s_all s) (s_count s)) BadIndex;
      _ ← mod_S (with_all (zinsert (s_count s) co (s_all s)));
      n ← int_add IntOverflow (s_count s) 1;
      _ ← mod_S (with_count n);
      _ ← q_push co;
      mret co.

Definition co_free (co : ptr) : M L U unit :=
  _ ← se_assert (negb (co =? NULL)) AssertFreeNull;
  c ← deref co;
  _ ← se_assert (bool_decide (c_state c = CO_DONE)) AssertFreeNotDone;
  _ ← free (c_stack c);
  free co.

(** [resume], up to its context switch. *)
Definition resume (next : ptr) (k : stackL L) : M L U unit :=
  _ ← mod_co next (with_state CO_RUNNING);
  _ ← mod_S (with_running next);
  co_ctx_switch MainCtx (CoCtx next) (FResume :: k).

(** [resume], after it. *)
Definition resume_done (k : stackL L) : M L U unit :=
  _ ← mod_S (with_running NULL);
  set_stack k.

(** One evaluation of the loop condition of [co_run], and the body. *)
Definition co_run_iter (k : stackL L) : M L U unit :=
  co ← q_pop;
  if co =? NULL then set_stack k
  else
    c ← deref co;
    _ ← se_assert (bool_decide (c_state c = CO_READY)) AssertRunNotReady;
    resume co (FRun :: k).

Definition co_yield (k : stackL L) : M L U unit :=
  s ← get_S;
  let co := s_running s in
  _ ← se_assert (negb (co =? NULL)) AssertYieldOutside;
  _ ← mod_co co (with_state CO_READY);
  _ ← q_push co;
  co_ctx_switch (CoCtx co) MainCtx k.

Definition co_await (other : ptr) (k : stackL L) : M L U unit :=
  _ ← se_assert (negb (other =? NULL)) AssertAwaitNull;
  o ← deref other;
  if bool_decide (c_state o = CO_DONE) then set_stack k
  else
    s ← get_S;
    let co := s_running s in
    _ ← se_assert (negb (co =? NULL)) AssertAwaitOutside;
    _ ← mod_co co (with_state CO_WAITING);
    _ ← mod_co co (with_awaiting other);
    co_ctx_switch (CoCtx co) MainCtx k.

Definition co_id : M L U Z :=
  s ← get_S;
  if s_running s =? NULL then mret 0
  else c ← deref (s_running s); mret (c_id c).

Definition co_state (co : ptr) : M L U CoState :=
  _ ← se_assert (negb (co =? NULL)) AssertStateNull;
  c ← deref co;
  mret (c_state c).

(** ** Execution *)

Definition user_call (c : ucall L) (k : stackL L) : M L U unit :=
  match c with
  | UReturn => set_stack k
  | UTau l => set_stack (FUser l :: k)
  | UYield l => co_yield (FUser l :: k)
  | UAwait other l => co_await other (FUser l :: k)
  | UCreate fn arg sz f =>
      p ← co_create fn arg (wrap64 sz); set_stack (FUser (f p) :: k)
  | UFree co l => _ ← co_free co; set_stack (FUser l :: k)
  | UState co f => st ← co_state co; set_stack (FUser (f st) :: k)
  | UId f => i ← co_id; set_stack (FUser (f i) :: k)
  | URun l => set_stack (FRun :: FUser l :: k)
  end.

Definition run_frame (f : frame L) (k : stackL L) : M L U unit :=
  match f with
  | FUser l =>
      w ← se_gets (λ w, w);
      let '(c, u) := ustep l (w_user w) in
      _ ← se_modify (set_user u);
      user_call c k
  | FTrampoline co => set_stack (FEntry co :: k)
  | FEntry co => co_entry co k
  | FEntryRet co => co_entry_done co k
  | FEntryAbort => se_fail Aborted
  | FRun => co_run_iter k
  | FResume => resume_done k
  end.

Inductive outcome : Type :=
| Halted                     (* main has returned *)
| Stepped (w : world L U)
| Faulted (e : error).

Definition step w : outcome :=
  match w_cpu w with
  | [] => Halted
  | f :: k =>
      match run_frame f k w with
      | Ok (w', _) => Stepped w'
      | Err e => Faulted e
      end
  end.

Inductive run_result : Type :=
| Finished (w : world L U)   (* main returned in this state *)
| Crashed (e : error)
| OutOfFuel (w : world L U).

Fixpoint exec (fuel : nat) w : run_result :=
  match step w with
  | Halted => Finished w
  | Faulted e => Crashed e
  | Stepped w' =>
      match fuel with O => OutOfFuel w' | Datatypes.S fuel => exec fuel w' end
  end.

(** The states a program reaches. *)
Inductive steps : nat → world L U → world L U → Prop :=
| steps_refl w : steps 0 w w
| steps_step n w w' w'' : step w = Stepped w' → steps n w' w'' → steps (Datatypes.S n) w w''.
End api.
Arguments outcome L U {_}.
Arguments run_result L U {_}.
