(* ===== verification/Demo.v ===== *)
(** * Concrete instances

    An allocator that satisfies [Allocator], and a small scripting language
    whose scripts are user programs, so that the model runs on concrete inputs.
    The theorems hold for every allocator and every user program; the
    witnesses use these. *)

From stdpp Require Import gmap.
From S2P Require Import Prelude Ring Machine State RunQueue Api.

(** ** A bump allocator with a memory budget *)

Definition heap_end (bl : gmap ptr Z) : Z :=
  map_fold (λ q m e, Z.max e (q + m)) 0 bl.

Lemma heap_end_ge bl q m : bl !! q = Some m → q + m ≤ heap_end bl.
Proof.
  unfold heap_end. revert bl.
  apply (map_fold_weak_ind (λ e bl, bl !! q = Some m → q + m ≤ e)).
  - by intros.
  - intros q' m' bl e _ IH Hl. apply lookup_insert_Some in Hl.
    destruct Hl as [[-> ->]|[_ Hl%IH]]; lia.
Qed.

Record bump := Bump { bump_mark : Z; bump_budget : Z }.

(** The first 16-aligned address past the mark and every live block; no block
    once the budget is spent. *)
Definition bump_alloc (σ : bump) (bl : gmap ptr Z) (n : Z) : bump * option ptr :=
  let p := 16 * ((Z.max (bump_mark σ) (heap_end bl) + 15) / 16) in
  if (0 <? n) && (n <=? bump_budget σ) && (0 <? p) && (p + n <? 2 ^ 64)
  then (Bump (p + n) (bump_budget σ - n), Some p)
  else (σ, None).

#[export, refine] Instance bump_allocator : Allocator := {|
  alloc_state := bump; alloc_block := bump_alloc
|}.
Proof.
  intros σ bl n σ' p Hn. unfold bump_alloc.
  destruct (_ && _) eqn:Hc; [|done]. intros [= _ <-].
  rewrite !andb_true_iff, !Z.ltb_lt in Hc. destruct Hc as [[[_ _] Hp] Hr].
  split_and!; [done| |done|].
  - by rewrite Z.mul_comm, Z.mod_mul.
  - intros q m Hq%heap_end_ge. right.
    pose proof (Z.mul_div_le (Z.max (bump_mark σ) (heap_end bl) + 15) 16).
    pose proof (Z.mod_pos_bound (Z.max (bump_mark σ) (heap_end bl) + 15) 16).
    pose proof (Z.div_mod (Z.max (bump_mark σ) (heap_end bl) + 15) 16). lia.
Defined.

Definition heap0 : bump := Bump 0x10000 (2 ^ 40).

(** ** Scripts *)

(** Handles are kept in a list, in order of creation; [Emit] appends to an
    output. *)
Inductive cmd : Set :=
| Create (fn : Z) (stack_size : Z)
| Bind (p : ptr)
| Yield
| Await (i : nat)
| Free (i : nat)
| State (i : nat)
| Self
| Run
| Emit (z : Z).

Record script_mem := ScriptMem { handles : list ptr; output : list Z }.

Definition handle (u : script_mem) (i : nat) : ptr := nth i (handles u) NULL.

Definition script_step (l : list cmd) (u : script_mem)
    : ucall (list cmd) * script_mem :=
  match l with
  | [] => (UReturn, u)
  | Create fn sz :: l => (UCreate fn 0 sz (λ p, Bind p :: l), u)
  | Bind p :: l => (UTau l, ScriptMem (handles u ++ [p]) (output u))
  | Yield :: l => (UYield l, u)
  | Await i :: l => (UAwait (handle u i) l, u)
  | Free i :: l => (UFree (handle u i) l, u)
  | State i :: l => (UState (handle u i) (λ s, Emit (CoState_val s) :: l), u)
  | Self :: l => (UId (λ i, Emit i :: l), u)
  | Run :: l => (URun l, u)
  | Emit z :: l => (UTau l, ScriptMem (handles u) (output u ++ [z]))
  end.

(** The bodies behind function pointers 1, 2, ... *)
Definition script_code (bodies : list (list cmd)) : UserCode (list cmd) script_mem := {|
  ustep := script_step;
  ufn fn _ := nth (Z.to_nat (fn - 1)) bodies []
|}.

Definition start (main : list cmd) : world (list cmd) script_mem :=
  init_world heap0 (ScriptMem [] []) main.

(** Runs a program with [main] and the given bodies. *)
Definition run_script (fuel : nat) (bodies : list (list cmd)) (main : list cmd)
    : result error (list Z) :=
  match exec (H0 := MachineDemo.link) (H1 := script_code bodies) fuel (start main) with
  | Finished w => Ok (output (w_user w))
  | Crashed e => Err e
  | OutOfFuel _ => Err Aborted
  end.
