(* ===== verification/Ops.v ===== *)
(** * What each operation computes

    For every operation of [Api.v], the state it produces when its guards hold
    (the [_ok] lemmas) and the error it stops with otherwise.  The invariant
    and the properties are proved from these lemmas only. *)

From stdpp Require Import gmap.
From S2P Require Import Prelude Ring Machine State RunQueue Api.

Create HintDb ops discriminated.

Section ops.
Context {L U : Type} `{Allocator, LinkMap, UserCode L U}.
Implicit Types w : world L U.

(** ** Heap access *)

Lemma deref_ok w p c : w_objs w !! p = Some c → deref p w = Ok (w, c).
Proof. intros Hc. unfold deref. se_step. by apply se_some_ok. Qed.

Lemma deref_bad w p : w_objs w !! p = None → deref p w = Err (BadDeref p).
Proof. intros Hc. unfold deref. se_step. unfold se_some. by rewrite Hc. Qed.

Lemma mod_co_ok w p c f :
  w_objs w !! p = Some c →
  mod_co p f w = Ok (set_objs (<[p := f c]> (w_objs w)) w, ()).
Proof. intros Hc. unfold mod_co. by erewrite se_bind_ok by by apply deref_ok. Qed.

(** A step of user code: the call it makes, from the updated memory. *)
Lemma step_user w y k c u :
  w_cpu w = FUser y :: k → ustep y (w_user w) = (c, u) →
  step w = match user_call c k (set_user u w) with
           | Ok (w', _) => Stepped w'
           | Err e => Faulted e
           end.
Proof.
  intros Hcpu Hu. unfold step. rewrite Hcpu. cbn [run_frame].
  erewrite se_bind_ok by reflexivity. cbn beta. rewrite Hu.
  by erewrite se_bind_ok by reflexivity.
Qed.

(** ** Context switch *)

Definition switched (from to : ctx_ref) (k k' : stackL L) w : world L U :=
  set_cpu k' (set_ctxs (<[from := SFrames k]> (delete to (w_ctxs w))) w).

Lemma co_ctx_switch_ok w from to k sv k' :
  from ≠ to → w_ctxs w !! to = Some sv → resolve w sv = Ok k' →
  co_ctx_switch from to k w = Ok (switched from to k k' w, ()).
Proof.
  intros Hne Hto Hr. unfold co_ctx_switch.
  rewrite (parked_switch_ne _ _ _ _ _ Hne Hto), Hr. done.
Qed.

(** ** Wakeup *)

(** The test of the loop body. *)
Definition waits_on (done : ptr) (c : Coroutine) : bool :=
  bool_decide (c_state c = CO_WAITING) && (c_awaiting c =? done).
Definition wake (c : Coroutine) : Coroutine :=
  with_awaiting NULL (with_state CO_READY c).
Definition wake_if (done : ptr) (c : Coroutine) : Coroutine :=
  if waits_on done c then wake c else c.

(** The coroutines woken by a scan of [ps], and the objects after it. *)
Fixpoint woken (done : ptr) (objs : gmap ptr Coroutine) (ps : list ptr)
    : list ptr :=
  match ps with
  | [] => []
  | p :: ps =>
      match objs !! p with
      | Some c => if waits_on done c
                  then p :: woken done (<[p := wake c]> objs) ps
                  else woken done objs ps
      | None => woken done objs ps
      end
  end.
Fixpoint woken_objs (done : ptr) (objs : gmap ptr Coroutine) (ps : list ptr)
    : gmap ptr Coroutine :=
  match ps with
  | [] => objs
  | p :: ps =>
      match objs !! p with
      | Some c => woken_objs done (<[p := wake_if done c]> objs) ps
      | None => woken_objs done objs ps
      end
  end.

Lemma wake_not_waiting done c : waits_on done (wake c) = false.
Proof. done. Qed.

Lemma wake_if_false done c : waits_on done c = false → wake_if done c = c.
Proof. intros Hw. unfold wake_if. by rewrite Hw. Qed.

Lemma wake_if_idemp done c : wake_if done (wake_if done c) = wake_if done c.
Proof.
  unfold wake_if. destruct (waits_on done c) eqn:Hw; [|by rewrite Hw].
  by rewrite wake_not_waiting.
Qed.

Lemma woken_objs_lookup done objs ps q :
  woken_objs done objs ps !! q
  = (if bool_decide (q ∈ ps) then wake_if done else id) <$> objs !! q.
Proof.
  revert objs. induction ps as [|p ps IH]; intros objs; cbn.
  { rewrite bool_decide_false by apply not_elem_of_nil. by destruct (objs !! q). }
  assert (bool_decide (q ∈ p :: ps) = bool_decide (q = p) || bool_decide (q ∈ ps))
    as -> by (rewrite <- bool_decide_or; apply bool_decide_ext, elem_of_cons).
  destruct (objs !! p) as [c|] eqn:Hp; rewrite IH; [rewrite lookup_insert|];
    repeat case_bool_decide; repeat case_decide; subst; cbn;
    rewrite ?Hp; cbn; rewrite ?wake_if_idemp; try done.
Qed.

Lemma elem_of_woken done objs ps q :
  q ∈ woken done objs ps
  ↔ q ∈ ps ∧ ∃ c, objs !! q = Some c ∧ waits_on done c = true.
Proof.
  revert objs. induction ps as [|p ps IH]; intros objs; cbn.
  { split; [by intros []%not_elem_of_nil|by intros [[]%not_elem_of_nil _]]. }
  destruct (objs !! p) as [c|] eqn:Hp; [destruct (waits_on done c) eqn:Hw|].
  - rewrite elem_of_cons, IH, elem_of_cons. split.
    + intros [->|(Hq & c' & Hc' & Hw')]; [eauto|].
      apply lookup_insert_Some in Hc'. destruct Hc' as [[-> <-]|[? ?]]; eauto.
    + intros [[->|Hq] (c' & Hc' & Hw')]; [by left|].
      destruct (decide (q = p)) as [->|Hne]; [by left|right].
      split; [done|]. exists c'. by rewrite lookup_insert_ne.
  - rewrite IH, elem_of_cons. split; [intros [? ?]; eauto|].
    intros [[->|Hq] (c' & Hc' & Hw')]; [congruence|eauto].
  - rewrite IH, elem_of_cons. split; [intros [? ?]; eauto|].
    intros [[->|Hq] (c' & Hc' & Hw')]; [congruence|eauto].
Qed.

Lemma NoDup_woken done objs ps : NoDup (woken done objs ps).
Proof.
  revert objs. induction ps as [|p ps IH]; intros objs; cbn; [constructor|].
  destruct (objs !! p) as [c|] eqn:Hp; [destruct (waits_on done c) eqn:Hw|]; auto.
  constructor; [|apply IH]. rewrite elem_of_woken.
  intros (_ & c' & Hc' & Hw'). rewrite lookup_insert_eq in Hc'. by simplify_eq.
Qed.

Lemma length_woken done objs ps : (length (woken done objs ps) ≤ length ps)%nat.
Proof.
  revert objs. induction ps as [|p ps IH]; intros objs; cbn; [lia|].
  destruct (objs !! p); [case_match|]; cbn;
    match goal with |- context [woken done ?o ps] => pose proof (IH o) end; lia.
Qed.

Lemma wakeup_one_ok w done co c l :
  w_objs w !! co = Some c → ring_rep (w_S w) l →
  Z.of_nat (length l) < QUEUE_CAP →
  wakeup_one done co w
  = Ok (if waits_on done c
        then set_S (pushed co (w_S w)) (set_objs (<[co := wake c]> (w_objs w)) w)
        else w, ()).
Proof.
  intros Hc Hr Hl. unfold wakeup_one.
  erewrite se_bind_ok by by apply deref_ok. cbn beta.
  fold (waits_on done c). destruct (waits_on done c); [|done].
  erewrite se_bind_ok by by apply mod_co_ok. cbn beta.
  erewrite se_bind_ok by (apply mod_co_ok, lookup_insert_eq). cbn beta.
  erewrite q_push_ok by (cbn; eauto). cbn. by rewrite insert_insert_eq.
Qed.

(** What the run-queue operations leave alone in [S]. *)
Record same_sched (s s' : Sched) : Prop := {
  ss_all : s_all s' = s_all s;
  ss_count : s_count s' = s_count s;
  ss_running : s_running s' = s_running s
}.

(** The scan of a segment [ps] of the registry that starts at index [i]:
    either every coroutine in it is live and the scan wakes the waiters, in
    order, or it stops on an object that is no longer live. *)
Lemma wakeup_loop_spec done ps : ∀ w i l,
  0 ≤ i → i + Z.of_nat (length ps) ≤ INT_MAX →
  (∀ j p, ps !! j = Some p → zlookup (s_all (w_S w)) (i + Z.of_nat j) = Some p) →
  ring_rep (w_S w) l → Z.of_nat (length l + length ps) ≤ QUEUE_CAP →
  (Forall (λ p, is_Some (w_objs w !! p)) ps
   ∧ ∃ s', wakeup_loop done (length ps) i w
           = Ok (set_S s' (set_objs (woken_objs done (w_objs w) ps) w), ())
           ∧ ring_rep s' (l ++ woken done (w_objs w) ps)
           ∧ same_sched (w_S w) s')
  ∨ ∃ p, p ∈ ps ∧ w_objs w !! p = None
         ∧ wakeup_loop done (length ps) i w = Err (BadDeref p).
Proof.
  induction ps as [|p ps IH]; intros w i l Hi Hmax Hreg Hr Hcap.
  { left. split; [constructor|]. exists (w_S w). cbn. rewrite app_nil_r.
    split_and!; [by destruct w|done|done]. }
  cbn [length wakeup_loop]. cbn [length] in Hmax, Hcap. consts.
  pose proof (Hreg 0%nat p eq_refl) as Hp. rewrite Z.add_0_r in Hp.
  unfold get_S, se_gets. se_step. unfold array_get. se_step.
  destruct (w_objs w !! p) as [c|] eqn:Hc; cycle 1.
  { right. exists p. split_and!; [set_solver|done|].
    apply se_bind_err. unfold wakeup_one.
    by erewrite se_bind_err by by apply deref_bad. }
  erewrite se_bind_ok by (eapply wakeup_one_ok; eauto; lia). cbn beta.
  erewrite se_bind_ok by (apply int_add_ok; lia). cbn beta.
  set (w1 := if waits_on done c then _ else w).
  set (l1 := if waits_on done c then l ++ [p] else l).
  assert (ring_rep (w_S w1) l1) as Hr1.
  { subst w1 l1. destruct (waits_on done c); [|done]. apply pushed_rep; [done|lia]. }
  assert (w_objs w1 = <[p := wake_if done c]> (w_objs w)) as Ho1.
  { subst w1. unfold wake_if. destruct (waits_on done c); [done|].
    by rewrite insert_id. }
  assert (same_sched (w_S w) (w_S w1)) as Hss1.
  { subst w1. by destruct (waits_on done c). }
  destruct (IH w1 (i + 1) l1) as [[Hlive (s' & Hex & Hr' & Hss)]|(q & Hq & Hqn & Hex)].
  - lia.
  - lia.
  - intros j q Hq. rewrite (ss_all _ _ Hss1). rewrite <- (Hreg (S j) q Hq).
    f_equal. lia.
  - done.
  - subst l1. destruct (waits_on done c); rewrite ?length_app; cbn; lia.
  - left. rewrite Ho1 in Hlive, Hex, Hr'. split.
    { constructor; [by eexists|]. eapply Forall_impl; [exact Hlive|].
      intros q. cbn beta. rewrite lookup_insert. case_decide; subst; eauto. }
    exists s'. cbn. rewrite Hc, Hex. subst w1 l1. split_and!.
    + unfold wake_if in *. by destruct (waits_on done c).
    + unfold wake_if in Hr'. destruct (waits_on done c); [|by rewrite insert_id in Hr'].
      by rewrite <- app_assoc in Hr'.
    + destruct Hss, Hss1. split; congruence.
  - right. exists q. rewrite Ho1, lookup_insert in Hqn.
    case_decide; [done|]. split_and!; [set_solver|done|done].
Qed.

(** The coroutines registered so far. *)
Definition registry (s : Sched) : list ptr := take (Z.to_nat (s_count s)) (s_all s).

Lemma registry_lookup s j p :
  registry s !! j = Some p → zlookup (s_all s) (Z.of_nat j) = Some p.
Proof. rewrite zlookup_nat. by intros [Hj _]%lookup_take_Some. Qed.

Lemma wakeup_waiters_spec w done l :
  0 ≤ s_count (w_S w) ≤ MAX_COROUTINES →
  Z.of_nat (length (s_all (w_S w))) = MAX_COROUTINES →
  ring_rep (w_S w) l → Z.of_nat (length l) ≤ MAX_COROUTINES →
  (Forall (λ p, is_Some (w_objs w !! p)) (registry (w_S w))
   ∧ ∃ s', wakeup_waiters done w
           = Ok (set_S s' (set_objs (woken_objs done (w_objs w) (registry (w_S w))) w), ())
           ∧ ring_rep s' (l ++ woken done (w_objs w) (registry (w_S w)))
           ∧ same_sched (w_S w) s')
  ∨ ∃ p, p ∈ registry (w_S w) ∧ w_objs w !! p = None
         ∧ wakeup_waiters done w = Err (BadDeref p).
Proof.
  intros Hc Ha Hr Hl. consts.
  assert (length (registry (w_S w)) = Z.to_nat (s_count (w_S w))) as Hlen.
  { unfold registry. rewrite length_take. lia. }
  unfold wakeup_waiters, get_S, se_gets. se_step. rewrite <- Hlen.
  apply wakeup_loop_spec; [lia|lia| |done|lia].
  intros j p Hj. by apply registry_lookup.
Qed.
End ops.

(** [run_op]: runs the next operation of a function whose guards are known. *)
Ltac run_op :=
  erewrite se_bind_ok by
    (first
       [ reflexivity
       | eapply deref_ok; eassumption
       | eapply mod_co_ok; eassumption
       | eapply mod_co_ok, lookup_insert_eq
       | apply se_assert_true;
         first [ done | by rewrite bool_decide_true
               | by rewrite (proj2 (Z.eqb_neq _ _)) by done ]
       | eapply q_pop_ok; eassumption ]);
  cbn beta zeta.
