(* ===== verification/Invariant.v ===== *)
(** * The scheduler's invariant

    [inv cur l w]: the state [w] is well formed, [cur] is the coroutine being
    executed (none while main or the scheduler loop runs) and [l] is the
    contents of the run-queue, oldest first. *)

From stdpp Require Import gmap.
From S2P Require Import Prelude Ring Machine State RunQueue Api Ops.

(** ** The heap *)

(** Live objects and stacks are distinct, disjoint heap blocks. *)
Record heap_ok (objs : gmap ptr Coroutine) (bl : gmap ptr Z) : Prop := {
  ho_obj p c : objs !! p = Some c →
    bl !! p = Some sizeof_Coroutine ∧ bl !! c_stack c = Some (c_stack_size c);
  ho_stack p c q d : objs !! p = Some c → objs !! q = Some d →
    c_stack c ≠ q ∧ (c_stack c = c_stack d → p = q);
  ho_block p n : bl !! p = Some n →
    0 < p ∧ 0 < n ∧ p mod 16 = 0 ∧ p + n < 2 ^ 64;
  ho_disj p n q m : bl !! p = Some n → bl !! q = Some m → p ≠ q →
    p + n ≤ q ∨ q + m ≤ p
}.

(** Updates that leave the stacks of the objects alone. *)
Lemma heap_ok_same_stacks objs objs' bl :
  heap_ok objs bl →
  (∀ q d, objs' !! q = Some d → ∃ d0, objs !! q = Some d0
    ∧ c_stack d = c_stack d0 ∧ c_stack_size d = c_stack_size d0) →
  heap_ok objs' bl.
Proof.
  intros Hh Hold. split; [| |apply Hh..].
  - intros q d (d0 & Hd0 & -> & ->)%Hold. by apply (ho_obj _ _ Hh).
  - intros q d r e (d0 & Hd0 & -> & _)%Hold (e0 & He0 & -> & _)%Hold.
    by eapply (ho_stack _ _ Hh).
Qed.

Lemma heap_ok_update objs bl p c c' :
  heap_ok objs bl → objs !! p = Some c →
  c_stack c' = c_stack c → c_stack_size c' = c_stack_size c →
  heap_ok (<[p := c']> objs) bl.
Proof.
  intros Hh Hp Hs Hz. eapply heap_ok_same_stacks; [done|].
  intros q d. rewrite lookup_insert. case_decide; intros ?; simplify_eq; eauto.
Qed.

Lemma heap_ok_not_null objs bl p : heap_ok objs bl → is_Some (objs !! p) → p ≠ NULL.
Proof.
  intros Hh [c Hc]. apply (ho_obj _ _ Hh) in Hc as [Hb _].
  apply (ho_block _ _ Hh) in Hb. unfold NULL. lia.
Qed.

Section inv.
Context {L U : Type} `{Allocator, LinkMap, UserCode L U}.
Implicit Types (w : world L U) (cur : option ptr) (l : list ptr).

(** ** Contexts *)

(** The bits of an initial context designate the two words [co_create]
    wrote at the top of the coroutine's own stack. *)
Record fresh_ctx (words : gmap Z Z) (p : ptr) (c : Coroutine) (a : AsmCtx) : Prop := {
  fc_tramp : words !! rsp a = Some sym_co_trampoline;
  fc_co : words !! (rsp a + 8) = Some p;
  fc_lo : in_block (c_stack c) (c_stack_size c) (rsp a);
  fc_hi : in_block (c_stack c) (c_stack_size c) (rsp a + 8)
}.

(** The stack of a suspended coroutine: its body, called from [co_entry]. *)
Definition body_stack (p : ptr) (x : L) : stackL L := [FUser x; FEntryRet p].

Definition resumable (words : gmap Z Z) (ctxs : gmap ctx_ref (saved L))
    (p : ptr) (c : Coroutine) : Prop :=
  (∃ x, ctxs !! CoCtx p = Some (SFrames (body_stack p x)))
  ∨ ∃ a, ctxs !! CoCtx p = Some (SFresh a) ∧ fresh_ctx words p c a.

(** ** Control *)

(** The stacks a running coroutine goes through. *)
Inductive co_stack (p : ptr) : stackL L → Prop :=
| cs_trampoline : co_stack p [FTrampoline p]
| cs_entry : co_stack p [FEntry p]
| cs_body x : co_stack p (body_stack p x)
| cs_ret : co_stack p [FEntryRet p].

(** The stack of main inside [co_run], where a coroutine comes back to. *)
Definition loop_stack (x : L) : stackL L := [FResume; FRun; FUser x].

(** [control running cpu main cur]: [S.running], the current stack and
    [S.main_ctx] agree with the coroutine [cur] being executed. *)
Inductive control : ptr → stackL L → option (saved L) → option ptr → Prop :=
| ctl_halted m : control NULL [] m None
| ctl_main x m : control NULL [FUser x] m None
| ctl_loop x m : control NULL [FRun; FUser x] m None
| ctl_back x m p : p ≠ NULL → control p (loop_stack x) m None
| ctl_co x p k : p ≠ NULL → co_stack p k →
    control p k (Some (SFrames (loop_stack x))) (Some p).

(** ** Coroutines *)

Record co_ok (s : Sched) (objs : gmap ptr Coroutine) (words : gmap Z Z)
    (ctxs : gmap ctx_ref (saved L)) cur l (p : ptr) (c : Coroutine) : Prop := {
  k_id : 1 ≤ c_id c ≤ s_count s;
  k_reg : zlookup (s_all s) (c_id c - 1) = Some p;
  k_queue : p ∈ l ↔ c_state c = CO_READY;
  k_run : cur = Some p ↔ c_state c = CO_RUNNING;
  k_wait : c_state c = CO_WAITING →
    ∃ d, objs !! c_awaiting c = Some d ∧ c_state d ≠ CO_DONE;
  k_idle : c_state c ≠ CO_WAITING → c_awaiting c = NULL;
  k_ctx : c_state c = CO_READY ∨ c_state c = CO_WAITING →
    resumable words ctxs p c;
  k_fn : c_fn c ≠ NULL
}.

Record inv cur l w : Prop := {
  inv_heap : heap_ok (w_objs w) (w_blocks w);
  inv_ring : ring_rep (w_S w) l;
  inv_nodup : NoDup l;
  inv_live p : p ∈ l → is_Some (w_objs w !! p);
  inv_cur p : cur = Some p → is_Some (w_objs w !! p);
  inv_count : 0 ≤ s_count (w_S w) ≤ MAX_COROUTINES;
  inv_all : Z.of_nat (length (s_all (w_S w))) = MAX_COROUTINES;
  inv_co p c : w_objs w !! p = Some c →
    co_ok (w_S w) (w_objs w) (w_words w) (w_ctxs w) cur l p c;
  inv_control : control (s_running (w_S w)) (w_cpu w) (w_ctxs w !! MainCtx) cur
}.

(** ** Consequences *)

Lemma registry_elem w cur l p c :
  inv cur l w → w_objs w !! p = Some c → p ∈ registry (w_S w).
Proof.
  intros Hi Hp. destruct (inv_co _ _ _ Hi _ _ Hp) as [Hid Hreg _ _ _ _ _ _].
  apply list_elem_of_lookup. exists (Z.to_nat (c_id c - 1)).
  unfold registry. apply lookup_take_Some. split; [|lia].
  by rewrite <- zlookup_nat, Z2Nat.id by lia.
Qed.

(** Identifiers are unique. *)
Lemma inv_id_inj w cur l p q c d :
  inv cur l w → w_objs w !! p = Some c → w_objs w !! q = Some d →
  c_id c = c_id d → p = q.
Proof.
  intros Hi Hp Hq He.
  pose proof (k_reg _ _ _ _ _ _ _ _ (inv_co _ _ _ Hi _ _ Hp)) as Hrp.
  pose proof (k_reg _ _ _ _ _ _ _ _ (inv_co _ _ _ Hi _ _ Hq)) as Hrq.
  rewrite He in Hrp. congruence.
Qed.

(** The queue never holds more coroutines than were ever created. *)
Lemma inv_queue_length w cur l :
  inv cur l w → Z.of_nat (length l) ≤ s_count (w_S w).
Proof.
  intros Hi. pose proof (inv_count _ _ _ Hi) as Hc. pose proof (inv_all _ _ _ Hi) as Ha.
  assert (l ⊆+ registry (w_S w)) as Hs%submseteq_length.
  { apply NoDup_submseteq; [apply Hi|]. intros p [c Hc']%(inv_live _ _ _ Hi).
    by eapply registry_elem. }
  unfold registry in Hs. rewrite length_take in Hs. lia.
Qed.

Lemma inv_room w cur l : inv cur l w → Z.of_nat (length l) < QUEUE_CAP.
Proof.
  intros Hi. pose proof (inv_queue_length _ _ _ Hi). pose proof (inv_count _ _ _ Hi).
  consts. lia.
Qed.

Lemma inv_not_null w cur l p : inv cur l w → is_Some (w_objs w !! p) → p ≠ NULL.
Proof. intros Hi. by eapply heap_ok_not_null, Hi. Qed.

Lemma inv_running_cur w cur l p :
  inv cur l w → cur = Some p → s_running (w_S w) = p ∧ p ≠ NULL.
Proof. intros Hi ->. pose proof (inv_control _ _ _ Hi) as Hc. by inversion Hc. Qed.

(** A suspended coroutine's context resolves to one of its stacks. *)
Lemma resumable_resolve w p c :
  resumable (w_words w) (w_ctxs w) p c →
  ∃ sv k, w_ctxs w !! CoCtx p = Some sv ∧ resolve w sv = Ok k ∧ co_stack p k.
Proof.
  intros [[x Hx]|(a & Ha & [Ht Hc _ _])].
  - exists (SFrames (body_stack p x)), (body_stack p x).
    split_and!; [done|done|constructor].
  - exists (SFresh a), [FTrampoline p]. split_and!; [done| |constructor].
    cbn. by rewrite Ht, Hc, Z.eqb_refl.
Qed.
End inv.

#[export] Hint Resolve inv_heap inv_ring inv_nodup inv_count inv_all inv_room : coro.
