(* ===== verification/Preserve.v ===== *)
(** * Every operation preserves the invariant

    For each transition of control, the state it leads to, and the invariant
    there. *)

From stdpp Require Import gmap.
From S2P Require Import Prelude Ring Machine State RunQueue Api Ops Invariant.

Section preserve.
Context {L U : Type} `{Allocator, LinkMap, UserCode L U}.
Implicit Types (w : world L U) (cur : option ptr) (l : list ptr).

(** Objects that are live and not finished stay so: what the coroutines
    waiting for them rely on. *)
Definition pending_mono (objs objs' : gmap ptr Coroutine) : Prop :=
  ∀ t d, objs !! t = Some d → c_state d ≠ CO_DONE →
    ∃ d', objs' !! t = Some d' ∧ c_state d' ≠ CO_DONE.

Lemma pending_mono_refl objs : pending_mono objs objs.
Proof. intros t d. eauto. Qed.

Lemma pending_mono_insert objs p c :
  c_state c ≠ CO_DONE → pending_mono objs (<[p := c]> objs).
Proof. intros Hc t d Ht Hd. rewrite lookup_insert. case_decide; eauto. Qed.

(** A coroutine an operation does not touch. *)
Lemma co_ok_frame (s s' : Sched) objs objs' words words' (ctxs ctxs' : gmap ctx_ref (saved L))
    cur cur' l l' p c :
  co_ok s objs words ctxs cur l p c →
  s_count s ≤ s_count s' →
  (∀ i, 0 ≤ i < s_count s → zlookup (s_all s') i = zlookup (s_all s) i) →
  (p ∈ l' ↔ p ∈ l) → (cur' = Some p ↔ cur = Some p) →
  pending_mono objs objs' →
  (∀ a, in_block (c_stack c) (c_stack_size c) a → words' !! a = words !! a) →
  ctxs' !! CoCtx p = ctxs !! CoCtx p →
  co_ok s' objs' words' ctxs' cur' l' p c.
Proof.
  intros [Hid Hreg Hq Hr Hw Hidle Hctx Hfn] Hn Hall Hl Hc Hpend Hwords Hx. split.
  - lia.
  - by rewrite Hall by lia.
  - by rewrite Hl.
  - by rewrite Hc.
  - intros (d & Hd & Hnd)%Hw. by eapply Hpend.
  - done.
  - intros [(x & Hs)|(a & Hs & [Ht Hco Hlo Hhi])]%Hctx; unfold resumable; rewrite Hx.
    + left. eauto.
    + right. exists a. split; [done|]. split; [by rewrite Hwords by done..|done|done].
  - done.
Qed.

(** Operations that change neither the registry nor the stacks' words. *)
Lemma co_ok_frame' w (s' : Sched) objs' (ctxs' : gmap ctx_ref (saved L))
    cur cur' l l' p c :
  inv cur l w → w_objs w !! p = Some c →
  s_all s' = s_all (w_S w) → s_count s' = s_count (w_S w) →
  (p ∈ l' ↔ p ∈ l) → (cur' = Some p ↔ cur = Some p) →
  pending_mono (w_objs w) objs' →
  ctxs' !! CoCtx p = w_ctxs w !! CoCtx p →
  co_ok s' objs' (w_words w) ctxs' cur' l' p c.
Proof.
  intros Hi Hp Ha Hc Hl Hcur Hpend Hx.
  eapply co_ok_frame; [by apply (inv_co _ _ _ Hi)|..]; try done.
  - by rewrite Hc.
  - intros i _. by rewrite Ha.
Qed.

Lemma control_loop r x m cur : @control L r [FRun; FUser x] m cur → r = NULL.
Proof. intros Hc. inversion Hc as [| | | |? ? ? ? Hs]; [done|by inversion Hs]. Qed.

Lemma live_insert (objs : gmap ptr Coroutine) p c q :
  is_Some (objs !! q) → is_Some (<[p := c]> objs !! q).
Proof. intros Hq. rewrite lookup_insert. case_decide; eauto. Qed.

(** The saved contexts of the live coroutines are the same. *)
Definition ctxs_kept w w' : Prop :=
  ∀ q, is_Some (w_objs w !! q) → w_ctxs w' !! CoCtx q = w_ctxs w !! CoCtx q.

(** The saved contexts of all coroutines but [p] are the same. *)
Definition ctxs_but (p : ptr) w w' : Prop :=
  ∀ q, q ≠ p → w_ctxs w' !! CoCtx q = w_ctxs w !! CoCtx q.

(** Control is back in [resume], on the stack that main's context held. *)
Definition back_in_main w w' : Prop :=
  ∃ x, w_ctxs w !! MainCtx = Some (SFrames (loop_stack x)) ∧ w_cpu w' = loop_stack x.

Lemma switched_but p from to k k' w w0 :
  (from = CoCtx p ∧ to = MainCtx) ∨ (from = MainCtx ∧ to = CoCtx p) →
  w_ctxs w0 = w_ctxs w → ctxs_but p w (switched from to k k' w0).
Proof.
  intros Hft He q Hq. cbn. rewrite He.
  destruct Hft as [[-> ->]|[-> ->]];
    rewrite lookup_insert_ne by congruence; apply lookup_delete_ne; congruence.
Qed.

(** ** co_run *)

(** The scheduler loop with an empty queue returns to its caller. *)
Lemma step_run_empty w x :
  inv None [] w → w_cpu w = [FRun; FUser x] →
  step w = Stepped (set_cpu [FUser x] w) ∧ inv None [] (set_cpu [FUser x] w).
Proof.
  intros Hi Hcpu. split.
  - unfold step. rewrite Hcpu. cbn [run_frame]. unfold co_run_iter.
    erewrite se_bind_ok by (apply q_pop_empty, Hi). done.
  - pose proof (inv_control _ _ _ Hi) as Hc. destruct Hi as [? ? ? ? ? ? ? Hco _].
    split; try done. cbn. rewrite Hcpu in Hc. apply control_loop in Hc as ->.
    constructor.
Qed.

(** The scheduler loop dispatches the oldest READY coroutine. *)
Lemma step_dispatch w x p l :
  inv None (p :: l) w → w_cpu w = [FRun; FUser x] →
  ∃ c w', w_objs w !! p = Some c ∧ c_state c = CO_READY
    ∧ step w = Stepped w' ∧ inv (Some p) l w'
    ∧ w_objs w' = <[p := with_state CO_RUNNING c]> (w_objs w)
    ∧ w_user w' = w_user w ∧ registry (w_S w') = registry (w_S w)
    ∧ ctxs_but p w w' ∧ s_running (w_S w') = p
    ∧ (∃ sv, w_ctxs w !! CoCtx p = Some sv ∧ resolve w sv = Ok (w_cpu w'))
    ∧ w_ctxs w' !! MainCtx = Some (SFrames (loop_stack x)).
Proof.
  intros Hi Hcpu. pose proof (inv_ring _ _ _ Hi) as Hr.
  destruct (inv_live _ _ _ Hi p) as [c Hc]; [by left|].
  pose proof (inv_co _ _ _ Hi _ _ Hc) as Hok.
  assert (c_state c = CO_READY) as Hst by (apply (k_queue _ _ _ _ _ _ _ _ Hok); by left).
  destruct (resumable_resolve w p c) as (sv & k & Hsv & Hres & Hk).
  { apply Hok. by left. }
  assert (p ≠ NULL) as Hp0 by (eapply inv_not_null; eauto).
  exists c. eexists. split_and!; [done|done|..].
  - unfold step. rewrite Hcpu. cbn [run_frame]. unfold co_run_iter.
    run_op. rewrite (proj2 (Z.eqb_neq _ _)) by done. run_op. run_op.
    unfold resume, mod_S. run_op. run_op.
    erewrite co_ctx_switch_ok; [reflexivity|done|exact Hsv|exact Hres].
  - destruct (proj1 (NoDup_cons _ _) (inv_nodup _ _ _ Hi)) as [Hnin Hnd].
    split; cbn.
    + eapply heap_ok_update; [apply Hi|done..].
    + by eapply (ring_rep_ext (popped (w_S w))), popped_rep.
    + done.
    + intros q Hq. apply live_insert, (inv_live _ _ _ Hi). by right.
    + intros q [= <-]. rewrite lookup_insert_eq. eauto.
    + apply Hi.
    + apply Hi.
    + intros q d Hq. apply lookup_insert_Some in Hq.
      destruct Hq as [[<- <-]|[Hne Hq]].
      * destruct Hok as [Hid Hreg _ _ Hw Hidle _ Hfn].
        split; cbn; [done|done|by split|by split|done| |by intros []|done].
        intros _. apply Hidle. congruence.
      * eapply co_ok_frame'; [exact Hi|exact Hq|done|done|..].
        -- rewrite elem_of_cons. split; [by intros; right|]. by intros [->|].
        -- split; [intros [= ->]|]; done.
        -- by apply pending_mono_insert.
        -- rewrite lookup_insert_ne by done. rewrite lookup_delete_ne; congruence.
    + rewrite lookup_insert_eq. by constructor.
  - done.
  - done.
  - done.
  - apply switched_but; [by right|done].
  - done.
  - by exists sv.
  - apply lookup_insert_eq.
Qed.

(** Back in [resume]. *)
Lemma step_resume_done w l x :
  inv None l w → w_cpu w = loop_stack x →
  ∃ w', step w = Stepped w' ∧ inv None l w' ∧ w_objs w' = w_objs w
    ∧ w_cpu w' = [FRun; FUser x] ∧ w_user w' = w_user w
    ∧ registry (w_S w') = registry (w_S w) ∧ w_ctxs w' = w_ctxs w.
Proof.
  intros Hi Hcpu. eexists. split_and!.
  - unfold step. rewrite Hcpu. reflexivity.
  - split; try apply Hi; cbn; [| |constructor].
    + by eapply ring_rep_ext; [|apply Hi].
    + intros p c Hp. by eapply co_ok_frame'; [exact Hi|..|apply pending_mono_refl|].
  - done.
  - done.
  - done.
  - done.
  - done.
Qed.

(** ** The running coroutine *)

Lemma running_view w p l :
  inv (Some p) l w →
  ∃ c x, w_objs w !! p = Some c ∧ c_state c = CO_RUNNING
    ∧ s_running (w_S w) = p ∧ p ≠ NULL ∧ co_stack p (w_cpu w)
    ∧ w_ctxs w !! MainCtx = Some (SFrames (loop_stack x)).
Proof.
  intros Hi. destruct (inv_cur _ _ _ Hi p eq_refl) as [c Hc].
  pose proof (inv_control _ _ _ Hi) as Hctl.
  inversion Hctl as [| | | |x q k Hp Hk Hr]. subst.
  exists c, x. split_and!; try done.
  by apply (inv_co _ _ _ Hi _ _ Hc).
Qed.

Lemma co_stack_user p y k : @co_stack L p (FUser y :: k) → k = [FEntryRet p].
Proof. intros Hk. by inversion Hk. Qed.

(** The state after the running coroutine [p] has parked itself as [c'],
    suspended at [z] in its body. *)
Definition parked_world (p : ptr) (c' : Coroutine) (s' : Sched) (z x : L) (u : U) w
    : world L U :=
  switched (CoCtx p) MainCtx (body_stack p z) (loop_stack x)
    (set_S s' (set_objs (<[p := c']> (w_objs w)) (set_user u w))).

(** The invariant there, for a coroutine that becomes READY (and joins the
    queue) or WAITING. *)
Lemma inv_park w p c c' s' l l' z x u :
  inv (Some p) l w → w_objs w !! p = Some c →
  c_id c' = c_id c → c_fn c' = c_fn c → c_stack c' = c_stack c → c_stack_size c' = c_stack_size c →
  s_all s' = s_all (w_S w) → s_count s' = s_count (w_S w) →
  s_running s' = p → p ≠ NULL → ring_rep s' l' →
  (c_state c' = CO_READY ∧ c_awaiting c' = NULL ∧ l' = l ++ [p]
   ∨ c_state c' = CO_WAITING ∧ l' = l
     ∧ ∃ d, w_objs w !! c_awaiting c' = Some d ∧ c_state d ≠ CO_DONE) →
  inv None l' (parked_world p c' s' z x u w).
Proof.
  intros Hi Hp Hid Hfn Hst Hsz Ha Hn Hrun Hp0 Hring Hcase.
  pose proof (inv_co _ _ _ Hi _ _ Hp) as Hok.
  assert (p ∉ l) as Hpl.
  { rewrite (k_queue _ _ _ _ _ _ _ _ Hok).
    by rewrite (proj1 (k_run _ _ _ _ _ _ _ _ Hok) eq_refl). }
  assert (c_state c' ≠ CO_DONE) as Hnd by (destruct Hcase as [(-> & _)|(-> & _)]; done).
  split; cbn.
  - eapply heap_ok_update; [apply Hi|done..].
  - done.
  - destruct Hcase as [(_ & _ & ->)|(_ & -> & _)]; [|apply Hi].
    apply NoDup_app. split_and!; [apply Hi| |apply NoDup_singleton].
    intros q Hq ->%list_elem_of_singleton. done.
  - intros q Hq. destruct Hcase as [(_ & _ & ->)|(_ & -> & _)].
    + apply elem_of_app in Hq as [Hq| ->%list_elem_of_singleton].
      * apply live_insert, (inv_live _ _ _ Hi _ Hq).
      * rewrite lookup_insert_eq. eauto.
    + apply live_insert, (inv_live _ _ _ Hi _ Hq).
  - done.
  - rewrite Hn. apply Hi.
  - rewrite Ha. apply Hi.
  - intros q d Hq. apply lookup_insert_Some in Hq.
    destruct Hq as [[<- <-]|[Hne Hq]].
    + destruct Hok as [Hid' Hreg _ _ _ _ _ Hfn']. split; cbn.
      * by rewrite Hid, Hn.
      * by rewrite Ha, Hid.
      * destruct Hcase as [(-> & _ & ->)|(-> & -> & _)]; [|by split].
        split; [done|]. intros _. apply elem_of_app. right. by left.
      * split; [done|]. destruct Hcase as [(-> & _)|(-> & _)]; done.
      * destruct Hcase as [(-> & _)|(_ & _ & e & He & Hne)]; [done|].
        intros _. by apply (pending_mono_insert (w_objs w) p c' Hnd _ e).
      * by destruct Hcase as [(_ & -> & _)|(-> & _)].
      * intros _. left. exists z. by rewrite lookup_insert_eq.
      * by rewrite Hfn.
    + eapply co_ok_frame'; [exact Hi|exact Hq|done|done|..].
      * destruct Hcase as [(_ & _ & ->)|(_ & -> & _)]; [|done].
        rewrite elem_of_app, list_elem_of_singleton. split; [|by left].
        by intros [| ->].
      * split; [done|]. by intros [= ->].
      * by apply pending_mono_insert.
      * rewrite lookup_insert_ne by congruence. by rewrite lookup_delete_ne.
  - rewrite Hrun. by constructor.
Qed.

(** ** co_yield and co_await *)

Lemma step_yield w p l y k z u :
  inv (Some p) l w → w_cpu w = FUser y :: k →
  ustep y (w_user w) = (UYield z, u) →
  ∃ c w', w_objs w !! p = Some c ∧ c_state c = CO_RUNNING
    ∧ step w = Stepped w' ∧ inv None (l ++ [p]) w'
    ∧ w_objs w' = <[p := with_state CO_READY c]> (w_objs w)
    ∧ w_user w' = u ∧ registry (w_S w') = registry (w_S w)
    ∧ ctxs_but p w w' ∧ w_ctxs w' !! CoCtx p = Some (SFrames (FUser z :: k))
    ∧ back_in_main w w'.
Proof.
  intros Hi Hcpu Hu.
  destruct (running_view _ _ _ Hi) as (c & x & Hc & Hst & Hrun & Hp0 & Hk & Hm).
  rewrite Hcpu in Hk. apply co_stack_user in Hk as ->.
  exists c, (parked_world p (with_state CO_READY c) (pushed p (w_S w)) z x u w).
  split_and!; [done|done| |..].
  - rewrite (step_user _ _ _ _ _ Hcpu Hu). cbn [user_call].
    unfold co_yield, get_S. run_op. cbn [w_S set_user]. rewrite Hrun. run_op.
    run_op. erewrite se_bind_ok by (eapply q_push_ok; [apply Hi|by eapply inv_room]).
    cbn beta. by erewrite co_ctx_switch_ok; [|done|exact Hm|reflexivity].
  - eapply inv_park; try done.
    + by apply pushed_rep; [apply Hi|eapply inv_room].
    + left. split_and!; [done| |done]. cbn.
      apply (k_idle _ _ _ _ _ _ _ _ (inv_co _ _ _ Hi _ _ Hc)). congruence.
  - done.
  - done.
  - done.
  - apply switched_but; [by left|done].
  - cbn. by rewrite lookup_insert_eq.
  - by exists x.
Qed.

Lemma step_await_wait w p l y k z u other o :
  inv (Some p) l w → w_cpu w = FUser y :: k →
  ustep y (w_user w) = (UAwait other z, u) →
  w_objs w !! other = Some o → c_state o ≠ CO_DONE →
  ∃ c w', w_objs w !! p = Some c ∧ c_state c = CO_RUNNING
    ∧ step w = Stepped w' ∧ inv None l w'
    ∧ w_objs w' = <[p := with_awaiting other (with_state CO_WAITING c)]> (w_objs w)
    ∧ w_user w' = u ∧ registry (w_S w') = registry (w_S w)
    ∧ ctxs_but p w w' ∧ w_ctxs w' !! CoCtx p = Some (SFrames (FUser z :: k))
    ∧ back_in_main w w'.
Proof.
  intros Hi Hcpu Hu Ho Hnd.
  destruct (running_view _ _ _ Hi) as (c & x & Hc & Hst & Hrun & Hp0 & Hk & Hm).
  rewrite Hcpu in Hk. apply co_stack_user in Hk as ->.
  assert (other ≠ NULL) as Ho0 by (eapply inv_not_null; eauto).
  exists c, (parked_world p (with_awaiting other (with_state CO_WAITING c))
               (w_S w) z x u w).
  split_and!; [done|done| |..].
  - rewrite (step_user _ _ _ _ _ Hcpu Hu). cbn [user_call].
    unfold co_await, get_S. run_op. run_op. rewrite bool_decide_false by done.
    run_op. cbn [w_S set_user]. rewrite Hrun. run_op. run_op. run_op.
    erewrite co_ctx_switch_ok; [|done|exact Hm|reflexivity].
    unfold parked_world. cbn. by rewrite insert_insert_eq.
  - eapply inv_park; try done; [apply Hi|]. right. eauto.
  - done.
  - done.
  - done.
  - apply switched_but; [by left|done].
  - cbn. by rewrite lookup_insert_eq.
  - by exists x.
Qed.

(** ** Steps that only move control *)

Lemma inv_set_cpu w cur l k u :
  inv cur l w → control (s_running (w_S w)) k (w_ctxs w !! MainCtx) cur →
  inv cur l (set_cpu k (set_user u w)).
Proof. intros Hi Hc. by split; try apply Hi. Qed.

Lemma step_trampoline w p l :
  inv (Some p) l w → w_cpu w = [FTrampoline p] →
  step w = Stepped (set_cpu [FEntry p] w) ∧ inv (Some p) l (set_cpu [FEntry p] w).
Proof.
  intros Hi Hcpu. split; [unfold step; by rewrite Hcpu|].
  destruct (running_view _ _ _ Hi) as (c & x & _ & _ & <- & Hp0 & _ & Hm).
  apply (inv_set_cpu w _ _ _ (w_user w) Hi). rewrite Hm.
  constructor; [done|constructor].
Qed.

(** [co_entry] calls the body. *)
Lemma step_entry w p c l :
  inv (Some p) l w → w_cpu w = [FEntry p] → w_objs w !! p = Some c →
  let k := body_stack p (ufn (c_fn c) (c_arg c)) in
  step w = Stepped (set_cpu k w) ∧ inv (Some p) l (set_cpu k w).
Proof.
  intros Hi Hcpu Hc k. split.
  - unfold step. rewrite Hcpu. cbn [run_frame]. unfold co_entry. run_op.
    pose proof (k_fn _ _ _ _ _ _ _ _ (inv_co _ _ _ Hi _ _ Hc)). by run_op.
  - destruct (running_view _ _ _ Hi) as (c' & x & _ & _ & <- & Hp0 & _ & Hm).
    apply (inv_set_cpu w _ _ _ (w_user w) Hi). rewrite Hm.
    constructor; [done|constructor].
Qed.

(** ** co_entry, after the body *)

(** The objects once [p] is DONE and its waiters are READY. *)
Definition finish_objs (p : ptr) (c : Coroutine) w : gmap ptr Coroutine :=
  woken_objs p (<[p := with_state CO_DONE c]> (w_objs w)) (registry (w_S w)).
Definition finish_woken (p : ptr) (c : Coroutine) w : list ptr :=
  woken p (<[p := with_state CO_DONE c]> (w_objs w)) (registry (w_S w)).

Lemma finish_objs_lookup w cur l p c q :
  inv cur l w → w_objs w !! p = Some c →
  finish_objs p c w !! q
  = if decide (q = p) then Some (with_state CO_DONE c)
    else wake_if p <$> w_objs w !! q.
Proof.
  intros Hi Hc. unfold finish_objs. rewrite woken_objs_lookup.
  destruct (decide (q = p)) as [->|Hne].
  - rewrite lookup_insert_eq. by case_bool_decide.
  - rewrite lookup_insert_ne by done. destruct (w_objs w !! q) as [d|] eqn:Hq; [|done].
    rewrite bool_decide_true; [done|]. by eapply registry_elem.
Qed.

Lemma elem_of_finish_woken w cur l p c q :
  inv cur l w → w_objs w !! p = Some c →
  q ∈ finish_woken p c w
  ↔ q ≠ p ∧ ∃ d, w_objs w !! q = Some d ∧ waits_on p d = true.
Proof.
  intros Hi Hc. unfold finish_woken. rewrite elem_of_woken. split.
  - intros (_ & d & Hd & Hw). apply lookup_insert_Some in Hd.
    destruct Hd as [[<- <-]|[? ?]]; [done|]. eauto.
  - intros (Hne & d & Hd & Hw). split; [by eapply registry_elem|].
    exists d. by rewrite lookup_insert_ne.
Qed.

Lemma waits_on_spec p d :
  waits_on p d = true ↔ c_state d = CO_WAITING ∧ c_awaiting d = p.
Proof.
  unfold waits_on. by rewrite andb_true_iff, bool_decide_eq_true, Z.eqb_eq.
Qed.

Lemma wake_if_fields p d :
  c_id (wake_if p d) = c_id d ∧ c_fn (wake_if p d) = c_fn d ∧ c_stack (wake_if p d) = c_stack d
  ∧ c_stack_size (wake_if p d) = c_stack_size d
  ∧ (c_state d ≠ CO_DONE → c_state (wake_if p d) ≠ CO_DONE).
Proof. unfold wake_if. by destruct (waits_on p d). Qed.

Lemma resumable_ext words (ctxs ctxs' : gmap ctx_ref (saved L)) q d d' :
  ctxs' !! CoCtx q = ctxs !! CoCtx q →
  c_stack d' = c_stack d → c_stack_size d' = c_stack_size d →
  resumable words ctxs q d → resumable words ctxs' q d'.
Proof.
  intros Hx Hs Hz [(x & Hsl)|(a & Hsl & Hf)]; unfold resumable; rewrite Hx.
  - left. eauto.
  - right. exists a. split; [done|]. destruct Hf. by split; rewrite ?Hs, ?Hz.
Qed.

(** A coroutine other than [p] after the scan. *)
Lemma co_ok_finish w l p c s' q d (ctxs' : gmap ctx_ref (saved L)) :
  inv (Some p) l w → w_objs w !! p = Some c → q ≠ p →
  w_objs w !! q = Some d →
  s_all s' = s_all (w_S w) → s_count s' = s_count (w_S w) →
  ctxs' !! CoCtx q = w_ctxs w !! CoCtx q →
  co_ok s' (finish_objs p c w) (w_words w) ctxs' None
    (l ++ finish_woken p c w) q (wake_if p d).
Proof.
  intros Hi Hc Hne Hq Ha Hn Hx.
  destruct (inv_co _ _ _ Hi _ _ Hq) as [Hid Hreg Hql Hrun Hwait Hidle Hctx Hfn].
  destruct (wake_if_fields p d) as (Hfid & Hffn & Hfst & Hfsz & _).
  assert (q ∈ finish_woken p c w ↔ waits_on p d = true) as Hqw.
  { rewrite elem_of_finish_woken by done. split; [|eauto].
    intros (_ & d' & Hd' & Hw). by simplify_eq. }
  split.
  - by rewrite Hfid, Hn.
  - by rewrite Hfid, Ha.
  - rewrite elem_of_app, Hqw, Hql. unfold wake_if.
    destruct (waits_on p d) eqn:Hw; [|by split; [intros [|]|left]].
    split; [done|by right].
  - split; [done|]. unfold wake_if. destruct (waits_on p d); [done|].
    intros Hr%Hrun. congruence.
  - unfold wake_if. destruct (waits_on p d) eqn:Hw; [done|].
    intros Hst. destruct (Hwait Hst) as (t & Ht & Hnd).
    assert (c_awaiting d ≠ p) as Hnp.
    { intros He. assert (waits_on p d = true) by by apply waits_on_spec. congruence. }
    exists (wake_if p t). erewrite finish_objs_lookup by done.
    rewrite decide_False, Ht by done. split; [done|]. by apply wake_if_fields.
  - unfold wake_if. by destruct (waits_on p d) eqn:Hw; [|apply Hidle].
  - intros Hst. eapply resumable_ext; [exact Hx|exact Hfst|exact Hfsz|].
    apply Hctx. revert Hst. unfold wake_if.
    destruct (waits_on p d) eqn:Hw; [|done].
    intros _. right. by apply waits_on_spec in Hw as [? _].
  - by rewrite Hffn.
Qed.

Lemma inv_finish w l p c s' x :
  inv (Some p) l w → w_objs w !! p = Some c →
  s_all s' = s_all (w_S w) → s_count s' = s_count (w_S w) →
  s_running s' = s_running (w_S w) → ring_rep s' (l ++ finish_woken p c w) →
  inv None (l ++ finish_woken p c w)
    (switched (CoCtx p) MainCtx [FEntryAbort] (loop_stack x)
       (set_S s' (set_objs (finish_objs p c w) w))).
Proof.
  intros Hi Hc Ha Hn Hrn Hr.
  destruct (inv_co _ _ _ Hi _ _ Hc) as [Hid Hreg Hq Hrun _ Hidle _ Hfn].
  assert (c_state c = CO_RUNNING) as Hst by by apply Hrun.
  assert (∀ q, q ∈ l → ∃ d, w_objs w !! q = Some d ∧ c_state d = CO_READY) as Hlq.
  { intros q Hql. destruct (inv_live _ _ _ Hi _ Hql) as [d Hd].
    exists d. split; [done|]. by apply (inv_co _ _ _ Hi _ _ Hd). }
  split; cbn.
  - eapply heap_ok_same_stacks; [apply Hi|]. intros q d.
    erewrite finish_objs_lookup by done. case_decide as Hqp; subst.
    + intros [= <-]. eauto.
    + destruct (w_objs w !! q) as [d0|]; intros [= <-].
      exists d0. split; [done|]. split; apply wake_if_fields.
  - done.
  - apply NoDup_app. split_and!; [apply Hi| |apply NoDup_woken].
    intros q (d & Hd & Hrd)%Hlq Hw. eapply elem_of_finish_woken in Hw; [|done..].
    destruct Hw as (_ & d' & Hd' & [Hwd _]%waits_on_spec). congruence.
  - intros q Hqin. erewrite finish_objs_lookup by done. case_decide; [eauto|].
    apply fmap_is_Some. apply elem_of_app in Hqin as [(d & Hd & _)%Hlq|Hw]; [eauto|].
    eapply elem_of_finish_woken in Hw; [|done..]. destruct Hw as (_ & d & Hd & _). eauto.
  - done.
  - rewrite Hn. apply Hi.
  - rewrite Ha. apply Hi.
  - intros q d. erewrite finish_objs_lookup by done. case_decide as Hqp; subst.
    + intros [= <-]. split; cbn; [by rewrite Hn|by rewrite Ha| |done|done| |by intros []|done].
      * split; [|done]. intros [Hql|Hw]%elem_of_app.
        -- apply Hq in Hql. congruence.
        -- eapply elem_of_finish_woken in Hw; [|done..]. by destruct Hw.
      * intros _. apply Hidle. congruence.
    + destruct (w_objs w !! q) as [d0|] eqn:Hd0; intros [= <-].
      eapply co_ok_finish; try done.
      rewrite lookup_insert_ne by congruence. by rewrite lookup_delete_ne.
  - rewrite Hrn. destruct (inv_running_cur _ _ _ p Hi eq_refl) as [-> Hp0].
    rewrite lookup_insert_ne, lookup_delete_eq by done. by constructor.
Qed.

(** The body has returned: the coroutine is DONE, its waiters are READY and
    queued, and the scheduler continues; or the scan of the registry meets an
    object that has been freed. *)
Lemma step_finish w p l c :
  inv (Some p) l w → w_cpu w = [FEntryRet p] → w_objs w !! p = Some c →
  (∃ w' x, step w = Stepped w' ∧ inv None (l ++ finish_woken p c w) w'
     ∧ w_objs w' = finish_objs p c w ∧ w_user w' = w_user w
     ∧ w_cpu w' = loop_stack x ∧ registry (w_S w') = registry (w_S w)
     ∧ ctxs_but p w w' ∧ w_ctxs w !! MainCtx = Some (SFrames (loop_stack x))
     ∧ Forall (λ q, is_Some (w_objs w !! q)) (registry (w_S w)))
  ∨ ∃ q, q ∈ registry (w_S w) ∧ w_objs w !! q = None
         ∧ step w = Faulted (BadDeref q).
Proof.
  intros Hi Hcpu Hc.
  destruct (running_view _ _ _ Hi) as (c0 & x & Hc0 & Hst & Hrun & Hp0 & Hk & Hm).
  simplify_eq. pose proof (inv_count _ _ _ Hi). pose proof (inv_queue_length _ _ _ Hi).
  set (w1 := set_objs (<[s_running (w_S w) := with_state CO_DONE c]> (w_objs w)) w).
  set (p := s_running (w_S w)) in *.
  destruct (wakeup_waiters_spec w1 p l) as [[Hlive (s' & Hex & Hr' & [Ha Hn Hrn])]|
    (q & Hq & Hqn & Hex)]; [apply Hi..|lia| |].
  - left. exists (switched (CoCtx p) MainCtx [FEntryAbort] (loop_stack x)
      (set_S s' (set_objs (finish_objs p c w) w))), x.
    split_and!; [| |done..| | | |].
    + unfold step. rewrite Hcpu. cbn [run_frame]. unfold co_entry_done. run_op.
      erewrite se_bind_ok by exact Hex. cbn beta.
      by erewrite co_ctx_switch_ok; [|done|exact Hm|reflexivity].
    + apply (inv_finish w l p c s' x); auto.
    + unfold registry. cbn. by rewrite Ha, Hn.
    + apply switched_but; [by left|done].
    + exact Hm.
    + eapply Forall_impl; [exact Hlive|]. intros q. cbn. rewrite lookup_insert.
      case_decide; [by subst; rewrite Hc|done].
  - right. exists q. cbn in Hqn. rewrite lookup_insert in Hqn.
    case_decide; [done|]. split_and!; [done|done|].
    unfold step. rewrite Hcpu. cbn [run_frame]. unfold co_entry_done. run_op.
    by erewrite se_bind_err by exact Hex.
Qed.
End preserve.
