(* ===== verification/Create.v ===== *)
(** * Creation and destruction of coroutines

    [co_create] and [co_free] on every branch, with the invariant. *)

From stdpp Require Import gmap.
From S2P Require Import Prelude Ring Machine State RunQueue Api Ops Invariant Preserve.

(** ** Allocation in a well-formed heap *)

Section heap.
Context `{Allocator}.

(** The block at [p] of [n] bytes is new. *)
Record new_block (bl : gmap ptr Z) (p n : Z) : Prop := {
  nb_pos : 0 < p ∧ 0 < n ∧ p mod 16 = 0 ∧ p + n < 2 ^ 64;
  nb_disj q m : bl !! q = Some m → p + n ≤ q ∨ q + m ≤ p
}.

Lemma alloc_new σ bl n σ' p :
  0 < n → alloc_block σ bl n = (σ', Some p) → new_block bl p n.
Proof.
  intros Hn Ha. apply alloc_ok in Ha as (? & ? & ? & Hd); [|done]. by split.
Qed.

Lemma new_block_None objs bl p n :
  heap_ok objs bl → new_block bl p n → bl !! p = None.
Proof.
  intros Hh [Hp Hd]. destruct (bl !! p) as [m|] eqn:Hm; [exfalso|done].
  pose proof (Hd _ _ Hm). pose proof (ho_block _ _ Hh _ _ Hm). lia.
Qed.

Lemma heap_ok_alloc objs bl p n :
  heap_ok objs bl → new_block bl p n → heap_ok objs (<[p := n]> bl).
Proof.
  intros Hh Hnb. pose proof (new_block_None _ _ _ _ Hh Hnb) as Hp.
  destruct Hnb as [Hpos Hd]. split.
  - intros q c Hq. destruct (ho_obj _ _ Hh _ _ Hq) as [H1 H2].
    rewrite !lookup_insert_ne by congruence. done.
  - apply Hh.
  - intros q m Hq. apply lookup_insert_Some in Hq as [[<- <-]|[_ Hq]]; [done|].
    by apply (ho_block _ _ Hh).
  - intros q m r k Hq Hr Hne.
    apply lookup_insert_Some in Hq as [[<- <-]|[? Hq]];
      apply lookup_insert_Some in Hr as [[<- <-]|[? Hr]].
    + done.
    + by apply Hd.
    + destruct (Hd _ _ Hq); auto.
    + by apply (ho_disj _ _ Hh).
Qed.

(** A new object at [p] with its stack in a block of its own. *)
Lemma heap_ok_add objs bl p c :
  heap_ok objs bl → bl !! p = Some sizeof_Coroutine →
  bl !! c_stack c = Some (c_stack_size c) → p ≠ c_stack c →
  (∀ q d, objs !! q = Some d →
     q ≠ p ∧ q ≠ c_stack c ∧ c_stack d ≠ p ∧ c_stack d ≠ c_stack c) →
  heap_ok (<[p := c]> objs) bl.
Proof.
  intros Hh Hp Hs Hne Hsep. split; [| |apply Hh..].
  - intros q d Hq. apply lookup_insert_Some in Hq as [[<- <-]|[_ Hq]]; [done|].
    by apply (ho_obj _ _ Hh).
  - intros q d r e Hq Hr.
    apply lookup_insert_Some in Hq as [[<- <-]|[? Hq]];
      apply lookup_insert_Some in Hr as [[<- <-]|[? Hr]].
    + done.
    + destruct (Hsep _ _ Hr) as (? & ? & ? & ?). split; congruence.
    + destruct (Hsep _ _ Hq) as (? & ? & ? & ?). split; congruence.
    + by apply (ho_stack _ _ Hh).
Qed.

(** Freeing an object and its stack. *)
Lemma heap_ok_free objs bl p c :
  heap_ok objs bl → objs !! p = Some c →
  heap_ok (delete p objs) (delete p (delete (c_stack c) bl)).
Proof.
  intros Hh Hp.
  assert (∀ q m, delete p (delete (c_stack c) bl) !! q = Some m → bl !! q = Some m)
    as Hold.
  { intros q m [_ [_ Hq]%lookup_delete_Some]%lookup_delete_Some. done. }
  split.
  - intros q d [Hne Hq]%lookup_delete_Some.
    destruct (ho_stack _ _ Hh _ _ _ _ Hp Hq), (ho_stack _ _ Hh _ _ _ _ Hq Hp).
    rewrite !lookup_delete_ne by (try apply not_eq_sym; auto).
    by apply (ho_obj _ _ Hh).
  - intros q d r e [_ Hq]%lookup_delete_Some [_ Hr]%lookup_delete_Some.
    by apply (ho_stack _ _ Hh).
  - intros q m Hq%Hold. by apply (ho_block _ _ Hh).
  - intros q m r k Hq%Hold Hr%Hold. by apply (ho_disj _ _ Hh).
Qed.
End heap.

Section create.
Context {L U : Type} `{Allocator, LinkMap, UserCode L U}.
Implicit Types (w : world L U) (cur : option ptr) (l : list ptr).

Lemma malloc_ok w n σ p :
  alloc_block (w_alloc w) (w_blocks w) n = (σ, Some p) →
  malloc n w = Ok (set_blocks (<[p := n]> (w_blocks w)) (set_alloc σ w), p).
Proof. intros Ha. unfold malloc. run_op. by rewrite Ha. Qed.

Lemma malloc_null w n σ :
  alloc_block (w_alloc w) (w_blocks w) n = (σ, None) →
  malloc n w = Ok (set_alloc σ w, NULL).
Proof. intros Ha. unfold malloc. run_op. by rewrite Ha. Qed.

Lemma free_ok w p n :
  p ≠ NULL → w_blocks w !! p = Some n →
  free p w = Ok (set_blocks (delete p (w_blocks w))
                   (set_objs (delete p (w_objs w))
                      (set_ctxs (delete (CoCtx p) (w_ctxs w)) w)), ()).
Proof.
  intros Hp Hb. unfold free. rewrite (proj2 (Z.eqb_neq _ _)) by done.
  run_op. by rewrite Hb.
Qed.

Lemma store_stack_spec w stack n a v :
  w_blocks w !! stack = Some n →
  store_stack stack a v w
  = if (stack <=? a) && (a + 8 <=? stack + n)
    then Ok (set_words (<[a := v]> (w_words w)) w, ()) else Err (BadStore a).
Proof. intros Hb. unfold store_stack. run_op. rewrite Hb. by case_match. Qed.

(** The two words at the top of an aligned block lie in it. *)
Lemma image_in_block stack n :
  stack mod 16 = 0 → 0 < stack → 16 ≤ n →
  in_block stack n (stack_top stack n - 16) ∧ in_block stack n (stack_top stack n - 8).
Proof.
  intros Hal Hpos Hn. pose proof (stack_top_aligned stack n Hal).
  assert (16 ≤ n - n mod 16) by (apply round16_ge; lia).
  pose proof (Z.mod_pos_bound n 16). unfold in_block. lia.
Qed.

(** The two pushes of [co_create]. *)
Lemma store_image_ok w stack n co :
  w_blocks w !! stack = Some n → stack mod 16 = 0 → 0 < stack → 16 ≤ n →
  stack + n < 2 ^ 64 →
  let top := stack_top stack n in
  stack_image stack n co
    = (MkAsmCtx (top - 16) 0 0 0 0 0 0, [(top - 8, co); (top - 16, sym_co_trampoline)])
  ∧ in_block stack n (top - 16) ∧ in_block stack n (top - 8)
  ∧ store_words stack [(top - 8, co); (top - 16, sym_co_trampoline)] w
    = Ok (set_words (<[top - 16 := sym_co_trampoline]> (<[top - 8 := co]> (w_words w))) w,
          ()).
Proof.
  intros Hb Hal Hpos Hn Hhi top. pose proof (stack_top_aligned stack n Hal) as Htop.
  assert (16 ≤ n - n mod 16) by (apply round16_ge; lia).
  pose proof (Z.mod_pos_bound n 16). fold top in Htop.
  assert (in_block stack n (top - 16) ∧ in_block stack n (top - 8)) as [Hb1 Hb2]
    by (unfold in_block; lia).
  split_and!; [|done|done|].
  - apply stack_image_eq; fold top; lia.
  - cbn [store_words]. unfold in_block in *.
    erewrite se_bind_ok by (erewrite store_stack_spec by done;
      rewrite (proj2 (Z.leb_le _ _)), (proj2 (Z.leb_le _ _)) by lia; reflexivity).
    cbn beta.
    erewrite se_bind_ok by (erewrite store_stack_spec by done;
      rewrite (proj2 (Z.leb_le _ _)), (proj2 (Z.leb_le _ _)) by lia; reflexivity).
    done.
Qed.

Lemma store_image_small w stack n co :
  w_blocks w !! stack = Some n → stack mod 16 = 0 → 0 < stack → 0 < n < 16 →
  stack + n < 2 ^ 64 →
  store_words stack (stack_image stack n co).2 w = Err (BadStore (stack - 8)).
Proof.
  intros Hb Hal Hpos Hn Hhi. pose proof (stack_top_aligned stack n Hal) as Htop.
  rewrite (Z.mod_small n) in Htop by lia. pose proof (Z.div_mod stack 16).
  rewrite stack_image_eq by lia. cbn [snd store_words].
  replace (stack_top stack n) with stack by lia.
  apply se_bind_err. erewrite store_stack_spec by done.
  by rewrite (proj2 (Z.leb_gt _ _)) by lia.
Qed.

(** ** co_create *)

Definition real_size (stack_size : Z) : Z :=
  if stack_size =? 0 then DEFAULT_STACK_SIZE else stack_size.

Definition new_co w (fn arg stack : ptr) (n : Z) : Coroutine :=
  MkCo (s_count (w_S w) + 1) CO_READY fn arg stack n NULL.

(** The state after a successful [co_create] that allocated [p] and
    [stack]. *)
Definition created (p stack : ptr) (σ : alloc_state) (fn arg : ptr) (n : Z) w
    : world L U :=
  let s := w_S w in
  let top := stack_top stack n in
  MkWorld
    (pushed p (with_count (s_count s + 1)
                 (with_all (zinsert (s_count s) p (s_all s)) s)))
    (<[p := new_co w fn arg stack n]> (w_objs w))
    (<[stack := n]> (<[p := sizeof_Coroutine]> (w_blocks w)))
    (<[top - 16 := sym_co_trampoline]> (<[top - 8 := p]> (w_words w)))
    (<[CoCtx p := SFresh (MkAsmCtx (top - 16) 0 0 0 0 0 0)]> (w_ctxs w))
    σ (w_user w) (w_cpu w).

(** The guards of [co_create]. *)
Lemma co_create_guards w fn arg n0 :
  (fn = NULL ∧ co_create fn arg n0 w = Err AssertFnNull)
  ∨ (fn ≠ NULL ∧ MAX_COROUTINES ≤ s_count (w_S w)
     ∧ co_create fn arg n0 w = Err AssertTooMany)
  ∨ (fn ≠ NULL ∧ s_count (w_S w) < MAX_COROUTINES).
Proof.
  unfold co_create. destruct (decide (fn = NULL)) as [->|Hfn]; [by left|right].
  destruct (Z.lt_ge_cases (s_count (w_S w)) MAX_COROUTINES); [by right|left].
  split_and!; [done..|].
  erewrite se_bind_ok by
    (apply se_assert_true; by rewrite (proj2 (Z.eqb_neq _ _)) by done).
  unfold get_S. run_op. apply se_bind_err. unfold se_assert.
  by rewrite (proj2 (Z.ltb_ge _ _)) by done.
Qed.

Section outcomes.
Variables (w : world L U) (fn arg : ptr) (n0 : Z).
Hypotheses (Hfn : fn ≠ NULL) (Hcount : s_count (w_S w) < MAX_COROUTINES).

Lemma co_create_no_object σ :
  alloc_block (w_alloc w) (w_blocks w) sizeof_Coroutine = (σ, None) →
  co_create fn arg n0 w = Ok (set_alloc σ w, NULL).
Proof using Hfn Hcount.
  intros Ha. unfold co_create, get_S. run_op. run_op.
  erewrite se_bind_ok by by apply se_assert_true, Z.ltb_lt. cbn beta zeta.
  erewrite se_bind_ok; [|unfold calloc_Coroutine;
    erewrite se_bind_ok by apply (malloc_null _ _ _ Ha); reflexivity].
  reflexivity.
Qed.

Lemma calloc_ok σ p :
  alloc_block (w_alloc w) (w_blocks w) sizeof_Coroutine = (σ, Some p) → p ≠ NULL →
  calloc_Coroutine w
  = Ok (set_objs (<[p := zero_co]> (w_objs w))
          (set_blocks (<[p := sizeof_Coroutine]> (w_blocks w)) (set_alloc σ w)), p).
Proof.
  intros Ha Hp. unfold calloc_Coroutine.
  erewrite se_bind_ok by apply (malloc_ok _ _ _ _ Ha). cbn beta.
  by rewrite (proj2 (Z.eqb_neq _ _)) by done.
Qed.

Lemma co_create_no_stack σ p σ' :
  alloc_block (w_alloc w) (w_blocks w) sizeof_Coroutine = (σ, Some p) → p ≠ NULL →
  alloc_block σ (<[p := sizeof_Coroutine]> (w_blocks w)) (real_size n0) = (σ', None) →
  w_blocks w !! p = None → w_objs w !! p = None →
  co_create fn arg n0 w
  = Ok (set_ctxs (delete (CoCtx p) (w_ctxs w)) (set_alloc σ' w), NULL).
Proof using Hfn Hcount.
  intros Ha Hp Hs Hb Ho. unfold co_create, get_S. run_op. run_op.
  erewrite se_bind_ok by by apply se_assert_true, Z.ltb_lt. cbn beta zeta.
  erewrite se_bind_ok by apply (calloc_ok _ _ Ha Hp). cbn beta.
  rewrite (proj2 (Z.eqb_neq _ _)) by done. fold (real_size n0).
  erewrite se_bind_ok by (apply malloc_null, Hs). cbn beta.
  run_op. change (NULL =? NULL) with true. cbn match.
  erewrite se_bind_ok by (eapply free_ok; [done|apply lookup_insert_eq]).
  cbn. rewrite insert_insert_eq, !delete_insert_id by done. reflexivity.
Qed.

Lemma co_create_created σ p σ' stack l :
  alloc_block (w_alloc w) (w_blocks w) sizeof_Coroutine = (σ, Some p) → p ≠ NULL →
  alloc_block σ (<[p := sizeof_Coroutine]> (w_blocks w)) (real_size n0)
    = (σ', Some stack) →
  stack ≠ NULL → stack mod 16 = 0 → 0 < stack → 16 ≤ real_size n0 →
  stack + real_size n0 < 2 ^ 64 →
  0 ≤ s_count (w_S w) → Z.of_nat (length (s_all (w_S w))) = MAX_COROUTINES →
  ring_rep (w_S w) l → Z.of_nat (length l) < QUEUE_CAP →
  co_create fn arg n0 w = Ok (created p stack σ' fn arg (real_size n0) w, p).
Proof using Hfn Hcount.
  intros Ha Hp Hs Hs0 Hal Hpos Hn Hhi Hc0 Hall Hring Hlen. consts.
  unfold co_create, get_S. run_op. run_op.
  erewrite se_bind_ok by by apply se_assert_true, Z.ltb_lt. cbn beta zeta.
  erewrite se_bind_ok by apply (calloc_ok _ _ Ha Hp). cbn beta.
  rewrite (proj2 (Z.eqb_neq _ _)) by done. fold (real_size n0).
  erewrite se_bind_ok by (apply malloc_ok, Hs). cbn beta.
  run_op. rewrite (proj2 (Z.eqb_neq _ _)) by done.
  run_op. erewrite se_bind_ok by (apply int_add_ok; cbn; lia). cbn beta.
  run_op.
  set (w1 := set_objs _ _).
  destruct (store_image_ok w1 stack (real_size n0) p) as (-> & _ & _ & Hst);
    [apply lookup_insert_eq|done..|].
  cbn [fst snd]. erewrite se_bind_ok by exact Hst. cbn beta.
  run_op. run_op.
  erewrite se_bind_ok by (apply se_assert_true, in_bounds_true; cbn; lia). cbn beta.
  unfold mod_S. run_op. erewrite se_bind_ok by (apply int_add_ok; cbn; lia). cbn beta.
  run_op. subst w1.
  erewrite se_bind_ok by
    (eapply q_push_ok; [by eapply ring_rep_ext; [|exact Hring]|done]).
  unfold created, new_co. cbn. by rewrite !insert_insert_eq.
Qed.
End outcomes.

(** A stack smaller than the two words it must hold. *)
Lemma co_create_small w fn arg n0 σ p σ' stack :
  fn ≠ NULL → s_count (w_S w) < MAX_COROUTINES →
  alloc_block (w_alloc w) (w_blocks w) sizeof_Coroutine = (σ, Some p) → p ≠ NULL →
  alloc_block σ (<[p := sizeof_Coroutine]> (w_blocks w)) (real_size n0)
    = (σ', Some stack) →
  stack ≠ NULL → stack mod 16 = 0 → 0 < stack → 0 < real_size n0 < 16 →
  stack + real_size n0 < 2 ^ 64 → 0 ≤ s_count (w_S w) →
  co_create fn arg n0 w = Err (BadStore (stack - 8)).
Proof.
  intros Hfn Hcount Ha Hp Hs Hs0 Hal Hpos Hn Hhi Hc0. consts.
  unfold co_create, get_S. run_op. run_op.
  erewrite se_bind_ok by by apply se_assert_true, Z.ltb_lt. cbn beta zeta.
  erewrite se_bind_ok by apply (calloc_ok _ _ _ Ha Hp). cbn beta.
  rewrite (proj2 (Z.eqb_neq _ _)) by done. fold (real_size n0).
  erewrite se_bind_ok by (apply malloc_ok, Hs). cbn beta.
  run_op. rewrite (proj2 (Z.eqb_neq _ _)) by done.
  run_op. erewrite se_bind_ok by (apply int_add_ok; cbn; lia). cbn beta.
  run_op.
  set (w1 := set_objs _ _).
  pose proof (store_image_small w1 stack (real_size n0) p) as Hst.
  destruct (stack_image stack (real_size n0) p) as [a ws]. cbn [snd] in Hst.
  erewrite se_bind_err; [done|]. apply Hst; [apply lookup_insert_eq|done..].
Qed.

(** ** The invariant after co_create *)

(** A failed allocation changes only the allocator's state. *)
Lemma inv_set_alloc cur l w σ : inv cur l w → inv cur l (set_alloc σ w).
Proof. intros Hi. by split; try apply Hi. Qed.

(** A context field that belongs to no live coroutine. *)
Lemma inv_drop_ctx cur l w p :
  w_objs w !! p = None → inv cur l w →
  inv cur l (set_ctxs (delete (CoCtx p) (w_ctxs w)) w).
Proof.
  intros Hp Hi. split; try apply Hi; cbn.
  - intros q c Hq. eapply co_ok_frame'; [exact Hi|exact Hq|done..| |].
    + apply pending_mono_refl.
    + rewrite lookup_delete_ne; [done|congruence].
  - rewrite lookup_delete_ne by done. apply Hi.
Qed.

(** The new coroutine, in the state it is created in. *)
Lemma co_ok_created w cur l p stack σ fn arg n :
  inv cur l w → fn ≠ NULL → s_count (w_S w) < MAX_COROUTINES → w_objs w !! p = None →
  in_block stack n (stack_top stack n - 16) → in_block stack n (stack_top stack n - 8) →
  let w' := created p stack σ fn arg n w in
  co_ok (w_S w') (w_objs w') (w_words w') (w_ctxs w') cur (l ++ [p]) p
    (new_co w fn arg stack n).
Proof.
  intros Hi Hfn Hcount Hpo Hlo Hhi w'.
  pose proof (inv_all _ _ _ Hi). pose proof (inv_count _ _ _ Hi).
  split; cbn; [lia| | | |done|done| |done].
  - rewrite Z.add_simpl_r. apply zlookup_zinsert_eq. lia.
  - split; [done|]. intros _. apply elem_of_app. right. by left.
  - split; [|done]. intros [d Hd]%(inv_cur _ _ _ Hi). congruence.
  - intros _. right. eexists. rewrite lookup_insert_eq. split; [done|].
    split; cbn; [by rewrite lookup_insert_eq| |done|].
    + rewrite lookup_insert_ne by lia.
      replace (stack_top stack n - 16 + 8) with (stack_top stack n - 8) by lia.
      by rewrite lookup_insert_eq.
    + by replace (stack_top stack n - 16 + 8) with (stack_top stack n - 8) by lia.
Qed.

(** The coroutines there were before. *)
Lemma co_ok_created_other w cur l p stack σ fn arg n q d :
  inv cur l w → s_count (w_S w) < MAX_COROUTINES →
  new_block (<[p := sizeof_Coroutine]> (w_blocks w)) stack n →
  w_blocks w !! p = None →
  in_block stack n (stack_top stack n - 16) → in_block stack n (stack_top stack n - 8) →
  q ≠ p → w_objs w !! q = Some d →
  let w' := created p stack σ fn arg n w in
  co_ok (w_S w') (w_objs w') (w_words w') (w_ctxs w') cur (l ++ [p]) q d.
Proof.
  intros Hi Hcount Hbs Hpb Hlo Hhi Hne Hq w'.
  eapply co_ok_frame; [by apply (inv_co _ _ _ Hi)|cbn..].
  - lia.
  - intros i Hilt. rewrite zlookup_zinsert_ne; [done|lia].
  - rewrite elem_of_app, list_elem_of_singleton. split; [|by left].
    by intros [| ->].
  - done.
  - apply pending_mono_insert. done.
  - intros a Ha. destruct (ho_obj _ _ (inv_heap _ _ _ Hi) _ _ Hq) as [_ Hb2].
    assert (stack + n ≤ c_stack d ∨ c_stack d + c_stack_size d ≤ stack) as Hd.
    { apply (nb_disj _ _ _ Hbs). rewrite lookup_insert_ne; [done|congruence]. }
    unfold in_block in *. rewrite !lookup_insert_ne by lia. done.
  - rewrite lookup_insert_ne; [done|congruence].
Qed.

Lemma inv_created w cur l p stack σ fn arg n :
  inv cur l w → fn ≠ NULL → s_count (w_S w) < MAX_COROUTINES →
  new_block (w_blocks w) p sizeof_Coroutine →
  new_block (<[p := sizeof_Coroutine]> (w_blocks w)) stack n → 16 ≤ n →
  w_objs w !! p = None →
  inv cur (l ++ [p]) (created p stack σ fn arg n w).
Proof.
  intros Hi Hfn Hcount Hbp Hbs Hn Hpo.
  pose proof (heap_ok_alloc _ _ _ _ (inv_heap _ _ _ Hi) Hbp) as Hh1.
  pose proof (heap_ok_alloc _ _ _ _ Hh1 Hbs) as Hh2.
  pose proof (new_block_None _ _ _ _ (inv_heap _ _ _ Hi) Hbp) as Hpb.
  pose proof (new_block_None _ _ _ _ Hh1 Hbs) as Hsb.
  pose proof (inv_all _ _ _ Hi) as Hall. pose proof (inv_count _ _ _ Hi) as Hc0.
  assert (p ≠ stack) as Hps.
  { intros ->. by rewrite lookup_insert_eq in Hsb. }
  rewrite lookup_insert_ne in Hsb by done.
  assert (p ∉ l) as Hpl.
  { intros Hin. destruct (inv_live _ _ _ Hi _ Hin). congruence. }
  destruct (nb_pos _ _ _ Hbs) as (Hs0 & _ & Hsal & Hshi).
  pose proof (image_in_block stack n Hsal Hs0 Hn) as [Hlo Hhi].
  split; cbn.
  - apply heap_ok_add; [done|cbn..].
    + by rewrite lookup_insert_ne, lookup_insert_eq.
    + by rewrite lookup_insert_eq.
    + done.
    + intros q d Hq. destruct (ho_obj _ _ (inv_heap _ _ _ Hi) _ _ Hq) as [Hb1 Hb2].
      split_and!; congruence.
  - apply pushed_rep; [|by eapply inv_room].
    by eapply ring_rep_ext; [|apply Hi].
  - apply NoDup_app. split_and!; [apply Hi| |apply NoDup_singleton].
    by intros q Hq ->%list_elem_of_singleton.
  - intros q [Hq| ->%list_elem_of_singleton]%elem_of_app.
    + apply live_insert, (inv_live _ _ _ Hi _ Hq).
    + rewrite lookup_insert_eq. eauto.
  - intros q Hq. apply live_insert, (inv_cur _ _ _ Hi _ Hq).
  - lia.
  - by rewrite length_zinsert.
  - intros q d Hq. apply lookup_insert_Some in Hq as [[<- <-]|[Hne Hq]].
    + by apply (co_ok_created w cur l p stack σ).
    + by apply (co_ok_created_other w cur l p stack σ fn arg).
  - rewrite lookup_insert_ne by done. apply Hi.
Qed.

(** The registration of [p] by a successful [co_create]. *)
Record registered w (fn arg : ptr) (n : Z) (p : ptr) w' : Prop := {
  rg_new : w_objs w !! p = None;
  rg_null : p ≠ NULL;
  rg_objs : ∃ stack, w_objs w' = <[p := new_co w fn arg stack n]> (w_objs w);
  rg_count : s_count (w_S w') = s_count (w_S w) + 1;
  rg_all : registry (w_S w') = registry (w_S w) ++ [p];
  rg_running : s_running (w_S w') = s_running (w_S w);
  rg_user : w_user w' = w_user w;
  rg_cpu : w_cpu w' = w_cpu w;
  rg_ctxs q : q ≠ p → w_ctxs w' !! CoCtx q = w_ctxs w !! CoCtx q;
  rg_main : w_ctxs w' !! MainCtx = w_ctxs w !! MainCtx;
  rg_fresh : ∃ a, w_ctxs w' !! CoCtx p = Some (SFresh a)
}.

Lemma registry_snoc s p n q hd tl sz r :
  0 ≤ s_count s → s_count s < Z.of_nat (length (s_all s)) → n = s_count s + 1 →
  registry (MkSched (zinsert (s_count s) p (s_all s)) n q hd tl sz r)
  = registry s ++ [p].
Proof.
  intros Hn Hlt ->. unfold registry. cbn.
  replace (Z.to_nat (s_count s + 1)) with (S (Z.to_nat (s_count s))) by lia.
  unfold zinsert. rewrite (proj2 (Z.leb_le _ _)) by done.
  erewrite take_S_r; [|apply list_lookup_insert_eq; lia].
  by rewrite take_insert_ge by lia.
Qed.

Lemma registered_created w p stack σ fn arg n l cur :
  inv cur l w → s_count (w_S w) < MAX_COROUTINES →
  w_objs w !! p = None → p ≠ NULL →
  registered w fn arg n p (created p stack σ fn arg n w).
Proof.
  intros Hi Hlt Hp Hp0. pose proof (inv_count _ _ _ Hi). pose proof (inv_all _ _ _ Hi).
  split; try done; [by eexists| | | |].
  - apply (registry_snoc (w_S w)); [lia..|done].
  - intros q Hq. apply lookup_insert_ne. congruence.
  - by apply lookup_insert_ne.
  - eexists. apply lookup_insert_eq.
Qed.

Lemma real_size_pos n0 : 0 ≤ n0 → 0 < real_size n0.
Proof. intros Hn. unfold real_size. destruct (Z.eqb_spec n0 0); consts; lia. Qed.

Lemma real_size_small n0 : 0 ≤ n0 → real_size n0 < 16 → 0 < n0 < 16.
Proof. intros Hn. unfold real_size. destruct (Z.eqb_spec n0 0); consts; lia. Qed.

(** One of the two requests of [co_create] is refused in [w]. *)
Definition create_refused w (n0 : Z) : bool :=
  match alloc_block (w_alloc w) (w_blocks w) sizeof_Coroutine with
  | (_, None) => true
  | (σ, Some p) =>
      match alloc_block σ (<[p := sizeof_Coroutine]> (w_blocks w)) (real_size n0) with
      | (_, None) => true
      | _ => false
      end
  end.

(** [co_create] on every branch. *)
Lemma co_create_cases w cur l fn arg n0 :
  inv cur l w → 0 ≤ n0 →
  match co_create fn arg n0 w with
  | Ok (w', p) =>
      fn ≠ NULL ∧
      (p = NULL ∧ inv cur l w' ∧ w_objs w' = w_objs w ∧ w_S w' = w_S w
         ∧ w_user w' = w_user w ∧ w_cpu w' = w_cpu w ∧ w_blocks w' = w_blocks w
         ∧ ctxs_kept w w' ∧ w_ctxs w' !! MainCtx = w_ctxs w !! MainCtx 
         ∧ create_refused w n0 = true
       ∨ inv cur (l ++ [p]) w' ∧ registered w fn arg (real_size n0) p w')
  | Err AssertFnNull => fn = NULL
  | Err AssertTooMany => fn ≠ NULL ∧ s_count (w_S w) = MAX_COROUTINES
  | Err (BadStore _) => 0 < n0 < 16
  | Err _ => False
  end.
Proof.
  intros Hi Hn0. pose proof (inv_count _ _ _ Hi) as Hc0. pose proof (real_size_pos _ Hn0).
  destruct (co_create_guards w fn arg n0) as [[-> ->]|[(Hfn & Hc & ->)|[Hfn Hc]]];
    [done|split; [done|lia]|].
  destruct (alloc_block (w_alloc w) (w_blocks w) sizeof_Coroutine) as [σ [p|]] eqn:Ha; cycle 1.
  { erewrite co_create_no_object by done. split; [done|left].
    split_and!; try done; [by apply inv_set_alloc|].
    unfold create_refused. by rewrite Ha. }
  assert (new_block (w_blocks w) p sizeof_Coroutine) as Hbp by by eapply alloc_new.
  pose proof (new_block_None _ _ _ _ (inv_heap _ _ _ Hi) Hbp) as Hpb.
  assert (p ≠ NULL) as Hp0 by (destruct Hbp; consts; lia).
  assert (w_objs w !! p = None) as Hpo.
  { destruct (w_objs w !! p) as [c|] eqn:Hc'; [|done].
    apply (ho_obj _ _ (inv_heap _ _ _ Hi)) in Hc' as [? _]. congruence. }
  destruct (alloc_block σ (<[p := sizeof_Coroutine]> (w_blocks w)) (real_size n0))
    as [σ' [stack|]] eqn:Hs; cycle 1.
  { erewrite co_create_no_stack by done. split; [done|left].
    split_and!; try done; [by apply (inv_drop_ctx cur l (set_alloc σ' w)), inv_set_alloc| | |].
    - intros q [d Hq]. apply lookup_delete_ne. congruence.
    - by apply lookup_delete_ne.
    - unfold create_refused. by rewrite Ha, Hs. }
  assert (new_block (<[p := sizeof_Coroutine]> (w_blocks w)) stack (real_size n0))
    as Hbs by by eapply alloc_new.
  destruct (nb_pos _ _ _ Hbs) as (Hs0 & _ & Hsal & Hshi).
  assert (stack ≠ NULL) by (consts; lia).
  destruct (Z.lt_ge_cases (real_size n0) 16) as [Hsm|Hbig].
  { rewrite (co_create_small w fn arg n0 σ p σ' stack) by (done || lia). by apply real_size_small. }
  rewrite (co_create_created w fn arg n0 Hfn Hc σ p σ' stack l)
    by (first [done | lia | apply Hi | by eapply inv_room]).
  split; [done|right]. split; [by eapply inv_created|by eapply registered_created].
Qed.

(** ** co_free *)

(** The state after [co_free(p)] for an object [c]. *)
Definition freed (p : ptr) (c : Coroutine) w : world L U :=
  set_blocks (delete p (delete (c_stack c) (w_blocks w)))
    (set_objs (delete p (w_objs w))
       (set_ctxs (delete (CoCtx p) (delete (CoCtx (c_stack c)) (w_ctxs w))) w)).

Lemma co_free_ok w cur l p c :
  inv cur l w → w_objs w !! p = Some c → c_state c = CO_DONE →
  co_free p w = Ok (freed p c w, ()).
Proof.
  intros Hi Hp Hst. pose proof (inv_heap _ _ _ Hi) as Hh.
  destruct (ho_obj _ _ Hh _ _ Hp) as [Hbp Hbs].
  destruct (ho_stack _ _ Hh _ _ _ _ Hp Hp) as [Hne _].
  pose proof (ho_block _ _ Hh _ _ Hbs) as (Hs0 & _).
  assert (p ≠ NULL) by (eapply inv_not_null; eauto).
  assert (w_objs w !! c_stack c = None) as Hso.
  { destruct (w_objs w !! c_stack c) as [d|] eqn:Hd; [|done].
    by destruct (ho_stack _ _ Hh _ _ _ _ Hp Hd) as [[] _]. }
  unfold co_free. run_op. run_op. run_op.
  erewrite se_bind_ok by (eapply free_ok; [consts; lia|done]). cbn beta.
  erewrite free_ok; [|done|cbn; by rewrite lookup_delete_ne].
  unfold freed. cbn. by rewrite (delete_id (w_objs w)) by done.
Qed.

Lemma inv_freed w cur l p c :
  inv cur l w → w_objs w !! p = Some c → c_state c = CO_DONE →
  inv cur l (freed p c w).
Proof.
  intros Hi Hp Hst. pose proof (inv_heap _ _ _ Hi) as Hh.
  pose proof (inv_co _ _ _ Hi _ _ Hp) as Hok.
  assert (p ∉ l) as Hpl.
  { rewrite (k_queue _ _ _ _ _ _ _ _ Hok). congruence. }
  assert (cur ≠ Some p) as Hpc.
  { rewrite (k_run _ _ _ _ _ _ _ _ Hok). congruence. }
  split; cbn.
  - by apply heap_ok_free.
  - by eapply ring_rep_ext; [|apply Hi].
  - apply Hi.
  - intros q Hq. rewrite lookup_delete_ne by congruence. by apply (inv_live _ _ _ Hi).
  - intros q Hq. rewrite lookup_delete_ne by congruence. by apply (inv_cur _ _ _ Hi).
  - apply Hi.
  - apply Hi.
  - intros q d [Hne Hq]%lookup_delete_Some.
    eapply co_ok_frame'; [exact Hi|exact Hq|done|done|done|done|..].
    + intros t e Ht Hnd. exists e. rewrite lookup_delete_ne; [done|congruence].
    + destruct (ho_stack _ _ Hh _ _ _ _ Hp Hq) as [Hne' _].
      rewrite !lookup_delete_ne by congruence. done.
  - rewrite !lookup_delete_ne by done. apply Hi.
Qed.

(** The other coroutines keep their contexts. *)
Lemma freed_ctxs w cur l p c q d :
  inv cur l w → w_objs w !! p = Some c → w_objs w !! q = Some d → q ≠ p →
  w_ctxs (freed p c w) !! CoCtx q = w_ctxs w !! CoCtx q.
Proof.
  intros Hi Hp Hq Hne. cbn.
  destruct (ho_stack _ _ (inv_heap _ _ _ Hi) _ _ _ _ Hp Hq) as [Hns _].
  by rewrite !lookup_delete_ne by congruence.
Qed.

(** [co_free] on every branch. *)
Lemma co_free_cases w cur l p :
  inv cur l w →
  match co_free p w with
  | Ok (w', _) =>
      ∃ c, w_objs w !! p = Some c ∧ c_state c = CO_DONE ∧ w' = freed p c w
           ∧ inv cur l w'
  | Err AssertFreeNull => p = NULL
  | Err AssertFreeNotDone => ∃ c, w_objs w !! p = Some c ∧ c_state c ≠ CO_DONE
  | Err (BadDeref q) => q = p ∧ p ≠ NULL ∧ w_objs w !! p = None
  | Err _ => False
  end.
Proof.
  intros Hi. destruct (decide (p = NULL)) as [->|Hp0]; [done|].
  destruct (w_objs w !! p) as [c|] eqn:Hp; cycle 1.
  { unfold co_free. run_op. by erewrite se_bind_err by by apply deref_bad. }
  destruct (decide (c_state c = CO_DONE)) as [Hst|Hst].
  - erewrite co_free_ok by done. exists c. split_and!; try done. by apply inv_freed.
  - unfold co_free. run_op. run_op.
    rewrite (se_bind_err _ _ _ AssertFreeNotDone)
      by (by rewrite bool_decide_false by done).
    by exists c.
Qed.

(** ** co_state and co_id *)

Lemma co_state_cases w p :
  match co_state p w with
  | Ok (w', st) => w' = w ∧ ∃ c, w_objs w !! p = Some c ∧ c_state c = st
  | Err AssertStateNull => p = NULL
  | Err (BadDeref q) => q = p ∧ p ≠ NULL ∧ w_objs w !! p = None
  | Err _ => False
  end.
Proof.
  destruct (decide (p = NULL)) as [->|Hp0]; [done|].
  unfold co_state. run_op. destruct (w_objs w !! p) as [c|] eqn:Hp.
  - run_op. split; [done|]. by exists c.
  - by erewrite se_bind_err by by apply deref_bad.
Qed.

(** The identifier of the current coroutine, 0 in main. *)
Definition cur_id cur w : option Z :=
  match cur with
  | None => Some 0
  | Some p => c_id <$> w_objs w !! p
  end.

(** While [main] or a coroutine's body runs, [co_id] never fails. *)
Lemma co_id_ok w cur l y k :
  inv cur l w → w_cpu w = FUser y :: k →
  ∃ i, cur_id cur w = Some i ∧ co_id w = Ok (w, i).
Proof.
  intros Hi Hcpu. pose proof (inv_control _ _ _ Hi) as Hc. rewrite Hcpu in Hc.
  unfold co_id, get_S. run_op.
  inversion Hc as [|? ? Hr| | |? p ? Hp Hk Hr]; subst.
  - by exists 0.
  - destruct (inv_cur _ _ _ Hi _ eq_refl) as [c Hco]. cbn. rewrite Hco.
    exists (c_id c). rewrite (proj2 (Z.eqb_neq _ _)) by done. by run_op.
Qed.
End create.
