(* ===== verification/Spec.v ===== *)
(** * What the scheduler promises

    The abstract scheduler: a table of coroutines with their status, the queue
    of the READY ones, the current one and the list of those ever created.
    Its transitions say what each call does, without the circular buffer, the
    contexts, the stacks, or the heap. *)

From stdpp Require Import gmap.
From S2P Require Import Prelude Ring Machine State RunQueue Api Ops Invariant.

(** ** States *)

Inductive status : Set := AReady | ARunning | AWaiting (on : ptr) | ADone.

#[export] Instance status_eq_dec : EqDecision status.
Proof. solve_decision. Defined.

Record aco := ACo {
  a_id : Z;
  a_fn : ptr;
  a_arg : ptr;
  a_status : status
}.

Record asched := ASched {
  a_cos : gmap ptr aco;
  a_queue : list ptr;
  a_cur : option ptr;
  a_reg : list ptr
}.

Definition set_status (st : status) (c : aco) : aco :=
  ACo (a_id c) (a_fn c) (a_arg c) st.

(** A coroutine when [p] finishes. *)
Definition awake (p : ptr) (c : aco) : aco :=
  if decide (a_status c = AWaiting p) then set_status AReady c else c.

(** ** Transitions *)

Inductive event : Set :=
| ECreate (fn arg p : ptr)
| EYield (p : ptr)
| EAwait (p q : ptr)
| EDispatch (p : ptr)
| EFinish (p : ptr) (waiters : list ptr)
| EFree (p : ptr)
| ETau.

#[export] Instance event_eq_dec : EqDecision event.
Proof. solve_decision. Defined.

Inductive spec_step : asched → event → asched → Prop :=
| sp_create cos q cur reg fn arg p :
    fn ≠ NULL → p ≠ NULL → cos !! p = None →
    Z.of_nat (length reg) < MAX_COROUTINES →
    spec_step (ASched cos q cur reg) (ECreate fn arg p)
      (ASched (<[p := ACo (Z.of_nat (length reg) + 1) fn arg AReady]> cos)
         (q ++ [p]) cur (reg ++ [p]))
| sp_yield cos q reg p c :
    cos !! p = Some c → a_status c = ARunning →
    spec_step (ASched cos q (Some p) reg) (EYield p)
      (ASched (<[p := set_status AReady c]> cos) (q ++ [p]) None reg)
| sp_await cos q reg p c o d :
    cos !! p = Some c → a_status c = ARunning →
    cos !! o = Some d → a_status d ≠ ADone →
    spec_step (ASched cos q (Some p) reg) (EAwait p o)
      (ASched (<[p := set_status (AWaiting o) c]> cos) q None reg)
| sp_dispatch cos q reg p c :
    cos !! p = Some c → a_status c = AReady →
    spec_step (ASched cos (p :: q) None reg) (EDispatch p)
      (ASched (<[p := set_status ARunning c]> cos) q (Some p) reg)
| sp_finish cos q reg p c ws :
    cos !! p = Some c → a_status c = ARunning →
    Forall (λ r, is_Some (cos !! r)) reg →
    NoDup ws → ws `sublist_of` reg →
    (∀ r, r ∈ ws ↔ ∃ d, cos !! r = Some d ∧ a_status d = AWaiting p) →
    spec_step (ASched cos q (Some p) reg) (EFinish p ws)
      (ASched (<[p := set_status ADone c]> (awake p <$> cos)) (q ++ ws) None reg)
| sp_free cos q cur reg p c :
    cos !! p = Some c → a_status c = ADone →
    spec_step (ASched cos q cur reg) (EFree p)
      (ASched (delete p cos) q cur reg)
| sp_tau σ : spec_step σ ETau σ.

Inductive spec_steps : asched → list event → asched → Prop :=
| sps_nil σ : spec_steps σ [] σ
| sps_cons σ e σ' es σ'' :
    spec_step σ e σ' → spec_steps σ' es σ'' → spec_steps σ (e :: es) σ''.

(** ** Abstraction *)

Definition abs_status (c : Coroutine) : status :=
  match c_state c with
  | CO_READY => AReady
  | CO_RUNNING => ARunning
  | CO_WAITING => AWaiting (c_awaiting c)
  | CO_DONE => ADone
  end.

Definition abs_co (c : Coroutine) : aco := ACo (c_id c) (c_fn c) (c_arg c) (abs_status c).

Section abs.
Context {L U : Type} `{Allocator, LinkMap, UserCode L U}.
Implicit Types (w : world L U) (cur : option ptr) (l : list ptr).

Definition abs cur l w : asched :=
  ASched (abs_co <$> w_objs w) l cur (registry (w_S w)).

Lemma abs_lookup w p c : w_objs w !! p = Some c → (abs_co <$> w_objs w) !! p = Some (abs_co c).
Proof. intros Hp. by rewrite lookup_fmap, Hp. Qed.

Lemma abs_lookup_inv w p a :
  (abs_co <$> w_objs w) !! p = Some a → ∃ c, w_objs w !! p = Some c ∧ a = abs_co c.
Proof. intros (c & <- & Hc)%lookup_fmap_Some. eauto. Qed.

(** The event a state is about to perform, from the code it executes. *)
Definition observes w (l : list ptr) (e : event) : Prop :=
  match w_cpu w with
  | FUser y :: _ =>
      match (ustep y (w_user w)).1, e with
      | UYield _, EYield _ => True
      | UAwait q _, EAwait _ q' => q' = q
      | UAwait q _, ETau => ∃ d, w_objs w !! q = Some d ∧ c_state d = CO_DONE
      | UCreate fn arg _ _, ECreate fn' arg' _ => fn' = fn ∧ arg' = arg
      | UCreate _ _ _ _, ETau => True
      | UFree q _, EFree q' => q' = q
      | (UReturn | UTau _ | UState _ _ | UId _ | URun _), ETau => True
      | _, _ => False
      end
  | FRun :: _ => match l with [] => e = ETau | p :: _ => e = EDispatch p end
  | FEntryRet p :: _ => ∃ ws, e = EFinish p ws
  | _ => e = ETau
  end.
End abs.

Section spec_facts.
(** ** Consequences *)

(** The status changes a live coroutine can undergo in one transition. *)
Inductive status_step : status → status → Prop :=
| st_same s : status_step s s
| st_dispatch : status_step AReady ARunning
| st_yield : status_step ARunning AReady
| st_await q : status_step ARunning (AWaiting q)
| st_done : status_step ARunning ADone
| st_wake q : status_step (AWaiting q) AReady.

Lemma spec_status_step σ e σ' p c c' :
  spec_step σ e σ' → a_cos σ !! p = Some c → a_cos σ' !! p = Some c' →
  status_step (a_status c) (a_status c')
  ∧ a_id c' = a_id c ∧ a_fn c' = a_fn c ∧ a_arg c' = a_arg c.
Proof.
  intros Hs Hp Hp'.
  destruct Hs as [cos q cur reg fn arg r _ _ Hn _|cos q reg r d Hd Hst|
    cos q reg r d o f Hd Hst _ _|cos q reg r d Hd Hst|
    cos q reg r d ws Hd Hst _ _ _ _|cos q cur reg r d Hd Hst|σ]; cbn in *.
  - apply lookup_insert_Some in Hp' as [[-> _]|[_ Hp']]; simplify_eq.
    split_and!; try done. constructor.
  - apply lookup_insert_Some in Hp' as [[-> <-]|[_ Hp']]; simplify_eq.
    + cbn. rewrite Hst. split_and!; try done. constructor.
    + split_and!; try done. constructor.
  - apply lookup_insert_Some in Hp' as [[-> <-]|[_ Hp']]; simplify_eq.
    + cbn. rewrite Hst. split_and!; try done. constructor.
    + split_and!; try done. constructor.
  - apply lookup_insert_Some in Hp' as [[-> <-]|[_ Hp']]; simplify_eq.
    + cbn. rewrite Hst. split_and!; try done. constructor.
    + split_and!; try done. constructor.
  - apply lookup_insert_Some in Hp' as [[-> <-]|[_ Hp']]; simplify_eq.
    + cbn. rewrite Hst. split_and!; try done. constructor.
    + rewrite lookup_fmap, Hp in Hp'. cbn in Hp'. simplify_eq. unfold awake.
      case_decide as Hw; cbn; [rewrite Hw|]; split_and!; try done; constructor.
  - apply lookup_delete_Some in Hp' as [_ Hp']. simplify_eq.
    split_and!; try done. constructor.
  - simplify_eq. split_and!; try done. constructor.
Qed.

(** A coroutine that is suspended stays so, until it is dispatched. *)
Definition suspended (s : status) : Prop := s = AReady ∨ ∃ q, s = AWaiting q.

Lemma spec_suspended σ e σ' p c :
  spec_step σ e σ' → a_cos σ !! p = Some c → suspended (a_status c) →
  e ≠ EDispatch p → ∃ c', a_cos σ' !! p = Some c' ∧ suspended (a_status c').
Proof.
  intros Hs Hp Hc He.
  assert (∀ d, a_cos σ !! p = Some d → a_status d ≠ ARunning ∧ a_status d ≠ ADone) as Hno.
  { intros d Hd. simplify_eq. by destruct Hc as [->|[? ->]]. }
  destruct Hs as [cos q cur reg fn arg r _ _ Hn _|cos q reg r d Hd Hst|
    cos q reg r d o f Hd Hst _ _|cos q reg r d Hd Hst|
    cos q reg r d ws Hd Hst _ _ _ _|cos q cur reg r d Hd Hst|σ]; cbn in *;
    try (assert (r ≠ p) by (intros ->; first [congruence|destruct (Hno _ Hd); congruence]));
    rewrite ?lookup_insert_ne, ?lookup_delete_ne by done; try (by exists c).
  - exists (awake r c). rewrite lookup_fmap, Hp. split; [done|].
    unfold awake. case_decide; [by left|done].
Qed.
End spec_facts.
