(* ===== verification/Refine.v ===== *)
(** * The library implements the abstract scheduler

    Every transition of the code from a well-formed state is a transition of
    the abstract scheduler to a well-formed state, or stops for a reason that
    is the caller's: [blame] lists them all. *)

From stdpp Require Import gmap.
From S2P Require Import Prelude Ring Machine State RunQueue Api Ops Invariant.
From S2P Require Import Preserve Create Spec.

Section refine.
Context {L U : Type} `{Allocator, LinkMap, UserCode L U}.
Implicit Types (w : world L U) (cur : option ptr) (l : list ptr).

(** A call that the library refuses, and how it refuses it. *)
Inductive misuse cur w : ucall L → error → Prop :=
| mu_fn_null arg n k : misuse cur w (UCreate NULL arg n k) AssertFnNull
| mu_too_many fn arg n k : s_count (w_S w) = MAX_COROUTINES →
    misuse cur w (UCreate fn arg n k) AssertTooMany
| mu_small_stack fn arg n k a : 0 < wrap64 n < 16 →
    misuse cur w (UCreate fn arg n k) (BadStore a)
| mu_free_null k : misuse cur w (UFree NULL k) AssertFreeNull
| mu_free_live p k c : w_objs w !! p = Some c → c_state c ≠ CO_DONE →
    misuse cur w (UFree p k) AssertFreeNotDone
| mu_free_dead p k : w_objs w !! p = None → misuse cur w (UFree p k) (BadDeref p)
| mu_state_null k : misuse cur w (UState NULL k) AssertStateNull
| mu_state_dead p k : w_objs w !! p = None → misuse cur w (UState p k) (BadDeref p)
| mu_await_null k : misuse cur w (UAwait NULL k) AssertAwaitNull
| mu_await_dead p k : w_objs w !! p = None → misuse cur w (UAwait p k) (BadDeref p)
| mu_yield_outside k : cur = None → misuse cur w (UYield k) AssertYieldOutside
| mu_await_outside p k c : cur = None → w_objs w !! p = Some c →
    c_state c ≠ CO_DONE → misuse cur w (UAwait p k) AssertAwaitOutside.

(** All the ways a run stops: a misused call, or a coroutine that finishes
    when a coroutine of the registry has been freed. *)
Inductive blame cur w : error → Prop :=
| bl_call y k c u e : w_cpu w = FUser y :: k → ustep y (w_user w) = (c, u) →
    misuse cur w c e → blame cur w e
| bl_freed p k q : w_cpu w = FEntryRet p :: k → q ∈ registry (w_S w) →
    w_objs w !! q = None → blame cur w (BadDeref q).

(** A coroutine calls [co_run]: the one use the scheduler does not
    support and does not detect. *)
Definition nested_run w : bool :=
  match w_cpu w with
  | FUser y :: _ =>
      match (ustep y (w_user w)).1 with
      | URun _ => negb (s_running (w_S w) =? NULL)
      | _ => false
      end
  | _ => false
  end.

(** What a transition with event [e] does to the contexts of the suspended
    coroutines: they stay as they are, except that of a coroutine that is
    dispatched, which becomes the running stack, and that of a coroutine that
    suspends itself, which is the stack it returns to. *)
Record carries w (e : event) w' : Prop := {
  cr_keep q d : w_objs w !! q = Some d →
    c_state d = CO_READY ∨ c_state d = CO_WAITING → e ≠ EDispatch q →
    w_ctxs w' !! CoCtx q = w_ctxs w !! CoCtx q;
  cr_dispatch q : e = EDispatch q →
    s_running (w_S w') = q
    ∧ ∃ sv, w_ctxs w !! CoCtx q = Some sv ∧ resolve w sv = Ok (w_cpu w');
  cr_park q : e = EYield q ∨ (∃ o, e = EAwait q o) →
    ∃ y z k, w_cpu w = FUser y :: k
      ∧ ((ustep y (w_user w)).1 = UYield z ∨ ∃ o, (ustep y (w_user w)).1 = UAwait o z)
      ∧ w_ctxs w' !! CoCtx q = Some (SFrames (FUser z :: k))
}.

(** Events that neither suspend nor resume. *)
Lemma carries_quiet w e w' :
  match e with EDispatch _ | EYield _ | EAwait _ _ => False | _ => True end →
  (∀ q d, w_objs w !! q = Some d → c_state d = CO_READY ∨ c_state d = CO_WAITING →
     w_ctxs w' !! CoCtx q = w_ctxs w !! CoCtx q) →
  carries w e w'.
Proof.
  intros He Hk. split; [eauto|by intros q ->|]. by intros q [->|[o ->]].
Qed.

(** The running coroutine [p] suspends itself. *)
Lemma carries_park w e w' p y z k c :
  e = EYield p ∨ (∃ o, e = EAwait p o) → w_cpu w = FUser y :: k →
  ((ustep y (w_user w)).1 = UYield z ∨ ∃ o, (ustep y (w_user w)).1 = UAwait o z) →
  w_objs w !! p = Some c → c_state c = CO_RUNNING →
  ctxs_but p w w' → w_ctxs w' !! CoCtx p = Some (SFrames (FUser z :: k)) →
  carries w e w'.
Proof.
  intros He Hcpu Hu Hc Hst Hb Hp. split.
  - intros q d Hq Hsd _. apply Hb. intros ->. simplify_eq. destruct Hsd; congruence.
  - intros q ->. by destruct He as [|[? ?]].
  - intros q Hq. assert (q = p) as ->.
    { destruct He as [->|[o ->]], Hq as [|[o' ?]]; congruence. }
    eauto 10.
Qed.

Definition step_good cur l w : Prop :=
  match step w with
  | Halted => w_cpu w = []
  | Stepped w' => ∃ cur' l' e, inv cur' l' w' ∧ observes w l e
      ∧ spec_step (abs cur l w) e (abs cur' l' w') ∧ carries w e w'
  | Faulted e => blame cur w e
  end.

(** ** Control *)

Lemma control_user r y z k m cur :
  @control L r (FUser y :: k) m cur → control r (FUser z :: k) m cur.
Proof.
  intros Hc. inversion Hc as [| | | |x p k' Hp Hk]; subst; [constructor|].
  apply co_stack_user in Hk as ->. constructor; [done|constructor].
Qed.

Lemma control_return r y k m cur :
  @control L r (FUser y :: k) m cur → control r k m cur.
Proof.
  intros Hc. inversion Hc as [| | | |x p k' Hp Hk]; subst; [constructor|].
  apply co_stack_user in Hk as ->. constructor; [done|constructor].
Qed.

Lemma inv_set_user w cur l u : inv cur l w → inv cur l (set_user u w).
Proof. intros Hi. by split; try apply Hi. Qed.

Lemma inv_continue w w' cur l y z k :
  inv cur l w' → w_cpu w' = FUser y :: k → inv cur l (set_cpu (FUser z :: k) w').
Proof.
  intros Hi Hcpu. apply (inv_set_cpu w' _ _ _ (w_user w') Hi).
  eapply control_user. rewrite <- Hcpu. apply Hi.
Qed.

Lemma control_cur_none r y k m cur :
  @control L r (FUser y :: k) m cur → r = NULL → cur = None.
Proof. intros Hc ->. by inversion Hc. Qed.

Lemma inv_main_running w l y k :
  inv None l w → w_cpu w = FUser y :: k → s_running (w_S w) = NULL ∧ k = [].
Proof.
  intros Hi Hcpu. pose proof (inv_control _ _ _ Hi) as Hc. rewrite Hcpu in Hc.
  by inversion Hc.
Qed.

Lemma abs_ext w w' cur l :
  w_objs w' = w_objs w → registry (w_S w') = registry (w_S w) →
  abs cur l w' = abs cur l w.
Proof. intros Ho Hr. unfold abs. by rewrite Ho, Hr. Qed.

(** A transition that changes only where control is. *)
Lemma good_tau w w' cur l :
  step w = Stepped w' → inv cur l w' → observes w l ETau →
  w_objs w' = w_objs w → registry (w_S w') = registry (w_S w) →
  (∀ q, is_Some (w_objs w !! q) → w_ctxs w' !! CoCtx q = w_ctxs w !! CoCtx q) →
  step_good cur l w.
Proof.
  intros Hs Hi Ho Hobj Hreg Hx. unfold step_good. rewrite Hs.
  exists cur, l, ETau. split_and!; [done|done| |].
  - rewrite (abs_ext w w') by done. constructor.
  - apply carries_quiet; [done|]. eauto.
Qed.

(** ** The calls *)

Section calls.
Variables (w : world L U) (cur : option ptr) (l : list ptr).
Variables (y : L) (k : stackL L) (u : U).
Hypotheses (Hi : inv cur l w) (Hcpu : w_cpu w = FUser y :: k).

(** A call that returns to its caller. *)
Lemma good_return_tau c z w1 :
  ustep y (w_user w) = (c, u) →
  user_call c k (set_user u w) = Ok (set_cpu (FUser z :: k) w1, ()) →
  inv cur l w1 → w_cpu w1 = FUser y :: k → w_objs w1 = w_objs w →
  registry (w_S w1) = registry (w_S w) →
  (∀ q, is_Some (w_objs w !! q) → w_ctxs w1 !! CoCtx q = w_ctxs w !! CoCtx q) →
  observes w l ETau →
  step_good cur l w.
Proof using Hi Hcpu.
  intros Hu Hc Hi1 Hcpu1 Ho Hr Hx Hobs.
  apply (good_tau w (set_cpu (FUser z :: k) w1)); [| |exact Hobs|exact Ho|exact Hr|exact Hx].
  - by rewrite (step_user _ _ _ _ _ Hcpu Hu), Hc.
  - by eapply inv_continue.
Qed.

(** A call that is refused. *)
Lemma good_misuse c e :
  ustep y (w_user w) = (c, u) →
  user_call c k (set_user u w) = Err e → misuse cur w c e →
  step_good cur l w.
Proof using Hcpu.
  intros Hu Hc Hm. unfold step_good.
  rewrite (step_user _ _ _ _ _ Hcpu Hu), Hc. by econstructor.
Qed.

Lemma good_return : ustep y (w_user w) = (UReturn, u) → step_good cur l w.
Proof using Hi Hcpu.
  intros Hu. eapply (good_tau _ (set_cpu k (set_user u w))); try done.
  - by rewrite (step_user _ _ _ _ _ Hcpu Hu).
  - apply inv_set_cpu; [done|]. eapply control_return. rewrite <- Hcpu. apply Hi.
  - unfold observes. by rewrite Hcpu, Hu.
Qed.

Lemma good_utau z : ustep y (w_user w) = (UTau z, u) → step_good cur l w.
Proof using Hi Hcpu.
  intros Hu. eapply (good_return_tau _ z (set_user u w) Hu); try done.
  - by apply inv_set_user.
  - unfold observes. by rewrite Hcpu, Hu.
Qed.

Lemma good_run z :
  ustep y (w_user w) = (URun z, u) → nested_run w = false → step_good cur l w.
Proof using Hi Hcpu.
  intros Hu Hn. unfold nested_run in Hn. rewrite Hcpu, Hu in Hn. cbn in Hn.
  apply negb_false_iff, Z.eqb_eq in Hn.
  pose proof (inv_control _ _ _ Hi) as Hc. rewrite Hcpu in Hc.
  pose proof (control_cur_none _ _ _ _ _ Hc Hn) as ->.
  apply (inv_main_running _ _ _ _ Hi) in Hcpu as Hk. destruct Hk as [_ ->].
  eapply (good_tau _ (set_cpu [FRun; FUser z] (set_user u w))); try done.
  - by rewrite (step_user _ _ _ _ _ Hcpu Hu).
  - apply inv_set_cpu; [done|]. rewrite Hn. constructor.
  - unfold observes. by rewrite Hcpu, Hu.
Qed.

Lemma good_id f : ustep y (w_user w) = (UId f, u) → step_good cur l w.
Proof using Hi Hcpu.
  intros Hu. destruct (co_id_ok (set_user u w) cur l y k) as (i & _ & Hid);
    [by apply inv_set_user|done|].
  eapply (good_return_tau _ (f i) (set_user u w) Hu); try done.
  - cbn [user_call]. by erewrite se_bind_ok by exact Hid.
  - by apply inv_set_user.
  - unfold observes. by rewrite Hcpu, Hu.
Qed.

(** A call that changes the coroutines and returns to its caller. *)
Lemma good_return_event c z w1 l1 e :
  ustep y (w_user w) = (c, u) →
  user_call c k (set_user u w) = Ok (set_cpu (FUser z :: k) w1, ()) →
  inv cur l1 w1 → w_cpu w1 = FUser y :: k → observes w l e →
  spec_step (abs cur l w) e (abs cur l1 w1) →
  carries w e w1 →
  match e with EDispatch _ => False | _ => True end →
  step_good cur l w.
Proof using Hcpu.
  intros Hu Hc Hi1 Hcpu1 Hobs Hs [Hkeep _ Hpark] He. unfold step_good.
  rewrite (step_user _ _ _ _ _ Hcpu Hu), Hc.
  exists cur, l1, e. split_and!; [by eapply inv_continue|done|done|].
  split; [exact Hkeep|by intros q ->|exact Hpark].
Qed.

Lemma registry_length : Z.of_nat (length (registry (w_S w))) = s_count (w_S w).
Proof using Hi.
  pose proof (inv_count _ _ _ Hi). pose proof (inv_all _ _ _ Hi).
  unfold registry. rewrite length_take. lia.
Qed.

Lemma wrap64_nonneg z : 0 ≤ wrap64 z.
Proof. apply Z.mod_pos_bound. lia. Qed.

Lemma good_create fn arg n f :
  ustep y (w_user w) = (UCreate fn arg n f, u) → step_good cur l w.
Proof using Hi Hcpu.
  intros Hu. pose proof (inv_set_user w cur l u Hi) as Hiu.
  pose proof (co_create_cases _ _ _ fn arg _ Hiu (wrap64_nonneg n)) as Hc.
  destruct (co_create fn arg (wrap64 n) (set_user u w)) as [[w' p]|e] eqn:He.
  - destruct Hc as [Hfn [(-> & Hi' & Ho & HS & _ & Hk & _ & Hx & _)|[Hi' Hrg]]].
    + eapply (good_return_tau _ (f NULL) w' Hu); try done.
      * cbn [user_call]. by erewrite se_bind_ok by exact He.
      * by rewrite Hk.
      * by rewrite HS.
      * unfold observes. by rewrite Hcpu, Hu.
    + destruct Hrg as [Hnew Hp0 [stack Ho] Hn Hreg _ _ Hk Hx _ _].
      eapply (good_return_event _ (f p) w' _ (ECreate fn arg p) Hu).
      * cbn [user_call]. by erewrite se_bind_ok by exact He.
      * exact Hi'.
      * by rewrite Hk.
      * unfold observes. by rewrite Hcpu, Hu.
      * unfold abs. rewrite Ho, Hreg, fmap_insert. cbn [w_objs set_user w_S].
        pose proof registry_length as Hlen. pose proof (inv_count _ _ _ Hi').
        assert (abs_co (new_co (set_user u w) fn arg stack (real_size (wrap64 n)))
          = ACo (Z.of_nat (length (registry (w_S w))) + 1) fn arg AReady) as ->
          by (rewrite Hlen; done).
        constructor; [done|done| |cbn in Hn; lia].
        rewrite lookup_fmap. cbn in Hnew. by rewrite Hnew.
      * apply carries_quiet; [done|]. intros q d Hq _. rewrite Hx; [done|].
        cbn in Hnew. congruence.
      * done.
  - eapply (good_misuse _ e Hu); [cbn [user_call]; by apply se_bind_err|].
    destruct e; try done; [subst; constructor|constructor; by destruct Hc|by constructor].
Qed.

Lemma good_free p z :
  ustep y (w_user w) = (UFree p z, u) → step_good cur l w.
Proof using Hi Hcpu.
  intros Hu. pose proof (inv_set_user w cur l u Hi) as Hiu.
  pose proof (co_free_cases _ _ _ p Hiu) as Hc.
  destruct (co_free p (set_user u w)) as [[w' []]|e] eqn:He.
  - destruct Hc as (c & Hp & Hst & -> & Hi').
    eapply (good_return_event _ z _ _ (EFree p) Hu).
    + cbn [user_call]. by erewrite se_bind_ok by exact He.
    + exact Hi'.
    + done.
    + unfold observes. by rewrite Hcpu, Hu.
    + unfold abs, freed. cbn. rewrite fmap_delete.
      apply (sp_free _ _ _ _ _ (abs_co c)); [by apply abs_lookup|].
      cbn. unfold abs_status. by rewrite Hst.
    + apply carries_quiet; [done|]. intros q d Hq Hsd.
      rewrite (freed_ctxs _ _ _ _ _ _ _ Hiu Hp Hq); [done|].
      intros ->. cbn in Hp. destruct Hsd; congruence.
    + done.
  - eapply (good_misuse _ e Hu); [cbn [user_call]; by apply se_bind_err|].
    destruct e; try done; [subst; constructor|destruct Hc as (c & Hp & Hst);
      by econstructor|destruct Hc as (-> & _ & Hp); by constructor].
Qed.

Lemma good_state p f : ustep y (w_user w) = (UState p f, u) → step_good cur l w.
Proof using Hi Hcpu.
  intros Hu. pose proof (co_state_cases (set_user u w) p) as Hc.
  destruct (co_state p (set_user u w)) as [[w' st]|e] eqn:He.
  - destruct Hc as [-> _]. eapply (good_return_tau _ (f st) (set_user u w) Hu); try done.
    + cbn [user_call]. by erewrite se_bind_ok by exact He.
    + by apply inv_set_user.
    + unfold observes. by rewrite Hcpu, Hu.
  - eapply (good_misuse _ e Hu); [cbn [user_call]; by apply se_bind_err|].
    destruct e; try done; [subst; constructor|].
    destruct Hc as (-> & _ & Hp). by constructor.
Qed.

End calls.

Lemma good_yield w cur l y k u z :
  inv cur l w → w_cpu w = FUser y :: k → ustep y (w_user w) = (UYield z, u) → step_good cur l w.
Proof.
  intros Hi Hcpu Hu. destruct cur as [p|].
  - destruct (step_yield _ _ _ _ _ _ _ Hi Hcpu Hu)
      as (c & w' & Hc & Hst & Hs & Hi' & Ho & _ & Hr & Hb & Hx & _).
    unfold step_good. rewrite Hs. exists None, (l ++ [p]), (EYield p).
    split_and!; [done| | |eapply (carries_park w _ w' p y z k c); rewrite ?Hu; eauto].
    + unfold observes. by rewrite Hcpu, Hu.
    + unfold abs. rewrite Ho, Hr, fmap_insert.
      change (abs_co (with_state CO_READY c)) with (set_status AReady (abs_co c)).
      constructor; [by apply abs_lookup|]. cbn. unfold abs_status. by rewrite Hst.
  - apply (inv_main_running _ _ _ _ Hi) in Hcpu as Hk. destruct Hk as [Hr _].
    eapply (good_misuse _ _ _ _ _ _ Hcpu _ AssertYieldOutside Hu); [|by constructor].
    cbn [user_call]. unfold co_yield, get_S. run_op. cbn [w_S set_user].
    by rewrite Hr.
Qed.

Lemma good_await w cur l y k u o z :
  inv cur l w → w_cpu w = FUser y :: k → ustep y (w_user w) = (UAwait o z, u) → step_good cur l w.
Proof.
  intros Hi Hcpu Hu. destruct (decide (o = NULL)) as [->|Ho0].
  { by eapply (good_misuse _ _ _ _ _ _ Hcpu _ AssertAwaitNull Hu); [|constructor]. }
  destruct (w_objs w !! o) as [d|] eqn:Ho; cycle 1.
  { eapply (good_misuse _ _ _ _ _ _ Hcpu _ (BadDeref o) Hu); [|by constructor].
    cbn [user_call]. unfold co_await. run_op.
    by erewrite se_bind_err by by apply deref_bad. }
  destruct (decide (c_state d = CO_DONE)) as [Hd|Hd].
  { eapply (good_return_tau _ _ _ _ _ _ Hi Hcpu _ z (set_user u w) Hu); try done.
    - cbn [user_call]. unfold co_await. run_op. run_op. by rewrite bool_decide_true.
    - by apply inv_set_user.
    - unfold observes. rewrite Hcpu, Hu. cbn. eauto. }
  destruct cur as [p|].
  - destruct (step_await_wait _ _ _ _ _ _ _ _ _ Hi Hcpu Hu Ho Hd)
      as (c & w' & Hc & Hst & Hs & Hi' & Hobj & _ & Hr & Hb & Hx & _).
    unfold step_good. rewrite Hs. exists None, l, (EAwait p o).
    split_and!; [done| | |eapply (carries_park w _ w' p y z k c); rewrite ?Hu; eauto].
    + unfold observes. by rewrite Hcpu, Hu.
    + unfold abs. rewrite Hobj, Hr, fmap_insert.
      change (abs_co (with_awaiting o (with_state CO_WAITING c)))
        with (set_status (AWaiting o) (abs_co c)).
      eapply sp_await; [by apply abs_lookup| |by apply abs_lookup|].
      * cbn. unfold abs_status. by rewrite Hst.
      * cbn. unfold abs_status. by destruct (c_state d).
  - apply (inv_main_running _ _ _ _ Hi) in Hcpu as Hk. destruct Hk as [Hr _].
    eapply (good_misuse _ _ _ _ _ _ Hcpu _ AssertAwaitOutside Hu); [|by econstructor].
    cbn [user_call]. unfold co_await, get_S. run_op. run_op.
    rewrite bool_decide_false by done. run_op. cbn [w_S set_user]. by rewrite Hr.
Qed.

Lemma good_user w cur l y k :
  inv cur l w → w_cpu w = FUser y :: k → nested_run w = false → step_good cur l w.
Proof.
  intros Hi Hcpu Hn. destruct (ustep y (w_user w)) as [c u] eqn:Hu.
  destruct c.
  - by eapply good_return.
  - by eapply good_utau.
  - by eapply good_yield.
  - by eapply good_await.
  - by eapply good_create.
  - by eapply good_free.
  - by eapply good_state.
  - by eapply good_id.
  - by eapply good_run.
Qed.

(** ** The scheduler's own steps *)

Lemma abs_status_update w cur cur' l l' w' p c c' :
  w_objs w' = <[p := c']> (w_objs w) → registry (w_S w') = registry (w_S w) →
  abs_co c' = set_status (abs_status c') (abs_co c) →
  abs cur' l' w' = ASched (<[p := set_status (abs_status c') (abs_co c)]>
    (abs_co <$> w_objs w)) l' cur' (registry (w_S w)).
Proof. intros Ho Hr Hc. unfold abs. by rewrite Ho, Hr, fmap_insert, Hc. Qed.

Lemma good_loop w l x :
  inv None l w → w_cpu w = [FRun; FUser x] → step_good None l w.
Proof.
  intros Hi Hcpu. destruct l as [|p l].
  - destruct (step_run_empty _ _ Hi Hcpu) as [Hs Hi'].
    eapply good_tau; [exact Hs|exact Hi'| |done|done|done].
    unfold observes. by rewrite Hcpu.
  - destruct (step_dispatch _ _ _ _ Hi Hcpu)
      as (c & w' & Hc & Hst & Hs & Hi' & Ho & _ & Hr & Hb & Hrun & Hsv & _).
    unfold step_good. rewrite Hs. exists (Some p), l, (EDispatch p).
    split_and!; [done| | |].
    + unfold observes. by rewrite Hcpu.
    + rewrite (abs_status_update w None _ l l w' p c (with_state CO_RUNNING c)) by done.
      constructor; [by apply abs_lookup|]. cbn. unfold abs_status. by rewrite Hst.
    + split.
      * intros q d _ _ Hq. apply Hb. congruence.
      * by intros q [= <-].
      * by intros q [|[? ?]].
Qed.

Lemma good_back w l x :
  inv None l w → w_cpu w = loop_stack x → step_good None l w.
Proof.
  intros Hi Hcpu. destruct (step_resume_done _ _ _ Hi Hcpu) as (w' & Hs & Hi' & Ho & _ & _ & Hr & Hx).
  eapply good_tau; [exact Hs|exact Hi'| |done|done|by rewrite Hx].
  unfold observes. by rewrite Hcpu.
Qed.

(** The waiters that a scan finds, in terms of the abstract table. *)
Lemma woken_sublist done objs ps : woken done objs ps `sublist_of` ps.
Proof.
  revert objs. induction ps as [|p ps IH]; intros objs; cbn; [constructor|].
  destruct (objs !! p) as [c|]; [destruct (waits_on done c)|]; constructor; apply IH.
Qed.

Lemma awake_abs p c : abs_co (wake_if p c) = awake p (abs_co c).
Proof.
  unfold wake_if, awake. cbn. destruct (waits_on p c) eqn:Hw.
  - apply waits_on_spec in Hw as [Hst Ha]. unfold abs_status. rewrite Hst, Ha.
    by rewrite decide_True.
  - rewrite decide_False; [done|]. intros Hs. unfold abs_status in Hs.
    destruct (c_state c) eqn:Hst; simplify_eq.
    assert (waits_on (c_awaiting c) c = true) by by apply waits_on_spec. congruence.
Qed.

Lemma abs_finish w cur l p c :
  inv cur l w → w_objs w !! p = Some c →
  abs_co <$> finish_objs p c w
  = <[p := set_status ADone (abs_co c)]> (awake p <$> (abs_co <$> w_objs w)).
Proof.
  intros Hi Hc. apply map_eq. intros q.
  rewrite lookup_fmap. erewrite finish_objs_lookup by done.
  rewrite lookup_insert, !lookup_fmap. repeat case_decide; subst; try done.
  destruct (w_objs w !! q) as [d|]; [|done]. cbn. by rewrite awake_abs.
Qed.

Lemma good_finish w l p :
  inv (Some p) l w → w_cpu w = [FEntryRet p] → step_good (Some p) l w.
Proof.
  intros Hi Hcpu. destruct (running_view _ _ _ Hi) as (c & _ & Hc & Hst & _).
  unfold step_good.
  destruct (step_finish _ _ _ _ Hi Hcpu Hc)
    as [(w' & x & -> & Hi' & Ho & _ & _ & Hr & Hb & _ & Hlive)|(q & Hq & Hqn & ->)];
    [|by econstructor 2].
  exists None, (l ++ finish_woken p c w), (EFinish p (finish_woken p c w)).
  split_and!; [done| | |].
  - unfold observes. rewrite Hcpu. eauto.
  - unfold abs. rewrite Ho, Hr. erewrite abs_finish by done.
    constructor; [by apply abs_lookup| | | | |].
    + cbn. unfold abs_status. by rewrite Hst.
    + eapply Forall_impl; [exact Hlive|]. intros q [d Hd]. cbn.
      rewrite lookup_fmap, Hd. eauto.
    + apply NoDup_woken.
    + apply woken_sublist.
    + intros q. erewrite elem_of_finish_woken by done. split.
      * intros (_ & d & Hd & [Hw <-]%waits_on_spec). exists (abs_co d).
        split; [by apply abs_lookup|]. cbn. unfold abs_status. by rewrite Hw.
      * intros (a & (d & Hd & ->)%abs_lookup_inv & Hw). cbn in Hw.
        unfold abs_status in Hw. destruct (c_state d) eqn:Hsd; simplify_eq.
        split; [congruence|]. exists d. split; [done|]. by apply waits_on_spec.
  - apply carries_quiet; [done|]. intros q d Hq Hsd. apply Hb. intros ->.
    simplify_eq. destruct Hsd; congruence.
Qed.

Lemma good_co_stack w l p :
  inv (Some p) l w → nested_run w = false → co_stack p (w_cpu w) →
  step_good (Some p) l w.
Proof.
  intros Hi Hn Hk. inversion Hk as [Hcpu|Hcpu|x Hcpu|Hcpu]; symmetry in Hcpu.
  - destruct (step_trampoline _ _ _ Hi Hcpu) as [Hs Hi'].
    eapply good_tau; [exact Hs|exact Hi'| |done|done|done].
    unfold observes. by rewrite Hcpu.
  - destruct (inv_cur _ _ _ Hi p eq_refl) as [c Hc].
    destruct (step_entry _ _ _ _ Hi Hcpu Hc) as [Hs Hi'].
    eapply good_tau; [exact Hs|exact Hi'| |done|done|done].
    unfold observes. by rewrite Hcpu.
  - by eapply good_user.
  - by apply good_finish.
Qed.

Lemma step_is_good w cur l : inv cur l w → nested_run w = false → step_good cur l w.
Proof.
  intros Hi Hn. pose proof (inv_control _ _ _ Hi) as Hc.
  inversion Hc as [m Hr Hcpu|x m Hr Hcpu|x m Hr Hcpu|x m p Hp Hr Hcpu|x p k Hp Hk Hr Hm];
    subst; try symmetry in Hcpu.
  - unfold step_good, step. by rewrite Hcpu.
  - by eapply good_user.
  - by eapply good_loop.
  - by eapply good_back.
  - by apply good_co_stack.
Qed.
End refine.
