(* ===== verification/Safety.v ===== *)
(** * What holds of every run

    The theorems about whole executions: every reachable state is well formed
    and every run is a run of the abstract scheduler; the internal checks of
    the library never fail; coroutines change state as [coroutine.h] says,
    are scheduled first come first served, resume from [co_await] only after
    the awaited coroutine finished, and [co_run] returns only when none can
    run. *)

From stdpp Require Import gmap relations finite.
From S2P Require Import Prelude Ring Machine State RunQueue Api Ops Invariant.
From S2P Require Import Preserve Create Spec Refine Demo.

(** ** First come, first served *)

(** What an event takes from the queue, and what it adds to it. *)
Definition dispatched (e : event) : list ptr :=
  match e with EDispatch p => [p] | _ => [] end.
Definition enqueued (e : event) : list ptr :=
  match e with
  | ECreate _ _ p | EYield p => [p]
  | EFinish _ ws => ws
  | _ => []
  end.

Lemma spec_step_fifo σ e σ' :
  spec_step σ e σ' → dispatched e ++ a_queue σ' = a_queue σ ++ enqueued e.
Proof. intros []; cbn; by rewrite ?app_nil_r. Qed.

Lemma spec_steps_fifo σ es σ' :
  spec_steps σ es σ' →
  (es ≫= dispatched) ++ a_queue σ' = a_queue σ ++ (es ≫= enqueued).
Proof.
  induction 1 as [σ|σ e σ' es σ'' Hs _ IH]; cbn; [by rewrite app_nil_r|].
  rewrite <- app_assoc, IH, !app_assoc. by erewrite spec_step_fifo.
Qed.

(** ** Waiting *)

Lemma spec_step_waiting σ e σ' p o c :
  spec_step σ e σ' → a_cos σ !! p = Some c → a_status c = AWaiting o →
  a_cos σ' !! p = Some c
  ∨ ∃ ws, e = EFinish o ws ∧ p ∈ ws ∧ a_cos σ' !! p = Some (set_status AReady c).
Proof.
  intros Hs Hp Hw.
  destruct Hs as [cos q cur reg fn arg r _ _ Hn _|cos q reg r d Hd Hst|
    cos q reg r d t f Hd Hst _ _|cos q reg r d Hd Hst|
    cos q reg r d ws Hd Hst _ _ _ Hws|cos q cur reg r d Hd Hst|σ]; cbn in *.
  - left. rewrite lookup_insert_ne; congruence.
  - left. rewrite lookup_insert_ne; congruence.
  - left. rewrite lookup_insert_ne; congruence.
  - left. rewrite lookup_insert_ne; congruence.
  - assert (r ≠ p) by congruence. rewrite lookup_insert_ne, lookup_fmap, Hp by done.
    cbn. unfold awake. destruct (decide (a_status c = AWaiting r)) as [Hr|Hr]; [right|by left].
    assert (o = r) as -> by congruence.
    exists ws. split_and!; [done| |done]. apply Hws. eauto.
  - left. rewrite lookup_delete_ne; congruence.
  - by left.
Qed.

Lemma spec_steps_waiting σ es σ' p o c :
  spec_steps σ es σ' → a_cos σ !! p = Some c → a_status c = AWaiting o →
  a_cos σ' !! p = Some c ∨ ∃ ws, EFinish o ws ∈ es ∧ p ∈ ws.
Proof.
  intros Hs Hp Hw. induction Hs as [σ|σ e σ' es σ'' Hs _ IH]; [by left|].
  destruct (spec_step_waiting _ _ _ _ _ _ Hs Hp Hw) as [Hp'|(ws & -> & Hin & _)].
  - destruct (IH Hp') as [|(ws & He & Hin)]; [by left|right].
    exists ws. split; [by right|done].
  - right. exists ws. split; [by left|done].
Qed.

(** ** Cycles in a finite graph *)

Section cycle.
Context {K : Type} `{Countable K}.
Variables (X : gset K) (f : K → K).
Hypothesis f_in : ∀ k, k ∈ X → f k ∈ X.

Lemma iter_in n k : k ∈ X → Nat.iter n f k ∈ X.
Proof using f_in. intros Hk. induction n; cbn; auto. Qed.

Lemma iter_rtc R n k :
  (∀ k, k ∈ X → R k (f k)) → k ∈ X → rtc R k (Nat.iter n f k).
Proof using f_in.
  intros HR Hk. induction n as [|n IH]; cbn; [done|].
  eapply rtc_r; [exact IH|]. by apply HR, iter_in.
Qed.

(** Following a total function inside a finite set ends in a cycle. *)
Lemma finite_cycle R k :
  (∀ k, k ∈ X → R k (f k)) → k ∈ X → ∃ c, rtc R k c ∧ tc R c c.
Proof using f_in.
  intros HR Hk.
  set (xs := (λ n, Nat.iter n f k) <$> seq 0 (S (size X))).
  destruct (list_pigeonhole xs (elements X)) as (i & j & x & Hij & Hi & Hj).
  { intros x (n & -> & _)%list_elem_of_fmap. by apply elem_of_elements, iter_in. }
  { subst xs. rewrite length_fmap, length_seq. unfold size, set_size. cbn. lia. }
  subst xs. rewrite list_lookup_fmap in Hi, Hj.
  destruct (seq 0 _ !! i) as [i'|] eqn:Hsi; [|done].
  destruct (seq 0 _ !! j) as [j'|] eqn:Hsj; [|done].
  apply lookup_seq in Hsi as [-> _], Hsj as [-> _]. injection Hi as Hi. injection Hj as Hj.
  assert (Nat.iter j f k = Nat.iter i f k) as Hji by (etrans; [exact Hj|by symmetry]).
  exists (Nat.iter i f k). split; [by apply iter_rtc|].
  assert (Nat.iter j f k = Nat.iter (j - i) f (Nat.iter i f k)) as Heq.
  { rewrite <- Nat.iter_add. f_equal. lia. }
  rewrite Hji in Heq. destruct (j - i)%nat as [|n] eqn:Hn; [lia|].
  rewrite Heq at 2. cbn. eapply tc_rtc_l; [apply (iter_rtc R n); [exact HR|]|].
  + by apply iter_in.
  + apply tc_once, HR, iter_in, iter_in, Hk.
Qed.
End cycle.

(** ** Runs *)

(** The errors by which the library would break its own promises: every
    internal assertion, array index, integer computation and context. *)
Definition internal_error (e : error) : bool :=
  match e with
  | AssertQueueOverflow | AssertRunNotReady | Aborted | BadFree _ | BadIndex
  | IntOverflow | BadCall | StaleContext | BadContext => true
  | _ => false
  end.

(** The transitions of a coroutine's state that [coroutine.h] documents. *)
Inductive co_transition : CoState → CoState → Prop :=
| ct_same s : co_transition s s
| ct_resume : co_transition CO_READY CO_RUNNING
| ct_yield : co_transition CO_RUNNING CO_READY
| ct_wait : co_transition CO_RUNNING CO_WAITING
| ct_done : co_transition CO_RUNNING CO_DONE
| ct_wakeup : co_transition CO_WAITING CO_READY.

Section runs.
Context {L U : Type} `{Allocator, LinkMap, UserCode L U}.
Implicit Types (w : world L U) (cur : option ptr) (l : list ptr).

(** [n] transitions, none of which is a coroutine calling [co_run]. *)
Inductive clean_steps : nat → world L U → world L U → Prop :=
| cl_refl w : clean_steps 0 w w
| cl_step n w w' w'' : nested_run w = false → step w = Stepped w' →
    clean_steps n w' w'' → clean_steps (S n) w w''.

(** The events a run performs: each is the one announced by the code that runs
    ([observes]), [l] being the contents of the run-queue. *)
Inductive trace : world L U → list event → world L U → Prop :=
| tr_nil w : trace w [] w
| tr_cons w cur l e w' es w'' : inv cur l w → observes w l e → step w = Stepped w' →
    carries w e w' → trace w' es w'' → trace w (e :: es) w''.

(** The same run, computed. *)
Fixpoint advance (n : nat) w : option (world L U) :=
  match n with
  | O => Some w
  | S n =>
      if nested_run w then None
      else match step w with Stepped w' => advance n w' | _ => None end
  end.

Lemma clean_head n w w' :
  clean_steps (S n) w w' →
  ∃ w1, nested_run w = false ∧ step w = Stepped w1 ∧ clean_steps n w1 w'.
Proof. intros Hs. inversion Hs; subst. eauto. Qed.

Lemma advance_steps n w w' : advance n w = Some w' → clean_steps n w w'.
Proof.
  revert w. induction n as [|n IH]; intros w; cbn.
  - intros [= ->]. constructor.
  - destruct (nested_run w) eqn:Hn; [done|].
    destruct (step w) eqn:Hs; try done. intros. econstructor; eauto.
Qed.

Lemma inv_init (σ : alloc_state) (u : U) (x : L) : inv None [] (init_world σ u x).
Proof.
  split; cbn.
  - split; by intros.
  - apply zero_sched_rep.
  - constructor.
  - by intros p ?%elem_of_nil.
  - done.
  - done.
  - done.
  - by intros p c ?.
  - constructor.
Qed.

Lemma clean_refines n w w' cur l :
  clean_steps n w w' → inv cur l w →
  ∃ cur' l' es, inv cur' l' w' ∧ trace w es w'
    ∧ spec_steps (abs cur l w) es (abs cur' l' w').
Proof.
  intros Hs. revert cur l. induction Hs as [w|n w w' w'' Hn Hs _ IH]; intros cur l Hi.
  { exists cur, l, []. split_and!; [done|constructor..]. }
  pose proof (step_is_good _ _ _ Hi Hn) as Hg. unfold step_good in Hg. rewrite Hs in Hg.
  destruct Hg as (cur1 & l1 & e & Hi1 & Ho & He & Hca).
  destruct (IH _ _ Hi1) as (cur' & l' & es & Hi' & Htr & Hes).
  exists cur', l', (e :: es). split_and!; [done|by econstructor..].
Qed.

Lemma blame_not_internal w cur e : blame cur w e → internal_error e = false.
Proof. by intros [y k c u e' _ _ []|]. Qed.

(** C2: every run of a program that uses the library, for any allocator and
    any user code, in which no coroutine calls [co_run], is a run of the
    abstract scheduler with the events the code announces ([trace]), and ends
    in a well-formed state. *)
Theorem run_refines n w (σ : alloc_state) (u : U) (x : L) :
  clean_steps n (init_world σ u x) w →
  ∃ cur l es, inv cur l w ∧ trace (init_world σ u x) es w
    ∧ spec_steps (ASched ∅ [] None []) es (abs cur l w).
Proof.
  intros Hs. destruct (clean_refines _ _ _ _ _ Hs (inv_init σ u x))
    as (cur & l & es & Hi & Htr & Hes).
  exists cur, l, es. split; [done|]. split; [done|]. exact Hes.
Qed.

(** C1: one transition of the code from a well-formed state, other than the call
    of [co_run] by a coroutine ([nested_run]).  Either main has
    returned, or the state reached is well formed and the abstract scheduler
    performs the event that the code at the top of the stack announces
    ([observes]) and the saved contexts are those the event calls for
    ([carries]), or the program stops and the caller is to blame ([blame]). *)
Theorem step_refines w cur l :
  inv cur l w → nested_run w = false →
  match step w with
  | Halted => w_cpu w = []
  | Stepped w' => ∃ cur' l' e, inv cur' l' w' ∧ observes w l e
      ∧ spec_step (abs cur l w) e (abs cur' l' w') ∧ carries w e w'
  | Faulted e => blame cur w e
  end.
Proof. apply step_is_good. Qed.

(** C4: the library never violates its own assertions: after any run in which no
    coroutine calls [co_run], a fault of a transition that is not such a call is
    one of the documented misuses of a call, or the scan of a registry
    that holds a freed coroutine; in particular the run-queue never overflows,
    [co_run] only dispatches READY coroutines, no array index or [int]
    leaves its range, a context is never resumed twice, no null function is
    called and [abort()] is not reached. *)
Theorem no_internal_error n w (σ : alloc_state) (u : U) (x : L) e :
  clean_steps n (init_world σ u x) w → nested_run w = false →
  step w = Faulted e →
  internal_error e = false ∧ ∃ cur l, inv cur l w ∧ blame cur w e.
Proof.
  intros Hs Hn He. destruct (clean_refines _ _ _ _ _ Hs (inv_init σ u x))
    as (cur & l & _ & Hi & _).
  pose proof (step_is_good _ _ _ Hi Hn) as Hg. unfold step_good in Hg. rewrite He in Hg.
  split; [by eapply blame_not_internal|eauto].
Qed.

(** C11: the state machine of a coroutine, in a run in which no coroutine calls
    [co_run].  While it is live, its identifier,
    function and argument never change, its state changes only as documented,
    and DONE is final. *)
Theorem coroutine_lifecycle n w (σ : alloc_state) (u : U) (x : L) w' p c c' :
  clean_steps n (init_world σ u x) w → nested_run w = false →
  step w = Stepped w' → w_objs w !! p = Some c → w_objs w' !! p = Some c' →
  co_transition (c_state c) (c_state c')
  ∧ c_id c' = c_id c ∧ c_fn c' = c_fn c ∧ c_arg c' = c_arg c.
Proof.
  intros Hs Hn Hst Hp Hp'. destruct (clean_refines _ _ _ _ _ Hs (inv_init σ u x))
    as (cur & l & _ & Hi & _).
  pose proof (step_is_good _ _ _ Hi Hn) as Hg. unfold step_good in Hg. rewrite Hst in Hg.
  destruct Hg as (cur' & l' & e & _ & _ & He & _).
  destruct (spec_status_step _ _ _ p (abs_co c) (abs_co c') He) as (Ht & Hf);
    [by apply abs_lookup..|].
  split; [|done]. cbn in Ht. unfold abs_status in Ht.
  destruct (c_state c), (c_state c'); inversion Ht; constructor.
Qed.

(** Identifiers are the positions of creation, counted from 1, never
    exceed the number of coroutines created, and no two live coroutines share
    one; hence [co_id] tells coroutines apart and is 0 only for main. *)
Theorem ids_unique n w (σ : alloc_state) (u : U) (x : L) p q c d :
  clean_steps n (init_world σ u x) w →
  w_objs w !! p = Some c → w_objs w !! q = Some d →
  1 ≤ c_id c ≤ s_count (w_S w) ∧ zlookup (s_all (w_S w)) (c_id c - 1) = Some p
  ∧ (c_id c = c_id d → p = q).
Proof.
  intros Hs Hp Hq. destruct (clean_refines _ _ _ _ _ Hs (inv_init σ u x))
    as (cur & l & _ & Hi & _).
  destruct (inv_co _ _ _ Hi _ _ Hp) as [Hid Hreg _ _ _ _ _ _].
  split_and!; [lia..|done|]. by eapply inv_id_inj.
Qed.

(** C7: between any two moments of a run in which no coroutine calls [co_run],
    the run-queue is first in, first out: the coroutines dispatched, followed by those still queued, are those
    that were queued, followed by those made READY since, in that order. *)
Theorem fifo_schedule n w w' cur l :
  inv cur l w → clean_steps n w w' →
  ∃ cur' l' es, inv cur' l' w' ∧ trace w es w'
    ∧ spec_steps (abs cur l w) es (abs cur' l' w')
    ∧ (es ≫= dispatched) ++ l' = l ++ (es ≫= enqueued).
Proof.
  intros Hi Hs. destruct (clean_refines _ _ _ _ _ Hs Hi) as (cur' & l' & es & Hi' & Htr & Hes).
  exists cur', l', es. split_and!; [done|done|done|]. apply (spec_steps_fifo _ _ _ Hes).
Qed.

(** C8: bounded waiting, in a run in which no coroutine calls [co_run].  A READY
    coroutine with [i] coroutines in front of it
    in the queue is the [i]-th coroutine to be dispatched next. *)
Theorem bounded_waiting n w w' cur l i p :
  inv cur l w → clean_steps n w w' → l !! i = Some p →
  ∃ cur' l' es, inv cur' l' w' ∧ trace w es w'
    ∧ spec_steps (abs cur l w) es (abs cur' l' w')
    ∧ ((i < length (es ≫= dispatched))%nat → (es ≫= dispatched) !! i = Some p).
Proof.
  intros Hi Hs Hl. destruct (clean_refines _ _ _ _ _ Hs Hi) as (cur' & l' & es & Hi' & Htr & Hes).
  exists cur', l', es. split_and!; [done|done|done|]. intros Hlt.
  pose proof (spec_steps_fifo _ _ _ Hes) as Hf. cbn in Hf.
  assert (((es ≫= dispatched) ++ l') !! i = Some p) as Hd.
  { rewrite Hf. by apply lookup_app_l_Some. }
  by rewrite lookup_app_l in Hd.
Qed.

(** C6: [co_await] blocks until the awaited coroutine finishes, in a run in which
    no coroutine calls [co_run].  If [p] is
    WAITING for [o] and, later in the run, is live and no longer WAITING for
    it, then [o] finished in between and that is what woke [p]; until then
    [p] stays live. *)
Theorem await_blocks n w w' cur l p o c :
  inv cur l w → clean_steps n w w' →
  w_objs w !! p = Some c → c_state c = CO_WAITING → c_awaiting c = o →
  ∃ cur' l' es, inv cur' l' w' ∧ trace w es w'
    ∧ spec_steps (abs cur l w) es (abs cur' l' w')
    ∧ ((∃ c', w_objs w' !! p = Some c' ∧ c_state c' = CO_WAITING ∧ c_awaiting c' = o)
       ∨ ∃ ws, EFinish o ws ∈ es ∧ p ∈ ws).
Proof.
  intros Hi Hs Hp Hst Ho. destruct (clean_refines _ _ _ _ _ Hs Hi)
    as (cur' & l' & es & Hi' & Htr & Hes).
  exists cur', l', es. split_and!; [done|done|done|].
  assert (a_status (abs_co c) = AWaiting o) as Hw.
  { cbn. unfold abs_status. by rewrite Hst, Ho. }
  destruct (spec_steps_waiting _ _ _ p o (abs_co c) Hes (abs_lookup _ _ _ Hp) Hw)
    as [Hp'|Hws]; [left|by right].
  apply abs_lookup_inv in Hp' as (c' & Hc' & Heq). exists c'. rewrite Heq in Hw.
  cbn in Hw. unfold abs_status in Hw. destruct (c_state c') eqn:Hst'; simplify_eq. eauto.
Qed.

(** ** Suspension and resumption *)

(** [p] is suspended, and [k] is the stack it will continue on. *)
Definition suspended_at (p : ptr) (k : stackL L) w : Prop :=
  ∃ c, w_objs w !! p = Some c ∧ (c_state c = CO_READY ∨ c_state c = CO_WAITING)
    ∧ w_ctxs w !! CoCtx p = Some (SFrames k).

(** In the transition from [w] to [w'] it continues there. *)
Definition continues_at (p : ptr) (k : stackL L) w w' : Prop :=
  step w = Stepped w' ∧ s_running (w_S w') = p ∧ w_cpu w' = k.

Lemma suspended_abs c :
  c_state c = CO_READY ∨ c_state c = CO_WAITING ↔ suspended (a_status (abs_co c)).
Proof.
  cbn. unfold suspended, abs_status. destruct (c_state c); split;
    try (by intros [|]); try (by intros [|[? ?]]); eauto.
Qed.

Lemma suspended_step w w' cur l p k :
  inv cur l w → nested_run w = false → step w = Stepped w' → suspended_at p k w →
  suspended_at p k w' ∨ continues_at p k w w'.
Proof.
  intros Hi Hn Hs (c & Hp & Hst & Hx).
  pose proof (step_is_good _ _ _ Hi Hn) as Hg. unfold step_good in Hg. rewrite Hs in Hg.
  destruct Hg as (cur' & l' & e & _ & _ & He & [Hkeep Hdisp _]).
  destruct (decide (e = EDispatch p)) as [Heq|Hne].
  - right. destruct (Hdisp p Heq) as (Hrun & sv & Hsv & Hres).
    rewrite Hx in Hsv. injection Hsv as <-. injection Hres as Hk. by split_and!.
  - left. apply suspended_abs in Hst as Hst'.
    destruct (spec_suspended _ _ _ p (abs_co c) He) as (a & Ha & Hsa);
      [by apply abs_lookup|done|done|].
    apply abs_lookup_inv in Ha as (c' & Hc' & ->). exists c'.
    rewrite (Hkeep _ _ Hp Hst Hne). split_and!; [done|by apply suspended_abs|done].
Qed.

Lemma suspended_run n w w' cur l p k :
  clean_steps n w w' → inv cur l w → suspended_at p k w →
  suspended_at p k w'
  ∨ ∃ i j w1 w2, clean_steps i w w1 ∧ suspended_at p k w1 ∧ continues_at p k w1 w2
      ∧ clean_steps j w2 w'.
Proof.
  intros Hs. revert cur l. induction Hs as [w|n w w1 w' Hn Hstep Hs IH]; intros cur l Hi Hp.
  { by left. }
  destruct (suspended_step _ _ _ _ _ _ Hi Hn Hstep Hp) as [Hp1|Hc].
  - pose proof (step_is_good _ _ _ Hi Hn) as Hg. unfold step_good in Hg. rewrite Hstep in Hg.
    destruct Hg as (cur1 & l1 & e & Hi1 & _).
    destruct (IH _ _ Hi1 Hp1) as [|(i & j & w2 & w3 & Ha & Hb & Hc & Hd)]; [by left|right].
    exists (S i), j, w2, w3. split_and!; [by econstructor|done..].
  - right. exists 0%nat, n, w, w1. split_and!; [constructor|done..].
Qed.

(** Where the running code suspends itself, if it does: in [co_yield], or in
    [co_await] on a coroutine that is not DONE. *)
Definition suspends_to w : option L :=
  match w_cpu w with
  | FUser y :: _ =>
      match (ustep y (w_user w)).1 with
      | UYield z => Some z
      | UAwait o z =>
          match w_objs w !! o with
          | Some d => if bool_decide (c_state d = CO_DONE) then None else Some z
          | None => None
          end
      | _ => None
      end
  | _ => None
  end.

Lemma suspends_step w w' p l y k z :
  inv (Some p) l w → w_cpu w = FUser y :: k → suspends_to w = Some z →
  step w = Stepped w' → suspended_at p (FUser z :: k) w'.
Proof.
  intros Hi Hcpu Hz Hs. unfold suspends_to in Hz. rewrite Hcpu in Hz.
  destruct (ustep y (w_user w)) as [[] u] eqn:Hu; cbn in Hz; try done.
  - injection Hz as ->.
    destruct (step_yield _ _ _ _ _ _ _ Hi Hcpu Hu)
      as (c & w1 & Hc & _ & Hs1 & _ & Ho & _ & _ & _ & Hx & _).
    rewrite Hs1 in Hs. injection Hs as <-. eexists. rewrite Ho, lookup_insert_eq.
    split; [done|]. split; [by left|done].
  - destruct (w_objs w !! other) as [d|] eqn:Hd; [|done].
    case_bool_decide as Hdone; [done|]. injection Hz as ->.
    destruct (step_await_wait _ _ _ _ _ _ _ _ _ Hi Hcpu Hu Hd Hdone)
      as (c & w1 & Hc & _ & Hs1 & _ & Ho & _ & _ & _ & Hx & _).
    rewrite Hs1 in Hs. injection Hs as <-. eexists. rewrite Ho, lookup_insert_eq.
    split; [done|]. split; [by right|done].
Qed.

(** C3: [co_yield] and [co_await] return to their caller, in a run in which no
    coroutine calls [co_run].  When the running coroutine [p] suspends itself with stack [k] below the call, then at any
    later moment it is still suspended, its context holding the return point
    and [k], or there was a transition that resumed it, to exactly that
    return point on exactly that stack; in between nothing ran on it. *)
Theorem suspension_returns n w w1 w' p l y k z :
  inv (Some p) l w → w_cpu w = FUser y :: k → suspends_to w = Some z →
  nested_run w = false → step w = Stepped w1 → clean_steps n w1 w' →
  suspended_at p (FUser z :: k) w'
  ∨ ∃ i j w2 w3, clean_steps i w1 w2 ∧ suspended_at p (FUser z :: k) w2
      ∧ continues_at p (FUser z :: k) w2 w3 ∧ clean_steps j w3 w'.
Proof.
  intros Hi Hcpu Hz Hn Hs Hr.
  pose proof (step_is_good _ _ _ Hi Hn) as Hg. unfold step_good in Hg. rewrite Hs in Hg.
  destruct Hg as (cur1 & l1 & e & Hi1 & _).
  eapply suspended_run; [done|exact Hi1|]. by eapply suspends_step.
Qed.

(** ** Where [co_run] returns *)

(** [p] waits for [q]. *)
Definition awaits w (p q : ptr) : Prop :=
  ∃ c, w_objs w !! p = Some c ∧ c_state c = CO_WAITING ∧ c_awaiting c = q.

(** The state in which [co_run] returns to main: an empty queue. *)
Definition run_returns w (x : L) : Prop := w_cpu w = [FRun; FUser x] ∧ s_q_size (w_S w) = 0.

Lemma run_returns_inv w cur l x :
  inv cur l w → run_returns w x → cur = None ∧ l = [].
Proof.
  intros Hi [Hcpu Hq]. pose proof (inv_control _ _ _ Hi) as Hc. rewrite Hcpu in Hc.
  split.
  - inversion Hc as [| | | |? ? ? ? Hk]; [done|inversion Hk].
  - by apply (rr_empty _ _ (inv_ring _ _ _ Hi)).
Qed.

(** Nobody is READY or RUNNING then. *)
Lemma quiescent w p c :
  inv None [] w → w_objs w !! p = Some c →
  c_state c = CO_DONE
  ∨ c_state c = CO_WAITING ∧ ∃ d, w_objs w !! c_awaiting c = Some d
      ∧ c_state d = CO_WAITING.
Proof.
  intros Hi.
  assert (∀ p c, w_objs w !! p = Some c → c_state c = CO_DONE ∨ c_state c = CO_WAITING)
    as Hdw.
  { intros q d Hq. destruct (inv_co _ _ _ Hi _ _ Hq) as [_ _ Hql Hrun _ _ _ _].
    destruct (c_state d) eqn:Hd; [| |by right|by left]; exfalso.
    - by apply (not_elem_of_nil q), Hql.
    - by pose proof (proj2 Hrun eq_refl). }
  intros Hp. destruct (Hdw _ _ Hp) as [|Hw]; [by left|right]. split; [done|].
  destruct (k_wait _ _ _ _ _ _ _ _ (inv_co _ _ _ Hi _ _ Hp) Hw) as (d & Hd & Hnd).
  exists d. split; [done|]. by destruct (Hdw _ _ Hd).
Qed.

Lemma quiescent_cycle w p :
  inv None [] w → (∃ q, awaits w p q) → ∃ q, rtc (awaits w) p q ∧ tc (awaits w) q q.
Proof.
  intros Hi (q & c & Hp & Hst & _).
  set (X := dom (filter (λ '(_, c), c_state c = CO_WAITING) (w_objs w))).
  assert (∀ k, k ∈ X ↔ ∃ d, w_objs w !! k = Some d ∧ c_state d = CO_WAITING) as HX.
  { intros k. subst X. rewrite elem_of_dom. split.
    - intros [d [Hk Hd]%map_lookup_filter_Some]. eauto.
    - intros (d & Hk & Hd). exists d. by apply map_lookup_filter_Some. }
  set (f := λ k, default k (c_awaiting <$> w_objs w !! k)).
  assert (∀ k d, w_objs w !! k = Some d → f k = c_awaiting d) as Hf.
  { intros k d Hk. unfold f. by rewrite Hk. }
  apply (finite_cycle X f).
  - intros k (d & Hk & Hd)%HX. rewrite (Hf _ _ Hk). apply HX.
    destruct (quiescent _ _ _ Hi Hk) as [|[_ (e & He & Hw)]]; [congruence|eauto].
  - intros k (d & Hk & Hd)%HX. exists d. by rewrite (Hf _ _ Hk).
  - apply HX. eauto.
Qed.

(** C9: in a run in which no coroutine calls [co_run], when the [co_run] of main
    returns, every live coroutine is DONE, or it waits, and
    the chain of coroutines it waits for runs into a cycle: a deadlock the
    coroutines built themselves. *)
Theorem co_run_returns n w (σ : alloc_state) (u : U) (x y : L) p c :
  clean_steps n (init_world σ u x) w → run_returns w y →
  w_objs w !! p = Some c →
  c_state c = CO_DONE
  ∨ c_state c = CO_WAITING ∧ ∃ q, rtc (awaits w) p q ∧ tc (awaits w) q q.
Proof.
  intros Hs Hr Hp. destruct (clean_refines _ _ _ _ _ Hs (inv_init σ u x))
    as (cur & l & _ & Hi & _).
  destruct (run_returns_inv _ _ _ _ Hi Hr) as [-> ->].
  destruct (quiescent _ _ _ Hi Hp) as [|[Hw _]]; [by left|right]. split; [done|].
  apply quiescent_cycle; [done|]. by exists (c_awaiting c), c.
Qed.

(** C10: a program whose coroutines await each other along some ranking (for
    instance only coroutines created earlier), and do not call [co_run], has no
    deadlock: when the [co_run] of main returns, every live coroutine is DONE, as [coroutine.h] says. *)
Theorem co_run_completes n w (σ : alloc_state) (u : U) (x y : L) (rank : ptr → nat) :
  clean_steps n (init_world σ u x) w → run_returns w y →
  (∀ p q, awaits w p q → (rank q < rank p)%nat) →
  map_Forall (λ _ c, c_state c = CO_DONE) (w_objs w).
Proof.
  intros Hs Hr Hrank p c Hp. destruct (clean_refines _ _ _ _ _ Hs (inv_init σ u x))
    as (cur & l & _ & Hi & _).
  destruct (run_returns_inv _ _ _ _ Hi Hr) as [-> ->].
  destruct (quiescent _ _ _ Hi Hp) as [|[Hw _]]; [done|exfalso].
  destruct (quiescent_cycle _ p Hi) as (q & _ & Hc); [by exists (c_awaiting c), c|].
  assert (∀ a b, tc (awaits w) a b → (rank b < rank a)%nat) as Htc.
  { induction 1 as [a b Hab|a b d Hab _ IH]; apply Hrank in Hab; lia. }
  apply Htc in Hc. lia.
Qed.
End runs.

(** ** Concrete runs *)

Section script_runs.
#[local] Existing Instance MachineDemo.link.
Variables (bodies : list (list cmd)) (prog : list cmd).
#[local] Instance bodies_code : UserCode (list cmd) script_mem := script_code bodies.

(** The state of the script program after [n] transitions. *)
Definition at_step (n : nat) : world (list cmd) script_mem :=
  default (start prog) (advance n (start prog)).
Definition ran_from (n m : nat) : bool :=
  match advance n (start prog), advance m (at_step n) with
  | Some _, Some _ => true
  | _, _ => false
  end.

Lemma advance_add n m (w : world (list cmd) script_mem) :
  advance (n + m) w = advance n w ≫= advance m.
Proof.
  revert w. induction n as [|n IH]; intros w; cbn; [done|].
  destruct (nested_run w); [done|]. by destruct (step w).
Qed.

Lemma reach_from n m : ran_from n m = true → clean_steps m (at_step n) (at_step (n + m)).
Proof.
  unfold ran_from. destruct (advance n (start prog)) as [w|] eqn:Hn; [|done].
  destruct (advance m (at_step n)) as [w'|] eqn:Hm; [|done]. intros _.
  apply advance_steps. rewrite Hm. unfold at_step in *. rewrite advance_add.
  rewrite Hn in Hm |- *. cbn in *. by rewrite Hm.
Qed.

(** The invariant there, for the computed contents of the queue. *)
Lemma inv_at n cur l :
  ran_from 0 n = true →
  cur = (if s_running (w_S (at_step n)) =? NULL then None
         else Some (s_running (w_S (at_step n)))) →
  l = ring_contents (w_S (at_step n)) →
  (match w_cpu (at_step n) with FResume :: _ => false | _ => true end) = true →
  inv cur l (at_step n).
Proof.
  intros Ha -> -> Hb.
  destruct (clean_refines _ _ _ _ _ (reach_from 0 n Ha) (inv_init _ _ _))
    as (cur & l & _ & Hi & _). cbn [Nat.add] in Hi.
  rewrite <- (ring_rep_contents _ _ (inv_ring _ _ _ Hi)).
  assert (cur = if s_running (w_S (at_step n)) =? NULL then None
                else Some (s_running (w_S (at_step n)))) as <-; [|done].
  pose proof (inv_control _ _ _ Hi) as Hc.
  inversion Hc as [| | |x m p Hp Hr Hk|x p k Hp Hk Hr]; subst; try done.
  - by rewrite <- Hk in Hb.
  - by rewrite (proj2 (Z.eqb_neq _ _)).
Qed.
End script_runs.

(** Coroutine 1 yields between two outputs; coroutine 2 awaits it. *)
Module RunDemo.
#[export] Existing Instance MachineDemo.link.
Definition bodies : list (list cmd) :=
  [[Emit 1; Yield; Emit 2]; [Await 0%nat; Emit 3]].
#[export] Instance code : UserCode (list cmd) script_mem := script_code bodies.
Definition prog : list cmd := [Create 1 0; Create 2 0; Run; State 0%nat].

(** Both created, [co_run] called. *)
Lemma inv_5 : inv None [65536; 327792] (at_step bodies prog 5).
Proof. apply inv_at; by vm_compute. Qed.
(** Coroutine 2 waiting for coroutine 1. *)
Lemma inv_16 : inv None [65536] (at_step bodies prog 16).
Proof. apply inv_at; by vm_compute. Qed.
End RunDemo.

(** A coroutine that awaits itself. *)
Module SelfAwait.
#[export] Existing Instance MachineDemo.link.
Definition bodies : list (list cmd) := [[Await 0%nat]].
#[export] Instance code : UserCode (list cmd) script_mem := script_code bodies.
Definition prog : list cmd := [Create 1 0; Run].
End SelfAwait.

Section witnesses.
Import RunDemo.
Local Abbreviation at_ n := (at_step bodies prog n).

Lemma run_refines_witness :
  ∃ cur l es, inv cur l (at_ 16) ∧ trace (start prog) es (at_ 16)
    ∧ spec_steps (ASched ∅ [] None []) es (abs cur l (at_ 16)).
Proof.
  apply (run_refines (H := bump_allocator) 16 (at_ 16) heap0 (ScriptMem [] []) prog).
  apply (reach_from bodies prog 0 16). by vm_compute.
Defined.

Lemma step_refines_witness :
  ∃ w' cur' l' e, step (at_ 5) = Stepped w' ∧ inv cur' l' w'
    ∧ observes (at_ 5) [65536; 327792] e
    ∧ spec_step (abs None [65536; 327792] (at_ 5)) e (abs cur' l' w')
    ∧ carries (at_ 5) e w'.
Proof.
  assert (nested_run (at_ 5) = false) as Hn by by vm_compute.
  pose proof (step_refines _ _ _ inv_5 Hn) as Hs.
  assert (match step (at_ 5) with Stepped _ => true | _ => false end = true) as Hok
    by by vm_compute.
  destruct (step (at_ 5)) as [|w'|e]; [discriminate Hok| |discriminate Hok].
  destruct Hs as (cur' & l' & e & Hs). exists w', cur', l', e.
  exact (conj eq_refl Hs).
Defined.

(** main yields. *)
Lemma no_internal_error_witness :
  step (start [Yield]) = Faulted AssertYieldOutside
  ∧ ∃ cur l, inv cur l (start [Yield]) ∧ blame cur (start [Yield]) AssertYieldOutside.
Proof.
  split; [reflexivity|].
  apply (no_internal_error (H := bump_allocator) 0 _ heap0 (ScriptMem [] []) [Yield]);
    [constructor|reflexivity|reflexivity].
Defined.

Lemma coroutine_lifecycle_witness :
  ∃ w' c c', step (at_ 5) = Stepped w' ∧ w_objs (at_ 5) !! 65536 = Some c
    ∧ w_objs w' !! 65536 = Some c' ∧ c_state c = CO_READY ∧ c_state c' = CO_RUNNING
    ∧ c_id c' = c_id c.
Proof.
  assert (match step (at_ 5) with
          | Stepped w' =>
              match w_objs (at_ 5) !! 65536, w_objs w' !! 65536 with
              | Some c, Some c' =>
                  bool_decide (c_state c = CO_READY) && bool_decide (c_state c' = CO_RUNNING)
              | _, _ => false
              end
          | _ => false end = true) as Hok by by vm_compute.
  destruct (step (at_ 5)) as [|w'|e] eqn:Hs; [discriminate Hok| |discriminate Hok].
  destruct (w_objs (at_ 5) !! 65536) as [c|] eqn:Hc; [|discriminate Hok].
  destruct (w_objs w' !! 65536) as [c'|] eqn:Hc'; [|discriminate Hok].
  apply andb_true_iff in Hok as [H1%bool_decide_eq_true H2%bool_decide_eq_true].
  assert (clean_steps 5 (start prog) (at_ 5)) as Hcs
    by (apply (reach_from bodies prog 0 5); by vm_compute).
  assert (nested_run (at_ 5) = false) as Hn by by vm_compute.
  pose proof (coroutine_lifecycle (H := bump_allocator) 5 (at_ 5) heap0
    (ScriptMem [] []) prog w' 65536 c c' Hcs Hn Hs Hc Hc') as (_ & Hid & _).
  exists w', c, c'.
  exact (conj eq_refl (conj eq_refl (conj Hc' (conj H1 (conj H2 Hid))))).
Defined.

Lemma ids_unique_witness :
  ∃ c d, w_objs (at_ 5) !! 65536 = Some c ∧ w_objs (at_ 5) !! 327792 = Some d
    ∧ 1 ≤ c_id c ≤ 2 ∧ c_id c ≠ c_id d.
Proof.
  destruct (inv_live _ _ _ inv_5 65536) as [c Hc]; [by left|].
  destruct (inv_live _ _ _ inv_5 327792) as [d Hd]; [right; by left|].
  exists c, d. destruct (ids_unique (H := bump_allocator) 5 (at_ 5) heap0 (ScriptMem [] []) prog _ _ _ _
    ltac:(apply (reach_from bodies prog 0 5); by vm_compute) Hc Hd) as (Hb & _ & Hinj).
  assert (s_count (w_S (at_ 5)) = 2) as Hn by by vm_compute. rewrite Hn in Hb.
  split_and!; [exact Hc|exact Hd|lia|lia|]. intros He. by discriminate (Hinj He).
Defined.

Lemma fifo_schedule_witness :
  ∃ cur' l' es, inv cur' l' (at_ 16) ∧ trace (at_ 5) es (at_ 16)
    ∧ spec_steps (abs None [65536; 327792] (at_ 5)) es (abs cur' l' (at_ 16))
    ∧ (es ≫= dispatched) ++ l' = [65536; 327792] ++ (es ≫= enqueued).
Proof.
  apply (fifo_schedule 11 _ _ None _ inv_5).
  apply (reach_from bodies prog 5 11). by vm_compute.
Defined.

Lemma bounded_waiting_witness :
  ∃ cur' l' es, inv cur' l' (at_ 16) ∧ trace (at_ 5) es (at_ 16)
    ∧ spec_steps (abs None [65536; 327792] (at_ 5)) es (abs cur' l' (at_ 16))
    ∧ ((1 < length (es ≫= dispatched))%nat → (es ≫= dispatched) !! 1%nat = Some 327792).
Proof.
  apply (bounded_waiting 11 _ _ None _ 1 327792 inv_5); [|reflexivity].
  apply (reach_from bodies prog 5 11). by vm_compute.
Defined.

Lemma await_blocks_witness :
  ∃ c cur' l' es, w_objs (at_ 16) !! 327792 = Some c ∧ inv cur' l' (at_ 22)
    ∧ trace (at_ 16) es (at_ 22)
    ∧ spec_steps (abs None [65536] (at_ 16)) es (abs cur' l' (at_ 22))
    ∧ ((∃ c', w_objs (at_ 22) !! 327792 = Some c' ∧ c_state c' = CO_WAITING
          ∧ c_awaiting c' = 65536)
       ∨ ∃ ws, EFinish 65536 ws ∈ es ∧ 327792 ∈ ws).
Proof.
  assert (match w_objs (at_ 16) !! 327792 with
          | Some c => bool_decide (c_state c = CO_WAITING) && (c_awaiting c =? 65536)
          | None => false end = true) as Hok by by vm_compute.
  destruct (w_objs (at_ 16) !! 327792) as [c|] eqn:Hc; [|discriminate Hok].
  apply andb_true_iff in Hok as [H1%bool_decide_eq_true H2%Z.eqb_eq].
  destruct (await_blocks 6 (at_ 16) (at_ 22) None _ 327792 65536 c inv_16
    ltac:(apply (reach_from bodies prog 16 6); by vm_compute) Hc H1 H2)
    as (cur' & l' & es & Hrest).
  exists c, cur', l', es. exact (conj eq_refl Hrest).
Defined.

(** Coroutine 1 yields at step 9 and is resumed to run on. *)
Lemma suspension_returns_witness :
  ∃ y k w1, w_cpu (at_ 9) = FUser y :: k ∧ suspends_to (at_ 9) = Some [Emit 2]
    ∧ step (at_ 9) = Stepped w1
    ∧ (suspended_at 65536 (FUser [Emit 2] :: k) (at_ 20)
       ∨ ∃ i j w2 w3, clean_steps i w1 w2
           ∧ suspended_at 65536 (FUser [Emit 2] :: k) w2
           ∧ continues_at 65536 (FUser [Emit 2] :: k) w2 w3 ∧ clean_steps j w3 (at_ 20)).
Proof.
  assert (inv (Some 65536) [327792] (at_ 9)) as Hi by (apply inv_at; by vm_compute).
  assert (match w_cpu (at_ 9) with FUser _ :: _ => true | _ => false end = true) as Hok
    by by vm_compute.
  assert (suspends_to (at_ 9) = Some [Emit 2]) as Hz by by vm_compute.
  destruct (w_cpu (at_ 9)) as [|[y| | | | | |] k] eqn:Hcpu; try discriminate Hok.
  assert (clean_steps 11 (at_ 9) (at_ 20)) as Hr
    by (apply (reach_from bodies prog 9 11); by vm_compute).
  destruct (clean_head _ _ _ Hr) as (w1 & Hn & Hs & Hr1).
  exists y, k, w1. split; [reflexivity|]. split; [exact Hz|]. split; [exact Hs|].
  exact (suspension_returns 10 (at_ 9) w1 (at_ 20) 65536 _ y k _ Hi Hcpu Hz Hn Hs Hr1).
Defined.

Lemma co_run_completes_witness :
  map_Forall (λ _ c, c_state c = CO_DONE) (w_objs (at_ 26)).
Proof.
  apply (co_run_completes (H := bump_allocator) 26 (at_ 26) heap0 (ScriptMem [] []) prog [State 0%nat] (λ _, O)).
  - apply (reach_from bodies prog 0 26). by vm_compute.
  - split; by vm_compute.
  - intros p q (c & Hp & Hw & _). exfalso.
    assert (bool_decide (map_Forall (λ _ c, c_state c ≠ CO_WAITING) (w_objs (at_ 26)))
      = true) as Hb%bool_decide_eq_true by by vm_compute.
    by apply (Hb p c).
Defined.
End witnesses.

(** [co_run] returns while the only coroutine waits for itself. *)
Section self_await.
Import SelfAwait.
Local Abbreviation at_ n := (at_step bodies prog n).

Lemma co_run_returns_witness :
  ∃ c, w_objs (at_ 8) !! 65536 = Some c ∧ c_state c = CO_WAITING
    ∧ ∃ q, rtc (awaits (at_ 8)) 65536 q ∧ tc (awaits (at_ 8)) q q.
Proof.
  assert (match w_objs (at_ 8) !! 65536 with
          | Some c => bool_decide (c_state c = CO_WAITING)
          | None => false end = true) as Hok by by vm_compute.
  destruct (w_objs (at_ 8) !! 65536) as [c|] eqn:Hc; [|discriminate Hok].
  apply bool_decide_eq_true in Hok. exists c.
  destruct (co_run_returns (H := bump_allocator) 8 (at_ 8) heap0 (ScriptMem [] []) prog [] 65536 c) as [Hd|Hw].
  - apply (reach_from bodies prog 0 8). by vm_compute.
  - split; by vm_compute.
  - exact Hc.
  - rewrite Hok in Hd. discriminate Hd.
  - exact (conj eq_refl Hw).
Defined.
End self_await.
