(* ===== verification/UContext.v ===== *)
(** * The ucontext backend ([src/coroutine.c], [USE_ASM_CTX] 0)

    On other platforms the library is compiled with the context switch of the
    system: [getcontext], [makecontext] and [swapcontext] of POSIX, and an entry
    point that receives the coroutine's address in two halves.  This file has
    the functions that differ, under the name of the function with [_uc], and
    shows that the two builds behave alike: [erase] maps the states of one to
    the states of the other, and each transition to the same transition
    ([backends_agree]).

    The POSIX functions are not part of the repository: they are a parameter,
    [UContext], with their documented behaviour as its laws.
    [swapcontext(&a, &b)] saves the caller in [a] and resumes what [b] holds;
    a context that [makecontext] has filled starts the function it was given,
    with the two arguments it was given.  A context is represented by the stack
    it resumes, [SFrames], as for the other build, and is used up when it is
    resumed.  [sizeof(Coroutine)], which depends on the type of [ctx], is that
    of the other build too: both ask [malloc] for the same blocks. *)

From stdpp Require Import gmap.
From S2P Require Import Prelude Ring Machine State RunQueue Api Ops Invariant.
From S2P Require Import Preserve Create Spec Refine Safety Demo.

(** ** The two halves of a pointer *)

Definition ptr_hi (p : ptr) : Z := Z.shiftr p 32 mod 2 ^ 32.
Definition ptr_lo (p : ptr) : Z := Z.land p 0xffffffff.
(** [(uintptr_t)hi << 32 | (uintptr_t)lo] *)
Definition ptr_join (hi lo : Z) : ptr := Z.lor (Z.shiftl hi 32) lo.

Lemma ptr_join_split p : 0 ≤ p < 2 ^ 64 → ptr_join (ptr_hi p) (ptr_lo p) = p.
Proof.
  intros Hp. unfold ptr_join, ptr_hi, ptr_lo. change 0xffffffff with (Z.ones 32).
  rewrite (Z.mod_small (Z.shiftr p 32)).
  - apply Z.bits_inj'. intros n Hn. rewrite Z.lor_spec, Z.shiftl_spec, Z.land_spec by done.
    destruct (Z.lt_ge_cases n 32).
    + rewrite Z.testbit_neg_r, Z.ones_spec_low by lia. by rewrite andb_true_r.
    + rewrite Z.shiftr_spec, Z.ones_spec_high by lia. rewrite andb_false_r, orb_false_r.
      f_equal. lia.
  - rewrite Z.shiftr_div_pow2 by lia. split; [apply Z.div_pos; lia|]. apply Z.div_lt_upper_bound; lia.
Qed.

(** [co_entry_uc(hi, lo)] puts the pointer together and goes on like
    [co_entry]. *)
Definition co_entry_uc {L} (hi lo : Z) : frame L := FEntry (ptr_join hi lo).

(** ** The functions of the system *)

(** [swapcontext(from, to)] called from the stack [k]; [getcontext] and
    [makecontext] of the context of [co], to run [co_entry_uc] with [hi] and
    [lo] on the given stack. *)
Class UContext (L U : Type) `{Allocator} := {
  swapcontext (from to : ctx_ref) (k : stackL L) : M L U unit;
  makecontext (co ss_sp : ptr) (ss_size hi lo : Z) : M L U unit;
  swapcontext_ok from to k k' (w : world L U) :
    from ≠ to → w_ctxs w !! to = Some (SFrames k') →
    swapcontext from to k w
    = Ok (set_cpu k' (set_ctxs (<[from := SFrames k]> (delete to (w_ctxs w))) w), ());
  makecontext_ok co ss_sp ss_size hi lo (w : world L U) :
    makecontext co ss_sp ss_size hi lo w
    = Ok (set_ctxs (<[CoCtx co := SFrames [co_entry_uc hi lo]]> (w_ctxs w)) w, ())
}.

Section ucontext.
Context {L U : Type} `{Allocator, LinkMap, UserCode L U, !UContext L U}.
Implicit Types (w : world L U) (k : stackL L).

(** ** The functions that differ *)

Definition co_entry_done_uc (co : ptr) (k : stackL L) : M L U unit :=
  _ ← mod_co co (with_state CO_DONE);
  _ ← wakeup_waiters co;
  swapcontext (CoCtx co) MainCtx (FEntryAbort :: k).

Definition co_create_uc (fn arg : ptr) (stack_size : Z) : M L U ptr :=
  _ ← se_assert (negb (fn =? NULL)) AssertFnNull;
  s ← get_S;
  _ ← se_assert (s_count s <? MAX_COROUTINES) AssertTooMany;
  let stack_size := if stack_size =? 0 then DEFAULT_STACK_SIZE else stack_size in
  co ← calloc_Coroutine;
  if co =? NULL then mret NULL
  else
    stack ← malloc stack_size;
    _ ← mod_co co (with_stack stack);
    if stack =? NULL then _ ← free co; mret NULL
    else
      s ← get_S;
      id ← int_add IntOverflow (s_count s) 1;
      _ ← mod_co co (λ c, MkCo id CO_READY fn arg (c_stack c) stack_size NULL);
      _ ← makecontext co stack stack_size (ptr_hi co) (ptr_lo co);
      s ← get_S;
      _ ← se_assert (in_bounds (s_all s) (s_count s)) BadIndex;
      _ ← mod_S (with_all (zinsert (s_count s) co (s_all s)));
      n ← int_add IntOverflow (s_count s) 1;
      _ ← mod_S (with_count n);
      _ ← q_push co;
      mret co.

Definition resume_uc (next : ptr) (k : stackL L) : M L U unit :=
  _ ← mod_co next (with_state CO_RUNNING);
  _ ← mod_S (with_running next);
  swapcontext MainCtx (CoCtx next) (FResume :: k).

Definition co_run_iter_uc (k : stackL L) : M L U unit :=
  co ← q_pop;
  if co =? NULL then set_stack k
  else
    c ← deref co;
    _ ← se_assert (bool_decide (c_state c = CO_READY)) AssertRunNotReady;
    resume_uc co (FRun :: k).

Definition co_yield_uc (k : stackL L) : M L U unit :=
  s ← get_S;
  let co := s_running s in
  _ ← se_assert (negb (co =? NULL)) AssertYieldOutside;
  _ ← mod_co co (with_state CO_READY);
  _ ← q_push co;
  swapcontext (CoCtx co) MainCtx k.

Definition co_await_uc (other : ptr) (k : stackL L) : M L U unit :=
  _ ← se_assert (negb (other =? NULL)) AssertAwaitNull;
  o ← deref other;
  if bool_decide (c_state o = CO_DONE) then set_stack k
  else
    s ← get_S;
    let co := s_running s in
    _ ← se_assert (negb (co =? NULL)) AssertAwaitOutside;
    _ ← mod_co co (with_state CO_WAITING);
    _ ← mod_co co (with_awaiting other);
    swapcontext (CoCtx co) MainCtx k.

Definition user_call_uc (c : ucall L) (k : stackL L) : M L U unit :=
  match c with
  | UYield l => co_yield_uc (FUser l :: k)
  | UAwait other l => co_await_uc other (FUser l :: k)
  | UCreate fn arg sz f =>
      p ← co_create_uc fn arg (wrap64 sz); set_stack (FUser (f p) :: k)
  | _ => user_call c k
  end.

Definition run_frame_uc (f : frame L) (k : stackL L) : M L U unit :=
  match f with
  | FUser l =>
      w ← se_gets (λ w, w);
      let '(c, u) := ustep l (w_user w) in
      _ ← se_modify (set_user u);
      user_call_uc c k
  | FEntryRet co => co_entry_done_uc co k
  | FRun => co_run_iter_uc k
  | FTrampoline _ => se_fail BadContext
  | _ => run_frame f k
  end.

Definition step_uc w : outcome L U :=
  match w_cpu w with
  | [] => Halted
  | f :: k =>
      match run_frame_uc f k w with
      | Ok (w', _) => Stepped w'
      | Err e => Faulted e
      end
  end.

(** ** The correspondence of states *)

(** The assembly routine [co_trampoline] has no counterpart: a coroutine that is
    there is about to enter [co_entry]. *)
Definition erase_frame (f : frame L) : frame L :=
  match f with FTrampoline co => FEntry co | _ => f end.
Definition erase_stack (k : stackL L) : stackL L := erase_frame <$> k.

(** An initial context of [p], whatever the words it points to, becomes one that
    [makecontext] has filled. *)
Definition erase_saved (r : ctx_ref) (s : saved L) : saved L :=
  match r, s with
  | CoCtx p, SFresh _ => SFrames [FEntry p]
  | _, SFrames k => SFrames (erase_stack k)
  | MainCtx, SFresh c => SFresh c
  end.
Definition erase_ctxs (P : gmap ctx_ref (saved L)) : gmap ctx_ref (saved L) :=
  map_imap (λ r s, Some (erase_saved r s)) P.

Definition erase w : world L U :=
  MkWorld (w_S w) (w_objs w) (w_blocks w) ∅ (erase_ctxs (w_ctxs w)) (w_alloc w) (w_user w)
    (erase_stack (w_cpu w)).

Definition erase_result {A} (r : result error (world L U * A)) : result error (world L U * A) :=
  match r with Ok (w, a) => Ok (erase w, a) | Err e => Err e end.

Lemma erase_ctxs_lookup P r : erase_ctxs P !! r = erase_saved r <$> P !! r.
Proof. unfold erase_ctxs. rewrite map_lookup_imap. by destruct (P !! r). Qed.

Lemma erase_ctxs_insert P r s : erase_ctxs (<[r := s]> P) = <[r := erase_saved r s]> (erase_ctxs P).
Proof.
  apply map_eq. intros q. rewrite erase_ctxs_lookup, !lookup_insert.
  case_decide; [by subst|]. by rewrite erase_ctxs_lookup.
Qed.

Lemma erase_ctxs_delete P r : erase_ctxs (delete r P) = delete r (erase_ctxs P).
Proof.
  apply map_eq. intros q. rewrite erase_ctxs_lookup, !lookup_delete.
  case_decide; [done|]. by rewrite erase_ctxs_lookup.
Qed.

(** ** Operations that do not switch *)

(** [m'] does on the erased state what [m] does, where [J] holds of the
    contexts and the words of the stacks. *)
Definition agrees {A} (J : gmap ctx_ref (saved L) → gmap Z Z → Prop) (m m' : M L U A) : Prop :=
  ∀ w, J (w_ctxs w) (w_words w) → m' (erase w) = erase_result (m w).
Definition anyway (_ : gmap ctx_ref (saved L)) (_ : gmap Z Z) : Prop := True.

(** [m] leaves contexts and stacks alone. *)
Definition no_switch {A} (m : M L U A) : Prop :=
  ∀ w w' a, m w = Ok (w', a) → w_ctxs w' = w_ctxs w ∧ w_words w' = w_words w.

Lemma agrees_bind {A B} J (m m' : M L U A) (f f' : A → M L U B) :
  agrees anyway m m' → no_switch m → (∀ a, agrees J (f a) (f' a)) → agrees J (m ≫= f) (m' ≫= f').
Proof.
  intros Hm Hn Hf w Hw. unfold mbind, se_bind. rewrite Hm by done.
  destruct (m w) as [[w1 a]|e] eqn:He; cbn; [|done]. destruct (Hn _ _ _ He) as [Hc Hs].
  apply Hf. by rewrite Hc, Hs.
Qed.

Lemma agrees_bind_any {A B} (m m' : M L U A) (f f' : A → M L U B) :
  agrees anyway m m' → (∀ a, agrees anyway (f a) (f' a)) → agrees anyway (m ≫= f) (m' ≫= f').
Proof.
  intros Hm Hf w Hw. unfold mbind, se_bind. rewrite Hm by done.
  destruct (m w) as [[w1 a]|e] eqn:He; cbn; [|done]. by apply Hf.
Qed.

Lemma no_switch_bind {A B} (m : M L U A) (f : A → M L U B) :
  no_switch m → (∀ a, no_switch (f a)) → no_switch (m ≫= f).
Proof.
  intros Hm Hf w w' b (w1 & a & Hm1 & Hf1)%se_bind_inv.
  destruct (Hm _ _ _ Hm1), (Hf _ _ _ _ Hf1). split; congruence.
Qed.

Lemma agrees_any {A} J (m m' : M L U A) : agrees anyway m m' → agrees J m m'.
Proof. intros Hm w _. by apply Hm. Qed.

Lemma agrees_ret {A} (a : A) : agrees anyway (mret a) (mret a).
Proof. done. Qed.
Lemma agrees_get_S : agrees anyway get_S get_S.
Proof. done. Qed.
Lemma agrees_mod_S f : agrees anyway (mod_S f) (mod_S f).
Proof. done. Qed.
Lemma agrees_assert b e : agrees anyway (se_assert b e) (se_assert b e).
Proof. intros w _. by destruct b. Qed.
Lemma agrees_int_add e a b : agrees anyway (int_add e a b) (int_add e a b).
Proof. intros w _. unfold int_add. by destruct (in_int _). Qed.
Lemma agrees_some {A} (o : option A) e : agrees anyway (se_some o e) (se_some o e).
Proof. intros w _. by destruct o. Qed.
Lemma agrees_fail {A} e : agrees anyway (se_fail (A := A) e) (se_fail e).
Proof. done. Qed.
Lemma agrees_set_user u : agrees anyway (se_modify (set_user u)) (se_modify (set_user u)).
Proof. done. Qed.
Lemma agrees_set_stack k : agrees anyway (set_stack k) (set_stack (erase_stack k)).
Proof. done. Qed.
Lemma agrees_set_alloc σ : agrees anyway (se_modify (set_alloc σ)) (se_modify (set_alloc σ)).
Proof. done. Qed.
Lemma agrees_deref p : agrees anyway (deref p) (deref p).
Proof. intros w _. unfold deref, mbind, se_bind, se_gets, se_some. cbn. by destruct (w_objs w !! p). Qed.
Lemma agrees_mod_co p f : agrees anyway (mod_co p f) (mod_co p f).
Proof. apply agrees_bind_any; [apply agrees_deref|by intros c w _]. Qed.
Lemma agrees_malloc n : agrees anyway (malloc n) (malloc n).
Proof.
  intros w _. unfold malloc, mbind, se_bind, se_gets. cbn.
  by destruct (alloc_block (w_alloc w) (w_blocks w) n) as [σ [p|]].
Qed.
Lemma agrees_free p : agrees anyway (free p) (free p).
Proof.
  intros w _. unfold free. destruct (p =? NULL); [done|]. unfold mbind, se_bind, se_gets. cbn.
  destruct (w_blocks w !! p); [|done]. unfold se_modify, erase, set_ctxs, set_objs, set_blocks. cbn.
  unfold erase. cbn. by rewrite erase_ctxs_delete.
Qed.

Lemma no_switch_modify (f : world L U → world L U) :
  (∀ w, w_ctxs (f w) = w_ctxs w ∧ w_words (f w) = w_words w) → no_switch (se_modify f).
Proof. intros Hf w w' a [= <- _]. apply Hf. Qed.
Lemma no_switch_get_S : no_switch get_S.
Proof. by intros w w' a [= <- _]. Qed.
Lemma no_switch_assert b e : no_switch (se_assert b e).
Proof. intros w w' a. unfold se_assert. destruct b; [|done]. by intros [= <- _]. Qed.
Lemma no_switch_some {A} (o : option A) e : no_switch (se_some o e).
Proof. intros w w' a. unfold se_some. destruct o; [|done]. by intros [= <- _]. Qed.
Lemma no_switch_int_add e a b : no_switch (int_add e a b).
Proof. intros w w' x. unfold int_add. destruct (in_int _); [|done]. by intros [= <- _]. Qed.
Lemma no_switch_ret {A} (a : A) : no_switch (mret a).
Proof. by intros w w' x [= <- _]. Qed.
Lemma no_switch_mod_S f : no_switch (mod_S f).
Proof. by apply no_switch_modify. Qed.
Lemma no_switch_deref p : no_switch (deref p).
Proof.
  apply no_switch_bind; [by intros w w' a [= <- _]|]. intros w. apply no_switch_some.
Qed.
Lemma no_switch_mod_co p f : no_switch (mod_co p f).
Proof. apply no_switch_bind; [apply no_switch_deref|]. intros c. by apply no_switch_modify. Qed.
End ucontext.

Create HintDb uc discriminated.
#[export] Hint Resolve agrees_ret agrees_get_S agrees_mod_S agrees_assert agrees_int_add
  agrees_some agrees_fail agrees_set_user agrees_set_stack agrees_set_alloc agrees_deref
  agrees_mod_co agrees_malloc agrees_free : uc.
#[export] Hint Resolve no_switch_get_S no_switch_assert no_switch_some no_switch_int_add
  no_switch_ret no_switch_mod_S no_switch_deref no_switch_mod_co : uc.

(** [agree]: a sequence of operations that are known to agree. *)
Ltac agree := repeat
  (cbn beta zeta; lazymatch goal with
   | |- agrees _ (_ ≫= _) _ => first [apply agrees_bind_any]
   | |- agrees _ (if ?b then _ else _) _ => destruct b
   | |- agrees _ _ _ => solve [auto with uc]
   | |- forall _, _ => intro
   end).
Ltac quiet := repeat
  (cbn beta zeta; lazymatch goal with
   | |- no_switch (_ ≫= _) => apply no_switch_bind
   | |- no_switch (if ?b then _ else _) => destruct b
   | |- no_switch _ => solve [auto with uc]
   | |- forall _, _ => intro
   end).

Section backends.
Context {L U : Type} `{Allocator, LinkMap, UserCode L U}.
Implicit Types (w : world L U) (k : stackL L).

Lemma agrees_q_push p : agrees anyway (q_push (L := L) (U := U) p) (q_push p).
Proof. unfold q_push. agree. Qed.
Lemma agrees_q_pop : agrees anyway (q_pop (L := L) (U := U)) q_pop.
Proof. unfold q_pop, array_get. agree. Qed.
Lemma no_switch_q_push p : no_switch (q_push (L := L) (U := U) p).
Proof. unfold q_push. quiet. Qed.
Lemma no_switch_q_pop : no_switch (q_pop (L := L) (U := U)).
Proof. unfold q_pop, array_get. quiet. Qed.
End backends.
#[export] Hint Resolve agrees_q_push agrees_q_pop no_switch_q_push no_switch_q_pop : uc.

Section switches.
Context {L U : Type} `{Allocator, LinkMap, UserCode L U, !UContext L U}.
Implicit Types (w : world L U) (k : stackL L) (p : ptr).

Lemma agrees_wakeup_loop p n i : agrees anyway (wakeup_loop (L := L) (U := U) p n i) (wakeup_loop p n i).
Proof. revert i. induction n as [|n IH]; intros i; cbn [wakeup_loop]; unfold wakeup_one, array_get; agree. Qed.
Lemma no_switch_wakeup_loop p n i : no_switch (wakeup_loop (L := L) (U := U) p n i).
Proof. revert i. induction n as [|n IH]; intros i; cbn [wakeup_loop]; unfold wakeup_one, array_get; quiet. Qed.

(** ** Switches *)

Definition main_saved (P : gmap ctx_ref (saved L)) (_ : gmap Z Z) : Prop :=
  ∃ k, P !! MainCtx = Some (SFrames k).

(** The context of [p] is that of its body, or the initial one. *)
Definition body_saved p (P : gmap ctx_ref (saved L)) (words : gmap Z Z) : Prop :=
  (∃ k, P !! CoCtx p = Some (SFrames k))
  ∨ ∃ a, P !! CoCtx p = Some (SFresh a) ∧ words !! rsp a = Some sym_co_trampoline
      ∧ words !! (rsp a + 8) = Some p.

Lemma agrees_switch_main p k :
  agrees main_saved (co_ctx_switch (U := U) (CoCtx p) MainCtx k) (swapcontext (CoCtx p) MainCtx (erase_stack k)).
Proof.
  intros w [k' Hk]. unfold co_ctx_switch.
  rewrite (parked_switch_ne _ _ _ _ _ (λ E : CoCtx p = MainCtx, ltac:(done)) Hk).
  rewrite (swapcontext_ok (CoCtx p) MainCtx _ (erase_stack k'));
    [|done|by cbn; rewrite erase_ctxs_lookup, Hk].
  cbn. unfold erase, set_cpu, set_ctxs. cbn. by rewrite erase_ctxs_insert, erase_ctxs_delete.
Qed.

Lemma agrees_switch_body p k :
  agrees (body_saved p) (co_ctx_switch (U := U) MainCtx (CoCtx p) k) (swapcontext MainCtx (CoCtx p) (erase_stack k)).
Proof.
  intros w Hp. unfold co_ctx_switch.
  assert (∃ s k', w_ctxs w !! CoCtx p = Some s ∧ resolve w s = Ok k'
    ∧ erase_saved (CoCtx p) s = SFrames (erase_stack k')) as (s & k' & Hs & Hr & He).
  { destruct Hp as [[k' Hk]|(a & Ha & Ht & Hc)]; [by exists (SFrames k'), k'|].
    exists (SFresh a), [FTrampoline p]. split_and!; [done| |done]. cbn. by rewrite Ht, Hc, Z.eqb_refl. }
  rewrite (parked_switch_ne _ _ _ _ _ (λ E : MainCtx = CoCtx p, ltac:(done)) Hs), Hr.
  rewrite (swapcontext_ok MainCtx (CoCtx p) _ (erase_stack k'));
    [|done|unfold erase; cbn [w_ctxs]; rewrite erase_ctxs_lookup, Hs; exact (f_equal Some He)].
  cbn. unfold erase, set_cpu, set_ctxs. cbn. by rewrite erase_ctxs_insert, erase_ctxs_delete.
Qed.

(** Sequences that end with a switch. *)
Lemma agrees_yield k : agrees main_saved (co_yield (U := U) k) (co_yield_uc (erase_stack k)).
Proof.
  unfold co_yield, co_yield_uc. apply agrees_bind; [auto with uc..|]. intros s. cbn zeta.
  do 3 (apply agrees_bind; [auto with uc..|intros _]). apply agrees_switch_main.
Qed.

Lemma agrees_await o k : agrees main_saved (co_await (U := U) o k) (co_await_uc o (erase_stack k)).
Proof.
  unfold co_await, co_await_uc. apply agrees_bind; [auto with uc..|intros _].
  apply agrees_bind; [auto with uc..|intros c]. destruct (bool_decide _).
  { apply agrees_any, agrees_set_stack. }
  apply agrees_bind; [auto with uc..|]. intros s. cbn zeta.
  do 3 (apply agrees_bind; [auto with uc..|intros _]). apply agrees_switch_main.
Qed.

Lemma agrees_entry_done p k : agrees main_saved (co_entry_done (U := U) p k) (co_entry_done_uc p (erase_stack k)).
Proof.
  unfold co_entry_done, co_entry_done_uc. apply agrees_bind; [auto with uc..|intros _].
  apply agrees_bind; [| |intros _; apply (agrees_switch_main p (FEntryAbort :: k))].
  - unfold wakeup_waiters. apply agrees_bind_any; [auto with uc|]. intros s. apply agrees_wakeup_loop.
  - unfold wakeup_waiters. apply no_switch_bind; [auto with uc|]. intros s. apply no_switch_wakeup_loop.
Qed.

Lemma agrees_resume p k : agrees (body_saved p) (resume (U := U) p k) (resume_uc p (erase_stack k)).
Proof.
  unfold resume, resume_uc. do 2 (apply agrees_bind; [auto with uc..|intros _]).
  apply (agrees_switch_body p (FResume :: k)).
Qed.

(** Where no coroutine runs, these stop at their assertions in both builds. *)
Lemma yield_outside w k k' : s_running (w_S w) = NULL → co_yield k w = Err AssertYieldOutside
  ∧ co_yield_uc k' w = Err AssertYieldOutside.
Proof.
  intros Hr. unfold co_yield, co_yield_uc, get_S, mbind, se_bind, se_gets, se_assert.
  by rewrite Hr.
Qed.

(** ** Creation *)

(** [m] may stop at a store outside the stack, which the other build does not
    have; otherwise they agree. *)
Definition agrees_store {A} (m m' : M L U A) : Prop :=
  ∀ w, (∃ a, m w = Err (BadStore a)) ∨ m' (erase w) = erase_result (m w).

Lemma store_bind {A B} (Post : A → Prop) (m m' : M L U A) (f f' : A → M L U B) :
  agrees anyway m m' → (∀ w w' a, m w = Ok (w', a) → Post a) →
  (∀ a, Post a → agrees_store (f a) (f' a)) → agrees_store (m ≫= f) (m' ≫= f').
Proof.
  intros Hm Hp Hf w. unfold mbind, se_bind. rewrite Hm by done.
  destruct (m w) as [[w1 a]|e] eqn:He; cbn; [|by right]. apply Hf. by eapply Hp.
Qed.

Lemma store_bind_any {A B} (m m' : M L U A) (f f' : A → M L U B) :
  agrees anyway m m' → (∀ a, agrees_store (f a) (f' a)) → agrees_store (m ≫= f) (m' ≫= f').
Proof. intros Hm Hf. by apply (store_bind (λ _, True)). Qed.

Lemma store_any {A} (m m' : M L U A) : agrees anyway m m' → agrees_store m m'.
Proof. intros Hm w. right. by apply Hm. Qed.

(** The words written have no counterpart. *)
Lemma store_stack_erased stack a v w :
  (∃ b, store_stack stack a v w = Err (BadStore b))
  ∨ ∃ w', store_stack stack a v w = Ok (w', ()) ∧ erase w' = erase w.
Proof.
  unfold store_stack, mbind, se_bind, se_gets. destruct (w_blocks w !! stack); [|by left; eexists].
  destruct (_ && _); [|by left; eexists]. right. by eexists.
Qed.

Lemma store_words_erased stack ws w :
  (∃ b, store_words stack ws w = Err (BadStore b))
  ∨ ∃ w', store_words stack ws w = Ok (w', ()) ∧ erase w' = erase w.
Proof.
  revert w. induction ws as [|[a v] ws IH]; intros w; cbn [store_words]; [by right; eexists|].
  destruct (store_stack_erased stack a v w) as [[b Hb]|(w1 & H1' & He)].
  - left. exists b. by apply se_bind_err.
  - rewrite (se_bind_ok _ _ _ _ _ H1'). rewrite <- He. apply IH.
Qed.

Lemma store_words_bind {B} stack ws (f f' : M L U B) :
  agrees_store f f' → agrees_store (store_words stack ws ≫= λ _, f) f'.
Proof.
  intros Hf w. destruct (store_words_erased stack ws w) as [[b Hb]|(w1 & Hw & He)].
  - left. exists b. by apply se_bind_err.
  - rewrite (se_bind_ok _ _ _ _ _ Hw), <- He. apply Hf.
Qed.

Lemma agrees_makecontext p ctx sp n :
  0 ≤ p < 2 ^ 64 →
  agrees anyway (se_modify (λ w, set_ctxs (<[CoCtx p := SFresh ctx]> (w_ctxs w)) w))
    (makecontext p sp n (ptr_hi p) (ptr_lo p)).
Proof.
  intros Hp w _. rewrite makecontext_ok. unfold co_entry_uc. rewrite ptr_join_split by done.
  unfold se_modify, erase, set_ctxs. cbn. unfold erase. cbn. by rewrite erase_ctxs_insert.
Qed.

Lemma calloc_range w w' p : calloc_Coroutine w = Ok (w', p) → 0 ≤ p < 2 ^ 64.
Proof.
  intros (w1 & q & Hm & Hc)%se_bind_inv.
  assert (0 ≤ q < 2 ^ 64) as Hq.
  { revert Hm. unfold malloc, mbind, se_bind, se_gets. cbn.
    destruct (alloc_block _ _ sizeof_Coroutine) as [σ [r|]] eqn:Ha; intros [= _ <-]; [|done].
    apply alloc_ok in Ha as (? & _ & ? & _); [|done]. assert (0 < sizeof_Coroutine) by done. lia. }
  destruct (q =? NULL).
  - by injection Hc as _ <-.
  - revert Hc. unfold mbind, se_bind, se_modify. by intros [= _ <-].
Qed.

Lemma agrees_create fn arg n : agrees_store (co_create fn arg n) (co_create_uc fn arg n).
Proof.
  unfold co_create, co_create_uc.
  apply store_bind_any; [auto with uc|intros _]. apply store_bind_any; [auto with uc|intros s].
  apply store_bind_any; [auto with uc|intros _]. cbn zeta.
  set (sz := if n =? 0 then DEFAULT_STACK_SIZE else n). clearbody sz.
  apply (store_bind (λ p, 0 ≤ p < 2 ^ 64)); [unfold calloc_Coroutine; agree|apply calloc_range|].
  { by intros w _. }
  intros p Hp. destruct (p =? NULL); [apply store_any; auto with uc|].
  apply store_bind_any; [auto with uc|intros stack].
  apply store_bind_any; [auto with uc|intros _].
  destruct (stack =? NULL); [apply store_any; agree|].
  apply store_bind_any; [auto with uc|intros s']. apply store_bind_any; [auto with uc|intros i].
  apply store_bind_any; [auto with uc|intros _].
  destruct (stack_image stack sz p) as [ctx ws]. apply store_words_bind.
  apply store_bind_any; [by apply agrees_makecontext|intros _].
  apply store_any. agree.
Qed.
End switches.

Section runs.
Context {L U : Type} `{Allocator, LinkMap, UserCode L U, !UContext L U}.
Implicit Types (w : world L U) (k : stackL L) (p : ptr) (cur : option ptr) (l : list ptr).

(** ** Transitions *)

(** Where no coroutine runs, [co_yield] and [co_await] do not get to their
    switch. *)
Lemma idle_yield w k : s_running (w_S w) = NULL → co_yield_uc (erase_stack k) (erase w) = erase_result (co_yield k w).
Proof.
  intros Hr. unfold co_yield, co_yield_uc, get_S, mbind, se_bind, se_gets, se_assert. cbn.
  by rewrite Hr.
Qed.

Lemma idle_await w o k :
  s_running (w_S w) = NULL → co_await_uc o (erase_stack k) (erase w) = erase_result (co_await o k w).
Proof.
  intros Hr. unfold co_await, co_await_uc, mbind, se_bind, se_assert.
  destruct (negb _); [|done]. rewrite agrees_deref by done.
  destruct (deref o w) as [[w1 c]|e] eqn:Hd; [|done]. cbn.
  assert (w1 = w) as ->.
  { revert Hd. unfold deref, mbind, se_bind, se_gets, se_some. destruct (w_objs w !! o); [|done].
    by intros [= <- _]. }
  destruct (bool_decide _); [done|]. unfold get_S, se_gets. cbn. by rewrite Hr.
Qed.

(** A user stack: main's, or that of the coroutine that runs. *)
Lemma user_main_saved cur l w x k :
  inv cur l w → w_cpu w = FUser x :: k →
  s_running (w_S w) = NULL ∨ main_saved (w_ctxs w) (w_words w).
Proof.
  intros Hi Hcpu. pose proof (inv_control _ _ _ Hi) as Hc. rewrite Hcpu in Hc.
  inversion Hc as [|y m Hr| | |y p k' Hp Hk Hr Hm]; [by left|right]. by eexists.
Qed.

Lemma user_call_agrees cur l w x k c u :
  inv cur l w → w_cpu w = FUser x :: k →
  (∃ a, user_call c k (set_user u w) = Err (BadStore a))
  ∨ user_call_uc c (erase_stack k) (erase (set_user u w)) = erase_result (user_call c k (set_user u w)).
Proof.
  intros Hi Hcpu. destruct c as [|z|z|o z|fn arg n f|q z|q f|f|z]; cbn [user_call user_call_uc].
  - by right.
  - by right.
  - right. destruct (user_main_saved _ _ _ _ _ Hi Hcpu) as [Hr|Hm].
    + by apply (idle_yield (set_user u w) (FUser z :: k)).
    + by apply (agrees_yield (FUser z :: k)).
  - right. destruct (user_main_saved _ _ _ _ _ Hi Hcpu) as [Hr|Hm].
    + by apply (idle_await (set_user u w) o (FUser z :: k)).
    + by apply (agrees_await o (FUser z :: k)).
  - destruct (agrees_create fn arg (wrap64 n) (set_user u w)) as [[a Ha]|He].
    + left. exists a. by apply se_bind_err.
    + right. unfold mbind, se_bind. rewrite He.
      by destruct (co_create fn arg (wrap64 n) (set_user u w)) as [[w1 p]|e].
  - right. apply agrees_bind_any; [unfold co_free; agree|by intros [] w' _|done].
  - right. apply agrees_bind_any; [unfold co_state; agree|by intros s w' _|done].
  - right. apply agrees_bind_any; [unfold co_id; agree|by intros i w' _|done].
  - by right.
Qed.

(** [co_run] takes a coroutine whose context its body or [co_create] left. *)
Lemma run_iter_agrees cur l w k x :
  inv cur l w → w_cpu w = FRun :: k → k = [FUser x] →
  co_run_iter_uc (erase_stack k) (erase w) = erase_result (co_run_iter k w).
Proof.
  intros Hi Hcpu ->. unfold co_run_iter, co_run_iter_uc, mbind, se_bind. rewrite agrees_q_pop by done.
  destruct (q_pop w) as [[w1 p]|e] eqn:Hq; [|done]. cbn [erase_result].
  destruct (no_switch_q_pop _ _ _ Hq) as [Hx Hw].
  destruct (p =? NULL) eqn:Hp; [done|]. apply Z.eqb_neq in Hp.
  assert (p ∈ l ∧ w_objs w1 = w_objs w) as [Hin Hobj].
  { destruct l as [|q l].
    - rewrite q_pop_empty in Hq by by eapply inv_ring. by injection Hq as _ <-.
    - rewrite (q_pop_ok w q l) in Hq by by eapply inv_ring.
      injection Hq as <- <-. split; [by left|done]. }
  destruct (inv_live _ _ _ Hi _ Hin) as [c Hc].
  pose proof (inv_co _ _ _ Hi _ _ Hc) as [_ _ Hque _ _ _ Hres _].
  assert (body_saved p (w_ctxs w1) (w_words w1)) as Hbody.
  { rewrite Hx, Hw. destruct (Hres (or_introl (proj1 Hque Hin))) as [[y Hy]|(a & Ha & [Ht Hco _ _])].
    - left. by eexists.
    - right. by exists a. }
  rewrite agrees_deref by done. destruct (deref p w1) as [[w2 c']|e] eqn:Hd; [|done].
  cbn [erase_result]. assert (w2 = w1) as ->.
  { revert Hd. unfold deref, mbind, se_bind, se_gets, se_some. destruct (w_objs w1 !! p); [|done].
    by intros [= <- _]. }
  unfold se_assert. destruct (bool_decide _); [|done].
  by apply (agrees_resume p [FRun; FUser x]).
Qed.

Lemma step_agrees w cur l :
  inv cur l w →
  match step w with
  | Halted => step_uc (erase w) = Halted
  | Stepped w' => step_uc (erase w) = Stepped (erase w') ∨ erase w' = erase w
  | Faulted (BadStore _) => True
  | Faulted e => step_uc (erase w) = Faulted e
  end.
Proof.
  intros Hi. pose proof (inv_control _ _ _ Hi) as Hc. unfold step, step_uc.
  destruct (w_cpu w) as [|f k] eqn:Hcpu; cbn [erase w_cpu erase_stack fmap list_fmap];
    rewrite Hcpu; cbn [fmap list_fmap]; [done|].
  assert (∀ m' : M L U unit, (∃ a, run_frame f k w = Err (BadStore a))
      ∨ m' (erase w) = erase_result (run_frame f k w) →
    match match run_frame f k w with Ok (w', _) => Stepped w' | Err e => Faulted e end with
    | Halted => match m' (erase w) with Ok (w', _) => Stepped w' | Err e => Faulted e end = Halted
    | Stepped w' => match m' (erase w) with Ok (w', _) => Stepped w' | Err e => Faulted e end
                    = Stepped (erase w') ∨ erase w' = erase w
    | Faulted (BadStore _) => True
    | Faulted e => match m' (erase w) with Ok (w', _) => Stepped w' | Err e => Faulted e end = Faulted e
    end) as Hm.
  { intros m' [[a Ha]|Hm]; [by rewrite Ha|]. rewrite Hm.
    destruct (run_frame f k w) as [[w1 []]|[]]; cbn; auto. }
  destruct f as [x|p|p|p| | |]; cbn [erase_frame run_frame_uc].
  - apply (Hm (run_frame_uc (FUser x) (erase_stack k))). cbn [run_frame run_frame_uc]. unfold mbind, se_bind, se_gets.
    cbn [w_user erase]. destruct (ustep x (w_user w)) as [c u].
    exact (user_call_agrees cur l w x k c u Hi Hcpu).
  - right. inversion Hc as [| | | |y q k' Hq Hk]; subst. inversion Hk; subst.
    unfold erase, set_stack, se_modify, set_cpu. cbn. by rewrite Hcpu.
  - apply (Hm (run_frame (FEntry p) (erase_stack k))). right.
    assert (agrees anyway (run_frame (FEntry p) k) (run_frame (U := U) (FEntry p) (erase_stack k))) as Ha; [|by apply Ha].
    cbn [run_frame]. unfold co_entry. agree.
  - apply (Hm (co_entry_done_uc p (erase_stack k))). right. apply agrees_entry_done.
    inversion Hc as [| | | |y q k' Hq Hk Hr Hmain]; subst. by eexists.
  - by apply (Hm (run_frame FEntryAbort (erase_stack k))); right.
  - apply (Hm (co_run_iter_uc (erase_stack k))). right.
    inversion Hc as [| |y m Hr| |y q k' Hq Hk]; subst; [by eapply run_iter_agrees|by inversion Hk].
  - apply (Hm (run_frame FResume (erase_stack k))). right.
    assert (agrees anyway (run_frame FResume k) (run_frame (U := U) FResume (erase_stack k))) as Ha; [|by apply Ha].
    cbn [run_frame]. unfold resume_done. agree.
Qed.

(** Runs of the other build. *)
Inductive steps_uc : nat → world L U → world L U → Prop :=
| uc_refl w : steps_uc 0 w w
| uc_step n w w' w'' : step_uc w = Stepped w' → steps_uc n w' w'' → steps_uc (S n) w w''.

Lemma run_agrees n w w' cur l :
  clean_steps n w w' → inv cur l w →
  (∃ cur' l', inv cur' l' w') ∧ ∃ m, (m ≤ n)%nat ∧ steps_uc m (erase w) (erase w').
Proof.
  intros Hs. revert cur l. induction Hs as [w|n w w1 w2 Hn Hst _ IH]; intros cur l Hi.
  { split; [by exists cur, l|]. exists 0%nat. split; [done|constructor]. }
  pose proof (step_is_good _ _ _ Hi Hn) as Hg. unfold step_good in Hg. rewrite Hst in Hg.
  destruct Hg as (cur1 & l1 & e & Hi1 & _). pose proof (step_agrees _ _ _ Hi) as Ha. rewrite Hst in Ha.
  destruct (IH _ _ Hi1) as (Hinv & m & Hm & Hr). split; [done|].
  destruct Ha as [Ha|Ha].
  - exists (S m). split; [lia|]. by econstructor.
  - exists m. rewrite <- Ha. split; [lia|done].
Qed.

Lemma erase_init (σ : alloc_state) (u : U) (x : L) : erase (init_world σ u x) = init_world σ u x.
Proof.
  unfold erase, init_world. cbn. by f_equal.
Qed.

(** C21: the two builds behave alike, for every allocator and every run of a
    program in which no coroutine calls [co_run]: each state of a run with the assembly context switch corresponds to a state of a
    run with [swapcontext], reached in no more transitions, with the same
    scheduler state, coroutines and user memory; from there, the program ends
    in both or stops with the same error in both, except that only the first
    stops where [co_create] is given a stack too small for its initial
    image. *)
Theorem backends_agree n (σ : alloc_state) (u : U) (x : L) w :
  clean_steps n (init_world σ u x) w →
  (∃ m, (m ≤ n)%nat ∧ steps_uc m (init_world σ u x) (erase w))
  ∧ (step w = Halted → step_uc (erase w) = Halted)
  ∧ ∀ e, step w = Faulted e → (∃ a, e = BadStore a) ∨ step_uc (erase w) = Faulted e.
Proof.
  intros Hs. destruct (run_agrees _ _ _ _ _ Hs (inv_init σ u x)) as ((cur & l & Hi) & m & Hm & Hr).
  rewrite erase_init in Hr. split; [by exists m|].
  pose proof (step_agrees _ _ _ Hi) as Ha. split.
  - intros Hh. by rewrite Hh in Ha.
  - intros e He. rewrite He in Ha. destruct e; eauto.
Qed.
End runs.

(** ** A run of both builds *)

Module UContextDemo.
(** Functions of the system that do what is documented. *)
Definition swap {L U : Type} `{Allocator} (from to : ctx_ref) (k : stackL L) : M L U unit := λ w,
  match parked_switch from to (SFrames k) (w_ctxs w) with
  | Some (SFrames k', P) => Ok (set_cpu k' (set_ctxs P w), ())
  | Some (SFresh _, _) => Err BadContext
  | None => Err StaleContext
  end.

#[export] Instance posix {L U : Type} `{Allocator} : UContext L U.
Proof.
  refine {| swapcontext := swap;
    makecontext co _ _ hi lo :=
      se_modify (λ w, set_ctxs (<[CoCtx co := SFrames [co_entry_uc hi lo]]> (w_ctxs w)) w) |}.
  - intros from to k k' w Hne Hto. unfold swap. by rewrite (parked_switch_ne _ _ _ _ _ Hne Hto).
  - done.
Defined.

#[local] Existing Instance MachineDemo.link.
Definition bodies : list (list cmd) := [[Emit 1; Yield; Emit 2]; [Emit 3; Await 0; Emit 4]].
Definition main : list cmd := [Create 1 0; Create 2 0; Run; State 0; State 1].
#[local] Instance code : UserCode (list cmd) script_mem := script_code bodies.

Definition reached (n : nat) : world (list cmd) script_mem := default (start main) (advance n (start main)).
Definition reaches_it (n : nat) : bool := match advance n (start main) with Some _ => true | None => false end.

Lemma reached_steps n : reaches_it n = true → clean_steps n (start main) (reached n).
Proof.
  unfold reaches_it, reached. destruct (advance n (start main)) as [w|] eqn:Hw; [|done].
  intros _. by apply advance_steps.
Qed.

(** The run to its end, and the output of the other build. *)
Lemma backends_agree_witness :
  (∃ m, (m ≤ 33)%nat ∧ steps_uc m (start main) (erase (reached 33)))
  ∧ output (w_user (erase (reached 33))) = [1; 3; 2; 4; 3; 3].
Proof.
  split; [|by vm_compute].
  apply (backends_agree (H := bump_allocator) 33 heap0 (ScriptMem [] []) main). apply reached_steps. by vm_compute.
Defined.
End UContextDemo.
