(* ===== verification/Objects.v ===== *)
(** * Creating, freeing and inspecting coroutines

    [co_create], [co_free], [co_state] and [co_id] on every branch, from any
    well-formed state.  The lemmas are those of [Create.v]; the witnesses run
    the scripts of [Safety.v]. *)

From stdpp Require Import gmap.
From S2P Require Import Prelude Ring Machine State RunQueue Api Demo Ops Invariant.
From S2P Require Import Preserve Create Spec Refine Safety.

Section objects.
Context {L U : Type} `{Allocator, LinkMap, UserCode L U}.
Implicit Types (w : world L U) (cur : option ptr) (l : list ptr).

(** C12: [co_create] on every branch, from any well-formed state.  It returns a
    new READY coroutine with the next identifier, the function, argument and
    effective stack size it was given, appended to the registry and to the
    run-queue, all else unchanged; or, when [malloc] refuses one
    of the two requests it makes, a null pointer with nothing changed and nothing
    leaked: the same live blocks, objects and saved contexts.  It stops the program only on a null
    function, on the 513th coroutine ever created, or by writing below a
    stack block of fewer than 16 bytes. *)
Theorem co_create_spec w cur l fn arg n0 :
  inv cur l w → 0 ≤ n0 →
  match co_create fn arg n0 w with
  | Ok (w', p) =>
      fn ≠ NULL ∧
      (p = NULL ∧ inv cur l w' ∧ w_objs w' = w_objs w ∧ w_S w' = w_S w
         ∧ w_user w' = w_user w ∧ w_cpu w' = w_cpu w ∧ w_blocks w' = w_blocks w
         ∧ ctxs_kept w w' ∧ w_ctxs w' !! MainCtx = w_ctxs w !! MainCtx 
         ∧ create_refused w n0 = true
       ∨ inv cur (l ++ [p]) w' ∧ registered w fn arg (real_size n0) p w')
  | Err AssertFnNull => fn = NULL
  | Err AssertTooMany => fn ≠ NULL ∧ s_count (w_S w) = MAX_COROUTINES
  | Err (BadStore _) => 0 < n0 < 16
  | Err _ => False
  end.
Proof. apply co_create_cases. Qed.

(** C13: [co_free] on every branch, from any well-formed state.  It releases
    the object and the stack of a DONE coroutine, and nothing else, and
    leaves a well-formed state (in which the registry still lists the freed
    address); it stops the program on a null pointer, on a coroutine that is
    not DONE, and on a pointer that is not a live coroutine, a second free
    included. *)
Theorem co_free_spec w cur l p :
  inv cur l w →
  match co_free p w with
  | Ok (w', _) =>
      (∃ c, w_objs w !! p = Some c ∧ c_state c = CO_DONE ∧ w' = freed p c w)
      ∧ inv cur l w' ∧ co_free p w' = Err (BadDeref p)
      ∧ registry (w_S w') = registry (w_S w)
  | Err AssertFreeNull => p = NULL
  | Err AssertFreeNotDone => ∃ c, w_objs w !! p = Some c ∧ c_state c ≠ CO_DONE
  | Err (BadDeref q) => q = p ∧ p ≠ NULL ∧ w_objs w !! p = None
  | Err _ => False
  end.
Proof.
  intros Hi. pose proof (co_free_cases w cur l p Hi) as Hc.
  destruct (co_free p w) as [[w' r]|e]; [|done].
  destruct Hc as (c & Hp & Hst & -> & Hi'). split; [by exists c|]. split; [done|].
  split; [|done]. pose proof (co_free_cases _ cur l p Hi') as Hc.
  assert (w_objs (freed p c w) !! p = None) as Hnone by apply lookup_delete_eq.
  assert (p ≠ NULL) as Hp0.
  { eapply inv_not_null; [exact Hi|by eexists]. }
  destruct (co_free p (freed p c w)) as [[w1 ?]|e]; [by destruct Hc as (d & ? & _); congruence|].
  destruct e; try done; [by destruct Hc as (d & ? & _); congruence|].
  by destruct Hc as [-> _].
Qed.

(** While main or a body runs, [co_state] returns the state of a live
    coroutine and [co_id] the identifier of the running one, 0 in main;
    neither changes anything. *)
Theorem observers_spec w cur l y k p c :
  inv cur l w → w_cpu w = FUser y :: k → w_objs w !! p = Some c →
  co_state p w = Ok (w, c_state c)
  ∧ ∃ i, co_id w = Ok (w, i) ∧ cur_id cur w = Some i ∧ (i = 0 ↔ cur = None).
Proof.
  intros Hi Hcpu Hp. split.
  - pose proof (co_state_cases w p) as Hc. destruct (co_state p w) as [[w' st]|e].
    + destruct Hc as (-> & d & Hd & <-). by simplify_eq.
    + destruct e; try done; [|destruct Hc as (_ & _ & ?); congruence].
      by destruct (inv_not_null _ _ _ p Hi).
  - destruct (co_id_ok _ _ _ _ _ Hi Hcpu) as (i & Hid & Hok). exists i.
    split; [done|]. split; [done|]. destruct cur as [q|]; cbn in Hid; [|by simplify_eq].
    apply fmap_Some in Hid as (d & Hd & ->). split; [|done]. intros H0'.
    pose proof (k_id _ _ _ _ _ _ _ _ (inv_co _ _ _ Hi _ _ Hd)). lia.
Qed.

(** C5: no coroutine is lost and no wakeup is missed.  After any run in which
    no coroutine calls [co_run], a live
    READY coroutine is in the run-queue, exactly once; at most one coroutine
    is RUNNING and it is [S.running]; a WAITING one waits for a live coroutine
    that has not finished; and only READY ones are queued. *)
Theorem no_lost_coroutine n w (σ : alloc_state) (u : U) (x : L) p c :
  clean_steps n (init_world σ u x) w → w_objs w !! p = Some c →
  match c_state c with
  | CO_READY => (∃ i, ring_contents (w_S w) !! i = Some p
                    ∧ ∀ j, ring_contents (w_S w) !! j = Some p → j = i)
  | CO_RUNNING => s_running (w_S w) = p ∧ (p ∉ ring_contents (w_S w))
      ∧ (∀ q d, w_objs w !! q = Some d → c_state d = CO_RUNNING → q = p)
  | CO_WAITING => (p ∉ ring_contents (w_S w))
      ∧ ∃ d, w_objs w !! c_awaiting c = Some d ∧ c_state d ≠ CO_DONE
  | CO_DONE => p ∉ ring_contents (w_S w)
  end.
Proof.
  intros Hs Hp. destruct (clean_refines _ _ _ _ _ Hs (inv_init σ u x))
    as (cur & l & _ & Hi & _).
  rewrite <- (ring_rep_contents _ _ (inv_ring _ _ _ Hi)).
  pose proof (inv_co _ _ _ Hi _ _ Hp) as Hc. pose proof (k_queue _ _ _ _ _ _ _ _ Hc) as Hq.
  destruct (c_state c) eqn:Hst.
  - destruct (proj1 (list_elem_of_lookup l p)) as [i Hl]; [by apply Hq|].
    exists i. split; [done|]. intros j Hj. by eapply (NoDup_lookup l), Hl; [apply Hi|].
  - assert (cur = Some p) as -> by (by apply (k_run _ _ _ _ _ _ _ _ Hc)).
    split; [|split; [by rewrite Hq|]].
    + pose proof (inv_control _ _ _ Hi) as Hctl. by inversion Hctl.
    + intros q d Hd Hrun. apply (k_run _ _ _ _ _ _ _ _ (inv_co _ _ _ Hi _ _ Hd)) in Hrun.
      congruence.
  - split; [by rewrite Hq|]. by apply (k_wait _ _ _ _ _ _ _ _ Hc).
  - by rewrite Hq.
Qed.
End objects.

Section object_witnesses.
Import RunDemo.
Local Abbreviation at_ n := (at_step bodies prog n).

Lemma co_create_spec_witness :
  ∃ w' p, co_create 2 7 4096 (at_ 5) = Ok (w', p) ∧ p ≠ NULL
    ∧ inv None ([65536; 327792] ++ [p]) w' ∧ registered (at_ 5) 2 7 4096 p w'.
Proof.
  pose proof (co_create_spec (at_ 5) None _ 2 7 4096 inv_5 ltac:(done)) as Hc.
  assert (match co_create 2 7 4096 (at_ 5) with
          | Ok (_, p) => negb (p =? NULL) | Err _ => false end = true) as Hok
    by by vm_compute.
  destruct (co_create 2 7 4096 (at_ 5)) as [[w' p]|e]; [|discriminate Hok].
  exists w', p. split; [reflexivity|].
  apply negb_true_iff, Z.eqb_neq in Hok. split; [exact Hok|].
  destruct Hc as [_ [[Hp _]|Hc]]; [contradiction|exact Hc].
Defined.

(** Coroutine 1 is freed once it has finished. *)
Lemma co_free_spec_witness :
  ∃ w', co_free 65536 (at_ 26) = Ok (w', ()) ∧ inv None [] w'
    ∧ co_free 65536 w' = Err (BadDeref 65536).
Proof.
  assert (inv None [] (at_ 26)) as Hi by (apply inv_at; by vm_compute).
  pose proof (co_free_spec (at_ 26) None [] 65536 Hi) as Hc.
  assert (match co_free 65536 (at_ 26) with Ok _ => true | Err _ => false end = true)
    as Hok by by vm_compute.
  destruct (co_free 65536 (at_ 26)) as [[w' []]|e]; [|discriminate Hok].
  exists w'. destruct Hc as (_ & Hi' & Hf & _). exact (conj eq_refl (conj Hi' Hf)).
Defined.

Lemma observers_spec_witness :
  ∃ c, co_state 65536 (at_ 9) = Ok (at_ 9, c_state c)
    ∧ ∃ i, co_id (at_ 9) = Ok (at_ 9, i) ∧ i ≠ 0.
Proof.
  assert (inv (Some 65536) [327792] (at_ 9)) as Hi by (apply inv_at; by vm_compute).
  destruct (inv_cur _ _ _ Hi 65536 eq_refl) as [c Hc]. exists c.
  assert (match w_cpu (at_ 9) with FUser _ :: _ => true | _ => false end = true) as Hok
    by by vm_compute.
  destruct (w_cpu (at_ 9)) as [|[y| | | | | |] k] eqn:Hcpu; try discriminate Hok.
  destruct (observers_spec (at_ 9) (Some 65536) [327792] y k 65536 c Hi Hcpu Hc)
    as (Hst & i & Hid & _ & H0).
  split; [exact Hst|]. exists i. split; [exact Hid|]. intros Hz. by apply H0 in Hz.
Defined.

Lemma no_lost_coroutine_witness :
  ∃ c d, w_objs (at_ 16) !! 327792 = Some c ∧ c_state c = CO_WAITING
    ∧ w_objs (at_ 16) !! c_awaiting c = Some d ∧ c_state d ≠ CO_DONE.
Proof.
  assert (match w_objs (at_ 16) !! 327792 with
          | Some c => bool_decide (c_state c = CO_WAITING)
          | None => false end = true) as Hok by by vm_compute.
  destruct (w_objs (at_ 16) !! 327792) as [c|] eqn:Hc; [|discriminate Hok].
  apply bool_decide_eq_true in Hok.
  pose proof (no_lost_coroutine (H := bump_allocator) 16 (at_ 16) heap0 (ScriptMem [] [])
    prog 327792 c ltac:(apply (reach_from bodies prog 0 16); by vm_compute) Hc) as Hn.
  rewrite Hok in Hn. destruct Hn as (_ & d & Hd & Hnd). exists c, d.
  exact (conj eq_refl (conj Hok (conj Hd Hnd))).
Defined.
End object_witnesses.
