(* ===== verification/User.v ===== *)
(** * Invariants of the user program

    The library runs the bodies of several coroutines interleaved, but never
    touches the user's memory: a property of that memory that every stretch of
    code between two library calls preserves holds in every reachable state,
    whatever the schedule.  [CodeInv] is the obligation, one step of user code
    at a time; [user_invariant] is the theorem every program verified against
    this library uses. *)

From stdpp Require Import gmap.
From S2P Require Import Prelude Ring Machine State RunQueue Api Ops Invariant.
From S2P Require Import Preserve Create Spec Refine Safety Demo.

Section call_ok.
Context {L U : Type} `{UserCode L U}.

(** The control points a call may continue at satisfy [A]. *)
Definition call_ok (A : L → Prop) (c : ucall L) : Prop :=
  match c with
  | UReturn => True
  | UTau k | UYield k | UAwait _ k | UFree _ k | URun k => A k
  | UCreate fn arg _ k => (fn ≠ NULL → A (ufn fn arg)) ∧ ∀ p, A (k p)
  | UState _ k => ∀ s, A (k s)
  | UId k => ∀ i, A (k i)
  end.

(** Every step of user code preserves [P]; it leads from a control point
    whose assertion [A] holds to control points whose assertion holds, and
    breaks the assertion of no other suspended coroutine. *)
Class CodeInv (A : L → U → Prop) (P : U → Prop) : Prop := {
  ci_step l u : A l u → P u →
    P (ustep l u).2 ∧ call_ok (λ l', A l' (ustep l u).2) (ustep l u).1;
  ci_stable l l' u : A l u → P u → A l' u → A l' (ustep l u).2
}.
End call_ok.

Section user.
Context {L U : Type} `{Allocator, LinkMap, UserCode L U}.
Context (A : L → Prop) (P : U → Prop).
Implicit Types (w : world L U).

Definition frames_ok (k : stackL L) : Prop := ∀ x, FUser x ∈ k → A x.

(** What is known of a state besides its current stack. *)
Record kept w : Prop := {
  kp_user : P (w_user w);
  kp_ctxs r k : w_ctxs w !! r = Some (SFrames k) → frames_ok k;
  kp_objs p c : w_objs w !! p = Some c → c_fn c ≠ NULL → A (ufn (c_fn c) (c_arg c))
}.

(** [m] preserves it. *)
Definition pres {X} (m : M L U X) : Prop :=
  ∀ w w' x, kept w → m w = Ok (w', x) → kept w'.
(** [m] also leaves a good current stack. *)
Definition presk {X} (m : M L U X) : Prop :=
  ∀ w w' x, kept w → m w = Ok (w', x) → kept w' ∧ frames_ok (w_cpu w').

Lemma pres_ret {X} (x : X) : pres (mret x).
Proof. by intros w w' y Hw [= <- _]. Qed.
Lemma pres_gets {X} (f : world L U → X) : pres (se_gets f).
Proof. by intros w w' y Hw [= <- _]. Qed.
Lemma pres_assert b e : pres (se_assert b e).
Proof. intros w w' y Hw. unfold se_assert. destruct b; [by intros [= <- _]|done]. Qed.
Lemma pres_some {X} (o : option X) e : pres (se_some o e).
Proof. intros w w' y Hw. unfold se_some. destruct o; [by intros [= <- _]|done]. Qed.
Lemma pres_int_add e a b : pres (int_add e a b).
Proof. intros w w' y Hw. unfold int_add. case_match; [by intros [= <- _]|done]. Qed.
Lemma pres_modify (f : world L U → world L U) :
  (∀ w, kept w → kept (f w)) → pres (se_modify f).
Proof. intros Hf w w' y Hw [= <- _]. by apply Hf. Qed.
Lemma pres_bind {X Y} (m : M L U X) (f : X → M L U Y) :
  pres m → (∀ x, pres (f x)) → pres (m ≫= f).
Proof.
  intros Hm Hf w w' y Hw (w1 & x & Hm1 & Hm2)%se_bind_inv.
  eapply Hf; [|exact Hm2]. by eapply Hm.
Qed.
Lemma presk_bind {X Y} (m : M L U X) (f : X → M L U Y) :
  pres m → (∀ x, presk (f x)) → presk (m ≫= f).
Proof.
  intros Hm Hf w w' y Hw (w1 & x & Hm1 & Hm2)%se_bind_inv.
  eapply Hf; [|exact Hm2]. by eapply Hm.
Qed.
Lemma presk_fail {X} e : presk (se_fail (A := X) e).
Proof. by intros w w' y Hw. Qed.

(** Updates outside of what [kept] speaks about. *)
Lemma kept_ext w w' :
  w_user w' = w_user w → w_ctxs w' = w_ctxs w → w_objs w' = w_objs w →
  kept w → kept w'.
Proof. intros Hu Hc Ho []. split; by rewrite ?Hu, ?Hc, ?Ho. Qed.

Lemma pres_mod_S f : pres (mod_S f).
Proof. apply pres_modify. intros w. by apply kept_ext. Qed.
Lemma pres_alloc σ : pres (se_modify (set_alloc σ)).
Proof. apply pres_modify. intros w. by apply kept_ext. Qed.
Lemma pres_blocks f : pres (se_modify (λ w, set_blocks (f w) w)).
Proof. apply pres_modify. intros w. by apply kept_ext. Qed.
Lemma pres_words f : pres (se_modify (λ w, set_words (f w) w)).
Proof. apply pres_modify. intros w. by apply kept_ext. Qed.
End user.

Create HintDb pres discriminated.
#[export] Hint Resolve pres_ret pres_gets pres_assert pres_some pres_int_add
  pres_mod_S pres_alloc pres_blocks pres_words presk_fail : pres.
#[export] Hint Extern 2 (pres _ _ (mbind _ _)) => apply pres_bind : pres.
#[export] Hint Extern 2 (presk _ _ (mbind _ _)) => apply presk_bind : pres.
#[export] Hint Extern 3 (pres _ _ (if ?b then _ else _)) => destruct b eqn:? : pres.
#[export] Hint Extern 3 (presk _ _ (if ?b then _ else _)) => destruct b eqn:? : pres.

Section user_ops.
Context {L U : Type} `{Allocator, LinkMap, UserCode L U}.
Context (A : L → Prop) (P : U → Prop).
Implicit Types (w : world L U).
Local Abbreviation pres := (pres A P).
Local Abbreviation presk := (presk A P).
Local Abbreviation kept := (kept A P).

Lemma pres_deref p : pres (deref p).
Proof. unfold deref. auto 10 with pres. Qed.

Lemma pres_mod_co p f :
  (∀ c, c_fn (f c) ≠ NULL →
     A (ufn (c_fn (f c)) (c_arg (f c))) ∨ c_fn (f c) = c_fn c ∧ c_arg (f c) = c_arg c) →
  pres (mod_co p f).
Proof.
  intros Hf w w' x Hw (w1 & c & Hd & Hm)%se_bind_inv. revert Hm. intros [= <- _].
  unfold deref in Hd. apply se_bind_inv in Hd as (? & ? & [= <- <-] & Hd).
  unfold se_some in Hd. destruct (w_objs w !! p) as [d|] eqn:Hp; [|done].
  injection Hd as <- <-. destruct Hw as [Hu Hc Ho]. split; [done|done|]. cbn.
  intros q e Hq Hn. apply lookup_insert_Some in Hq as [[<- <-]|[_ Hq]]; [|eauto].
  destruct (Hf d Hn) as [|[Hfn Harg]]; [done|].
  rewrite Hfn, Harg. rewrite Hfn in Hn. eauto.
Qed.

Lemma pres_with_state p st : pres (mod_co p (with_state st)).
Proof. apply pres_mod_co. auto. Qed.
Lemma pres_with_awaiting p q : pres (mod_co p (with_awaiting q)).
Proof. apply pres_mod_co. auto. Qed.
Lemma pres_with_stack p q : pres (mod_co p (with_stack q)).
Proof. apply pres_mod_co. auto. Qed.

Lemma pres_malloc n : pres (malloc n).
Proof.
  unfold malloc. apply pres_bind; [auto with pres|]. intros w.
  destruct (alloc_block _ _ _) as [σ [p|]]; auto 10 with pres.
Qed.

Lemma pres_calloc : pres calloc_Coroutine.
Proof.
  unfold calloc_Coroutine. apply pres_bind; [apply pres_malloc|]. intros p.
  case_match; [auto with pres|]. apply pres_bind; [|auto with pres].
  apply pres_modify. intros w [Hu Hc Ho]. split; [done|done|]. cbn.
  intros q c Hq. apply lookup_insert_Some in Hq as [[<- <-]|[_ Hq]]; [done|eauto].
Qed.

Lemma pres_free p : pres (free p).
Proof.
  unfold free. case_match; [auto with pres|]. apply pres_bind; [auto with pres|].
  intros w. case_match; [|by intros ????].
  apply pres_modify. intros w' [Hu Hc Ho]. split; [done|..]; cbn.
  - intros r k [_ Hr]%lookup_delete_Some. eauto.
  - intros q c [_ Hq]%lookup_delete_Some. eauto.
Qed.

Lemma pres_q_push p : pres (q_push p).
Proof. unfold q_push, get_S. auto 20 with pres. Qed.
Lemma pres_q_pop : pres q_pop.
Proof. unfold q_pop, get_S, array_get. auto 20 with pres. Qed.

Lemma pres_wakeup_waiters p : pres (wakeup_waiters p).
Proof.
  unfold wakeup_waiters, get_S. apply pres_bind; [auto with pres|]. intros s.
  generalize 0 as i. induction (Z.to_nat (s_count s)) as [|n IH]; intros i; cbn.
  { auto with pres. }
  unfold get_S, array_get, wakeup_one.
  auto 20 using pres_deref, pres_with_state, pres_with_awaiting, pres_q_push with pres.
Qed.

Lemma pres_store_words stack ws : pres (store_words stack ws).
Proof.
  induction ws as [|[a v] ws IH]; cbn; [auto with pres|].
  apply pres_bind; [|auto]. unfold store_stack.
  apply pres_bind; [auto with pres|]. intros w.
  case_match; [|by intros ????]. case_match; [|by intros ????]. auto with pres.
Qed.

Lemma pres_co_create fn arg n :
  (fn ≠ NULL → A (ufn fn arg)) → pres (co_create fn arg n).
Proof.
  intros HA. unfold co_create, get_S.
  apply pres_bind; [auto with pres|]. intros _.
  apply pres_bind; [auto with pres|]. intros s.
  apply pres_bind; [auto with pres|]. intros _.
  apply pres_bind; [apply pres_calloc|]. intros p. case_match; [auto with pres|].
  apply pres_bind; [apply pres_malloc|]. intros stack.
  apply pres_bind; [apply pres_with_stack|]. intros _.
  case_match; [auto using pres_free with pres|].
  apply pres_bind; [auto with pres|]. intros s'.
  apply pres_bind; [auto with pres|]. intros id.
  apply pres_bind; [by apply pres_mod_co; cbn; auto|]. intros _.
  destruct (stack_image _ _ p) as [ctx ws].
  apply pres_bind; [apply pres_store_words|]. intros _.
  apply pres_bind; [|auto 20 using pres_q_push with pres].
  apply pres_modify. intros w [Hu Hc Ho]. split; [done| |done]. cbn.
  intros r k Hr. apply lookup_insert_Some in Hr as [[_ ?]|[_ Hr]]; [done|eauto].
Qed.

Lemma pres_co_free p : pres (co_free p).
Proof. unfold co_free. auto 10 using pres_deref, pres_free with pres. Qed.
Lemma pres_co_id : pres co_id.
Proof. unfold co_id, get_S. auto 10 using pres_deref with pres. Qed.
Lemma pres_co_state p : pres (co_state p).
Proof. unfold co_state. auto 10 using pres_deref with pres. Qed.

(** ** Control *)

Local Abbreviation frames_ok := (frames_ok A).

Lemma frames_ok_nil : frames_ok [].
Proof. by intros x ?%elem_of_nil. Qed.
Lemma frames_ok_user x k : A x → frames_ok k → frames_ok (FUser x :: k).
Proof. intros Hx Hk y [[= ->]|Hy]%elem_of_cons; [done|by apply Hk]. Qed.
Lemma frames_ok_other f k :
  match f with FUser _ => False | _ => True end → frames_ok k → frames_ok (f :: k).
Proof. intros Hf Hk y [<-|Hy]%elem_of_cons; [done|by apply Hk]. Qed.
Lemma frames_ok_tail f k : frames_ok (f :: k) → frames_ok k.
Proof. intros Hk y Hy. apply Hk. by right. Qed.

Lemma presk_set_stack k : frames_ok k → presk (set_stack k).
Proof. intros Hk w w' x Hw [= <- _]. split; [by apply (kept_ext _ _ w)|done]. Qed.

Lemma presk_switch from to k : frames_ok k → presk (co_ctx_switch from to k).
Proof.
  intros Hk w w' x [Hu Hc Ho]. unfold co_ctx_switch, parked_switch.
  destruct (<[from := SFrames k]> (w_ctxs w) !! to) as [sv|] eqn:Hto; [|done].
  assert (∀ r k', <[from := SFrames k]> (w_ctxs w) !! r = Some (SFrames k') →
    frames_ok k') as Hall.
  { intros r k' [[_ [= <-]]|[_ Hr]]%lookup_insert_Some; [done|eauto]. }
  destruct (resolve w sv) as [k'|e] eqn:Hr; [|done]. intros [= <- _].
  split; [split; [done| |done]|]; cbn.
  - intros r k1 [_ Hr1]%lookup_delete_Some. eauto.
  - destruct sv as [c|k1]; cbn in Hr.
    + repeat (case_match; [|done]). simplify_eq.
      apply frames_ok_other, frames_ok_nil. done.
    + simplify_eq. eauto.
Qed.

Hint Resolve presk_set_stack presk_switch pres_deref pres_with_state
  pres_with_awaiting pres_q_push pres_q_pop pres_wakeup_waiters pres_co_free
  pres_co_id pres_co_state frames_ok_user frames_ok_other frames_ok_nil : pres.

Lemma presk_co_entry p k : frames_ok k → presk (co_entry p k).
Proof.
  intros Hk w w' x Hw (w1 & c & Hd & Hm)%se_bind_inv.
  apply se_bind_inv in Hm as (w2 & [] & Ha & Hm). revert Hm. intros [= <- _].
  unfold deref in Hd. apply se_bind_inv in Hd as (? & ? & [= <- <-] & Hd).
  unfold se_some in Hd. destruct (w_objs w !! p) as [d|] eqn:Hp; [|done].
  injection Hd as <- <-. unfold se_assert in Ha.
  destruct (c_fn d =? NULL) eqn:Hn; [done|]. apply Z.eqb_neq in Hn.
  injection Ha as <-. split; [by apply (kept_ext _ _ w)|]. cbn.
  apply frames_ok_user; [by eapply (kp_objs _ _ _ Hw)|]. by apply frames_ok_other.
Qed.

Lemma presk_co_run_iter k : frames_ok k → presk (co_run_iter k).
Proof. intros Hk. unfold co_run_iter, resume. auto 30 with pres. Qed.

Lemma presk_user_call c k : call_ok A c → frames_ok k → presk (user_call c k).
Proof.
  intros Hc Hk. destruct c; cbn in Hc |- *.
  - auto with pres.
  - auto with pres.
  - unfold co_yield, get_S. auto 20 with pres.
  - unfold co_await, get_S. auto 30 with pres.
  - destruct Hc. apply presk_bind; [by apply pres_co_create|]. auto with pres.
  - auto 10 with pres.
  - auto 10 with pres.
  - auto 10 with pres.
  - auto 10 with pres.
Qed.

Lemma step_frame w f k w' :
  w_cpu w = f :: k → presk (run_frame f k) → kept w → step w = Stepped w' →
  kept w' ∧ frames_ok (w_cpu w').
Proof.
  intros Hcpu Hp Hw. unfold step. rewrite Hcpu.
  destruct (run_frame f k w) as [[w1 x]|e] eqn:Hrun; [|done].
  intros [= <-]. by eapply Hp.
Qed.

(** The library's own steps. *)
Lemma step_library w f k w' :
  w_cpu w = f :: k → match f with FUser _ => False | _ => True end →
  kept w → frames_ok (w_cpu w) → step w = Stepped w' →
  kept w' ∧ frames_ok (w_cpu w').
Proof.
  intros Hcpu Hnu Hw Hf Hs. rewrite Hcpu in Hf.
  destruct f as [y| | | | | |]; [done|..];
    apply frames_ok_tail in Hf; eapply step_frame; try done; cbn.
  - apply presk_set_stack. by apply frames_ok_other.
  - by apply presk_co_entry.
  - unfold co_entry_done.
    auto 20 using frames_ok_other with pres.
  - by apply presk_co_run_iter.
  - unfold resume_done. auto with pres.
Qed.
End user_ops.

Section user_invariant.
Context {L U : Type} `{Allocator, LinkMap, UserCode L U}.
Context (A : L → U → Prop) (P : U → Prop) `{HCI : !CodeInv A P}.
Implicit Types (w : world L U).

(** The memory is [u], and every assertion holds of it. *)
Definition holds_at (u : U) w : Prop :=
  P u ∧ kept (λ l, A l u) (eq u) w ∧ frames_ok (λ l, A l u) (w_cpu w).

Lemma frames_ok_impl (B C : L → Prop) k :
  (∀ x, B x → C x) → frames_ok B k → frames_ok C k.
Proof. intros Hi Hk x Hx. by apply Hi, Hk. Qed.

Lemma kept_impl (B C : L → Prop) (Q R : U → Prop) w :
  (∀ x, B x → C x) → R (w_user w) → kept B Q w → kept C R w.
Proof.
  intros Hi HR [Hu Hc Ho]. split; [done|..].
  - intros r k Hr. by eapply frames_ok_impl, Hc.
  - eauto.
Qed.

Lemma step_user_holds w y k w' u :
  w_cpu w = FUser y :: k → holds_at u w → step w = Stepped w' →
  ∃ u', holds_at u' w'.
Proof using HCI.
  intros Hcpu (HP & Hk & Hf). rewrite Hcpu in Hf.
  pose proof (kp_user _ _ _ Hk) as Hu0.
  destruct (ustep y (w_user w)) as [c u'] eqn:Hu. rewrite (step_user _ _ _ _ _ Hcpu Hu).
  assert (A y u) as Hy by (apply Hf; by left).
  destruct (ci_step y u Hy HP) as [HP' Hcall].
  pose proof (λ l', ci_stable y l' u Hy HP) as Hst.
  rewrite <- Hu0 in Hu. rewrite Hu in HP', Hcall, Hst. cbn in HP', Hcall, Hst.
  destruct (user_call c k (set_user u' w)) as [[w1 x]|e] eqn:Hc; [|done].
  intros [= <-]. exists u'. split; [done|].
  eapply (presk_user_call (λ l, A l u') (eq u') c k); [done| | |exact Hc].
  - eapply frames_ok_impl; [exact Hst|]. by eapply frames_ok_tail.
  - destruct (kept_impl _ _ _ (λ _, True) w Hst I Hk) as [_ Hkc Hko]. by split.
Qed.

Lemma step_holds w w' u :
  holds_at u w → step w = Stepped w' → ∃ u', holds_at u' w'.
Proof using HCI.
  intros Hh Hs. destruct (w_cpu w) as [|f k] eqn:Hcpu.
  { unfold step in Hs. by rewrite Hcpu in Hs. }
  destruct f as [y| | | | | |] eqn:Hfr; [by eapply step_user_holds|..];
    destruct Hh as (HP & Hk & Hf); exists u; (split; [exact HP|]);
    by eapply step_library.
Qed.

(** Rule induction over the run. *)
Lemma user_holds n w (σ : alloc_state) (u : U) (x : L) :
  A x u → P u → steps n (init_world σ u x) w →
  P (w_user w)
  ∧ ∀ r k l, w_ctxs w !! r = Some (SFrames k) → FUser l ∈ k → A l (w_user w).
Proof using HCI.
  intros Hx Hu Hs.
  assert (holds_at u (init_world σ u x)) as Hh.
  { split; [done|]. split; [split|]; cbn.
    - done.
    - by intros r k [_ ?]%lookup_singleton_Some.
    - by intros p c ?.
    - by apply frames_ok_user, frames_ok_nil. }
  clear Hx Hu.
  enough (∃ u', holds_at u' w) as (u' & HP & Hk & _).
  { rewrite <- (kp_user _ _ _ Hk). split; [done|].
    intros r k l Hr Hl. by eapply (kp_ctxs _ _ _ Hk). }
  revert Hh. generalize u at 1. induction Hs as [w|n w w1 w2 Hstep _ IH]; intros v Hh.
  - by exists v.
  - destruct (step_holds _ _ _ Hh Hstep) as (v' & Hv'). by eapply IH.
Qed.
End user_invariant.

Section user_theorem.
Context {L U : Type} `{Allocator, LinkMap, UserCode L U}.

(** C18: the library never interferes with the memory of the program that uses
    it.  If every stretch of user code between two calls preserves [P], leads
    to control points whose assertions hold, and disturbs no assertion of a
    suspended coroutine, then [P] holds in every reachable state, for every
    schedule the library can produce, as does the assertion of every
    suspended body. *)
Theorem user_invariant (A : L → U → Prop) (P : U → Prop) `{HCI : !CodeInv A P} n
    (w : world L U) (σ : alloc_state) (u : U) (x : L) :
  A x u → P u → steps n (init_world σ u x) w →
  P (w_user w)
  ∧ ∀ r k l, w_ctxs w !! r = Some (SFrames k) → FUser l ∈ k → A l (w_user w).
Proof. intros Hx Hu Hs. by apply (user_holds A P n w σ u x). Qed.
End user_theorem.

(** ** A program split into main and bodies

    The examples share a shape: a main that only makes library calls once its
    data is set up, and bodies that work on shared memory. *)

Section ucall_map.
Context {L L' : Type}.

Definition ucall_map (f : L → L') (c : ucall L) : ucall L' :=
  match c with
  | UReturn => UReturn
  | UTau k => UTau (f k)
  | UYield k => UYield (f k)
  | UAwait o k => UAwait o (f k)
  | UCreate fn arg n k => UCreate fn arg n (λ p, f (k p))
  | UFree p k => UFree p (f k)
  | UState p k => UState p (λ s, f (k s))
  | UId k => UId (λ i, f (k i))
  | URun k => URun (f k)
  end.
End ucall_map.

(** What a demo provides: its bodies, one stretch of code between two library
    calls at a time, and where each function starts. *)
Class Bodies (L U : Type) := {
  body_step : L → U → ucall L * U;
  body_fn : ptr → ptr → L
}.

(** The obligation for the bodies alone; [V] says with which arguments the
    functions may be started. *)
Definition body_ok {L U} `{Bodies L U} (A : L → Prop) (c : ucall L) : Prop :=
  match c with
  | UReturn => True
  | UTau k | UYield k | UAwait _ k | UFree _ k | URun k => A k
  | UCreate fn arg _ k => (fn ≠ NULL → A (body_fn fn arg)) ∧ ∀ p, A (k p)
  | UState _ k => ∀ s, A (k s)
  | UId k => ∀ i, A (k i)
  end.

Class BodyInv {L U} `{Bodies L U} (V : ptr → ptr → Prop) (A : L → U → Prop)
    (P : U → Prop) : Prop := {
  bi_step l u : A l u → P u →
    P (body_step l u).2 ∧ body_ok (λ l', A l' (body_step l u).2) (body_step l u).1;
  bi_stable l l' u : A l u → P u → A l' u → A l' (body_step l u).2;
  bi_fn fn arg u : V fn arg → P u → A (body_fn fn arg) u
}.

(** Assertions that say nothing of the memory are stable. *)
Lemma pure_body_inv {L U} `{Bodies L U} V (A : L → Prop) (P : U → Prop) :
  (∀ l u, A l → P u → P (body_step l u).2 ∧ body_ok A (body_step l u).1) →
  (∀ fn arg, V fn arg → A (body_fn fn arg)) →
  BodyInv V (λ l _, A l) P.
Proof. intros Hs Hf. split; auto. Qed.

(** From its points in [MA], main starts functions only with such arguments. *)
Definition starts_ok {MP} (V : ptr → ptr → Prop) (MA : MP → Prop)
    (main_step : MP → ucall MP) : Prop :=
  ∀ m, MA m →
    match main_step m with
    | UReturn => True
    | UTau k | UYield k | UAwait _ k | UFree _ k | URun k => MA k
    | UCreate fn arg _ k => V fn arg ∧ ∀ p, MA (k p)
    | UState _ k => ∀ s, MA (k s)
    | UId k => ∀ i, MA (k i)
    end.

Lemma starts_ok_any {MP} (main_step : MP → ucall MP) :
  starts_ok (λ _ _, True) (λ _, True) main_step.
Proof. intros m _. by case_match. Qed.

(** The main of the demos: it creates the coroutines of a list, runs them and
    returns. *)
Definition spawn_all (todo : option (list (ptr * ptr))) : ucall (option (list (ptr * ptr))) :=
  match todo with
  | Some ((fn, arg) :: l) => UCreate fn arg 0 (λ _, Some l)
  | Some [] => URun None
  | None => UReturn
  end.

Definition spawn_ok (V : ptr → ptr → Prop) (todo : option (list (ptr * ptr))) : Prop :=
  match todo with Some l => Forall (λ fa, V fa.1 fa.2) l | None => True end.

Lemma spawn_all_ok V : starts_ok V (spawn_ok V) spawn_all.
Proof.
  intros [[|[fn arg] l]|] Hl; cbn in *; try done.
  apply Forall_cons in Hl as [Hv Hl]. by split.
Qed.

Section with_main.
Context {MP L U : Type} `{Bodies L U}.
Variable main_step : MP → ucall MP.

Definition program : UserCode (MP + L) U := {|
  ustep x u := match x with
               | inl m => (ucall_map inl (main_step m), u)
               | inr l => let '(c, u') := body_step l u in (ucall_map inr c, u')
               end;
  ufn fn arg := inr (body_fn fn arg)
|}.

Definition in_program (MA : MP → Prop) (A : L → U → Prop) (x : MP + L) (u : U) : Prop :=
  match x with inl m => MA m | inr l => A l u end.

Lemma program_inv V MA (A : L → U → Prop) (P : U → Prop) `{!BodyInv V A P} :
  starts_ok V MA main_step → @CodeInv _ _ program (in_program MA A) P.
Proof.
  intros HV. split.
  - intros [m|l] u Hl Hu; cbn in *.
    + split; [done|]. specialize (HV m Hl). destruct (main_step m); cbn in *; try done.
      destruct HV. split; [|done]. intros _. by apply bi_fn.
    + destruct (bi_step l u Hl Hu) as [HP HA]. pose proof bi_fn as Hfn.
      destruct (body_step l u) as [c u']. cbn in *. split; [done|]. by destruct c.
  - intros [m|l] [m'|l'] u Hl Hu Hl'; cbn in *; try done.
    pose proof (bi_stable l l' u Hl Hu Hl') as Hst. by destruct (body_step l u).
Qed.

(** The memory of the program in every state it reaches, whatever main does
    with the library. *)
Lemma program_invariant `{Allocator, LinkMap} V MA (A : L → U → Prop) (P : U → Prop)
    `{!BodyInv V A P} n (w : world (MP + L) U) (σ : alloc_state) (u : U) (m : MP) :
  starts_ok V MA main_step → MA m → P u →
  @steps _ _ _ _ program n (init_world σ u (inl m)) w → P (w_user w).
Proof.
  intros HV Hm Hu Hs. pose proof (program_inv V MA A P HV) as Hci.
  by apply (user_holds (H1 := program) (in_program MA A) P n w σ u (inl m)).
Qed.
End with_main.

(** ** Executing a demo *)

Section go.
Context {L U : Type} `{Allocator, LinkMap, UserCode L U}.
Implicit Types w : world L U.

(** The state after [n] transitions. *)
Fixpoint go (n : nat) w : option (world L U) :=
  match n with
  | O => Some w
  | S n => match step w with Stepped w' => go n w' | _ => None end
  end.

Definition went (n : nat) w : bool := match go n w with Some _ => true | None => false end.

Lemma go_steps n w : went n w = true → steps n w (default w (go n w)).
Proof.
  unfold went. revert w. induction n as [|n IH]; intros w; cbn; [constructor|].
  destruct (step w) as [|w'|e] eqn:Hs; try done. intros Hg. econstructor; [done|].
  specialize (IH w' Hg). by destruct (go n w').
Qed.
End go.

(** ** A concrete program *)

Module UserDemo.
#[local] Existing Instance MachineDemo.link.

(** Scripts that print no negative number. *)
Definition cmd_ok (c : cmd) : bool :=
  match c with Emit z => 0 <=? z | Self => false | _ => true end.
Definition bodies : list (list cmd) := [[Emit 1; Yield; Emit 2]; [Emit 3; Await 0; Emit 4]].
Definition main : list cmd := [Create 1 0; Create 2 0; Run; State 0; State 1].
#[local] Instance code : UserCode (list cmd) script_mem := script_code bodies.

Definition prints_ok (u : script_mem) : Prop := Forall (λ z, 0 ≤ z) (output u).

#[local] Instance script_inv : CodeInv (λ l (_ : script_mem), forallb cmd_ok l) prints_ok.
Proof.
  split; [|done]. intros l u Hl Hu. destruct l as [|c l]; [done|].
  apply andb_prop_elim in Hl as [Hc Hl].
  destruct c; cbn in *; try (by split); try (split; [done|]; by intros []).
  - split; [done|]. split; [intros _|done].
    destruct (Z.to_nat (fn - 1)) as [|[|[]]]; done.
  - split; [|done]. apply Forall_app. split; [done|].
    apply Forall_singleton. by apply Is_true_true, Z.leb_le in Hc.
Qed.

Lemma user_invariant_witness :
  prints_ok (w_user (default (start main) (go 30 (start main))))
  ∧ output (w_user (default (start main) (go 30 (start main)))) = [1; 3; 2; 4; 3].
Proof.
  split; [|by vm_compute].
  apply (user_invariant (H := bump_allocator) (λ l _, forallb cmd_ok l) prints_ok 30 _ heap0
    (ScriptMem [] []) main); [done|by constructor|].
  apply (go_steps 30 (start main)). by vm_compute.
Defined.
End UserDemo.
