(* ===== verification/Threads.v ===== *)
(** * The library as interleaved threads

    What a program may rely on, without stacks, contexts or the heap: a pool of
    threads, main and one per unfinished coroutine, each at a control point of
    its code.  A transition of the pool runs one thread up to its next library
    call; which one is left open.  [step_moves]: every transition of the
    library is one of the pool, or only moves control inside the library, and
    then [rank] decreases; a fault of the library is a fault of the pool. *)

From stdpp Require Import gmap relations.
From S2P Require Import Prelude Ring Machine State RunQueue Api Ops Invariant.
From S2P Require Import Preserve Create Spec Refine Safety.

(** ** Pools *)

(** A thread: about to execute the code at [x]; blocked in [co_await], to
    continue at [x]; inside [co_run] (main only); or past its last statement. *)
Inductive thread (L : Type) : Type :=
| At (x : L)
| Awaiting (o : ptr) (x : L)
| InRun (x : L)
| Exiting.
Arguments At {L} x.
Arguments Awaiting {L} o x.
Arguments InRun {L} x.
Arguments Exiting {L}.

(** Main is the thread [None]; [p_dead] are the finished coroutines that have
    not been freed, [p_reg] all those ever created, in order. *)
Record pool (L U : Type) := Pool {
  p_threads : gmap (option ptr) (thread L);
  p_dead : gset ptr;
  p_reg : list ptr;
  p_mem : U
}.
Arguments Pool {L U} _ _ _ _.
Arguments p_threads {L U} _.
Arguments p_dead {L U} _.
Arguments p_reg {L U} _.
Arguments p_mem {L U} _.

(** Whether [malloc] may refuse a request of the run at hand. *)
Class Refusal := may_refuse : Prop.

Section pool.
Context {L U : Type} `{Refusal, UserCode L U}.
Implicit Types (P : pool L U) (t : option ptr) (th : thread L).

Definition live P (q : ptr) : Prop := is_Some (p_threads P !! Some q) ∨ q ∈ p_dead P.

Definition awaits_thread th : Prop := ∃ o x, th = Awaiting o x.

(** A thread when [p] finishes. *)
Definition wake_thread (p : ptr) th : thread L :=
  match th with
  | Awaiting o x => if decide (o = p) then At x else th
  | _ => th
  end.

(** Thread [t] goes on as [th], the memory being [u]. *)
Definition goes P t th (u : U) : pool L U :=
  Pool (<[t := th]> (p_threads P)) (p_dead P) (p_reg P) u.

(** [call_step P t u c P']: thread [t] of [P] makes the call [c]. *)
Inductive call_step P t (u : U) : ucall L → pool L U → Prop :=
| ct_return_main : t = None →
    call_step P t u UReturn (Pool (delete t (p_threads P)) (p_dead P) (p_reg P) u)
| ct_return : t ≠ None → call_step P t u UReturn (goes P t Exiting u)
| ct_tau z : call_step P t u (UTau z) (goes P t (At z) u)
| ct_yield z : t ≠ None → call_step P t u (UYield z) (goes P t (At z) u)
| ct_await_done o z : o ∈ p_dead P → call_step P t u (UAwait o z) (goes P t (At z) u)
| ct_await o z : t ≠ None → is_Some (p_threads P !! Some o) →
    call_step P t u (UAwait o z) (goes P t (Awaiting o z) u)
| ct_create_null fn arg n f : fn ≠ NULL → may_refuse →
    call_step P t u (UCreate fn arg n f) (goes P t (At (f NULL)) u)
| ct_create fn arg n f p : fn ≠ NULL → p ≠ NULL → ¬ live P p →
    Z.of_nat (length (p_reg P)) < MAX_COROUTINES →
    call_step P t u (UCreate fn arg n f)
      (Pool (<[Some p := At (ufn fn arg)]> (<[t := At (f p)]> (p_threads P)))
         (p_dead P) (p_reg P ++ [p]) u)
| ct_free q z : q ∈ p_dead P →
    call_step P t u (UFree q z)
      (Pool (<[t := At z]> (p_threads P)) (p_dead P ∖ {[q]}) (p_reg P) u)
| ct_state q f s : live P q →
    (s = CO_DONE ↔ q ∈ p_dead P) → (s = CO_RUNNING ↔ t = Some q) →
    call_step P t u (UState q f) (goes P t (At (f s)) u)
| ct_id f i :
    match t with
    | None => i = 0
    | Some p => 1 ≤ i ∧ zlookup (p_reg P) (i - 1) = Some p
    end →
    call_step P t u (UId f) (goes P t (At (f i)) u)
| ct_run z : t = None → call_step P t u (URun z) (goes P t (InRun z) u).

(** Coroutines run while main is inside [co_run]; [co_run] returns when none
    of them can go on. *)
Inductive pool_step P : pool L U → Prop :=
| ps_call t y c u P' :
    p_threads P !! t = Some (At y) → ustep y (p_mem P) = (c, u) →
    (t ≠ None → ∃ x, p_threads P !! None = Some (InRun x)) →
    call_step P t u c P' → pool_step P P'
| ps_exit p x : p_threads P !! Some p = Some Exiting →
    p_threads P !! None = Some (InRun x) → Forall (live P) (p_reg P) →
    pool_step P (Pool (wake_thread p <$> delete (Some p) (p_threads P))
                   ({[p]} ∪ p_dead P) (p_reg P) (p_mem P))
| ps_run_returns x : p_threads P !! None = Some (InRun x) →
    (∀ p th, p_threads P !! Some p = Some th → awaits_thread th) →
    pool_step P (goes P None (At x) (p_mem P)).

(** How a pool stops: the call that is refused, or a freed coroutine that the
    scan at the end of another one meets. *)
Inductive call_fault P t : ucall L → error → Prop :=
| cf_fn_null arg n f : call_fault P t (UCreate NULL arg n f) AssertFnNull
| cf_too_many fn arg n f : Z.of_nat (length (p_reg P)) = MAX_COROUTINES →
    call_fault P t (UCreate fn arg n f) AssertTooMany
| cf_small_stack fn arg n f a : 0 < wrap64 n < 16 →
    call_fault P t (UCreate fn arg n f) (BadStore a)
| cf_free_null z : call_fault P t (UFree NULL z) AssertFreeNull
| cf_free_live p z : is_Some (p_threads P !! Some p) →
    call_fault P t (UFree p z) AssertFreeNotDone
| cf_free_dead p z : ¬ live P p → call_fault P t (UFree p z) (BadDeref p)
| cf_state_null f : call_fault P t (UState NULL f) AssertStateNull
| cf_state_dead p f : ¬ live P p → call_fault P t (UState p f) (BadDeref p)
| cf_await_null z : call_fault P t (UAwait NULL z) AssertAwaitNull
| cf_await_dead p z : ¬ live P p → call_fault P t (UAwait p z) (BadDeref p)
| cf_yield_outside z : t = None → call_fault P t (UYield z) AssertYieldOutside
| cf_await_outside p z : t = None → is_Some (p_threads P !! Some p) →
    call_fault P t (UAwait p z) AssertAwaitOutside.

Inductive pool_fault P : error → Prop :=
| pf_call t y c u e : p_threads P !! t = Some (At y) → ustep y (p_mem P) = (c, u) →
    (t ≠ None → ∃ x, p_threads P !! None = Some (InRun x)) →
    call_fault P t c e → pool_fault P e
| pf_scan p x q : p_threads P !! Some p = Some Exiting →
    p_threads P !! None = Some (InRun x) → q ∈ p_reg P → ¬ live P q →
    pool_fault P (BadDeref q).

(** ** The scheduler of a pool *)

(** The thread that runs and the READY coroutines, in order. *)
Record config := Config { f_cur : option ptr; f_queue : list ptr; f_pool : pool L U }.

(** After the call [c] of thread [t], which takes the pool to [P']. *)
Inductive queue_step P t (l : list ptr) : ucall L → pool L U → option ptr → list ptr → Prop :=
| qs_yield p z P' : t = Some p → queue_step P t l (UYield z) P' None (l ++ [p])
| qs_block p o z z' P' : t = Some p → p_threads P' !! t = Some (Awaiting o z') →
    queue_step P t l (UAwait o z) P' None l
| qs_new fn arg n f p P' : p_reg P' = p_reg P ++ [p] →
    queue_step P t l (UCreate fn arg n f) P' t (l ++ [p])
| qs_same c P' :
    match c with
    | UYield _ => False
    | UAwait o _ => o ∈ p_dead P
    | UCreate _ _ _ _ => p_reg P' = p_reg P
    | _ => True
    end →
    queue_step P t l c P' t l.

(** The library's own transitions: when no thread runs, [co_run] resumes the
    head of the queue. *)
Inductive fifo_inner : config → config → Prop :=
| ff_inner C : fifo_inner C C
| ff_dispatch p l P x y :
    p_threads P !! None = Some (InRun x) → p_threads P !! Some p = Some (At y) →
    fifo_inner (Config None (p :: l) P) (Config (Some p) l P).

(** The thread that runs makes its next call, or ends; [co_run] returns when
    the queue is empty. *)
Inductive fifo_act : config → config → Prop :=
| ff_call t l P y c u P' t' l' :
    p_threads P !! t = Some (At y) → ustep y (p_mem P) = (c, u) →
    (t ≠ None → ∃ x, p_threads P !! None = Some (InRun x)) →
    call_step P t u c P' → queue_step P t l c P' t' l' →
    fifo_act (Config t l P) (Config t' l' P')
| ff_exit p l P x ws : p_threads P !! Some p = Some Exiting →
    p_threads P !! None = Some (InRun x) → Forall (live P) (p_reg P) →
    NoDup ws → ws `sublist_of` p_reg P →
    (∀ r, r ∈ ws ↔ ∃ z, p_threads P !! Some r = Some (Awaiting p z)) →
    fifo_act (Config (Some p) l P)
      (Config None (l ++ ws) (Pool (wake_thread p <$> delete (Some p) (p_threads P))
                                ({[p]} ∪ p_dead P) (p_reg P) (p_mem P)))
| ff_run_returns P x : p_threads P !! None = Some (InRun x) →
    (∀ p th, p_threads P !! Some p = Some th → awaits_thread th) →
    fifo_act (Config None [] P) (Config None [] (goes P None (At x) (p_mem P))).

(** First in, first out. *)
Definition fifo_step C C' : Prop := fifo_inner C C' ∨ fifo_act C C'.

(** The order of the queue forgotten. *)
Lemma fifo_inner_pool C C' : fifo_inner C C' → f_pool C' = f_pool C.
Proof. by intros []. Qed.

Lemma fifo_act_pool C C' : fifo_act C C' → pool_step (f_pool C) (f_pool C').
Proof.
  intros [ |p l P x ws ? ? ? _ _ _| ]; cbn; [by eapply ps_call|by eapply ps_exit|by apply ps_run_returns].
Qed.

Lemma fifo_pools C C' : rtc fifo_step C C' → rtc pool_step (f_pool C) (f_pool C').
Proof.
  induction 1 as [|C C1 C2 Hs _ IH]; [done|].
  destruct Hs as [He%fifo_inner_pool|He%fifo_act_pool]; [by rewrite <- He|by eapply rtc_l].
Qed.

(** The pool when main starts. *)
Definition init_pool (u : U) (x : L) : pool L U := Pool {[ None := At x ]} ∅ [] u.
End pool.

(** ** The pool of a state *)

Section view.
Context {L U : Type} `{Allocator, LinkMap, UserCode L U}.
Implicit Types (w : world L U) (cur : option ptr) (l : list ptr) (P : pool L U).

(** [malloc] refuses the creation that the program asks for in [w]. *)
Definition refused w : bool :=
  match w_cpu w with
  | FUser y :: _ =>
      match (ustep y (w_user w)).1 with
      | UCreate _ _ n _ => create_refused w (wrap64 n)
      | _ => false
      end
  | _ => false
  end.

(** It refuses one in the run from [w]. *)
Definition refused_in w : Prop := ∃ n w', steps n w w' ∧ refused w' = true.

Lemma refused_later w w' : step w = Stepped w' → refused_in w' → refused_in w.
Proof.
  intros Hs (n & w1 & Hn & Hr). exists (S n), w1. split; [|done]. by eapply steps_step.
Qed.

(** Decided by executing a run to its end. *)
Fixpoint refuses (fuel : nat) w : bool :=
  refused w ||
  match step w, fuel with
  | Stepped w', S fuel => refuses fuel w'
  | Stepped _, O => true
  | _, _ => false
  end.

Lemma refuses_spec fuel w : refuses fuel w = false → ¬ refused_in w.
Proof.
  revert w. induction fuel as [|fuel IH]; intros w Hf (n & w' & Hn & Hr); cbn in Hf;
    apply orb_false_iff in Hf as [Hw Hf]; destruct Hn as [w|n w w1 w' Hs Hn];
    try (rewrite Hs in Hf); try congruence.
  apply (IH w1 Hf). by exists n, w'.
Qed.

(** Where a suspended stack continues. *)
Definition saved_point (sv : option (saved L)) (c : Coroutine) : option L :=
  match sv with
  | Some (SFrames (FUser x :: _)) => Some x
  | Some (SFresh _) => Some (ufn (c_fn c) (c_arg c))
  | _ => None
  end.

(** The thread of the stack being executed. *)
Definition stack_thread (k : stackL L) (c : Coroutine) : thread L :=
  match k with
  | FUser x :: _ => At x
  | FTrampoline _ :: _ | FEntry _ :: _ => At (ufn (c_fn c) (c_arg c))
  | _ => Exiting
  end.

Definition co_thread w (p : ptr) (c : Coroutine) : option (thread L) :=
  match c_state c with
  | CO_READY => At <$> saved_point (w_ctxs w !! CoCtx p) c
  | CO_RUNNING => Some (stack_thread (w_cpu w) c)
  | CO_WAITING => Awaiting (c_awaiting c) <$> saved_point (w_ctxs w !! CoCtx p) c
  | CO_DONE => None
  end.

Definition main_stack_thread (k : stackL L) : option (thread L) :=
  match k with
  | FUser x :: _ => Some (At x)
  | FRun :: FUser x :: _ => Some (InRun x)
  | _ => None
  end.

Definition main_thread w : option (thread L) :=
  if s_running (w_S w) =? NULL then main_stack_thread (w_cpu w)
  else
    match w_cpu w, w_ctxs w !! MainCtx with
    | FResume :: k, _ | _, Some (SFrames (FResume :: k)) => main_stack_thread k
    | _, _ => None
    end.

Definition thread_at w (t : option ptr) : option (thread L) :=
  match t with
  | None => main_thread w
  | Some p => c ← w_objs w !! p; co_thread w p c
  end.

(** [P] is the pool of [w]. *)
Record viewed w P : Prop := {
  vw_threads t : p_threads P !! t = thread_at w t;
  vw_dead p : p ∈ p_dead P ↔ ∃ c, w_objs w !! p = Some c ∧ c_state c = CO_DONE;
  vw_reg : p_reg P = registry (w_S w);
  vw_mem : p_mem P = w_user w
}.

(** The library's own transitions left before user code runs or the pool
    changes. *)
Definition rank w : nat :=
  match w_cpu w with
  | FResume :: _ => 4
  | FRun :: _ => 3
  | FTrampoline _ :: _ => 2
  | FEntry _ :: _ => 1
  | _ => 0
  end.
End view.

Section view_facts.
Context {L U : Type} `{Allocator, LinkMap, UserCode L U}.
Implicit Types (w : world L U) (cur : option ptr) (l : list ptr) (P : pool L U).

Definition done_at w (p : ptr) : Prop := ∃ c, w_objs w !! p = Some c ∧ c_state c = CO_DONE.

Lemma resumable_point w p c :
  resumable (w_words w) (w_ctxs w) p c → is_Some (saved_point (w_ctxs w !! CoCtx p) c).
Proof. intros [[x ->]|(a & -> & _)]; cbn; eauto. Qed.

Lemma co_thread_live w cur l p c :
  inv cur l w → w_objs w !! p = Some c → c_state c ≠ CO_DONE → is_Some (co_thread w p c).
Proof.
  intros Hi Hp Hd. pose proof (inv_co _ _ _ Hi _ _ Hp) as Hok. unfold co_thread.
  destruct (c_state c) eqn:Hst; [|eauto| |done]; apply fmap_is_Some, resumable_point, Hok; auto.
Qed.

Lemma live_view w cur l P q :
  inv cur l w → viewed w P → live P q ↔ is_Some (w_objs w !! q).
Proof.
  intros Hi Hv. unfold live. rewrite (vw_threads _ _ Hv), (vw_dead _ _ Hv). cbn. split.
  - intros [Ht|(c & -> & _)]; [|eauto]. destruct (w_objs w !! q); [eauto|].
    by apply is_Some_None in Ht.
  - intros [c Hc]. rewrite Hc. cbn. destruct (decide (c_state c = CO_DONE)) as [Hd|Hd].
    + right. eauto.
    + left. by eapply co_thread_live.
Qed.

Lemma dead_view w P q c : viewed w P → w_objs w !! q = Some c → q ∈ p_dead P ↔ c_state c = CO_DONE.
Proof.
  intros Hv Hc. rewrite (vw_dead _ _ Hv). split; [|eauto].
  intros (d & Hd & Hs). by simplify_eq.
Qed.

(** A coroutine that is not running, and whose object and context stay. *)
Lemma co_thread_frame w w' cur l q :
  inv cur l w → cur ≠ Some q → w_objs w' !! q = w_objs w !! q →
  (is_Some (w_objs w !! q) → w_ctxs w' !! CoCtx q = w_ctxs w !! CoCtx q) →
  thread_at w' (Some q) = thread_at w (Some q).
Proof.
  intros Hi Hq Ho Hx. cbn. rewrite Ho. destruct (w_objs w !! q) as [c|] eqn:Hc; [|done].
  cbn. unfold co_thread. rewrite Hx by eauto.
  destruct (c_state c) eqn:Hst; try done.
  by apply (k_run _ _ _ _ _ _ _ _ (inv_co _ _ _ Hi _ _ Hc)) in Hst.
Qed.

(** The thread being executed. *)
Lemma cur_user w cur l y k :
  inv cur l w → w_cpu w = FUser y :: k → thread_at w cur = Some (At y).
Proof.
  intros Hi Hcpu. destruct cur as [p|].
  - destruct (running_view _ _ _ Hi) as (c & x & Hc & Hst & _).
    cbn. rewrite Hc. cbn. unfold co_thread. by rewrite Hst, Hcpu.
  - destruct (inv_main_running _ _ _ _ Hi Hcpu) as [Hr _]. cbn. unfold main_thread.
    by rewrite Hr, Hcpu.
Qed.

(** While a coroutine is executed, main is inside [co_run]. *)
Lemma main_in_run w p l x :
  inv (Some p) l w → w_ctxs w !! MainCtx = Some (SFrames (loop_stack x)) →
  thread_at w None = Some (InRun x).
Proof.
  intros Hi Hm. destruct (running_view _ _ _ Hi) as (c & x' & _ & _ & Hr & Hp & Hk & _).
  cbn. unfold main_thread. rewrite Hr, (proj2 (Z.eqb_neq _ _)) by done. rewrite Hm.
  by inversion Hk.
Qed.

Lemma cur_main w cur l :
  inv cur l w → cur ≠ None → ∃ x, thread_at w None = Some (InRun x).
Proof.
  intros Hi Hc. destruct cur as [p|]; [|done].
  destruct (running_view _ _ _ Hi) as (c & x & _ & _ & _ & _ & _ & Hm).
  exists x. by eapply main_in_run.
Qed.

(** A transition after which thread [t] is [th], the others as before. *)
Lemma viewed_goes w w' P t th :
  viewed w P →
  (∀ t', thread_at w' t' = if decide (t' = t) then Some th else thread_at w t') →
  (∀ q, done_at w' q ↔ done_at w q) → registry (w_S w') = registry (w_S w) →
  viewed w' (goes P t th (w_user w')).
Proof.
  intros Hv Ht Hd Hr. split; cbn.
  - intros t'. rewrite Ht, lookup_insert. rewrite (vw_threads _ _ Hv).
    repeat case_decide; congruence.
  - intros q. rewrite (vw_dead _ _ Hv). symmetry. apply Hd.
  - by rewrite Hr, (vw_reg _ _ Hv).
  - done.
Qed.

(** The caller continues at [z]; coroutines other than it are as before. *)
Lemma continue_threads w w' cur l y z k :
  inv cur l w → w_cpu w = FUser y :: k → w_cpu w' = FUser z :: k →
  s_running (w_S w') = s_running (w_S w) → w_ctxs w' !! MainCtx = w_ctxs w !! MainCtx →
  (∀ p, cur = Some p → w_objs w' !! p = w_objs w !! p) →
  thread_at w' cur = Some (At z) ∧ (cur ≠ None → thread_at w' None = thread_at w None).
Proof.
  intros Hi Hcpu Hcpu' Hr Hm Ho. split.
  - destruct cur as [p|].
    + destruct (running_view _ _ _ Hi) as (c & x & Hc & Hst & _).
      cbn. rewrite (Ho p eq_refl), Hc. cbn. unfold co_thread. by rewrite Hst, Hcpu'.
    + destruct (inv_main_running _ _ _ _ Hi Hcpu) as [Hr0 _]. cbn. unfold main_thread.
      by rewrite Hr, Hr0, Hcpu'.
  - intros Hc. destruct cur as [p|]; [|done].
    destruct (running_view _ _ _ Hi) as (c & x & _ & _ & Hr0 & Hp & _).
    cbn. unfold main_thread.
    by rewrite Hr, Hr0, (proj2 (Z.eqb_neq _ _)), Hm, Hcpu, Hcpu' by done.
Qed.

Lemma continue_viewed w w' P cur l y z k :
  inv cur l w → viewed w P → w_cpu w = FUser y :: k → w_cpu w' = FUser z :: k →
  w_S w' = w_S w → w_objs w' = w_objs w → ctxs_kept w w' →
  w_ctxs w' !! MainCtx = w_ctxs w !! MainCtx →
  viewed w' (goes P cur (At z) (w_user w')).
Proof.
  intros Hi Hv Hcpu Hcpu' HS Ho Hx Hm.
  destruct (continue_threads _ w' _ _ _ z _ Hi Hcpu Hcpu') as [Hc Hmain];
    [by rewrite HS|done|by rewrite Ho|].
  apply (viewed_goes w); [done| | |by rewrite HS].
  - intros t. destruct (decide (t = cur)) as [->|Ht]; [done|].
    destruct t as [q|]; [|apply Hmain; by intros ->].
    apply (co_thread_frame w w' cur l); [done|congruence|by rewrite Ho|apply Hx].
  - intros q. unfold done_at. by rewrite Ho.
Qed.
End view_facts.

Section steps.
Context {L U : Type} `{Refusal, Allocator, LinkMap, UserCode L U}.
Implicit Types (w : world L U) (cur : option ptr) (l : list ptr) (P : pool L U).

(** The pool after the transition to [w'], and its scheduler. *)
Definition moves cur l w P w' : Prop :=
  ∃ P' cur' l', viewed w' P' ∧ inv cur' l' w'
    ∧ (fifo_inner (Config cur l P) (Config cur' l' P') ∧ (rank w' < rank w)%nat
       ∨ fifo_act (Config cur l P) (Config cur' l' P')).

Lemma moves_fifo cur l w P w' P' cur' l' :
  viewed w' P' → inv cur' l' w' → fifo_act (Config cur l P) (Config cur' l' P') →
  moves cur l w P w'.
Proof. intros. exists P', cur', l'. auto. Qed.

(** ** Calls of user code *)

Section calls.
Variables (w : world L U) (cur : option ptr) (l : list ptr) (P : pool L U).
Variables (y : L) (k : stackL L) (c : ucall L) (u : U).
Hypotheses (Hi : inv cur l w) (Hv : viewed w P).
Hypotheses (Hcpu : w_cpu w = FUser y :: k) (Hu : ustep y (w_user w) = (c, u)).

(** The call [c] of the current thread takes the pool to [P']. *)
Lemma moves_call w' P' cur' l' :
  viewed w' P' → call_step P cur u c P' → inv cur' l' w' → queue_step P cur l c P' cur' l' →
  moves cur l w P w'.
Proof using Hi Hv Hcpu Hu.
  intros Hv' Hc Hi' Hq.
  assert (p_threads P !! cur = Some (At y)) as Ht.
  { rewrite (vw_threads _ _ Hv). by eapply cur_user. }
  assert (ustep y (p_mem P) = (c, u)) as Hm by (by rewrite (vw_mem _ _ Hv)).
  assert (cur ≠ None → ∃ x, p_threads P !! None = Some (InRun x)) as Hne.
  { intros Hne. rewrite (vw_threads _ _ Hv). by eapply cur_main. }
  eapply moves_fifo; [done|done|]. by eapply ff_call.
Qed.

(** A call that changes no coroutine and returns to its caller. *)
Lemma moves_continue w1 z :
  w_S w1 = w_S w → w_objs w1 = w_objs w → ctxs_kept w w1 →
  w_ctxs w1 !! MainCtx = w_ctxs w !! MainCtx → w_user w1 = u →
  inv cur l w1 → w_cpu w1 = FUser y :: k →
  call_step P cur u c (goes P cur (At z) u) →
  match c with
  | UYield _ => False
  | UAwait o _ => o ∈ p_dead P
  | _ => True
  end →
  moves cur l w P (set_cpu (FUser z :: k) w1).
Proof using Hi Hv Hcpu Hu.
  intros HS Ho Hx Hm Hu1 Hi1 Hcpu1 Hc Hq. eapply moves_call; [|exact Hc|by apply (inv_continue w w1 cur l y)|].
  2: { apply qs_same. by destruct c. }
  rewrite <- Hu1. by apply (continue_viewed w (set_cpu (FUser z :: k) w1) P cur l y z k).
Qed.

Lemma user_stepped w' :
  step w = Stepped w' → ∃ x, user_call c k (set_user u w) = Ok (w', x).
Proof using Hcpu Hu.
  rewrite (step_user _ _ _ _ _ Hcpu Hu).
  destruct (user_call c k (set_user u w)) as [[w1 x]|]; [|done]. intros [= <-]. eauto.
Qed.


End calls.

Lemma moves_return w cur l P y k u :
  inv cur l w → viewed w P → w_cpu w = FUser y :: k → ustep y (w_user w) = (UReturn, u) →
  moves cur l w P (set_cpu k (set_user u w)).
Proof.
  intros Hi Hv Hcpu Hu.
  assert (inv cur l (set_cpu k (set_user u w))) as Hi'.
  { apply inv_set_cpu; [done|]. eapply control_return. rewrite <- Hcpu. apply Hi. }
  destruct cur as [p|].
  - destruct (running_view _ _ _ Hi) as (d & x & Hd & Hst & Hr & Hp & Hk & Hm).
    rewrite Hcpu in Hk. apply co_stack_user in Hk as ->.
    eapply moves_call; [done..| |by apply ct_return|exact Hi'|by apply qs_same].
    change u with (w_user (set_cpu [FEntryRet p] (set_user u w))).
    apply (viewed_goes w); [done| |done|done]. intros t.
    destruct (decide (t = Some p)) as [->|Ht].
    + cbn. rewrite Hd. cbn. unfold co_thread. by rewrite Hst.
    + destruct t as [q|].
      * by apply (co_thread_frame w _ (Some p) l); [|congruence|..].
      * cbn. unfold main_thread. cbn.
        by rewrite Hr, (proj2 (Z.eqb_neq _ _)), Hm, Hcpu by done.
  - destruct (inv_main_running _ _ _ _ Hi Hcpu) as [Hr ->].
    eapply moves_call; [done..| |by apply ct_return_main|exact Hi'|by apply qs_same].
    split; cbn; [|apply Hv..|done]. intros t.
    destruct (decide (t = None)) as [->|Ht].
    + rewrite lookup_delete_eq. cbn. unfold main_thread. cbn. by rewrite Hr.
    + rewrite lookup_delete_ne, (vw_threads _ _ Hv) by done.
      destruct t as [q|]; [|done]. symmetry. by apply (co_thread_frame w _ None l).
Qed.

Lemma moves_run w cur l P y k u z :
  inv cur l w → viewed w P → w_cpu w = FUser y :: k → ustep y (w_user w) = (URun z, u) →
  nested_run w = false → moves cur l w P (set_cpu (FRun :: FUser z :: k) (set_user u w)).
Proof.
  intros Hi Hv Hcpu Hu Hn. unfold nested_run in Hn. rewrite Hcpu, Hu in Hn. cbn in Hn.
  apply negb_false_iff, Z.eqb_eq in Hn. pose proof (inv_control _ _ _ Hi) as Hctl.
  rewrite Hcpu in Hctl. pose proof (control_cur_none _ _ _ _ _ Hctl Hn) as ->.
  destruct (inv_main_running _ _ _ _ Hi Hcpu) as [Hr ->].
  assert (inv None l (set_cpu [FRun; FUser z] (set_user u w))) as Hi'.
  { apply inv_set_cpu; [done|]. rewrite Hr. constructor. }
  eapply moves_call; [done..| |by apply ct_run|exact Hi'|by apply qs_same].
  change u with (w_user (set_cpu [FRun; FUser z] (set_user u w))) at 2.
  apply (viewed_goes w); [done| |done|done]. intros t.
  destruct (decide (t = None)) as [->|Ht].
  - cbn. unfold main_thread. cbn. by rewrite Hr.
  - destruct t as [q|]; [|done]. by apply (co_thread_frame w _ None l).
Qed.

(** ** co_create, co_free *)

Lemma moves_create w cur l P y k u fn arg n f p w' :
  inv cur l w → viewed w P → w_cpu w = FUser y :: k →
  ustep y (w_user w) = (UCreate fn arg n f, u) → fn ≠ NULL →
  registered (set_user u w) fn arg (real_size (wrap64 n)) p w' →
  s_count (w_S w) < MAX_COROUTINES → inv cur (l ++ [p]) w' →
  moves cur l w P (set_cpu (FUser (f p) :: k) w').
Proof.
  intros Hi Hv Hcpu Hu Hfn [Hnew Hp0 [stack Ho] Hn Hreg Hrun Hus Hk Hx Hm [a Ha]] Hlt Hi'.
  cbn in Hnew, Ho, Hn, Hreg, Hrun, Hus, Hk, Hm.
  set (w2 := set_cpu (FUser (f p) :: k) w').
  assert (∀ q, w_objs w !! q ≠ None → q ≠ p) as Hne by (intros q Hq ->; done).
  destruct (continue_threads w w2 cur l y (f p) k Hi Hcpu) as [Hcur Hmain]; [done..| |].
  { intros q ->. cbn. rewrite Ho. apply lookup_insert_ne. intros <-.
    destruct (inv_cur _ _ _ Hi p eq_refl). congruence. }
  eapply moves_call; [done..| |apply (ct_create P cur u fn arg n f p); try done|
    apply (inv_continue w w' cur _ y); [exact Hi'|by rewrite Hk]|by apply qs_new].
  - split; cbn.
    + intros t. destruct (decide (t = Some p)) as [->|Htp].
      { rewrite lookup_insert_eq. cbn. rewrite Ho, lookup_insert_eq. cbn.
        unfold co_thread. cbn. by rewrite Ha. }
      rewrite lookup_insert_ne, lookup_insert by congruence. case_decide as Htc; subst; [done|].
      rewrite (vw_threads _ _ Hv). symmetry.
      destruct t as [q|]; [|apply Hmain; by intros ->].
      apply (co_thread_frame w w2 cur l); [done|congruence| |]; cbn.
      * rewrite Ho. apply lookup_insert_ne. congruence.
      * intros _. apply Hx. congruence.
    + intros q. rewrite (vw_dead _ _ Hv), Ho. split; intros (c & Hc & Hd).
      * exists c. split; [|done]. rewrite lookup_insert_ne; [done|]. intros <-. congruence.
      * apply lookup_insert_Some in Hc as [[-> <-]|[_ Hc]]; [done|eauto].
    + by rewrite Hreg, (vw_reg _ _ Hv).
    + done.
  - rewrite (live_view _ _ _ _ _ Hi Hv), Hnew. by apply is_Some_None.
  - rewrite (vw_reg _ _ Hv), (registry_length _ _ _ Hi). lia.
Qed.

Lemma moves_free w cur l P y k u p z c :
  inv cur l w → viewed w P → w_cpu w = FUser y :: k → ustep y (w_user w) = (UFree p z, u) →
  w_objs w !! p = Some c → c_state c = CO_DONE →
  inv cur l (freed p c (set_user u w)) →
  moves cur l w P (set_cpu (FUser z :: k) (freed p c (set_user u w))).
Proof.
  intros Hi Hv Hcpu Hu Hp Hst Hi'. set (w2 := set_cpu (FUser z :: k) (freed p c (set_user u w))).
  assert (∀ q, q ≠ p → w_objs w2 !! q = w_objs w !! q) as Ho
    by (intros q Hq; by apply lookup_delete_ne).
  assert (cur ≠ Some p) as Hcp.
  { rewrite (k_run _ _ _ _ _ _ _ _ (inv_co _ _ _ Hi _ _ Hp)). congruence. }
  destruct (continue_threads w w2 cur l y z k Hi Hcpu) as [Hcur Hmain]; [done..| | |].
  { cbn. by rewrite !lookup_delete_ne. }
  { intros q ->. apply Ho. congruence. }
  eapply moves_call; [done..| |apply ct_free; by apply (dead_view w P p c)|
    by apply (inv_continue w _ cur l y)|by apply qs_same].
  split; cbn.
  - intros t. rewrite lookup_insert, (vw_threads _ _ Hv). case_decide as Htc; subst; [done|].
    destruct t as [q|]; [|symmetry; apply Hmain; by intros ->].
    destruct (decide (q = p)) as [->|Hqp].
    + cbn. rewrite Hp, lookup_delete_eq. cbn. unfold co_thread. by rewrite Hst.
    + symmetry. apply (co_thread_frame w w2 cur l); [done|congruence|by apply Ho|].
      intros [d Hd]. by apply (freed_ctxs w cur l p c q d).
  - intros q. rewrite elem_of_difference, (vw_dead _ _ Hv), elem_of_singleton. split.
    + intros [(d & Hd & Hs) Hne]. exists d. by rewrite lookup_delete_ne.
    + intros (d & [Hne Hd]%lookup_delete_Some & Hs). split; [eauto|congruence].
  - apply Hv.
  - done.
Qed.

(** ** co_yield, co_await *)

Lemma back_in_main_thread w w' p l l' :
  inv (Some p) l w → inv None l' w' → back_in_main w w' → thread_at w' None = thread_at w None.
Proof.
  intros Hi Hi' (x & Hm & Hcpu). rewrite (main_in_run w p l x) by done.
  cbn. unfold main_thread. pose proof (inv_control _ _ _ Hi') as Hc. rewrite Hcpu in *.
  assert (s_running (w_S w') ≠ NULL) as Hr
    by by inversion Hc.
  by rewrite (proj2 (Z.eqb_neq _ _)).
Qed.

(** The running coroutine [p] has parked itself as [c'], to go on as [th]. *)
Lemma moves_park w P p l l' y k u z c c' w' call th :
  inv (Some p) l w → viewed w P → w_cpu w = FUser y :: k → ustep y (w_user w) = (call, u) →
  inv None l' w' → w_objs w !! p = Some c → w_objs w' = <[p := c']> (w_objs w) →
  c_state c = CO_RUNNING → c_state c' ≠ CO_DONE →
  w_user w' = u → registry (w_S w') = registry (w_S w) → ctxs_but p w w' →
  w_ctxs w' !! CoCtx p = Some (SFrames (FUser z :: k)) → back_in_main w w' →
  co_thread w' p c' = Some th → call_step P (Some p) u call (goes P (Some p) th u) →
  queue_step P (Some p) l call (goes P (Some p) th u) None l' →
  moves (Some p) l w P w'.
Proof.
  intros Hi Hv Hcpu Hu Hi' Hc Ho Hst Hnd Hus Hr Hb Hx Hm Hth Hcall Hq.
  eapply moves_call; [done..| |exact Hcall|exact Hi'|exact Hq]. rewrite <- Hus.
  apply (viewed_goes w); [done| | |done].
  - intros t. destruct (decide (t = Some p)) as [->|Ht].
    + cbn. by rewrite Ho, lookup_insert_eq.
    + destruct t as [q|]; [|by eapply back_in_main_thread].
      assert (q ≠ p) by congruence.
      apply (co_thread_frame w w' (Some p) l); [done|congruence| |].
      * rewrite Ho. by apply lookup_insert_ne.
      * intros _. by apply Hb.
  - intros q. unfold done_at. rewrite Ho. split; intros (d & Hd & Hs).
    + apply lookup_insert_Some in Hd as [[<- <-]|[_ Hd]]; [done|eauto].
    + exists d. rewrite lookup_insert_ne; [done|]. intros <-. congruence.
Qed.

Lemma moves_yield w cur l P y k u z w' :
  inv cur l w → viewed w P → w_cpu w = FUser y :: k → ustep y (w_user w) = (UYield z, u) →
  nested_run w = false → step w = Stepped w' → moves cur l w P w'.
Proof.
  intros Hi Hv Hcpu Hu Hn Hs. destruct cur as [p|].
  - destruct (step_yield _ _ _ _ _ _ _ Hi Hcpu Hu)
      as (c & w1 & Hc & Hst & Hs1 & Hi' & Ho & Hus & Hr & Hb & Hx & Hm).
    rewrite Hs1 in Hs. injection Hs as <-.
    eapply (moves_park w P p l _ y k u z c (with_state CO_READY c) w1); try done.
    + unfold co_thread. cbn. by rewrite Hx.
    + by apply ct_yield.
    + by apply qs_yield.
  - pose proof (good_yield _ _ _ _ _ _ _ Hi Hcpu Hu) as Hg. unfold step_good in Hg.
    destruct (inv_main_running _ _ _ _ Hi Hcpu) as [Hr _]. exfalso. revert Hs.
    rewrite (step_user _ _ _ _ _ Hcpu Hu). cbn [user_call]. unfold co_yield, get_S.
    run_op. cbn [w_S set_user]. by rewrite Hr.
Qed.

Lemma moves_await w cur l P y k u o z w' :
  inv cur l w → viewed w P → w_cpu w = FUser y :: k → ustep y (w_user w) = (UAwait o z, u) →
  step w = Stepped w' → moves cur l w P w'.
Proof.
  intros Hi Hv Hcpu Hu Hs.
  destruct (user_stepped _ _ _ _ _ Hcpu Hu _ Hs) as [x Hcall]. cbn [user_call] in Hcall.
  unfold co_await in Hcall. apply se_bind_inv in Hcall as (w1 & [] & Ha & Hcall).
  unfold se_assert in Ha. destruct (negb (o =? NULL)); [|done]. injection Ha as <-.
  destruct (w_objs w !! o) as [d|] eqn:Ho; cycle 1.
  { apply se_bind_inv in Hcall as (w1 & ? & Hd & _). by rewrite deref_bad in Hd. }
  rewrite (se_bind_ok _ _ _ _ _ (deref_ok (set_user u w) o d Ho)) in Hcall.
  destruct (decide (c_state d = CO_DONE)) as [Hd|Hd].
  { rewrite bool_decide_true in Hcall by done. injection Hcall as <- _.
    apply (moves_continue w cur l P y k (UAwait o z) u Hi Hv Hcpu Hu (set_user u w) z); try done.
    - by apply inv_set_user.
    - apply ct_await_done. by apply (dead_view w P o d).
    - by apply (dead_view w P o d). }
  destruct cur as [p|].
  - destruct (step_await_wait _ _ _ _ _ _ _ _ _ Hi Hcpu Hu Ho Hd)
      as (c & w2 & Hc & Hst & Hs1 & Hi' & Hob & Hus & Hr & Hb & Hx & Hm).
    rewrite Hs1 in Hs. injection Hs as <-.
    eapply (moves_park w P p l _ y k u z c _ w2); try done.
    + unfold co_thread. cbn. by rewrite Hx.
    + apply ct_await; [done|]. rewrite (vw_threads _ _ Hv). cbn. rewrite Ho. cbn.
      by eapply co_thread_live.
    + eapply qs_block; [done|]. apply lookup_insert_eq.
  - destruct (inv_main_running _ _ _ _ Hi Hcpu) as [Hr _]. exfalso. revert Hcall.
    rewrite bool_decide_false by done. unfold get_S. run_op. cbn [w_S set_user].
    by rewrite Hr.
Qed.

(** ** The library's own transitions *)

(** A transition that no thread sees. *)
Lemma moves_internal cur l w P w' cur' l' :
  inv cur' l' w' → fifo_inner (Config cur l P) (Config cur' l' P) →
  viewed w P → (∀ t, thread_at w' t = thread_at w t) → (∀ q, done_at w' q ↔ done_at w q) →
  registry (w_S w') = registry (w_S w) → w_user w' = w_user w → (rank w' < rank w)%nat →
  moves cur l w P w'.
Proof.
  intros Hi' Hf Hv Ht Hd Hr Hu Hk. exists P, cur', l'. split_and!; [|done|by left]. split.
  - intros t. by rewrite Ht, (vw_threads _ _ Hv).
  - intros q. rewrite (vw_dead _ _ Hv). symmetry. apply Hd.
  - by rewrite Hr, (vw_reg _ _ Hv).
  - by rewrite Hu, (vw_mem _ _ Hv).
Qed.

(** The running coroutine moves from [co_trampoline] to [co_entry] to its
    body. *)
Lemma moves_start w P p l c k :
  inv (Some p) l w → viewed w P → w_objs w !! p = Some c →
  w_cpu w = [FTrampoline p] ∧ k = [FEntry p]
  ∨ w_cpu w = [FEntry p] ∧ k = body_stack p (ufn (c_fn c) (c_arg c)) →
  inv (Some p) l (set_cpu k w) → moves (Some p) l w P (set_cpu k w).
Proof.
  intros Hi Hv Hc Hk Hi'. destruct (running_view _ _ _ Hi) as (c' & x & Hc' & Hst & Hr & Hp & _ & Hm).
  assert (c' = c) as -> by congruence.
  apply (moves_internal _ _ _ _ _ (Some p) l Hi' (ff_inner _)); try done.
  - intros [q|].
    + destruct (decide (q = p)) as [->|Hq]; [|by apply (co_thread_frame w _ (Some p) l); [|congruence|..]].
      cbn. rewrite Hc. cbn. unfold co_thread. rewrite Hst. cbn.
      by destruct Hk as [[-> ->]|[-> ->]].
    + cbn. unfold main_thread. cbn. rewrite Hr, (proj2 (Z.eqb_neq _ _)), Hm by done.
      by destruct Hk as [[-> ->]|[-> ->]].
  - unfold rank. cbn. destruct Hk as [[-> ->]|[-> ->]]; cbn; lia.
Qed.

Lemma moves_resume_done w P l x w' :
  inv None l w → viewed w P → w_cpu w = loop_stack x → step w = Stepped w' → moves None l w P w'.
Proof.
  intros Hi Hv Hcpu Hs. pose proof (inv_control _ _ _ Hi) as Hctl. rewrite Hcpu in Hctl.
  destruct (step_resume_done _ _ _ Hi Hcpu) as (w1 & Hs1 & Hi' & _).
  assert (w1 = w') as -> by congruence. clear Hs1.
  revert Hs. unfold step. rewrite Hcpu. intros [= <-].
  apply (moves_internal _ _ _ _ _ None l Hi' (ff_inner _)); try done.
  - intros [q|]; [by apply (co_thread_frame w _ None l)|]. cbn. unfold main_thread. cbn.
    assert (s_running (w_S w) ≠ NULL) as Hr by by inversion Hctl.
    by rewrite Hcpu, (proj2 (Z.eqb_neq _ _)).
  - unfold rank. rewrite Hcpu. cbn. lia.
Qed.

Lemma moves_dispatch w P p l x w' :
  inv None (p :: l) w → viewed w P → w_cpu w = [FRun; FUser x] → step w = Stepped w' →
  moves None (p :: l) w P w'.
Proof.
  intros Hi Hv Hcpu Hs. destruct (step_dispatch _ _ _ _ Hi Hcpu)
    as (c & w1 & Hc & Hst & Hs1 & Hi' & Ho & Hus & Hr & Hb & Hrun & (sv & Hsv & Hres) & Hm).
  rewrite Hs1 in Hs. injection Hs as <-.
  destruct (running_view _ _ _ Hi') as (_ & _ & _ & _ & _ & Hp & Hk & _).
  pose proof (inv_control _ _ _ Hi) as Hctl. rewrite Hcpu in Hctl. apply control_loop in Hctl.
  assert (thread_at w None = Some (InRun x)) as Hmain.
  { cbn. unfold main_thread. by rewrite Hctl, Hcpu. }
  assert (∃ z, thread_at w (Some p) = Some (At z)) as [z Hz].
  { cbn. rewrite Hc. cbn. unfold co_thread. rewrite Hst.
    destruct (resumable_point w p c) as [y ->]; [|by exists y].
    eapply k_ctx; [by eapply inv_co|by left]. }
  apply (moves_internal _ _ _ _ _ (Some p) l Hi'); [|done| | |done|done|].
  - apply (ff_dispatch p l P x z); by rewrite (vw_threads _ _ Hv).
  - intros [q|].
    + destruct (decide (q = p)) as [->|Hq]; cycle 1.
      { apply (co_thread_frame w w1 None (p :: l)); [done..| |].
        - rewrite Ho. by apply lookup_insert_ne.
        - intros _. by apply Hb. }
      cbn. rewrite Ho, lookup_insert_eq, Hc. cbn. unfold co_thread. cbn. rewrite Hst, Hsv.
      pose proof (inv_co _ _ _ Hi _ _ Hc) as Hok.
      destruct (k_ctx _ _ _ _ _ _ _ _ Hok) as [[y Hy]|(a & Ha & Hf)]; [by left|..];
        rewrite Hsv in *; simplify_eq; cbn in Hres; cbn.
      * by injection Hres as <-.
      * destruct Hf as [Ht Hco _ _]. rewrite Ht, Hco, Z.eqb_refl in Hres. by injection Hres as <-.
    + by rewrite (main_in_run w1 p l x Hi' Hm).
  - intros q. unfold done_at. rewrite Ho. split; intros (d & Hd & Hsd).
    + apply lookup_insert_Some in Hd as [[_ <-]|[_ Hd]]; [done|eauto].
    + exists d. rewrite lookup_insert_ne; [done|]. intros <-. congruence.
  - unfold rank. rewrite Hcpu. destruct Hk; cbn; lia.
Qed.

Lemma moves_run_returns w P x :
  inv None [] w → viewed w P → w_cpu w = [FRun; FUser x] →
  inv None [] (set_cpu [FUser x] w) → moves None [] w P (set_cpu [FUser x] w).
Proof.
  intros Hi Hv Hcpu Hi'. pose proof (inv_control _ _ _ Hi) as Hctl. rewrite Hcpu in Hctl.
  apply control_loop in Hctl.
  assert (p_threads P !! None = Some (InRun x)) as Hmain.
  { rewrite (vw_threads _ _ Hv). cbn. unfold main_thread. by rewrite Hctl, Hcpu. }
  assert (∀ p th, p_threads P !! Some p = Some th → awaits_thread th) as Ha.
  { intros p th. rewrite (vw_threads _ _ Hv). cbn.
    destruct (w_objs w !! p) as [c|] eqn:Hc; [|done]. cbn. unfold co_thread.
    pose proof (inv_co _ _ _ Hi _ _ Hc) as [_ _ Hq Hrn _ _ _ _].
    destruct (c_state c) eqn:Hst; [| | |done].
    - destruct Hq as [_ Hq]. by specialize (Hq eq_refl) as ?%not_elem_of_nil.
    - by destruct Hrn as [_ Hrn]; specialize (Hrn eq_refl).
    - intros (y & _ & ->)%fmap_Some. unfold awaits_thread. eauto. }
  apply (moves_fifo None [] w P _ (goes P None (At x) (p_mem P)) None []);
    [|done|by apply ff_run_returns].
  rewrite (vw_mem _ _ Hv). change (w_user w) with (w_user (set_cpu [FUser x] w)).
  apply (viewed_goes w); [done| |done|done]. intros [q|].
  - by apply (co_thread_frame w _ None []).
  - cbn. unfold main_thread. cbn. by rewrite Hctl.
Qed.

(** The scan of the registry, seen by a coroutine other than [p]. *)
Lemma wake_co_thread w w' cur l p q d :
  inv cur l w → cur ≠ Some q → w_objs w !! q = Some d →
  w_ctxs w' !! CoCtx q = w_ctxs w !! CoCtx q →
  co_thread w' q (wake_if p d) = wake_thread p <$> co_thread w q d.
Proof.
  intros Hi Hq Hd Hx. pose proof (inv_co _ _ _ Hi _ _ Hd) as Hok.
  unfold wake_if. destruct (waits_on p d) eqn:Hw.
  - apply waits_on_spec in Hw as [Hst Ha]. unfold co_thread. cbn. rewrite Hst, Hx, Ha.
    change (saved_point ?sv (wake d)) with (saved_point sv d).
    destruct (saved_point _ d); [|done]. cbn. by rewrite decide_True.
  - unfold co_thread. rewrite Hx. destruct (c_state d) eqn:Hst; [| | |done].
    + by destruct (saved_point _ d).
    + by apply (k_run _ _ _ _ _ _ _ _ Hok) in Hst.
    + destruct (saved_point _ d); [|done]. cbn. rewrite decide_False; [done|].
      intros Ha. assert (waits_on p d = true) by by apply waits_on_spec. congruence.
Qed.

Lemma finish_done w w' cur l p c q :
  inv cur l w → w_objs w !! p = Some c → w_objs w' = finish_objs p c w →
  done_at w' q ↔ q = p ∨ done_at w q.
Proof.
  intros Hi Hc Ho. unfold done_at. rewrite Ho, (finish_objs_lookup w _ _ _ _ _ Hi Hc).
  case_decide as Hqp; subst.
  - split; [by left|]. intros _. eexists. by split.
  - destruct (w_objs w !! q) as [d|]; cbn; [|by split; [intros (? & ? & _)|intros [|(? & ? & _)]]].
    pose proof (wake_if_fields p d) as (_ & _ & _ & _ & Hnd). split.
    + intros (e & [= <-] & He). right. exists d. split; [done|].
      destruct (decide (c_state d = CO_DONE)) as [|Hd]; [done|]. by destruct (Hnd Hd).
    + intros [|(e & [= <-] & He)]; [done|]. exists (wake_if p d). split; [done|].
      unfold wake_if. destruct (waits_on p d) eqn:Hw; [|done].
      apply waits_on_spec in Hw as [? _]. congruence.
Qed.

(** The coroutines that the scan wakes. *)
Lemma finish_waiter w p l c r :
  inv (Some p) l w → w_objs w !! p = Some c → c_state c = CO_RUNNING →
  (r ≠ p ∧ ∃ d, w_objs w !! r = Some d ∧ waits_on p d = true)
  ↔ ∃ z, (d ← w_objs w !! r; co_thread w r d) = Some (Awaiting p z).
Proof.
  intros Hi Hc Hst. split.
  - intros (Hr & d & Hd & [Hsd Ha]%waits_on_spec). rewrite Hd. cbn. unfold co_thread. rewrite Hsd, Ha.
    destruct (resumable_point w r d) as [z ->]; [|by exists z].
    eapply k_ctx; [by eapply inv_co|by right].
  - intros (z & Hz). destruct (w_objs w !! r) as [d|] eqn:Hd; [|done]. cbn in Hz.
    unfold co_thread in Hz. destruct (c_state d) eqn:Hsd.
    + by destruct (saved_point _ d).
    + exfalso. apply (k_run _ _ _ _ _ _ _ _ (inv_co _ _ _ Hi _ _ Hd)) in Hsd. injection Hsd as ->.
      injection Hz. intros Hz'. unfold stack_thread in Hz'. by repeat case_match.
    + destruct (saved_point _ d); [|done]. injection Hz as Ha <-.
      split; [intros ->; congruence|]. exists d. split; [done|]. by apply waits_on_spec.
    + done.
Qed.

Lemma moves_finish w P p l w' :
  inv (Some p) l w → viewed w P → w_cpu w = [FEntryRet p] → step w = Stepped w' →
  moves (Some p) l w P w'.
Proof.
  intros Hi Hv Hcpu Hs. destruct (running_view _ _ _ Hi) as (c & _ & Hc & Hst & _).
  destruct (step_finish _ _ _ _ Hi Hcpu Hc)
    as [(w1 & x & Hs1 & Hi' & Ho & Hus & Hk & Hr & Hb & Hm & Hlive)|(q & _ & _ & Hf)];
    [|by rewrite Hf in Hs].
  rewrite Hs1 in Hs. injection Hs as <-.
  pose proof (main_in_run w p l x Hi Hm) as Hmain.
  assert (p_threads P !! Some p = Some Exiting) as Hexit.
  { rewrite (vw_threads _ _ Hv). cbn. rewrite Hc. cbn. unfold co_thread. by rewrite Hst, Hcpu. }
  assert (p_threads P !! None = Some (InRun x)) as Hrun by (by rewrite (vw_threads _ _ Hv)).
  assert (Forall (live P) (p_reg P)) as Hall.
  { rewrite (vw_reg _ _ Hv). eapply Forall_impl; [exact Hlive|]. intros q.
    by rewrite <- (live_view _ _ _ _ _ Hi Hv). }
  assert (fifo_act (Config (Some p) l P) (Config None (l ++ finish_woken p c w)
    (Pool (wake_thread p <$> delete (Some p) (p_threads P)) ({[p]} ∪ p_dead P) (p_reg P) (p_mem P))))
    as Hact.
  { apply (ff_exit p l P x); [done..|apply NoDup_woken|rewrite (vw_reg _ _ Hv); apply woken_sublist|].
    intros r. rewrite (elem_of_finish_woken _ _ _ _ _ _ Hi Hc), (vw_threads _ _ Hv). cbn.
    by eapply finish_waiter. }
  eapply moves_fifo; [|exact Hi'|exact Hact].
  split; cbn; [| |by rewrite Hr, (vw_reg _ _ Hv)|by rewrite Hus, (vw_mem _ _ Hv)].
  - intros t. rewrite lookup_fmap. destruct (decide (t = Some p)) as [->|Ht].
    { rewrite lookup_delete_eq. cbn. rewrite Ho, (finish_objs_lookup w _ _ _ _ _ Hi Hc).
      by rewrite decide_True. }
    rewrite lookup_delete_ne, (vw_threads _ _ Hv) by done. destruct t as [q|].
    + assert (q ≠ p) by congruence. cbn.
      rewrite Ho, (finish_objs_lookup w _ _ _ _ _ Hi Hc), decide_False by done.
      destruct (w_objs w !! q) as [d|] eqn:Hd; [|done]. cbn. symmetry.
      apply (wake_co_thread w w1 (Some p) l); [done|congruence|done|by apply Hb].
    + rewrite Hmain. rewrite (back_in_main_thread w w1 p _ _ Hi Hi'); [|by exists x].
      by rewrite Hmain.
  - intros q. rewrite elem_of_union, elem_of_singleton, (vw_dead _ _ Hv). symmetry.
    by eapply finish_done.
Qed.

(** ** All transitions *)

Lemma misuse_fault w cur l P y k c u e :
  inv cur l w → viewed w P → w_cpu w = FUser y :: k → ustep y (w_user w) = (c, u) →
  misuse cur w c e → call_fault P cur c e.
Proof.
  intros Hi Hv Hcpu Hu Hm.
  assert (∀ q, w_objs w !! q = None → ¬ live P q) as Hdead.
  { intros q Hq. rewrite (live_view _ _ _ _ _ Hi Hv), Hq. by apply is_Some_None. }
  assert (∀ q d, w_objs w !! q = Some d → c_state d ≠ CO_DONE →
    is_Some (p_threads P !! Some q)) as Hlive.
  { intros q d Hq Hd. rewrite (vw_threads _ _ Hv). cbn. rewrite Hq. cbn.
    by eapply co_thread_live. }
  destruct Hm; try (by constructor); try (constructor; by eauto).
  - constructor. rewrite (vw_reg _ _ Hv), (registry_length _ _ _ Hi). done.
Qed.

Lemma entry_ret_cur r p k m cur : @control L r (FEntryRet p :: k) m cur → cur = Some p.
Proof. intros Hc. inversion Hc as [| | | |x q k' Hq Hk]; subst. by inversion Hk. Qed.

Lemma blame_fault w cur l P e : inv cur l w → viewed w P → blame cur w e → pool_fault P e.
Proof.
  intros Hi Hv [y k c u e' Hcpu Hu Hm|p k q Hcpu Hq Hn].
  - apply (pf_call P cur y c u); [| | |by eapply misuse_fault].
    + rewrite (vw_threads _ _ Hv). by eapply cur_user.
    + by rewrite (vw_mem _ _ Hv).
    + intros Hne. rewrite (vw_threads _ _ Hv). by eapply cur_main.
  - pose proof (inv_control _ _ _ Hi) as Hctl. rewrite Hcpu in Hctl.
    apply entry_ret_cur in Hctl as ->.
    destruct (running_view _ _ _ Hi) as (c & x & Hc & Hst & _ & _ & _ & Hm).
    apply (pf_scan P p x); [| | |].
    + rewrite (vw_threads _ _ Hv). cbn. rewrite Hc. cbn. unfold co_thread.
      by rewrite Hst, Hcpu.
    + rewrite (vw_threads _ _ Hv). by eapply main_in_run.
    + by rewrite (vw_reg _ _ Hv).
    + rewrite (live_view _ _ _ _ _ Hi Hv), Hn. by apply is_Some_None.
Qed.

Lemma moves_user w cur l P y k w' :
  inv cur l w → viewed w P → (refused w → may_refuse) → w_cpu w = FUser y :: k → nested_run w = false →
  step w = Stepped w' → moves cur l w P w'.
Proof.
  intros Hi Hv Hmay Hcpu Hn Hs. destruct (ustep y (w_user w)) as [c u] eqn:Hu.
  destruct (user_stepped _ _ _ _ _ Hcpu Hu _ Hs) as [x Hc].
  pose proof (inv_set_user w cur l u Hi) as Hiu.
  destruct c as [|z|z|o z|fn arg n f|q z|q f|f|z]; cbn [user_call] in Hc.
  - injection Hc as <- _. by eapply moves_return.
  - injection Hc as <- _. apply (moves_continue w cur l P y k _ u Hi Hv Hcpu Hu (set_user u w)); try done. apply ct_tau.
  - by eapply moves_yield.
  - by eapply moves_await.
  - apply se_bind_inv in Hc as (w1 & p & He & Hc). injection Hc as <- _.
    pose proof (co_create_cases _ _ _ fn arg _ Hiu (wrap64_nonneg n)) as Hcs.
    rewrite He in Hcs. destruct Hcs as [Hfn [(-> & Hi' & Ho & HS & Hus & Hk & _ & Hx & Hm & Hnull)|[Hi' Hrg]]].
    + apply (moves_continue w cur l P y k _ u Hi Hv Hcpu Hu w1); try done.
      * by rewrite Hk.
      * apply ct_create_null; [done|]. apply Hmay. unfold refused. rewrite Hcpu, Hu. by apply Is_true_true.
    + eapply moves_create; try done. pose proof (rg_count _ _ _ _ _ _ Hrg) as Hn'.
      pose proof (inv_count _ _ _ Hi'). cbn in Hn'. lia.
  - apply se_bind_inv in Hc as (w1 & [] & He & Hc). injection Hc as <- _.
    pose proof (co_free_cases _ _ _ q Hiu) as Hcs. rewrite He in Hcs.
    destruct Hcs as (d & Hd & Hst & -> & Hif). by eapply moves_free.
  - apply se_bind_inv in Hc as (w1 & st & He & Hc). injection Hc as <- _.
    pose proof (co_state_cases (set_user u w) q) as Hcs. rewrite He in Hcs.
    destruct Hcs as (-> & d & Hd & <-).
    apply (moves_continue w cur l P y k _ u Hi Hv Hcpu Hu (set_user u w)); try done.
    apply ct_state.
    + rewrite (live_view _ _ _ _ _ Hi Hv). by exists d.
    + by rewrite (dead_view w P q d).
    + by rewrite (k_run _ _ _ _ _ _ _ _ (inv_co _ _ _ Hi _ _ Hd)).
  - apply se_bind_inv in Hc as (w1 & i & He & Hc). injection Hc as <- _.
    destruct (co_id_ok (set_user u w) cur l y k) as (i' & Hid & He'); [done|done|].
    rewrite He' in He. injection He as <- <-.
    apply (moves_continue w cur l P y k _ u Hi Hv Hcpu Hu (set_user u w)); try done.
    apply ct_id. destruct cur as [p|]; [|by injection Hid as <-]. cbn in Hid.
    destruct (w_objs w !! p) as [d|] eqn:Hd; [|done]. injection Hid as <-.
    destruct (inv_co _ _ _ Hi _ _ Hd) as [Hr Hreg _ _ _ _ _ _]. split; [lia|].
    rewrite (vw_reg _ _ Hv). unfold registry.
    unfold zlookup in *. destruct (0 <=? c_id d - 1); [|done].
    rewrite lookup_take_lt; [done|lia].
  - injection Hc as <- _. by eapply moves_run.
Qed.

Lemma step_moves w cur l P w' :
  inv cur l w → viewed w P → (refused w → may_refuse) → nested_run w = false → step w = Stepped w' → moves cur l w P w'.
Proof.
  intros Hi Hv Hmay Hn Hs. pose proof (inv_control _ _ _ Hi) as Hc.
  inversion Hc as [m Hr Hcpu|x m Hr Hcpu|x m Hr Hcpu|x m p Hp Hr Hcpu|x p k Hp Hk Hr Hm];
    subst; try symmetry in Hcpu.
  - unfold step in Hs. by rewrite Hcpu in Hs.
  - by eapply moves_user.
  - destruct l as [|p l]; [|by eapply moves_dispatch].
    destruct (step_run_empty _ _ Hi Hcpu) as [Hs1 Hi']. rewrite Hs1 in Hs.
    injection Hs as <-. by apply moves_run_returns.
  - by eapply moves_resume_done.
  - inversion Hk as [Hcpu|Hcpu|x' Hcpu|Hcpu]; symmetry in Hcpu.
    + destruct (step_trampoline _ _ _ Hi Hcpu) as [Hs1 Hi']. rewrite Hs1 in Hs.
      injection Hs as <-. destruct (inv_cur _ _ _ Hi _ eq_refl) as [c Hco].
      eapply moves_start; eauto.
    + destruct (inv_cur _ _ _ Hi _ eq_refl) as [c Hco].
      destruct (step_entry _ _ _ _ Hi Hcpu Hco) as [Hs1 Hi']. rewrite Hs1 in Hs.
      injection Hs as <-. eapply moves_start; eauto.
    + by eapply moves_user.
    + by eapply moves_finish.
Qed.
End steps.
