(* ===== verification/Progress.v ===== *)
(** * Runs of pools, and termination

    A program whose coroutines do not call [co_run] runs as a pool of threads
    from its first transition to its last ([run_interleaves]); a property that
    the transitions of pools preserve holds throughout.  If a measure of pools
    decreases, the program ends, after a number of transitions that the measure
    bounds ([run_terminates]). *)

From stdpp Require Import gmap relations.
From S2P Require Import Prelude Ring Machine State RunQueue Api Ops Invariant.
From S2P Require Import Preserve Create Spec Refine Safety Threads Demo User.

Section leaf.
Context {L U : Type} `{Refusal, UserCode L U}.
Implicit Types P : pool L U.

(** [B] holds of the control points of coroutines, and these never call
    [co_run]. *)
Class Leaf (B : L → Prop) : Prop := {
  lf_fn fn arg : fn ≠ NULL → B (ufn fn arg);
  lf_step y u : B y → call_ok B (ustep y u).1;
  lf_run y u z : B y → (ustep y u).1 ≠ URun z
}.

Definition leaf_thread (B : L → Prop) (th : thread L) : Prop :=
  match th with At x | Awaiting _ x => B x | InRun _ => False | Exiting => True end.

Definition leaf_pool (B : L → Prop) P : Prop :=
  ∀ p th, p_threads P !! Some p = Some th → leaf_thread B th.

Lemma leaf_wake B p th : leaf_thread B th → leaf_thread B (wake_thread p th).
Proof. destruct th; cbn; try done. by case_decide. Qed.

Lemma leaf_goes B P t th u :
  leaf_pool B P → (t ≠ None → leaf_thread B th) → leaf_pool B (goes P t th u).
Proof.
  intros HP Ht p th'. cbn. intros [[-> <-]|[_ Hp]]%lookup_insert_Some; [by apply Ht|eauto].
Qed.

Lemma leaf_call B `{!Leaf B} P t y c u P' :
  leaf_pool B P → p_threads P !! t = Some (At y) → ustep y (p_mem P) = (c, u) →
  call_step P t u c P' → leaf_pool B P'.
Proof.
  intros HP Ht Hu Hc.
  assert (t ≠ None → call_ok B c ∧ ∀ z, c ≠ URun z) as Hok.
  { intros Hne. destruct t as [p|]; [|done]. specialize (HP _ _ Ht). cbn in HP.
    pose proof (lf_step y (p_mem P) HP) as Hs. pose proof (λ z, lf_run y (p_mem P) z HP) as Hr.
    by rewrite Hu in Hs, Hr. }
  destruct Hc; try (apply leaf_goes; [done|]; intros Hne; destruct (Hok Hne) as [Hb Hr]; cbn in *;
    first [done | by apply Hb | by edestruct Hr]).
  - intros p th. cbn. intros [_ Hp]%lookup_delete_Some. eauto.
  - intros q th. cbn. intros [[[= <-] <-]|[_ Hq]]%lookup_insert_Some; [by apply lf_fn|].
    apply lookup_insert_Some in Hq as [[-> <-]|[_ Hq]]; [|eauto].
    by apply (Hok ltac:(done)).
  - intros p th. cbn. intros [[-> <-]|[_ Hp]]%lookup_insert_Some; [by apply (Hok ltac:(done))|eauto].
Qed.

Lemma leaf_pool_step B `{!Leaf B} P P' : leaf_pool B P → pool_step P P' → leaf_pool B P'.
Proof.
  intros HP [t y c u P1 Ht Hu _ Hc|p x Hp _ _|x _ _].
  - by eapply leaf_call.
  - intros q th. cbn. rewrite lookup_fmap. intros (th' & [_ Hq]%lookup_delete_Some & ->)%fmap_Some.
    apply leaf_wake. eauto.
  - by apply leaf_goes.
Qed.
End leaf.

Section runs.
Context {L U : Type} `{Refusal, Allocator, LinkMap, UserCode L U}.
Context (B : L → Prop) `{!Leaf B}.
Implicit Types (w : world L U) (cur : option ptr) (l : list ptr) (P : pool L U).

(** [w] is well formed and [P] is its pool; the refusals to come are announced. *)
Definition in_pool w P : Prop :=
  (∃ cur l, inv cur l w) ∧ viewed w P ∧ leaf_pool B P ∧ (refused_in w → may_refuse).

Lemma leaf_not_nested w P cur l :
  inv cur l w → viewed w P → leaf_pool B P → nested_run w = false.
Proof using Leaf0.
  intros Hi Hv HP. unfold nested_run. destruct (w_cpu w) as [|[y| | | | | |] k] eqn:Hcpu; try done.
  destruct (ustep y (w_user w)) as [c u] eqn:Hu. cbn. destruct c; try done.
  destruct cur as [p|].
  - pose proof (cur_user _ _ _ _ _ Hi Hcpu) as Ht. rewrite <- (vw_threads _ _ Hv) in Ht.
    apply HP in Ht. exfalso. apply (lf_run y (w_user w) k0 Ht). by rewrite Hu.
  - by destruct (inv_main_running _ _ _ _ Hi Hcpu) as [-> _].
Qed.

Lemma init_viewed (σ : alloc_state) (u : U) (x : L) :
  (refused_in (init_world σ u x) → may_refuse) →
  in_pool (init_world σ u x) (init_pool u x).
Proof.
  intros Hmay. split; [exists None, []; apply inv_init|]. split; [|split; [|done]].
  - split; cbn; [|by intros p; split; [intros ?%elem_of_empty|intros (c & ? & _)]|done|done].
    intros [p|]; [by rewrite lookup_singleton_ne|by rewrite lookup_singleton_eq].
  - intros p th. cbn. by rewrite lookup_singleton_ne.
Qed.

(** [C] is the pool of [w], with its scheduler. *)
Definition in_fifo w (C : config) : Prop :=
  inv (f_cur C) (f_queue C) w ∧ viewed w (f_pool C) ∧ leaf_pool B (f_pool C)
  ∧ (refused_in w → may_refuse).

Lemma refused_now w : (refused_in w → may_refuse) → refused w → may_refuse.
Proof. intros Hm Hr. apply Hm. exists 0%nat, w. split; [by constructor|by apply Is_true_true]. Qed.

(** One transition. *)
Lemma fifo_moves w C w' :
  in_fifo w C → step w = Stepped w' →
  ∃ C', in_fifo w' C' ∧ (fifo_inner C C' ∧ (rank w' < rank w)%nat ∨ fifo_act C C').
Proof using Leaf0.
  destruct C as [cur l P]. intros (Hi & Hv & HP & Hmay) Hs. cbn in *.
  pose proof (leaf_not_nested _ _ _ _ Hi Hv HP) as Hn.
  destruct (step_moves _ _ _ _ _ Hi Hv (refused_now _ Hmay) Hn Hs) as (P' & cur' & l' & Hv' & Hi' & Hm).
  exists (Config cur' l' P'). split; [|done]. split; [done|]. split; [done|].
  split; [|by intros Hr; apply Hmay; eapply refused_later].
  destruct Hm as [[Hm%fifo_inner_pool _]|Hm%fifo_act_pool]; cbn in Hm; [by subst|by eapply leaf_pool_step].
Qed.

Lemma pool_moves w P w' :
  in_pool w P → step w = Stepped w' →
  ∃ P', in_pool w' P' ∧ (P' = P ∧ (rank w' < rank w)%nat ∨ pool_step P P').
Proof using Leaf0.
  intros ((cur & l & Hi) & Hv & HP & Hmay) Hs.
  destruct (fifo_moves w (Config cur l P) w') as ([cur' l' P'] & (Hi' & Hv' & HP' & Hmay') & Hm);
    [by split|done|]. exists P'. split; [by split; [exists cur', l'|]|].
  destruct Hm as [[Hm%fifo_inner_pool Hr]|Hm%fifo_act_pool]; [by left|by right].
Qed.

Lemma fifo_run n w C w' :
  in_fifo w C → steps n w w' → ∃ C', in_fifo w' C' ∧ rtc fifo_step C C'.
Proof using Leaf0.
  intros Hp Hs. revert C Hp. induction Hs as [w|n w w1 w2 Hs _ IH]; intros C Hp; [by exists C|].
  destruct (fifo_moves _ _ _ Hp Hs) as (C1 & Hp1 & Hm).
  destruct (IH _ Hp1) as (C2 & Hp2 & Hr). exists C2. split; [done|].
  eapply rtc_l; [|done]. destruct Hm as [[Hm _]|Hm]; [by left|by right].
Qed.

Lemma pool_faults w P e : in_pool w P → step w = Faulted e → pool_fault P e.
Proof using Leaf0.
  intros ((cur & l & Hi) & Hv & HP & _) Hs.
  pose proof (leaf_not_nested _ _ _ _ Hi Hv HP) as Hn.
  pose proof (step_is_good _ _ _ Hi Hn) as Hg. unfold step_good in Hg. rewrite Hs in Hg.
  by eapply blame_fault.
Qed.

Lemma pool_halts w P : in_pool w P → step w = Halted → p_threads P !! None = None.
Proof using.
  intros ((cur & l & Hi) & Hv & _ & _) Hs. rewrite (vw_threads _ _ Hv). cbn. unfold main_thread.
  assert (w_cpu w = []) as Hcpu.
  { unfold step in Hs. destruct (w_cpu w); [done|]. by destruct run_frame as [[]|]. }
  pose proof (inv_control _ _ _ Hi) as Hc. rewrite Hcpu in *.
  inversion Hc as [| | | |? ? ? ? Hk]; [done|by inversion Hk].
Qed.

Lemma pool_run n w P w' : in_pool w P → steps n w w' → ∃ P', in_pool w' P' ∧ rtc pool_step P P'.
Proof using Leaf0.
  intros Hp Hs. revert P Hp. induction Hs as [w|n w w1 w2 Hs _ IH]; intros P Hp; [by exists P|].
  destruct (pool_moves _ _ _ Hp Hs) as (P1 & Hp1 & Hm).
  destruct (IH _ Hp1) as (P2 & Hp2 & Hr). exists P2. split; [done|].
  destruct Hm as [[-> _]|Hm]; [done|by eapply rtc_l].
Qed.

(** C22: a program whose coroutines do not call [co_run] is the first-in
    first-out interleaving of its threads: in every state its run reaches, every
    unfinished coroutine and main are at the control points, the finished
    coroutines, the registry, the queue and the memory are those that the
    transitions [fifo_step] lead to: the thread that runs goes from one library
    call to the next until it yields, waits or returns, and then the oldest of
    the READY ones runs. *)
Theorem run_interleaves n w (σ : alloc_state) (u : U) (x : L) :
  (refused_in (init_world σ u x) → may_refuse) → steps n (init_world σ u x) w →
  ∃ C, inv (f_cur C) (f_queue C) w ∧ viewed w (f_pool C)
    ∧ rtc fifo_step (Config None [] (init_pool u x)) C.
Proof using Leaf0.
  intros Hmay Hs. destruct (init_viewed σ u x Hmay) as (_ & Hv & HP & _).
  destruct (fifo_run n (init_world σ u x) (Config None [] (init_pool u x)) w)
    as (C & (Hi & Hv' & _) & Hr); [by split; [apply inv_init|]|done|]. by exists C.
Qed.

(** ** Invariants and measures of pools *)

Section measure.
Variables (I : pool L U → Prop) (μ : pool L U → nat).
Hypothesis I_step : ∀ P P', I P → pool_step P P' → I P'.
Hypothesis μ_step : ∀ P P', I P → pool_step P P' → (μ P' < μ P)%nat.

Lemma I_rtc P P' : I P → rtc pool_step P P' → I P'.
Proof using I_step. intros HI Hr. induction Hr; eauto. Qed.

Lemma exec_ends w P fuel :
  in_pool w P → I P → (5 * μ P + rank w ≤ fuel)%nat →
  match exec fuel w with
  | Finished w' => ∃ P', in_pool w' P' ∧ I P' ∧ p_threads P' !! None = None
  | Crashed e => ∃ P', I P' ∧ pool_fault P' e
  | OutOfFuel _ => False
  end.
Proof using Leaf0 I_step μ_step.
  revert w P. induction fuel as [|fuel IH]; intros w P Hp HI Hf; cbn;
    (destruct (step w) as [|w'|e] eqn:Hs;
     [by exists P; eauto using pool_halts| |by exists P; eauto using pool_faults]);
    destruct (pool_moves _ _ _ Hp Hs) as (P' & Hp' & Hm);
    assert (5 * μ P' + rank w' < 5 * μ P + rank w)%nat as Hlt
      by (assert (rank w' ≤ 4)%nat by (unfold rank; repeat case_match; lia);
          destruct Hm as [[-> ?]|Hm]; [lia|]; specialize (μ_step _ _ HI Hm); lia).
  - lia.
  - apply (IH w' P'); [done| |lia]. destruct Hm as [[-> _]|Hm]; eauto.
Qed.
End measure.

(** The same with the order of the queue: [I] says how many transitions of the
    program are left. *)
Section countdown.
Variable I : config (L := L) (U := U) → nat → Prop.
Hypothesis I_inner : ∀ C C' n, I C n → fifo_inner C C' → I C' n.
Hypothesis I_act : ∀ C C' n, I C n → fifo_act C C' → ∃ n', I C' n' ∧ (n' < n)%nat.

Lemma fifo_pool w C : in_fifo w C → in_pool w (f_pool C).
Proof using. intros (Hi & Hv & Hl & Hr). split; [by eexists _, _|done]. Qed.

Lemma fifo_ends w C n fuel :
  in_fifo w C → I C n → (5 * n + rank w ≤ fuel)%nat →
  match exec fuel w with
  | Finished w' => ∃ C' n', in_fifo w' C' ∧ I C' n' ∧ p_threads (f_pool C') !! None = None
  | Crashed e => ∃ C' n', I C' n' ∧ pool_fault (f_pool C') e
  | OutOfFuel _ => False
  end.
Proof using Leaf0 I_inner I_act.
  revert w C n. induction fuel as [|fuel IH]; intros w C n Hw HI Hf; cbn;
    (destruct (step w) as [|w'|e] eqn:Hs;
     [by exists C, n; eauto using pool_halts, fifo_pool| |by exists C, n; eauto using pool_faults, fifo_pool]);
    destruct (fifo_moves _ _ _ Hw Hs) as (C' & Hw' & Hm);
    assert (∃ n', I C' n' ∧ (5 * n' + rank w' < 5 * n + rank w)%nat) as (n' & HI' & Hlt)
      by (assert (rank w' ≤ 4)%nat by (unfold rank; repeat case_match; lia);
          destruct Hm as [[Hm Hr]|Hm]; [exists n; split; [by eapply I_inner|lia]|];
          destruct (I_act _ _ _ HI Hm) as (n' & ? & ?); exists n'; split; [done|lia]).
  - lia.
  - apply (IH w' C' n'); [done..|lia].
Qed.
End countdown.
End runs.

(** ** Programs whose control points have a cost *)

Section cost.
Context {L U : Type} `{Refusal, UserCode L U}.
Implicit Types (P : pool L U) (T : gmap (option ptr) (thread L)).

(** The continuations of a call made at cost [n] cost less; a new coroutine is
    paid for by the one that creates it. *)
Definition call_cost (cost : L → nat) (c : ucall L) (n : nat) : Prop :=
  match c with
  | UReturn => True
  | UTau k | UYield k | UAwait _ k | UFree _ k | URun k => (cost k < n)%nat
  | UCreate fn arg _ k =>
      ∀ p, (cost (k p) < n)%nat ∧ (fn ≠ NULL → cost (k p) + cost (ufn fn arg) < n)%nat
  | UState _ k => ∀ s, (cost (k s) < n)%nat
  | UId k => ∀ i, (cost (k i) < n)%nat
  end.

(** While the memory satisfies [Q]: every stretch of code preserves [Q],
    continues at a control point that costs less, and makes no other control
    point cost more. *)
Class Costed (cost : L → U → nat) (Q : U → Prop) : Prop := {
  cs_mem y u : Q u → Q (ustep y u).2;
  cs_own y u : Q u → call_cost (λ l, cost l (ustep y u).2) (ustep y u).1 (cost y u);
  cs_other l y u : Q u → (cost l (ustep y u).2 ≤ cost l u)%nat
}.

Definition thread_cost (cost : L → nat) (th : thread L) : nat :=
  match th with
  | At x | Awaiting _ x => 3 * cost x + 2
  | InRun x => 3 * cost x + 3
  | Exiting => 1
  end.

Definition total (cost : L → nat) T : nat :=
  map_fold (λ _ th n, thread_cost cost th + n)%nat 0%nat T.

Lemma total_insert cost T t th :
  T !! t = None → total cost (<[t := th]> T) = (thread_cost cost th + total cost T)%nat.
Proof.
  intros Ht.  unfold total.
  rewrite (map_fold_insert_L (λ _ th n, thread_cost cost th + n)%nat); [done|intros; lia|done].
Qed.

Lemma total_delete cost T t th :
  T !! t = Some th → total cost T = (thread_cost cost th + total cost (delete t T))%nat.
Proof.
  intros Ht.  unfold total.
  rewrite (map_fold_delete_L (λ _ th n, thread_cost cost th + n)%nat _ t th); [done|intros; lia|done].
Qed.

Lemma total_update cost T t th th' :
  T !! t = Some th →
  (total cost (<[t := th']> T) + thread_cost cost th = total cost T + thread_cost cost th')%nat.
Proof.
  intros Ht. rewrite (total_delete _ _ _ _ Ht).
  rewrite <- insert_delete_eq, total_insert by apply lookup_delete_eq. lia.
Qed.

Lemma thread_cost_wake cost p th : thread_cost cost (wake_thread p th) = thread_cost cost th.
Proof. destruct th; cbn; try done. by case_decide. Qed.

Lemma total_wake cost p T : total cost (wake_thread p <$> T) = total cost T.
Proof.
  induction T as [|t th T Ht IH] using map_ind; [by rewrite fmap_empty|].
  rewrite fmap_insert, !total_insert, IH, thread_cost_wake; [done|done|].
  by rewrite lookup_fmap, Ht.
Qed.

Lemma total_mono (cost cost' : L → nat) T :
  (∀ l, (cost' l ≤ cost l)%nat) → (total cost' T ≤ total cost T)%nat.
Proof.
  intros Hc. induction T as [|t th T Ht IH] using map_ind; [done|].
  rewrite !total_insert by done.
  assert (thread_cost cost' th ≤ thread_cost cost th)%nat; [|lia].
  destruct th as [x|o x|x|]; cbn; try pose proof (Hc x); lia.
Qed.

Definition pool_cost (cost : L → U → nat) P : nat :=
  total (λ l, cost l (p_mem P)) (p_threads P).

Lemma init_cost (cost : L → U → nat) u x : pool_cost cost (init_pool u x) = (3 * cost x u + 2)%nat.
Proof.
  unfold pool_cost, init_pool, total. cbn [p_threads p_mem]. rewrite map_fold_singleton.
  cbn [thread_cost]. lia.
Qed.

Section costed.
Context (cost : L → U → nat) (Q : U → Prop) `{!Costed cost Q}.

Lemma pool_mem_step P P' : Q (p_mem P) → pool_step P P' → Q (p_mem P').
Proof using Costed0.
  intros HQ [t y c u P1 _ Hu _ Hc|p x _ _ _|x _ _]; [|done|done].
  pose proof (cs_mem y _ HQ) as HQ'. rewrite Hu in HQ'. by destruct Hc.
Qed.

(** Thread [t], at [y], becomes [th]. *)
Lemma goes_cost P t y u th :
  p_threads P !! t = Some (At y) → (∀ l, cost l u ≤ cost l (p_mem P))%nat →
  (total (λ l, cost l u) (<[t := th]> (p_threads P)) + (3 * cost y (p_mem P) + 2)
   ≤ pool_cost cost P + thread_cost (λ l, cost l u) th)%nat.
Proof using.
  intros Ht Hm. unfold pool_cost. rewrite (total_delete _ _ _ _ Ht).
  rewrite <- insert_delete_eq, total_insert by apply lookup_delete_eq.
  pose proof (total_mono _ _ (delete t (p_threads P)) Hm). cbn [thread_cost]. lia.
Qed.

Lemma call_decreases P t y c u P' :
  Q (p_mem P) → p_threads P !! t = Some (At y) → ustep y (p_mem P) = (c, u) →
  call_step P t u c P' → (pool_cost cost P' < pool_cost cost P)%nat.
Proof using Costed0.
  intros HQ Ht Hu Hc. pose proof (cs_own y _ HQ) as Hown. pose proof (λ l, cs_other l y _ HQ) as Hm.
  rewrite Hu in Hown, Hm. cbn in Hown, Hm.
  pose proof (λ th, goes_cost P t y u th Ht Hm) as Hgo.
  destruct Hc as [| | | | | | |fn arg n f p Hfn _ Hp _| |q f s| |]; unfold pool_cost at 1;
    cbn [p_threads p_mem goes];
    try (match goal with |- (total _ (<[_ := ?th]> _) < _)%nat => specialize (Hgo th) end;
         cbn in *; try specialize (Hown s); try specialize (Hown i);
         try specialize (Hown NULL); lia).
  - unfold pool_cost. rewrite (total_delete _ _ _ _ Ht).
    pose proof (total_mono _ _ (delete t (p_threads P)) Hm). cbn. lia.
  - destruct (Hown p) as [_ Hcost]. specialize (Hcost Hfn).
    assert (p_threads P !! Some p = None) as Hn.
    { apply eq_None_not_Some. intros Hs. by apply Hp; left. }
    rewrite total_insert by (rewrite lookup_insert_ne; [done|congruence]).
    specialize (Hgo (At (f p))). cbn in *. lia.
Qed.

Lemma step_decreases P P' :
  Q (p_mem P) → pool_step P P' → (pool_cost cost P' < pool_cost cost P)%nat.
Proof using Costed0.
  intros HQ [t y c u P1 Ht Hu _ Hc|p x Hp _ _|x Hx _]; [by eapply call_decreases|..];
    unfold pool_cost; cbn.
  - rewrite total_wake, (total_delete _ _ _ _ Hp). cbn. lia.
  - pose proof (total_update (λ l, cost l (p_mem P)) _ None _ (At x) Hx) as Ht. cbn in Ht. lia.
Qed.
End costed.
End cost.

(** C23: a program with a cost, whose coroutines do not call [co_run] ([Leaf]),
    ends, within a number of transitions that the
    cost of main's first control point bounds: it runs until main has returned,
    or stops at a fault that its pool announces.  So [co_run] returns, whatever
    the allocator and the order in which the coroutines were created. *)
Theorem run_terminates {L U : Type} `{Refusal, Allocator, LinkMap, UserCode L U}
    (B : L → Prop) `{!Leaf B} (cost : L → U → nat) (Q : U → Prop) `{!Costed cost Q}
    (σ : alloc_state) (u : U) (x : L) fuel :
  (refused_in (init_world σ u x) → may_refuse) →
  Q u → (5 * (3 * cost x u + 2) ≤ fuel)%nat →
  match exec fuel (init_world σ u x) with
  | Finished w => ∃ P, in_pool B w P ∧ rtc pool_step (init_pool u x) P ∧ p_threads P !! None = None
  | Crashed e => ∃ P, rtc pool_step (init_pool u x) P ∧ pool_fault P e
  | OutOfFuel _ => False
  end.
Proof.
  intros Hmay HQ Hf.
  pose proof (exec_ends B (λ P, Q (p_mem P) ∧ rtc pool_step (init_pool u x) P) (pool_cost cost)) as He.
  specialize (He ltac:(intros P P' [HP Hr] Hs; split; [by eapply pool_mem_step|by eapply rtc_r])).
  specialize (He ltac:(intros P P' [HP _] Hs; by eapply step_decreases)).
  specialize (He _ _ fuel (init_viewed B σ u x Hmay)).
  destruct (exec fuel (init_world σ u x)); [..|];
    [destruct He as (P & Hp & [_ Hr] & Hn)|destruct He as (P & [_ Hr] & Hn)|apply He];
    try (by split); try (by exists P); rewrite init_cost; cbn; lia.
Qed.
