(* ===== verification/ForkJoin.v ===== *)
(** * Fork and join

    The shape of most programs of the repository: main creates coroutines,
    calls [co_run] and goes on when they have all returned; the coroutines only
    yield.  [fork_join] is main, [Jobs] the obligation of the bodies, which may
    speak of the control points of all of them at once, and
    [fork_join_outcome] what then holds when main is back from [co_run]. *)

From stdpp Require Import gmap relations.
From S2P Require Import Prelude Ring Machine State RunQueue Api Ops Invariant.
From S2P Require Import Preserve Create Spec Refine Safety Threads Demo User Progress.

(** What main does about a creation that [malloc] refuses: it gives up at once,
    it keeps the null handle and looks at the handles once all are created, or
    it never looks.  The theorems on a main of the last two kinds assume that
    [malloc] refuses none of the creations of the run. *)
Inductive checking : Set := Each | AtEnd | Never.

Definition is_each (c : checking) : bool := match c with Each => true | _ => false end.
Definition at_end (c : checking) : bool := match c with AtEnd => true | _ => false end.

(** Main: the coroutines to create and the handles so far; back from [co_run],
    the coroutines to free; a creation has failed, and main gives up. *)
Inductive fj_point : Set :=
| FCreate (todo : list (ptr * ptr)) (made : list ptr)
| FJoined (made : list ptr)
| FFail.

Definition fork_join_with (c : checking) (size : Z) (free : bool) (m : fj_point)
    : ucall fj_point :=
  match m with
  | FCreate ((fn, arg) :: todo) made =>
      UCreate fn arg size (λ p,
        if (p =? NULL) && is_each c then FFail else FCreate todo (made ++ [p]))
  | FCreate [] made =>
      if at_end c && bool_decide (NULL ∈ made) then UReturn else URun (FJoined made)
  | FJoined (p :: made) => if free then UFree p (FJoined made) else UReturn
  | FJoined [] | FFail => UReturn
  end.
Definition fork_join : Z → bool → fj_point → ucall fj_point := fork_join_with Each.

(** The bodies keep [J], which speaks of the control point of each coroutine
    ([None] once it has returned) and of the memory; they only yield. *)
Class Jobs {L U : Type} `{Bodies L U} (J : list (option L) → U → Prop) : Prop := {
  jb_step locs u j l : J locs u → locs !! j = Some (Some l) →
    match body_step l u with
    | (UReturn, u') => J (<[j := None]> locs) u'
    | (UTau l', u') | (UYield l', u') => J (<[j := Some l']> locs) u'
    | _ => False
    end
}.

(** The default stack size, and any size of at least a few words. *)
Lemma size_default : ¬ 0 < wrap64 0 < 16.
Proof. change (wrap64 0) with 0. lia. Qed.
Lemma size_large n : 16 ≤ n < 2 ^ 64 → ¬ 0 < wrap64 n < 16.
Proof. intros Hn. rewrite wrap64_small; lia. Qed.

Lemma checked (P : Prop) : Each = Each ∨ P.
Proof. by left. Qed.

Section fork_join.
Context {L U : Type} `{AL : Refusal, Bodies L U}.
Context (J : list (option L) → U → Prop) `{!Jobs J}.
Variables (check : checking) (size : Z) (free : bool) (todo0 : list (ptr * ptr)) (u0 : U).
Hypothesis check_ok : check = Each ∨ ¬ may_refuse.

Local Abbreviation T := (fj_point + L)%type.
Local Instance code : UserCode T U := program (fork_join_with check size free).
Implicit Types (P : pool T U) (made : list ptr) (locs : list (option L)).

Definition start_of (fa : ptr * ptr) : option L := Some (body_fn fa.1 fa.2).

(** What a thread is when its coroutine is at [loc]. *)
Definition thread_loc (loc : option L) (th : thread T) : Prop :=
  match loc with Some l => th = At (inr l) | None => th = Exiting end.

(** The coroutines [made], at [locs]. *)
Record crew P made locs : Prop := {
  cw_length : length locs = length made;
  cw_nodup : NoDup made;
  cw_null : NULL ∉ made;
  cw_reg : p_reg P = made;
  cw_thread p th : p_threads P !! Some p = Some th →
    ∃ j loc, made !! j = Some p ∧ locs !! j = Some loc ∧ thread_loc loc th;
  cw_dead p : p ∈ p_dead P →
    p_threads P !! Some p = None ∧ ∃ j, made !! j = Some p ∧ locs !! j = Some None;
  cw_live p : p ∈ made → live P p
}.

(** Those created so far have not started. *)
Definition unstarted P : Prop :=
  ∃ done todo made, todo0 = done ++ todo ∧ crew P made (start_of <$> done) ∧ p_mem P = u0.

(** The state of the pool, by what main is doing. *)
Inductive fj_inv P : Prop :=
| fj_creating done todo made : todo0 = done ++ todo →
    p_threads P !! None = Some (At (inl (FCreate todo made))) →
    crew P made (start_of <$> done) → p_mem P = u0 → fj_inv P
| fj_running made locs : length made = length todo0 →
    p_threads P !! None = Some (InRun (inl (FJoined made))) →
    crew P made locs → J locs (p_mem P) → fj_inv P
| fj_joined made :
    p_threads P !! None = Some (At (inl (FJoined made))) →
    (∀ p, p_threads P !! Some p = None) → NoDup made → NULL ∉ made → p_dead P = list_to_set made →
    J (replicate (length todo0) None) (p_mem P) → fj_inv P
| fj_failed : may_refuse → p_threads P !! None = Some (At (inl FFail)) → unstarted P → fj_inv P
| fj_end : p_threads P !! None = None →
    may_refuse ∧ unstarted P ∨ (∀ p, p_threads P !! Some p = None)
      ∧ J (replicate (length todo0) None) (p_mem P) → fj_inv P.

(** ** The coroutines *)

(** The coroutine [p], the [j]-th, goes on as [th']. *)
Lemma crew_goes P made locs p j th th' loc' u :
  crew P made locs → made !! j = Some p → p_threads P !! Some p = Some th →
  thread_loc loc' th' → crew (goes P (Some p) th' u) made (<[j := loc']> locs).
Proof.
  intros [Hl Hn H0 Hr Ht Hd Hv] Hj Hp Hth.
  assert (j < length locs)%nat as Hlt by (rewrite Hl; by eapply lookup_lt_Some).
  split; cbn; [by rewrite length_insert|done..| | |].
  - intros q th0 [[[= <-] <-]|[Hne Hq]]%lookup_insert_Some.
    + exists j, loc'. by rewrite list_lookup_insert_eq.
    + destruct (Ht _ _ Hq) as (i & loc & Hi & Hloc & Hti). exists i, loc.
      rewrite list_lookup_insert_ne; [done|]. intros ->. congruence.
  - intros q [Hq (i & Hi & Hloc)]%Hd. assert (q ≠ p) by congruence.
    rewrite lookup_insert_ne by congruence. split; [done|]. exists i.
    rewrite list_lookup_insert_ne; [done|]. intros ->. congruence.
  - intros q [Hq|Hq]%Hv; [left|by right]. cbn. rewrite lookup_insert. case_decide; eauto.
Qed.

(** The thread of main goes on. *)
Lemma crew_main P made locs th u :
  crew P made locs → crew (goes P None th u) made locs.
Proof.
  intros [Hl Hn H0 Hr Ht Hd Hv]. split; try done; cbn.
  - intros q th0 [[? _]|[_ Hq]]%lookup_insert_Some; [done|eauto].
  - intros q Hq. rewrite lookup_insert_ne by done. by apply Hd.
  - intros q [Hq|Hq]%Hv; [left|by right]. cbn. by rewrite lookup_insert_ne.
Qed.

Lemma crew_main_ends P made locs u :
  crew P made locs → crew (Pool (delete None (p_threads P)) (p_dead P) (p_reg P) u) made locs.
Proof.
  intros [Hl Hn H0 Hr Ht Hd Hv]. split; try done; cbn.
  - intros q th0 [_ Hq]%lookup_delete_Some. eauto.
  - intros q Hq. rewrite lookup_delete_ne by done. by apply Hd.
  - intros q [Hq|Hq]%Hv; [left|by right]. cbn. by rewrite lookup_delete_ne.
Qed.

Lemma crew_exit P made locs p :
  crew P made locs → p_threads P !! Some p = Some Exiting →
  crew (Pool (wake_thread p <$> delete (Some p) (p_threads P)) ({[p]} ∪ p_dead P)
         (p_reg P) (p_mem P)) made locs.
Proof.
  intros [Hl Hn H0 Hr Ht Hd Hv] Hp. split; try done; cbn.
  - intros q th. rewrite lookup_fmap.
    intros (th0 & [Hne Hq]%lookup_delete_Some & ->)%fmap_Some.
    destruct (Ht _ _ Hq) as (i & [l|] & Hi & Hloc & Hti); cbn in Hti; subst;
      eexists i, _; by split_and!.
  - intros q [->%elem_of_singleton|[Hq He]%Hd]%elem_of_union.
    + rewrite lookup_fmap, lookup_delete_eq. split; [done|].
      destruct (Ht _ _ Hp) as (i & [l|] & Hi & Hloc & Hti); [done|eauto].
    + rewrite lookup_fmap. rewrite lookup_delete_ne by congruence. by rewrite Hq.
  - intros q Hq%Hv. unfold live in *. cbn. rewrite elem_of_union, elem_of_singleton.
    destruct (decide (q = p)) as [->|Hne]; [by right; left|].
    destruct Hq as [[th Hq]|Hq]; [left|by right; right].
    rewrite lookup_fmap, lookup_delete_ne by congruence. rewrite Hq. eauto.
Qed.

(** A new coroutine. *)
Lemma crew_create P made locs p fa th :
  crew P made locs → ¬ live P p → p ≠ NULL →
  crew (Pool (<[Some p := At (inr (body_fn fa.1 fa.2))]> (<[None := th]> (p_threads P)))
         (p_dead P) (p_reg P ++ [p]) (p_mem P)) (made ++ [p]) (locs ++ [start_of fa]).
Proof.
  intros [Hl Hn H0 Hr Ht Hd Hv] Hp Hp0. split; cbn.
  - by rewrite !length_app, Hl.
  - apply NoDup_app. split_and!; [done| |apply NoDup_singleton].
    intros q Hq ->%list_elem_of_singleton. by apply Hp, Hv.
  - intros [|Hq%list_elem_of_singleton]%elem_of_app; [done|congruence].
  - by rewrite Hr.
  - intros q th0 [[[= <-] <-]|[Hne Hq]]%lookup_insert_Some.
    + exists (length made), (start_of fa). rewrite lookup_app_r, Nat.sub_diag by lia.
      rewrite lookup_app_r, Hl, Nat.sub_diag by lia. done.
    + apply lookup_insert_Some in Hq as [[? _]|[_ Hq]]; [done|].
      destruct (Ht _ _ Hq) as (i & loc & Hi & Hloc & Hti). exists i, loc.
      split_and!; [by apply lookup_app_l_Some..|done].
  - intros q Hq. assert (q ≠ p) as Hne by (intros ->; apply Hp; by right).
    destruct (Hd _ Hq) as [Hn0 (i & Hi & Hloc)].
    rewrite !lookup_insert_ne by congruence. split; [done|].
    exists i. split; by apply lookup_app_l_Some.
  - intros q [Hq%Hv| ->%list_elem_of_singleton]%elem_of_app; unfold live; cbn.
    + rewrite lookup_insert, lookup_insert_ne by done.
      case_decide; [eauto|]. destruct Hq; eauto.
    + rewrite lookup_insert_eq. eauto.
Qed.

(** None of the handles is null: main has nothing to find at the end. *)
Lemma crew_unrefused P made locs :
  crew P made locs → at_end check && bool_decide (NULL ∈ made) = false.
Proof using.
  intros Hc. rewrite (bool_decide_eq_false_2 (NULL ∈ made)) by apply Hc. apply andb_false_r.
Qed.

(** A coroutine runs up to its next call. *)
Lemma crew_call P made locs p y c u P' :
  crew P made locs → J locs (p_mem P) → p_threads P !! Some p = Some (At y) →
  ustep y (p_mem P) = (c, u) → call_step P (Some p) u c P' →
  p_threads P' !! None = p_threads P !! None ∧ ∃ locs', crew P' made locs' ∧ J locs' (p_mem P').
Proof using Jobs0.
  intros Hc HJ Hp Hu Hs. destruct (cw_thread _ _ _ Hc _ _ Hp) as (j & [l|] & Hj & Hloc & Ht);
    [|done]. injection Ht as ->. cbn in Hu. pose proof (jb_step _ _ _ _ HJ Hloc) as Hb.
  destruct (body_step l (p_mem P)) as [c' u']. injection Hu as <- <-.
  destruct c'; try done; inversion Hs; subst; try done;
    (split; [by apply lookup_insert_ne|]); eexists; split; eauto; by eapply crew_goes.
Qed.

(** [co_run] has returned: they have all returned. *)
Lemma crew_joined P made locs :
  crew P made locs → (∀ p th, p_threads P !! Some p = Some th → awaits_thread th) →
  (∀ p, p_threads P !! Some p = None) ∧ p_dead P = list_to_set made
  ∧ locs = replicate (length made) None.
Proof.
  intros Hc Ha. assert (∀ p, p_threads P !! Some p = None) as Hn.
  { intros p. destruct (p_threads P !! Some p) as [th|] eqn:Hp; [|done]. exfalso.
    destruct (Ha _ _ Hp) as (o & x & ->).
    by destruct (cw_thread _ _ _ Hc _ _ Hp) as (j & [] & _ & _ & ?). }
  assert (∀ p, p ∈ p_dead P ↔ p ∈ made) as Hdead.
  { intros p. split; [intros (_ & j & Hj & _)%(cw_dead _ _ _ Hc); by eapply list_elem_of_lookup_2|].
    intros [[th Hp]|]%(cw_live _ _ _ Hc); [|done]. by rewrite Hn in Hp. }
  split; [done|]. split; [apply set_eq; intros p; by rewrite Hdead, elem_of_list_to_set|].
  rewrite <- (cw_length _ _ _ Hc). symmetry. apply replicate_as_Forall. split; [done|].
  apply Forall_lookup. intros j loc Hj.
  destruct (lookup_lt_is_Some_2 made j) as [p Hp].
  { rewrite <- (cw_length _ _ _ Hc). by eapply lookup_lt_Some. }
  assert (p ∈ p_dead P) as (_ & i & Hi & Hloc)%(cw_dead _ _ _ Hc)
    by (rewrite Hdead; by eapply list_elem_of_lookup_2).
  assert (i = j) as -> by (eapply NoDup_lookup; [apply Hc|done..]). congruence.
Qed.

(** ** Main *)

Lemma fj_inv_init : J (start_of <$> todo0) u0 → fj_inv (init_pool u0 (inl (FCreate todo0 []))).
Proof using.
  intros HJ. apply (fj_creating _ [] todo0 []); [done..| |done].
  split; cbn; try done; [by apply NoDup_nil_2|by apply not_elem_of_nil|by intros p th; rewrite lookup_singleton_ne|by intros p ?%not_elem_of_nil].
Qed.

Lemma main_create P dn todo made c u P' :
  J (start_of <$> todo0) u0 → todo0 = dn ++ todo →
  p_threads P !! None = Some (At (inl (FCreate todo made))) →
  crew P made (start_of <$> dn) → p_mem P = u0 →
  ustep (inl (FCreate todo made)) (p_mem P) = (c, u) → call_step P None u c P' → fj_inv P'.
Proof.
  intros HJ Hd Ht Hc Hm Hu Hs. pose proof (cw_length _ _ _ Hc) as Hl. rewrite length_fmap in Hl.
  destruct todo as [|fa todo]; [|destruct fa as [fn arg]]; injection Hu as <- <-;
    [rewrite (crew_unrefused _ _ _ Hc) in Hs|]; inversion Hs; subst; try done.
  - rewrite app_nil_r in *. apply (fj_running _ made (start_of <$> dn)); cbn;
      [congruence|apply lookup_insert_eq|by apply crew_main|by rewrite Hm, <- Hd].
  - destruct check_ok as [->|Hnf]; [|done].
    apply fj_failed; cbn; [done|apply lookup_insert_eq|].
    eexists dn, _, made. split_and!; [done|by apply crew_main|done].
  - rewrite (proj2 (Z.eqb_neq _ _)) by done.
    eapply (fj_creating _ (dn ++ [(fn, arg)]) todo); cbn; [by rewrite <- app_assoc| | |done].
    + rewrite lookup_insert_ne by done. apply lookup_insert_eq.
    + rewrite fmap_app. by apply (crew_create P made _ p (fn, arg)).
Qed.

Lemma main_joined P made c u P' :
  p_threads P !! None = Some (At (inl (FJoined made))) →
  (∀ p, p_threads P !! Some p = None) → NoDup made → NULL ∉ made → p_dead P = list_to_set made →
  J (replicate (length todo0) None) (p_mem P) →
  ustep (inl (FJoined made)) (p_mem P) = (c, u) → call_step P None u c P' → fj_inv P'.
Proof.
  intros Ht Hn Hnd H0 Hd HJ Hu Hs. destruct made as [|p made]; cbn in Hu.
  - injection Hu as <- <-. inversion Hs; subst; [|done].
    apply fj_end; cbn; [apply lookup_delete_eq|right]. split; [|done].
    intros q. by rewrite lookup_delete_ne.
  - destruct free; injection Hu as <- <-; inversion Hs; subst; try done.
    + apply NoDup_cons in Hnd as [Hp Hnd].
      eapply fj_joined; cbn; [apply lookup_insert_eq| |done| | |done].
      * intros q. by rewrite lookup_insert_ne.
      * intros Hq. apply H0. by right.
      * apply set_eq. intros q.
        rewrite Hd, elem_of_difference, !elem_of_list_to_set, elem_of_cons, elem_of_singleton.
        split; [by intros [[->|?] ?]|]. intros Hq. split; [by right|]. by intros ->.
    + apply fj_end; cbn; [apply lookup_delete_eq|right]. split; [|done].
    intros q. by rewrite lookup_delete_ne.
Qed.

Lemma fj_inv_step P P' :
  J (start_of <$> todo0) u0 → fj_inv P → pool_step P P' → fj_inv P'.
Proof using check_ok Jobs0.
  intros HJ0 HP Hs.
  destruct HP as [done todo made Hd Ht Hc Hm|made locs Hl Ht Hc HJ|made Ht Hn Hnd H0 Hd HJ|Hnull Ht Hm|Ht Hm];
    destruct Hs as [t y c u P1 Hy Hu Hin Hcs|p x Hp Hx Hlive|x Hx Ha]; try congruence.
  - destruct t as [p|]; [destruct Hin as [x Hx]; congruence|].
    rewrite Ht in Hy. injection Hy as <-. by eapply main_create.
  - destruct t as [p|]; [|congruence].
    destruct (crew_call _ _ _ _ _ _ _ _ Hc HJ Hy Hu Hcs) as (Hmain & locs' & Hc' & HJ').
    eapply fj_running; [done|by rewrite Hmain|done|done].
  - eapply fj_running; [done| |by eapply crew_exit|done]. cbn.
    by rewrite lookup_fmap, lookup_delete_ne, Ht.
  - rewrite Ht in Hx. injection Hx as <-.
    destruct (crew_joined _ _ _ Hc Ha) as (Hn & Hd & Hlocs).
    apply (fj_joined _ made); cbn; [apply lookup_insert_eq| |apply Hc..|done|].
    + intros p. by rewrite lookup_insert_ne.
    + by rewrite <- Hl, <- Hlocs.
  - destruct t as [p|]; [by rewrite Hn in Hy|]. rewrite Ht in Hy. injection Hy as <-.
    by eapply main_joined.
  - destruct t as [p|]; [destruct Hin as [x Hx]; congruence|].
    rewrite Ht in Hy. injection Hy as <-. injection Hu as <- <-. inversion Hcs; subst; [|done].
    apply fj_end; cbn; [apply lookup_delete_eq|left]. split; [done|].
    destruct Hm as (dn & todo & made & Hd & Hc & Hm). exists dn, todo, made.
    split_and!; [done|by apply crew_main_ends|done].
  - destruct t as [p|]; [destruct Hin as [x Hx]; congruence|congruence].
Qed.

(** ** No fault *)

Section no_fault.
Hypothesis size_ok : ¬ 0 < wrap64 size < 16.
Hypothesis todo_max : Z.of_nat (length todo0) ≤ MAX_COROUTINES.
Hypothesis todo_fn : Forall (λ fa, fa.1 ≠ NULL) todo0.

Lemma fj_no_fault P e : fj_inv P → pool_fault P e → False.
Proof using size_ok todo_max todo_fn Jobs0.
  intros HP He.
  destruct HP as [done todo made Hd Ht Hc Hm|made locs Hl Ht Hc HJ|made Ht Hn Hnd H0 Hd HJ|Hnull Ht Hm|Ht Hm];
    destruct He as [t y c u e Hy Hu Hin Hf|p x q Hp Hx Hq Hlive]; try congruence;
    try (destruct t as [p|]; [try (destruct (Hin ltac:(done)) as [x Hx]; congruence)|];
         try congruence).
  - rewrite Ht in Hy. injection Hy as <-. cbn in Hu.
    pose proof todo_fn as Hfn. pose proof todo_max as Hmax. rewrite Hd in Hfn, Hmax. clear Hd.
    destruct todo as [|[fn arg] todo]; injection Hu as <- <-;
      [rewrite (crew_unrefused _ _ _ Hc) in Hf|]; inversion Hf; simplify_eq/=; [| |done].
    + by apply Forall_app in Hfn as [_ [? _]%Forall_cons].
    + pose proof (cw_length _ _ _ Hc) as Hl. rewrite length_fmap in Hl.
      rewrite (cw_reg _ _ _ Hc), <- Hl in *. rewrite length_app in Hmax. cbn in Hmax. lia.
  - destruct (cw_thread _ _ _ Hc _ _ Hy) as (j & [l|] & Hj & Hloc & Hth); [|done].
    injection Hth as ->. cbn in Hu. pose proof (jb_step _ _ _ _ HJ Hloc) as Hb.
    destruct (body_step l (p_mem P)) as [c' u']. injection Hu as <- <-.
    by destruct c'; inversion Hf.
  - apply Hlive, (cw_live _ _ _ Hc). by rewrite <- (cw_reg _ _ _ Hc).
  - rewrite Ht in Hy. injection Hy as <-. cbn in Hu.
    destruct made as [|p made]; [|destruct free]; injection Hu as <- <-; inversion Hf; subst.
    + apply H0. by left.
    + match goal with Hs : is_Some _ |- _ => rewrite Hn in Hs; by apply is_Some_None in Hs end.
    + match goal with Hs : ¬ live _ _ |- _ => apply Hs end. right. rewrite Hd. apply elem_of_list_to_set. by left.
  - rewrite Ht in Hy. injection Hy as <-. injection Hu as <- <-. inversion Hf.
Qed.
End no_fault.
End fork_join.

(** ** Whole programs *)

(** Bodies that never call [co_run]. *)
Class LeafBodies (L U : Type) `{Bodies L U} : Prop :=
  lb_run (l : L) (u : U) z : (body_step l u).1 ≠ URun z.

Definition body_point {MP L : Type} (x : MP + L) : Prop :=
  match x with inl _ => False | inr _ => True end.

#[export] Instance program_leaf {MP L U : Type} `{Bodies L U, !LeafBodies L U}
    (main_step : MP → ucall MP) : @Leaf (MP + L) U (program main_step) body_point.
Proof.
  split; [done|..]; intros [m|l] u; try done; cbn.
  - intros _. by destruct (body_step l u) as [[] u'].
  - intros z _. pose proof (λ z, lb_run l u z) as Hr.
    destruct (body_step l u) as [c u']. cbn in *. destruct c; try done. by destruct (Hr k).
Qed.

(** The cost of a body, as in [Costed]: it decreases along its own code, and
    the other bodies do not increase it, while [Q] holds of the memory. *)
Class BodyCost {L U : Type} `{Bodies L U} (cost : L → U → nat) (Q : U → Prop) : Prop := {
  bc_mem l u : Q u → Q (body_step l u).2;
  bc_own l u : Q u →
    match body_step l u with
    | (UReturn, _) => True
    | (UTau l', u') | (UYield l', u') => (cost l' u' < cost l u)%nat
    | _ => False
    end;
  bc_other l l' u : Q u → (cost l' (body_step l u).2 ≤ cost l' u)%nat
}.

Section main_cost.
Context {L U : Type} `{Bodies L U}.
Implicit Types (cost : L → U → nat).

Definition main_cost (cost : L → U → nat) (m : fj_point) (u : U) : nat :=
  match m with
  | FCreate todo made =>
      foldr (λ fa n, cost (body_fn fa.1 fa.2) u + 2 + n)%nat (length made + 3)%nat todo
  | FJoined made => (length made + 1)%nat
  | FFail => 0%nat
  end.

Definition fj_cost (cost : L → U → nat) (x : fj_point + L) (u : U) : nat :=
  match x with inl m => main_cost cost m u | inr l => cost l u end.

Lemma main_cost_made cost todo made p u :
  main_cost cost (FCreate todo (made ++ [p])) u = S (main_cost cost (FCreate todo made) u).
Proof. cbn. induction todo as [|fa todo IH]; cbn; [rewrite length_app; cbn; lia|lia]. Qed.

(** All bodies start at the same cost. *)
Lemma main_cost_const cost todo made u c :
  Forall (λ fa, cost (body_fn fa.1 fa.2) u = c) todo →
  main_cost cost (FCreate todo made) u = (length todo * (c + 2) + (length made + 3))%nat.
Proof.
  intros Hc. cbn. induction Hc as [|fa todo Hfa _ IH]; cbn; [done|]. rewrite IH, Hfa. lia.
Qed.

Lemma main_cost_mono cost m u u' :
  (∀ l, (cost l u' ≤ cost l u)%nat) → (main_cost cost m u' ≤ main_cost cost m u)%nat.
Proof.
  intros Hc. destruct m as [todo made|made|]; cbn; [|done..].
  induction todo as [|fa todo IH]; cbn; [done|]. specialize (Hc (body_fn fa.1 fa.2)). lia.
Qed.

End main_cost.

Section whole.
Context {L U : Type} `{R : Refusal, Allocator, LinkMap, Bodies L U, !LeafBodies L U}.
Variables (check : checking) (size : Z) (free : bool) (todo0 : list (ptr * ptr)) (u0 : U).
Hypothesis check_ok : check = Each ∨ ¬ may_refuse.
Hypothesis size_ok : ¬ 0 < wrap64 size < 16.
Hypothesis todo_max : Z.of_nat (length todo0) ≤ MAX_COROUTINES.
Hypothesis todo_fn : Forall (λ fa, fa.1 ≠ NULL) todo0.

Local Abbreviation T := (fj_point + L)%type.
Local Instance fj_code : UserCode T U := program (fork_join_with check size free).
Local Abbreviation start σ := (init_world σ u0 (inl (FCreate todo0 []))).
Local Abbreviation announced σ := (refused_in (start σ) → may_refuse).

Definition all_returned : list (option L) := replicate (length todo0) None.

#[export] Instance fj_costed cost Q `{!BodyCost cost Q} : Costed (fj_cost cost) Q.
Proof using todo0.
  clear check_ok.
  split.
  - intros [m|l] u HQ; [done|]. cbn. pose proof (bc_mem l u HQ). by destruct body_step.
  - intros [m|l] u HQ.
    + destruct m as [[|[fn arg] todo] made|[|p made]|]; cbn [ustep fj_code program fork_join];
        [cbn; case_match; cbn; [done|lia]| |done| |done].
      * intros p. unfold fj_cost. cbn [main_cost foldr fst snd]. split; [|intros _];
          (destruct ((p =? NULL) && is_each check)); rewrite ?main_cost_made; cbn; lia.
      * destruct free; [cbn; lia|done].
    + pose proof (bc_own l u HQ) as Ho. cbn. destruct (body_step l u) as [[] u']; cbn in *; done.
  - intros x [m|l] u HQ; [done|]. cbn. pose proof (λ l', bc_other l l' u HQ) as Ho.
    destruct (body_step l u) as [c u']. cbn in *. destruct x as [m|l']; [|by apply Ho].
    by apply main_cost_mono.
Qed.

Section jobs.
Context (J : list (option L) → U → Prop) `{!Jobs J}.
Hypothesis J0 : J (start_of <$> todo0) u0.

Lemma fj_reach n (σ : alloc_state) (w : world T U) :
  announced σ → steps n (start σ) w → ∃ P, in_pool body_point w P ∧ fj_inv J todo0 u0 P.
Proof using check_ok J0 Jobs0 LeafBodies0.
  intros Hmay Hs. eapply (pool_run body_point) in Hs as (P & Hp & Hr); [|by apply init_viewed].
  exists P. split; [done|]. eapply I_rtc; [|by apply fj_inv_init|exact Hr].
  intros P1 P2 HP Hst. by eapply fj_inv_step.
Qed.

Lemma main_at (w : world T U) cur l x :
  inv cur l w → w_cpu w = [FUser x] → thread_at w None = Some (At x).
Proof using.
  intros Hi Hcpu. pose proof (inv_control _ _ _ Hi) as Hc. rewrite Hcpu in Hc.
  cbn. unfold main_thread. rewrite Hcpu.
  inversion Hc as [|y m Hr| | |y p k Hp Hk]; [done|]. inversion Hk.
Qed.

(** Every unfinished coroutine is at the control point that [locs] gives. *)
Definition placed (w : world T U) (made : list ptr) (locs : list (option L)) : Prop :=
  NoDup made ∧ ∀ p l, thread_at w (Some p) = Some (At (inr l)) →
    ∃ j, made !! j = Some p ∧ locs !! j = Some (Some l).

Lemma crew_placed w P made locs more :
  viewed w P → crew P made locs → placed w made (locs ++ more).
Proof using.
  intros Hv Hc. split; [apply Hc|]. intros p l Hp. rewrite <- (vw_threads _ _ Hv) in Hp.
  destruct (cw_thread _ _ _ Hc _ _ Hp) as (j & [l'|] & Hj & Hl & Hth); [|done].
  injection Hth as <-. exists j. split; [done|]. by apply lookup_app_l_Some.
Qed.

Lemma unstarted_placed w P :
  viewed w P → unstarted todo0 u0 P → ∃ made locs, J locs (w_user w) ∧ placed w made locs.
Proof using J0.
  intros Hv (dn & todo & made & Hd & Hc & Hm). exists made, (start_of <$> todo0). split.
  - by rewrite <- (vw_mem _ _ Hv), Hm.
  - rewrite Hd, fmap_app. by eapply crew_placed.
Qed.

Lemma no_threads_placed w P locs :
  viewed w P → (∀ p, p_threads P !! Some p = None) → placed w [] locs.
Proof using.
  intros Hv Hn. split; [by apply NoDup_nil_2|]. intros p l Hp.
  by rewrite <- (vw_threads _ _ Hv), Hn in Hp.
Qed.

Lemma fj_inv_placed w P :
  viewed w P → fj_inv J todo0 u0 P → ∃ made locs, J locs (w_user w) ∧ placed w made locs.
Proof using J0.
  intros Hv [dn todo made Hd _ Hc Hm|made locs _ _ Hc HJ|made _ Hn _ _ _ HJ|_ _ Hun|_ [[_ Hun]|[Hn HJ]]];
    try (by eapply unstarted_placed);
    try (rewrite <- (vw_mem _ _ Hv); eexists _, _; split; [exact HJ|by eapply no_threads_placed]).
  - eapply unstarted_placed; [done|]. by exists dn, todo, made.
  - exists made, locs. rewrite <- (vw_mem _ _ Hv). split; [done|].
    rewrite <- (app_nil_r locs). by eapply crew_placed.
Qed.

Lemma unstarted_mem w P : viewed w P → unstarted todo0 u0 P → w_user w = u0.
Proof using. intros Hv (dn & todo & made & _ & _ & Hm). by rewrite <- (vw_mem _ _ Hv). Qed.

Lemma fj_outcome n (σ : alloc_state) (w : world T U) :
  announced σ → steps n (start σ) w →
  (∀ e, step w ≠ Faulted e)
  ∧ (∃ made locs, J locs (w_user w) ∧ placed w made locs)
  ∧ (∀ made, w_cpu w = [FUser (inl (FJoined made))] → J all_returned (w_user w))
  ∧ (step w = Halted → may_refuse ∧ w_user w = u0 ∨ J all_returned (w_user w)).
Proof using check_ok J0 Jobs0 LeafBodies0 size_ok todo_fn todo_max.
  intros Hmay Hs. destruct (fj_reach _ _ _ Hmay Hs) as (P & Hp & HP).
  pose proof Hp as ((cur & l & Hi) & Hv & _). split_and!.
  - intros e He. pose proof (pool_faults _ _ _ _ Hp He). by eapply fj_no_fault.
  - by eapply fj_inv_placed.
  - intros made Hcpu. pose proof (main_at _ _ _ _ Hi Hcpu) as Ht.
    rewrite <- (vw_threads _ _ Hv) in Ht. rewrite <- (vw_mem _ _ Hv). by destruct HP; try congruence.
  - intros Hh. pose proof (pool_halts _ _ _ Hp Hh) as Ht.
    destruct HP as [| | | |_ [[Hnull Hun]|[_ HJ]]]; try congruence; [left; split; [done|]|right].
    + by eapply unstarted_mem.
    + by rewrite <- (vw_mem _ _ Hv).
Qed.

Lemma fj_total cost Q `{!BodyCost cost Q} (σ : alloc_state) fuel :
  announced σ → Q u0 → (5 * (3 * main_cost cost (FCreate todo0 []) u0 + 2) ≤ fuel)%nat →
  match exec fuel (start σ) with
  | Finished w => may_refuse ∧ w_user w = u0 ∨ J all_returned (w_user w)
  | _ => False
  end.
Proof using check_ok J0 Jobs0 LeafBodies0 size_ok todo_fn todo_max.
  intros Hmay HQ Hf.
  pose proof (exec_ends body_point (λ P, Q (p_mem P) ∧ fj_inv J todo0 u0 P)
    (pool_cost (fj_cost cost))) as He.
  specialize (He ltac:(intros P P' [HP Hr] Hs; split; [by apply (pool_mem_step (fj_cost cost) Q P P')|by eapply fj_inv_step])).
  specialize (He ltac:(intros P P' [HP _] Hs; by eapply (step_decreases _ Q))).
  specialize (He _ _ fuel (init_viewed body_point σ u0 (inl (FCreate todo0 [])) Hmay)).
  destruct (exec fuel (start σ)) as [w|e|w];
    (specialize (He ltac:(split; [done|by apply fj_inv_init]));
     specialize (He ltac:(rewrite init_cost; cbn -[main_cost]; lia))).
  - destruct He as (P & (_ & Hv & _) & [_ HP] & Hn).
    destruct HP as [| | | |_ [[Hnull Hun]|[_ HJ]]]; try congruence; [left; split; [done|]|right].
    + by eapply unstarted_mem.
    + by rewrite <- (vw_mem _ _ Hv).
  - destruct He as (P & [_ HP] & Hn). by eapply fj_no_fault.
  - done.
Qed.
End jobs.
End whole.

(** The same for a main that checks, with the refusals of its own run. *)
Section whole_checked.
Context {L U : Type} `{Allocator, LinkMap, Bodies L U, !LeafBodies L U}.
Variables (size : Z) (free : bool) (todo0 : list (ptr * ptr)) (u0 : U).
Local Abbreviation T := (fj_point + L)%type.
Local Instance whole_code : UserCode T U := program (fork_join size free).
Local Abbreviation start σ := (init_world σ u0 (inl (FCreate todo0 []))).

Hypothesis size_ok : ¬ 0 < wrap64 size < 16.
Hypothesis todo_max : Z.of_nat (length todo0) ≤ MAX_COROUTINES.
Hypothesis todo_fn : Forall (λ fa, fa.1 ≠ NULL) todo0.
Context (J : list (option L) → U → Prop) `{!Jobs J}.
Hypothesis J0 : J (start_of <$> todo0) u0.

Lemma fj_checked_outcome n (σ : alloc_state) (w : world T U) :
  steps n (start σ) w →
  (∀ e, step w ≠ Faulted e)
  ∧ (∃ made locs, J locs (w_user w) ∧ placed Each size free w made locs)
  ∧ (∀ made, w_cpu w = [FUser (inl (FJoined made))] → J (all_returned todo0) (w_user w))
  ∧ (step w = Halted →
     refused_in (start σ) ∧ w_user w = u0 ∨ J (all_returned todo0) (w_user w)).
Proof using All. apply (fj_outcome (R := refused_in (start σ))); try done; by left. Qed.

Lemma fj_checked_total cost Q `{!BodyCost cost Q} (σ : alloc_state) fuel :
  Q u0 → (5 * (3 * main_cost cost (FCreate todo0 []) u0 + 2) ≤ fuel)%nat →
  match exec fuel (start σ) with
  | Finished w => refused_in (start σ) ∧ w_user w = u0 ∨ J (all_returned todo0) (w_user w)
  | _ => False
  end.
Proof using All. apply (fj_total (R := refused_in (start σ))); try done; by left. Qed.
End whole_checked.

(** ** The rules for programs that fork and join *)

Section rules.
Context {L U : Type} `{Allocator, LinkMap, Bodies L U, !LeafBodies L U}.
Variables (check : checking) (size : Z) (free : bool) (todo0 : list (ptr * ptr)) (u0 : U).
Local Abbreviation T := (fj_point + L)%type.
Local Instance rule_code : UserCode T U := program (fork_join_with check size free).
Local Abbreviation start σ := (init_world σ u0 (inl (FCreate todo0 []))).

Hypothesis size_ok : ¬ 0 < wrap64 size < 16.
Hypothesis todo_max : Z.of_nat (length todo0) ≤ MAX_COROUTINES.
Hypothesis todo_fn : Forall (λ fa, fa.1 ≠ NULL) todo0.
Context (J : list (option L) → U → Prop) `{!Jobs J}.
Hypothesis J0 : J (start_of <$> todo0) u0.
Variable σ : alloc_state.
Hypothesis check_ok : check = Each ∨ ¬ refused_in (start σ).

(** If the bodies keep [J], then in every state of the run, for any allocator:
    nothing faults; [J] holds of the memory and of the control points the
    unfinished coroutines are at ([placed]); and once main is back from [co_run]
    and after it has ended, [J] holds with all coroutines returned, unless
    [malloc] refuses one of the creations of this very run: then main has ended
    at once.  A main that does not check the result of [co_create] is covered
    for the runs without a refusal. *)
Theorem fork_join_outcome n (w : world T U) :
  steps n (start σ) w →
  (∀ e, step w ≠ Faulted e)
  ∧ (∃ made locs, J locs (w_user w) ∧ placed check size free w made locs)
  ∧ (∀ made, w_cpu w = [FUser (inl (FJoined made))] → J (all_returned todo0) (w_user w))
  ∧ (step w = Halted →
     refused_in (start σ) ∧ w_user w = u0 ∨ J (all_returned todo0) (w_user w)).
Proof using All. intros. by eapply (fj_outcome (R := refused_in (start σ))). Qed.

(** If moreover the bodies have a cost, the program ends: main returns
    within the number of transitions given, and then [J] holds with all
    coroutines returned, unless [malloc] has refused one of the creations of
    this very run and main gave up. *)
Theorem fork_join_total cost Q `{!BodyCost cost Q} fuel :
  Q u0 → (5 * (3 * main_cost cost (FCreate todo0 []) u0 + 2) ≤ fuel)%nat →
  match exec fuel (start σ) with
  | Finished w => refused_in (start σ) ∧ w_user w = u0 ∨ J (all_returned todo0) (w_user w)
  | _ => False
  end.
Proof using All. intros. by eapply (fj_total (R := refused_in (start σ))). Qed.
End rules.

(** How many of the control points satisfy [f]. *)
Definition tally_locs {L} (f : L → bool) (locs : list (option L)) : Z :=
  sumZ ((λ loc, match loc with Some l => if f l then 1 else 0 | None => 0 end) <$> locs).

Lemma tally_locs_insert {L} (f : L → bool) locs j l loc' :
  locs !! j = Some (Some l) →
  tally_locs f (<[j := loc']> locs)
  = tally_locs f locs - (if f l then 1 else 0)
    + match loc' with Some l' => if f l' then 1 else 0 | None => 0 end.
Proof.
  intros Hj. unfold tally_locs. rewrite list_fmap_insert.
  rewrite (sumZ_insert _ _ (if f l then 1 else 0)); [done|]. by rewrite list_lookup_fmap, Hj.
Qed.

Lemma tally_locs_nonneg {L} (f : L → bool) locs : 0 ≤ tally_locs f locs.
Proof.
  unfold tally_locs. induction locs as [|[l|] locs IH]; cbn; [done|unfold sumZ in *..]; [|lia].
  destruct (f l); lia.
Qed.

(** At most one of the control points satisfies [f]. *)
Lemma tally_locs_unique {L} (f : L → bool) locs i j a b :
  tally_locs f locs ≤ 1 → locs !! i = Some (Some a) → locs !! j = Some (Some b) →
  f a = true → f b = true → i = j.
Proof.
  intros Hle Hi Hj Ha Hb. destruct (decide (i = j)) as [|Hne]; [done|exfalso].
  pose proof (tally_locs_insert f _ _ _ None Hi) as H1.
  assert (<[i := None]> locs !! j = Some (Some b)) as Hj' by by rewrite list_lookup_insert_ne.
  pose proof (tally_locs_insert f _ _ _ None Hj') as H2. rewrite Ha in H1. rewrite Hb in H2.
  pose proof (tally_locs_nonneg f (<[j := None]> (<[i := None]> locs))). lia.
Qed.

(** All or none of the control points the coroutines start at satisfy [f]. *)
Lemma tally_locs_const {L} (f : L → bool) (b : bool) (ls : list L) :
  Forall (λ l, f l = b) ls → tally_locs f (Some <$> ls) = if b then Z.of_nat (length ls) else 0.
Proof.
  unfold tally_locs. induction 1 as [|l ls Hl _ IH]; cbn -[Z.of_nat]; [by destruct b|].
  unfold sumZ in *. rewrite IH, Hl. destruct b; lia.
Qed.

Lemma tally_locs_some {L} (f : L → bool) locs :
  0 < tally_locs f locs → ∃ j l, locs !! j = Some (Some l) ∧ f l = true.
Proof.
  unfold tally_locs. induction locs as [|loc locs IH]; cbn; [lia|]. intros Ht.
  destruct loc as [l|]; [destruct (f l) eqn:Hl; [by exists 0%nat, l|]|];
    (destruct IH as (j & l' & Hj & Hl'); [unfold sumZ in *; lia|by exists (S j), l']).
Qed.

Lemma tally_locs_none {L} (f : L → bool) n : tally_locs f (replicate n None) = 0.
Proof. unfold tally_locs. rewrite fmap_replicate, sumZ_replicate. lia. Qed.

(** Distinct coroutines at such control points are at most as many. *)
Lemma placed_tally `{Allocator, LinkMap, Bodies L U} (check : checking) (size : Z) (free : bool)
    (f : L → bool) (w : world (fj_point + L) U) made locs ps :
  placed check size free w made locs → NoDup ps →
  (∀ p, p ∈ ps → ∃ l, thread_at (H1 := program (fork_join_with check size free)) w (Some p) = Some (At (inr l))
                      ∧ f l = true) →
  Z.of_nat (length ps) ≤ tally_locs f locs.
Proof.
  intros [Hn Hp] Hps Hf.
  set (ok := λ q : ptr * option L, match q.2 with Some l => f l | None => false end).
  assert (Z.of_nat (length (base.filter ok (zip made locs))) ≤ tally_locs f locs) as Hle.
  { clear. revert locs. induction made as [|p made IH]; intros locs;
      [apply (tally_locs_nonneg f)|]. destruct locs as [|loc locs]; [done|]. cbn [zip zip_with].
    rewrite filter_cons. specialize (IH locs). unfold tally_locs in *. cbn [fmap list_fmap].
    unfold sumZ in *. cbn [foldr]. unfold ok in *. cbn [snd].
    destruct loc as [l|]; [destruct (f l); cbn [Is_true]|cbn [Is_true]];
      case_decide; cbn [length]; try done; lia. }
  etrans; [|exact Hle]. apply inj_le.
  rewrite <- (length_fmap fst). apply submseteq_length, NoDup_submseteq; [done|].
  intros p Hin. destruct (Hf p Hin) as (l & Hl & Hfl). destruct (Hp _ _ Hl) as (j & Hj & Hloc).
  apply list_elem_of_fmap. exists (p, Some l). split; [done|].
  apply list_elem_of_filter. split; [by cbn; rewrite Hfl|].
  apply list_elem_of_lookup. exists j. by apply lookup_zip_Some.
Qed.

(** ** Too many coroutines *)

Section too_many.
Context {L U : Type} `{R : Refusal, Allocator, LinkMap, Bodies L U, !LeafBodies L U}.
Variables (size : Z) (free : bool) (todo0 : list (ptr * ptr)) (u0 : U).
Hypothesis size_ok : ¬ 0 < wrap64 size < 16.
Hypothesis todo_many : MAX_COROUTINES < Z.of_nat (length todo0).
Hypothesis todo_fn : Forall (λ fa, fa.1 ≠ NULL) todo0.

Local Abbreviation T := (fj_point + L)%type.
Local Instance many_code : UserCode T U := program (fork_join size free).
Implicit Types P : pool T U.

(** Main is still creating, or has given up. *)
Definition creating P : Prop :=
  p_mem P = u0 ∧ ((∃ done todo made, todo0 = done ++ todo ∧ length made = length done ∧ p_reg P = made
     ∧ Z.of_nat (length made) ≤ MAX_COROUTINES
     ∧ p_threads P !! None = Some (At (inl (FCreate todo made))))
  ∨ may_refuse ∧ (p_threads P !! None = Some (At (inl FFail)) ∨ p_threads P !! None = None)).

Definition left_to_create P : nat :=
  match p_threads P !! None with
  | Some (At (inl (FCreate todo _))) => length todo + 2
  | Some (At (inl FFail)) => 1
  | _ => 0
  end.

(** Something is left to create. *)
Lemma creating_head dn todo (made : list ptr) :
  todo0 = dn ++ todo → length made = length dn → Z.of_nat (length made) ≤ MAX_COROUTINES →
  ∃ fn arg todo', todo = (fn, arg) :: todo' ∧ fn ≠ NULL.
Proof using todo_many todo_fn.
  intros Hd Hl Hm. pose proof todo_fn as Hfn. pose proof todo_many as Hmany.
  rewrite Hd in Hfn, Hmany. destruct todo as [|[fn arg] todo'].
  - rewrite app_nil_r in Hmany. lia.
  - apply Forall_app in Hfn as [_ [Hf _]%Forall_cons]. eauto 10.
Qed.

Lemma creating_step P P' :
  creating P → pool_step P P' → creating P' ∧ (left_to_create P' < left_to_create P)%nat.
Proof using todo_many todo_fn.
  intros HP Hs. unfold left_to_create, creating in *.
  destruct HP as [Hmem [(dn & todo & made & Hd & Hl & Hr & Hm & Ht)|[Hnull [Ht|Ht]]]];
    destruct Hs as [t y c u P1 Hy Hu Hin Hcs|p x Hp Hx Hlive|x Hx Ha]; try congruence;
    (destruct t as [p|]; [destruct (Hin ltac:(done)) as [x Hx]; congruence|]);
    rewrite Ht in Hy; try done; injection Hy as <-.
  - destruct (creating_head dn todo made Hd Hl Hm) as (fn & arg & todo' & -> & Hfn).
    injection Hu as <- <-. rewrite Ht. inversion Hcs as [| | | | | |? ? ? ? _ Hnull|? ? ? ? p _ Hp _ Hlt| | | |];
      subst; cbn [goes p_threads p_reg].
    + rewrite lookup_insert_eq. cbn. split; [eauto 10|lia].
    + rewrite lookup_insert_ne, lookup_insert_eq, (proj2 (Z.eqb_neq _ _)) by done.
      rewrite Hl in *. split; [split; [done|left]|cbn; lia].
      exists (dn ++ [(fn, arg)]), todo', (p_reg P ++ [p]). rewrite <- app_assoc, !length_app. cbn.
      split_and!; [done|lia|done|lia|done].
  - injection Hu as <- <-. rewrite Ht. inversion Hcs; subst; [|done]. cbn.
    rewrite lookup_delete_eq. split; [eauto 10|lia].
Qed.

Lemma creating_fault P e : creating P → pool_fault P e → e = AssertTooMany.
Proof using size_ok todo_many todo_fn.
  intros HP He. unfold creating in HP.
  destruct HP as [Hmem [(dn & todo & made & Hd & Hl & Hr & Hm & Ht)|[Hnull [Ht|Ht]]]];
    destruct He as [t y c u e Hy Hu Hin Hf|p x q Hp Hx Hq Hlive]; try congruence;
    (destruct t as [p|]; [destruct (Hin ltac:(done)) as [x Hx]; congruence|]);
    rewrite Ht in Hy; try done; injection Hy as <-.
  - destruct (creating_head dn todo made Hd Hl Hm) as (fn & arg & todo' & -> & Hfn).
    injection Hu as <- <-. by inversion Hf.
  - injection Hu as <- <-. inversion Hf.
Qed.

Lemma fj_too_many (σ : alloc_state) fuel :
  (refused_in (init_world σ u0 (inl (FCreate todo0 []))) → may_refuse) →
  (5 * (length todo0 + 2) ≤ fuel)%nat →
  match exec fuel (init_world σ u0 (inl (FCreate todo0 []))) with
  | Crashed e => e = AssertTooMany
  | Finished w => may_refuse ∧ w_user w = u0
  | OutOfFuel _ => False
  end.
Proof using LeafBodies0 size_ok todo_fn todo_many.
  intros Hmay Hf. pose proof (exec_ends body_point creating left_to_create) as He.
  specialize (He ltac:(intros P P' HP Hs; by apply (creating_step P P'))).
  specialize (He ltac:(intros P P' HP Hs; by apply (creating_step P P'))).
  specialize (He _ _ fuel (init_viewed body_point σ u0 (inl (FCreate todo0 [])) Hmay)).
  specialize (He ltac:(split; [done|left; exists [], todo0, []; by split_and!])).
  specialize (He ltac:(unfold left_to_create; cbn [p_threads init_pool];
    rewrite lookup_singleton_eq; cbn; lia)).
  destruct (exec fuel _) as [w|e|w]; [|destruct He as (P & HP & Hn); by eapply creating_fault|done].
  destruct He as (P & (_ & Hv & _) & [Hmem HP] & Hn). rewrite <- (vw_mem _ _ Hv). split; [|done].
  destruct HP as [(dn & todo & made & _ & _ & _ & _ & Ht)|[Hnull _]]; [congruence|done].
Qed.
End too_many.

Lemma fj_checked_too_many {L U : Type} `{Allocator, LinkMap, Bodies L U, !LeafBodies L U}
    (size : Z) (free : bool) (todo0 : list (ptr * ptr)) (u0 : U) (σ : alloc_state) fuel :
  let w0 := init_world σ u0 (inl (FCreate todo0 [])) in
  let code := program (fork_join size free) in
  ¬ 0 < wrap64 size < 16 → MAX_COROUTINES < Z.of_nat (length todo0) →
  Forall (λ fa : ptr * ptr, fa.1 ≠ NULL) todo0 → (5 * (length todo0 + 2) ≤ fuel)%nat →
  match exec fuel w0 with
  | Crashed e => e = AssertTooMany
  | Finished w => refused_in w0 ∧ w_user w = u0
  | OutOfFuel _ => False
  end.
Proof. intros w0 code Hs Hm Hfn Hf. by eapply (fj_too_many (R := refused_in w0)). Qed.

(** A program that creates more than [MAX_COROUTINES] coroutines is stopped by
    the assertion of [co_create] before any of them runs, unless [malloc] has
    refused one of the creations before and main has given up. *)
Theorem fork_join_too_many {L U : Type} `{Allocator, LinkMap, Bodies L U, !LeafBodies L U}
    (size : Z) (free : bool) (todo0 : list (ptr * ptr)) (u0 : U) (σ : alloc_state) fuel :
  let w0 := init_world σ u0 (inl (FCreate todo0 [])) in
  let code := program (fork_join size free) in
  ¬ 0 < wrap64 size < 16 → MAX_COROUTINES < Z.of_nat (length todo0) →
  Forall (λ fa : ptr * ptr, fa.1 ≠ NULL) todo0 → (5 * (length todo0 + 2) ≤ fuel)%nat →
  match exec fuel w0 with
  | Crashed e => e = AssertTooMany
  | Finished w => refused_in w0 ∧ w_user w = u0
  | OutOfFuel _ => False
  end.
Proof. apply fj_checked_too_many. Qed.

(** ** A program with three coroutines, each of which counts once *)

Module ForkJoinDemo.
#[export] Existing Instance MachineDemo.link.

(** Before and after its only yield. *)
Inductive point : Set := Start | Yielded.
#[export] Instance bodies : Bodies point Z := {|
  body_step l u := match l with Start => (UYield Yielded, u) | Yielded => (UReturn, u + 1) end;
  body_fn _ _ := Start
|}.
#[export] Instance leaf : LeafBodies point Z.
Proof. by intros [] u z. Qed.

(** [u] of the [n] coroutines have returned. *)
Definition counted (n : Z) (locs : list (option point)) (u : Z) : Prop :=
  u + tally_locs (λ _, true) locs = n.
#[export] Instance jobs n : Jobs (counted n).
Proof.
  split. intros locs u j [] Hu Hj; cbn; unfold counted in *;
    rewrite (tally_locs_insert _ _ _ _ _ Hj); lia.
Qed.
Definition cost (l : point) (_ : Z) : nat := match l with Start => 1 | Yielded => 0 end.
#[export] Instance body_cost : BodyCost cost (λ _, True).
Proof. split; [done|by intros [] u _; cbn; lia|by intros [] l' u _]. Qed.

Definition todo : list (ptr * ptr) := [(1, 0); (1, 0); (1, 0)].
Lemma todo_fn : Forall (λ fa : ptr * ptr, fa.1 ≠ NULL) todo.
Proof. by apply (Forall_replicate _ 3 (1, 0)). Qed.
Lemma todo_max : Z.of_nat (length todo) ≤ MAX_COROUTINES.
Proof. done. Qed.
Lemma counted0 : counted 3 (start_of <$> todo) 0.
Proof. done. Qed.
#[export] Instance code : UserCode (fj_point + point) Z := program (fork_join 0 true).
Definition demo : world (fj_point + point) Z := init_world heap0 0 (inl (FCreate todo [])).
#[local] Instance may : Refusal := refused_in demo.

Lemma run_interleaves_witness :
  ∃ C, inv (f_cur C) (f_queue C) (default demo (go 20 demo))
    ∧ viewed (default demo (go 20 demo)) (f_pool C)
    ∧ rtc fifo_step (Config None [] (init_pool 0 (inl (FCreate todo [])))) C.
Proof.
  apply (run_interleaves (H := may) (H0 := bump_allocator) body_point 20 _ heap0); [done|]. apply (go_steps 20 demo). by vm_compute.
Defined.

Lemma run_terminates_witness :
  match exec 250 demo with
  | Finished w => ∃ P, in_pool body_point w P
      ∧ rtc pool_step (init_pool 0 (inl (FCreate todo []))) P ∧ p_threads P !! None = None
  | Crashed e => ∃ P, rtc pool_step (init_pool 0 (inl (FCreate todo []))) P ∧ pool_fault P e
  | OutOfFuel _ => False
  end.
Proof.
  apply (@run_terminates _ _ may bump_allocator _ code body_point (program_leaf _) (fj_cost cost)
    (λ _, True) (fj_costed Each 0 true todo cost (λ _, True)) heap0 0 (inl (FCreate todo [])) 250); [done..|].
  by apply leb_complete.
Defined.

Lemma fork_join_outcome_witness :
  (∀ e, step (default demo (go 35 demo)) ≠ Faulted e)
  ∧ ∃ made locs, counted 3 locs (w_user (default demo (go 35 demo)))
      ∧ placed Each 0 true (default demo (go 35 demo)) made locs.
Proof.
  destruct (fork_join_outcome (H := bump_allocator) Each 0 true todo 0 size_default todo_max todo_fn
    (counted 3) counted0 heap0 (checked _) 35 (default demo (go 35 demo)))
    as (Hf & Hl & _); [|by split].
  apply (go_steps 35 demo). by vm_compute.
Defined.

Lemma fork_join_total_witness :
  match exec 250 demo with
  | Finished w => refused_in demo ∧ w_user w = 0 ∨ counted 3 (all_returned todo) (w_user w)
  | _ => False
  end.
Proof.
  apply (fork_join_total (H := bump_allocator) Each 0 true todo 0 size_default todo_max todo_fn
    (counted 3) counted0 heap0 (checked _) cost (λ _, True) 250); [done|].
  by apply leb_complete.
Defined.

(** 513 coroutines are one too many. *)
Definition many : world (fj_point + point) Z :=
  init_world heap0 0 (inl (FCreate (replicate 513 (1, 0)) [])).
Lemma fork_join_too_many_witness :
  match exec 2600 many with
  | Crashed e => e = AssertTooMany
  | Finished w => refused_in many ∧ w_user w = 0
  | OutOfFuel _ => False
  end.
Proof.
  apply (fork_join_too_many (H := bump_allocator) 0 true (replicate 513 (1, 0)) 0 heap0 2600 size_default).
  - by rewrite length_replicate.
  - by apply Forall_replicate.
  - rewrite length_replicate. by apply leb_complete.
Defined.
End ForkJoinDemo.
