(* ===== verification/Rounds.v ===== *)
(** * Round robin

    When coroutines only yield, first in first out means turns: [round_robin] is
    a function that executes the bodies one after the other, each up to its next
    [co_yield], and puts it behind the others.  [fork_join_round_robin]: that is
    what a program that forks and joins computes, so busy-waiting programs,
    which have no cost in the sense of [Progress], can be verified by executing
    or reasoning about this function. *)

From stdpp Require Import gmap relations.
From S2P Require Import Prelude Ring Machine State RunQueue Api Ops Invariant.
From S2P Require Import Preserve Create Spec Refine Safety Threads Demo User Progress ForkJoin.

(** Bodies that make no call but [co_yield]. *)
Class YieldBodies (L U : Type) `{Bodies L U} : Prop :=
  yb_call (l : L) (u : U) :
    match (body_step l u).1 with UReturn | UTau _ | UYield _ => True | _ => False end.

(** ** The turns *)

Section turns.
Context {L U : Type} `{Bodies L U}.
Implicit Types (q : list L) (u : U).

(** One stretch of the body whose turn it is; [None] when there is none. *)
Definition turn q u : option (list L * U) :=
  match q with
  | [] => None
  | l :: q =>
      match body_step l u with
      | (UReturn, u) => Some (q, u)
      | (UTau l, u) => Some (l :: q, u)
      | (UYield l, u) => Some (q ++ [l], u)
      | _ => None
      end
  end.

(** The memory when all bodies have returned, after at most [n] stretches. *)
Fixpoint round_robin (n : nat) q u : option U :=
  match q with
  | [] => Some u
  | _ => match n with
         | O => None
         | S n => '(q, u) ← turn q u; round_robin n q u
         end
  end.

Lemma round_robin_turn n q u q' u' :
  turn q u = Some (q', u') → round_robin (S n) q u = round_robin n q' u'.
Proof. destruct q as [|l q]; [done|]. intros Ht. cbn [round_robin]. by rewrite Ht. Qed.

Lemma round_robin_more n m q u u' :
  round_robin n q u = Some u' → (n ≤ m)%nat → round_robin m q u = Some u'.
Proof.
  revert m q u. induction n as [|n IH]; intros m q u; destruct q as [|l q]; try done.
  - by destruct m.
  - by destruct m.
  - destruct m as [|m]; [lia|]. cbn [round_robin].
    destruct (turn (l :: q) u) as [[q' v]|]; [|done]. cbn. intros Hr Hm. apply IH; [done|lia].
Qed.
End turns.

#[export] Instance yield_leaf {L U : Type} `{Bodies L U, !YieldBodies L U} : LeafBodies L U.
Proof. intros l u z Hc. pose proof (yb_call l u) as Hy. by rewrite Hc in Hy. Qed.

#[export] Instance yield_jobs {L U : Type} `{Bodies L U, !YieldBodies L U} :
  Jobs (λ (_ : list (option L)) (_ : U), True).
Proof.
  split. intros locs u j l _ _. pose proof (yb_call l u) as Hy.
  destruct (body_step l u) as [c u']. by destruct c.
Qed.

(** ** The library takes turns *)

(** Programs whose coroutines execute bodies, whatever main does. *)
Class BodyCode {M L U : Type} `{Bodies L U} (code : UserCode (M + L) U) : Prop := {
  bcode_step (l : L) (u : U) :
    ustep (inr l : M + L) u = (ucall_map inr (body_step l u).1, (body_step l u).2);
  bcode_fn fn arg : ufn fn arg = inr (body_fn fn arg) :> M + L
}.

#[export] Instance program_bodies {M L U : Type} `{Bodies L U} (main_step : M → ucall M) :
  BodyCode (program main_step).
Proof. split; [|done]. intros l u. cbn. by destruct (body_step l u). Qed.

Section library.
Context {M L U : Type} `{R : Refusal, Bodies L U, YB : !YieldBodies L U}.
Context {code : UserCode (M + L) U} `{BC : !BodyCode code}.
Implicit Types (P : pool (M + L) U) (q : list L) (u : U) (x : M + L).

(** The coroutines [ps] are at the control points [q]. *)
Definition lined P (ps : list ptr) q : Prop :=
  Forall2 (λ p l, p_threads P !! Some p = Some (At (inr l))) ps q.

(** The coroutines of [C] are at [q], in the order of their turns; [e] is 1
    when one has returned and is not finished. *)
Inductive in_turn (C : config) q : nat → Prop :=
| it_idle : f_cur C = None → NoDup (f_queue C) → lined (f_pool C) (f_queue C) q → in_turn C q 0
| it_turn p l q' : f_cur C = Some p → NoDup (p :: f_queue C) →
    p_threads (f_pool C) !! Some p = Some (At (inr l)) →
    lined (f_pool C) (f_queue C) q' → q = l :: q' → in_turn C q 0
| it_exit p : f_cur C = Some p → NoDup (p :: f_queue C) →
    p_threads (f_pool C) !! Some p = Some Exiting →
    lined (f_pool C) (f_queue C) q → in_turn C q 1.

Lemma lined_goes P ps q t th u :
  lined P ps q → (∀ p, t = Some p → p ∉ ps) → lined (goes P t th u) ps q.
Proof using.
  intros Hl Ht. apply Forall2_same_length_lookup_2; [by eapply Forall2_length|].
  intros i p l Hp Hq. cbn. rewrite lookup_insert_ne.
  - by eapply (Forall2_lookup_lr _ _ _ _ _ _ Hl).
  - intros ->. apply (Ht p eq_refl). by eapply list_elem_of_lookup_2.
Qed.

Lemma lined_exit P ps q p dead reg u :
  lined P ps q → p ∉ ps →
  lined (Pool (wake_thread p <$> delete (Some p) (p_threads P)) dead reg u) ps q.
Proof using.
  intros Hl Ht. apply Forall2_same_length_lookup_2; [by eapply Forall2_length|].
  intros i r l Hp Hq. cbn. rewrite lookup_fmap, lookup_delete_ne.
  - by rewrite (Forall2_lookup_lr _ _ _ _ _ _ Hl Hp Hq).
  - intros [= ->]. apply Ht. by eapply list_elem_of_lookup_2.
Qed.

Definition awaits_none P : Prop := ∀ p th, p_threads P !! Some p = Some th → ¬ awaits_thread th.

(** Transitions while main is in [co_run]. *)
Lemma in_turn_inner C C' q e :
  in_turn C q e → fifo_inner C C' → in_turn C' q e.
Proof using.
  intros Ht Hs. destruct Hs as [C1|p l P x y Hx Hy]; [done|].
  destruct Ht as [Hc Hn Hl|p' l' q' Hc|p' Hc]; [|done..]. cbn in *.
  apply Forall2_cons_inv_l in Hl as (l0 & q' & Hp & Hl & ->).
  by eapply (it_turn _ _ p l0 q').
Qed.

Lemma in_turn_act C C' q e x :
  awaits_none (f_pool C) → p_threads (f_pool C) !! None = Some (InRun x) →
  in_turn C q e → fifo_act C C' →
  p_threads (f_pool C') !! None = p_threads (f_pool C) !! None
  ∧ ((∃ e' q', turn q (p_mem (f_pool C)) = Some (q', p_mem (f_pool C')) ∧ in_turn C' q' e')
     ∨ (e = 1%nat ∧ p_mem (f_pool C') = p_mem (f_pool C) ∧ in_turn C' q 0))
  ∨ q = [] ∧ p_mem (f_pool C') = p_mem (f_pool C)
    ∧ p_threads (f_pool C') !! None = Some (At x).
Proof using YB BC.
  intros Hna Hmain Ht Hs.
  destruct Hs as [t l P y c u P' t' l' Hy Hu Hx Hc Hq|
    p l P x' ws Hp Hx Hlive Hnd Hsub Hws|P x' Hx Ha]; cbn in *.
  - left.
    destruct Ht as [Hcur Hn Hl|p l0 q' Hcur Hn Hp Hl ->|p Hcur Hn Hp Hl]; cbn in *; subst; [congruence| |congruence].
    rewrite Hp in Hy. injection Hy as <-. rewrite bcode_step in Hu.
    pose proof (yb_call l0 (p_mem P)) as Hyb. unfold turn.
    destruct (body_step l0 (p_mem P)) as [c0 u0']. cbn in Hu, Hyb. injection Hu as <- <-.
    apply NoDup_cons in Hn as [Hpl Hn].
    assert (∀ th u, lined (goes P (Some p) th u) l q') as Hl'.
    { intros th u. apply lined_goes; [done|]. by intros ? [= <-]. }
    destruct c0; try done; cbn in Hc, Hq; inversion Hc; subst; try done; inversion Hq; subst; try done.
    + split; [by apply lookup_insert_ne|left].
      eexists _, _. split; [done|]. eapply (it_exit _ _ p); [done|by apply NoDup_cons| |apply Hl'].
      apply lookup_insert_eq.
    + split; [by apply lookup_insert_ne|left].
      eexists _, _. split; [done|]. eapply (it_turn _ _ p); [done|by apply NoDup_cons| |apply Hl'|done].
      apply lookup_insert_eq.
    + simplify_eq. split; [by apply lookup_insert_ne|left].
      eexists _, _. split; [done|]. apply it_idle; [done| |]; cbn.
      * apply NoDup_app. split_and!; [done| |apply NoDup_singleton].
        by intros r Hr ->%list_elem_of_singleton.
      * apply Forall2_app; [apply Hl'|]. constructor; [apply lookup_insert_eq|done].
  - left. split; [by rewrite lookup_fmap, lookup_delete_ne, Hmain|right].
    destruct Ht as [Hcur Hn Hl|p' l0 q' Hcur Hn Hp' Hl ->|p' Hcur Hn Hp' Hl]; cbn in *;
      simplify_eq; [].
    split; [done|]. split; [done|]. apply NoDup_cons in Hn as [Hpl Hn].
    destruct ws as [|r ws]; cycle 1.
    { exfalso. destruct (proj1 (Hws r)) as [z Hz]; [by left|]. apply (Hna _ _ Hz). by exists p', z. }
    rewrite app_nil_r. apply it_idle; [done|done|]. by apply lined_exit.
  - right.
    destruct Ht as [Hcur Hn Hl|p' l0 q' Hcur|p' Hcur]; [|done..]. cbn in *.
    apply Forall2_nil_inv_l in Hl as ->. rewrite Hmain in Hx. injection Hx as <-.
    split_and!; [done|done|apply lookup_insert_eq].
Qed.

(** While main is not in [co_run] only main runs. *)
Lemma main_alone C C' :
  fifo_act C C' → (∀ x, p_threads (f_pool C) !! None ≠ Some (InRun x)) →
  ∃ y c u, p_threads (f_pool C) !! None = Some (At y) ∧ ustep y (p_mem (f_pool C)) = (c, u)
    ∧ f_cur C = None ∧ call_step (f_pool C) None u c (f_pool C')
    ∧ queue_step (f_pool C) None (f_queue C) c (f_pool C') (f_cur C') (f_queue C').
Proof using.
  intros Hs Hm. destruct Hs as [t l P y c u P' t' l' Hy Hu Hx Hc Hqs|p l P x ws _ Hx _ _ _ _|P x Hx Ha];
    cbn in *; [|by apply Hm in Hx..].
  destruct t as [p|]; [destruct (Hx ltac:(done)) as [x Hx']; by apply Hm in Hx'|].
  by exists y, c, u.
Qed.
End library.

Section rounds.
Context {L U : Type} `{R : Refusal, AL : Allocator, LK : LinkMap, Bodies L U, YB : !YieldBodies L U}.
Variables (check : checking) (size : Z) (free : bool) (todo0 : list (ptr * ptr)) (u0 : U).
Hypothesis check_ok : check = Each ∨ ¬ may_refuse.

Local Abbreviation T := (fj_point + L)%type.
Local Instance rounds_code : UserCode T U := program (fork_join_with check size free).
Local Abbreviation anything := (λ (_ : list (option L)) (_ : U), True).
Implicit Types (P : pool T U) (q : list L) (u : U).

Definition starts : list L := (λ fa, body_fn fa.1 fa.2) <$> todo0.

Lemma crew_awaits_none P made (locs : list (option L)) : crew P made locs → awaits_none P.
Proof using.
  intros Hc p th Hp (o & x & ->).
  by destruct (cw_thread _ _ _ Hc _ _ Hp) as (j & [] & _ & _ & ?).
Qed.

(** ** Whole programs *)

Lemma crew_lined P made ls : crew P made (Some <$> ls) → lined P made ls.
Proof using.
  intros Hc. pose proof (cw_length _ _ _ Hc) as Hl. rewrite length_fmap in Hl.
  apply Forall2_same_length_lookup_2; [done|]. intros i p l Hp Hi.
  assert ((Some <$> ls) !! i = Some (Some l)) as Hsi by (by rewrite list_lookup_fmap, Hi).
  assert (∀ j loc, made !! j = Some p → (Some <$> ls) !! j = Some loc → loc = Some l) as Hj.
  { intros j loc Hj Hloc. assert (j = i) as -> by (eapply NoDup_lookup; [apply Hc|done..]). congruence. }
  destruct (cw_live _ _ _ Hc p) as [[th Ht]|Hd]; [by eapply list_elem_of_lookup_2|..].
  - destruct (cw_thread _ _ _ Hc _ _ Ht) as (j & loc & Hjp & Hloc & Hth).
    rewrite (Hj _ _ Hjp Hloc) in Hth. cbn in Hth. by subst.
  - destruct (cw_dead _ _ _ Hc _ Hd) as (_ & j & Hjp & Hloc). by specialize (Hj _ _ Hjp Hloc).
Qed.

(** What is left to do when main is where it is in [C], and [u'] the memory at
    the end. *)
Definition to_do (u' : U) (C : config) (n : nat) : Prop :=
  match p_threads (f_pool C) !! None with
  | Some (At (inl (FCreate todo made))) =>
      f_cur C = None ∧ f_queue C = made ∧ p_mem (f_pool C) = u0
      ∧ ∃ k, round_robin k starts u0 = Some u' ∧ n = (2 * k + 2 * length todo + length made + 3)%nat
  | Some (InRun (inl (FJoined made))) =>
      ∃ q k e, in_turn C q e ∧ round_robin k q (p_mem (f_pool C)) = Some u'
        ∧ n = (2 * k + e + length made + 2)%nat
  | Some (At (inl (FJoined made))) => p_mem (f_pool C) = u' ∧ n = (length made + 1)%nat
  | Some (At (inl FFail)) => n = 1%nat
  | None => n = 0%nat ∧ (may_refuse ∧ p_mem (f_pool C) = u0 ∨ p_mem (f_pool C) = u')
  | _ => False
  end.

Lemma to_do_inner u' C C' n : to_do u' C n → fifo_inner C C' → to_do u' C' n.
Proof using.
  unfold to_do. intros Hn Hs. rewrite (fifo_inner_pool _ _ Hs).
  destruct (p_threads (f_pool C) !! None) as [[[[todo made| |]|]| |[[]|]|]|] eqn:Hmain; try done.
  - destruct Hs as [C1|p l P x y Hx Hy]; [done|]. cbn in *. congruence.
  - destruct Hn as (q & k & e & Hq & Hk & ->). exists q, k, e. split_and!; [|done..].
    by eapply in_turn_inner.
Qed.

Lemma starts_crew P made : crew P made (start_of <$> todo0) → lined P made starts.
Proof using.
  intros Hc. apply crew_lined. unfold starts. by rewrite <- list_fmap_compose.
Qed.

(** Main creates a coroutine, or calls [co_run]. *)
Lemma to_do_create u' C C' n todo made :
  fj_inv anything todo0 u0 (f_pool C) →
  p_threads (f_pool C) !! None = Some (At (inl (FCreate todo made))) →
  to_do u' C n → fifo_act C C' → ∃ n', to_do u' C' n' ∧ (n' < n)%nat.
Proof using check_ok.
  intros HP Ht Hn Hs. unfold to_do in Hn. rewrite Ht in Hn.
  destruct Hn as (Hcur & Hq & Hm & k & Hk & ->).
  destruct Hs as [t l P y c u P' t' l' Hy Hu Hx Hc Hqs|p l P x ws _ Hx _ _ _ _|P x Hx Ha];
    cbn in *; [|congruence..]. subst t l.
  destruct HP as [dn todo' made' Hd Ht' Hcrew _|made' locs _ Ht'|made' Ht'|_ Ht' _|Ht' _];
    rewrite Ht in Ht'; try done; injection Ht' as <- <-.
  rewrite Ht in Hy. injection Hy as <-.
  destruct todo as [|[fn arg] todo']; injection Hu as <- <-;
    [rewrite (crew_unrefused _ _ _ _ Hcrew) in Hc, Hqs|]; inversion Hc; subst; try done;
    inversion Hqs; simplify_eq; unfold to_do; cbn [goes f_pool p_threads f_cur f_queue p_mem].
  - rewrite lookup_insert_eq. eexists. split; [|shelve].
    exists starts, k, 0%nat. split; [|split; [by rewrite Hm|reflexivity]].
    rewrite app_nil_r in *. apply it_idle; [done|apply Hcrew|]. cbn.
    apply lined_goes; [|done]. apply starts_crew. by rewrite Hd.
    Unshelve. cbn. lia.
  - exfalso. cbn in *. match goal with He : _ = _ ++ [_] |- _ => apply (f_equal length) in He;
      rewrite length_app in He; cbn in He; lia end.
  - rewrite lookup_insert_eq. destruct check_ok as [->|Hnf]; [|done]. exists 1%nat. split; [done|lia].
  - rewrite lookup_insert_ne, lookup_insert_eq, (proj2 (Z.eqb_neq _ _)) by done.
    cbn [p_reg] in *. match goal with He : _ ++ [_] = _ ++ [_] |- _ => apply app_inj_2 in He as [_ [= ->]]; [|done] end.
    eexists. split; [|shelve]. split_and!; [done|done|done|]. exists k. split; [done|reflexivity].
    Unshelve. rewrite length_app. cbn. lia.
  - exfalso. cbn in *. match goal with He : _ ++ [_] = p_reg _ |- _ => apply (f_equal length) in He;
      rewrite length_app in He; cbn in He; lia end.
Qed.

(** The coroutines take turns. *)
Lemma to_do_run u' C C' n made :
  fj_inv anything todo0 u0 (f_pool C) →
  p_threads (f_pool C) !! None = Some (InRun (inl (FJoined made))) →
  to_do u' C n → fifo_act C C' → ∃ n', to_do u' C' n' ∧ (n' < n)%nat.
Proof using YB.
  intros HP Ht Hn Hs. unfold to_do in Hn. rewrite Ht in Hn. destruct Hn as (q & k & e & Hq & Hk & ->).
  assert (awaits_none (f_pool C)) as Hna.
  { destruct HP as [? ? ? ? Ht'|made' locs _ Ht' Hc _|? Ht'|? Ht'|Ht']; try congruence.
    by eapply crew_awaits_none. }
  destruct (in_turn_act C C' q e (inl (FJoined made)) Hna Ht Hq Hs)
    as [[Hmain [(e' & q' & Htn & Hq')|(-> & Hm & Hq')]]|(-> & Hm & Ht')];
    unfold to_do.
  - rewrite Hmain, Ht.
    assert (e' ≤ 1)%nat as He by (by destruct Hq'; lia).
    destruct q as [|l q]; [done|]. destruct k as [|k]; [done|].
    rewrite (round_robin_turn _ _ _ _ _ Htn) in Hk.
    eexists. split; [exists q', k, e'; by split_and!|]. destruct Hq; lia.
  - rewrite Hmain, Ht. eexists. split; [exists q, k, 0%nat; rewrite Hm; by split_and!|]. lia.
  - rewrite Ht', Hm. exists (length made + 1)%nat. split; [|lia]. split; [|done].
    destruct k; by injection Hk.
Qed.

Lemma to_do_step u' C C' n :
  fj_inv anything todo0 u0 (f_pool C) → to_do u' C n → fifo_act C C' →
  ∃ n', to_do u' C' n' ∧ (n' < n)%nat.
Proof using check_ok YB.
  intros HP Hn Hs. pose proof Hn as Hn0. unfold to_do in Hn0.
  destruct (p_threads (f_pool C) !! None) as [[[[todo made|made|]|l]| |[[]|]|]|] eqn:Ht; try done.
  - by eapply to_do_create.
  - destruct Hn0 as [Hm ->].
    destruct (main_alone _ _ Hs) as (y & c & u & Hy & Hu & _ & Hc & _); [congruence|].
    rewrite Ht in Hy. injection Hy as <-. unfold to_do.
    cbn in Hu. destruct made as [|p made]; [|destruct free]; injection Hu as <- <-;
      inversion Hc as [? HP'| | | | | | | |? ? ? HP'| | |]; try done; cbn [p_threads goes p_mem].
    + rewrite lookup_delete_eq. exists 0%nat. split; [|cbn; lia]. split; [done|by right].
    + rewrite lookup_insert_eq. eexists. split; [split; done|]. cbn. lia.
    + rewrite lookup_delete_eq. exists 0%nat. split; [|cbn; lia]. split; [done|by right].
  - subst n.
    destruct (main_alone _ _ Hs) as (y & c & u & Hy & Hu & _ & Hc & _); [congruence|].
    rewrite Ht in Hy. injection Hy as <-. unfold to_do.
    injection Hu as <- <-. inversion Hc as [? HP'| | | | | | | | | | |]; try done. cbn [p_threads p_mem]. rewrite lookup_delete_eq. exists 0%nat.
    split; [|lia]. split; [done|left].
    destruct HP as [? ? ? ? Ht'|? ? ? Ht'|? Ht'|Hnull _ (dn & todo & made & _ & _ & Hm)|Ht']; try congruence. done.
  - by eapply to_do_run.
  - destruct (main_alone _ _ Hs) as (y & c & u & Hy & _); congruence.
Qed.

Hypothesis size_ok : ¬ 0 < wrap64 size < 16.
Hypothesis todo_max : Z.of_nat (length todo0) ≤ MAX_COROUTINES.
Hypothesis todo_fn : Forall (λ fa, fa.1 ≠ NULL) todo0.

Lemma rounds_exec u' fuel (w : world T U) C n :
  in_fifo body_point w C → fj_inv anything todo0 u0 (f_pool C) → to_do u' C n →
  (5 * n + rank w ≤ fuel)%nat →
  match exec fuel w with
  | Finished w' => may_refuse ∧ w_user w' = u0 ∨ w_user w' = u'
  | _ => False
  end.
Proof using check_ok YB size_ok todo_fn todo_max.
  intros Hw HP Hn Hf.
  pose proof (fifo_ends body_point (λ C n, fj_inv anything todo0 u0 (f_pool C) ∧ to_do u' C n)) as He.
  specialize (He ltac:(intros C1 C2 m [HP1 Hm] Hs; rewrite (fifo_inner_pool _ _ Hs);
    split; [done|by eapply to_do_inner])).
  specialize (He ltac:(intros C1 C2 m [HP1 Hm] Hs;
    destruct (to_do_step _ _ _ _ HP1 Hm Hs) as (m' & Hm' & Hlt); exists m'; split_and!;
    [by apply (fj_inv_step anything check size free todo0 u0 check_ok _ _ I HP1), fifo_act_pool|done..])).
  specialize (He w C n fuel Hw (conj HP Hn) Hf).
  destruct (exec fuel w) as [w'|e|w']; [| |done].
  - destruct He as (C' & n' & (_ & Hv & _) & [_ Hn'] & Ht). unfold to_do in Hn'.
    rewrite Ht in Hn'. rewrite <- (vw_mem _ _ Hv). apply Hn'.
  - destruct He as (C' & n' & [HP' _] & He). by eapply (fj_no_fault anything check size free todo0 u0).
Qed.

Lemma rounds_total (σ : alloc_state) k u' fuel :
  (refused_in (init_world σ u0 (inl (FCreate todo0 []))) → may_refuse) →
  round_robin k starts u0 = Some u' → (5 * (2 * k + 2 * length todo0 + 3) ≤ fuel)%nat →
  match exec fuel (init_world σ u0 (inl (FCreate todo0 []))) with
  | Finished w => may_refuse ∧ w_user w = u0 ∨ w_user w = u'
  | _ => False
  end.
Proof using check_ok YB size_ok todo_fn todo_max.
  intros Hmay Hk Hf.
  pose proof (init_viewed body_point σ u0 (inl (FCreate todo0 [])) Hmay) as (_ & Hv & Hl & _).
  apply (rounds_exec u' fuel _ (Config None [] (init_pool u0 (inl (FCreate todo0 []))))
    (2 * k + 2 * length todo0 + 3)); [split; [apply inv_init|done]|exact (fj_inv_init anything todo0 u0 I)| |cbn; lia].
  unfold to_do. cbn. rewrite lookup_singleton_eq. split_and!; [done..|]. exists k. split; [done|cbn; lia].
Qed.
End rounds.

(** C25: Programs that fork and join, with at most [MAX_COROUTINES] coroutines
    whose bodies only yield, functions that are not null and stacks that hold
    the initial image, compute [round_robin]: if the bodies taken in turn, in the order of their creation,
    all return, and leave the memory [u'] after at most [k] stretches, then the
    program ends, within the number of transitions given, and leaves that
    memory, for any allocator, unless [malloc] refuses one of the creations of
    this run: a main that checks them then gives up with the memory untouched. *)
Theorem fork_join_round_robin {L U : Type} `{Allocator, LinkMap, Bodies L U, !YieldBodies L U}
    (check : checking) (size : Z) (free : bool) (todo0 : list (ptr * ptr)) (u0 : U)
    (σ : alloc_state) k u' fuel :
  let w0 := init_world σ u0 (inl (FCreate todo0 [])) in
  let code := program (fork_join_with check size free) in
  ¬ 0 < wrap64 size < 16 → Z.of_nat (length todo0) ≤ MAX_COROUTINES →
  Forall (λ fa : ptr * ptr, fa.1 ≠ NULL) todo0 →
  round_robin k (starts todo0) u0 = Some u' →
  (5 * (2 * k + 2 * length todo0 + 3) ≤ fuel)%nat →
  (check = Each ∨ ¬ refused_in w0) →
  match exec fuel w0 with
  | Finished w => refused_in w0 ∧ w_user w = u0 ∨ w_user w = u'
  | _ => False
  end.
Proof. intros. by eapply (rounds_total (R := refused_in w0)). Qed.

(** ** Three coroutines that count *)

Module RoundsDemo.
Import ForkJoinDemo.

#[export] Instance demo_yields : YieldBodies point Z.
Proof. by intros []. Qed.

Lemma demo_not_refused : ¬ refused_in demo.
Proof. apply (refuses_spec 200). by vm_compute. Qed.

Lemma fork_join_round_robin_witness :
  match exec 250 demo with
  | Finished w => refused_in demo ∧ w_user w = 0 ∨ w_user w = 3
  | _ => False
  end ∧ ¬ refused_in demo.
Proof.
  split; [|apply demo_not_refused].
  apply (fork_join_round_robin (H := bump_allocator) Each 0 true todo 0 heap0 6 3 250 size_default
    todo_max todo_fn); [done|by apply leb_complete|by left].
Defined.
End RoundsDemo.
