(* ===== verification/Phases.v ===== *)
(** * Fork and join, again and again

    Main programs that create coroutines, run them, go on, create others and
    run these: [phases].  They do not free, so every coroutine stays in the
    registry and [co_run] finds those of the earlier phases there, finished.
    [phases_total]: if the coroutines only yield, such a program computes what
    executing the phases one after the other by [round_robin] computes. *)

From stdpp Require Import gmap relations.
From S2P Require Import Prelude Ring Machine State RunQueue Api Ops Invariant.
From S2P Require Import Preserve Create Spec Refine Safety Threads Demo User Progress ForkJoin Rounds.

(** What main does to the memory, the size of the stacks and the coroutines to
    create, before it calls [co_run]. *)
Record phase (U : Type) := Phase {
  ph_prepare : U → U;
  ph_size : Z;
  ph_todo : list (ptr * ptr)
}.
Arguments Phase {U} _ _ _.
Arguments ph_prepare {U} _ _.
Arguments ph_size {U} _.
Arguments ph_todo {U} _.

(** Main: before the next phase, and creating its coroutines.  It looks at no
    handle. *)
Inductive ph_point (U : Type) : Type :=
| PhNext (rest : list (phase U))
| PhCreate (size : Z) (todo : list (ptr * ptr)) (rest : list (phase U)).
Arguments PhNext {U} rest.
Arguments PhCreate {U} size todo rest.

Section phases.
Context {L U : Type} `{R : Refusal, Bodies L U, YB : !YieldBodies L U}.
(** What main does after the last phase. *)
Variable finish : U → U.

Definition phases_main (m : ph_point U) (u : U) : ucall (ph_point U) * U :=
  match m with
  | PhNext [] => (UReturn, finish u)
  | PhNext (ph :: rest) => (UTau (PhCreate (ph_size ph) (ph_todo ph) rest), ph_prepare ph u)
  | PhCreate size ((fn, arg) :: todo) rest =>
      (UCreate fn arg size (λ _, PhCreate size todo rest), u)
  | PhCreate _ [] rest => (URun (PhNext rest), u)
  end.

Definition phased : UserCode (ph_point U + L) U := {|
  ustep x u := match x with
               | inl m => let '(c, u) := phases_main m u in (ucall_map inl c, u)
               | inr l => let '(c, u) := body_step l u in (ucall_map inr c, u)
               end;
  ufn fn arg := inr (body_fn fn arg)
|}.

(** The memory at the end, no phase taking more than [k] stretches. *)
Fixpoint run_phases (k : nat) (l : list (phase U)) (u : U) : option U :=
  match l with
  | [] => Some (finish u)
  | ph :: l => v ← round_robin k (starts (ph_todo ph)) (ph_prepare ph u); run_phases k l v
  end.

Definition phase_ok (ph : phase U) : Prop :=
  ¬ 0 < wrap64 (ph_size ph) < 16 ∧ Forall (λ fa : ptr * ptr, fa.1 ≠ NULL) (ph_todo ph).

(** The coroutines to create, and the transitions to make. *)
Definition creations (l : list (phase U)) : nat := sum_list ((λ ph, length (ph_todo ph)) <$> l).
Definition to_go (k : nat) (l : list (phase U)) : nat :=
  (sum_list ((λ ph, length (ph_todo ph) + 2 * k + 3)%nat <$> l) + 1)%nat.

#[local] Existing Instance phased.
#[export] Instance phased_bodies : BodyCode phased.
Proof using. split; [|done]. intros l u. cbn. by destruct (body_step l u). Qed.

#[export] Instance phased_leaf : @Leaf (ph_point U + L) U phased body_point.
Proof using YB.
  split; [done|..]; intros [m|l] u; try done.
  - intros _. rewrite bcode_step. pose proof (yb_call l u). cbn.
    by destruct (body_step l u) as [[] u'].
  - intros z _. rewrite bcode_step. pose proof (yb_call l u). cbn.
    by destruct (body_step l u) as [[] u'].
Qed.

Implicit Types (P : pool (ph_point U + L) U) (q : list L) (rest : list (phase U)).

(** ** Nothing but creations, runs and yields *)

(** No coroutine waits for another, and none has been freed. *)
Record calm P : Prop := {
  cm_awaits : awaits_none P;
  cm_live : Forall (live P) (p_reg P)
}.

Definition quiet {T} (c : ucall T) : Prop :=
  match c with UAwait _ _ | UFree _ _ => False | _ => True end.

Lemma ustep_quiet x u : quiet (ustep x u).1.
Proof using YB.
  destruct x as [m|l].
  - by destruct m as [[|ph rest]|size [|[fn arg] todo] rest].
  - rewrite bcode_step. pose proof (yb_call l u). by destruct (body_step l u) as [[] u'].
Qed.

Lemma calm_goes P t th u : calm P → ¬ awaits_thread th → calm (goes P t th u).
Proof using.
  intros [Ha Hl] Hth. split.
  - intros p th'. cbn. intros [[_ <-]|[_ Hp]]%lookup_insert_Some; [done|by eapply Ha].
  - eapply Forall_impl; [exact Hl|]. intros p [Hp|Hp]; [left|by right]. cbn.
    rewrite lookup_insert. case_decide; eauto.
Qed.

Lemma calm_call P t u c P' : calm P → call_step P t u c P' → quiet c → calm P'.
Proof using.
  intros HP Hc Hq. destruct Hc as [| | | | | | |fn arg n f p Hfn Hp0 Hp Hlt| | | |];
    try done; try (apply calm_goes; [done|]; by intros (o & x & ?)).
  - destruct HP as [Ha Hl]. subst t. split.
    + intros p th. cbn. intros [_ Hp]%lookup_delete_Some. by eapply Ha.
    + eapply Forall_impl; [exact Hl|]. intros p [Hp|Hp]; [left|by right]. cbn.
      by rewrite lookup_delete_ne.
  - destruct HP as [Ha Hl]. split; cbn.
    + intros r th. cbn. intros [[_ <-]|[_ Hr]]%lookup_insert_Some; [by intros (o & x & ?)|].
      apply lookup_insert_Some in Hr as [[_ <-]|[_ Hr]]; [by intros (o & x & ?)|by eapply Ha].
    + apply Forall_app. split; [|constructor; [|done]].
      * eapply Forall_impl; [exact Hl|]. intros r [Hr|Hr]; [left|by right]. cbn.
        rewrite !lookup_insert. repeat case_decide; eauto.
      * left. cbn. rewrite lookup_insert_eq. eauto.
Qed.

Lemma calm_step P P' : calm P → pool_step P P' → calm P'.
Proof using YB.
  intros HP [t y c u P1 Hy Hu _ Hc|p x Hp _ _|x _ _].
  - eapply calm_call; [done..|]. pose proof (ustep_quiet y (p_mem P)) as Hq. by rewrite Hu in Hq.
  - destruct HP as [Ha Hl]. split; cbn.
    + intros r th. cbn. rewrite lookup_fmap. intros (th' & [_ Hr]%lookup_delete_Some & ->)%fmap_Some.
      intros (o & x' & He). apply (Ha _ _ Hr). destruct th' as [| | |]; cbn in He; try done. by eexists _, _.
    + eapply Forall_impl; [exact Hl|]. intros r Hr. unfold live. cbn.
      rewrite elem_of_union, elem_of_singleton. destruct (decide (r = p)) as [->|Hne]; [by right; left|].
      destruct Hr as [[th Hr]|Hr]; [left|by right; right].
      rewrite lookup_fmap, lookup_delete_ne by congruence. rewrite Hr. by eexists.
  - apply calm_goes; [done|]. by intros (o & x' & ?).
Qed.

(** ** The phases *)

(** There is room for [n] more coroutines. *)
Definition room P (n : nat) : Prop := Z.of_nat (length (p_reg P) + n) ≤ MAX_COROUTINES.

(** Where the program is when [u'] is the memory at its end, and how many
    transitions are left. *)
Inductive on_way (k : nat) (u' : U) (C : config) : nat → Prop :=
| ow_next rest : p_threads (f_pool C) !! None = Some (At (inl (PhNext rest))) →
    f_cur C = None → f_queue C = [] →
    Forall phase_ok rest → room (f_pool C) (creations rest) →
    run_phases k rest (p_mem (f_pool C)) = Some u' → on_way k u' C (to_go k rest)
| ow_create size todo rest ls v :
    p_threads (f_pool C) !! None = Some (At (inl (PhCreate size todo rest))) →
    f_cur C = None → NoDup (f_queue C) → lined (f_pool C) (f_queue C) ls →
    phase_ok (Phase id size todo) → Forall phase_ok rest →
    room (f_pool C) (length todo + creations rest) →
    round_robin k (ls ++ starts todo) (p_mem (f_pool C)) = Some v →
    run_phases k rest v = Some u' →
    on_way k u' C (length todo + 2 * k + 2 + to_go k rest)
| ow_run rest q j e v :
    p_threads (f_pool C) !! None = Some (InRun (inl (PhNext rest))) →
    in_turn C q e → Forall phase_ok rest → room (f_pool C) (creations rest) →
    round_robin j q (p_mem (f_pool C)) = Some v → run_phases k rest v = Some u' →
    on_way k u' C (2 * j + e + 1 + to_go k rest)
| ow_end : p_threads (f_pool C) !! None = None → p_mem (f_pool C) = u' → on_way k u' C 0.

Lemma on_way_inner k u' C C' n : on_way k u' C n → fifo_inner C C' → on_way k u' C' n.
Proof using.
  intros Hn Hs. destruct Hs as [|p l P x y Hx Hy]; [done|].
  destruct Hn as [rest Ht|size todo rest ls v Ht|rest q j e v Ht Hq|Ht]; cbn in *; try congruence.
  eapply (ow_run _ _ _ rest q j e v); [done| |done..].
  eapply in_turn_inner; [exact Hq|]. by eapply ff_dispatch.
Qed.

(** Main before a phase. *)
Lemma act_next k u' C C' rest :
  p_threads (f_pool C) !! None = Some (At (inl (PhNext rest))) →
  f_queue C = [] → Forall phase_ok rest → room (f_pool C) (creations rest) →
  run_phases k rest (p_mem (f_pool C)) = Some u' →
  fifo_act C C' → ∃ n', on_way k u' C' n' ∧ (n' < to_go k rest)%nat.
Proof using.
  intros Ht Hq Hok Hroom Hrun Hs.
  destruct (main_alone _ _ Hs) as (y & c & u & Hy & Hu & _ & Hc & Hqs); [congruence|].
  rewrite Ht in Hy. injection Hy as <-. rewrite Hq in Hqs. clear Hs.
  destruct C' as [cur' q' P']. cbn in Hc, Hqs, Hu. destruct rest as [|ph rest]; injection Hu as <- <-.
  - exists 0%nat. split; [|unfold to_go; cbn; lia]. injection Hrun as <-.
    inversion Hc; subst; [|done]. apply ow_end; cbn; [apply lookup_delete_eq|done].
  - cbn in Hrun. destruct (round_robin _ _ _) as [v|] eqn:Hv; [|done]. cbn in Hrun.
    apply Forall_cons in Hok as [Hph Hok].
    inversion Hc; subst. inversion Hqs; subst. eexists. split.
    + eapply (ow_create _ _ _ (ph_size ph) (ph_todo ph) rest [] v); cbn; try done.
      * apply lookup_insert_eq.
      * apply NoDup_nil_2.
      * constructor.
    + unfold to_go. cbn. lia.
Qed.

(** Main creates a coroutine, or calls [co_run]. *)
Lemma act_create k u' C C' size todo rest ls v :
  calm (f_pool C) → ¬ may_refuse →
  p_threads (f_pool C) !! None = Some (At (inl (PhCreate size todo rest))) →
  NoDup (f_queue C) → lined (f_pool C) (f_queue C) ls →
  phase_ok (Phase id size todo) → Forall phase_ok rest →
  room (f_pool C) (length todo + creations rest) →
  round_robin k (ls ++ starts todo) (p_mem (f_pool C)) = Some v →
  run_phases k rest v = Some u' →
  fifo_act C C' →
  ∃ n', on_way k u' C' n' ∧ (n' < length todo + 2 * k + 2 + to_go k rest)%nat.
Proof using.
  intros Hcalm Hnr Ht Hnd Hl [Hsz Hfn] Hok Hroom Hv Hrun Hs.
  destruct (main_alone _ _ Hs) as (y & c & u & Hy & Hu & Hcur & Hc & Hqs); [congruence|].
  rewrite Ht in Hy. injection Hy as <-. clear Hs.
  destruct C as [cur q P], C' as [cur' q' P']. cbn in *. subst cur.
  destruct todo as [|[fn arg] todo]; injection Hu as <- <-;
    inversion Hc as [| | | | | |? ? ? ? _ Hnull|? ? ? ? p Hfn' Hp0 Hnew Hlt| | | |]; subst; try done;
    inversion Hqs; subst; try done; cbn in *.
  - eexists. split; [|shelve]. eapply (ow_run _ _ _ rest ls k 0 v); cbn; try done.
    + apply lookup_insert_eq.
    + apply it_idle; cbn; [done..|]. by apply lined_goes.
    + unfold starts in Hv. by rewrite app_nil_r in Hv.
    Unshelve. cbn. lia.
  - apply Forall_cons in Hfn as [Hfn0 Hfn].
    match goal with He : _ ++ [_] = _ ++ [_] |- _ => apply app_inj_2 in He as [_ [= <-]]; [|done] end.
    assert (p ∉ q) as Hpq.
    { intros Hin%list_elem_of_lookup. destruct Hin as [i Hi].
      destruct (Forall2_lookup_l _ _ _ _ _ Hl Hi) as (l & _ & Hp). apply Hnew. left. by eexists. }
    eexists. split; [|shelve].
    eapply (ow_create _ _ _ size todo rest (ls ++ [body_fn fn arg]) v); cbn; try done.
    + rewrite lookup_insert_ne by done. apply lookup_insert_eq.
    + apply NoDup_app. split_and!; [done| |apply NoDup_singleton].
      by intros r Hr ->%list_elem_of_singleton.
    + apply Forall2_app; [|constructor; [apply lookup_insert_eq|done]].
      eapply Forall2_impl; [exact Hl|]. cbn. intros r l Hr.
      rewrite !lookup_insert_ne; [done|done|]. intros [= ->]. apply Hnew. left. by eexists.
    + unfold room in *. cbn. rewrite length_app. cbn in *. lia.
    + by rewrite <- app_assoc.
    Unshelve. cbn. lia.
  - exfalso. match goal with He : _ ++ [_] = p_reg _ |- _ => apply (f_equal length) in He;
      rewrite length_app in He; cbn in He; lia end.
Qed.

(** The coroutines take their turns, and [co_run] returns. *)
Lemma act_run k u' C C' rest q j e v :
  calm (f_pool C) → p_threads (f_pool C) !! None = Some (InRun (inl (PhNext rest))) →
  in_turn C q e → Forall phase_ok rest → room (f_pool C) (creations rest) →
  p_reg (f_pool C') = p_reg (f_pool C) →
  round_robin j q (p_mem (f_pool C)) = Some v → run_phases k rest v = Some u' →
  fifo_act C C' → ∃ n', on_way k u' C' n' ∧ (n' < 2 * j + e + 1 + to_go k rest)%nat.
Proof using YB.
  intros [Ha _] Ht Hq Hok Hroom Hreg Hv Hrun Hs.
  assert (room (f_pool C') (creations rest)) as Hroom' by (unfold room; by rewrite Hreg).
  destruct (in_turn_act C C' q e (inl (PhNext rest)) Ha Ht Hq Hs)
    as [[Hmain [(e' & q' & Htn & Hq')|(-> & Hm & Hq')]]|(-> & Hm & Ht')].
  - assert (e' ≤ 1)%nat as He by (by destruct Hq'; lia).
    destruct q as [|l q]; [done|]. destruct j as [|j]; [done|].
    rewrite (round_robin_turn _ _ _ _ _ Htn) in Hv. rewrite Ht in Hmain.
    eexists. split; [by eapply (ow_run _ _ _ rest q' j e' v)|]. lia.
  - rewrite Ht in Hmain. eexists.
    split; [eapply (ow_run _ _ _ rest q j 0 v); try done; by rewrite Hm|]. lia.
  - assert (v = p_mem (f_pool C)) as -> by (destruct j; by injection Hv).
    exists (to_go k rest). split; [|lia].
    destruct Hs as [t l P y c u P' t' l' Hy Hu Hx Hc Hqs|p l P x ws Hp Hx Hl Hnd Hsub Hws|P x Hx Hw];
      cbn in *.
    + exfalso. destruct t as [p|]; [|congruence].
      by destruct Hq as [Hcur|p1 l1 q1 Hcur|p1 Hcur Hn Hp Hl]; cbn in *; simplify_eq.
    + rewrite lookup_fmap in Ht'. rewrite lookup_delete_ne in Ht' by done. by rewrite Hx in Ht'.
    + by eapply ow_next.
Qed.

Lemma run_reg C C' :
  fifo_act C C' → is_Some (p_threads (f_pool C) !! None ≫= λ th, match th with InRun x => Some x | _ => None end) →
  leaf_pool body_point (f_pool C) → p_reg (f_pool C') = p_reg (f_pool C).
Proof using YB.
  intros Hs [x0 Hrun] Hleaf.
  destruct Hs as [t l P y c u P' t' l' Hy Hu Hx Hc Hqs| |]; [|done..].
  cbn [f_pool] in *. destruct t as [p|]; [|by rewrite Hy in Hrun].
  pose proof (Hleaf _ _ Hy) as Hb. destruct y as [|l0]; [done|]. rewrite bcode_step in Hu.
  pose proof (yb_call l0 (p_mem P)) as Hyb. destruct (body_step l0 (p_mem P)) as [c0 u0].
  injection Hu as <- <-. by destruct c0; try done; inversion Hc.
Qed.

Lemma on_way_act k u' C C' n :
  calm (f_pool C) → ¬ may_refuse → leaf_pool body_point (f_pool C) →
  on_way k u' C n → fifo_act C C' → ∃ n', on_way k u' C' n' ∧ (n' < n)%nat.
Proof using YB.
  intros Hcalm Hnr Hleaf Hn Hs.
  destruct Hn as [rest Ht Hcur Hq|size todo rest ls v Ht|rest q j e v Ht Hq Hok Hroom|Ht].
  - by eapply act_next.
  - by eapply act_create.
  - eapply act_run; try done. apply run_reg; [done| |done]. rewrite Ht. by eexists.
  - destruct (main_alone _ _ Hs) as (y & c & u & Hy & _); congruence.
Qed.

Lemma on_way_fault k u' C n e :
  calm (f_pool C) → leaf_pool body_point (f_pool C) →
  on_way k u' C n → pool_fault (f_pool C) e → False.
Proof using YB.
  intros [_ Hlive] Hleaf Hn [t y c u e' Hy Hu Hin Hf|p x q Hp Hx Hq Hd].
  - destruct t as [p|].
    + pose proof (Hleaf _ _ Hy) as Hb. destruct y as [|l0]; [done|]. rewrite bcode_step in Hu.
      pose proof (yb_call l0 (p_mem (f_pool C))) as Hyb.
      destruct (body_step l0 (p_mem (f_pool C))) as [c0 u0].
      injection Hu as <- <-. by destruct c0; try done; inversion Hf.
    + destruct Hn as [rest Ht|size todo rest ls v Ht _ _ _ [Hsz Hfn] _ Hroom|rest q j d v Ht|Ht];
        rewrite Ht in Hy; try done; injection Hy as <-; cbn in Hu.
      * by destruct rest as [|ph rest]; injection Hu as <- <-; inversion Hf.
      * destruct todo as [|[fn arg] todo]; injection Hu as <- <-; inversion Hf; subst; try done.
        -- by apply Forall_cons in Hfn as [? _].
        -- unfold room in Hroom. cbn in Hroom. lia.
  - apply Hd. by eapply Forall_forall.
Qed.
End phases.

(** ** Whole programs *)

Lemma phases_exec {L U : Type} `{R : Refusal, Allocator, LinkMap, Bodies L U, YB : !YieldBodies L U}
    (finish : U → U) (σ : alloc_state) (l : list (phase U)) (u0 : U) k u' fuel :
  let w0 := init_world σ u0 (inl (PhNext l)) in
  let code := phased finish in
  Forall phase_ok l → Z.of_nat (creations l) ≤ MAX_COROUTINES →
  run_phases finish k l u0 = Some u' → (5 * to_go k l ≤ fuel)%nat →
  (refused_in w0 → may_refuse) → ¬ may_refuse →
  match exec fuel w0 with
  | Finished w => w_user w = u'
  | _ => False
  end.
Proof.
  intros w0 code Hok Hroom Hrun Hf Hmay Hnr.
  pose proof (phased_leaf finish : @Leaf _ _ code body_point) as HL.
  pose proof (fifo_ends body_point (λ C n, calm (f_pool C) ∧ leaf_pool body_point (f_pool C)
    ∧ on_way finish k u' C n)) as He.
  specialize (He ltac:(intros C1 C2 m (Hc & Hl & Hm) Hs; rewrite (fifo_inner_pool _ _ Hs);
    split_and!; [done..|by eapply on_way_inner])).
  specialize (He ltac:(intros C1 C2 m (Hc & Hl & Hm) Hs;
    destruct (on_way_act finish k u' C1 C2 m Hc Hnr Hl Hm Hs) as (m' & Hm' & Hlt); exists m';
    apply fifo_act_pool in Hs; split_and!;
    [by apply (calm_step finish _ _ Hc)|by eapply leaf_pool_step|done..])).
  pose proof (init_viewed body_point σ u0 (inl (PhNext l)) Hmay) as (_ & Hv & Hl & Hr).
  specialize (He w0 (Config None [] (init_pool u0 (inl (PhNext l)))) (to_go k l) fuel).
  specialize (He ltac:(split; [apply inv_init|done])).
  specialize (He ltac:(split_and!; [split|done|apply ow_next]; cbn; try done;
    intros p th; cbn; by rewrite lookup_singleton_ne) ltac:(cbn; lia)).
  destruct (exec fuel w0) as [w|e|w]; [| |done].
  - destruct He as (C' & n' & (_ & Hv' & _) & (_ & _ & Hn') & Ht). rewrite <- (vw_mem _ _ Hv').
    destruct Hn' as [? Ht'|? ? ? ? ? Ht'|? ? ? ? ? Ht'|_ Hm]; [congruence..|done].
  - destruct He as (C' & n' & (Hc & Hl' & Hn') & He). by eapply on_way_fault.
Qed.

Lemma phases_total {L U : Type} `{Allocator, LinkMap, Bodies L U, !YieldBodies L U}
    (finish : U → U) (σ : alloc_state) (l : list (phase U)) (u0 : U) k u' fuel :
  let w0 := init_world σ u0 (inl (PhNext l)) in
  let code := phased finish in
  Forall phase_ok l → Z.of_nat (creations l) ≤ MAX_COROUTINES →
  run_phases finish k l u0 = Some u' → (5 * to_go k l ≤ fuel)%nat → ¬ refused_in w0 →
  match exec fuel w0 with
  | Finished w => w_user w = u'
  | _ => False
  end.
Proof. intros. by eapply (phases_exec (R := refused_in w0)). Qed.

(** C24: A program that creates coroutines, runs them, and then again creates
    others and runs them, any number of times, with bodies that only yield and
    no more than [MAX_COROUTINES] coroutines in all, ends with the memory that
    executing its phases one after the other by [round_robin] leaves, if that
    ends, their functions are not null and their stacks hold the initial image
    ([phase_ok]), for any allocator that refuses none of its creations: the finished coroutines that
    are still registered disturb no later [co_run]. *)
Theorem phases_complete {L U : Type} `{Allocator, LinkMap, Bodies L U, !YieldBodies L U}
    (finish : U → U) (σ : alloc_state) (l : list (phase U)) (u0 : U) k u' fuel :
  let w0 := init_world σ u0 (inl (PhNext l)) in
  let code := phased finish in
  Forall phase_ok l → Z.of_nat (creations l) ≤ MAX_COROUTINES →
  run_phases finish k l u0 = Some u' → (5 * to_go k l ≤ fuel)%nat → ¬ refused_in w0 →
  match exec fuel w0 with
  | Finished w => w_user w = u'
  | _ => False
  end.
Proof. intros w0 code. by apply phases_total. Qed.

(** ** Three coroutines that count, then two *)

Module PhasesDemo.
Import ForkJoinDemo RoundsDemo.

Definition fn_count : ptr := 1.
Definition main : list (phase Z) :=
  [Phase (λ u, u) 0 (replicate 3 (fn_count, NULL)); Phase (λ u, 10 * u) 0 (replicate 2 (fn_count, NULL))].
#[local] Instance code : UserCode (ph_point Z + point) Z := phased (λ u, u + 1).
Definition twice : world (ph_point Z + point) Z := init_world heap0 0 (inl (PhNext main)).

Lemma twice_not_refused : ¬ refused_in twice.
Proof. apply (refuses_spec 200). by vm_compute. Qed.

Lemma phases_complete_witness :
  match exec 200 twice with Finished w => w_user w = 33 | _ => False end.
Proof.
  apply (phases_complete (H := bump_allocator) (λ u, u + 1) heap0 main 0 6 33 200).
  - repeat constructor; by first [apply size_default|done].
  - by consts.
  - done.
  - by apply leb_complete.
  - apply twice_not_refused.
Defined.
End PhasesDemo.
