(* ===== verification/Busy.v ===== *)
(** * Busy waiting

    A coroutine waits for a condition in a loop that only yields, as the
    barrier and the buffers of the examples do.  Such a body has
    no cost of its own in the sense of [Progress]: it ends because another one
    makes the condition true.  [busy_wait_total]: a program that forks and joins
    such bodies ends if, in every state its bodies can be in, they do not all
    wait. *)

From stdpp Require Import gmap sorting.
From S2P Require Import Prelude Ring Machine State RunQueue Api Demo User.
From S2P Require Import Threads Progress ForkJoin Rounds.

(** The body at [l] waits: all it does is yield. *)
Definition spins {L U : Type} `{Bodies L U} (l : L) (u : U) : Prop := body_step l u = (UYield l, u).

(** In the states that [J] describes a stretch of a body waits, or leads to a
    point from which there is less to do, by the measure [M]; and not all
    bodies wait. *)
Class Busy {L U : Type} `{Bodies L U} (J : list (option L) → U → Prop) (M : L → nat) : Prop := {
  bz_step locs u j l : J locs u → locs !! j = Some (Some l) →
    spins l u ∨ match (body_step l u).1 with UTau l' | UYield l' => (M l' < M l)%nat | _ => True end;
  bz_some locs u j l : J locs u → locs !! j = Some (Some l) →
    ∃ i l', locs !! i = Some (Some l') ∧ ¬ spins l' u
}.

(** The points that are still there. *)
Lemma present_lookup {A} (locs : list (option A)) l :
  l ∈ omap id locs → ∃ j, locs !! j = Some (Some l).
Proof.
  intros (x & Hx & Hl)%list_elem_of_omap. unfold id in Hl. subst x. by apply list_elem_of_lookup in Hx.
Qed.

Lemma present_elem {A} (locs : list (option A)) j l : locs !! j = Some (Some l) → l ∈ omap id locs.
Proof. intros Hj. apply list_elem_of_omap. exists (Some l). by split; [eapply list_elem_of_lookup_2|]. Qed.

Lemma present_length {A} (locs : list (option A)) : (length (omap id locs) ≤ length locs)%nat.
Proof. induction locs as [|[l|] locs IH]; cbn; lia. Qed.

Lemma present_insert {A} (locs : list (option A)) j l x q :
  locs !! j = Some (Some l) → omap id locs ≡ₚ l :: q →
  omap id (<[j := x]> locs) ≡ₚ option_list x ++ q.
Proof.
  intros Hj Hq. pose proof (lookup_lt_Some _ _ _ Hj) as Hlt.
  assert (∀ x : option A, omap id (x :: delete j locs) = option_list x ++ omap id (delete j locs)) as Hc
    by (intros []; done).
  assert (omap id locs ≡ₚ l :: omap id (delete j locs)) as Hd.
  { etrans; [by apply omap_Permutation, (delete_Permutation _ _ _ Hj)|]. by rewrite Hc. }
  rewrite Hq in Hd. apply Permutation_cons_inv in Hd. rewrite Hd, <- Hc. apply omap_Permutation.
  rewrite insert_take_drop, delete_take_drop by done. symmetry. apply Permutation_middle.
Qed.

Section busy.
Context {L U : Type} `{Bodies L U, !YieldBodies L U}.
Context (J : list (option L) → U → Prop) `{!Jobs J} (M : L → nat) `{!Busy J M}.
Implicit Types (q : list L) (locs : list (option L)) (u : U).

(** What is left to do. *)
Definition total q : nat := sum_list_with (λ l, S (M l)) q.

Definition queued locs q u : Prop := J locs u ∧ omap id locs ≡ₚ q.

(** A turn: the body waits, or there is less left. *)
Lemma busy_turn locs l q u :
  queued locs (l :: q) u →
  spins l u ∨ ∃ q' u' locs', turn (l :: q) u = Some (q', u') ∧ queued locs' q' u'
    ∧ length locs' = length locs ∧ (total q' < total (l :: q))%nat.
Proof using All.
  intros [HJ Hq]. destruct (present_lookup locs l) as [j Hj]; [rewrite Hq; set_solver|].
  destruct (bz_step (M := M) _ _ _ _ HJ Hj) as [|HM]; [by left|right].
  pose proof (jb_step _ _ _ _ HJ Hj) as Hs. unfold turn.
  destruct (body_step l u) as [[] u'] eqn:He; try done; cbn in HM; eexists _, u', (<[j := _]> locs);
    (split; [done|split; [split; [exact Hs|]|split; [apply length_insert|
      unfold total; rewrite ?sum_list_with_app; cbn; lia]]]).
  - exact (present_insert _ _ _ None _ Hj Hq).
  - exact (present_insert _ _ _ (Some _) _ Hj Hq).
  - etrans; [exact (present_insert _ _ _ (Some _) _ Hj Hq)|]. apply Permutation_cons_append.
Qed.

(** Those in front of one that does not wait take their turns. *)
Lemma busy_round pre : ∀ locs l post u,
  queued locs (pre ++ l :: post) u → ¬ spins l u →
  ∃ k q' u' locs', (k ≤ S (length pre))%nat
    ∧ (∀ n, round_robin (k + n) (pre ++ l :: post) u = round_robin n q' u')
    ∧ queued locs' q' u' ∧ length locs' = length locs ∧ (total q' < total (pre ++ l :: post))%nat.
Proof using All.
  induction pre as [|a pre IH]; intros locs l post u Hq Hl;
    (destruct (busy_turn _ _ _ _ Hq) as [Ha|(q' & u' & locs' & Ht & Hq' & Hlen & Htot)];
     [|exists 1%nat, q', u', locs'; split_and!; [lia| |done..]; intros n;
       by apply round_robin_turn]); [done|].
  destruct (IH locs l (post ++ [a]) u) as (k & q' & u' & locs' & Hk & Hr & Hq' & Hlen & Htot).
  { destruct Hq as [HJ Hq]. split; [done|]. rewrite Hq, app_comm_cons, app_assoc. cbn.
    apply Permutation_cons_append. }
  { done. }
  exists (S k), q', u', locs'. split_and!; [cbn; lia| |done..|].
  - intros n. rewrite <- Hr. change (S k + n)%nat with (S (k + n)). cbn [app].
    erewrite round_robin_turn by (cbn; by rewrite Ha). by rewrite <- app_assoc.
  - unfold total in *. cbn [app sum_list_with] in *. rewrite !sum_list_with_app in *. cbn in *.
    rewrite sum_list_with_app in Htot. cbn in Htot. lia.
Qed.

Lemma busy_run t : ∀ locs q u,
  queued locs q u → (total q ≤ t)%nat →
  ∃ k u', (k ≤ t * length locs)%nat ∧ round_robin k q u = Some u'
    ∧ J (replicate (length locs) None) u'.
Proof using All.
  assert (∀ locs u, queued locs [] u → J (replicate (length locs) None) u) as Hdone.
  { intros locs u [HJ Hq]. assert (replicate (length locs) None = locs) as ->; [|done].
    apply replicate_as_Forall. split; [done|]. apply Forall_lookup. intros j [l|] Hj; [|done].
    apply Permutation_nil_r in Hq. pose proof (present_elem _ _ _ Hj) as Hin. rewrite Hq in Hin. set_solver. }
  induction t as [|t IH]; intros locs q u Hq Ht; (destruct q as [|a q];
    [exists 0%nat, u; split_and!; [lia|done|by apply Hdone]|]); [cbn in Ht; lia|].
  pose proof Hq as [HJ Hp].
  destruct (present_lookup locs a) as [j Hj]; [rewrite Hp; set_solver|].
  destruct (bz_some (M := M) _ _ _ _ HJ Hj) as (i & l & Hi & Hl).
  assert (l ∈ a :: q) as (pre & post & Heq)%list_elem_of_split.
  { rewrite <- Hp. by eapply present_elem. }
  rewrite Heq in *. destruct (busy_round _ _ _ _ _ Hq Hl) as (k & q' & u' & locs' & Hk & Hr & Hq' & Hlen & Htot).
  destruct (IH locs' q' u' Hq') as (k' & v & Hk' & Hr' & HJ'); [lia|].
  exists (k + k')%nat, v. rewrite Hlen in *. split_and!; [|by rewrite Hr|done].
  assert (length (pre ++ l :: post) ≤ length locs)%nat as Hle
    by (rewrite <- Hp; apply present_length). rewrite length_app in Hle. cbn in *. lia.
Qed.
End busy.
Arguments total {L} M q.

Lemma busy_total {L U : Type} `{Allocator, LinkMap, Bodies L U, !YieldBodies L U}
    (J : list (option L) → U → Prop) `{!Jobs J} (M : L → nat) `{!Busy J M}
    (check : checking) (size : Z) (free : bool) (todo0 : list (ptr * ptr)) (u0 : U) (σ : alloc_state) fuel :
  let w0 := init_world σ u0 (inl (FCreate todo0 [])) in
  let code := program (fork_join_with check size free) in
  ¬ 0 < wrap64 size < 16 → Z.of_nat (length todo0) ≤ MAX_COROUTINES →
  Forall (λ fa : ptr * ptr, fa.1 ≠ NULL) todo0 →
  check = Each ∨ ¬ refused_in w0 → J (start_of <$> todo0) u0 →
  (5 * (2 * (total M (starts todo0) * length todo0) + 2 * length todo0 + 3) ≤ fuel)%nat →
  match exec fuel w0 with
  | Finished w => refused_in w0 ∧ w_user w = u0 ∨ J (all_returned todo0) (w_user w)
  | _ => False
  end.
Proof.
  intros w0 code Hs Hm Hfn Hc HJ Hf.
  assert (omap id (start_of <$> todo0) = starts todo0) as Hq.
  { unfold starts. clear. induction todo0 as [|fa l IH]; [done|]. cbn. by f_equal. }
  destruct (busy_run J M (total M (starts todo0)) (start_of <$> todo0) (starts todo0) u0) as (k & u' & Hk & Hr & HJ');
    [by split; [|rewrite Hq]|done|]. rewrite length_fmap in Hk, HJ'.
  pose proof (rounds_total (R := refused_in w0) check size free todo0 u0 Hc Hs Hm Hfn σ k u' fuel
    id Hr ltac:(lia)) as Ht.
  unfold w0, code. destruct (exec fuel _) as [w|e|w]; [|done..].
  destruct Ht as [Ht| ->]; [by left|by right].
Qed.

(** C26: A program that forks and joins at most [MAX_COROUTINES] coroutines,
    with functions that are not null and stacks that hold the initial image,
    whose bodies busy-wait, but never all at once, ends: main returns within the number of transitions given, and then
    the invariant [J] of the bodies holds with all of them returned; unless
    [malloc] refuses one of the creations of this run, and then a main that
    checks them gives up with the memory untouched. *)
Theorem busy_wait_total {L U : Type} `{Allocator, LinkMap, Bodies L U, !YieldBodies L U}
    (J : list (option L) → U → Prop) `{!Jobs J} (M : L → nat) `{!Busy J M}
    (check : checking) (size : Z) (free : bool) (todo0 : list (ptr * ptr)) (u0 : U) (σ : alloc_state) fuel :
  let w0 := init_world σ u0 (inl (FCreate todo0 [])) in
  let code := program (fork_join_with check size free) in
  ¬ 0 < wrap64 size < 16 → Z.of_nat (length todo0) ≤ MAX_COROUTINES →
  Forall (λ fa : ptr * ptr, fa.1 ≠ NULL) todo0 →
  check = Each ∨ ¬ refused_in w0 → J (start_of <$> todo0) u0 →
  (5 * (2 * (total M (starts todo0) * length todo0) + 2 * length todo0 + 3) ≤ fuel)%nat →
  match exec fuel w0 with
  | Finished w => refused_in w0 ∧ w_user w = u0 ∨ J (all_returned todo0) (w_user w)
  | _ => False
  end.
Proof. intros w0 code. by eapply busy_total. Qed.
