(* ===== verification/Coro.v ===== *)
(** * Coroutines that await conditions

    [examples/semaphore.c] is written for a library [coro.h] that this
    repository does not have, with [coro_spawn(fn, arg)], [coro_run()],
    [co_yield()] and [co_await(cond, arg)].  The library is a parameter here,
    [CoroLib], of which the code relies on one thing: which coroutine
    [coro_run] goes on with is up to the library, but it is one that may run,
    and [coro_run] does not return while there is one.  A coroutine may run
    unless it is in a [co_await] whose condition does not hold: as the comment
    of [sem_wait] says, it is re-scheduled "only when sem_ready() returns
    non-zero".  [coro_spawn] may fail; the program does not look at its result.

    [spawned_end]: if some coroutine may always run, and each stretch of code
    leaves less to do, then [coro_run] returns with all of them finished,
    whatever the library prefers. *)

From stdpp Require Import gmap sorting relations.
From S2P Require Import Prelude Ring Machine State RunQueue Api Demo User Threads Progress.
From S2P Require Import ForkJoin Busy.

(** What a stretch of code ends with. *)
Inductive ccall (L M : Type) : Type :=
| CReturn
| CYield (k : L)
| CAwait (cond : M → bool) (k : L).
Arguments CReturn {L M}.
Arguments CYield {L M} k.
Arguments CAwait {L M} cond k.

(** One stretch of code; no answer where its behaviour is undefined. *)
Class CCode (L M : Type) := cstep : L → M → option (M * ccall L M).

(** A coroutine: where it goes on, and the condition it awaits. *)
Record thread (L M : Type) := Thread { wants : M → bool; at_point : L }.
Arguments Thread {L M} wants at_point.
Arguments wants {L M} t.
Arguments at_point {L M} t.

(** The coroutines, numbered in the order of their creation, without those that
    have returned; and the memory. *)
Record pool (L M : Type) := Pool { threads : list (option (thread L M)); shared : M }.
Arguments Pool {L M} threads shared.
Arguments threads {L M} p.
Arguments shared {L M} p.

(** The library: whether there is room for another coroutine, and which of
    those that may run is next. *)
Class CoroLib := {
  lib : Type;
  lib0 : lib;
  l_spawn : lib → lib * bool;
  l_next : list nat → lib → lib * option nat;
  l_next_ok ready s :
    match (l_next ready s).2 with Some i => i ∈ ready | None => ready = [] end
}.

(** [coro_spawn] never fails. *)
Definition roomy `{CoroLib} : Prop := ∀ s, (l_spawn s).2 = true.

Inductive cerror : Set := OutOfFuel | Undefined.

Section coroutines.
Context {L M : Type} `{CCode L M}.
Implicit Types (P : pool L M) (t : thread L M) (l : L) (m : M).

Definition always (_ : M) : bool := true.

Definition may_run m (loc : option (thread L M)) : bool :=
  match loc with Some t => wants t m | None => false end.

(** The numbers of those that may run. *)
Definition ready P : list nat :=
  base.filter (λ i, may_run (shared P) (mjoin (threads P !! i))) (seq 0 (length (threads P))).

Definition after (c : ccall L M) : option (thread L M) :=
  match c with
  | CReturn => None
  | CYield k => Some (Thread always k)
  | CAwait cond k => Some (Thread cond k)
  end.

(** Coroutine [i] runs up to its next call. *)
Definition dispatch (i : nat) P : option (pool L M) :=
  t ← mjoin (threads P !! i);
  '(m, c) ← cstep (at_point t) (shared P);
  Some (Pool (<[i := after c]> (threads P)) m).

(** A schedule: any coroutine that may run is next. *)
Definition scheduled P P' : Prop := ∃ i, i ∈ ready P ∧ dispatch i P = Some P'.

(** Whichever is next, its code is defined. *)
Definition defined P : Prop := ∀ i, i ∈ ready P → is_Some (dispatch i P).

Context `{CoroLib}.

Definition coro_spawn (l : L) (st : lib * pool L M) : lib * pool L M :=
  let '(s, ok) := l_spawn st.1 in
  (s, if ok : bool then Pool (threads st.2 ++ [Some (Thread always l)]) (shared st.2) else st.2).

Definition spawn_all (ls : list L) (st : lib * pool L M) : lib * pool L M :=
  foldl (λ st l, coro_spawn l st) st ls.

Fixpoint coro_run (fuel : nat) (st : lib * pool L M) : result cerror (lib * pool L M) :=
  match fuel with
  | O => Err OutOfFuel
  | S fuel =>
      match l_next (ready st.2) st.1 with
      | (s, None) => Ok (s, st.2)
      | (s, Some i) =>
          match dispatch i st.2 with Some P => coro_run fuel (s, P) | None => Err Undefined end
      end
  end.

Lemma elem_of_ready i P :
  i ∈ ready P ↔ ∃ t, threads P !! i = Some (Some t) ∧ wants t (shared P) = true.
Proof.
  unfold ready. rewrite list_elem_of_filter, elem_of_seq. split.
  - intros [Hr _]. destruct (threads P !! i) as [[t|]|] eqn:Hi; cbn in Hr; try done.
    exists t. split; [done|]. by apply Is_true_true.
  - intros (t & Hi & Hw). pose proof (lookup_lt_Some _ _ _ Hi). rewrite Hi. cbn. split; [|lia].
    by apply Is_true_true.
Qed.
End coroutines.

(** ** What holds for every schedule

    [cond_of] is the condition under which a control point is reached, [J]
    relates the control points to the memory, [W] measures what is left. *)

Class CJobs {L M : Type} `{CCode L M} (cond_of : L → M → bool)
    (J : list (option L) → M → Prop) (W : L → nat) : Prop := {
  cj_step locs m j l : J locs m → locs !! j = Some (Some l) → cond_of l m = true →
    ∃ m' c, cstep l m = Some (m', c)
      ∧ match c with
        | CReturn => J (<[j := None]> locs) m'
        | CYield k => cond_of k = always ∧ (W k < W l)%nat ∧ J (<[j := Some k]> locs) m'
        | CAwait b k => cond_of k = b ∧ (W k < W l)%nat ∧ J (<[j := Some k]> locs) m'
        end
}.

Section jobs.
Context {L M : Type} `{CCode L M} (cond_of : L → M → bool)
  (J : list (option L) → M → Prop) (W : L → nat) `{!CJobs cond_of J W}.
Implicit Types (P : pool L M) (locs : list (option L)).

Definition points P : list (option L) := fmap (M := option) at_point <$> threads P.

Definition at_work P : Prop :=
  J (points P) (shared P)
  ∧ ∀ i t, threads P !! i = Some (Some t) → wants t = cond_of (at_point t).

(** What is left to do. *)
Definition work_left P : nat := total W (omap id (points P)).

Lemma points_lookup P i t : threads P !! i = Some (Some t) → points P !! i = Some (Some (at_point t)).
Proof using. intros Hi. unfold points. by rewrite list_lookup_fmap, Hi. Qed.

Lemma ready_points P i :
  at_work P → i ∈ ready P → ∃ t, threads P !! i = Some (Some t)
    ∧ points P !! i = Some (Some (at_point t)) ∧ cond_of (at_point t) (shared P) = true.
Proof using.
  intros [_ Hw] (t & Hi & Ht)%elem_of_ready. exists t.
  split_and!; [done|by apply points_lookup|]. by rewrite <- (Hw _ _ Hi).
Qed.

Lemma dispatch_works P i :
  at_work P → i ∈ ready P →
  ∃ P', dispatch i P = Some P' ∧ at_work P' ∧ (work_left P' < work_left P)%nat
    ∧ length (threads P') = length (threads P).
Proof using All.
  intros HP Hi. destruct (ready_points P i HP Hi) as (t & Ht & Hp & Hc).
  destruct HP as [HJ Hw]. destruct (cj_step _ _ _ _ HJ Hp Hc) as (m & c & Hs & Hn).
  exists (Pool (<[i := after c]> (threads P)) m). split_and!.
  - unfold dispatch. by rewrite Ht; cbn; rewrite Hs.
  - split.
    + unfold points. cbn. rewrite list_fmap_insert. destruct c; [exact Hn|apply Hn..].
    + cbn. intros j u [(-> & Hu & _)|[_ Hj]]%list_lookup_insert_Some; [|by eapply Hw].
      destruct c as [|k|b k]; cbn in Hu; [done|..]; injection Hu as <-; cbn; by destruct Hn as [-> _].
  - unfold work_left, points at 1. cbn. rewrite list_fmap_insert. fold (points P).
    assert (∃ q, omap id (points P) ≡ₚ at_point t :: q) as [q Hq].
    { assert (at_point t ∈ omap id (points P)) as Hin by by eapply present_elem.
      apply list_elem_of_split in Hin as (a & b & ->). exists (a ++ b). symmetry. apply Permutation_middle. }
    unfold total. rewrite (present_insert _ _ _ (at_point <$> after c) _ Hp Hq), Hq.
    rewrite sum_list_with_app. destruct c as [|k|b k]; cbn; [lia|destruct Hn as (_ & Hl & _); lia..].
  - cbn. by rewrite length_insert.
Qed.

Lemma at_work_defined P : at_work P → defined P.
Proof using All. intros HP i Hi. destruct (dispatch_works P i HP Hi) as (P' & -> & _). eauto. Qed.

Lemma scheduled_works P P' :
  at_work P → rtc scheduled P P' → at_work P' ∧ length (threads P') = length (threads P).
Proof using All.
  intros HP Hr. induction Hr as [P|P P1 P' (i & Hi & Hd) _ IH]; [done|].
  destruct (dispatch_works P i HP Hi) as (P2 & Hd' & HP1 & _ & Hl). rewrite Hd in Hd'.
  injection Hd' as ->. destruct (IH HP1) as [Hw Hl']. by split; [|rewrite Hl'].
Qed.

Context `{CoroLib}.

(** [coro_run] returns when no coroutine may run, after finitely many
    dispatches. *)
Lemma coro_run_returns fuel st :
  at_work st.2 → (work_left st.2 < fuel)%nat →
  ∃ st', coro_run fuel st = Ok st' ∧ rtc scheduled st.2 st'.2 ∧ ready st'.2 = [].
Proof using All.
  revert st. induction fuel as [|fuel IH]; intros [s P] HP Hf; [lia|]. cbn in *.
  pose proof (l_next_ok (ready P) s) as Hn. destruct (l_next (ready P) s) as [s' [i|]]; cbn in Hn.
  - destruct (dispatch_works P i HP Hn) as (P1 & Hd & HP1 & Hl & _). rewrite Hd.
    destruct (IH (s', P1) HP1 ltac:(cbn; lia)) as (st' & Hr & Hs & He). exists st'.
    split_and!; [done| |done]. eapply rtc_l; [by exists i|done].
  - exists (s', P). by split_and!.
Qed.

(** If there is always one that may run, all have finished then. *)
Lemma spawned_end fuel st :
  (∀ locs m j l, J locs m → locs !! j = Some (Some l) →
     ∃ i l', locs !! i = Some (Some l') ∧ cond_of l' m = true) →
  at_work st.2 → (work_left st.2 < fuel)%nat →
  ∃ st', coro_run fuel st = Ok st' ∧ rtc scheduled st.2 st'.2
    ∧ threads st'.2 = replicate (length (threads st.2)) None
    ∧ J (replicate (length (threads st.2)) None) (shared st'.2).
Proof using All.
  intros Hsome HP Hf. destruct (coro_run_returns fuel st HP Hf) as (st' & Hr & Hs & He).
  exists st'. destruct (scheduled_works _ _ HP Hs) as [[HJ Hw] Hl].
  assert (threads st'.2 = replicate (length (threads st.2)) None) as Hnone.
  { symmetry. apply replicate_as_Forall. split; [done|]. apply Forall_lookup. intros j [t|] Hj; [exfalso|done].
    destruct (Hsome _ _ _ _ HJ (points_lookup _ _ _ Hj)) as (i & l & Hi & Hc).
    assert (i ∈ ready st'.2) as Hin; [|rewrite He in Hin; by apply elem_of_nil in Hin].
    unfold points in Hi. apply list_lookup_fmap_Some in Hi as ([t'|] & Ht' & Hi'); [|done].
    injection Ht' as ->. apply elem_of_ready. exists t'. by rewrite (Hw _ _ Hi'). }
  split_and!; [done..|]. unfold points in HJ. rewrite Hnone, fmap_replicate in HJ. exact HJ.
Qed.
End jobs.

(** The coroutines that [coro_spawn] creates are some of those asked for, in
    their order, and all of them if it never fails. *)
Lemma spawn_all_some {L M A : Type} `{CoroLib} (f : A → L) (xs : list A) (st : lib * pool L M) :
  ∃ made, made `sublist_of` xs ∧ (roomy → made = xs)
    ∧ (spawn_all (f <$> xs) st).2
      = Pool (threads st.2 ++ (Some ∘ Thread always ∘ f <$> made)) (shared st.2).
Proof.
  revert st. induction xs as [|x xs IH]; intros [s P].
  { exists []. split_and!; [done..|]. cbn. rewrite app_nil_r. by destruct P. }
  destruct (IH (coro_spawn (f x) (s, P))) as (made & Hm & Hroom & He).
  change (spawn_all (f <$> x :: xs) (s, P)) with (spawn_all (f <$> xs) (coro_spawn (f x) (s, P))).
  rewrite He. unfold coro_spawn. cbn [fst snd]. pose proof (λ Hr : roomy, Hr s) as Hs.
  destruct (l_spawn s) as [s' []]; cbn in *.
  - exists (x :: made). split_and!; [by apply sublist_skip|intros Hr; f_equal; by apply Hroom|].
    by rewrite <- app_assoc.
  - exists made. split_and!; [by apply sublist_cons|intros Hr; by specialize (Hs Hr)|done].
Qed.

(** ** Two libraries *)

Module CoroDemo.

(** One that goes on with the one that has waited longest, as [coroutine.c]
    would: the number of coroutines and their queue. *)
Definition first_ready (ready q : list nat) : option nat :=
  match base.filter (λ i, i ∈ ready) q with i :: _ => Some i | [] => head ready end.

#[local, refine] Instance fifo_lib : CoroLib := {|
  lib := nat * list nat;
  lib0 := (0%nat, []);
  l_spawn s := ((S s.1, s.2 ++ [s.1]), true);
  l_next ready s :=
    match first_ready ready s.2 with
    | Some i => ((s.1, base.filter (λ j, j ≠ i) s.2 ++ [i]), Some i)
    | None => (s, None)
    end
|}.
Proof.
  intros ready [n q]. unfold first_ready. cbn.
  destruct (base.filter (λ i, i ∈ ready) q) as [|i q'] eqn:Hq; cbn.
  - destruct ready as [|i ready]; cbn; [done|]. by left.
  - assert (i ∈ base.filter (λ i, i ∈ ready) q) as Hi by (rewrite Hq; by left).
    by apply list_elem_of_filter in Hi as [Hi _].
Defined.

(** One that goes on with the first it has created that may run. *)
#[local, refine] Instance eager_lib : CoroLib := {|
  lib := ();
  lib0 := ();
  l_spawn s := (s, true);
  l_next ready s := (s, head ready)
|}.
Proof. intros [|i ready] s; [done|]. by left. Defined.

End CoroDemo.
