(* ===== verification/Buffers.v ===== *)
(** * The bounded buffers of the examples

    Several demos share items between coroutines through a circular buffer.
    [examples/ring_buffer_demo.c] and [examples/producer_consumer.c] are here,
    a Module each: the buffer and its operations, refined to a bounded list,
    then the bodies, and what holds of the shared memory whatever the schedule.
    The others have a file of their own and use the first section of this one.

    Memory is [option]al: [None] is the memory after undefined behaviour.  The
    demos' mains call the library under names that [coroutine.h] does not
    declare: for what holds in every state main is a parameter ([program] of
    [User.v]), and for the output the calls that stand for it are given. *)

From stdpp Require Import gmap.
From S2P Require Import Prelude Ring Machine State RunQueue Api Demo User.
From S2P Require Import Threads Progress ForkJoin Rounds.

(** ** Shared memory that stays defined *)

(** A stretch of code over memory [M]: the memory and the next call, or
    undefined behaviour. *)
Definition run_body {L M : Type} (f : M → option (M * ucall L)) (u : option M)
    : ucall L * option M :=
  match u ≫= f with
  | Some (m, c) => (c, Some m)
  | None => (UReturn, None)
  end.

(** [P] holds of the memory, which is defined. *)
Definition defined {M : Type} (P : M → Prop) (u : option M) : Prop :=
  match u with Some m => P m | None => False end.

Lemma run_body_inv {L M} (f : M → option (M * ucall L)) (P : M → Prop)
    (Q : ucall L → Prop) u :
  defined P u → (∀ m, P m → ∃ m' c, f m = Some (m', c) ∧ P m' ∧ Q c) →
  defined P (run_body f u).2 ∧ Q (run_body f u).1.
Proof.
  intros Hu Hf. destruct u as [m|]; [|done]. unfold run_body. cbn.
  by destruct (Hf m Hu) as (m' & c & -> & HP & HQ).
Qed.

(** A body makes no call but [co_yield] if its stretches end in none. *)
Definition yields_only {L} (c : ucall L) : Prop :=
  match c with UReturn | UTau _ | UYield _ => True | _ => False end.

Lemma run_body_yields {L M} (f : M → option (M * ucall L)) u :
  (∀ m m' c, f m = Some (m', c) → yields_only c) → yields_only (run_body f u).1.
Proof.
  intros Hf. unfold run_body. destruct u as [m|]; [|done]. cbn.
  destruct (f m) as [[m' c]|] eqn:Hm; [by eapply Hf|done].
Qed.

(** The call at the end of each path through a stretch. *)
Ltac body_calls :=
  repeat match goal with
  | Hs : mbind _ _ = Some _ |- _ => apply bind_Some in Hs as (? & _ & Hs)
  | Hs : match ?x with _ => _ end = Some _ |- _ => destruct x
  | Hs : Some _ = Some _ |- _ => injection Hs as <- <-
  end; try done.

(** ** examples/ring_buffer_demo.c *)

Module RingBufferDemo.
Definition BUFFER_CAPACITY : Z := 4.
Definition ITEM_COUNT : Z := 20.

Record ring_buffer := RingBuffer {
  data : list Z;
  head : Z;
  tail : Z;
  count : Z
}.

#[export] Instance rb_view : RingView ring_buffer Z := {|
  ring_view rb := Ring (data rb) (head rb) (tail rb) (count rb);
  ring_cap := BUFFER_CAPACITY
|}.

(** The buffer and the returned code. *)
Definition rb_push (rb : ring_buffer) (value : Z) : option (ring_buffer * Z) :=
  if count rb =? BUFFER_CAPACITY then Some (rb, -1)
  else
    d ← arr_set (data rb) (tail rb) value;
    t ← cadd (tail rb) 1;
    n ← cadd (count rb) 1;
    Some (RingBuffer d (head rb) (Z.rem t BUFFER_CAPACITY) n, 0).

(** The buffer, [*out] and the returned code. *)
Definition rb_pop (rb : ring_buffer) (out : Z) : option (ring_buffer * Z * Z) :=
  if count rb =? 0 then Some (rb, out, -1)
  else
    v ← arr_get (data rb) (head rb);
    h ← cadd (head rb) 1;
    n ← cadd (count rb) (-1);
    Some (RingBuffer (data rb) (Z.rem h BUFFER_CAPACITY) (tail rb) n, v, 0).

(** [rb_push] of the ring-buffer demo refines a push on a list of at most
    [BUFFER_CAPACITY] elements: no index leaves the array, a full buffer is
    reported with -1 and left alone. *)
Lemma rb_push_spec rb l v :
  ring_rep rb l →
  ∃ rb' rc, rb_push rb v = Some (rb', rc)
    ∧ ((rc = 0 ∧ Z.of_nat (length l) < BUFFER_CAPACITY ∧ ring_rep rb' (l ++ [v]))
       ∨ (rc = -1 ∧ Z.of_nat (length l) = BUFFER_CAPACITY ∧ rb' = rb)).
Proof.
  intros Hr. pose proof (rr_size _ _ Hr) as Hs. pose proof (rr_fits _ _ Hr) as Hf.
  unfold rb_push. cbn in Hs, Hf. destruct (Z.eqb_spec (count rb) BUFFER_CAPACITY) as [Hc|Hc].
  { eexists _, _. split; [done|]. right. split_and!; [done|lia|done]. }
  ring_push_ops Hr v.
  eexists _, _. split; [done|]. left. split_and!; [done|lia|].
  eapply (ring_push_rep rb); try done. cbn. lia.
Qed.

(** [rb_pop] refines the pop of that list: it delivers the oldest element,
    and reports an empty buffer with -1. *)
Lemma rb_pop_spec rb l out :
  ring_rep rb l →
  ∃ rb' v rc, rb_pop rb out = Some (rb', v, rc)
    ∧ match l with
      | [] => rc = -1 ∧ v = out ∧ rb' = rb
      | x :: l' => rc = 0 ∧ v = x ∧ ring_rep rb' l'
      end.
Proof.
  intros Hr. pose proof (rr_size _ _ Hr) as Hs. unfold rb_pop. cbn in Hs.
  destruct l as [|x l].
  { rewrite Hs. cbn. eauto 10. }
  rewrite (proj2 (Z.eqb_neq _ _)) by (rewrite Hs; cbn; lia).
  ring_pop_ops Hr.
  eexists _, _, _. split; [done|]. split_and!; [done..|]. by eapply (ring_pop_rep rb).
Qed.

(** What the program prints. *)
Inductive out : Set := Produced (v count : Z) | Consumed (v count : Z).

Record mem := Mem { rb : ring_buffer; printed : list out }.

Inductive point : Set :=
| PLoop (i : Z)         (* producer, loop condition *)
| PPush (i : Z)         (* producer, inner loop condition *)
| CLoop (received : Z)  (* consumer, loop condition *)
| CPop (received : Z).  (* consumer, inner loop condition *)

Definition producer_push (i : Z) (m : mem) : option (mem * ucall point) :=
  '(rb', rc) ← rb_push (rb m) i;
  if negb (rc =? 0) then Some (Mem rb' (printed m), UYield (PPush i))
  else
    i' ← cadd i 1;
    Some (Mem rb' (printed m ++ [Produced i (count rb')]), UYield (PLoop i')).

Definition consumer_pop (received : Z) (m : mem) : option (mem * ucall point) :=
  '(rb', value, rc) ← rb_pop (rb m) 0;
  if negb (rc =? 0) then Some (Mem rb' (printed m), UYield (CPop received))
  else
    r' ← cadd received 1;
    Some (Mem rb' (printed m ++ [Consumed value (count rb')]), UYield (CLoop r')).

Definition step_point (l : point) (m : mem) : option (mem * ucall point) :=
  match l with
  | PLoop i => if i <? ITEM_COUNT then producer_push i m else Some (m, UReturn)
  | PPush i => producer_push i m
  | CLoop r => if r <? ITEM_COUNT then consumer_pop r m else Some (m, UReturn)
  | CPop r => consumer_pop r m
  end.

Definition fn_producer : ptr := 1.

#[export] Instance bodies : Bodies point (option mem) := {|
  body_step l := run_body (step_point l);
  body_fn fn arg := if fn =? fn_producer then PLoop 0 else CLoop 0
|}.

(** [memset(&rb, 0, sizeof(rb))] *)
Definition mem0 : mem :=
  Mem (RingBuffer (replicate (Z.to_nat BUFFER_CAPACITY) 0) 0 0 0) [].

Definition produced (m : mem) : list Z :=
  omap (λ o, match o with Produced v _ => Some v | _ => None end) (printed m).
Definition consumed (m : mem) : list Z :=
  omap (λ o, match o with Consumed v _ => Some v | _ => None end) (printed m).

(** Everything produced has been consumed or is in the buffer, in order. *)
Definition flow (m : mem) : Prop :=
  ∃ l, ring_rep (rb m) l ∧ consumed m ++ l = produced m.

Definition counters_ok (l : point) : Prop :=
  match l with
  | PLoop i | CLoop i => 0 ≤ i ≤ ITEM_COUNT
  | PPush i | CPop i => 0 ≤ i < ITEM_COUNT
  end.

Lemma producer_push_ok i m :
  0 ≤ i < ITEM_COUNT → flow m →
  ∃ m' c, producer_push i m = Some (m', c) ∧ flow m' ∧ body_ok counters_ok c.
Proof.
  intros Hi (l & Hr & Hf). unfold producer_push.
  destruct (rb_push_spec _ _ i Hr) as (rb' & rc & -> & [(-> & _ & Hr')|(-> & _ & ->)]).
  - cbn. rewrite cadd_ok by (unfold ITEM_COUNT, INT_MIN, INT_MAX in *; lia). cbn.
    eexists _, _. split_and!; [done| |cbn; lia].
    exists (l ++ [i]). split; [done|]. unfold consumed, produced in *. cbn.
    rewrite !omap_app, <- Hf. cbn. by rewrite app_nil_r, <- app_assoc.
  - cbn. eexists _, _. split_and!; [done| |done]. by exists l.
Qed.

Lemma consumer_pop_ok r m :
  0 ≤ r < ITEM_COUNT → flow m →
  ∃ m' c, consumer_pop r m = Some (m', c) ∧ flow m' ∧ body_ok counters_ok c.
Proof.
  intros Hi (l & Hr & Hf). unfold consumer_pop.
  destruct (rb_pop_spec _ _ 0 Hr) as (rb' & v & rc & -> & Hl).
  destruct l as [|x l]; [destruct Hl as (-> & -> & ->)|destruct Hl as (-> & -> & Hr')].
  - cbn. eexists _, _. split_and!; [done| |done]. by exists [].
  - cbn. rewrite cadd_ok by (unfold ITEM_COUNT, INT_MIN, INT_MAX in *; lia). cbn.
    eexists _, _. split_and!; [done| |cbn; lia].
    exists l. split; [done|]. unfold consumed, produced in *. cbn.
    rewrite !omap_app, <- Hf. cbn. by rewrite app_nil_r, <- app_assoc.
Qed.

#[export] Instance bodies_inv : BodyInv (λ _ _, True) (λ l _, counters_ok l) (defined flow).
Proof.
  apply pure_body_inv.
  - intros l u Hl Hu. apply run_body_inv; [done|]. intros m Hm.
    destruct l as [i|i|r|r]; cbn in *; try case_match eqn:Hlt;
      try apply Z.ltb_lt in Hlt;
      first [apply producer_push_ok; [lia|done] | apply consumer_pop_ok; [lia|done]
            | by eexists _, _].
  - intros fn arg _. cbn. by case_match.
Qed.

Lemma ring_flow0 : flow mem0.
Proof. exists []. split; [by apply ring_init_rep|done]. Qed.

(** In the ring-buffer demo, however the producers and consumers are
    scheduled, no array access leaves its bounds, no counter overflows, and
    the values consumed followed by those in the buffer are the values
    produced, in order: nothing is lost, duplicated or reordered. *)
Theorem ring_demo_flow {MP} (main : MP → ucall MP) `{Allocator, LinkMap} n
    (w : world (MP + point) (option mem)) (σ : alloc_state) (x : MP) :
  @steps _ _ _ _ (program main) n (init_world σ (Some mem0) (inl x)) w →
  ∃ m l, w_user w = Some m ∧ ring_rep (rb m) l ∧ consumed m ++ l = produced m.
Proof.
  intros Hs.
  assert (defined flow (w_user w)) as Hu
    by (apply (program_invariant main (λ _ _, True) (λ _, True) (λ l _, counters_ok l) (defined flow) n w σ
               (Some mem0) x); [apply starts_ok_any|done|apply ring_flow0|done]).
  destruct (w_user w) as [m|]; [|done]. destruct Hu as (l & Hr & Hf). by exists m, l.
Qed.

(** The demo's main, on the allocator of [Demo.v]. *)
#[local] Existing Instance MachineDemo.link.
#[local] Instance code : UserCode (option (list (ptr * ptr)) + point) (option mem) :=
  program spawn_all.
Definition demo : world (option (list (ptr * ptr)) + point) (option mem) :=
  init_world heap0 (Some mem0) (inl (Some [(fn_producer, 0); (2, 0)])).

Lemma ring_demo_flow_witness :
  ∃ m l, w_user (default demo (go 100 demo)) = Some m ∧ ring_rep (rb m) l
    ∧ consumed m ++ l = produced m.
Proof.
  apply (ring_demo_flow spawn_all 100 (H := bump_allocator) _ heap0 (Some [(fn_producer, 0); (2, 0)])).
  apply (go_steps 100 demo). by vm_compute.
Defined.

(** main: it looks at both handles once both have been created;
    [scheduler_run] stands for [co_run], [co_destroy] for [co_free]. *)
Definition main : fj_point → ucall fj_point := fork_join_with AtEnd (16 * 1024) true.
Definition todo : list (ptr * ptr) := [(fn_producer, 0); (2, 0)].

#[export] Instance ring_yields : YieldBodies point (option mem).
Proof.
  intros l u. apply run_body_yields. intros m m' c.
  destruct l; cbn; unfold producer_push, consumer_pop; intros Hs; body_calls.
Qed.

Lemma ring_turns :
  ∃ m, round_robin 60 (starts todo) (Some mem0) = Some (Some m)
    ∧ consumed m = seqZ 0 ITEM_COUNT ∧ produced m = seqZ 0 ITEM_COUNT.
Proof. eexists. split; [by vm_compute|done]. Qed.

(** The ring-buffer demo ends, for every allocator that refuses neither of its
    two creations, and the consumer has printed 0, 1, ..., 19, each once and in
    order, as the comment at the head of the file says. *)
Theorem ring_demo_output `{Allocator, LinkMap} (σ : alloc_state) fuel :
  let w0 := init_world σ (Some mem0) (inl (FCreate todo [])) in
  let code := program main in
  635 ≤ Z.of_nat fuel → ¬ refused_in w0 →
  match exec fuel w0 with
  | Finished w => consumed <$> w_user w = Some (seqZ 0 ITEM_COUNT)
      ∧ produced <$> w_user w = Some (seqZ 0 ITEM_COUNT)
  | _ => False
  end.
Proof.
  intros w0 code Hf Hr. destruct ring_turns as (m & Hm & Hc & Hp).
  pose proof (rounds_total (R := refused_in w0) AtEnd (16 * 1024) true todo (Some mem0)
    (or_intror Hr) ltac:(apply size_large; lia) ltac:(by consts) ltac:(by repeat constructor)
    σ 60 (Some m) fuel id Hm ltac:(change (length todo) with 2%nat; lia)) as Ht.
  unfold w0, code, main. destruct (exec fuel _) as [w|e|w]; [|done..].
  destruct Ht as [[Href _]|Ht]; [by destruct (Hr Href)|]. rewrite Ht.
  exact (conj (f_equal Some Hc) (f_equal Some Hp)).
Qed.
End RingBufferDemo.

(** ** examples/producer_consumer.c *)

Module ProducerConsumer.
Definition BUF_SIZE : Z := 8.
Definition N_ITEMS : Z := 16.

(** The static variables [buf], [head], [tail], [count]. *)
Record buffer := Buffer { buf : list Z; head : Z; tail : Z; count : Z }.

#[export] Instance buf_view : RingView buffer Z := {|
  ring_view b := Ring (buf b) (head b) (tail b) (count b);
  ring_cap := BUF_SIZE
|}.

Definition buf_full (b : buffer) : bool := count b =? BUF_SIZE.
Definition buf_empty (b : buffer) : bool := count b =? 0.

Definition buf_push (b : buffer) (val : Z) : option buffer :=
  a ← arr_set (buf b) (tail b) val;
  t ← cadd (tail b) 1;
  n ← cadd (count b) 1;
  Some (Buffer a (head b) (Z.rem t BUF_SIZE) n).

Definition buf_pop (b : buffer) : option (buffer * Z) :=
  val ← arr_get (buf b) (head b);
  h ← cadd (head b) 1;
  n ← cadd (count b) (-1);
  Some (Buffer (buf b) (Z.rem h BUF_SIZE) (tail b) n, val).

(** [buf_push] and [buf_pop] check nothing: the callers do. *)
Lemma buf_push_spec b l v :
  ring_rep b l → buf_full b = false →
  ∃ b', buf_push b v = Some b' ∧ ring_rep b' (l ++ [v]).
Proof.
  intros Hr Hf. pose proof (rr_size _ _ Hr) as Hs. pose proof (rr_fits _ _ Hr) as Hc.
  unfold buf_full in Hf. apply Z.eqb_neq in Hf. cbn in Hs, Hc, Hf.
  unfold buf_push. ring_push_ops Hr v. eexists. split; [done|].
  eapply (ring_push_rep b); try done. cbn. lia.
Qed.

Lemma buf_pop_spec b l :
  ring_rep b l → buf_empty b = false →
  ∃ b' v l', l = v :: l' ∧ buf_pop b = Some (b', v) ∧ ring_rep b' l'.
Proof.
  intros Hr Hf. pose proof (rr_size _ _ Hr) as Hs. unfold buf_empty in Hf.
  apply Z.eqb_neq in Hf. cbn in Hs. destruct l as [|v l]; [done|].
  unfold buf_pop. ring_pop_ops Hr. eexists _, _, _. split_and!; [done..|].
  by eapply (ring_pop_rep b).
Qed.

Inductive out : Set :=
| Push (id val count : Z) | ProducerDone (id : Z)
| Pop (id val count : Z) | ConsumerDone (id received : Z).

Record mem := Mem { b : buffer; printed : list out }.

(** The arguments [ProdArgs] and [ConArgs] never change: they are part of the
    control point. *)
Inductive point : Set :=
| PLoop (id start i : Z) | PSpin (id start i : Z)
| CLoop (id total received : Z) | CSpin (id total received : Z).

Definition producer_spin (id start i : Z) (m : mem) : option (mem * ucall point) :=
  if buf_full (b m) then Some (m, UYield (PSpin id start i))
  else
    val ← cadd start i;
    b' ← buf_push (b m) val;
    i' ← cadd i 1;
    Some (Mem b' (printed m ++ [Push id val (count b')]), UYield (PLoop id start i')).

Definition consumer_spin (id total received : Z) (m : mem) : option (mem * ucall point) :=
  if buf_empty (b m) then Some (m, UYield (CSpin id total received))
  else
    '(b', val) ← buf_pop (b m);
    r' ← cadd received 1;
    Some (Mem b' (printed m ++ [Pop id val (count b')]), UYield (CLoop id total r')).

Definition step_point (l : point) (m : mem) : option (mem * ucall point) :=
  match l with
  | PLoop id start i =>
      if i <? N_ITEMS then producer_spin id start i m
      else Some (Mem (b m) (printed m ++ [ProducerDone id]), UReturn)
  | PSpin id start i => producer_spin id start i m
  | CLoop id total received =>
      if received <? total then consumer_spin id total received m
      else Some (Mem (b m) (printed m ++ [ConsumerDone id received]), UReturn)
  | CSpin id total received => consumer_spin id total received m
  end.

Definition fn_producer : ptr := 1.

(** main's [pa] and [ca]; an argument is the index into its array. *)
Definition pa (arg : ptr) : Z * Z := if arg =? 0 then (0, 100) else (1, 200).
Definition ca (arg : ptr) : Z * Z := if arg =? 0 then (0, N_ITEMS) else (1, N_ITEMS).

#[export] Instance bodies : Bodies point (option mem) := {|
  body_step l := run_body (step_point l);
  body_fn fn arg :=
    if fn =? fn_producer then PLoop (pa arg).1 (pa arg).2 0
    else CLoop (ca arg).1 (ca arg).2 0
|}.

Definition mem0 : mem :=
  Mem (Buffer (replicate (Z.to_nat BUF_SIZE) 0) 0 0 0) [].

Definition pushed_vals (m : mem) : list Z :=
  omap (λ o, match o with Push _ v _ => Some v | _ => None end) (printed m).
Definition popped_vals (m : mem) : list Z :=
  omap (λ o, match o with Pop _ v _ => Some v | _ => None end) (printed m).

Definition flow (m : mem) : Prop :=
  ∃ l, ring_rep (b m) l ∧ popped_vals m ++ l = pushed_vals m.

Definition counters_ok (l : point) : Prop :=
  match l with
  | PLoop _ start i => 0 ≤ i ≤ N_ITEMS ∧ 0 ≤ start ≤ 200
  | PSpin _ start i => 0 ≤ i < N_ITEMS ∧ 0 ≤ start ≤ 200
  | CLoop _ total r => 0 ≤ r ≤ total ∧ total = N_ITEMS
  | CSpin _ total r => 0 ≤ r < total ∧ total = N_ITEMS
  end.

Lemma producer_spin_ok id start i m :
  0 ≤ i < N_ITEMS → 0 ≤ start ≤ 200 → flow m →
  ∃ m' c, producer_spin id start i m = Some (m', c) ∧ flow m' ∧ body_ok counters_ok c.
Proof.
  intros Hi Hst (l & Hr & Hf). unfold producer_spin.
  destruct (buf_full (b m)) eqn:Hfull.
  { eexists _, _. split_and!; [done|by exists l|done..]. }
  rewrite (cadd_ok start i) by (unfold N_ITEMS, INT_MIN, INT_MAX in *; lia).
  cbn [mbind option_bind].
  destruct (buf_push_spec _ _ (start + i) Hr Hfull) as (b' & -> & Hr').
  cbn [mbind option_bind]. rewrite (cadd_ok i 1) by (unfold N_ITEMS, INT_MIN, INT_MAX in *; lia). cbn.
  cbn [mbind option_bind]. eexists _, _. split_and!; [done| |cbn; lia..].
  exists (l ++ [start + i]). split; [done|]. unfold popped_vals, pushed_vals in *. cbn.
  rewrite !omap_app, <- Hf. cbn. by rewrite app_nil_r, <- app_assoc.
Qed.

Lemma consumer_spin_ok id r m :
  0 ≤ r < N_ITEMS → flow m →
  ∃ m' c, consumer_spin id N_ITEMS r m = Some (m', c) ∧ flow m' ∧ body_ok counters_ok c.
Proof.
  intros Hi (l & Hr & Hf). unfold consumer_spin.
  destruct (buf_empty (b m)) eqn:Hempty.
  { exists m, (UYield (CSpin id N_ITEMS r)).
    split; [done|]. split; [by exists l|]. by split. }
  destruct (buf_pop_spec _ _ Hr Hempty) as (b' & v & l' & -> & -> & Hr'). cbn.
  rewrite cadd_ok by (unfold N_ITEMS, INT_MIN, INT_MAX in *; lia). cbn.
  eexists _, _. split_and!; [done| |cbn; lia..].
  exists l'. split; [done|]. unfold popped_vals, pushed_vals in *. cbn.
  rewrite !omap_app, <- Hf. cbn. by rewrite app_nil_r, <- app_assoc.
Qed.

Lemma flow_print m o :
  (match o with Push _ _ _ | Pop _ _ _ => False | _ => True end) →
  flow m → flow (Mem (b m) (printed m ++ [o])).
Proof.
  intros Ho (l & Hr & Hf). exists l. split; [done|].
  unfold popped_vals, pushed_vals in *. cbn. rewrite !omap_app.
  destruct o; try done; cbn; by rewrite !app_nil_r.
Qed.

#[export] Instance bodies_inv : BodyInv (λ _ _, True) (λ l _, counters_ok l) (defined flow).
Proof.
  apply pure_body_inv.
  - intros l u Hl Hu. apply run_body_inv; [done|]. intros m Hm.
    destruct l as [id st i|id st i|id t r|id t r]; cbn in *; destruct Hl as [Hl Ht].
    + destruct (Z.ltb_spec i N_ITEMS); [by apply producer_spin_ok; [lia|..]|].
      eexists _, _. split_and!; [done|by apply flow_print|done].
    + by apply producer_spin_ok.
    + subst t. destruct (Z.ltb_spec r N_ITEMS); [by apply consumer_spin_ok; [lia|]|].
      eexists _, _. split_and!; [done|by apply flow_print|done].
    + subst t. by apply consumer_spin_ok.
  - intros fn arg _. cbn. unfold pa, ca. repeat case_match; cbn; by split.
Qed.

Lemma pc_flow0 : flow mem0.
Proof. exists []. split; [by apply ring_init_rep|done]. Qed.

(** In the producer/consumer demo, for any number of producers and
    consumers and any schedule, the unchecked [buf_push] never overwrites an
    element and the unchecked [buf_pop] never reads an empty buffer; the
    values popped followed by the buffered ones are the values pushed, in
    order. *)
Theorem producer_consumer_flow {MP} (main : MP → ucall MP) `{Allocator, LinkMap} n
    (w : world (MP + point) (option mem)) (σ : alloc_state) (x : MP) :
  @steps _ _ _ _ (program main) n (init_world σ (Some mem0) (inl x)) w →
  ∃ m l, w_user w = Some m ∧ ring_rep (b m) l ∧ popped_vals m ++ l = pushed_vals m.
Proof.
  intros Hs.
  assert (defined flow (w_user w)) as Hu
    by (apply (program_invariant main (λ _ _, True) (λ _, True) (λ l _, counters_ok l) (defined flow) n w σ
               (Some mem0) x); [apply starts_ok_any|done|apply pc_flow0|done]).
  destruct (w_user w) as [m|]; [|done]. destruct Hu as (l & Hr & Hf). by exists m, l.
Qed.

#[local] Existing Instance MachineDemo.link.
#[local] Instance code : UserCode (option (list (ptr * ptr)) + point) (option mem) :=
  program spawn_all.
Definition demo : world (option (list (ptr * ptr)) + point) (option mem) :=
  init_world heap0 (Some mem0) (inl (Some [(fn_producer, 0); (2, 0); (fn_producer, 1); (2, 1)])).

Lemma producer_consumer_flow_witness :
  ∃ m l, w_user (default demo (go 100 demo)) = Some m ∧ ring_rep (b m) l
    ∧ popped_vals m ++ l = pushed_vals m.
Proof.
  apply (producer_consumer_flow spawn_all 100 (H := bump_allocator) _ heap0
    (Some [(fn_producer, 0); (2, 0); (fn_producer, 1); (2, 1)])).
  apply (go_steps 100 demo). by vm_compute.
Defined.

(** main: [co_create] here has the size first, and [co_spawn] starts what
    this library's [co_create] has already put into the queue; main looks at
    no handle. *)
Definition main : fj_point → ucall fj_point := fork_join_with Never 65536 true.
Definition todo : list (ptr * ptr) := [(fn_producer, 0); (2, 0); (fn_producer, 1); (2, 1)].

#[export] Instance pc_yields : YieldBodies point (option mem).
Proof.
  intros l u. apply run_body_yields. intros m m' c.
  destruct l; cbn; unfold producer_spin, consumer_spin; intros Hs; body_calls.
Qed.

(** What consumer [id] has received. *)
Definition popped_by (id : Z) (m : mem) : list Z :=
  omap (λ o, match o with Pop i v _ => if i =? id then Some v else None | _ => None end) (printed m).

Lemma pc_turns :
  ∃ m, round_robin 200 (starts todo) (Some mem0) = Some (Some m)
    ∧ popped_by 0 m = seqZ 100 N_ITEMS ∧ popped_by 1 m = seqZ 200 N_ITEMS.
Proof. eexists. split; [by vm_compute|done]. Qed.

(** The producer/consumer demo ends, for every allocator that refuses none of
    its four creations, and the consumers have received all 32 values: each
    consumer those of one producer, in order. *)
Theorem producer_consumer_output `{Allocator, LinkMap} (σ : alloc_state) fuel :
  let w0 := init_world σ (Some mem0) (inl (FCreate todo [])) in
  let code := program main in
  2055 ≤ Z.of_nat fuel → ¬ refused_in w0 →
  match exec fuel w0 with
  | Finished w => popped_by 0 <$> w_user w = Some (seqZ 100 N_ITEMS)
      ∧ popped_by 1 <$> w_user w = Some (seqZ 200 N_ITEMS)
  | _ => False
  end.
Proof.
  intros w0 code Hf Hr. destruct pc_turns as (m & Hm & H0c & H1c).
  pose proof (rounds_total (R := refused_in w0) Never 65536 true todo (Some mem0)
    (or_intror Hr) ltac:(apply size_large; lia) ltac:(by consts) ltac:(by repeat constructor)
    σ 200 (Some m) fuel id Hm ltac:(change (length todo) with 4%nat; lia)) as Ht.
  unfold w0, code, main. destruct (exec fuel _) as [w|e|w]; [|done..].
  destruct Ht as [[Href _]|Ht]; [by destruct (Hr Href)|]. rewrite Ht.
  exact (conj (f_equal Some H0c) (f_equal Some H1c)).
Qed.
End ProducerConsumer.
