(* ===== verification/FiberPool.v ===== *)
(** * The fiber pool ([examples/fiber_pool.c])

    A fixed number of workers drain a queue that main fills before they start.
    The file defines the queue, main's filling loop and the workers, and shows
    that no task is lost or done twice. *)

From stdpp Require Import gmap.
From S2P Require Import Prelude Ring Machine State RunQueue Api Demo User Buffers.

Module FiberPool.
Definition QUEUE_CAP : Z := 64.

Record TaskQueue := MkQueue { items : list Z; head : Z; tail : Z; size : Z }.

#[export] Instance queue_view : RingView TaskQueue Z := {|
  ring_view q := Ring (items q) (head q) (tail q) (size q);
  ring_cap := QUEUE_CAP
|}.

Definition queue_init (q : TaskQueue) : TaskQueue := MkQueue (items q) 0 0 0.

Definition queue_push (q : TaskQueue) (val : Z) : option (TaskQueue * Z) :=
  if size q =? QUEUE_CAP then Some (q, -1)
  else
    a ← arr_set (items q) (tail q) val;
    t ← cadd (tail q) 1;
    n ← cadd (size q) 1;
    Some (MkQueue a (head q) (Z.rem t QUEUE_CAP) n, 0).

Definition queue_pop (q : TaskQueue) (out : Z) : option (TaskQueue * Z * Z) :=
  if size q =? 0 then Some (q, out, -1)
  else
    v ← arr_get (items q) (head q);
    h ← cadd (head q) 1;
    n ← cadd (size q) (-1);
    Some (MkQueue (items q) (Z.rem h QUEUE_CAP) (tail q) n, v, 0).

Lemma queue_push_spec q l v :
  ring_rep q l → Z.of_nat (length l) < QUEUE_CAP →
  ∃ q', queue_push q v = Some (q', 0) ∧ ring_rep q' (l ++ [v]).
Proof.
  intros Hr Hl. pose proof (rr_size _ _ Hr) as Hs. cbn in Hs.
  unfold queue_push. rewrite (proj2 (Z.eqb_neq _ _)) by (rewrite Hs; lia).
  ring_push_ops Hr v. eexists. split; [done|]. by eapply (ring_push_rep q).
Qed.

Lemma queue_pop_spec q l out :
  ring_rep q l →
  match l with
  | [] => queue_pop q out = Some (q, out, -1)
  | x :: l' => ∃ q', queue_pop q out = Some (q', x, 0) ∧ ring_rep q' l'
  end.
Proof.
  intros Hr. pose proof (rr_size _ _ Hr) as Hs. unfold queue_pop. cbn in Hs.
  destruct l as [|x l]; [by rewrite Hs|].
  rewrite (proj2 (Z.eqb_neq _ _)) by (rewrite Hs; cbn; lia).
  ring_pop_ops Hr. eexists. split; [done|]. by eapply (ring_pop_rep q).
Qed.

(** main: [for (int i = 0; i < num_tasks; i++) queue_push(&queue, i + 1);] *)
Fixpoint fill (n : nat) (i : Z) (q : TaskQueue) : option TaskQueue :=
  match n with
  | O => Some q
  | S n => '(q', _) ← queue_push q (i + 1); fill n (i + 1) q'
  end.

Lemma fill_spec n : ∀ i q l,
  ring_rep q l → Z.of_nat (length l + n) ≤ QUEUE_CAP →
  ∃ q', fill n i q = Some q' ∧ ring_rep q' (l ++ seqZ (i + 1) (Z.of_nat n)).
Proof.
  induction n as [|n IH]; intros i q l Hr Hn.
  - exists q. split; [done|]. by rewrite app_nil_r.
  - destruct (queue_push_spec q l (i + 1) Hr) as (q1 & Hp & Hr1); [lia|].
    cbn [fill]. rewrite Hp. cbn [mbind option_bind].
    destruct (IH (i + 1) q1 (l ++ [i + 1]) Hr1) as (q' & -> & Hr').
    { rewrite length_app. cbn. lia. }
    exists q'. split; [done|]. rewrite Nat2Z.inj_succ, seqZ_cons by lia.
    rewrite <- app_assoc in Hr'. cbn in Hr'.
    by rewrite Z.pred_succ.
Qed.

(** [WorkerArg], without the pointer to the one queue. *)
Record WorkerArg := MkWorker { id : Z; processed : Z }.

(** [printf("  \[worker %d\] processing task %d\n")] *)
Record out := Processing { o_worker : Z; o_task : Z }.

Record mem := Mem { queue : TaskQueue; args : list WorkerArg; printed : list out }.

(** [worker_fn] at the head of its loop; [k] is the index of its argument. *)
Inductive point : Set := WLoop (k : Z).

Definition worker_step (l : point) (m : mem) : option (mem * ucall point) :=
  let '(WLoop k) := l in
  w ← arr_get (args m) k;
  '(q', task, rc) ← queue_pop (queue m) 0;
  if rc =? 0 then
    p ← cadd (processed w) 1;
    as' ← arr_set (args m) k (MkWorker (id w) p);
    Some (Mem q' as' (printed m ++ [Processing (id w) task]), UYield (WLoop k))
  else Some (Mem q' (args m) (printed m), UYield (WLoop k)).

(** A turn of worker [k]. *)
Lemma worker_step_pop k m l a :
  ring_rep (queue m) l → args m !! k = Some a → 0 ≤ processed a < INT_MAX →
  match l with
  | [] => worker_step (WLoop (Z.of_nat k)) m = Some (m, UYield (WLoop (Z.of_nat k)))
  | x :: l' => ∃ q', ring_rep q' l'
      ∧ worker_step (WLoop (Z.of_nat k)) m
        = Some (Mem q' (<[k := MkWorker (id a) (processed a + 1)]> (args m))
                  (printed m ++ [Processing (id a) x]), UYield (WLoop (Z.of_nat k)))
  end.
Proof.
  intros Hr Ha Hp. pose proof (queue_pop_spec _ _ 0 Hr) as Hpop. cbn [worker_step].
  unfold arr_get. rewrite zlookup_nat, Ha. cbn [mbind option_bind]. destruct l as [|x l].
  - rewrite Hpop. by destruct m.
  - destruct Hpop as (q' & -> & Hr'). exists q'. split; [done|]. cbn [mbind option_bind Z.eqb].
    rewrite cadd_ok by (consts; lia). cbn [mbind option_bind].
    apply lookup_lt_Some in Ha. rewrite arr_set_ok by lia. cbn [mbind option_bind].
    unfold zinsert. by rewrite (proj2 (Z.leb_le 0 (Z.of_nat k))), Nat2Z.id by lia.
Qed.

#[export] Instance bodies : Bodies point (option mem) := {|
  body_step l := run_body (worker_step l);
  body_fn fn arg := WLoop arg
|}.

(** main, up to the creation of the fibers. *)
Definition setup (q0 : TaskQueue) (num_fibers num_tasks : nat) : option mem :=
  q ← fill num_tasks 0 (queue_init q0);
  Some (Mem q ((λ i, MkWorker (Z.of_nat i) 0) <$> seq 0 num_fibers) []).

Section pool.
Variables num_fibers num_tasks : nat.
Hypothesis num_tasks_max : Z.of_nat num_tasks ≤ QUEUE_CAP.

Definition pool_ok (m : mem) : Prop :=
  ∃ l, ring_rep (queue m) l
    ∧ (o_task <$> printed m) ++ l = seqZ 1 (Z.of_nat num_tasks)
    ∧ sumZ (processed <$> args m) = Z.of_nat (length (printed m))
    ∧ Forall (λ a, 0 ≤ processed a) (args m)
    ∧ length (args m) = num_fibers.

Definition valid_arg (fn arg : ptr) : Prop := 0 ≤ arg < Z.of_nat num_fibers.
Definition valid_point (l : point) : Prop :=
  match l with WLoop k => 0 ≤ k < Z.of_nat num_fibers end.

Lemma pool_printed m l :
  (o_task <$> printed m) ++ l = seqZ 1 (Z.of_nat num_tasks) →
  Z.of_nat (length (printed m)) + Z.of_nat (length l) = Z.of_nat num_tasks.
Proof.
  intros He. apply (f_equal length) in He.
  rewrite length_app, length_fmap, length_seqZ in He. lia.
Qed.

Lemma worker_step_ok k m :
  0 ≤ k < Z.of_nat num_fibers → pool_ok m →
  ∃ m' c, worker_step (WLoop k) m = Some (m', c) ∧ pool_ok m' ∧ body_ok valid_point c.
Proof using num_tasks_max.
  intros Hk (l & Hr & Ht & Hs & Hpos & Hlen).
  destruct (lookup_lt_is_Some_2 (args m) (Z.to_nat k)) as [a Ha]; [lia|].
  pose proof (pool_printed _ _ Ht) as Hcnt.
  assert (0 ≤ processed a ≤ Z.of_nat (length (printed m))) as Hpa.
  { split; [exact (Forall_lookup_1 _ _ _ _ Hpos Ha)|]. rewrite <- Hs.
    apply sumZ_member; [|by apply Forall_fmap].
    apply list_elem_of_fmap_2, list_elem_of_lookup. eauto. }
  unfold QUEUE_CAP in num_tasks_max.
  pose proof (worker_step_pop _ _ _ _ Hr Ha ltac:(consts; lia)) as Hw.
  rewrite Z2Nat.id in Hw by lia. destruct l as [|x l].
  { rewrite Hw. eexists _, _. split_and!; [done| |cbn; lia..]. exists []. by split_and!. }
  destruct Hw as (q' & Hr' & ->). eexists _, _. split_and!; [done| |cbn; lia..].
  exists l. cbn. rewrite fmap_app, list_fmap_insert, length_app, length_insert. split_and!.
  - done.
  - by rewrite <- app_assoc.
  - erewrite sumZ_insert by (by rewrite list_lookup_fmap, Ha). cbn. lia.
  - apply Forall_insert; [done|]. cbn. lia.
  - done.
Qed.

#[export] Instance bodies_inv : BodyInv valid_arg (λ l _, valid_point l) (defined pool_ok).
Proof using num_tasks_max.
  apply pure_body_inv; [|by intros fn arg].
  intros [k] u Hl Hu. apply run_body_inv; [done|]. intros m Hm.
  by apply worker_step_ok.
Qed.

Lemma setup_ok q0 :
  Z.of_nat (length (items q0)) = QUEUE_CAP →
  ∃ m, setup q0 num_fibers num_tasks = Some m ∧ pool_ok m.
Proof using num_tasks_max.
  intros Hq. assert (ring_rep (queue_init q0) []) as Hr by by apply ring_init_rep.
  destruct (fill_spec num_tasks 0 _ _ Hr) as (q & Hf & Hr'); [cbn; lia|].
  unfold setup. rewrite Hf. cbn [mbind option_bind]. eexists. split; [done|].
  exists (seqZ 1 (Z.of_nat num_tasks)). cbn. split_and!; [done|done| | |].
  - rewrite <- list_fmap_compose. induction (seq 0 num_fibers); cbn; lia.
  - apply Forall_fmap, Forall_true. done.
  - by rewrite length_fmap, length_seq.
Qed.
End pool.

(** In the fiber pool, for any number of workers and at most [QUEUE_CAP]
    tasks, in every reachable state and for every schedule: the tasks
    processed so far followed by those queued are exactly 1, ...,
    [num_tasks] in order, and the workers' [processed] counters add up to
    the number of tasks done; so no task is lost or processed twice and
    main's final total cannot exceed [num_tasks]. *)
Theorem fiber_pool_tasks {MP} MA (main : MP → ucall MP) `{Allocator, LinkMap} n
    num_fibers num_tasks q0 m0 (w : world (MP + point) (option mem))
    (σ : alloc_state) (x : MP) :
  Z.of_nat num_tasks ≤ QUEUE_CAP → Z.of_nat (length (items q0)) = QUEUE_CAP →
  setup q0 num_fibers num_tasks = Some m0 →
  starts_ok (valid_arg num_fibers) MA main → MA x →
  @steps _ _ _ _ (program main) n (init_world σ (Some m0) (inl x)) w →
  ∃ m l, w_user w = Some m ∧ ring_rep (queue m) l
    ∧ (o_task <$> printed m) ++ l = seqZ 1 (Z.of_nat num_tasks)
    ∧ sumZ (processed <$> args m) = Z.of_nat num_tasks - Z.of_nat (length l).
Proof.
  intros Hn Hq Hset HV Hx Hs.
  destruct (setup_ok num_fibers num_tasks Hn q0 Hq) as (m1 & Hset1 & Hok).
  simplify_eq. pose proof (bodies_inv num_fibers num_tasks Hn) as HB.
  assert (defined (pool_ok num_fibers num_tasks) (w_user w)) as Hu
    by (by apply (program_invariant main (valid_arg num_fibers) MA (λ l _, valid_point num_fibers l)
          (defined (pool_ok num_fibers num_tasks)) n w σ (Some m0) x)).
  destruct (w_user w) as [m|]; [|done]. destruct Hu as (l & Hr & Ht & Hp & _).
  exists m, l. split_and!; [done..|]. rewrite Hp. apply pool_printed in Ht. lia.
Qed.

#[local] Existing Instance MachineDemo.link.
#[local] Instance code : UserCode (option (list (ptr * ptr)) + point) (option mem) :=
  program spawn_all.
Definition q_raw : TaskQueue := MkQueue (replicate (Z.to_nat QUEUE_CAP) 0) 7 8 9.
Definition demo : world (option (list (ptr * ptr)) + point) (option mem) :=
  init_world heap0 (setup q_raw 2 5) (inl (Some [(1, 0); (1, 1)])).

Lemma fiber_pool_tasks_witness :
  ∃ m l, w_user (default demo (go 60 demo)) = Some m ∧ ring_rep (queue m) l
    ∧ (o_task <$> printed m) ++ l = seqZ 1 5
    ∧ sumZ (processed <$> args m) = 5 - Z.of_nat (length l).
Proof.
  destruct (setup q_raw 2 5) as [m0|] eqn:Hset; [|by vm_compute in Hset].
  apply (fiber_pool_tasks (spawn_ok (valid_arg 2)) spawn_all (H := bump_allocator)
    60 2 5 q_raw m0 _ heap0 (Some [(1, 0); (1, 1)])).
  - by vm_compute.
  - by vm_compute.
  - exact Hset.
  - apply spawn_all_ok.
  - repeat constructor; by vm_compute.
  - rewrite <- Hset. apply (go_steps 60 demo). by vm_compute.
Defined.
End FiberPool.
