(* ===== verification/WorkStealing.v ===== *)
(** * The work-stealing pool ([examples/work_stealing.c])

    A dispatcher pushes tasks into a shared ring buffer; workers move them to
    local arrays, a few at a time, and execute them.  The statistics counters
    are unbounded integers here: the demo executes twenty tasks. *)

From stdpp Require Import gmap.
From S2P Require Import Prelude Ring Machine State RunQueue Api Demo User Buffers.
From S2P Require Import Threads Progress ForkJoin Rounds.

Module WorkStealing.
Definition NUM_WORKERS : nat := 4.
Definition TOTAL_TASKS : Z := 20.
Definition LOCAL_CAP : nat := 4.
Definition GLOBAL_CAP : Z := 32.

Record Task := MkTask { t_id : Z; cost : Z }.
Definition zero_task : Task := MkTask 0 0.

Record TaskQueue := MkQueue { items : list Task; head : Z; tail : Z; size : Z }.

#[export] Instance queue_view : RingView TaskQueue Task := {|
  ring_view q := Ring (items q) (head q) (tail q) (size q);
  ring_cap := GLOBAL_CAP
|}.

Definition tq_init : TaskQueue :=
  MkQueue (replicate (Z.to_nat GLOBAL_CAP) zero_task) 0 0 0.
Definition tq_empty (q : TaskQueue) : bool := size q =? 0.
Definition tq_full (q : TaskQueue) : bool := size q =? GLOBAL_CAP.

Definition tq_push (q : TaskQueue) (t : Task) : option (TaskQueue * bool) :=
  if tq_full q then Some (q, false)
  else
    a ← arr_set (items q) (tail q) t;
    tl ← cadd (tail q) 1;
    n ← cadd (size q) 1;
    Some (MkQueue a (head q) (Z.rem tl GLOBAL_CAP) n, true).

(** The queue, and the task popped if there is one. *)
Definition tq_pop (q : TaskQueue) : option (TaskQueue * option Task) :=
  if tq_empty q then Some (q, None)
  else
    t ← arr_get (items q) (head q);
    h ← cadd (head q) 1;
    n ← cadd (size q) (-1);
    Some (MkQueue (items q) (Z.rem h GLOBAL_CAP) (tail q) n, Some t).

Lemma tq_push_spec q l t :
  ring_rep q l →
  ∃ q' b, tq_push q t = Some (q', b) ∧ ring_rep q' (if b then l ++ [t] else l).
Proof.
  intros Hr. pose proof (rr_size _ _ Hr) as Hs. pose proof (rr_fits _ _ Hr) as Hf.
  unfold tq_push, tq_full. cbn in Hs, Hf.
  destruct (Z.eqb_spec (size q) GLOBAL_CAP) as [Hc|Hc]; [by eexists _, false|].
  ring_push_ops Hr t. eexists _, true. split; [done|].
  eapply (ring_push_rep q); try done. cbn. lia.
Qed.

Lemma tq_pop_spec q l :
  ring_rep q l →
  match l with
  | [] => tq_pop q = Some (q, None)
  | t :: l' => ∃ q', tq_pop q = Some (q', Some t) ∧ ring_rep q' l'
  end.
Proof.
  intros Hr. pose proof (rr_size _ _ Hr) as Hs. unfold tq_pop, tq_empty. cbn in Hs.
  destruct l as [|t l]; [by rewrite Hs|].
  rewrite (proj2 (Z.eqb_neq _ _)) by (rewrite Hs; cbn; lia).
  ring_pop_ops Hr. eexists. split; [done|]. by eapply (ring_pop_rep q).
Qed.

Record WorkerState := MkWorker {
  w_id : Z;
  local : list Task;
  local_size : Z;
  stolen : Z;
  processed : Z
}.

Inductive out : Set :=
| WorkerStarted (id : Z) | FinishedTask (id : Z) (t : Task) | Stole (id n : Z)
| WorkerDone (id processed stolen : Z)
| Pushing (n : Z) | PushedTask (t : Task) | AllEnqueued.

Record mem := Mem {
  global_queue : TaskQueue;
  tasks_completed : Z;
  workers : list WorkerState;
  printed : list out
}.

Definition say (o : out) (m : mem) : mem :=
  Mem (global_queue m) (tasks_completed m) (workers m) (printed m ++ [o]).

(** [worker_fn] at its start and at the head of its loops; [dispatcher_fn] at
    its start, at its loop condition and at its inner loop. *)
Inductive point : Set :=
| WStart (k : nat) | WLoop (k : nat) | DStart | DLoop (i : Z) | DPush (i : Z).

(** [while (n < LOCAL_CAP && tq_pop(...)) n++;] *)
Fixpoint steal (n : nat) (q : TaskQueue) (ts : list Task)
    : option (TaskQueue * list Task) :=
  match n with
  | O => Some (q, ts)
  | S n =>
      '(q', r) ← tq_pop q;
      match r with
      | Some t => steal n q' (ts ++ [t])
      | None => Some (q', ts)
      end
  end.

(** [for (...) w->local\[w->local_size++\] = stolen_tasks\[i\];] *)
Fixpoint keep (ts : list Task) (w : WorkerState) : option WorkerState :=
  match ts with
  | [] => Some w
  | t :: ts =>
      a ← arr_set (local w) (local_size w) t;
      keep ts (MkWorker (w_id w) a (local_size w + 1) (stolen w) (processed w))
  end.

Definition worker_loop (k : nat) (m : mem) : option (mem * ucall point) :=
  w ← workers m !! k;
  if 0 <? local_size w then
    let n := local_size w - 1 in
    t ← arr_get (local w) n;
    let w' := MkWorker (w_id w) (local w) n (stolen w) (processed w + 1) in
    let m' := Mem (global_queue m) (tasks_completed m + 1) (<[k := w']> (workers m))
                (printed m ++ [FinishedTask (w_id w) t]) in
    Some (m', UYield (WLoop k))
  else
    '(q, ts) ← steal LOCAL_CAP (global_queue m) [];
    if bool_decide (length ts = 0%nat) then
      let m' := Mem q (tasks_completed m) (workers m) (printed m) in
      if TOTAL_TASKS <=? tasks_completed m then
        Some (say (WorkerDone (w_id w) (processed w) (stolen w)) m', UReturn)
      else Some (m', UYield (WLoop k))
    else
      w1 ← keep ts w;
      let n := Z.of_nat (length ts) in
      let w' := MkWorker (w_id w1) (local w1) (local_size w1) (stolen w1 + n)
                  (processed w1) in
      Some (Mem q (tasks_completed m) (<[k := w']> (workers m))
              (printed m ++ [Stole (w_id w) n]), UYield (WLoop k)).

Definition dispatch (i : Z) (m : mem) : option (mem * ucall point) :=
  let t := MkTask (i + 1) (Z.rem i 5 + 1) in
  '(q, ok) ← tq_push (global_queue m) t;
  let m' := Mem q (tasks_completed m) (workers m) (printed m) in
  if (ok : bool) then Some (say (PushedTask t) m', UYield (DLoop (i + 1)))
  else Some (m', UYield (DPush i)).

Definition step_point (l : point) (m : mem) : option (mem * ucall point) :=
  match l with
  | WStart k =>
      w ← workers m !! k;
      worker_loop k (say (WorkerStarted (w_id w)) m)
  | WLoop k => worker_loop k m
  | DStart => Some (say (Pushing TOTAL_TASKS) m, UTau (DLoop 0))
  | DLoop i =>
      if i <? TOTAL_TASKS then dispatch i m else Some (say AllEnqueued m, UReturn)
  | DPush i => dispatch i m
  end.

Definition fn_dispatcher : ptr := 1.

#[export] Instance bodies : Bodies point (option mem) := {|
  body_step l := run_body (step_point l);
  body_fn fn arg := if fn =? fn_dispatcher then DStart else WStart (Z.to_nat arg)
|}.

(** main's initialisation. *)
Definition mem0 : mem :=
  Mem tq_init 0
    ((λ i, MkWorker (Z.of_nat i) (replicate LOCAL_CAP zero_task) 0 0 0)
       <$> seq 0 NUM_WORKERS) [].

(** ** The invariant *)

Definition finished (m : mem) : list Task :=
  omap (λ o, match o with FinishedTask _ t => Some t | _ => None end) (printed m).
Definition pushed (m : mem) : list Task :=
  omap (λ o, match o with PushedTask t => Some t | _ => None end) (printed m).
(** The tasks a worker holds. *)
Definition held (w : WorkerState) : list Task := take (Z.to_nat (local_size w)) (local w).

Record worker_ok (w : WorkerState) : Prop := {
  wo_length : length (local w) = LOCAL_CAP;
  wo_size : 0 ≤ local_size w ≤ Z.of_nat LOCAL_CAP;
  wo_stolen : stolen w = processed w + local_size w
}.

Record pool_ok (lq : list Task) (m : mem) : Prop := {
  po_queue : ring_rep (global_queue m) lq;
  po_workers : Forall worker_ok (workers m);
  po_length : length (workers m) = NUM_WORKERS;
  po_tasks : finished m ++ lq ++ concat (held <$> workers m) ≡ₚ pushed m;
  po_completed : tasks_completed m = sumZ (processed <$> workers m);
  po_count : tasks_completed m = Z.of_nat (length (finished m))
}.

(** Replacing one worker changes only what that worker holds. *)
Lemma held_insert ws k w :
  ws !! k = Some w →
  ∃ rest, concat (held <$> ws) ≡ₚ held w ++ rest
    ∧ ∀ w', concat (held <$> <[k := w']> ws) ≡ₚ held w' ++ rest.
Proof.
  revert k. induction ws as [|v ws IH]; intros [|k] Hk; simplify_eq/=.
  - by exists (concat (held <$> ws)).
  - destruct (IH k Hk) as (rest & Hr & Hr'). exists (held v ++ rest).
    split; [rewrite Hr|intros w'; rewrite Hr']; by rewrite Permutation_app_swap_app.
Qed.

Lemma steal_spec n : ∀ q l ts,
  ring_rep q l →
  ∃ q', steal n q ts = Some (q', ts ++ take n l) ∧ ring_rep q' (drop n l).
Proof.
  induction n as [|n IH]; intros q l ts Hr; cbn [steal].
  { exists q. by rewrite app_nil_r. }
  pose proof (tq_pop_spec _ _ Hr) as Hp. destruct l as [|t l].
  - rewrite Hp. cbn. exists q. by rewrite app_nil_r.
  - destruct Hp as (q' & -> & Hr'). cbn [mbind option_bind].
    destruct (IH q' l (ts ++ [t]) Hr') as (q'' & -> & Hr''). exists q''.
    by rewrite <- app_assoc.
Qed.

Lemma keep_spec ts : ∀ w,
  length (local w) = LOCAL_CAP → 0 ≤ local_size w →
  local_size w + Z.of_nat (length ts) ≤ Z.of_nat LOCAL_CAP →
  ∃ w', keep ts w = Some w' ∧ held w' = held w ++ ts
    ∧ length (local w') = LOCAL_CAP
    ∧ local_size w' = local_size w + Z.of_nat (length ts)
    ∧ w_id w' = w_id w ∧ stolen w' = stolen w ∧ processed w' = processed w.
Proof.
  induction ts as [|t ts IH]; intros w Hlen Hpos Hfit; cbn [keep].
  { exists w. rewrite app_nil_r. cbn. split_and!; try done. lia. }
  cbn [length] in Hfit. rewrite arr_set_ok by lia. cbn [mbind option_bind].
  set (w1 := MkWorker _ _ _ _ _).
  destruct (IH w1) as (w' & Hk & Hh & Hl & Hs & Hrest);
    [by cbn; rewrite length_zinsert|cbn; lia|cbn; lia|].
  exists w'. split_and!; [done| |done| |apply Hrest..].
  - rewrite Hh. replace (held w1) with (held w ++ [t]); [by rewrite <- app_assoc|].
    unfold held. cbn. replace (Z.to_nat (local_size w + 1)) with (S (Z.to_nat (local_size w)))
      by lia.
    unfold zinsert. rewrite (proj2 (Z.leb_le _ _)) by done.
    erewrite take_S_r; [|apply list_lookup_insert_eq; lia].
    by rewrite take_insert_ge by lia.
  - rewrite Hs. cbn. lia.
Qed.

Lemma sum_processed_insert ws k w w' :
  ws !! k = Some w →
  sumZ (processed <$> <[k := w']> ws)
  = sumZ (processed <$> ws) - processed w + processed w'.
Proof.
  intros Hk. rewrite list_fmap_insert. erewrite sumZ_insert; [done|].
  by rewrite list_lookup_fmap, Hk.
Qed.

Lemma say_pool lq o m :
  match o with FinishedTask _ _ | PushedTask _ => False | _ => True end →
  pool_ok lq m → pool_ok lq (say o m).
Proof.
  intros Ho [Hq Hw Hl Ht Hc Hn].
  assert (finished (say o m) = finished m ∧ pushed (say o m) = pushed m) as [Hf Hp].
  { unfold finished, pushed. cbn. rewrite !omap_app.
    destruct o; try done; cbn; by rewrite !app_nil_r. }
  split; rewrite ?Hf, ?Hp; done.
Qed.

Definition pool (m : mem) : Prop := ∃ lq, pool_ok lq m.

Definition valid_point (l : point) : Prop :=
  match l with WStart k | WLoop k => (k < NUM_WORKERS)%nat | _ => True end.

(** A worker executes its newest local task. *)
Lemma execute_ok lq k w t m :
  pool_ok lq m → workers m !! k = Some w → 0 < local_size w →
  local w !! Z.to_nat (local_size w - 1) = Some t →
  let w' := MkWorker (w_id w) (local w) (local_size w - 1) (stolen w) (processed w + 1) in
  pool_ok lq (Mem (global_queue m) (tasks_completed m + 1) (<[k := w']> (workers m))
                (printed m ++ [FinishedTask (w_id w) t])).
Proof.
  intros [Hq Hw Hl Ht Hc Hn] Hk Hpos Hlt w'.
  pose proof (Forall_lookup_1 _ _ _ _ Hw Hk) as [Hwl Hws Hst].
  destruct (held_insert _ _ _ Hk) as (rest & Hr & Hr').
  assert (held w = held w' ++ [t]) as Hheld.
  { unfold held. cbn. replace (Z.to_nat (local_size w)) with (S (Z.to_nat (local_size w - 1)))
      by lia. by erewrite take_S_r. }
  split; cbn.
  - done.
  - apply Forall_insert; [done|]. split; cbn; [done|lia|lia].
  - by rewrite length_insert.
  - unfold finished, pushed in *. cbn. rewrite !omap_app. cbn. rewrite app_nil_r, <- Ht.
    rewrite Hr, Hr', Hheld. solve_Permutation.
  - rewrite (sum_processed_insert _ _ _ _ Hk). cbn. lia.
  - unfold finished in *. cbn. rewrite omap_app, length_app. cbn. lia.
Qed.

(** A worker moves tasks from the shared queue to its local array. *)
Lemma steal_ok lq k w w1 q m :
  pool_ok lq m → workers m !! k = Some w → local_size w = 0 →
  ring_rep q (drop LOCAL_CAP lq) → keep (take LOCAL_CAP lq) w = Some w1 →
  held w1 = held w ++ take LOCAL_CAP lq → length (local w1) = LOCAL_CAP →
  local_size w1 = local_size w + Z.of_nat (length (take LOCAL_CAP lq)) →
  stolen w1 = stolen w → processed w1 = processed w →
  let n := Z.of_nat (length (take LOCAL_CAP lq)) in
  let w' := MkWorker (w_id w1) (local w1) (local_size w1) (stolen w1 + n) (processed w1) in
  pool_ok (drop LOCAL_CAP lq)
    (Mem q (tasks_completed m) (<[k := w']> (workers m)) (printed m ++ [Stole (w_id w) n])).
Proof.
  intros [Hq Hw Hl Ht Hc Hn] Hk Hz Hr1 _ Hh Hlen Hsz Hst1 Hpr1 n w'.
  pose proof (Forall_lookup_1 _ _ _ _ Hw Hk) as [Hwl Hws Hst].
  destruct (held_insert _ _ _ Hk) as (rest & Hr & Hr').
  assert (n ≤ Z.of_nat LOCAL_CAP) as Hcap by (unfold n; rewrite length_take; lia).
  split; cbn.
  - done.
  - apply Forall_insert; [done|]. split; cbn; [done|lia|lia].
  - by rewrite length_insert.
  - unfold finished, pushed in *. cbn. rewrite !omap_app. cbn. rewrite !app_nil_r, <- Ht.
    rewrite Hr, Hr'. replace (held w') with (held w ++ take LOCAL_CAP lq) by (by rewrite <- Hh).
    rewrite <- (take_drop LOCAL_CAP lq) at 3. solve_Permutation.
  - rewrite (sum_processed_insert _ _ _ _ Hk). cbn. lia.
  - unfold finished in *. cbn. rewrite omap_app. cbn. by rewrite app_nil_r.
Qed.

Lemma worker_loop_ok k m :
  (k < NUM_WORKERS)%nat → pool m →
  ∃ m' c, worker_loop k m = Some (m', c) ∧ pool m' ∧ body_ok valid_point c.
Proof.
  intros Hk (lq & Hm). pose proof Hm as [Hq Hw Hl Ht Hc Hn].
  destruct (lookup_lt_is_Some_2 (workers m) k) as [w Hwk]; [lia|].
  pose proof (Forall_lookup_1 _ _ _ _ Hw Hwk) as [Hwl Hws Hst].
  unfold worker_loop. rewrite Hwk. cbn [mbind option_bind].
  destruct (Z.ltb_spec 0 (local_size w)) as [Hpos|Hzero].
  - destruct (lookup_lt_is_Some_2 (local w) (Z.to_nat (local_size w - 1))) as [t Hlt]; [lia|].
    unfold arr_get, zlookup. rewrite (proj2 (Z.leb_le _ _)) by lia. rewrite Hlt.
    cbn [mbind option_bind]. eexists _, _. split_and!; [done| |done].
    exists lq. by apply (execute_ok lq k w t m).
  - destruct (steal_spec LOCAL_CAP _ _ [] Hq) as (q & -> & Hr1). cbn [mbind option_bind app].
    case_bool_decide as Hlen.
    + rewrite length_take in Hlen.
      assert (pool_ok [] (Mem q (tasks_completed m) (workers m) (printed m))) as Hp.
      { destruct lq; [|unfold LOCAL_CAP in Hlen; cbn in Hlen; lia]. by split. }
      case_match; eexists _, _; (split_and!; [done| |done]); exists [];
        [by apply say_pool|done].
    + destruct (keep_spec (take LOCAL_CAP lq) w) as (w1 & Hkp & Hh & Hl1 & Hs1 & _ & Hst1 & Hp1);
        [done|lia|rewrite length_take; lia|].
      rewrite Hkp. cbn [mbind option_bind]. eexists _, _. split_and!; [done| |done].
      exists (drop LOCAL_CAP lq). apply steal_ok; try done. lia.
Qed.

Lemma dispatch_ok i m :
  pool m → ∃ m' c, dispatch i m = Some (m', c) ∧ pool m' ∧ body_ok valid_point c.
Proof.
  intros (lq & [Hq Hw Hl Ht Hc Hn]). unfold dispatch.
  destruct (tq_push_spec _ _ (MkTask (i + 1) (Z.rem i 5 + 1)) Hq) as (q & b & -> & Hr).
  cbn [mbind option_bind]. destruct b; eexists _, _; (split_and!; [done| |done]).
  - exists (lq ++ [MkTask (i + 1) (Z.rem i 5 + 1)]). split; try done; cbn.
    + unfold finished, pushed in *. cbn. rewrite !omap_app. cbn.
      rewrite app_nil_r, <- Ht. solve_Permutation.
    + unfold finished in *. cbn. rewrite omap_app. cbn. by rewrite app_nil_r.
  - by exists lq.
Qed.

Definition valid_start (fn arg : ptr) : Prop :=
  fn = fn_dispatcher ∨ 0 ≤ arg < Z.of_nat NUM_WORKERS.

#[export] Instance bodies_inv :
  BodyInv valid_start (λ l _, valid_point l) (defined pool).
Proof.
  apply pure_body_inv.
  - intros l u Hl Hu. apply run_body_inv; [done|]. intros m Hm.
    destruct l as [k|k| |i|i]; cbn [step_point].
    + destruct Hm as (lq & Hm). pose proof (po_length _ _ Hm) as Hlen.
      destruct (lookup_lt_is_Some_2 (workers m) k) as [w Hw]; [cbn in Hl; lia|].
      rewrite Hw. cbn [mbind option_bind]. apply worker_loop_ok; [done|].
      exists lq. by apply say_pool.
    + by apply worker_loop_ok.
    + destruct Hm as (lq & Hm). eexists _, _. split_and!; [done| |done].
      exists lq. by apply say_pool.
    + case_match; [by apply dispatch_ok|]. destruct Hm as (lq & Hm).
      eexists _, _. split_and!; [done| |done]. exists lq. by apply say_pool.
    + by apply dispatch_ok.
  - intros fn arg Hv. cbn. destruct (Z.eqb_spec fn fn_dispatcher); cbn; [done|].
    destruct Hv as [?|Hv]; [done|]. unfold NUM_WORKERS in *. lia.
Qed.

Lemma pool0 : pool mem0.
Proof.
  exists []. split.
  - by apply ring_init_rep.
  - cbn. repeat (apply Forall_cons; split; [split; cbn; done || lia|]). by apply Forall_nil.
  - done.
  - done.
  - done.
  - done.
Qed.

(** C36: in the work-stealing pool, in every reachable state and for every
    schedule: the tasks executed, those queued and those held by the workers
    are together the tasks pushed (none is lost and none is executed twice);
    no local array overflows; [tasks_completed] is the number of tasks
    executed and the sum of the workers' [processed] counters; and a worker
    has stolen what it has processed and what it still holds. *)
Theorem work_stealing_tasks {MP} MA (main : MP → ucall MP) `{Allocator, LinkMap} n
    (w : world (MP + point) (option mem)) (σ : alloc_state) (x : MP) :
  starts_ok valid_start MA main → MA x →
  @steps _ _ _ _ (program main) n (init_world σ (Some mem0) (inl x)) w →
  ∃ m lq, w_user w = Some m ∧ ring_rep (global_queue m) lq
    ∧ finished m ++ lq ++ concat (held <$> workers m) ≡ₚ pushed m
    ∧ tasks_completed m = Z.of_nat (length (finished m))
    ∧ tasks_completed m = sumZ (processed <$> workers m)
    ∧ Forall worker_ok (workers m).
Proof.
  intros HV Hx Hs.
  assert (defined pool (w_user w)) as Hu
    by (apply (program_invariant main valid_start MA (λ l _, valid_point l) (defined pool)
          n w σ (Some mem0) x); [done|done|apply pool0|done]).
  destruct (w_user w) as [m|]; [|done]. destruct Hu as (lq & [? ? ? ? ? ?]).
  by exists m, lq.
Qed.

#[local] Existing Instance MachineDemo.link.
#[local] Instance code : UserCode (option (list (ptr * ptr)) + point) (option mem) :=
  program spawn_all.
Definition starts : list (ptr * ptr) := [(fn_dispatcher, 0); (2, 0); (2, 1); (2, 2); (2, 3)].
Definition demo : world (option (list (ptr * ptr)) + point) (option mem) :=
  init_world heap0 (Some mem0) (inl (Some starts)).

Lemma work_stealing_tasks_witness :
  ∃ m lq, w_user (default demo (go 120 demo)) = Some m ∧ ring_rep (global_queue m) lq
    ∧ finished m ++ lq ++ concat (held <$> workers m) ≡ₚ pushed m
    ∧ tasks_completed m = Z.of_nat (length (finished m))
    ∧ tasks_completed m = sumZ (processed <$> workers m)
    ∧ Forall worker_ok (workers m).
Proof.
  apply (work_stealing_tasks (spawn_ok valid_start) spawn_all (H := bump_allocator) 120
    _ heap0 (Some starts)).
  - apply spawn_all_ok.
  - apply Forall_cons. split; [by left|].
    repeat (apply Forall_cons; split; [right; by vm_compute|]). by apply Forall_nil.
  - apply (go_steps 120 demo). by vm_compute.
Defined.

(** ** The whole program

    main creates the dispatcher and the workers and runs them; it neither checks
    nor frees them. *)
Definition main : fj_point → ucall fj_point := fork_join_with Never 0 false.

#[export] Instance pool_yields : YieldBodies point (option mem).
Proof.
  intros l u. apply run_body_yields. intros m m' c Hs.
  destruct l; cbn in Hs; unfold worker_loop, dispatch in Hs; body_calls.
Qed.

(** The summary main prints: the tasks completed; and of each worker its number,
    the tasks it has processed and those it has stolen. *)
Definition summary (m : mem) : Z * list (Z * Z * Z) :=
  (tasks_completed m, imap (λ i w, (Z.of_nat i, processed w, stolen w)) (workers m)).

(** What is left when all have returned: every task done, ten by worker 0 and
    ten by worker 1, which empty the queue before the others find a task. *)
Definition drained (m : mem) : Prop :=
  summary m = (TOTAL_TASKS, [(0, 10, 10); (1, 10, 10); (2, 0, 0); (3, 0, 0)]) ∧ length (finished m) = 20%nat
  ∧ size (global_queue m) = 0 ∧ sumZ (processed <$> workers m) = TOTAL_TASKS.

Lemma pool_turns : ∃ m, round_robin 120 (Rounds.starts starts) (Some mem0) = Some (Some m) ∧ drained m.
Proof. eexists. split; [by vm_compute|]. by vm_compute. Qed.

(** The demo ends, for any allocator that refuses none of its creations, with
    all twenty tasks executed; no worker spins for ever. *)
Theorem work_stealing_completes `{Allocator, LinkMap} (σ : alloc_state) fuel :
  let w0 := init_world σ (Some mem0) (inl (FCreate starts [])) in
  let code := program main in
  1300 ≤ Z.of_nat fuel → ¬ refused_in w0 →
  match exec fuel w0 with
  | Finished w => defined drained (w_user w)
  | _ => False
  end.
Proof.
  intros w0 code Hf Hr. destruct pool_turns as (m & Hm & Hd).
  pose proof (rounds_total (R := refused_in w0) Never 0 false starts (Some mem0)
    ltac:(by right) size_default ltac:(by consts) ltac:(by repeat constructor)
    σ 120 (Some m) fuel id Hm ltac:(cbn; lia)) as Ht.
  unfold w0, code, main. destruct (exec fuel _) as [w|e|w]; [|done..].
  destruct Ht as [[Href _]|Ht]; [destruct (Hr Href)|]. rewrite Ht. exact Hd.
Qed.
End WorkStealing.
