(* ===== verification/Channel.v ===== *)
(** * The channel ([examples/channel.c])

    A bounded channel between coroutines.  The demo runs on a library that
    offers [co_self] and [co_wake]: a coroutine's handle is a parameter of its
    control points, and the handles passed to [co_wake] are recorded in the
    memory.  [co_yield] is this library's. *)

From stdpp Require Import gmap.
From S2P Require Import Prelude Ring Machine State RunQueue Api Demo User Buffers.

Module Channel.
Definition CHAN_CAP : Z := 4.
Definition N_ITEMS : Z := 16.

Record chan_t := MkChan {
  buf : list Z;
  head : Z;
  tail : Z;
  size : Z;
  sender : ptr;
  receiver : ptr;
  closed : bool
}.

#[export] Instance chan_view : RingView chan_t Z := {|
  ring_view c := Ring (buf c) (head c) (tail c) (size c);
  ring_cap := CHAN_CAP
|}.

(** [memset(c, 0, sizeof( *c))] *)
Definition chan_init : chan_t :=
  MkChan (replicate (Z.to_nat CHAN_CAP) 0) 0 0 0 NULL NULL false.

Definition set_sender (p : ptr) (c : chan_t) : chan_t :=
  MkChan (buf c) (head c) (tail c) (size c) p (receiver c) (closed c).
Definition set_receiver (p : ptr) (c : chan_t) : chan_t :=
  MkChan (buf c) (head c) (tail c) (size c) (sender c) p (closed c).

Inductive out : Set := Sent (v : Z) | Got (v : Z) | ProducerDone | ConsumerDone | SendOnClosed.

Record mem := Mem { chan : chan_t; woken : list ptr; printed : list out }.

Definition say (o : out) (m : mem) : mem := Mem (chan m) (woken m) (printed m ++ [o]).

(** [if (c->receiver) \{ w = c->receiver; c->receiver = NULL; co_wake(w); \}] *)
Definition wake_receiver (m : mem) : mem :=
  if receiver (chan m) =? NULL then m
  else Mem (set_receiver NULL (chan m)) (woken m ++ [receiver (chan m)]) (printed m).
Definition wake_sender (m : mem) : mem :=
  if sender (chan m) =? NULL then m
  else Mem (set_sender NULL (chan m)) (woken m ++ [sender (chan m)]) (printed m).

(** [producer]: the loop condition, and the wait of [chan_send]; [consumer]:
    the wait of [chan_recv].  [me] is the coroutine's own handle. *)
Inductive point : Set :=
| PLoop (me : ptr) (i : Z) | PSend (me : ptr) (i : Z) | CRecv (me : ptr).

(** [chan_send], once it neither waits nor aborts. *)
Definition chan_put (v : Z) (m : mem) : option mem :=
  let c := chan m in
  b ← arr_set (buf c) (tail c) v;
  Some (wake_receiver
          (Mem (MkChan b (head c) (wrap64 (tail c + 1) mod CHAN_CAP) (wrap64 (size c + 1))
                  (sender c) (receiver c) (closed c))
             (woken m) (printed m))).

(** [chan_recv], once there is an item. *)
Definition chan_take (m : mem) : option (mem * Z) :=
  let c := chan m in
  v ← arr_get (buf c) (head c);
  Some (wake_sender
          (Mem (MkChan (buf c) (wrap64 (head c + 1) mod CHAN_CAP) (tail c)
                  (wrap64 (size c - 1)) (sender c) (receiver c) (closed c))
             (woken m) (printed m)), v).

Definition chan_close (m : mem) : mem :=
  let c := chan m in
  wake_receiver
    (Mem (MkChan (buf c) (head c) (tail c) (size c) (sender c) (receiver c) true)
       (woken m) (printed m)).

(** [chan_send(c, i)] and the rest of the loop body; [abort()] ends the
    program: nothing more is printed. *)
Definition producer_send (me : ptr) (i : Z) (m : mem) : option (mem * ucall point) :=
  if (size (chan m) =? CHAN_CAP) && negb (closed (chan m)) then
    Some (Mem (set_sender me (chan m)) (woken m) (printed m), UYield (PSend me i))
  else if closed (chan m) then Some (say SendOnClosed m, UReturn)
  else
    m' ← chan_put i m;
    Some (say (Sent i) m', UTau (PLoop me (i + 1))).

Definition consumer_recv (me : ptr) (m : mem) : option (mem * ucall point) :=
  if (size (chan m) =? 0) && negb (closed (chan m)) then
    Some (Mem (set_receiver me (chan m)) (woken m) (printed m), UYield (CRecv me))
  else if (size (chan m) =? 0) && closed (chan m) then Some (say ConsumerDone m, UReturn)
  else
    '(m', v) ← chan_take m;
    Some (say (Got v) m', UTau (CRecv me)).

Definition step_point (l : point) (m : mem) : option (mem * ucall point) :=
  match l with
  | PLoop me i =>
      if i <? N_ITEMS then producer_send me i m
      else Some (say ProducerDone (chan_close m), UReturn)
  | PSend me i => producer_send me i m
  | CRecv me => consumer_recv me m
  end.

Definition fn_producer : ptr := 1.

#[export] Instance bodies : Bodies point (option mem) := {|
  body_step l := run_body (step_point l);
  body_fn fn arg := if fn =? fn_producer then PLoop arg 0 else CRecv arg
|}.

Definition mem0 : mem := Mem chan_init [] [].

(** ** The invariant *)

Definition sent (m : mem) : list Z :=
  omap (λ o, match o with Sent v => Some v | _ => None end) (printed m).
Definition got (m : mem) : list Z :=
  omap (λ o, match o with Got v => Some v | _ => None end) (printed m).

Record chan_ok (l : list Z) (m : mem) : Prop := {
  co_ring : ring_rep (chan m) l;
  co_flow : got m ++ l = sent m;
  (* the consumer is told the end only once everything was delivered *)
  co_done : ConsumerDone ∈ printed m → closed (chan m) = true ∧ l = []
}.
Definition flow (m : mem) : Prop := ∃ l, chan_ok l m.

Lemma chan_say_ok l o m :
  match o with Sent _ | Got _ => False | ConsumerDone => closed (chan m) = true ∧ l = []
  | _ => True end →
  chan_ok l m → chan_ok l (say o m).
Proof.
  intros Ho [Hr Hf Hd]. split; [done| |].
  - unfold sent, got in *. cbn. rewrite !omap_app, <- Hf.
    destruct o; try done; cbn; by rewrite !app_nil_r.
  - intros [Hin|Hin]%elem_of_app; [by apply Hd|].
    apply list_elem_of_singleton in Hin as <-. done.
Qed.

(** Updates of the handles and of [closed]. *)
Lemma handles_ok l m c ws :
  ring_view c = ring_view (chan m) → (closed (chan m) = true → closed c = true) →
  chan_ok l m → chan_ok l (Mem c ws (printed m)).
Proof.
  intros Hv Hc [Hr Hf Hd]. split; [by eapply ring_rep_ext|done|].
  intros Hin. destruct (Hd Hin). split; [by apply Hc|done].
Qed.

Lemma wake_receiver_ok l m : chan_ok l m → chan_ok l (wake_receiver m).
Proof. intros Hm. unfold wake_receiver. case_match; [done|]. by apply handles_ok. Qed.
Lemma wake_sender_ok l m : chan_ok l m → chan_ok l (wake_sender m).
Proof. intros Hm. unfold wake_sender. case_match; [done|]. by apply handles_ok. Qed.

Lemma wake_receiver_printed m : printed (wake_receiver m) = printed m.
Proof. unfold wake_receiver. by case_match. Qed.
Lemma wake_sender_printed m : printed (wake_sender m) = printed m.
Proof. unfold wake_sender. by case_match. Qed.

Lemma wake_receiver_view m :
  ring_view (chan (wake_receiver m)) = ring_view (chan m)
  ∧ closed (chan (wake_receiver m)) = closed (chan m).
Proof. unfold wake_receiver. by case_match. Qed.
Lemma wake_sender_view m :
  ring_view (chan (wake_sender m)) = ring_view (chan m)
  ∧ closed (chan (wake_sender m)) = closed (chan m).
Proof. unfold wake_sender. by case_match. Qed.

(** A send on an open channel that is not full. *)
Lemma put_ok l v m :
  chan_ok l m → size (chan m) ≠ CHAN_CAP → closed (chan m) = false →
  ∃ m', chan_put v m = Some m' ∧ chan_ok (l ++ [v]) (say (Sent v) m').
Proof.
  intros [Hr Hf Hd] Hsz Hcl. pose proof (rr_size _ _ Hr) as Hs.
  pose proof (rr_fits _ _ Hr) as Hfit. cbn in Hs, Hfit.
  unfold chan_put. destruct (ring_push_word _ _ v Hr) as (Ha & Ht & Hn); [cbn; lia|done|].
  cbn in Ha, Ht, Hn. rewrite Ha. cbn. rewrite Ht, Hn. eexists. split; [done|].
  match goal with |- chan_ok _ (say _ (wake_receiver ?x)) => set (m1 := x) end.
  destruct (wake_receiver_view m1) as [Hv Hc].
  split; cbn [chan say printed].
  - eapply ring_rep_ext; [exact Hv|]. eapply (ring_push_rep (chan m)); try done. cbn. lia.
  - unfold sent, got in *. cbn. rewrite wake_receiver_printed, !omap_app. cbn.
    by rewrite app_nil_r, app_assoc, Hf.
  - rewrite wake_receiver_printed. intros [Hin|Hin]%elem_of_app.
    + destruct (Hd Hin). congruence.
    + by apply list_elem_of_singleton in Hin.
Qed.

Lemma take_ok l m :
  chan_ok l m → size (chan m) ≠ 0 →
  ∃ m' v l', l = v :: l' ∧ chan_take m = Some (m', v) ∧ chan_ok l' (say (Got v) m').
Proof.
  intros [Hr Hf Hd] Hsz. pose proof (rr_size _ _ Hr) as Hs. cbn in Hs.
  destruct l as [|v l]; [done|]. unfold chan_take.
  destruct (ring_pop_word _ _ _ Hr) as (Ha & Hh & Hn); [done|].
  cbn in Ha, Hh, Hn. rewrite Ha. cbn. rewrite Hh, Hn.
  eexists _, v, l. split_and!; [done|done|].
  match goal with |- chan_ok _ (say _ (wake_sender ?x)) => set (m1 := x) end.
  destruct (wake_sender_view m1) as [Hv Hc].
  split; cbn [chan say printed].
  - eapply ring_rep_ext; [exact Hv|]. by eapply (ring_pop_rep (chan m)).
  - unfold sent, got in *. cbn. rewrite wake_sender_printed, !omap_app. cbn.
    by rewrite app_nil_r, <- app_assoc.
  - rewrite wake_sender_printed. intros [Hin|Hin]%elem_of_app.
    + by destruct (Hd Hin) as [_ ?].
    + by apply list_elem_of_singleton in Hin.
Qed.

Lemma producer_send_ok me i m :
  flow m → ∃ m' c, producer_send me i m = Some (m', c) ∧ flow m' ∧ body_ok (λ _, True) c.
Proof.
  intros (l & Hm). unfold producer_send.
  destruct (Z.eqb_spec (size (chan m)) CHAN_CAP) as [Hf|Hf], (closed (chan m)) eqn:Hc; cbn.
  - eexists _, _. split_and!; [done| |done]. exists l. by apply chan_say_ok.
  - eexists _, _. split_and!; [done| |done]. exists l. by apply handles_ok.
  - eexists _, _. split_and!; [done| |done]. exists l. by apply chan_say_ok.
  - destruct (put_ok l i m Hm Hf Hc) as (m' & -> & Hm'). cbn.
    eexists _, _. split_and!; [done| |done]. by eexists.
Qed.

Lemma consumer_recv_ok me m :
  flow m → ∃ m' c, consumer_recv me m = Some (m', c) ∧ flow m' ∧ body_ok (λ _, True) c.
Proof.
  intros (l & Hm). unfold consumer_recv.
  destruct (Z.eqb_spec (size (chan m)) 0) as [Hf|Hf]; cbn; cycle 1.
  { destruct (take_ok l m Hm Hf) as (m' & v & l' & -> & -> & Hm'). cbn.
    eexists _, _. split_and!; [done| |done]. by eexists. }
  destruct (closed (chan m)) eqn:Hc; cbn; eexists _, _; (split_and!; [done| |done]); exists l.
  - apply chan_say_ok; [|done]. split; [done|]. by apply (rr_empty _ _ (co_ring _ _ Hm)).
  - by apply handles_ok.
Qed.

#[export] Instance bodies_inv : BodyInv (λ _ _, True) (λ _ _, True) (defined flow).
Proof.
  apply (pure_body_inv (λ _ _, True) (λ _, True)); [|done].
  intros l u _ Hu. apply run_body_inv; [done|]. intros m Hm.
  destruct l as [me i|me i|me]; cbn [step_point].
  - case_match; [by apply producer_send_ok|]. destruct Hm as (l & Hm).
    eexists _, _. split_and!; [done| |done]. exists l.
    apply chan_say_ok; [done|]. by apply wake_receiver_ok, handles_ok.
  - by apply producer_send_ok.
  - by apply consumer_recv_ok.
Qed.

(** C37: the channel, in every reachable state and for every schedule: the
    values received followed by those in the buffer are the values sent, in
    order, and a consumer is told the end of the stream only when the
    channel is closed and everything sent has been received. *)
Theorem channel_flow {MP} (main : MP → ucall MP) `{Allocator, LinkMap} n
    (w : world (MP + point) (option mem)) (σ : alloc_state) (x : MP) :
  @steps _ _ _ _ (program main) n (init_world σ (Some mem0) (inl x)) w →
  ∃ m l, w_user w = Some m ∧ ring_rep (chan m) l ∧ got m ++ l = sent m
    ∧ (ConsumerDone ∈ printed m → closed (chan m) = true ∧ got m = sent m).
Proof.
  intros Hs.
  assert (defined flow (w_user w)) as Hu.
  { apply (program_invariant main (λ _ _, True) (λ _, True) (λ _ _, True) (defined flow)
      n w σ (Some mem0) x); [apply starts_ok_any|done| |done].
    exists []. split; [by apply ring_init_rep|done|by intros ?%elem_of_nil]. }
  destruct (w_user w) as [m|]; [|done]. destruct Hu as (l & [Hr Hf Hd]).
  exists m, l. split_and!; [done..|]. intros Hin. destruct (Hd Hin) as [Hc ->].
  by rewrite app_nil_r in Hf.
Qed.

#[local] Existing Instance MachineDemo.link.
#[local] Instance code : UserCode (option (list (ptr * ptr)) + point) (option mem) :=
  program spawn_all.
Definition demo : world (option (list (ptr * ptr)) + point) (option mem) :=
  init_world heap0 (Some mem0) (inl (Some [(fn_producer, 65536); (2, 327792)])).

Lemma channel_flow_witness :
  ∃ m l, w_user (default demo (go 60 demo)) = Some m ∧ ring_rep (chan m) l
    ∧ got m ++ l = sent m
    ∧ (ConsumerDone ∈ printed m → closed (chan m) = true ∧ got m = sent m).
Proof.
  apply (channel_flow spawn_all (H := bump_allocator) 60 _ heap0
    (Some [(fn_producer, 65536); (2, 327792)])).
  apply (go_steps 60 demo). by vm_compute.
Defined.

(** The whole channel demo: all items are received in order and both ends
    finish.  The two do not alternate, as the expected output at the head of
    the file has it: the producer sends until the channel is full, the
    consumer receives until it is empty. *)
Theorem channel_output :
  match exec 1000 demo with
  | Finished w => got <$> w_user w = Some (seqZ 0 N_ITEMS)
      ∧ (λ m, take 10 (printed m)) <$> w_user w
        = Some [Sent 0; Sent 1; Sent 2; Sent 3; Got 0; Got 1; Got 2; Got 3; Sent 4; Sent 5]
      ∧ (λ m, last (printed m)) <$> w_user w = Some (Some ConsumerDone)
  | _ => False
  end.
Proof. by vm_compute. Qed.
End Channel.
