(* ===== verification/Sync.v ===== *)
(** * The barrier ([examples/barrier.c])

    A synchronisation object built from counters and [co_yield].  The counters
    are unbounded integers here: a participant adds at most one to each, and a
    program creates at most [MAX_COROUTINES] participants. *)

From stdpp Require Import gmap.
From S2P Require Import Prelude Ring Machine State RunQueue Api Demo User.
From S2P Require Import Threads Progress ForkJoin Rounds Busy.

(** The number of elements of a log that satisfy [f]. *)
Definition tally {A} (f : A → bool) (l : list A) : Z := Z.of_nat (length (base.filter f l)).

Lemma tally_app {A} (f : A → bool) l k : tally f (l ++ k) = tally f l + tally f k.
Proof. unfold tally. rewrite filter_app, length_app. lia. Qed.

Lemma tally_one {A} (f : A → bool) x : tally f [x] = if f x then 1 else 0.
Proof. unfold tally. rewrite filter_cons, filter_nil. by destruct (f x). Qed.

Lemma tally_nonneg {A} (f : A → bool) l : 0 ≤ tally f l.
Proof. unfold tally. lia. Qed.

(** ** examples/barrier.c *)

Module Barrier.
Record CoBarrier := MkBarrier { required : Z; arrived : Z; phase : Z }.

Definition cob_init (n_participants : Z) : CoBarrier := MkBarrier n_participants 0 0.

(** What the demo prints. *)
Inductive out : Set := Waiting (id : Z) | Releasing | Started (id : Z).

Record mem := Mem { gate : CoBarrier; printed : list out }.

Definition say (o : out) (m : mem) : mem := Mem (gate m) (printed m ++ [o]).

(** [worker] at its start, and inside the loop of [cob_wait]. *)
Inductive point : Set := WStart (id : Z) | WWait (id my_phase : Z).

(** [cob_wait] up to its loop: the barrier it leaves, and [my_phase] unless
    the caller is the last to arrive. *)
Definition cob_arrive (m : mem) : mem * option Z :=
  let b := gate m in
  let b := MkBarrier (required b) (arrived b + 1) (phase b) in
  if required b <=? arrived b then
    (Mem (MkBarrier (required b) 0 (phase b + 1)) (printed m ++ [Releasing]), None)
  else (Mem b (printed m), Some (phase b)).

(** The loop [while (b->phase == my_phase) co_yield();] and what follows. *)
Definition cob_loop (id my_phase : Z) (m : mem) : ucall point * mem :=
  if phase (gate m) =? my_phase then (UYield (WWait id my_phase), m)
  else (UReturn, say (Started id) m).

Definition worker (l : point) (m : mem) : ucall point * mem :=
  match l with
  | WStart id =>
      let '(m, my_phase) := cob_arrive (say (Waiting id) m) in
      match my_phase with
      | None => (UReturn, say (Started id) m)
      | Some my_phase => cob_loop id my_phase m
      end
  | WWait id my_phase => cob_loop id my_phase m
  end.

#[export] Instance bodies : Bodies point mem := {|
  body_step := worker;
  body_fn fn arg := WStart arg
|}.

Definition is_waiting (o : out) : bool := match o with Waiting _ => true | _ => false end.
Definition is_release (o : out) : bool := match o with Releasing => true | _ => false end.

(** A worker that starts its second phase does so after a release. *)
Definition ordered (n : Z) (t : list out) : Prop :=
  ∀ i id, t !! i = Some (Started id) → n ≤ tally is_waiting (take i t).

Record barrier_ok (n : Z) (m : mem) : Prop := {
  bo_required : required (gate m) = n;
  bo_arrived : 0 ≤ arrived (gate m) < n;
  bo_phase : 0 ≤ phase (gate m);
  bo_arrivals : tally is_waiting (printed m) = n * phase (gate m) + arrived (gate m);
  bo_releases : tally is_release (printed m) = phase (gate m);
  bo_ordered : ordered n (printed m)
}.

(** A waiting worker remembers a phase that has been reached. *)
Definition knows_phase (l : point) (m : mem) : Prop :=
  match l with WStart _ => True | WWait _ p => 0 ≤ p ≤ phase (gate m) end.

Lemma ordered_snoc n t o :
  ordered n t → (∀ id, o = Started id → n ≤ tally is_waiting t) → ordered n (t ++ [o]).
Proof.
  intros Ht Ho i id Hi. apply lookup_app_Some in Hi as [Hi|[Hge Hi]].
  - apply lookup_lt_Some in Hi as Hlt. rewrite take_app_le by lia. by apply (Ht _ id).
  - apply list_lookup_singleton_Some in Hi as [Hz Ho'].
    assert (i = length t) as -> by lia. rewrite take_app_length. by apply (Ho id).
Qed.

(** A coroutine starts its second phase when a phase is over. *)
Lemma started_ok n m id :
  barrier_ok n m → 1 ≤ phase (gate m) → barrier_ok n (say (Started id) m).
Proof.
  intros [Hr Ha Hp Ht Hrel Ho] Hph.
  split; cbn; try done; rewrite ?tally_app, ?tally_one; cbn; [lia..|].
  apply ordered_snoc; [done|]. intros id' _. nia.
Qed.

Lemma cob_loop_ok n id p m :
  barrier_ok n m → 0 ≤ p ≤ phase (gate m) →
  barrier_ok n (cob_loop id p m).2
  ∧ body_ok (λ l, knows_phase l (cob_loop id p m).2) (cob_loop id p m).1
  ∧ phase (gate m) ≤ phase (gate (cob_loop id p m).2).
Proof.
  intros Hm Hp. unfold cob_loop.
  destruct (Z.eqb_spec (phase (gate m)) p) as [He|Hne]; cbn.
  - split_and!; [done|lia..].
  - split_and!; [|done|lia]. apply started_ok; [done|lia].
Qed.

Lemma worker_ok n l m :
  knows_phase l m → barrier_ok n m →
  barrier_ok n (worker l m).2 ∧ body_ok (λ l', knows_phase l' (worker l m).2) (worker l m).1
  ∧ phase (gate m) ≤ phase (gate (worker l m).2).
Proof.
  intros Hl Hm. destruct l as [id|id p]; [|by apply cob_loop_ok].
  pose proof Hm as [Hr Ha Hp Ht Hrel Ho]. cbn [worker]. unfold cob_arrive. cbn.
  rewrite Hr. destruct (Z.leb_spec n (arrived (gate m) + 1)) as [Hlast|Hlast].
  - cbn. split_and!; [|done|lia]. apply started_ok; [|cbn; lia].
    split; cbn; rewrite ?tally_app, ?tally_one; cbn; [done|lia|lia|nia|lia|].
    repeat (apply ordered_snoc; [|done]). done.
  - match goal with |- barrier_ok _ (cob_loop _ _ ?x).2 ∧ _ => set (m1 := x) end.
    assert (barrier_ok n m1) as Hm1.
    { split; cbn; rewrite ?tally_app, ?tally_one; cbn; [done|lia|lia|lia|lia|].
      by apply ordered_snoc. }
    destruct (cob_loop_ok n id (phase (gate m)) m1) as (H1 & H2 & H3);
      [done|cbn; lia|]. cbn in H3. by split_and!.
Qed.

#[export] Instance bodies_inv n : BodyInv (λ _ _, True) knows_phase (barrier_ok n).
Proof.
  split.
  - intros l m Hl Hm. by destruct (worker_ok n l m Hl Hm) as (? & ? & _).
  - intros l l' m Hl Hm Hl'. destruct (worker_ok n l m Hl Hm) as (_ & _ & Hmono).
    destruct l' as [|id p]; cbn in *; lia.
  - intros fn arg m _ _. exact I.
Qed.

(** The barrier of the demo, with [n] participants: in every reachable
    state and for every schedule, whenever a worker starts its second phase
    at least [n] workers have arrived before; the phase counter is the number
    of releases, and every phase consumes exactly [n] arrivals. *)
Theorem barrier_safe {MP} (main : MP → ucall MP) `{Allocator, LinkMap} k n
    (w : world (MP + point) mem) (σ : alloc_state) (x : MP) :
  0 < n →
  @steps _ _ _ _ (program main) k (init_world σ (Mem (cob_init n) []) (inl x)) w →
  let m := w_user w in
  (∀ i id, printed m !! i = Some (Started id) →
     n ≤ tally is_waiting (take i (printed m)))
  ∧ tally is_release (printed m) = phase (gate m)
  ∧ tally is_waiting (printed m) = n * phase (gate m) + arrived (gate m)
  ∧ 0 ≤ arrived (gate m) < n.
Proof.
  intros Hn Hs m.
  assert (barrier_ok n (w_user w)) as [_ Hb _ Hd He Hf];
    [|exact (conj Hf (conj He (conj Hd Hb)))].
  apply (program_invariant main (λ _ _, True) (λ _, True) knows_phase (barrier_ok n) k w σ
    (Mem (cob_init n) []) x); [apply starts_ok_any|done| |done].
  split; cbn; [done|lia|done|unfold tally; cbn; lia|done|by intros i id ?].
Qed.

(** ** The demo

    main creates a worker for each identifier, runs them and frees them; it does
    not check its creations. *)
Definition fn_worker : ptr := 1.
Definition todo (ids : list Z) : list (ptr * ptr) := (λ id, (fn_worker, id)) <$> ids.
Definition mem0 (ids : list Z) : mem := Mem (cob_init (Z.of_nat (length ids))) [].
Definition main : fj_point → ucall fj_point := fork_join_with Never 0 true.

#[export] Instance worker_yields : YieldBodies point mem.
Proof.
  intros [id|id p] m; cbn; unfold cob_arrive, cob_loop; cbn; [|by destruct (_ =? _)].
  destruct (_ <=? _); [done|]. cbn. by destruct (_ =? _).
Qed.

(** The workers [front] arrive behind those of [back], and are not the last. *)
Lemma arrivals front (back : list Z) rest n k out :
  Z.of_nat (length back + length front) < n →
  round_robin (length front + k) ((WStart <$> front) ++ rest ++ ((λ id, WWait id 0) <$> back))
    (Mem (MkBarrier n (Z.of_nat (length back)) 0) out)
  = round_robin k (rest ++ ((λ id, WWait id 0) <$> back ++ front))
      (Mem (MkBarrier n (Z.of_nat (length back + length front)) 0) (out ++ (Waiting <$> front))).
Proof.
  revert back out. induction front as [|id front IH]; intros back out Hn; cbn [length] in *.
  { by rewrite Nat.add_0_r, !app_nil_r. }
  cbn [Nat.add fmap list_fmap app]. erewrite round_robin_turn; cycle 1.
  { cbn. unfold cob_arrive. cbn. rewrite (proj2 (Z.leb_gt _ _)) by lia. done. }
  rewrite <- !app_assoc.
  assert (((λ id, WWait id 0) <$> back) ++ [WWait id 0] = (λ id, WWait id 0) <$> (back ++ [id])) as ->
    by by rewrite fmap_app.
  replace (Z.of_nat (length back) + 1) with (Z.of_nat (length (back ++ [id])))
    by (rewrite length_app; cbn; lia).
  rewrite IH by (rewrite length_app; cbn; lia). f_equal; [by rewrite <- app_assoc|].
  f_equal; [f_equal; rewrite length_app; cbn; lia|]. by rewrite <- app_assoc.
Qed.

(** After the release each of the others goes on when it is its turn. *)
Lemma departures back b out :
  phase b ≠ 0 →
  round_robin (length back) ((λ id, WWait id 0) <$> back) (Mem b out)
  = Some (Mem b (out ++ (Started <$> back))).
Proof.
  intros Hp. revert out. induction back as [|id back IH]; intros out; [by rewrite app_nil_r|].
  cbn [length]. erewrite round_robin_turn; cycle 1.
  { cbn. unfold cob_loop. cbn. by rewrite (proj2 (Z.eqb_neq _ _)). }
  unfold say. cbn. rewrite IH. by rewrite <- app_assoc.
Qed.

(** What the demo leaves: the arrivals, the release, and the second phases, the
    last to arrive first. *)
Definition final (front : list Z) (last : Z) : mem :=
  Mem (MkBarrier (Z.of_nat (S (length front))) 0 1)
    ((Waiting <$> front) ++ [Waiting last; Releasing; Started last] ++ (Started <$> front)).

Lemma barrier_turns front last :
  round_robin (2 * length front + 1) (WStart <$> front ++ [last]) (mem0 (front ++ [last]))
  = Some (final front last).
Proof.
  pose proof (arrivals front [] [WStart last] (Z.of_nat (S (length front))) (length front + 1) []
    ltac:(cbn; lia)) as Ha.
  unfold mem0, cob_init. rewrite fmap_app, length_app.
  replace (length front + length [last])%nat with (S (length front)) by (cbn; lia).
  replace (2 * length front + 1)%nat with (length front + (length front + 1))%nat by lia.
  etrans; [exact Ha|]. rewrite Nat.add_1_r. erewrite round_robin_turn; cycle 1.
  { cbn. unfold cob_arrive. cbn. rewrite (proj2 (Z.leb_le _ _)) by lia. done. }
  unfold say. cbn [gate printed]. rewrite departures by done. unfold final. cbn. f_equal. f_equal.
  by rewrite <- !app_assoc.
Qed.

(** C39: the barrier demo, for every number of workers the library admits and
    every allocator: no worker spins for ever; the program ends, within 30
    transitions for each worker and 5 more, every worker but the last has
    waited, the barrier has been released once, by the last, and all workers
    have gone on, the last first and the others in the order in which they
    arrived; unless [malloc] refuses one of the creations of the run, which
    main does not check. *)
Theorem barrier_completes `{Allocator, LinkMap} (front : list Z) (last : Z) (σ : alloc_state) fuel :
  let ids := front ++ [last] in
  let w0 := init_world σ (mem0 ids) (inl (FCreate (todo ids) [])) in
  let code := program main in
  Z.of_nat (length ids) ≤ MAX_COROUTINES → 30 * Z.of_nat (length ids) + 5 ≤ Z.of_nat fuel →
  ¬ refused_in w0 →
  match exec fuel w0 with
  | Finished w => w_user w = final front last
  | _ => False
  end.
Proof.
  intros ids w0 code Hm Hf Hr.
  assert (length (todo ids) = length ids) as Hl by apply length_fmap.
  pose proof (rounds_total (R := refused_in w0) Never 0 true (todo ids) (mem0 ids)
    ltac:(by right) size_default ltac:(by rewrite Hl) ltac:(by apply Forall_fmap, Forall_true)
    σ (2 * length front + 1) (final front last) fuel id) as Ht.
  unfold starts, todo in Ht. rewrite <- list_fmap_compose in Ht.
  specialize (Ht (barrier_turns front last)). rewrite length_fmap in Ht.
  specialize (Ht ltac:(unfold ids in *; rewrite length_app in *; cbn in *; lia)).
  unfold w0, code, main, todo. destruct (exec fuel _) as [w|e|w]; [|done..].
  by destruct Ht as [[Href _]|Ht].
Qed.

#[local] Existing Instance MachineDemo.link.
#[local] Instance code : UserCode (fj_point + point) mem := program main.
Definition demo : world (fj_point + point) mem :=
  init_world heap0 (mem0 [1; 2; 3; 4]) (inl (FCreate (todo [1; 2; 3; 4]) [])).

Lemma barrier_safe_witness :
  tally is_release (printed (w_user (default demo (go 30 demo)))) = 1
  ∧ ∀ i id, printed (w_user (default demo (go 30 demo))) !! i = Some (Started id) →
      4 ≤ tally is_waiting (take i (printed (w_user (default demo (go 30 demo))))).
Proof.
  split; [by vm_compute|].
  apply (barrier_safe (H := bump_allocator) main 30 4 _ heap0 (FCreate (todo [1; 2; 3; 4]) [])); [done|].
  apply (go_steps 30 demo). by vm_compute.
Defined.

Lemma barrier_not_refused : ¬ refused_in demo.
Proof. apply (refuses_spec 125). by vm_compute. Qed.

(** The demo's four workers. *)
Lemma barrier_completes_witness :
  match exec 125 demo with
  | Finished w => w_user w = final [1; 2; 3] 4
  | _ => False
  end
  ∧ printed (final [1; 2; 3] 4)
    = [Waiting 1; Waiting 2; Waiting 3; Waiting 4; Releasing;
       Started 4; Started 1; Started 2; Started 3].
Proof.
  split; [|done]. apply (barrier_completes (H := bump_allocator) [1; 2; 3] 4 heap0 125);
    [by consts|done|apply barrier_not_refused].
Defined.
(** *** Busy waiting

    The loop of [cob_wait] as an instance of [Busy]: before the release at least
    one worker has not arrived, after it nobody waits. *)
Definition to_arrive (l : point) : bool := match l with WStart _ => true | WWait _ _ => false end.

Section busy.
Variable n : Z.

Record meeting (locs : list (option point)) (m : mem) : Prop := {
  mt_required : required (gate m) = n;
  mt_waits j id p : locs !! j = Some (Some (WWait id p)) → p = 0;
  mt_phase :
    phase (gate m) = 0 ∧ arrived (gate m) + tally_locs to_arrive locs = n
      ∧ 1 ≤ tally_locs to_arrive locs
    ∨ phase (gate m) = 1 ∧ tally_locs to_arrive locs = 0
}.

Lemma wait_lookup (locs : list (option point)) j loc :
  (∀ i id p, locs !! i = Some (Some (WWait id p)) → p = 0) →
  (∀ id p, loc = Some (WWait id p) → p = 0) →
  ∀ i id p, <[j := loc]> locs !! i = Some (Some (WWait id p)) → p = 0.
Proof using. intros Hw Hl i id p [(_ & -> & _)|[_ Hi]]%list_lookup_insert_Some; eauto. Qed.

#[export] Instance meeting_jobs : Jobs meeting.
Proof using.
  split. intros locs m j l [Hr Hw Hp] Hj.
  pose proof (λ loc, tally_locs_insert to_arrive locs j l loc Hj) as Ht.
  pose proof (tally_locs_nonneg to_arrive (<[j := None]> locs)) as H0. rewrite Ht in H0.
  destruct l as [id|id p]; cbn in *; unfold cob_arrive, cob_loop; cbn.
  - destruct Hp as [(Hp & Ha & H1)|[_ Hz]]; [|lia].
    destruct (Z.leb_spec (required (gate m)) (arrived (gate m) + 1)); cbn.
    + split; cbn; [done|by apply wait_lookup|]. right. rewrite Ht, Hp. lia.
    + rewrite Z.eqb_refl. split; cbn; [done| |].
      * apply wait_lookup; [done|]. by intros ? ? [= _ <-].
      * left. rewrite Ht. cbn. lia.
  - pose proof (Hw _ _ _ Hj) as ->. destruct (Z.eqb_spec (phase (gate m)) 0) as [Hz|Hz].
    + by rewrite list_insert_id.
    + split; cbn; [done|by apply wait_lookup|]. right. rewrite Ht. lia.
Qed.

Definition to_go (l : point) : nat := match l with WStart _ => 1 | WWait _ _ => 0 end.

#[export] Instance meeting_busy : Busy meeting to_go.
Proof using.
  split.
  - intros locs m j l [Hr Hw Hp] Hj. unfold spins.
    destruct l as [id|id p]; cbn; unfold cob_arrive, cob_loop; cbn.
    + right. destruct (_ <=? _); cbn; [done|]. by rewrite Z.eqb_refl; cbn; lia.
    + destruct (Z.eqb_spec (phase (gate m)) p); [by left|by right].
  - intros locs m j l [Hr Hw Hp] Hj. destruct Hp as [(_ & _ & H1)|[H1 Hz]].
    + destruct (tally_locs_some to_arrive locs) as (i & l' & Hi & Hl); [lia|].
      exists i, l'. split; [done|]. destruct l' as [id|]; [|done]. unfold spins.
      cbn. unfold cob_arrive, cob_loop. cbn. destruct (_ <=? _); cbn; [by intros [=]|].
      rewrite Z.eqb_refl. by intros [=].
    + exists j, l. split; [done|]. unfold spins. destruct l as [id|id p].
      * pose proof (tally_locs_insert to_arrive _ _ _ None Hj) as Ht. cbn in Ht.
        pose proof (tally_locs_nonneg to_arrive (<[j := None]> locs)). lia.
      * pose proof (Hw _ _ _ Hj) as ->. cbn. unfold cob_loop. rewrite H1. by intros [=].
Qed.

Lemma meeting0 ids : 1 ≤ n → n = Z.of_nat (length ids) → meeting (start_of <$> todo ids) (mem0 ids).
Proof using.
  intros Hn Hl.
  assert (start_of <$> todo ids = Some <$> (WStart <$> ids)) as ->
    by (unfold todo; by rewrite <- !list_fmap_compose).
  split; cbn; [done| |].
  - intros j id p. rewrite !list_lookup_fmap. by destruct (ids !! j).
  - left. rewrite (tally_locs_const _ true); [rewrite length_fmap; lia|]. by apply Forall_fmap, Forall_true.
Qed.
End busy.

(** The rule for programs that busy-wait, on the demo. *)
Lemma busy_wait_total_witness :
  match exec (Z.to_nat 375) demo with
  | Finished w => refused_in demo ∧ w_user w = mem0 [1; 2; 3; 4]
      ∨ meeting 4 (all_returned (todo [1; 2; 3; 4])) (w_user w)
  | _ => False
  end.
Proof.
  apply (busy_wait_total (H := bump_allocator) (meeting 4) to_go
    Never 0 true (todo [1; 2; 3; 4]) (mem0 [1; 2; 3; 4]) heap0 (Z.to_nat 375) size_default).
  - by consts.
  - by repeat constructor.
  - right. apply barrier_not_refused.
  - by apply (meeting0 4 [1; 2; 3; 4]).
  - by apply leb_complete.
Defined.
End Barrier.
