(* ===== verification/Semaphore.v ===== *)
(** * Semaphores and mutexes ([examples/semaphore.c])

    The whole program, on any library that does what its comment says of
    [co_await] ([Coro.CoroLib]): the semaphore, its workers, the mutex, its
    loggers, and main, which creates and runs first the ones and then the
    others.  With [n] slots at most [n] coroutines are inside the critical
    section, for every schedule; with one slot no update of the shared counter
    or of the log is lost; and all of them get in and end.

    An addition that leaves the range of an [int] is undefined behaviour, and
    shown not to happen. *)

From stdpp Require Import gmap pretty sorting relations.
From Stdlib Require Import Ascii.
From S2P Require Import Prelude Ring Machine State RunQueue Api Demo User Threads Progress.
From S2P Require Import ForkJoin Busy Coro.

Module Semaphore.

Record coro_sem_t := MkSem { count : Z; max : Z; name : string }.

Definition sem_init (count : Z) (name : string) : coro_sem_t := MkSem count count name.
Definition sem_ready (s : coro_sem_t) : bool := 0 <? count s.

(** What the program prints. *)
Inductive out : Set :=
| Begun (id : Z) | Wanting (id : Z) | Incremented (id before now : Z) | Done (id : Z)
| Acquired (name : string) (now max : Z) | Released (name : string) (now max : Z)
| LogBegun (id : Z) | Appended (id : Z) (log : list ascii) | LogDone (id : Z)
| FinalCounter (value expected : Z) | FinalLog (log : list ascii).

(** The globals. *)
Record mem := Mem {
  g_sem : coro_sem_t; g_shared_counter : Z;
  g_log_mutex : coro_sem_t; g_log : list ascii;
  printed : list out
}.

Definition say (o : out) (m : mem) : mem :=
  Mem (g_sem m) (g_shared_counter m) (g_log_mutex m) (g_log m) (printed m ++ [o]).
Definition set_counter (c : Z) (m : mem) : mem :=
  Mem (g_sem m) c (g_log_mutex m) (g_log m) (printed m).
Definition set_log (l : list ascii) (m : mem) : mem :=
  Mem (g_sem m) (g_shared_counter m) (g_log_mutex m) l (printed m).

(** A [coro_sem_t *]: [&g_sem] or [&g_log_mutex]. *)
Inductive sem_ptr : Set := GSem | GLogMutex.
Definition sem_at (s : sem_ptr) (m : mem) : coro_sem_t :=
  match s with GSem => g_sem m | GLogMutex => g_log_mutex m end.
Definition sem_put (s : sem_ptr) (v : coro_sem_t) (m : mem) : mem :=
  match s with
  | GSem => Mem v (g_shared_counter m) (g_log_mutex m) (g_log m) (printed m)
  | GLogMutex => Mem (g_sem m) (g_shared_counter m) v (g_log m) (printed m)
  end.

(** [sem_wait]: its [co_await], going on at [k], and what follows. *)
Definition sem_wait {L} (s : sem_ptr) (k : L) : ccall L mem := CAwait (λ m, sem_ready (sem_at s m)) k.
Definition sem_waited (s : sem_ptr) (m : mem) : option mem :=
  let v := sem_at s m in
  c ← cadd (count v) (-1);
  Some (say (Acquired (name v) c (max v)) (sem_put s (MkSem c (max v) (name v)) m)).

Definition sem_post (s : sem_ptr) (m : mem) : option mem :=
  let v := sem_at s m in
  if count v <? max v then
    c ← cadd (count v) 1;
    Some (say (Released (name v) c (max v)) (sem_put s (MkSem c (max v) (name v)) m))
  else Some m.

(** [coro_mutex_t] is [coro_sem_t]. *)
Definition mutex_init (name : string) : coro_sem_t := sem_init 1 name.
Definition mutex_lock {L} : sem_ptr → L → ccall L mem := sem_wait.
Definition mutex_unlock : sem_ptr → mem → option mem := sem_post.

(** Strings without their terminating null: [snprintf] into [size] bytes, and
    [strncat] with a limit. *)
Definition snprintf (size : nat) (text : string) : list ascii :=
  take (size - 1) (String.list_ascii_of_string text).
Definition strncat (dest src : list ascii) (n : nat) : list ascii := dest ++ take n src.

Definition entry_of (id : Z) : list ascii := snprintf 64 ("logger-" +:+ pretty id +:+ ";").
Definition LOG_SIZE : nat := 256.

Definition append (id : Z) (m : mem) : mem :=
  let log := strncat (g_log m) (entry_of id) (LOG_SIZE - length (g_log m) - 1) in
  say (Appended id log) (set_log log m).

(** The control points of [worker], at its start, at its first [co_yield], after
    the [co_await] of [sem_wait] and after each of the two yields of its
    critical section, and those of [logger]. *)
Inductive point : Set :=
| WStart (id : Z) | WWant (id : Z) | WAcquire (id : Z) | WInside (id before : Z) | WLeave (id : Z)
| LStart (id : Z) | LWant (id : Z) | LAcquire (id : Z) | LHold (id : Z).

Definition worker_logger (l : point) (m : mem) : option (mem * ccall point mem) :=
  match l with
  | WStart id => Some (say (Begun id) m, CYield (WWant id))
  | WWant id => Some (say (Wanting id) m, sem_wait GSem (WAcquire id))
  | WAcquire id => m ← sem_waited GSem m; Some (m, CYield (WInside id (g_shared_counter m)))
  | WInside id before =>
      now ← cadd before 1;
      Some (say (Incremented id before now) (set_counter now m), CYield (WLeave id))
  | WLeave id => m ← sem_post GSem m; Some (say (Done id) m, CReturn)
  | LStart id => Some (say (LogBegun id) m, CYield (LWant id))
  | LWant id => Some (m, mutex_lock GLogMutex (LAcquire id))
  | LAcquire id => m ← sem_waited GLogMutex m; Some (append id m, CYield (LHold id))
  | LHold id => m ← mutex_unlock GLogMutex m; Some (say (LogDone id) m, CReturn)
  end.

#[export] Instance code : CCode point mem := worker_logger.

(** ** main *)

Definition NUM_WORKERS : Z := 5.
Definition NUM_SLOTS : Z := 2.
Definition NUM_LOGGERS : Z := 3.

(** Globals are zero. *)
Definition mem0 : mem := Mem (MkSem 0 0 "") 0 (MkSem 0 0 "") [] [].

Section main.
Context `{CoroLib}.
Implicit Types st : lib * pool point mem.

Definition with_mem (f : mem → mem) st : lib * pool point mem :=
  (st.1, Pool (threads st.2) (f (shared st.2))).

(** main up to the first [coro_run], with [slots] and the workers [ids]. *)
Definition start_workers (slots : Z) (ids : list Z) st : lib * pool point mem :=
  spawn_all (WStart <$> ids) (with_mem (sem_put GSem (sem_init slots "pool")) st).

(** From the first [coro_run] up to the second, with the loggers [ids]. *)
Definition start_loggers (ids : list Z) st : lib * pool point mem :=
  spawn_all (LStart <$> ids)
    (with_mem (λ m, set_log [] (sem_put GLogMutex (mutex_init "log-mutex") m)) st).

Definition main (fuel : nat) : result cerror (lib * pool point mem) :=
  match coro_run fuel (start_workers NUM_SLOTS (seqZ 0 NUM_WORKERS) (lib0, Pool [] mem0)) with
  | Err e => Err e
  | Ok st =>
      let st := with_mem (λ m, say (FinalCounter (g_shared_counter m) NUM_WORKERS) m) st in
      match coro_run fuel (start_loggers (seqZ 0 NUM_LOGGERS) st) with
      | Err e => Err e
      | Ok st => Ok (with_mem (λ m, say (FinalLog (g_log m)) m) st)
      end
  end.
End main.

(** ** Slots *)

(** A semaphore of [n] slots, [held] of them by the coroutines at [locs]. *)
Definition slots (n : Z) (held : point → bool) (locs : list (option point)) (s : coro_sem_t) : Prop :=
  max s = n ∧ 0 ≤ count s ∧ count s + tally_locs held locs = n.

(** What a control point is reached under. *)
Definition cond_of (l : point) : mem → bool :=
  match l with
  | WAcquire _ => λ m, sem_ready (g_sem m)
  | LAcquire _ => λ m, sem_ready (g_log_mutex m)
  | _ => always
  end.

(** The stretches of a coroutine after the one at a control point. *)
Definition stretches (l : point) : nat :=
  match l with
  | WStart _ => 4 | WWant _ => 3 | WAcquire _ => 2 | WInside _ _ => 1 | WLeave _ => 0
  | LStart _ => 3 | LWant _ => 2 | LAcquire _ => 1 | LHold _ => 0
  end.

(** Inside a critical section; a worker that has not incremented; the two kinds. *)
Definition inside (l : point) : bool := match l with WInside _ _ | WLeave _ => true | _ => false end.
Definition holds (l : point) : bool := match l with LHold _ => true | _ => false end.
Definition to_count (l : point) : bool :=
  match l with WStart _ | WWant _ | WAcquire _ | WInside _ _ => true | _ => false end.
Definition is_worker (l : point) : bool := to_count l || inside l.

Definition only (kind : point → bool) (locs : list (option point)) : Prop :=
  ∀ j l, locs !! j = Some (Some l) → kind l = true.

Lemma only_move kind locs j loc :
  only kind locs → (∀ l, loc = Some l → kind l = true) → only kind (<[j := loc]> locs).
Proof. intros Ho Hl i l [(_ & -> & _)|[_ Hi]]%list_lookup_insert_Some; eauto. Qed.

Section slots.
Context (n : Z) (held : point → bool).
Implicit Types (locs : list (option point)) (s : coro_sem_t).

(** A coroutine moves without acquiring or releasing. *)
Lemma slots_move locs s j l l' :
  slots n held locs s → locs !! j = Some (Some l) → held l' = held l →
  slots n held (<[j := Some l']> locs) s.
Proof using.
  intros (Hm & H0 & Ht) Hj Hl. split_and!; [done..|]. rewrite (tally_locs_insert _ _ _ _ _ Hj), Hl. lia.
Qed.

Lemma slots_acquire locs s j l l' :
  slots n held locs s → locs !! j = Some (Some l) → held l = false → held l' = true →
  sem_ready s = true → n ≤ INT_MAX →
  cadd (count s) (-1) = Some (count s - 1)
  ∧ slots n held (<[j := Some l']> locs) (MkSem (count s - 1) (max s) (name s)).
Proof using.
  intros (Hm & H0 & Ht) Hj Hl Hl' Hr%Z.ltb_lt Hn. pose proof (tally_locs_nonneg held locs). split.
  - apply cadd_ok. unfold INT_MIN, INT_MAX in *. lia.
  - split_and!; cbn; [done|lia|]. rewrite (tally_locs_insert _ _ _ _ _ Hj), Hl, Hl'. lia.
Qed.

Lemma slots_release locs s j l :
  slots n held locs s → locs !! j = Some (Some l) → held l = true → n ≤ INT_MAX →
  (count s <? max s) = true ∧ cadd (count s) 1 = Some (count s + 1)
  ∧ slots n held (<[j := None]> locs) (MkSem (count s + 1) (max s) (name s)).
Proof using.
  intros (Hm & H0 & Ht) Hj Hl Hn. pose proof (tally_locs_insert held _ _ _ None Hj) as Ht'.
  pose proof (tally_locs_nonneg held (<[j := None]> locs)). rewrite Hl in Ht'.
  split_and!; [apply Z.ltb_lt; lia|apply cadd_ok; unfold INT_MIN, INT_MAX in *; lia|].
  split_and!; cbn; [done|lia..].
Qed.

(** While there are slots not all coroutines wait for one. *)
Lemma slots_some locs s :
  slots n held locs s → 1 ≤ n →
  sem_ready s = true ∨ ∃ j l, locs !! j = Some (Some l) ∧ held l = true.
Proof using.
  intros (Hm & H0 & Ht) Hn. unfold sem_ready.
  destruct (Z.ltb_spec 0 (count s)); [by left|right]. apply tally_locs_some. lia.
Qed.

Lemma slots_free k s : slots n held (replicate k None) s → count s = n.
Proof using. intros (_ & _ & Ht). rewrite tally_locs_none in Ht. lia. Qed.

Lemma slots_bound locs s : slots n held locs s → tally_locs held locs ≤ n.
Proof using. intros (_ & H0 & Ht). lia. Qed.
End slots.

(** The loggers that have appended, in order, and the lines of main. *)
Definition appended (t : list out) : list Z :=
  omap (λ o, match o with Appended id _ => Some id | _ => None end) t.
Definition is_report (o : out) : bool :=
  match o with FinalCounter _ _ | FinalLog _ => true | _ => false end.
Definition reports (t : list out) : list out := base.filter is_report t.

Lemma appended_snoc t o :
  appended (t ++ [o]) = appended t ++ match o with Appended id _ => [id] | _ => [] end.
Proof. unfold appended. rewrite omap_app. by destruct o. Qed.
Lemma reports_snoc t o : reports (t ++ [o]) = reports t ++ if is_report o then [o] else [].
Proof. unfold reports. rewrite filter_app. by destruct o. Qed.

(** One stretch; a coroutine moves on; what it has printed. *)
Ltac stretch := eexists _, _; split; [done|]; try (split_and!; [done|cbn; lia|]).
Ltac keeps Ho := apply only_move; [exact Ho|by intros ? [= <-]].
Ltac heard := cbn; rewrite ?appended_snoc, ?reports_snoc, ?app_nil_r.

(** ** The workers *)

Section workers.
Variables (n N : Z).
Hypotheses (n_int : 0 ≤ n ≤ INT_MAX) (N_int : N ≤ INT_MAX).
Implicit Types (locs : list (option point)) (c : Z).

(** The workers that have incremented. *)
Definition counted locs : Z := N - tally_locs to_count locs.

Definition has_read locs c : Prop :=
  ∀ j id b, locs !! j = Some (Some (WInside id b)) → 0 ≤ b ≤ counted locs ∧ (n = 1 → b = c).

(** The counter is at most the number of increments, and at least one if there
    was one; if a worker is alone inside what it has read is what the counter
    holds, and the counter is the number of increments. *)
Record counting locs c : Prop := {
  ct_range : 0 ≤ c ≤ counted locs;
  ct_some : 1 ≤ counted locs → 1 ≤ c;
  ct_exact : n = 1 → c = counted locs;
  ct_read : has_read locs c
}.

Record working locs (m : mem) : Prop := {
  wk_only : only is_worker locs;
  wk_slots : slots n inside locs (g_sem m);
  wk_count : counting locs (g_shared_counter m);
  wk_quiet : appended (printed m) = [] ∧ reports (printed m) = []
}.

(** A worker moves without incrementing. *)
Lemma counting_move locs j l loc c :
  counting locs c → locs !! j = Some (Some l) →
  to_count l = (match loc with Some l' => to_count l' | None => false end) →
  (∀ id b, loc = Some (WInside id b) → b = c) → counting (<[j := loc]> locs) c.
Proof using.
  intros [Hr Hs He Hb] Hj Hl Hi.
  assert (counted (<[j := loc]> locs) = counted locs) as Hc.
  { unfold counted. rewrite (tally_locs_insert _ _ _ _ _ Hj), Hl. destruct loc; lia. }
  split; rewrite ?Hc; [done..|]. intros i id b. rewrite Hc.
  intros [(_ & Heq & _)|[_ Hi']]%list_lookup_insert_Some; [|by eapply Hb].
  by rewrite (Hi _ _ Heq).
Qed.

Lemma counting_increment locs j id b c :
  counting locs c → (n = 1 → tally_locs inside locs ≤ 1) → locs !! j = Some (Some (WInside id b)) →
  cadd b 1 = Some (b + 1) ∧ counting (<[j := Some (WLeave id)]> locs) (b + 1).
Proof using N_int.
  intros [Hr Hs He Hb] H1 Hj. destruct (Hb _ _ _ Hj) as [Hbr Hbc].
  pose proof (tally_locs_insert to_count _ _ _ (Some (WLeave id)) Hj) as Ht. cbn in Ht.
  pose proof (tally_locs_nonneg to_count (<[j := Some (WLeave id)]> locs)).
  assert (counted (<[j := Some (WLeave id)]> locs) = counted locs + 1) as Hc by (unfold counted; lia).
  split; [apply cadd_ok; unfold counted, INT_MIN, INT_MAX in *; lia|].
  split; rewrite ?Hc; [lia..|by intros Hn; rewrite (Hbc Hn), (He Hn)|].
  intros i id' b' [(_ & [=] & _)|[Hne Hi]]%list_lookup_insert_Some.
  destruct (Hb _ _ _ Hi) as [? _]. rewrite Hc. split; [lia|]. intros Hn. destruct Hne.
  exact (tally_locs_unique inside locs j i _ _ (H1 Hn) Hj Hi eq_refl eq_refl).
Qed.


#[export] Instance workers_jobs : CJobs cond_of working stretches.
Proof using n_int N_int.
  split. intros locs m j l [Ho Hs Hc Hq] Hj Hw. pose proof (Ho _ _ Hj) as Hk.
  destruct l as [id|id|id|id b|id|id|id|id|id]; try done; unfold cstep, code; cbn [worker_logger].
  - stretch. split; [keeps Ho|by eapply slots_move|by eapply counting_move|by heard].
  - stretch. split; [keeps Ho|by eapply slots_move|by eapply counting_move|by heard].
  - unfold sem_waited. cbn [sem_at].
    destruct (slots_acquire n inside _ _ _ _ (WInside id (g_shared_counter m)) Hs Hj) as [-> Hs']; [done..|lia|].
    stretch. split; [keeps Ho|exact Hs'| |by heard].
    eapply counting_move; [exact Hc|done|done|]. by intros ? ? [= _ <-].
  - destruct (counting_increment locs j id b _ Hc) as [-> Hc'].
    { intros <-. by eapply slots_bound. }
    { done. }
    stretch. split; [keeps Ho|by eapply slots_move|exact Hc'|by heard].
  - unfold sem_post. cbn [sem_at].
    destruct (slots_release n inside _ _ _ _ Hs Hj) as (-> & -> & Hs'); [done|lia|].
    stretch. split; [by apply only_move|exact Hs'|by eapply counting_move|by heard].
Qed.

(** Not all workers wait. *)
Lemma workers_some locs m j l :
  1 ≤ n → working locs m → locs !! j = Some (Some l) →
  ∃ i l', locs !! i = Some (Some l') ∧ cond_of l' m = true.
Proof using.
  intros Hn [Ho Hs _ _] Hj. destruct (slots_some _ _ _ _ Hs Hn) as [Hr|(i & l' & Hi & Hl)].
  - exists j, l. split; [done|]. pose proof (Ho _ _ Hj). by destruct l.
  - exists i, l'. split; [done|]. by destruct l'.
Qed.

Lemma working0 (ids : list Z) m :
  N = Z.of_nat (length ids) → g_sem m = sem_init n "pool" → g_shared_counter m = 0 → printed m = [] →
  working (Some <$> (WStart <$> ids)) m.
Proof using n_int.
  intros HN Hs Hc Hp. assert (counted (Some <$> (WStart <$> ids)) = 0) as Hd.
  { unfold counted. rewrite (tally_locs_const _ true); [rewrite length_fmap; lia|].
    by apply Forall_fmap, Forall_true. }
  assert (∀ j l, (Some <$> (WStart <$> ids)) !! j = Some (Some l) → ∃ id, l = WStart id) as Hl.
  { intros j l. rewrite !list_lookup_fmap. destruct (ids !! j); intros [=]; eauto. }
  split.
  - by intros j l (id & ->)%Hl.
  - rewrite Hs. split_and!; cbn; [done|lia|]. rewrite (tally_locs_const _ false); [lia|].
    by apply Forall_fmap, Forall_true.
  - rewrite Hc. split; rewrite ?Hd; [lia..|]. by intros j id b (? & [=])%Hl.
  - by rewrite Hp.
Qed.
End workers.

(** ** The loggers *)

(** The logger that has not appended yet, if that is where it is. *)
Definition to_append (loc : option point) : option Z :=
  match loc with Some (LStart id) | Some (LWant id) | Some (LAcquire id) => Some id | _ => None end.
Definition is_logger (l : point) : bool := negb (is_worker l).

Section loggers.
Variables (ids : list Z) (pool_sem : coro_sem_t) (said : list out).
Implicit Types (locs : list (option point)).

Record logging locs (m : mem) : Prop := {
  lg_only : only is_logger locs;
  lg_slots : slots 1 holds locs (g_log_mutex m);
  lg_log : g_log m = take (LOG_SIZE - 1) (concat (entry_of <$> appended (printed m)));
  lg_all : appended (printed m) ++ omap to_append locs ≡ₚ ids;
  lg_frame : g_sem m = pool_sem ∧ reports (printed m) = said
}.

(** What is left to append when coroutine [j] goes on. *)
Lemma to_append_insert locs j loc loc' :
  locs !! j = Some loc →
  omap to_append locs ≡ₚ option_list (to_append loc) ++ omap to_append (delete j locs)
  ∧ omap to_append (<[j := loc']> locs)
    ≡ₚ option_list (to_append loc') ++ omap to_append (delete j locs).
Proof using.
  intros Hj. assert (∀ loc locs, omap to_append (loc :: locs)
    = option_list (to_append loc) ++ omap to_append locs) as Hc
    by (intros x ?; cbn; by destruct (to_append x)).
  split; rewrite <- Hc; apply omap_Permutation.
  - by apply delete_Permutation.
  - apply lookup_lt_Some in Hj as Hlt. rewrite insert_take_drop, delete_take_drop by done.
    symmetry. apply Permutation_middle.
Qed.

Lemma to_append_same locs j l loc :
  locs !! j = Some (Some l) → to_append loc = to_append (Some l) →
  omap to_append (<[j := loc]> locs) ≡ₚ omap to_append locs.
Proof using.
  intros Hj He. destruct (to_append_insert _ _ _ loc Hj) as [H1 H2]. by rewrite H2, He, <- H1.
Qed.

(** [strncat] with the limit of the caller fills the buffer. *)
Lemma strncat_take (n : nat) (l k : list ascii) :
  strncat (take n l) k (S n - length (take n l) - 1) = take n (l ++ k).
Proof using.
  unfold strncat. rewrite take_app. f_equal. f_equal. rewrite length_take. lia.
Qed.

#[export] Instance loggers_jobs : CJobs cond_of logging stretches.
Proof using.
  split. intros locs m j l [Ho Hs Hl Ha [Hg Hr]] Hj Hw. pose proof (Ho _ _ Hj) as Hk.
  destruct l as [id|id|id|id b|id|id|id|id|id]; try done; unfold cstep, code; cbn [worker_logger].
  - stretch. split; heard; [keeps Ho|by eapply slots_move|done| |done].
    by rewrite (to_append_same _ _ _ _ Hj).
  - stretch. split; heard; [keeps Ho|by eapply slots_move|done| |done].
    by rewrite (to_append_same _ _ _ _ Hj).
  - unfold sem_waited. cbn [sem_at].
    destruct (slots_acquire 1 holds _ _ _ _ (LHold id) Hs Hj) as [-> Hs']; [done..|].
    stretch. split; heard; [keeps Ho|exact Hs'| | |done].
    + rewrite Hl. etrans; [apply strncat_take|]. rewrite fmap_app, concat_app. cbn. by rewrite app_nil_r.
    + destruct (to_append_insert _ _ _ (Some (LHold id)) Hj) as [H1 H2].
      rewrite H2, <- Ha, H1, <- app_assoc. done.
  - unfold mutex_unlock, sem_post. cbn [sem_at].
    destruct (slots_release 1 holds _ _ _ _ Hs Hj) as (-> & -> & Hs'); [done..|].
    stretch. split; heard; [by apply only_move|exact Hs'|done| |done].
    by rewrite (to_append_same _ _ _ _ Hj).
Qed.

Lemma loggers_some locs m j l :
  logging locs m → locs !! j = Some (Some l) →
  ∃ i l', locs !! i = Some (Some l') ∧ cond_of l' m = true.
Proof using.
  intros [Ho Hs _ _ _] Hj. destruct (slots_some _ _ _ _ Hs) as [Hr|(i & l' & Hi & Hl)]; [done|..].
  - exists j, l. split; [done|]. pose proof (Ho _ _ Hj). by destruct l.
  - exists i, l'. split; [done|]. by destruct l'.
Qed.

Lemma logging0 k m :
  g_log_mutex m = mutex_init "log-mutex" → g_log m = [] → appended (printed m) = [] →
  g_sem m = pool_sem → reports (printed m) = said →
  logging (replicate k None ++ (Some <$> (LStart <$> ids))) m.
Proof using.
  intros Hm Hl Ha Hg Hr.
  assert (tally_locs holds (replicate k None ++ (Some <$> (LStart <$> ids))) = 0) as Ht.
  { unfold tally_locs. rewrite fmap_app, sumZ_app. fold (tally_locs holds (replicate k None)).
    fold (tally_locs holds (Some <$> (LStart <$> ids))).
    rewrite tally_locs_none, (tally_locs_const _ false); [done|]. by apply Forall_fmap, Forall_true. }
  split; [| | | |done].
  - intros j l [Hj|[_ Hj]]%lookup_app_Some; [by apply lookup_replicate in Hj as [[=] _]|].
    rewrite !list_lookup_fmap in Hj. destruct (ids !! _); by simplify_eq/=.
  - rewrite Hm. split_and!; cbn; [done|lia|]. by rewrite Ht.
  - by rewrite Hl, Ha.
  - rewrite Ha, omap_app. assert (omap to_append (replicate k None) = []) as -> by (clear; by induction k).
    cbn. clear. induction ids as [|id l IH]; cbn; [done|]. by rewrite IH.
Qed.

Lemma all_appended k m : logging (replicate k None) m → appended (printed m) ≡ₚ ids.
Proof using.
  intros [_ _ _ Ha _]. assert (∀ n, omap to_append (replicate n None) = []) as Hn by by induction n.
  by rewrite Hn, app_nil_r in Ha.
Qed.
End loggers.

(** ** Both parts of main *)

Section program.
Context `{CoroLib}.
Implicit Types st : lib * pool point mem.

Definition returned {L M} (P : pool L M) : Prop := Forall (λ t, t = None) (threads P).

Lemma returned_replicate {L M} (P : pool L M) :
  returned P → threads P = replicate (length (threads P)) None.
Proof. intros Hr. symmetry. apply replicate_as_Forall. split; [done|]. eapply Forall_impl; [exact Hr|by intros t ->]. Qed.

Lemma at_start {A} (f : A → point) k (xs : list A) (J : list (option point) → mem → Prop) m :
  (∀ x, cond_of (f x) = always) → J (replicate k None ++ (Some <$> (f <$> xs))) m →
  at_work cond_of J (Pool (replicate k None ++ (Some ∘ Thread always ∘ f <$> xs)) m).
Proof.
  intros Hf HJ. split; cbn.
  - unfold points. cbn. rewrite fmap_app, fmap_replicate. rewrite <- !list_fmap_compose in *. exact HJ.
  - intros i t [Hi|[_ Hi]]%lookup_app_Some; [by apply lookup_replicate in Hi as [[=] _]|].
    apply list_lookup_fmap_Some in Hi as (x & [= ->] & _). cbn. by rewrite Hf.
Qed.

Lemma start_left {A} (f : A → point) k n (xs : list A) (m : mem) :
  (∀ x, stretches (f x) = n) →
  work_left stretches (Pool (replicate k None ++ (Some ∘ Thread always ∘ f <$> xs)) m)
  = (S n * length xs)%nat.
Proof.
  intros Hf. unfold work_left, points, total. cbn. rewrite fmap_app, omap_app, sum_list_with_app.
  assert (sum_list_with (λ l, S (stretches l)) (omap id (fmap (M := option) at_point <$> replicate k (None : option (thread point mem)))) = 0)%nat as ->
    by (clear; by induction k).
  induction xs as [|x xs IH]; cbn in *; [lia|]. rewrite Hf. lia.
Qed.

(** The first part of main, from memory where nothing has been printed. *)
Lemma workers_start n ids s :
  let st := start_workers n ids (s, Pool [] mem0) in
  0 ≤ n ≤ INT_MAX →
  ∃ made, made `sublist_of` ids ∧ (roomy → made = ids) ∧ length (threads st.2) = length made
    ∧ at_work cond_of (working n (Z.of_nat (length made))) st.2
    ∧ work_left stretches st.2 = (5 * length made)%nat.
Proof.
  intros st Hn. destruct (spawn_all_some WStart ids (with_mem (sem_put GSem (sem_init n "pool")) (s, Pool [] mem0)))
    as (made & Hm & Hroom & He). exists made. unfold st, start_workers. rewrite He.
  cbn [with_mem fst snd threads shared app].
  split_and!; [done..|by rewrite length_fmap| |].
  - apply (at_start WStart 0); [done|]. by apply working0.
  - by apply (start_left WStart 0 4 made).
Qed.

(** The second, when all coroutines of the first have returned. *)
Lemma loggers_start ids st0 :
  let st := start_loggers ids st0 in
  returned st0.2 → appended (printed (shared st0.2)) = [] →
  ∃ made, made `sublist_of` ids ∧ (roomy → made = ids)
    ∧ at_work cond_of (logging made (g_sem (shared st0.2)) (reports (printed (shared st0.2)))) st.2
    ∧ work_left stretches st.2 = (4 * length made)%nat.
Proof.
  intros st Hr Ha.
  destruct (spawn_all_some LStart ids
    (with_mem (λ m, set_log [] (sem_put GLogMutex (mutex_init "log-mutex") m)) st0))
    as (made & Hm & Hroom & He). exists made. unfold st, start_loggers. rewrite He.
  cbn [with_mem fst snd threads shared].
  rewrite (returned_replicate _ Hr). split_and!; [done..| |by apply (start_left LStart _ 3)].
  apply at_start; [done|]. by apply logging0.
Qed.

Lemma workers_run n ids s fuel :
  0 ≤ n ≤ INT_MAX → 1 ≤ n → Z.of_nat (length ids) ≤ INT_MAX → (5 * length ids < fuel)%nat →
  ∃ st', coro_run fuel (start_workers n ids (s, Pool [] mem0)) = Ok st' ∧ returned st'.2
    ∧ length (threads st'.2) = length (threads (start_workers n ids (s, Pool [] mem0)).2)
    ∧ count (g_sem (shared st'.2)) = n
    ∧ counting n (Z.of_nat (length (threads st'.2))) (replicate (length (threads st'.2)) None)
        (g_shared_counter (shared st'.2))
    ∧ appended (printed (shared st'.2)) = [] ∧ reports (printed (shared st'.2)) = [].
Proof.
  intros Hn H1 Hi Hf. destruct (workers_start n ids s Hn) as (made & Hm & _ & Hl & HP & Hw).
  pose proof (sublist_length _ _ Hm).
  pose proof (workers_jobs n (Z.of_nat (length made)) Hn ltac:(lia)) as HJ.
  destruct (spawned_end _ _ _ fuel _ (λ locs m j l, workers_some _ _ locs m j l H1) HP ltac:(lia))
    as (st' & Hr & _ & Ht & [_ Hs Hc Hq]).
  exists st'. assert (length (threads st'.2) = length made) as Hlen by by rewrite Ht, length_replicate.
  rewrite Hl in Ht, Hs, Hc. split_and!; [done| |by rewrite Hlen|by eapply slots_free|by rewrite Hlen|by destruct Hq..].
  unfold returned. rewrite Ht. by apply Forall_replicate.
Qed.

Lemma loggers_run ids st fuel :
  returned st.2 → appended (printed (shared st.2)) = [] → (4 * length ids < fuel)%nat →
  ∃ made st', made `sublist_of` ids ∧ (roomy → made = ids)
    ∧ coro_run fuel (start_loggers ids st) = Ok st' ∧ returned st'.2
    ∧ count (g_log_mutex (shared st'.2)) = 1
    ∧ appended (printed (shared st'.2)) ≡ₚ made
    ∧ g_log (shared st'.2) = take (LOG_SIZE - 1) (concat (entry_of <$> appended (printed (shared st'.2))))
    ∧ g_sem (shared st'.2) = g_sem (shared st.2)
    ∧ reports (printed (shared st'.2)) = reports (printed (shared st.2)).
Proof.
  intros Hr Ha Hf. destruct (loggers_start ids st Hr Ha) as (made & Hm & Hroom & HP & Hw).
  pose proof (sublist_length _ _ Hm).
  destruct (spawned_end cond_of (logging made _ _) stretches fuel _ (λ locs m j l, loggers_some _ _ _ locs m j l) HP ltac:(lia))
    as (st' & He & _ & Ht & HJ).
  exists made, st'. pose proof HJ as [_ Hs Hl _ [Hg Hq]].
  split_and!; try done; [|by eapply slots_free|by eapply all_appended].
  unfold returned. rewrite Ht. by apply Forall_replicate.
Qed.

(** C33: the first part of main, with any number of workers and [n] slots, for
    every schedule of a library that resumes a coroutine from [co_await] only
    when its condition holds: no stretch of code that can run next is undefined,
    and at most [n] coroutines are between the acquisition and the release.
    With at least one slot [coro_run] returns with every coroutine finished,
    whatever the library prefers; then all slots are free again, the shared
    counter is at most the number of workers created, and with exactly one slot
    it is that number. *)
Theorem semaphore_exclusion n ids :
  let st := start_workers n ids (lib0, Pool [] mem0) in
  0 ≤ n ≤ INT_MAX → Z.of_nat (length ids) ≤ INT_MAX →
  (∀ P, rtc scheduled st.2 P → defined P ∧ tally_locs inside (points P) ≤ n)
  ∧ (roomy → length (threads st.2) = length ids)
  ∧ (1 ≤ n → ∀ fuel, (5 * length ids < fuel)%nat →
     ∃ s P, coro_run fuel st = Ok (s, P) ∧ returned P
       ∧ length (threads P) = length (threads st.2)
       ∧ count (g_sem (shared P)) = n
       ∧ 0 ≤ g_shared_counter (shared P) ≤ Z.of_nat (length (threads P))
       ∧ (n = 1 → g_shared_counter (shared P) = Z.of_nat (length (threads P)))).
Proof.
  intros st Hn Hi. destruct (workers_start n ids lib0 Hn) as (made & Hm & Hroom & Hl & HP & _).
  pose proof (sublist_length _ _ Hm). split_and!.
  - pose proof (workers_jobs n (Z.of_nat (length made)) Hn ltac:(lia)) as HJ. intros P Hr.
    destruct (scheduled_works _ _ _ _ _ HP Hr) as [HP' _].
    split; [by eapply at_work_defined|]. destruct HP' as [[_ Hs _ _] _]. by eapply slots_bound.
  - intros Hr. unfold st. by rewrite Hl, (Hroom Hr).
  - intros H1 fuel Hf. destruct (workers_run n ids lib0 fuel Hn H1 Hi Hf)
      as ([s P] & Hr & Hret & Hlen & Hc & [Hrange _ Hex _] & _). exists s, P.
    unfold counted in *. rewrite tally_locs_none in *. cbn [snd] in *. split_and!; try done; [lia..|].
    intros Hn1. rewrite (Hex Hn1). lia.
Qed.

(** C34: the second part of main, from any state in which the coroutines have
    returned and nothing has been logged, with any number of loggers: for every
    schedule no stretch of code that can run next is undefined, at most one
    coroutine holds the mutex, and the log is the entries appended so far cut at
    the size of the buffer.  [coro_run] returns with every coroutine finished,
    whatever the library prefers, the mutex free, and every logger created has
    appended once. *)
Theorem mutex_log ids st0 :
  let st := start_loggers ids st0 in
  returned st0.2 → appended (printed (shared st0.2)) = [] →
  (∀ P, rtc scheduled st.2 P → defined P ∧ tally_locs holds (points P) ≤ 1
     ∧ g_log (shared P) = take (LOG_SIZE - 1) (concat (entry_of <$> appended (printed (shared P)))))
  ∧ ∀ fuel, (4 * length ids < fuel)%nat →
    ∃ made s P, made `sublist_of` ids ∧ (roomy → made = ids)
      ∧ coro_run fuel st = Ok (s, P) ∧ returned P
      ∧ count (g_log_mutex (shared P)) = 1
      ∧ appended (printed (shared P)) ≡ₚ made.
Proof.
  intros st Hret Ha. destruct (loggers_start ids st0 Hret Ha) as (made & Hm & _ & HP & _). split.
  - intros P Hr. destruct (scheduled_works _ _ _ _ _ HP Hr) as [HP' _].
    split; [eapply (at_work_defined cond_of _ stretches), HP'|]. destruct HP' as [[_ Hs Hl _ _] _]. split; [by eapply slots_bound|done].
  - intros fuel Hf. destruct (loggers_run ids st0 fuel Hret Ha Hf)
      as (made' & [s P] & Hm' & Hroom & He & Hr & Hc & Hp & _). by exists made', s, P.
Qed.

Lemma entries_length (l k : list Z) :
  l ≡ₚ k → length (concat (entry_of <$> l)) = length (concat (entry_of <$> k)).
Proof. induction 1; cbn [fmap list_fmap concat]; rewrite ?length_app; lia. Qed.

(** The whole of semaphore.c, on any library that has room for its eight
    coroutines: it ends, all slots free and the mutex unlocked.  The last line
    is the log of the three loggers, in some order; the counter it reports is
    between one and the five it expects. *)
Theorem semaphore_program fuel :
  roomy → (25 < fuel)%nat →
  ∃ s P c order, main fuel = Ok (s, P) ∧ returned P
    ∧ count (g_sem (shared P)) = NUM_SLOTS ∧ count (g_log_mutex (shared P)) = 1
    ∧ 1 ≤ c ≤ NUM_WORKERS ∧ order ≡ₚ seqZ 0 NUM_LOGGERS
    ∧ reports (printed (shared P))
      = [FinalCounter c NUM_WORKERS; FinalLog (concat (entry_of <$> order))].
Proof.
  intros Hroom Hf. assert (length (seqZ 0 NUM_WORKERS) = 5%nat) as H5 by done.
  destruct (workers_start NUM_SLOTS (seqZ 0 NUM_WORKERS) lib0) as (made & _ & Hmade & Hl & _); [done|].
  rewrite (Hmade Hroom), H5 in Hl.
  destruct (workers_run NUM_SLOTS (seqZ 0 NUM_WORKERS) lib0 fuel)
    as (st1 & Hr1 & Hret1 & Hlen & Hc1 & [Hrange Hsome _ _] & Ha1 & Hq1); [done..|rewrite H5; lia|].
  rewrite Hlen, Hl in Hrange, Hsome. unfold counted in Hrange, Hsome.
  rewrite tally_locs_none in Hrange, Hsome. unfold main. rewrite Hr1.
  set (st1' := with_mem _ st1). pose proof (loggers_run (seqZ 0 NUM_LOGGERS) st1' fuel) as Hrun.
  unfold st1' in Hrun at 1 2. cbn [with_mem snd threads shared say printed] in Hrun.
  rewrite appended_snoc, Ha1 in Hrun. specialize (Hrun Hret1 eq_refl ltac:(change (length (seqZ 0 NUM_LOGGERS)) with 3%nat; lia)).
  destruct Hrun as (made2 & [s P] & _ & Hmade2 & -> & Hret2 & Hm2 & Hp2 & Hl2 & Hg2 & Hq2).
  rewrite (Hmade2 Hroom) in Hp2. cbn [snd] in *.
  eexists s, _, (g_shared_counter (shared st1.2)), (appended (printed (shared P))).
  split; [reflexivity|]. cbn [with_mem snd threads shared say g_sem g_log_mutex printed].
  rewrite reports_snoc, Hq2. unfold st1'. cbn [with_mem snd shared say printed].
  rewrite reports_snoc, Hq1, Hl2, take_ge by by rewrite (entries_length _ _ Hp2); apply leb_complete.
  split_and!; [exact Hret2|by rewrite Hg2|done|lia|unfold NUM_WORKERS; lia|done|done].
Qed.
End program.

Definition first_report {A} (r : result cerror (A * pool point mem)) : option out :=
  match r with Ok (_, P) => head (reports (printed (shared P))) | Err _ => None end.

(** With two slots increments can be lost: a worker reads the counter before a
    [co_yield] and writes it after.  Where coroutines go on in turn the program
    reports 3 where it says "expected 5"; where one runs as long as it can the
    count is right. *)
Theorem semaphore_lost_updates :
  first_report (main (H := CoroDemo.fifo_lib) 30) = Some (FinalCounter 3 5)
  ∧ first_report (main (H := CoroDemo.eager_lib) 30) = Some (FinalCounter 5 5).
Proof. by vm_compute. Qed.

(** Five workers and one slot; three loggers. *)
Lemma semaphore_exclusion_witness :
  ∃ s P, coro_run (H0 := CoroDemo.fifo_lib) 30
      (start_workers (H := CoroDemo.fifo_lib) 1 [0; 1; 2; 3; 4] (lib0, Pool [] mem0)) = Ok (s, P)
    ∧ count (g_sem (shared P)) = 1 ∧ g_shared_counter (shared P) = 5.
Proof.
  destruct (semaphore_exclusion (H := CoroDemo.fifo_lib) 1 [0; 1; 2; 3; 4]) as (_ & Hlen & Hrun); [done..|].
  destruct (Hrun ltac:(done) 30%nat ltac:(cbn; lia)) as (s & P & Hr & _ & Hl & Hc & _ & Hx).
  exists s, P. split_and!; [exact Hr|exact Hc|]. rewrite (Hx eq_refl), Hl, (Hlen (λ _, eq_refl)). reflexivity.
Defined.

Lemma mutex_log_witness :
  ∃ s P, coro_run (H0 := CoroDemo.fifo_lib) 30
      (start_loggers (H := CoroDemo.fifo_lib) [0; 1; 2] (lib0, Pool [] mem0)) = Ok (s, P)
    ∧ count (g_log_mutex (shared P)) = 1 ∧ appended (printed (shared P)) ≡ₚ [0; 1; 2].
Proof.
  destruct (mutex_log (H := CoroDemo.fifo_lib) [0; 1; 2] (lib0, Pool [] mem0)) as [_ Hrun]; [by constructor|done|].
  destruct (Hrun 30%nat ltac:(cbn; lia)) as (made & s & P & _ & Hm & Hr & _ & Hc & Hp).
  exists s, P. split_and!; [exact Hr|exact Hc|]. rewrite <- (Hm (λ _, eq_refl)). exact Hp.
Defined.

Lemma semaphore_program_witness :
  ∃ s P, main (H := CoroDemo.fifo_lib) 30 = Ok (s, P) ∧ count (g_sem (shared P)) = 2.
Proof.
  destruct (semaphore_program (H := CoroDemo.fifo_lib) 30) as (s & P & _ & _ & Hm & _ & Hc & _);
    [intros ?; reflexivity|lia|]. exists s, P. split; [exact Hm|exact Hc].
Defined.
End Semaphore.
