(* ===== verification/Demos.v ===== *)
(** * Complete programs on the library

    Demos written against this library's own interface, main included:
    [examples/generator.c], [examples/ping_pong.c] and
    [examples/echo_server.c].  Each is a user program of the model and
    runs to its end, on the allocator of [Demo.v]; what it prints is a
    theorem. *)

From stdpp Require Import gmap pretty.
From S2P Require Import Prelude Ring Machine State RunQueue Api Demo User.

(** ** examples/generator.c *)

Module Generator.
Definition FIB_COUNT : Z := 12.
Definition fn_fib_gen : ptr := 1.
Definition fn_fib_consumer : ptr := 2.

Record Chan := MkChan { value : Z; ready : bool }.

Inductive out : Set := Header (n : Z) | Value (v : Z) | Sum (s : Z).

(** main's [ch] and [ca.gen], and the output. *)
Record mem := Mem { ch : Chan; ca_gen : ptr; printed : list out }.

Definition say (o : out) (m : mem) : mem := Mem (ch m) (ca_gen m) (printed m ++ [o]).
Definition set_ch (c : Chan) (m : mem) : mem := Mem c (ca_gen m) (printed m).

Inductive point : Set :=
(* fib_gen: the loop condition, and the inner loop *)
| GFor (i a b : Z) | GSpin (i a b : Z)
(* fib_consumer: its start, the head of the loops, and after co_state *)
| CStart | CWhile (sum : Z) | CState (sum : Z) (s : CoState)
(* main *)
| MGen | MCons (gen : ptr) | MRun (gen con : ptr)
| MFree (gen con : ptr) | MFree2 (con : ptr) | MEnd.

Definition gen_spin (i a b : Z) (m : mem) : ucall point * mem :=
  if ready (ch m) then (UYield (GSpin i a b), m)
  else
    let m := set_ch (MkChan a true) m in
    let tmp := a + b in
    (UYield (GFor (i + 1) b tmp), m).

Definition code_step (l : point) (m : mem) : ucall point * mem :=
  match l with
  | GFor i a b => if i <? FIB_COUNT then gen_spin i a b m else (UReturn, m)
  | GSpin i a b => gen_spin i a b m
  | CStart => (UTau (CWhile 0), say (Header FIB_COUNT) m)
  | CWhile sum =>
      if ready (ch m) then
        (UTau (CWhile (sum + value (ch m))),
         set_ch (MkChan (value (ch m)) false) (say (Value (value (ch m))) m))
      else (UState (ca_gen m) (CState sum), m)
  | CState sum s =>
      if bool_decide (s = CO_DONE) then (UReturn, say (Sum sum) m)
      else (UYield (CWhile sum), m)
  | MGen => (UCreate fn_fib_gen 0 0 MCons, m)
  | MCons gen =>
      (UCreate fn_fib_consumer 0 0 (MRun gen), Mem (ch m) gen (printed m))
  | MRun gen con => (URun (MFree gen con), m)
  | MFree gen con => (UFree gen (MFree2 con), m)
  | MFree2 con => (UFree con MEnd, m)
  | MEnd => (UReturn, m)
  end.

#[local] Existing Instance MachineDemo.link.
#[local] Instance code : UserCode point mem := {|
  ustep := code_step;
  ufn fn arg := if fn =? fn_fib_gen then GFor 0 0 1 else CStart
|}.

Definition demo : world point mem :=
  init_world heap0 (Mem (MkChan 0 false) NULL []) MGen.

(** The generator demo prints the first twelve Fibonacci numbers and their
    sum, 232 (the comment at the head of the file says 286), frees both
    coroutines and ends. *)
Theorem generator_output :
  match exec 2000 demo with
  | Finished w =>
      printed (w_user w)
      = Header 12 :: (Value <$> [0; 1; 1; 2; 3; 5; 8; 13; 21; 34; 55; 89]) ++ [Sum 232]
      ∧ w_objs w = ∅ ∧ w_blocks w = ∅
  | _ => False
  end.
Proof. by vm_compute. Qed.
End Generator.

(** ** examples/ping_pong.c *)

Module PingPong.
Definition fn_ping : ptr := 1.
Definition fn_pong : ptr := 2.

Record pp_state := PP { counter : Z; limit : Z; done : bool }.

Inductive out : Set := Ping (n : Z) | Pong (n : Z) | Exchanges (n : Z) | Failed.

Record mem := Mem { st : pp_state; printed : list out }.

Inductive point : Set :=
| PingLoop | PongLoop | PongBack
| MPing | MPong (p1 : ptr) | MTest (p1 p2 : ptr) | MDone (p1 p2 : ptr)
| MFree (p2 : ptr) | MEnd.

(** [st->counter += 1; printf(...);] *)
Definition bump (o : Z → out) (m : mem) : mem :=
  let n := counter (st m) + 1 in
  Mem (PP n (limit (st m)) (done (st m))) (printed m ++ [o n]).

(** The loop condition of [pong]. *)
Definition pong_test (m : mem) : ucall point * mem :=
  if (counter (st m) <? limit (st m)) && negb (done (st m))
  then (UYield PongBack, m) else (UReturn, m).

Definition code_step (l : point) (m : mem) : ucall point * mem :=
  match l with
  | PingLoop =>
      if counter (st m) <? limit (st m) then (UYield PingLoop, bump Ping m)
      else (UReturn, Mem (PP (counter (st m)) (limit (st m)) true) (printed m))
  | PongLoop => pong_test m
  | PongBack =>
      if limit (st m) <=? counter (st m) then (UReturn, m)
      else pong_test (bump Pong m)
  | MPing => (UCreate fn_ping 0 0 MPong, m)
  | MPong p1 => (UCreate fn_pong 0 0 (MTest p1), m)
  | MTest p1 p2 =>
      if (p1 =? NULL) || (p2 =? NULL) then (UReturn, Mem (st m) (printed m ++ [Failed]))
      else (URun (MDone p1 p2), m)
  | MDone p1 p2 =>
      (UFree p1 (MFree p2), Mem (st m) (printed m ++ [Exchanges (counter (st m))]))
  | MFree p2 => (UFree p2 MEnd, m)
  | MEnd => (UReturn, m)
  end.

(** [parse_limit]; [strtol] is a parameter: whether it consumed the whole
    argument, and the value. *)
Definition parse_limit (argc : Z) (strtol : bool * Z) (fallback : Z) : Z :=
  if argc <? 2 then fallback
  else if negb strtol.1 || (strtol.2 <=? 0) || (1000000 <? strtol.2) then fallback
  else strtol.2.

Lemma parse_limit_range argc s fallback :
  1 ≤ fallback ≤ 1000000 → 1 ≤ parse_limit argc s fallback ≤ 1000000.
Proof.
  intros Hf. unfold parse_limit. destruct (argc <? 2); [done|].
  destruct s as [ok v]. cbn. destruct ok; cbn; [|done].
  destruct (Z.leb_spec v 0); cbn; [done|]. destruct (Z.ltb_spec 1000000 v); [done|lia].
Qed.

#[export] Instance code : UserCode point mem := {|
  ustep := code_step;
  ufn fn arg := if fn =? fn_ping then PingLoop else PongLoop
|}.

(** The numbers printed by the two coroutines. *)
Definition exchanged (m : mem) : list Z :=
  omap (λ o, match o with Ping n | Pong n => Some n | _ => None end) (printed m).

Definition pp_ok (lim : Z) (m : mem) : Prop :=
  limit (st m) = lim ∧ 0 ≤ counter (st m) ≤ lim
  ∧ exchanged m = seqZ 1 (counter (st m)).

Lemma bump_ok lim o m :
  o = Ping ∨ o = Pong → pp_ok lim m → counter (st m) < lim → pp_ok lim (bump o m).
Proof.
  intros Ho (Hl & Hc & He) Hlt. unfold pp_ok, exchanged in *. cbn.
  split_and!; [done|lia|lia|]. rewrite omap_app, He, seqZ_app by lia.
  by destruct Ho as [->| ->]; cbn; rewrite Z.add_comm.
Qed.

Lemma pp_say lim o m :
  match o with Ping _ | Pong _ => False | _ => True end →
  pp_ok lim m → pp_ok lim (Mem (st m) (printed m ++ [o])).
Proof.
  intros Ho (Hl & Hc & He). unfold pp_ok, exchanged in *. cbn.
  split_and!; [done|lia|lia|]. rewrite omap_app, He.
  destruct o; try done; cbn; by rewrite app_nil_r.
Qed.

Lemma pong_test_ok lim m :
  pp_ok lim m → pp_ok lim (pong_test m).2 ∧ call_ok (λ _, True) (pong_test m).1.
Proof. intros Hm. unfold pong_test. by case_match. Qed.

#[export] Instance code_inv lim : CodeInv (λ _ _, True) (pp_ok lim).
Proof.
  split; [|done]. intros l m _ Hm. pose proof Hm as (Hl & Hc & He).
  destruct l; cbn; try done.
  - destruct (Z.ltb_spec (counter (st m)) (limit (st m))); cbn; [|done].
    split; [|done]. apply bump_ok; [by left|done|lia].
  - by apply pong_test_ok.
  - destruct (Z.leb_spec (limit (st m)) (counter (st m))); cbn; [done|].
    apply pong_test_ok, bump_ok; [by right|done|lia].
  - destruct (_ || _); cbn; [|done]. split; [by apply pp_say|done].
  - split; [by apply pp_say|done].
Qed.

(** Whatever the schedule, the coroutines of the ping-pong demo count
    1, 2, 3, ... without gaps or repetitions and never beyond the limit. *)
Theorem ping_pong_counts `{Allocator, LinkMap} n (w : world point mem)
    (σ : alloc_state) lim :
  0 ≤ lim → steps n (init_world σ (Mem (PP 0 lim false) []) MPing) w →
  exchanged (w_user w) = seqZ 1 (counter (st (w_user w)))
  ∧ 0 ≤ counter (st (w_user w)) ≤ lim.
Proof.
  intros Hl Hs.
  destruct (user_holds (λ _ _, True) (pp_ok lim) n w σ (Mem (PP 0 lim false) []) MPing)
    as [(_ & Hc & He) _]; [done| |done|done].
  split_and!; [done|cbn; lia|cbn; lia|done].
Qed.

#[local] Existing Instance MachineDemo.link.
Definition demo (lim : Z) : world point mem :=
  init_world heap0 (Mem (PP 0 lim false) []) MPing.

Lemma ping_pong_counts_witness :
  0 ≤ counter (st (w_user (default (demo 4) (go 20 (demo 4))))) ≤ 4.
Proof.
  destruct (ping_pong_counts (H := bump_allocator) 20
    (default (demo 4) (go 20 (demo 4))) heap0 4) as [_ Hc]; [done| |exact Hc].
  apply (go_steps 20 (demo 4)). by vm_compute.
Defined.

(** For the limit 4 of its comment the ping-pong demo ends after four
    exchanges, but they do not alternate from the start: pong's first turn
    only yields, so ping counts 1 and 2, pong 3, ping 4. *)
Theorem ping_pong_output :
  match exec 500 (demo 4) with
  | Finished w =>
      printed (w_user w) = [Ping 1; Ping 2; Pong 3; Ping 4; Exchanges 4] ∧ w_objs w = ∅
  | _ => False
  end.
Proof. by vm_compute. Qed.
End PingPong.

(** ** examples/echo_server.c *)

Module EchoServer.
Definition MAX_MESSAGES : Z := 5.
Definition NUM_CONNS : nat := 4.
Definition fn_handle_connection : ptr := 1.

Record Conn := MkConn { id : Z; seq : Z; recv_buf : string }.

Inductive out : Set :=
| Banner (n : Z) | Accepted (id : Z) | Echo (id seq : Z) (data : string)
| Closed (id n : Z) | ServerDone | CreateFailed (n : Z).

(** [conns] and [cos] of main, and the output. *)
Record mem := Mem { conns : list Conn; cos : list ptr; printed : list out }.

Definition say (o : out) (m : mem) : mem := Mem (conns m) (cos m) (printed m ++ [o]).
Definition set_conn (i : nat) (c : Conn) (m : mem) : mem :=
  Mem (<[i := c]> (conns m)) (cos m) (printed m).

(** [snprintf] into 64 bytes. *)
Definition sim_read (c : Conn) : Conn :=
  MkConn (id c) (seq c)
    (String.substring 0 63
       ("hello from conn " +:+ pretty (id c) +:+ ", msg " +:+ pretty (seq c))).

Definition sim_write (c : Conn) (data : string) (m : mem) : mem :=
  say (Echo (id c) (seq c) data) m.

(** [handle_connection] on [&conns\[i\]]: at its start, after each of the two
    yields; main: the creation loop, [co_run], the freeing loop. *)
Inductive point : Set :=
| HStart (i : nat) | HRead (i : nat) | HNext (i : nat)
| MLoop (i : nat) | MMade (i : nat) (co : ptr) | MFree (i : nat).

(** The loop condition of [handle_connection]. *)
Definition handle_loop (i : nat) (c : Conn) (m : mem) : ucall point * mem :=
  if seq c <=? MAX_MESSAGES then (UYield (HRead i), m)
  else (UReturn, say (Closed (id c) MAX_MESSAGES) m).

Definition code_step (l : point) (m : mem) : ucall point * mem :=
  match l with
  | HStart i =>
      match conns m !! i with
      | Some c =>
          let c' := MkConn (id c) 1 (recv_buf c) in
          handle_loop i c' (set_conn i c' (say (Accepted (id c)) m))
      | None => (UReturn, m)
      end
  | HRead i =>
      match conns m !! i with
      | Some c =>
          let c' := sim_read c in
          (UYield (HNext i), sim_write c' (recv_buf c') (set_conn i c' m))
      | None => (UReturn, m)
      end
  | HNext i =>
      match conns m !! i with
      | Some c =>
          let c' := MkConn (id c) (seq c + 1) (recv_buf c) in
          handle_loop i c' (set_conn i c' m)
      | None => (UReturn, m)
      end
  | MLoop i =>
      if (i <? NUM_CONNS)%nat then
        (UCreate fn_handle_connection (Z.of_nat i) 0 (MMade i),
         Mem (conns m ++ [MkConn (Z.of_nat i + 1) 0 ""]) (cos m) (printed m))
      else (URun (MFree 0), m)
  | MMade i co =>
      if co =? NULL then (UReturn, say (CreateFailed (Z.of_nat i + 1)) m)
      else (UTau (MLoop (S i)), Mem (conns m) (cos m ++ [co]) (printed m))
  | MFree i =>
      match cos m !! i with
      | Some co => (UFree co (MFree (S i)), m)
      | None => (UReturn, say ServerDone m)
      end
  end.

#[export] Instance code : UserCode point mem := {|
  ustep := code_step;
  ufn fn arg := HStart (Z.to_nat arg)
|}.

(** What is echoed is the message of the same connection and number. *)
Definition echo_text (i s : Z) : string :=
  String.substring 0 63 ("hello from conn " +:+ pretty i +:+ ", msg " +:+ pretty s).
Definition echo_ok (o : out) : Prop :=
  match o with
  | Echo i s data => data = echo_text i s ∧ 1 ≤ s
  | _ => True
  end.
Definition server_ok (m : mem) : Prop := Forall echo_ok (printed m).
(** A connection past its first yield has a positive sequence number. *)
Definition in_loop (l : point) (m : mem) : Prop :=
  match l with
  | HRead i | HNext i => ∃ c, conns m !! i = Some c ∧ 1 ≤ seq c
  | _ => True
  end.

Lemma echo_say_ok o m : echo_ok o → server_ok m → server_ok (say o m).
Proof. intros Ho Hm. apply Forall_app. split; [done|by constructor]. Qed.

Lemma handle_loop_ok i c m :
  server_ok m → conns m !! i = Some c → 1 ≤ seq c →
  server_ok (handle_loop i c m).2
  ∧ call_ok (λ l, in_loop l (handle_loop i c m).2) (handle_loop i c m).1
  ∧ conns (handle_loop i c m).2 = conns m.
Proof.
  intros Hm Hc Hs. unfold handle_loop. case_match; cbn; split_and!; try done.
  - by exists c.
  - by apply echo_say_ok.
Qed.

(** The connections of a later state: same positions, sequence numbers that
    were positive stay so. *)
Definition later (m m' : mem) : Prop :=
  ∀ i c, conns m !! i = Some c → 1 ≤ seq c → ∃ c', conns m' !! i = Some c' ∧ 1 ≤ seq c'.

Lemma later_set m i c : 1 ≤ seq c → later m (set_conn i c m).
Proof.
  intros Hc j d Hd Hs. cbn. destruct (decide (i = j)) as [<-|Hne].
  - exists c. split; [|done]. apply list_lookup_insert_eq. by eapply lookup_lt_Some.
  - exists d. by rewrite list_lookup_insert_ne.
Qed.

Lemma set_conn_lookup m i c d :
  conns m !! i = Some d → conns (set_conn i c m) !! i = Some c.
Proof. intros Hd. apply list_lookup_insert_eq. by eapply lookup_lt_Some. Qed.

Lemma code_step_ok l m :
  in_loop l m → server_ok m →
  server_ok (code_step l m).2
  ∧ call_ok (λ l', in_loop l' (code_step l m).2) (code_step l m).1
  ∧ later m (code_step l m).2.
Proof.
  intros Hl Hm. destruct l as [i|i|i|i|i co|i]; cbn -[handle_loop sim_read].
  - destruct (conns m !! i) as [c|] eqn:Hc; [|by split_and!; [| |intros ?; eauto]].
    set (c' := MkConn (id c) 1 (recv_buf c)).
    destruct (handle_loop_ok i c' (set_conn i c' (say (Accepted (id c)) m)))
      as (H1 & H2 & H3); [by apply echo_say_ok|by eapply set_conn_lookup|done|].
    split_and!; [done|done|]. unfold later. rewrite H3. by apply (later_set m).
  - destruct Hl as (c & Hc & Hs). rewrite Hc. cbn. split_and!.
    + apply echo_say_ok; [done|]. exact Hm.
    + exists (sim_read c). split; [|done]. by apply (set_conn_lookup m i _ c).
    + by apply (later_set m).
  - destruct Hl as (c & Hc & Hs). rewrite Hc.
    set (c' := MkConn (id c) (seq c + 1) (recv_buf c)).
    assert (1 ≤ seq c') by (cbn; lia).
    destruct (handle_loop_ok i c' (set_conn i c' m)) as (H1 & H2 & H3);
      [done|by eapply set_conn_lookup|done|].
    split_and!; [done|done|]. unfold later. rewrite H3. by apply (later_set m).
  - case_match; cbn; split_and!; try done; [|by intros ?; eauto].
    intros j d Hd Hs. exists d. split; [|done]. by apply lookup_app_l_Some.
  - case_match; cbn; split_and!; try done; try (by intros ?; eauto). by apply echo_say_ok.
  - case_match; cbn; split_and!; try done; try (by intros ?; eauto). by apply echo_say_ok.
Qed.

#[export] Instance code_inv : CodeInv in_loop server_ok.
Proof.
  split.
  - intros l m Hl Hm. by destruct (code_step_ok l m Hl Hm) as (? & ? & _).
  - intros l l' m Hl Hm Hl'. destruct (code_step_ok l m Hl Hm) as (_ & _ & Hlat).
    destruct l' as [i|i|i|i|i co|i]; try done;
      destruct Hl' as (c & Hc & Hs); by apply (Hlat i c).
Qed.

Definition mem0 : mem := Mem [] [] [Banner (Z.of_nat NUM_CONNS)].

(** Whatever the schedule, the echo server echoes to a connection only
    that connection's own messages: the text printed for connection [i] and
    number [s] is the one [sim_read] built from [i] and [s], although every
    connection is interrupted between reading and printing the next one. *)
Theorem echo_server_text `{Allocator, LinkMap} n (w : world point mem) (σ : alloc_state) :
  steps n (init_world σ mem0 (MLoop 0)) w →
  ∀ i s data, Echo i s data ∈ printed (w_user w) → data = echo_text i s ∧ 1 ≤ s.
Proof.
  intros Hs i s data Hin.
  destruct (user_holds in_loop server_ok n w σ mem0 (MLoop 0))
    as [Hok _]; [done|by repeat constructor|done|].
  unfold server_ok in Hok. rewrite Forall_forall in Hok. by apply Hok in Hin.
Qed.

#[local] Existing Instance MachineDemo.link.
Definition demo : world point mem := init_world heap0 mem0 (MLoop 0).

Lemma echo_server_text_witness :
  Echo 1 1 "hello from conn 1, msg 1" ∈ printed (w_user (default demo (go 60 demo)))
  ∧ "hello from conn 1, msg 1" = echo_text 1 1.
Proof.
  assert (Echo 1 1 "hello from conn 1, msg 1"
          ∈ printed (w_user (default demo (go 60 demo)))) as Hin.
  { apply list_elem_of_lookup. exists 5%nat. by vm_compute. }
  split; [exact Hin|].
  apply (echo_server_text (H := bump_allocator) 60 (default demo (go 60 demo)) heap0);
    [|exact Hin].
  apply (go_steps 60 demo). by vm_compute.
Defined.

Definition echoes_of (i : Z) (m : mem) : list Z :=
  omap (λ o, match o with Echo j s _ => if j =? i then Some s else None | _ => None end)
    (printed m).

(** The complete echo server: every connection gets its five echoes in
    order, all are closed, every coroutine and every byte is freed, and main
    returns. *)
Example echo_server_output :
  match exec 2000 demo with
  | Finished w =>
      (λ i, echoes_of i (w_user w)) <$> [1; 2; 3; 4] = replicate 4 [1; 2; 3; 4; 5]
      ∧ last (printed (w_user w)) = Some ServerDone
      ∧ w_objs w = ∅ ∧ w_blocks w = ∅
  | _ => False
  end.
Proof. by vm_compute. Qed.
End EchoServer.
