(* ===== verification/Bench.v ===== *)
(** * The benchmarks ([benchmarks/bench_*.c])

    The programs that measure: what they count and print as a total, without
    the clock readings that are only printed.  All fork and join ([ForkJoin]);
    the theorems are total: the benchmark ends, with the counters it should
    have, or is stopped by [MAX_COROUTINES]. *)

From stdpp Require Import gmap.
From S2P Require Import Prelude Ring Machine State RunQueue Api Demo User Buffers.
From S2P Require Import Threads Progress ForkJoin.

(** ** benchmarks/bench_yield.c *)

Module BenchYield.
(** [g_yields]; [n_yields] counts the calls of [co_yield], which the program
    only claims to know. *)
Record mem := Mem { g_yields : Z; n_yields : Z }.

Definition fn_worker : ptr := 1.

(** [worker], at the loop condition. *)
Inductive point : Set := WFor (i : Z).

Definition worker (l : point) (m : mem) : option (mem * ucall point) :=
  let '(WFor i) := l in
  if i <? g_yields m then
    i' ← cadd i 1;
    Some (Mem (g_yields m) (n_yields m + 1), UYield (WFor i'))
  else Some (m, UReturn).

#[export] Instance bodies : Bodies point (option mem) := {|
  body_step l := run_body (worker l);
  body_fn _ _ := WFor 0
|}.

(** main, after its arguments are known. *)
Definition todo (num_coroutines : nat) : list (ptr * ptr) := replicate num_coroutines (fn_worker, NULL).
Definition main : fj_point → ucall fj_point := fork_join 0 false.

(** The arguments, from what [atoi] makes of the command line; [None] when main
    prints how it is used. *)
Definition main_args (argv1 argv2 : option Z) : option (Z * Z) :=
  let num_coroutines := default 4 argv1 in
  let g_yields := default 100000 argv2 in
  if (num_coroutines <? 1) || (g_yields <? 1) then None else Some (num_coroutines, g_yields).

(** The total main prints. *)
Definition total_yields (num_coroutines yields : Z) : Z := wrap64 (num_coroutines * yields).

#[export] Instance leaf : LeafBodies point (option mem).
Proof. intros [i] [m|] z; [|done]. unfold body_step, bodies, run_body, worker, cadd. cbn. by repeat case_match; simplify_eq/=. Qed.

Section yields.
Variables (n : nat) (g : Z).
Hypothesis g_int : 0 ≤ g ≤ INT_MAX.

(** How often a coroutine has yielded. *)
Definition yields_of (loc : option point) : Z :=
  match loc with Some (WFor i) => i | None => g end.

Definition counted (locs : list (option point)) (m : mem) : Prop :=
  g_yields m = g ∧ length locs = n ∧ n_yields m = sumZ (yields_of <$> locs)
  ∧ Forall (λ loc, 0 ≤ yields_of loc ≤ g) locs.

#[export] Instance jobs : Jobs (λ locs, defined (counted locs)).
Proof using g_int.
  split. intros locs [m|] j [i] Hm Hj; [|done].
  destruct Hm as (Hg & Hn & Hs & Hf). pose proof (Forall_lookup_1 _ _ _ _ Hf Hj) as Hi. cbn in Hi.
  unfold body_step, bodies, run_body. cbn. rewrite Hg.
  destruct (Z.ltb_spec i g); [rewrite cadd_ok by (consts; lia)|]; cbn;
    (split_and!; [done|by rewrite length_insert| |apply Forall_insert; [done|cbn; lia]]);
    rewrite list_fmap_insert; cbn;
    erewrite (sumZ_insert _ _ i) by (by rewrite list_lookup_fmap, Hj); cbn; lia.
Qed.

Lemma yields0 : counted (start_of <$> todo n) (Mem g 0).
Proof using g_int.
  split_and!; [done|by unfold todo; rewrite length_fmap, length_replicate| |].
  - cbn. unfold todo. by induction n as [|k IH].
  - rewrite Forall_fmap. apply Forall_replicate. cbn. lia.
Qed.

Lemma yields_all m : counted (replicate n None) m → n_yields m = Z.of_nat n * g.
Proof using.
  intros (_ & _ & -> & _). by rewrite fmap_replicate, sumZ_replicate.
Qed.

Definition cost (l : point) (_ : option mem) : nat := let '(WFor i) := l in Z.to_nat (g - i).
Definition of_g (u : option mem) : Prop := match u with Some m => g_yields m = g | None => True end.

#[export] Instance body_cost : BodyCost cost of_g.
Proof using g_int.
  assert (∀ i m, g_yields m = g → worker (WFor i) m
    = if i <? g then i' ← cadd i 1; Some (Mem g (n_yields m + 1), UYield (WFor i'))
      else Some (m, UReturn)) as Hw by (intros i m Hm; cbn; by rewrite Hm).
  split.
  - intros [i] [m|] Hm; [|done]. cbn. unfold run_body. cbn [mbind option_bind].
    rewrite Hw by done. unfold cadd. by repeat case_match; simplify_eq/=.
  - intros [i] [m|] Hm; [|done]. cbn [body_step bodies]. unfold run_body. cbn [mbind option_bind].
    rewrite Hw by done. destruct (Z.ltb_spec i g); [|done].
    unfold cadd. destruct (in_int (i + 1)); cbn; [lia|done].
  - by intros l [i] u _.
Qed.

Lemma yields_cost num made u :
  main_cost cost (FCreate (todo num) made) u = (num * (Z.to_nat g + 2) + (length made + 3))%nat.
Proof using.
  erewrite main_cost_const; [unfold todo; by rewrite length_replicate|].
  apply Forall_replicate. cbn. by rewrite Z.sub_0_r.
Qed.
End yields.

(** [bench_yield] ends, for up to [MAX_COROUTINES] coroutines and any
    number of yields, and [co_yield] has been called as many times as the total
    it prints, unless [malloc] refuses a creation of
    this run and main gave up. *)
Theorem bench_yield_total `{Allocator, LinkMap} (num : nat) (g : Z) (σ : alloc_state) fuel :
  Z.of_nat num ≤ MAX_COROUTINES → 0 ≤ g ≤ INT_MAX →
  (5 * (3 * (num * (Z.to_nat g + 2) + 3) + 2) ≤ fuel)%nat →
  let w0 := init_world σ (Some (Mem g 0)) (inl (FCreate (todo num) [])) in
  let code := program main in
  match exec fuel w0 with
  | Finished w => refused_in w0 ∧ w_user w = Some (Mem g 0)
      ∨ ∃ m, w_user w = Some m ∧ n_yields m = total_yields (Z.of_nat num) g
  | _ => False
  end.
Proof.
  intros Hn Hg Hf.
  pose proof (jobs num g Hg) as HJ. pose proof (body_cost g Hg) as HC.
  pose proof (fj_checked_total 0 false (todo num) (Some (Mem g 0)) size_default
    ltac:(by unfold todo; rewrite length_replicate) ltac:(by apply Forall_replicate)
    (λ locs, defined (counted num g locs)) (yields0 num g Hg) (cost g) (of_g g) σ fuel
    ltac:(done)) as Ht.
  rewrite yields_cost in Ht. specialize (Ht Hf). unfold main.
  destruct (exec fuel _) as [w|e|w]; [|done..].
  destruct Ht as [Hw|Hw]; [by left|right]. destruct (w_user w) as [m|]; [|done].
  exists m. split; [done|]. unfold all_returned, todo in Hw. rewrite length_replicate in Hw.
  rewrite (yields_all _ _ _ Hw). unfold total_yields. consts. rewrite wrap64_small; [done|nia].
Qed.

(** The whole benchmark, whatever its arguments: it prints how it is used, or it
    ends and has yielded as often as it says, or it asks for more coroutines
    than the library allows and is stopped. *)
Theorem bench_yield_program `{Allocator, LinkMap} (argv1 argv2 : option Z) (σ : alloc_state) :
  from_option in_int true argv2 →
  match main_args argv1 argv2 with
  | None => default 4 argv1 < 1 ∨ default 100000 argv2 < 1
  | Some (n, g) =>
      let w0 := init_world σ (Some (Mem g 0)) (inl (FCreate (todo (Z.to_nat n)) [])) in
      let code := program main in
      ∃ enough, ∀ fuel, (enough ≤ fuel)%nat →
      match exec fuel w0 with
      | Finished w => refused_in w0 ∨ n ≤ MAX_COROUTINES ∧ n_yields <$> w_user w = Some (total_yields n g)
      | Crashed e => e = AssertTooMany ∧ MAX_COROUTINES < n
      | OutOfFuel _ => False
      end
  end.
Proof.
  intros Hi2. unfold main_args. destruct (_ || _) eqn:Hc.
  { apply orb_true_iff in Hc as [Hc%Z.ltb_lt|Hc%Z.ltb_lt]; [by left|by right]. }
  apply orb_false_iff in Hc as [Hn%Z.ltb_ge Hg%Z.ltb_ge].
  set (n := default 4 argv1) in *. set (g := default 100000 argv2) in *.
  assert (0 ≤ g ≤ INT_MAX) as Hg'.
  { split; [lia|]. unfold g. destruct argv2 as [x|]; cbn in *; [|by consts].
    apply Is_true_true, andb_true_iff in Hi2 as [_ Hi2%Z.leb_le]. done. }
  destruct (Z.le_gt_cases n MAX_COROUTINES) as [Hm|Hm].
  - exists (5 * (3 * (Z.to_nat n * (Z.to_nat g + 2) + 3) + 2))%nat. intros fuel Hf.
    pose proof (bench_yield_total (Z.to_nat n) g σ fuel ltac:(lia) Hg' Hf) as Ht. cbv zeta in Ht.
    destruct (exec fuel _) as [w|e|w]; [|done..].
    destruct Ht as [[Hr _]|(m & -> & Hy)]; [by left|right]. split; [done|]. cbn. rewrite Hy.
    by rewrite Z2Nat.id by lia.
  - exists (5 * (Z.to_nat n + 2))%nat. intros fuel Hf.
    pose proof (fj_checked_too_many 0 false (todo (Z.to_nat n)) (Some (Mem g 0)) σ fuel size_default
      ltac:(unfold todo; rewrite length_replicate; lia) ltac:(by apply Forall_replicate)
      ltac:(unfold todo; by rewrite length_replicate)) as Ht. cbv zeta in Ht.
    unfold main. destruct (exec fuel _) as [w|e|w]; [left; apply Ht|done|done].
Qed.

#[local] Existing Instance MachineDemo.link.
Lemma bench_yield_total_witness :
  let w0 := init_world heap0 (Some (Mem 4 0)) (inl (FCreate (todo 3) [])) in
  let code := program main in
  match exec 400 w0 with
  | Finished w => refused_in w0 ∧ w_user w = Some (Mem 4 0) ∨ ∃ m, w_user w = Some m ∧ n_yields m = total_yields 3 4
  | _ => False
  end.
Proof. apply (bench_yield_total (H := bump_allocator) 3 4 heap0 400); [done|by consts|by apply leb_complete]. Defined.
End BenchYield.

(** ** benchmarks/bench_scheduler.c

    [coroutine_t] and [co_scheduler] stand for [Coroutine] and [co_run]. *)

Module BenchScheduler.
(** The shared counter, and the field [yields_left] of each [WorkArgs]; the
    counter is a [uint64_t]. *)
Record mem := Mem { switch_count : Z; yields_left : list Z }.

Definition fn_worker : ptr := 1.

(** [worker_fn] on [&args\[j\]], at the loop condition. *)
Inductive point : Set := WLoop (j : Z).

Definition worker_fn (l : point) (m : mem) : option (mem * ucall point) :=
  let '(WLoop j) := l in
  left ← arr_get (yields_left m) j;
  left' ← cadd left (-1);
  args ← arr_set (yields_left m) j left';
  let m := Mem (wrap64 (switch_count m + 1)) args in
  if 0 <? left then Some (m, UYield (WLoop j)) else Some (m, UReturn).

#[export] Instance bodies : Bodies point (option mem) := {|
  body_step l := run_body (worker_fn l);
  body_fn _ arg := WLoop arg
|}.

(** [run_benchmark]: the coroutines, their arguments, and what it announces. *)
Definition todo (n_coros : nat) : list (ptr * ptr) := (λ j, (fn_worker, Z.of_nat j)) <$> seq 0 n_coros.
Definition mem0 (n_coros : nat) (yields_each : Z) : mem := Mem 0 (replicate n_coros yields_each).
Definition run_benchmark : fj_point → ucall fj_point := fork_join (16 * 1024) true.
Definition expected_switches (n_coros yields_each : Z) : Z := wrap64 (n_coros * yields_each).

(** The arguments of main, from what [atoi] makes of the command line; [None]
    when main prints how it is used. *)
Definition main_args (argv1 argv2 : option Z) : option (Z * Z) :=
  let n_coros := default 1000 argv1 in
  let yields_each := default 1000 argv2 in
  if (n_coros <=? 0) || (yields_each <=? 0) then None else Some (n_coros, yields_each).

Definition is_return_or_yield (c : ucall point) : bool :=
  match c with UReturn | UYield _ => true | _ => false end.

Lemma worker_calls l m m' c : worker_fn l m = Some (m', c) → is_return_or_yield c.
Proof.
  destruct l as [j]. cbn. destruct (arr_get _ j) as [left|]; [|done]. cbn.
  destruct (cadd left (-1)); [|done]. cbn. destruct (arr_set _ j _); [|done]. cbn.
  by destruct (0 <? left); intros [= _ <-].
Qed.

#[export] Instance leaf : LeafBodies point (option mem).
Proof.
  intros l [m|] z; [|done]. cbn. unfold run_body. cbn.
  destruct (worker_fn l m) as [[m' c]|] eqn:Hw; [|done].
  apply worker_calls in Hw. by destruct c.
Qed.

(** What a call of [worker_fn] does where its argument is in range. *)
Lemma worker_eq j m left :
  zlookup (yields_left m) j = Some left → INT_MIN < left ≤ INT_MAX →
  worker_fn (WLoop j) m
  = Some (Mem (wrap64 (switch_count m + 1)) (zinsert j (left - 1) (yields_left m)),
          if 0 <? left then UYield (WLoop j) else UReturn).
Proof.
  intros Hj Hl. cbn. unfold arr_get. rewrite Hj. cbn.
  rewrite cadd_ok by (consts; lia). cbn. rewrite arr_set_ok by by eapply zlookup_Some_lt.
  cbn. by destruct (0 <? left).
Qed.

Section switches.
Variables (n : nat) (y : Z).
Hypothesis y_int : 0 ≤ y ≤ INT_MAX.

(** Where coroutine [j] is, by its [yields_left]. *)
Definition at_left (j : nat) (loc : option point) (left : Z) : Prop :=
  match loc with Some (WLoop k) => k = Z.of_nat j ∧ 0 ≤ left ≤ y | None => left = -1 end.

Definition counted (locs : list (option point)) (m : mem) : Prop :=
  length locs = n ∧ length (yields_left m) = n
  ∧ switch_count m = wrap64 (sumZ ((λ left, y - left) <$> yields_left m))
  ∧ ∀ j loc left, locs !! j = Some loc → yields_left m !! j = Some left → at_left j loc left.

#[export] Instance jobs : Jobs (λ locs, defined (counted locs)).
Proof using y_int.
  split. intros locs u j l Hu Hj. destruct u as [m|]; [|done]. destruct Hu as (Hl & Hn & Hs & Ha).
  destruct (lookup_lt_is_Some_2 (yields_left m) j) as [left Hleft].
  { rewrite Hn, <- Hl. by eapply lookup_lt_Some. }
  pose proof (Ha _ _ _ Hj Hleft) as Hat. destruct l as [k]. destruct Hat as [-> Hle].
  cbn [body_step bodies]. unfold run_body. cbn [mbind option_bind].
  rewrite (worker_eq _ _ left) by (first [by rewrite zlookup_nat|consts; lia]).
  assert (zinsert (Z.of_nat j) (left - 1) (yields_left m) = <[j := left - 1]> (yields_left m)) as ->
    by (unfold zinsert; by rewrite (proj2 (Z.leb_le _ _)), Nat2Z.id by lia).
  destruct (Z.ltb_spec 0 left); cbn;
    (split_and!; cbn; [by rewrite length_insert|by rewrite length_insert| |]).
  1,3: rewrite Hs, list_fmap_insert, (sumZ_insert _ _ (y - left))
         by (by rewrite list_lookup_fmap, Hleft);
       unfold wrap64; rewrite Zplus_mod_idemp_l; f_equal; lia.
  all: intros i loc left' Hi Hil; apply list_lookup_insert_Some in Hi as [(<- & <- & Hlt)|[Hne Hi]];
    [rewrite list_lookup_insert_eq in Hil by lia; simplify_eq; cbn; lia
    |rewrite list_lookup_insert_ne in Hil by done; eauto].
Qed.

Lemma switches0 : counted (start_of <$> todo n) (mem0 n y).
Proof using y_int.
  unfold todo. split_and!.
  - by rewrite !length_fmap, length_seq.
  - cbn. by rewrite length_replicate.
  - cbn. by rewrite fmap_replicate, sumZ_replicate, Z.sub_diag, Z.mul_0_r.
  - cbn. intros j loc left Hj [-> Hn]%lookup_replicate. rewrite !list_lookup_fmap in Hj.
    rewrite lookup_seq_lt in Hj by done. injection Hj as <-. cbn. lia.
Qed.

Lemma switches_all m : counted (replicate n None) m → switch_count m = wrap64 (Z.of_nat n * (y + 1)).
Proof using.
  intros (_ & Hn & -> & Ha). f_equal.
  assert (yields_left m = replicate n (-1)) as ->.
  { symmetry. apply replicate_as_Forall. split; [done|]. apply Forall_lookup. intros j left Hj.
    symmetry. apply (Ha j None left); [|done]. apply lookup_replicate. split; [done|].
    rewrite <- Hn. by eapply lookup_lt_Some. }
  rewrite fmap_replicate, sumZ_replicate. lia.
Qed.
End switches.

(** Each coroutine has [yields_left] + 1 tests of its loop to go. *)
Definition cost (l : point) (u : option mem) : nat :=
  let '(WLoop j) := l in
  match u ≫= λ m, arr_get (yields_left m) j with
  | Some yl => Z.to_nat (yl + 1)
  | None => 0
  end.

Lemma worker_inv j m m' c :
  worker_fn (WLoop j) m = Some (m', c) →
  ∃ left, zlookup (yields_left m) j = Some left ∧ yields_left m' = zinsert j (left - 1) (yields_left m)
    ∧ c = if 0 <? left then UYield (WLoop j) else UReturn.
Proof.
  cbn. unfold arr_get. destruct (zlookup _ j) as [left|] eqn:Hj; [|done]. cbn.
  unfold cadd. destruct (in_int _); [|done]. cbn. unfold arr_set.
  destruct (in_bounds _ j); [|done]. cbn. exists left.
  destruct (0 <? left); by simplify_eq/=.
Qed.

#[export] Instance body_cost : BodyCost cost (λ _, True).
Proof.
  split; [done|..].
  - intros [j] [m|] _; [|done]. cbn [body_step bodies]. unfold run_body. cbn [mbind option_bind].
    destruct (worker_fn (WLoop j) m) as [[m' c]|] eqn:Hw; [|done].
    apply worker_inv in Hw as (left & Hj & Hm & ->). destruct (Z.ltb_spec 0 left); [|done].
    cbn. unfold arr_get. rewrite Hj, Hm, zlookup_zinsert_eq by by eapply zlookup_Some_lt. lia.
  - intros [j] [k] [m|] _; [|done]. cbn [body_step bodies]. unfold run_body. cbn [mbind option_bind].
    destruct (worker_fn (WLoop j) m) as [[m' c]|] eqn:Hw; [|cbn; lia].
    apply worker_inv in Hw as (left & Hj & Hm & _). cbn. unfold arr_get. rewrite Hm.
    destruct (decide (j = k)) as [->|Hjk]; [|by rewrite zlookup_zinsert_ne].
    rewrite Hj, zlookup_zinsert_eq by by eapply zlookup_Some_lt. lia.
Qed.

Lemma switches_cost n y made :
  main_cost cost (FCreate (todo n) made) (Some (mem0 n y))
  = (n * (Z.to_nat (y + 1) + 2) + (length made + 3))%nat.
Proof.
  erewrite main_cost_const; [unfold todo; by rewrite length_fmap, length_seq|].
  unfold todo. apply Forall_fmap, Forall_forall. intros j Hj%elem_of_seq. cbn.
  unfold arr_get. rewrite zlookup_nat, lookup_replicate_2 by lia. done.
Qed.

(** [bench_scheduler] ends and frees its coroutines, for up to
    [MAX_COROUTINES] of them; its counter of context switches is then
    [n * (yields + 1)], the final return of each counted, unless [malloc]
    refuses a creation of this run and main gave up. *)
Theorem bench_scheduler_total `{Allocator, LinkMap} (n : nat) (y : Z) (σ : alloc_state) fuel :
  Z.of_nat n ≤ MAX_COROUTINES → 0 ≤ y ≤ INT_MAX →
  (5 * (3 * (n * (Z.to_nat (y + 1) + 2) + 3) + 2) ≤ fuel)%nat →
  let w0 := init_world σ (Some (mem0 n y)) (inl (FCreate (todo n) [])) in
  let code := program run_benchmark in
  match exec fuel w0 with
  | Finished w => refused_in w0 ∧ w_user w = Some (mem0 n y)
      ∨ ∃ m, w_user w = Some m ∧ switch_count m = Z.of_nat n * (y + 1)
  | _ => False
  end.
Proof.
  intros Hn Hy Hf. pose proof (jobs n y Hy) as HJ.
  pose proof (fj_checked_total (16 * 1024) true (todo n) (Some (mem0 n y)) ltac:(by apply size_large)
    ltac:(by unfold todo; rewrite length_fmap, length_seq) ltac:(by apply Forall_fmap, Forall_true)
    (λ locs, defined (counted n y locs)) (switches0 n y Hy) cost _ σ fuel I) as Ht.
  rewrite switches_cost in Ht. specialize (Ht Hf). unfold run_benchmark.
  destruct (exec fuel _) as [w|e|w]; [|done..].
  destruct Ht as [Hw|Hw]; [by left|right]. destruct (w_user w) as [m|]; [|done].
  exists m. split; [done|]. unfold all_returned, todo in Hw. rewrite length_fmap, length_seq in Hw.
  rewrite (switches_all _ _ _ Hw). consts. rewrite wrap64_small; [done|nia].
Qed.

#[local] Existing Instance MachineDemo.link.
Lemma bench_scheduler_total_witness :
  let w0 := init_world heap0 (Some (mem0 3 4)) (inl (FCreate (todo 3) [])) in
  let code := program run_benchmark in
  match exec 400 w0 with
  | Finished w => refused_in w0 ∧ w_user w = Some (mem0 3 4) ∨ ∃ m, w_user w = Some m ∧ switch_count m = 3 * (4 + 1)
  | _ => False
  end.
Proof.
  apply (bench_scheduler_total (H := bump_allocator) 3 4 heap0 400);
    [done|by consts|by apply leb_complete].
Defined.

(** More coroutines than the library allows. *)
Lemma scheduler_too_many `{Allocator, LinkMap} (σ : alloc_state) n y fuel :
  MAX_COROUTINES < Z.of_nat n → (5 * (n + 2) ≤ fuel)%nat →
  let w0 := init_world σ (Some (mem0 n y)) (inl (FCreate (todo n) [])) in
  let code := program run_benchmark in
  match exec fuel w0 with
  | Crashed e => e = AssertTooMany
  | Finished w => refused_in w0 ∧ w_user w = Some (mem0 n y)
  | OutOfFuel _ => False
  end.
Proof.
  intros Hn Hf.
  apply fj_checked_too_many; unfold todo; rewrite ?length_fmap, ?length_seq;
    [by apply size_large|done|by apply Forall_fmap, Forall_true|done].
Qed.

(** The whole benchmark, whatever its arguments; [calloc] gives it the arrays.
    Without arguments it asks for 1000 coroutines and is stopped. *)
Theorem bench_scheduler_program `{Allocator, LinkMap} (argv1 argv2 : option Z) (σ : alloc_state) :
  from_option in_int true argv2 →
  match main_args argv1 argv2 with
  | None => default 1000 argv1 ≤ 0 ∨ default 1000 argv2 ≤ 0
  | Some (n, y) =>
      let w0 := init_world σ (Some (mem0 (Z.to_nat n) y)) (inl (FCreate (todo (Z.to_nat n)) [])) in
      let code := program run_benchmark in
      ∃ enough, ∀ fuel, (enough ≤ fuel)%nat →
      match exec fuel w0 with
      | Finished w => refused_in w0 ∨ n ≤ MAX_COROUTINES ∧ switch_count <$> w_user w = Some (n * (y + 1))
      | Crashed e => e = AssertTooMany ∧ MAX_COROUTINES < n
      | OutOfFuel _ => False
      end
  end.
Proof.
  intros Hi2. unfold main_args. destruct (_ || _) eqn:Hc.
  { apply orb_true_iff in Hc as [Hc%Z.leb_le|Hc%Z.leb_le]; [by left|by right]. }
  apply orb_false_iff in Hc as [Hn%Z.leb_gt Hg%Z.leb_gt].
  set (n := default 1000 argv1) in *. set (y := default 1000 argv2) in *.
  assert (0 ≤ y ≤ INT_MAX) as Hy.
  { split; [lia|]. unfold y. destruct argv2 as [x|]; cbn in *; [|by consts].
    apply Is_true_true, andb_true_iff in Hi2 as [_ Hi2%Z.leb_le]. done. }
  destruct (Z.le_gt_cases n MAX_COROUTINES) as [Hm|Hm].
  - exists (5 * (3 * (Z.to_nat n * (Z.to_nat (y + 1) + 2) + 3) + 2))%nat. intros fuel Hf.
    pose proof (bench_scheduler_total (Z.to_nat n) y σ fuel ltac:(lia) Hy Hf) as Ht. cbv zeta in Ht.
    destruct (exec fuel _) as [w|e|w]; [|done..].
    destruct Ht as [[Hr _]|(m & -> & Hs)]; [by left|right]. split; [done|]. cbn. rewrite Hs.
    by rewrite Z2Nat.id by lia.
  - exists (5 * (Z.to_nat n + 2))%nat. intros fuel Hf.
    pose proof (scheduler_too_many σ (Z.to_nat n) y fuel ltac:(lia) Hf) as Ht. cbv zeta in Ht.
    destruct (exec fuel _) as [w|e|w]; [left; apply Ht|done|done].
Qed.

Example default_too_many : main_args None None = Some (1000, 1000) ∧ MAX_COROUTINES < 1000.
Proof. done. Qed.
End BenchScheduler.

(** ** benchmarks/bench_context_switch.c

    The readings of the clock are a parameter; those of [main] around [co_run]
    are only printed. *)

Module BenchContextSwitch.
Section clock.
(** The [k]-th value of [now_ns()]. *)
Variable now_ns : nat → Z.

(** [BenchState], and how often the clock has been read. *)
Record mem := Mem {
  iters : Z;
  count : Z;
  samples : list Z;
  t_before : Z;
  readings : nat
}.

Definition fn_co_ping : ptr := 1.
Definition fn_co_pong : ptr := 2.

(** [co_ping] at its loop condition, after its first and after its second
    yield; [co_pong] at its loop condition. *)
Inductive point : Set := PFor (i : Z) | PBack (i : Z) | PBook (i : Z) | QFor (i : Z).

Definition ping_for (i : Z) (m : mem) : mem * ucall point :=
  if i <? iters m
  then (Mem (iters m) (count m) (samples m) (now_ns (readings m)) (S (readings m)), UYield (PBack i))
  else (m, UReturn).

Definition ping_back (i : Z) (m : mem) : option (mem * ucall point) :=
  let elapsed := wrap64 (now_ns (readings m) - t_before m) in
  ss ← arr_set (samples m) i elapsed;
  c ← ladd (count m) 1;
  Some (Mem (iters m) c ss (t_before m) (S (readings m)), UYield (PBook i)).

Definition step_point (l : point) (m : mem) : option (mem * ucall point) :=
  match l with
  | PFor i => Some (ping_for i m)
  | PBack i => ping_back i m
  | PBook i => i' ← ladd i 1; Some (ping_for i' m)
  | QFor i => if i <? iters m then i' ← ladd i 1; Some (m, UYield (QFor i')) else Some (m, UReturn)
  end.

#[export] Instance bodies : Bodies point (option mem) := {|
  body_step l := run_body (step_point l);
  body_fn fn _ := if fn =? fn_co_ping then PFor 0 else QFor 0
|}.

Definition todo : list (ptr * ptr) := [(fn_co_ping, NULL); (fn_co_pong, NULL)].
Definition main : fj_point → ucall fj_point := fork_join_with AtEnd 0 true.
Definition mem0 (n : nat) : mem := Mem (Z.of_nat n) 0 (replicate n 0) 0 0.

#[export] Instance leaf : LeafBodies point (option mem).
Proof.
  intros l [m|] z; [|done]. cbn. unfold run_body. cbn.
  destruct l as [i|i|i|i]; cbn; unfold ping_for, ping_back, ladd.
  - by destruct (i <? iters m).
  - destruct (arr_set _ i _); [|done]. cbn. by destruct (in_long _).
  - destruct (in_long (i + 1)); [|done]. cbn. by destruct (i + 1 <? iters m).
  - destruct (i <? iters m); [|done]. by destruct (in_long (i + 1)).
Qed.

Section rounds.
Variable n : nat.
Hypothesis n_long : Z.of_nat n ≤ LONG_MAX.

(** The latency of iteration [k]. *)
Definition latency (k : nat) : Z := wrap64 (now_ns (2 * k + 1) - now_ns (2 * k)).

(** What the first [k] iterations leave. *)
Record rounds (k : nat) (m : mem) : Prop := {
  rd_iters : iters m = Z.of_nat n;
  rd_count : count m = Z.of_nat k;
  rd_le : (k ≤ n)%nat;
  rd_samples : samples m = (latency <$> seq 0 k) ++ replicate (n - k) 0
}.

Definition ping_ok (loc : option point) (m : mem) : Prop :=
  match loc with
  | Some (PFor i) => ∃ k, i = Z.of_nat k ∧ rounds k m ∧ readings m = (2 * k)%nat
  | Some (PBack i) => ∃ k, i = Z.of_nat k ∧ (k < n)%nat ∧ rounds k m
      ∧ readings m = (2 * k + 1)%nat ∧ t_before m = now_ns (2 * k)
  | Some (PBook i) => ∃ k, i = Z.of_nat k ∧ (k < n)%nat ∧ rounds (S k) m
      ∧ readings m = (2 * S k)%nat
  | Some (QFor _) => False
  | None => rounds n m
  end.

Definition pong_ok (loc : option point) : Prop :=
  match loc with Some (QFor i) => 0 ≤ i ≤ Z.of_nat n | Some _ => False | None => True end.

Definition switching (locs : list (option point)) (m : mem) : Prop :=
  ∃ ping pong, locs = [ping; pong] ∧ ping_ok ping m ∧ pong_ok pong.

Lemma ping_for_ok k m :
  rounds k m → readings m = (2 * k)%nat →
  ∃ loc m', ping_for (Z.of_nat k) m = (m', match loc with Some l => UYield l | None => UReturn end)
    ∧ ping_ok loc m'.
Proof using.
  intros [Hi Hc Hk Hs] Hr. unfold ping_for. rewrite Hi. destruct (Z.ltb_spec (Z.of_nat k) (Z.of_nat n)).
  - exists (Some (PBack (Z.of_nat k))). eexists. split; [done|]. exists k. cbn. rewrite Hr.
    split_and!; [done|lia|done|lia|done].
  - exists None, m. assert (k = n) as -> by lia. by split.
Qed.

Lemma ping_back_ok k m :
  (k < n)%nat → rounds k m → readings m = (2 * k + 1)%nat → t_before m = now_ns (2 * k) →
  ∃ m', ping_back (Z.of_nat k) m = Some (m', UYield (PBook (Z.of_nat k)))
    ∧ ping_ok (Some (PBook (Z.of_nat k))) m'.
Proof using n_long.
  intros Hkn [Hi Hc Hk Hs] Hr Ht. unfold ping_back.
  assert (length (samples m) = n) as Hl.
  { rewrite Hs, length_app, length_fmap, length_seq, length_replicate. lia. }
  rewrite arr_set_ok by lia. cbn. rewrite ladd_ok by lia. cbn. eexists. split; [done|].
  exists k. cbn. rewrite Hr. split_and!; [done|done| |lia].
  split; cbn [iters count samples]; [done|lia|lia|]. rewrite Ht, Hs. unfold zinsert.
  rewrite (proj2 (Z.leb_le _ _)), Nat2Z.id by lia.
  rewrite insert_app_r_alt by (rewrite length_fmap, length_seq; lia).
  rewrite length_fmap, length_seq, Nat.sub_diag. destruct (n - k)%nat as [|d] eqn:Hd; [lia|].
  replace (n - S k)%nat with d by lia. rewrite seq_S, fmap_app. cbn [replicate insert list_insert].
  rewrite <- app_assoc. done.
Qed.

#[export] Instance jobs : Jobs (λ locs, defined (switching locs)).
Proof using n_long.
  split. intros locs u j l Hu Hj. destruct u as [m|]; [|done].
  destruct Hu as (ping & pong & -> & Hp & Hq). cbn [body_step bodies]. unfold run_body.
  cbn [mbind option_bind]. destruct j as [|[|j]]; cbn in Hj; [| |done]; injection Hj as ->.
  - destruct l as [i|i|i|i]; [| | |done].
    + destruct Hp as (k & -> & Hr & Hk). destruct (ping_for_ok k m Hr Hk) as (loc & m' & He & Hok).
      cbn. rewrite He. destruct loc; by eexists _, _.
    + destruct Hp as (k & -> & Hlt & Hr & Hk & Ht).
      destruct (ping_back_ok k m Hlt Hr Hk Ht) as (m' & He & Hok). cbn. rewrite He. by eexists _, _.
    + destruct Hp as (k & -> & Hlt & Hr & Hk). cbn. rewrite ladd_ok by lia. cbn.
      replace (Z.of_nat k + 1) with (Z.of_nat (S k)) by lia.
      destruct (ping_for_ok (S k) m Hr Hk) as (loc & m' & He & Hok).
      rewrite He. destruct loc; by eexists _, _.
  - destruct l as [i|i|i|i]; [done..|]. cbn in Hq |- *.
    assert (iters m = Z.of_nat n) as Hi.
    { destruct ping as [[i'|i'|i'|i']|]; cbn in Hp; try done; [| | |apply Hp];
        destruct Hp as (k & Hp); apply Hp. }
    rewrite Hi. destruct (Z.ltb_spec i (Z.of_nat n)); [|by eexists _, _].
    rewrite ladd_ok by lia. cbn. eexists _, _. split_and!; [done|done|cbn; lia].
Qed.

Definition cost (l : point) (_ : option mem) : nat :=
  match l with
  | PFor i => 3 * Z.to_nat (Z.of_nat n - i)
  | PBack i => 3 * Z.to_nat (Z.of_nat n - i) - 1
  | PBook i => 3 * Z.to_nat (Z.of_nat n - i) - 2
  | QFor i => Z.to_nat (Z.of_nat n - i)
  end.

Definition sized (u : option mem) : Prop :=
  match u with Some m => iters m = Z.of_nat n ∧ length (samples m) = n | None => True end.

#[export] Instance body_cost : BodyCost cost sized.
Proof.
  split; [| |done].
  - intros l u Hs. destruct u as [m|]; [destruct Hs as [Hi Hl]|done]. cbn [body_step bodies]. unfold run_body. cbn [mbind option_bind].
    destruct l as [i|i|i|i]; cbn; unfold ping_for, ping_back, ladd.
    + by destruct (i <? iters m).
    + unfold arr_set. destruct (in_bounds _ i); [|done]. cbn. destruct (in_long _); [|done].
      cbn. by rewrite length_zinsert.
    + destruct (in_long _); [|done]. cbn. by destruct (_ <? iters m).
    + destruct (i <? iters m); [|done]. by destruct (in_long _).
  - intros l u Hs. destruct u as [m|]; [destruct Hs as [Hi Hl]|done]. cbn [body_step bodies]. unfold run_body. cbn [mbind option_bind].
    destruct l as [i|i|i|i]; cbn; unfold ping_for, ping_back, ladd; rewrite ?Hi.
    + destruct (Z.ltb_spec i (Z.of_nat n)); [cbn; lia|done].
    + unfold arr_set. destruct (in_bounds _ i) eqn:Hb; [|done]. apply in_bounds_true in Hb. cbn.
      destruct (in_long _); [cbn; lia|done].
    + destruct (in_long _); [|done]. cbn. destruct (Z.ltb_spec (i + 1) (Z.of_nat n)); [cbn; lia|done].
    + destruct (Z.ltb_spec i (Z.of_nat n)); [|done]. destruct (in_long _); [cbn; lia|done].
Qed.
End rounds.
End clock.

(** [bench_context_switch] ends; then [count] is the number of iterations
    asked for and every sample has been written, the [k]-th with the time
    between the two readings of iteration [k]; for every allocator that
    refuses neither of the two creations of this run. *)
Theorem bench_context_switch_samples `{Allocator, LinkMap} (now_ns : nat → Z) (n : nat)
    (σ : alloc_state) fuel :
  Z.of_nat n ≤ LONG_MAX → (5 * (3 * (4 * n + 7) + 2) ≤ fuel)%nat →
  let w0 := init_world σ (Some (mem0 n)) (inl (FCreate todo [])) in
  let code := @program _ _ _ (bodies now_ns) main in
  ¬ refused_in w0 →
  match exec fuel w0 with
  | Finished w =>
      ∃ m, w_user w = Some m ∧ count m = iters m ∧ samples m = latency now_ns <$> seq 0 n
  | _ => False
  end.
Proof.
  intros Hn Hf w0 code Hr. pose proof (jobs now_ns n Hn) as HJ.
  assert (switching now_ns n (start_of (H := bodies now_ns) <$> todo) (mem0 n)) as H00.
  { eexists _, _. split_and!; [done| |cbn; lia]. exists 0%nat. split_and!; [done| |done].
    split; cbn; [done..|lia|]. by rewrite Nat.sub_0_r. }
  pose proof (fj_total (R := refused_in w0) (H1 := bodies now_ns) AtEnd 0 true todo (Some (mem0 n))
    (or_intror Hr) size_default ltac:(by consts) ltac:(by repeat constructor) (λ locs, defined (switching now_ns n locs))
    H00 (cost n) (sized n) σ fuel id) as Ht.
  specialize (Ht ltac:(by split; [|apply length_replicate])).
  assert (main_cost (H := bodies now_ns) (cost n) (FCreate todo []) (Some (mem0 n)) = 4 * n + 7)%nat
    as Hc by (cbn; lia).
  rewrite Hc in Ht. specialize (Ht Hf). unfold w0, code, main.
  destruct (exec fuel _) as [w|e|w]; [|done..].
  destruct Ht as [[Hw _]|Hw]; [by destruct (Hr Hw)|]. destruct (w_user w) as [m|]; [|done].
  exists m. split; [done|]. destruct Hw as (ping & pong & He & Hp & _). injection He as <- <-.
  destruct Hp as [Hi Hct Hk Hs]. split; [congruence|]. by rewrite Hs, Nat.sub_diag, app_nil_r.
Qed.

(** [now_ns], from the seconds and nanoseconds that [clock_gettime] stores. *)
Definition clock_ns (ts : Z * Z) : Z := wrap64 (wrap64 (wrap64 ts.1 * 1000000000) + wrap64 ts.2).

(** A reading of a clock that has run for less than five centuries. *)
Definition reading (ts : Z * Z) : Prop := 0 ≤ ts.1 < 2 ^ 34 ∧ 0 ≤ ts.2 < 1000000000.

Lemma clock_exact ts : reading ts → clock_ns ts = ts.1 * 1000000000 + ts.2.
Proof.
  intros [Hs Hn]. unfold clock_ns. rewrite (wrap64_small ts.1) by lia.
  rewrite (wrap64_small (ts.1 * _)) by lia. rewrite (wrap64_small ts.2) by lia. apply wrap64_small. lia.
Qed.

(** The samples are the nanoseconds between the two readings of the clock: the
    unsigned arithmetic does not wrap if the clock does not go back. *)
Theorem latency_exact (clock : nat → Z * Z) k :
  let ts := clock (2 * k)%nat in let ts' := clock (2 * k + 1)%nat in
  reading ts → reading ts' → ts.1 < ts'.1 ∨ ts.1 = ts'.1 ∧ ts.2 ≤ ts'.2 →
  latency (λ j, clock_ns (clock j)) k = (ts'.1 - ts.1) * 1000000000 + (ts'.2 - ts.2).
Proof.
  intros ts ts' Hr Hr' Hle. unfold latency. fold ts ts'. rewrite !clock_exact by done.
  destruct Hr as [Hs Hn], Hr' as [Hs' Hn']. rewrite wrap64_small; lia.
Qed.

#[local] Existing Instance MachineDemo.link.
Lemma bench_context_switch_samples_witness :
  let w0 := init_world heap0 (Some (mem0 3)) (inl (FCreate todo [])) in
  let code := @program _ _ _ (bodies (λ k, Z.of_nat (k * k))) main in
  match exec 400 w0 with
  | Finished w => ∃ m, w_user w = Some m ∧ count m = iters m ∧ samples m = [1; 5; 9]
  | _ => False
  end.
Proof.
  apply (bench_context_switch_samples (H := bump_allocator) (λ k, Z.of_nat (k * k)) 3 heap0 400);
    [done|by apply leb_complete|]. apply (refuses_spec 400). by vm_compute.
Defined.

(** main's argument, from what [atol] makes of the command line. *)
Definition main_args (argv1 : option Z) : option Z :=
  match argv1 with
  | None => Some 10000000
  | Some iters => if iters <=? 0 then None else Some iters
  end.

(** [print_stats], the part in integers: the least and the greatest sample and
    the sum, from [UINT64_MAX] and 0. *)
Definition UINT64_MAX : Z := 2 ^ 64 - 1.
Definition stats (samples : list Z) : Z * Z * Z :=
  fold_left (λ '(lo, hi, sum) x,
    (if x <? lo then x else lo, if hi <? x then x else hi, wrap64 (sum + x)))
    samples (UINT64_MAX, 0, 0).

Lemma stats_bounds samples x :
  Forall (λ x, 0 ≤ x ≤ UINT64_MAX) samples → x ∈ samples →
  let '(lo, hi, sum) := stats samples in lo ≤ x ≤ hi ∧ sum = wrap64 (sumZ samples).
Proof.
  intros Hf Hx. unfold stats.
  assert (∀ l lo hi sum, let '(lo', hi', sum') := fold_left (λ '(lo, hi, sum) x,
      (if x <? lo then x else lo, if hi <? x then x else hi, wrap64 (sum + x))) l (lo, hi, sum) in
    lo' ≤ lo ∧ hi ≤ hi' ∧ (∀ y, y ∈ l → lo' ≤ y ≤ hi')
    ∧ (sum = wrap64 sum → sum' = wrap64 (sum + sumZ l))) as Hl.
  { induction l as [|z l IH]; intros lo hi sum; cbn.
    - split_and!; [lia..|by intros y ?%elem_of_nil|]. by rewrite Z.add_0_r.
    - specialize (IH (if z <? lo then z else lo) (if hi <? z then z else hi) (wrap64 (sum + z))).
      destruct (fold_left _ _ _) as [[lo' hi'] sum']. destruct IH as (H1 & H2 & H3 & H4).
      destruct (Z.ltb_spec z lo), (Z.ltb_spec hi z); (split_and!; [lia..| |]).
      all: try (intros y [->|Hy]%elem_of_cons; [lia|by apply H3]).
      all: intros _; rewrite H4 by (unfold wrap64; by rewrite Z.mod_mod);
        unfold wrap64; rewrite Zplus_mod_idemp_l; f_equal; unfold sumZ; lia. }
  specialize (Hl samples UINT64_MAX 0 0). destruct (fold_left _ _ _) as [[lo hi] sum].
  destruct Hl as (_ & _ & H3 & H4). split; [by apply H3|]. by apply H4.
Qed.
End BenchContextSwitch.

(** ** benchmarks/bench_memory.c

    [co_id_t] stands for the pointer that [co_create] returns, and a negative
    one for null; the clock and the resident set size are only printed. *)

Module BenchMemory.
Inductive point : Set := Noop.

Definition fn_noop_coro : ptr := 1.

#[export] Instance bodies : Bodies point unit := {|
  body_step _ u := (UReturn, u);
  body_fn _ _ := Noop
|}.

#[export] Instance leaf : LeafBodies point unit.
Proof. by intros [] [] z. Qed.

Definition stack_bytes (stack_kb : Z) : Z := wrap64 (stack_kb * 1024).

(** [bench_bulk_create]: all created, then run. *)
Definition bench_bulk_create (stack_kb : Z) : fj_point → ucall fj_point :=
  fork_join (stack_bytes stack_kb) false.
Definition todo (n : nat) : list (ptr * ptr) := replicate n (fn_noop_coro, NULL).

(** [bench_sequential]: each created and run before the next; the loop
    condition, after a creation, and after its failure. *)
Inductive seq_point : Set := SLoop (i : Z) | SMade (i : Z) | SFail.

Definition bench_sequential (stack_kb n : Z) (m : seq_point) : ucall seq_point :=
  match m with
  | SLoop i =>
      if i <? n
      then UCreate fn_noop_coro NULL (stack_bytes stack_kb)
             (λ p, if p =? NULL then SFail else SMade i)
      else UReturn
  | SMade i => URun (SLoop (i + 1))
  | SFail => UReturn
  end.

(** main's table: the sizes of the stacks in KB and the numbers of coroutines,
    created all at once, then one at a time. *)
Definition bulk_rows : list (Z * Z) :=
  [(8, 1000); (16, 1000); (32, 1000); (64, 1000); (128, 1000); (256, 500); (512, 200); (1024, 100)].
Definition sequential_rows : list (Z * Z) := [(64, 100); (64, 500); (64, 1000); (64, 5000)].

(** A row of main's table that the library can run ends. *)
Lemma bulk_small `{Allocator, LinkMap} (kb : Z) (n : nat) (σ : alloc_state) fuel :
  0 < kb < 2 ^ 50 → Z.of_nat n ≤ MAX_COROUTINES → (5 * (3 * (n * 2 + 3) + 2) ≤ fuel)%nat →
  let w0 := init_world σ () (inl (FCreate (todo n) [])) in
  let code := program (bench_bulk_create kb) in
  match exec fuel w0 with
  | Finished _ => True
  | _ => False
  end.
Proof.
  intros Hkb Hn Hf.
  assert (Jobs (H := bodies) (λ _ _, True)) as HJ by (split; by intros locs u j [] _ _).
  assert (BodyCost (H := bodies) (λ _ _, 0%nat) (λ _, True)) as HC by by split.
  pose proof (fj_checked_total (stack_bytes kb) false (todo n) ()) as Ht.
  specialize (Ht ltac:(unfold stack_bytes; rewrite (wrap64_small (kb * 1024)) by lia;
    apply size_large; lia) ltac:(unfold todo; by rewrite length_replicate)
    ltac:(by apply Forall_replicate) (λ _ _, True) HJ I (λ _ _, 0%nat) (λ _, True) HC σ fuel I).
  rewrite (main_cost_const _ _ _ _ 0%nat) in Ht by by apply Forall_true.
  unfold todo in Ht at 1. rewrite length_replicate in Ht. specialize (Ht Hf).
  unfold bench_bulk_create. by destruct (exec fuel _).
Qed.

(** The first row of [bench_memory], 1000 coroutines with stacks of 8 KB,
    is stopped by the assertion of [co_create], unless [malloc] refuses a creation
    of this run, and so is every row of more than [MAX_COROUTINES]. *)
Lemma bench_memory_aborts `{Allocator, LinkMap} (kb : Z) (n : nat) (σ : alloc_state) fuel :
  0 < kb < 2 ^ 50 → MAX_COROUTINES < Z.of_nat n → (5 * (n + 2) ≤ fuel)%nat →
  let w0 := init_world σ () (inl (FCreate (todo n) [])) in
  let code := program (bench_bulk_create kb) in
  match exec fuel w0 with
  | Crashed e => e = AssertTooMany
  | Finished _ => refused_in w0
  | OutOfFuel _ => False
  end.
Proof.
  intros Hkb Hn Hf. pose proof (fj_checked_too_many (stack_bytes kb) false (todo n) () σ fuel) as Ht.
  specialize (Ht ltac:(unfold stack_bytes; rewrite (wrap64_small (kb * 1024)) by lia;
    apply size_large; lia) ltac:(unfold todo; by rewrite length_replicate)
    ltac:(by apply Forall_replicate)
    ltac:(unfold todo; by rewrite length_replicate)).
  unfold bench_bulk_create. destruct (exec fuel _); [apply Ht|done|done].
Qed.

#[local] Existing Instance MachineDemo.link.

(** Coroutines are never unregistered, so creating them one at a time does not
    help: the 513th is refused. *)
Example sequential_aborts :
  let w0 := init_world heap0 () (inl (SLoop 0)) in
  let code := program (bench_sequential 64 600) in
  match exec (Z.to_nat 6000) w0 with
  | Crashed e => e = AssertTooMany
  | _ => False
  end.
Proof. by vm_compute. Qed.
End BenchMemory.
