(* ===== verification/Pipeline.v ===== *)
(** * The pipeline ([examples/pipeline.c])

    Three stages joined by two channels of one slot, on which they wait by
    yielding in a loop.  Nothing but the order of the turns makes these loops
    end, so the program is verified with [Rounds]: [pipeline_total] gives its
    exact output for every number of values.  Main calls [co_spawn], which
    [coroutine.h] does not declare; it stands for [co_create]. *)

From stdpp Require Import gmap.
From S2P Require Import Prelude Ring Machine State RunQueue Api Demo User Buffers.
From S2P Require Import Threads Progress ForkJoin Rounds.

Module Pipeline.
Record Channel := MkChannel { value : Z; ready : bool }.

(** What the stages print. *)
Inductive out : Set := Emit (i : Z) | Double (val twice : Z) | Received (val total : Z).

(** main's two channels, [kctx.total] and the output. *)
Record mem := Mem {
  src_to_xfm : Channel;
  xfm_to_snk : Channel;
  total : Z;
  printed : list out
}.

Definition set_src (c : Channel) (m : mem) : mem :=
  Mem c (xfm_to_snk m) (total m) (printed m).
Definition set_snk (c : Channel) (m : mem) : mem :=
  Mem (src_to_xfm m) c (total m) (printed m).
Definition say (o : out) (m : mem) : mem :=
  Mem (src_to_xfm m) (xfm_to_snk m) (total m) (printed m ++ [o]).

(** [val * 2] *)
Definition twice (val : Z) : option Z := if in_int (val * 2) then Some (val * 2) else None.

(** [source_fn], of [ctx->n] numbers: the loop condition, the wait for the slot
    and the wait before the sentinel; [transform_fn]: the wait for input, for
    the output slot and before the sentinel; [sink_fn]: its start, its wait. *)
Inductive point : Set :=
| SFor (n i : Z) | SWait (n i : Z) | SEof
| TRead | TPut (val : Z) | TEof
| KStart | KRead.

Definition source_emit (n i : Z) (m : mem) : option (mem * ucall point) :=
  if ready (src_to_xfm m) then Some (m, UYield (SWait n i))
  else
    let m := set_src (MkChannel i true) (say (Emit i) m) in
    i' ← cadd i 1;
    Some (m, UYield (SFor n i')).

Definition source_eof (m : mem) : option (mem * ucall point) :=
  if ready (src_to_xfm m) then Some (m, UYield SEof)
  else Some (set_src (MkChannel (-1) true) m, UReturn).

Definition transform_put (val : Z) (m : mem) : option (mem * ucall point) :=
  if ready (xfm_to_snk m) then Some (m, UYield (TPut val))
  else
    d ← twice val;
    Some (set_snk (MkChannel d true) m, UYield TRead).

Definition transform_eof (m : mem) : option (mem * ucall point) :=
  if ready (xfm_to_snk m) then Some (m, UYield TEof)
  else Some (set_snk (MkChannel (-1) true) m, UReturn).

Definition transform_read (m : mem) : option (mem * ucall point) :=
  if negb (ready (src_to_xfm m)) then Some (m, UYield TRead)
  else
    let val := value (src_to_xfm m) in
    let m := set_src (MkChannel val false) m in
    if val <? 0 then transform_eof m
    else
      d ← twice val;
      transform_put val (say (Double val d) m).

Definition sink_read (m : mem) : option (mem * ucall point) :=
  if negb (ready (xfm_to_snk m)) then Some (m, UYield KRead)
  else
    let val := value (xfm_to_snk m) in
    let m := set_snk (MkChannel val false) m in
    if val <? 0 then Some (m, UReturn)
    else
      t ← cadd (total m) val;
      Some (say (Received val t) (Mem (src_to_xfm m) (xfm_to_snk m) t (printed m)),
            UYield KRead).

Definition step_point (l : point) (m : mem) : option (mem * ucall point) :=
  match l with
  | SFor n i => if i <? n then source_emit n i m else source_eof m
  | SWait n i => source_emit n i m
  | SEof => source_eof m
  | TRead => transform_read m
  | TPut val => transform_put val m
  | TEof => transform_eof m
  | KStart => sink_read (Mem (src_to_xfm m) (xfm_to_snk m) 0 (printed m))
  | KRead => sink_read m
  end.

(** Functions 1, 2 and 3 are the stages; the argument of the source stands for
    the number in its context. *)
#[export] Instance bodies : Bodies point (option mem) := {|
  body_step l := run_body (step_point l);
  body_fn fn arg := if fn =? 1 then SFor arg 0 else if fn =? 2 then TRead else KStart
|}.

(** main: it does not look at what [co_spawn] returns, and frees nothing;
    [kctx.total] is zero until the sink starts. *)
Definition main : fj_point → ucall fj_point := fork_join_with Never 65536 false.
Definition todo (n : Z) : list (ptr * ptr) := [(1, n); (2, NULL); (3, NULL)].
Definition mem0 : mem := Mem (MkChannel 0 false) (MkChannel 0 false) 0 [].

Lemma twice_ok val : INT_MIN ≤ val * 2 ≤ INT_MAX → twice val = Some (val * 2).
Proof.
  intros Hv. unfold twice, in_int. by rewrite (proj2 (Z.leb_le _ _)), (proj2 (Z.leb_le _ _)) by lia.
Qed.

#[export] Instance pipeline_yields : YieldBodies point (option mem).
Proof.
  intros l u. apply run_body_yields. intros m m' c Hs.
  destruct l; cbn in Hs;
    unfold source_emit, source_eof, transform_read, transform_put, transform_eof, sink_read in Hs;
    body_calls.
Qed.

(** ** The turns *)

(** What the stages print for the [i]-th value, and the state after [i] of
    them. *)
Definition lines (i : Z) : list out := [Emit i; Double i (i * 2); Received (i * 2) (i * (i + 1))].

Definition passed (i : Z) (m : mem) : Prop :=
  ∃ v w, m = Mem (MkChannel v false) (MkChannel w false) (i * (i - 1)) (seqZ 0 i ≫= lines).

Definition sink_point (i : Z) : point := if i =? 0 then KStart else KRead.

Lemma lines_snoc i : 0 ≤ i → seqZ 0 (i + 1) ≫= lines = (seqZ 0 i ≫= lines) ++ lines i.
Proof.
  intros Hi. rewrite seqZ_app by lia. rewrite bind_app.
  by replace (seqZ (0 + i) 1) with [i] by (cbn; f_equal; lia).
Qed.

Lemma yield_turn l q m m' l' :
  step_point l m = Some (m', UYield l') → turn (l :: q) (Some m) = Some (q ++ [l'], Some m').
Proof. intros Hs. unfold turn. cbn [body_step bodies]. unfold run_body. cbn [mbind option_bind]. by rewrite Hs. Qed.

Lemma return_turn l q m m' :
  step_point l m = Some (m', UReturn) → turn (l :: q) (Some m) = Some (q, Some m').
Proof. intros Hs. unfold turn. cbn [body_step bodies]. unfold run_body. cbn [mbind option_bind]. by rewrite Hs. Qed.

(** The stretches of the stages when it is their turn. *)
Lemma source_value n i v c t p :
  0 ≤ i < n → i + 1 ≤ INT_MAX →
  step_point (SFor n i) (Mem (MkChannel v false) c t p)
  = Some (Mem (MkChannel i true) c t (p ++ [Emit i]), UYield (SFor n (i + 1))).
Proof.
  intros Hi Hm. unfold step_point. rewrite (proj2 (Z.ltb_lt _ _)) by lia.
  unfold source_emit. cbn [ready src_to_xfm]. by rewrite cadd_ok by (consts; lia).
Qed.

Lemma transform_value i v t p :
  0 ≤ i → i * 2 ≤ INT_MAX →
  step_point TRead (Mem (MkChannel i true) (MkChannel v false) t p)
  = Some (Mem (MkChannel i false) (MkChannel (i * 2) true) t (p ++ [Double i (i * 2)]), UYield TRead).
Proof.
  intros Hi Hm. unfold step_point, transform_read. cbn [ready value src_to_xfm negb].
  rewrite (proj2 (Z.ltb_ge _ _)), !twice_ok by (consts; lia). cbn [mbind option_bind].
  unfold transform_put. cbn [ready xfm_to_snk set_src say]. by rewrite twice_ok by (consts; lia).
Qed.

Lemma sink_value i c p :
  0 ≤ i → (i + 1) * i ≤ INT_MAX →
  step_point (sink_point i) (Mem c (MkChannel (i * 2) true) (i * (i - 1)) p)
  = Some (Mem c (MkChannel (i * 2) false) ((i + 1) * i) (p ++ [Received (i * 2) (i * (i + 1))]),
          UYield KRead).
Proof.
  intros Hi Hm.
  assert (step_point (sink_point i) (Mem c (MkChannel (i * 2) true) (i * (i - 1)) p)
    = sink_read (Mem c (MkChannel (i * 2) true) (i * (i - 1)) p)) as ->.
  { unfold sink_point. by destruct (Z.eqb_spec i 0) as [->|]. }
  unfold sink_read. cbn [ready value xfm_to_snk negb]. rewrite (proj2 (Z.ltb_ge _ _)) by lia.
  cbn [total set_snk]. rewrite cadd_ok by (consts; nia).
  replace (i * (i - 1) + i * 2) with ((i + 1) * i) by lia.
  by replace (i * (i + 1)) with ((i + 1) * i) by lia.
Qed.

(** One value goes through the stages in three turns. *)
Lemma round_value n i m k :
  0 ≤ i < n → n * (n - 1) ≤ INT_MAX → passed i m →
  ∃ m', passed (i + 1) m'
    ∧ round_robin (3 + k) [SFor n i; TRead; sink_point i] (Some m)
      = round_robin k [SFor n (i + 1); TRead; sink_point (i + 1)] (Some m').
Proof.
  intros Hi Hn (v & w & ->).
  assert ((i + 1) * i ≤ n * (n - 1)) by nia.
  assert (i * 2 ≤ (i + 1) * i) by (destruct (Z.eq_dec i 0); nia).
  eexists. split; cycle 1.
  - cbn [Nat.add].
    erewrite round_robin_turn by (apply yield_turn, source_value; consts; nia). cbn [app].
    erewrite round_robin_turn by (apply yield_turn, transform_value; lia). cbn [app].
    erewrite round_robin_turn by (apply yield_turn, sink_value; lia). cbn [app].
    unfold sink_point. by rewrite (proj2 (Z.eqb_neq (i + 1) 0)) by lia.
  - exists i, (i * 2). f_equal; [lia|]. rewrite lines_snoc by lia. by rewrite <- !app_assoc.
Qed.

(** The sentinel goes through them in three more. *)
Definition final (n : Z) : mem :=
  Mem (MkChannel (-1) false) (MkChannel (-1) false) (n * (n - 1)) (seqZ 0 n ≫= lines).

Lemma round_eof n m :
  passed n m → round_robin 3 [SFor n n; TRead; sink_point n] (Some m) = Some (Some (final n)).
Proof.
  intros (v & w & ->).
  erewrite round_robin_turn; cycle 1.
  { apply return_turn. unfold step_point. by rewrite Z.ltb_irrefl. }
  erewrite round_robin_turn by (by apply return_turn).
  rewrite (round_robin_turn _ _ _ [] (Some (final n))); [done|]. apply return_turn. unfold sink_point.
  by destruct (Z.eqb_spec n 0) as [->|].
Qed.

Lemma rounds_values n i m k :
  0 ≤ i → n = i + Z.of_nat k → n * (n - 1) ≤ INT_MAX → passed i m →
  round_robin (3 * k + 3) [SFor n i; TRead; sink_point i] (Some m) = Some (Some (final n)).
Proof.
  revert i m. induction k as [|k IH]; intros i m Hi Hk Hn Hm.
  - assert (i = n) as -> by lia. by apply round_eof.
  - destruct (round_value n i m (3 * k + 3) ltac:(lia) Hn Hm) as (m' & Hm' & Hr).
    replace (3 * S k + 3)%nat with (3 + (3 * k + 3))%nat by lia. rewrite Hr.
    apply IH; [lia|lia|done|done].
Qed.

(** C28: The pipeline, for any number [n] of values whose running sum fits an
    [int] and any allocator: the program ends, within 30 transitions for each
    value and 75 more, and it has printed, value after value, the three lines
    that its header gives, ending with the sum [n * (n - 1)]; unless [malloc]
    refuses one of the three creations of the run, which main does not check. *)
Theorem pipeline_total `{Allocator, LinkMap} (n : Z) (σ : alloc_state) fuel :
  let w0 := init_world σ (Some mem0) (inl (FCreate (todo n) [])) in
  let code := program main in
  0 ≤ n → n * (n - 1) ≤ INT_MAX → 30 * n + 75 ≤ Z.of_nat fuel → ¬ refused_in w0 →
  match exec fuel w0 with
  | Finished w => w_user w = Some (final n)
  | _ => False
  end.
Proof.
  intros w0 code Hn Hm Hf Hr.
  pose proof (rounds_total (R := refused_in w0) Never 65536 false (todo n) (Some mem0)) as Ht.
  specialize (Ht ltac:(by right) ltac:(by apply size_large) ltac:(by consts)
    ltac:(by repeat constructor) σ (3 * Z.to_nat n + 3)%nat (Some (final n)) fuel id).
  specialize (Ht ltac:(apply (rounds_values n 0 mem0 (Z.to_nat n)); [lia|lia|done|by exists 0, 0])
    ltac:(cbn [length todo]; lia)).
  unfold w0, code, main. destruct (exec fuel _) as [w|e|w]; [|done..].
  by destruct Ht as [[Href _]|Ht].
Qed.

#[local] Existing Instance MachineDemo.link.
#[local] Instance demo_code : UserCode (fj_point + point) (option mem) := program main.
Definition demo : world (fj_point + point) (option mem) :=
  init_world heap0 (Some mem0) (inl (FCreate (todo 10) [])).

(** The demo, with [n] = 10: [malloc] refuses nothing, and the sum is 90. *)
Lemma pipeline_not_refused : ¬ refused_in demo.
Proof. apply (refuses_spec 400). by vm_compute. Qed.

Lemma pipeline_total_witness :
  match exec 400 demo with
  | Finished w => w_user w = Some (final 10)
  | _ => False
  end ∧ total (final 10) = 90.
Proof.
  split; [|done]. apply (pipeline_total (H := bump_allocator) 10 heap0 400); [done..|].
  apply pipeline_not_refused.
Defined.
End Pipeline.
