(* ===== verification/Staged.v ===== *)
(** * Programs in stages

    [examples/task_graph.c], whose runs [Graph] and [GraphRun] reason about, and
    [examples/timer_coroutine.c]: the order in which the coroutines start is
    part of what they do, and main fixes it.  Their mains call [co_run_all] and
    a [co_create] of two arguments, which [coroutine.h] does not declare; they
    stand for [co_create] and [co_run]. *)

From stdpp Require Import gmap.
From S2P Require Import Prelude Ring Machine State RunQueue Api Demo User Buffers.

(** ** examples/task_graph.c *)

Module TaskGraph.
Definition MAX_TASKS : Z := 16.
Definition MAX_DEPS : Z := 8.
Definition MAX_NAME : Z := 32.

(** The work functions of the file, behind [t->work]. *)
Inductive work_fn : Set :=
| work_none | work_fetch_data | work_parse_json | work_fetch_config | work_validate
| work_enrich | work_write_output.

Record Task := MkTask {
  name : string;
  dep_ids : list Z;
  dep_count : Z;
  deps_remaining : Z;
  id : Z;
  work : work_fn
}.

(** What a task prints: its first and last line, and those of its work. *)
Inductive out : Set := Starting (id : Z) | Begun (id : Z) | Ended (id : Z) | Finished (id : Z).

#[export] Instance out_eq_dec : EqDecision out.
Proof. solve_decision. Defined.

Record mem := Mem { g_tasks : list Task; g_task_count : Z; printed : list out }.

Definition say (o : out) (m : mem) : mem :=
  Mem (g_tasks m) (g_task_count m) (printed m ++ [o]).

(** Static storage. *)
Definition mem0 : mem :=
  Mem (replicate (Z.to_nat MAX_TASKS)
         (MkTask "" (replicate (Z.to_nat MAX_DEPS) 0) 0 0 0 work_none)) 0 [].

(** The registry with the new task, and its identifier. *)
Definition task_register (nm : string) (w : work_fn) (m : mem) : option (mem * Z) :=
  let i := g_task_count m in
  n ← cadd i 1;
  t ← arr_get (g_tasks m) i;
  ts ← arr_set (g_tasks m) i
         (MkTask (String.substring 0 (Z.to_nat (MAX_NAME - 1)) nm) (dep_ids t) 0 0 i w);
  Some (Mem ts n (printed m), i).

Definition task_add_dep (task_id dep_id : Z) (m : mem) : option mem :=
  t ← arr_get (g_tasks m) task_id;
  ds ← arr_set (dep_ids t) (dep_count t) dep_id;
  n ← cadd (dep_count t) 1;
  ts ← arr_set (g_tasks m) task_id
         (MkTask (name t) ds n (deps_remaining t) (id t) (work t));
  Some (Mem ts (g_task_count m) (printed m)).

Definition set_remaining (r : Z) (t : Task) : Task :=
  MkTask (name t) (dep_ids t) (dep_count t) r (id t) (work t).

(** The tasks below [g_task_count]. *)
Definition task_graph_finalize (m : mem) : mem :=
  Mem (imap (λ i t, if Z.of_nat i <? g_task_count m
                    then set_remaining (dep_count t) t else t) (g_tasks m))
    (g_task_count m) (printed m).

(** How often each work function yields between its two lines; [work_none] is
    the null pointer. *)
Definition work_yields (w : work_fn) : option nat :=
  match w with
  | work_none => None
  | work_fetch_data => Some 3 | work_parse_json => Some 2 | work_fetch_config => Some 1
  | work_validate => Some 2 | work_enrich => Some 3 | work_write_output => Some 2
  end%nat.

(** [task_coroutine] on [&g_tasks\[self\]]: at its start, in the loop of its
    work function with the yields left, and in the notification loop. *)
Inductive point : Set := TStart (self : Z) | TWork (self : Z) (yields : nat) | TNotify (self i : Z).

Definition fn_task_coroutine : ptr := 1.

Definition work_loop (self : Z) (yields : nat) (m : mem) : option (mem * ucall point) :=
  match yields with
  | S yields => Some (m, UYield (TWork self yields))
  | O => Some (say (Finished self) (say (Ended self) m), UTau (TNotify self 0))
  end.

(** The inner loop looks for the first matching dependency. *)
Definition depends_on (self : Z) (t : Task) : bool :=
  bool_decide (self ∈ take (Z.to_nat (dep_count t)) (dep_ids t)).

Definition notify (self i : Z) (m : mem) : option (mem * ucall point) :=
  if i <? g_task_count m then
    other ← arr_get (g_tasks m) i;
    if depends_on self other then
      remaining ← cadd (deps_remaining other) (-1);
      ts ← arr_set (g_tasks m) i (set_remaining remaining other);
      let m := Mem ts (g_task_count m) (printed m) in
      if remaining =? 0
      then Some (m, UCreate fn_task_coroutine i 0 (λ _, TNotify self (i + 1)))
      else Some (m, UTau (TNotify self (i + 1)))
    else Some (m, UTau (TNotify self (i + 1)))
  else Some (m, UReturn).

Definition step_point (l : point) (m : mem) : option (mem * ucall point) :=
  match l with
  | TStart self =>
      t ← arr_get (g_tasks m) self;
      yields ← work_yields (work t);
      work_loop self yields (say (Begun self) (say (Starting self) m))
  | TWork self n => work_loop self n m
  | TNotify self i => notify self i m
  end.

#[export] Instance bodies : Bodies point (option mem) := {|
  body_step l := run_body (step_point l);
  body_fn _ arg := TStart arg
|}.

(** main, up to [task_graph_finalize]. *)
Definition build : option mem :=
  '(m, fetch_data) ← task_register "fetch_data" work_fetch_data mem0;
  '(m, parse_json) ← task_register "parse_json" work_parse_json m;
  '(m, fetch_config) ← task_register "fetch_config" work_fetch_config m;
  '(m, validate) ← task_register "validate" work_validate m;
  '(m, enrich) ← task_register "enrich" work_enrich m;
  '(m, write_output) ← task_register "write_output" work_write_output m;
  m ← task_add_dep validate fetch_data m;
  m ← task_add_dep validate parse_json m;
  m ← task_add_dep enrich validate m;
  m ← task_add_dep enrich fetch_config m;
  m ← task_add_dep write_output enrich m;
  Some (task_graph_finalize m).

(** The root tasks. *)
Definition roots (m : mem) : list (ptr * ptr) :=
  (λ t, (fn_task_coroutine, id t))
    <$> base.filter (λ t, dep_count t = 0) (take (Z.to_nat (g_task_count m)) (g_tasks m)).

(** ** Executing graphs *)

(** main's way to build a graph: tasks 0, 1, ... with their names and work, and
    the dependencies (task, what it depends on). *)
Definition graph (works : list (string * work_fn)) (deps : list (Z * Z)) : option mem :=
  m ← foldl (λ r w, m ← r; '(m, _) ← task_register w.1 w.2 m; Some m) (Some mem0) works;
  m ← foldl (λ r td, m ← r; task_add_dep td.1 td.2 m) (Some m) deps;
  Some (task_graph_finalize m).

#[local] Existing Instance MachineDemo.link.
#[local] Instance code : UserCode (option (list (ptr * ptr)) + point) (option mem) :=
  program spawn_all.
Definition run_graph `{Allocator} (σ : alloc_state) (m : option mem)
    : world (option (list (ptr * ptr)) + point) (option mem) :=
  init_world σ m (inl (roots <$> m)).

(** In an output, every task starts after all its dependencies have finished. *)
Definition ordered (m : mem) : bool :=
  forallb (λ i,
    match printed m !! i with
    | Some (Starting t) =>
        match arr_get (g_tasks m) t with
        | Some task =>
            forallb (λ d, bool_decide (Finished d ∈ take i (printed m)))
              (take (Z.to_nat (dep_count task)) (dep_ids task))
        | None => false
        end
    | _ => true
    end) (seq 0 (length (printed m))).

Definition times (o : out) (m : mem) : nat :=
  length (base.filter (λ o', o' = o) (printed m)).

(** A program runs to its end, every task runs exactly once, and none starts
    before what it depends on has finished. *)
Definition graph_runs (m : option mem) : bool :=
  match exec 2000 (run_graph heap0 m) with
  | Api.Finished w =>
      match w_user w with
      | Some m =>
          ordered m
          && forallb (λ t, (times (Starting t) m =? 1)%nat && (times (Finished t) m =? 1)%nat)
               (seqZ 0 (g_task_count m))
      | None => false
      end
  | _ => false
  end.

Example task_graph_demo : graph_runs build = true.
Proof. by vm_compute. Qed.

(** The graph of the demo. *)
Lemma build_graph :
  build = graph [("fetch_data", work_fetch_data); ("parse_json", work_parse_json);
                 ("fetch_config", work_fetch_config); ("validate", work_validate);
                 ("enrich", work_enrich); ("write_output", work_write_output)]
            [(3, 0); (3, 1); (4, 3); (4, 2); (5, 4)].
Proof. by vm_compute. Qed.

Fixpoint sublists {A} (l : list A) : list (list A) :=
  match l with [] => [[]] | x :: l => (cons x <$> sublists l) ++ sublists l end.

(** All the dependencies of a task on one registered before it. *)
Definition all_deps (n : nat) : list (Z * Z) :=
  t ← seqZ 0 (Z.of_nat n); (λ d, (t, d)) <$> seqZ 0 t.

Definition works4 : list (string * work_fn) :=
  [("fetch", work_fetch_data); ("parse", work_parse_json); ("config", work_fetch_config);
   ("enrich", work_enrich)].

Lemma graphs4 : forallb (λ deps, graph_runs (graph works4 deps)) (sublists (all_deps 4)) = true.
Proof. by vm_compute. Qed.

(** Every acyclic graph of four tasks, its tasks registered in a
    topological order: the program ends, each task has run exactly once, and
    no task starts before all those it depends on have finished. *)
Theorem task_graph_order deps :
  deps ∈ sublists (all_deps 4) → graph_runs (graph works4 deps) = true.
Proof.
  intros Hd. pose proof graphs4 as Hg. rewrite forallb_forall in Hg.
  by apply Hg, list_elem_of_In.
Qed.

Lemma task_graph_order_witness :
  graph_runs (graph works4 [(2, 0); (2, 1); (3, 0); (3, 2)]) = true.
Proof. apply task_graph_order. by apply (bool_decide_unpack _); vm_compute. Defined.
End TaskGraph.

(** ** examples/timer_coroutine.c *)

Module Countdown.
Record timer_cfg_t := MkCfg { name : string; cfg_ticks : Z; period : Z }.

Inductive out : Set :=
| Begun (name : string) (n : Z) | Ticked (name : string) (remaining : Z)
| Fired (name : string) | Reloaded (name : string) (n : Z) | Done (name : string).

#[export] Instance out_eq_dec : EqDecision out.
Proof. solve_decision. Defined.

(** main's [timers] and the output. *)
Record mem := Mem { timers : list timer_cfg_t; printed : list out }.

Definition say (o : out) (m : mem) : mem := Mem (timers m) (printed m ++ [o]).

(** [timer_coroutine] at its start and at the head of its inner loop. *)
Inductive point : Set := TStart (i : Z) | TLoop (i remaining : Z).

Definition timer_loop (i remaining : Z) (m : mem) : option (mem * ucall point) :=
  cfg ← arr_get (timers m) i;
  if 0 <? remaining then
    r ← cadd remaining (-1);
    Some (say (Ticked (name cfg) remaining) m, UYield (TLoop i r))
  else
    let m := say (Fired (name cfg)) m in
    if 0 <? period cfg
    then Some (say (Reloaded (name cfg) (period cfg)) m, UTau (TLoop i (period cfg)))
    else Some (say (Done (name cfg)) m, UReturn).

Definition step_point (l : point) (m : mem) : option (mem * ucall point) :=
  match l with
  | TStart i =>
      cfg ← arr_get (timers m) i;
      timer_loop i (cfg_ticks cfg) (say (Begun (name cfg) (cfg_ticks cfg)) m)
  | TLoop i remaining => timer_loop i remaining m
  end.

#[export] Instance bodies : Bodies point (option mem) := {|
  body_step l := run_body (step_point l);
  body_fn _ arg := TStart arg
|}.

Definition mem0 : mem := Mem [MkCfg "Fast" 2 2; MkCfg "Slow" 5 0; MkCfg "Pulse" 3 3] [].

#[local] Existing Instance MachineDemo.link.
#[local] Instance code : UserCode (option (list (ptr * ptr)) + point) (option mem) :=
  program spawn_all.
Definition demo : world (option (list (ptr * ptr)) + point) (option mem) :=
  init_world heap0 (Some mem0) (inl (Some [(1, 0); (1, 1); (1, 2)])).

(** The first two rounds of the demo, and the one line the one-shot timer ends
    with; the repeating timers never return, so neither does the scheduler. *)
Example timers_output :
  match exec 1000 demo with
  | OutOfFuel w =>
      take 11 (default [] (printed <$> w_user w))
      = [Begun "Fast" 2; Ticked "Fast" 2; Begun "Slow" 5; Ticked "Slow" 5; Begun "Pulse" 3;
         Ticked "Pulse" 3; Ticked "Fast" 1; Ticked "Slow" 4; Ticked "Pulse" 2;
         Fired "Fast"; Reloaded "Fast" 2]
      ∧ base.filter (λ o, o = Done "Slow" ∨ o = Fired "Slow" ∨ o = Done "Fast"
                          ∨ o = Done "Pulse") (default [] (printed <$> w_user w))
        = [Fired "Slow"; Done "Slow"]
  | _ => False
  end.
Proof. by vm_compute. Qed.
End Countdown.
