(* ===== verification/Graph.v ===== *)
(** * Every task graph ([examples/task_graph.c])

    [Staged.TaskGraph] has the program; here is its correctness for every
    acyclic graph that fits the tables, in place of the graphs of four tasks it
    is run on: each task runs once, after all those it depends on, and the
    program ends with all of them finished.  The coroutine of a task creates
    those of its dependents, so this is a proof about the pool of threads
    ([Threads]) whose number is not known in advance. *)

From stdpp Require Import gmap relations.
From S2P Require Import Prelude Ring Machine State RunQueue Api Ops Invariant.
From S2P Require Import Preserve Create Spec Refine Safety Threads Demo User Progress Buffers Staged.

Module Graph.
Import TaskGraph.

Lemma filter_agree {A} (P Q : A → Prop) `{∀ x, Decision (P x), ∀ x, Decision (Q x)} (l : list A) :
  (∀ x, x ∈ l → P x ↔ Q x) → base.filter P l = base.filter Q l.
Proof.
  induction l as [|x l IH]; intros He; [done|].
  rewrite !filter_cons, IH by (intros y Hy; apply He; by right).
  pose proof (He x (list_elem_of_here _ _)). by repeat case_decide; try tauto.
Qed.

(** The tasks that [t] depends on. *)
Definition task_deps (t : Task) : list Z := take (Z.to_nat (dep_count t)) (dep_ids t).

(** Where the coroutine of a task is: not created; its creation has failed; at
    a control point, or past the last one. *)
Inductive loc : Set := LNew | LLost | LOn (p : ptr) (o : option point).

(** It has passed task [x] in its notification loop. *)
Definition notified (l : loc) (x : Z) : bool :=
  match l with LOn _ None => true | LOn _ (Some (TNotify _ i)) => x <? i | _ => false end.
Definition started (l : loc) : bool :=
  match l with LNew | LLost | LOn _ (Some (TStart _)) => false | _ => true end.
Definition finished (l : loc) : bool :=
  match l with LOn _ None | LOn _ (Some (TNotify _ _)) => true | _ => false end.
Definition is_new (l : loc) : bool := match l with LNew => true | _ => false end.

Abbreviation locs := (gmap Z loc).
Definition at_ (f : locs) (t : Z) : loc := default LNew (f !! t).

Lemma at_insert f t x y : at_ (<[t := y]> f) x = if decide (t = x) then y else at_ f x.
Proof. unfold at_. rewrite lookup_insert. by case_decide. Qed.
Lemma at_insert_eq f t y : at_ (<[t := y]> f) t = y.
Proof. rewrite at_insert. by rewrite decide_True. Qed.
Lemma at_insert_ne f t x y : t ≠ x → at_ (<[t := y]> f) x = at_ f x.
Proof. intros. rewrite at_insert. by rewrite decide_False. Qed.

Section graph.
(** The tasks as [task_graph_finalize] leaves them, [n] of them in use. *)
Variables (n : Z) (T0 : list Task) (rank : Z → nat).

Definition deps (x : Z) : list Z :=
  match zlookup T0 x with Some t => task_deps t | None => [] end.
Definition valid (x : Z) : Prop := 0 ≤ x < n.

Record well_built : Prop := {
  wb_max : n ≤ MAX_TASKS;
  wb_length : Z.of_nat (length T0) = MAX_TASKS;
  wb_id x t : valid x → zlookup T0 x = Some t → id t = x;
  wb_count x t : valid x → zlookup T0 x = Some t →
    dep_count t = Z.of_nat (length (deps x)) ∧ deps_remaining t = dep_count t;
  wb_work x t : valid x → zlookup T0 x = Some t → work t ≠ work_none;
  wb_nodup x : valid x → NoDup (deps x) ∧ Z.of_nat (length (deps x)) ≤ MAX_DEPS;
  wb_deps x d : valid x → d ∈ deps x → valid d ∧ (rank d < rank x)%nat
}.

(** How many dependencies of [x] have still to notify it. *)
Definition waits_for (f : locs) (x : Z) : list Z :=
  base.filter (λ d, notified (at_ f d) x = false) (deps x).
Definition pending (f : locs) (x : Z) : Z := Z.of_nat (length (waits_for f x)).

Lemma pending_nonneg f x : 0 ≤ pending f x.
Proof using. unfold pending. lia. Qed.

(** The coroutine of [t] moves, without passing any of its dependents. *)
Lemma pending_same f t y x :
  notified y x = notified (at_ f t) x ∨ t ∉ deps x → pending (<[t := y]> f) x = pending f x.
Proof using.
  intros Ht. unfold pending, waits_for. do 2 f_equal. apply filter_agree.
  intros d Hd. rewrite at_insert. case_decide as Hdt; subst; [|done].
  destruct Ht as [->|Ht]; [done|done].
Qed.

(** It passes its dependent [x]. *)
Lemma pending_notify f t y x :
  NoDup (deps x) → t ∈ deps x → notified (at_ f t) x = false → notified y x = true →
  pending f x = pending (<[t := y]> f) x + 1.
Proof using.
  intros Hn Ht Hb Hy. unfold pending, waits_for.
  apply list_elem_of_split in Ht as (l1 & l2 & Hd). rewrite Hd in *.
  assert ((t ∉ l1) ∧ (t ∉ l2)) as [H1 H2].
  { apply NoDup_app in Hn as (_ & Hl1 & [Hl2 _]%NoDup_cons). split; [|done].
    intros Hin. apply (Hl1 _ Hin). by left. }
  assert (∀ l : list Z, t ∉ l → base.filter (λ d, notified (at_ (<[t := y]> f) d) x = false) l
    = base.filter (λ d, notified (at_ f d) x = false) l) as Hsame.
  { intros l Hl. apply filter_agree. intros d Hdl. rewrite at_insert_ne; [done|].
    by intros ->. }
  rewrite !filter_app, !filter_cons, !Hsame, at_insert_eq, Hb, Hy by done.
  rewrite decide_True, decide_False, !length_app by done. cbn. lia.
Qed.
(** ** The board *)

Definition point_of (t : Z) (l : point) : Prop :=
  match l with
  | TStart s => s = t
  | TWork s y => s = t ∧ (y ≤ 3)%nat
  | TNotify s i => s = t ∧ 0 ≤ i ≤ n
  end.

Definition line_ok (f : locs) (o : out) : Prop :=
  match o with
  | Starting t | Begun t => valid t ∧ started (at_ f t) = true
  | Ended t | TaskGraph.Finished t => valid t ∧ finished (at_ f t) = true
  end.

(** The registry counts the dependencies that have not finished. *)
Record counts (f : locs) (m : mem) : Prop := {
  ct_count : g_task_count m = n;
  ct_length : length (g_tasks m) = length T0;
  ct_task x t : valid x → zlookup T0 x = Some t →
    zlookup (g_tasks m) x = Some (set_remaining (pending f x) t)
}.

(** A task is created when nothing is pending; main has still to create the
    roots [todo]. *)
Record plan `{Refusal} (todo : list Z) (f : locs) : Prop := {
  pl_self t p l : valid t → at_ f t = LOn p (Some l) → point_of t l;
  pl_new x : valid x → deps x ≠ [] → is_new (at_ f x) = (0 <? pending f x);
  pl_root x : valid x → deps x = [] → (is_new (at_ f x) = true ↔ x ∈ todo);
  pl_lost x : valid x → at_ f x = LLost → may_refuse
}.

(** Each line is printed once, the start of a task after the end of those it
    depends on. *)
Record log (f : locs) (m : mem) : Prop := {
  lg_nodup : NoDup (printed m);
  lg_line o : o ∈ printed m → line_ok f o;
  lg_started t : valid t → started (at_ f t) = true → Starting t ∈ printed m;
  lg_finished t : valid t → finished (at_ f t) = true → TaskGraph.Finished t ∈ printed m;
  lg_order i t d : printed m !! i = Some (Starting t) → d ∈ deps t →
    TaskGraph.Finished d ∈ take i (printed m)
}.

Lemma log_app f f' m m' os :
  log f m → printed m' = printed m ++ os →
  NoDup os → (∀ o, o ∈ os → ¬ line_ok f o ∧ line_ok f' o) →
  (∀ o, line_ok f o → line_ok f' o) →
  (∀ t, valid t → started (at_ f' t) = true → started (at_ f t) = true ∨ Starting t ∈ os) →
  (∀ t, valid t → finished (at_ f' t) = true → finished (at_ f t) = true ∨ TaskGraph.Finished t ∈ os) →
  (∀ t d, Starting t ∈ os → d ∈ deps t → finished (at_ f d) = true ∧ valid d) →
  log f' m'.
Proof using.
  intros [Hn Hl Hb Hf Ho] Hp Hos Hnew Hold Hbeg Hfin Hst. split; rewrite Hp.
  - apply NoDup_app. split_and!; [done| |done]. intros o Hin Hino.
    by apply (proj1 (Hnew o Hino)), Hl.
  - intros o [Hin|Hin]%elem_of_app; [by apply Hold, Hl|by apply Hnew].
  - intros t Ht Hft. apply elem_of_app. destruct (Hbeg t Ht Hft) as [H|H]; [left|by right]. by apply Hb.
  - intros t Ht Hft. apply elem_of_app. destruct (Hfin t Ht Hft) as [H|H]; [left|by right]. by apply Hf.
  - intros i t d [Hi|[Hge Hi]]%lookup_app_Some Hd.
    + apply lookup_lt_Some in Hi as Hlt. rewrite take_app_le by lia. by eapply Ho.
    + rewrite take_app_ge by done. apply elem_of_app. left.
      destruct (Hst t d) as [Hfd Hv]; [by eapply list_elem_of_lookup_2|done|]. by apply Hf.
Qed.

(** Only what has started and finished matters. *)
Lemma log_same f f' m m' :
  log f m → printed m' = printed m →
  (∀ x, started (at_ f' x) = started (at_ f x) ∧ finished (at_ f' x) = finished (at_ f x)) →
  log f' m'.
Proof using.
  intros Hl Hp He. apply (log_app f f' m m' []); [done|by rewrite app_nil_r|by apply NoDup_nil_2|..].
  - by intros o ?%not_elem_of_nil.
  - intros []; cbn; by rewrite ?(proj1 (He _)), ?(proj2 (He _)).
  - intros t _. rewrite (proj1 (He t)). auto.
  - intros t _. rewrite (proj2 (He t)). auto.
  - by intros t d ?%not_elem_of_nil.
Qed.

(** Task [t] goes from [at_ f t] to [y] and prints [os]. *)
Lemma log_move f t y m m' os :
  log f m → valid t → printed m' = printed m ++ os → NoDup os →
  (∀ o, o ∈ os → match o with
     | Starting s | Begun s => s = t ∧ started (at_ f t) = false ∧ started y = true
     | Ended s | TaskGraph.Finished s => s = t ∧ finished (at_ f t) = false ∧ finished y = true
     end) →
  (started (at_ f t) = true → started y = true) → (finished (at_ f t) = true → finished y = true) →
  (started y = true → started (at_ f t) = true ∨ Starting t ∈ os) →
  (finished y = true → finished (at_ f t) = true ∨ TaskGraph.Finished t ∈ os) →
  (Starting t ∈ os → ∀ d, d ∈ deps t → finished (at_ f d) = true ∧ valid d) →
  log (<[t := y]> f) m'.
Proof.
  intros Hl Ht Hp Hos Hnew Hs1 Hs2 Hbeg Hfin Hst. eapply log_app; [exact Hl|exact Hp|done|..].
  - intros o Ho. specialize (Hnew o Ho).
    destruct o; cbn; destruct Hnew as (-> & H1 & H2); rewrite at_insert_eq, H1; intuition done.
  - intros o. destruct o as [s|s|s|s]; cbn; rewrite at_insert; case_decide; subst; intuition done.
  - intros s Hs. rewrite at_insert. case_decide; subst; auto.
  - intros s Hs. rewrite at_insert. case_decide; subst; auto.
  - intros s d Hin Hd. pose proof (Hnew _ Hin) as (-> & _). by apply Hst.
Qed.
(** ** A stretch of a task *)

Section moves.
Context `{AL : Refusal}.
Hypothesis built : well_built.
Implicit Types (f : locs) (m : mem) (t x : Z) (p : ptr).

Record board (todo : list Z) f m : Prop := {
  bd_counts : counts f m;
  bd_plan : plan todo f;
  bd_log : log f m
}.

(** The coroutine of [t] moves on; no dependent of its becomes ready. *)
Lemma plan_move f t p o o' :
  plan [] f → valid t → at_ f t = LOn p o → (∀ l, o' = Some l → point_of t l) →
  (∀ x, valid x → deps x ≠ [] → (0 <? pending (<[t := LOn p o']> f) x) = (0 <? pending f x)) →
  plan [] (<[t := LOn p o']> f).
Proof using.
  intros [Hself Hnew Hroot Hlost] Ht Hf Ho Hx. split.
  - intros s q l Hs. rewrite at_insert. case_decide; subst; [|by apply Hself].
    intros [= _ ->]. by apply Ho.
  - intros x Hv Hd. rewrite Hx by done. rewrite at_insert. case_decide; subst; [|by apply Hnew].
    rewrite <- Hnew, Hf by done. done.
  - intros x Hv Hd. rewrite at_insert. case_decide; subst; [|by apply Hroot].
    rewrite <- Hroot, Hf by done. done.
  - intros x Hv. rewrite at_insert. case_decide; subst; [done|by apply Hlost].
Qed.

Lemma counts_same f f' m m' :
  counts f m → g_task_count m' = g_task_count m → g_tasks m' = g_tasks m →
  (∀ x, valid x → pending f' x = pending f x) → counts f' m'.
Proof using.
  intros [Hc Hl Ht] H1 H2 H3. split; [congruence|congruence|].
  intros x t Hv Hx. rewrite H2, H3 by done. by apply Ht.
Qed.

(** What the next call of task [t] leads to. *)
Definition created (x : Z) (y : loc) : Prop :=
  y = LLost ∧ may_refuse ∨ ∃ q, y = LOn q (Some (TStart x)).

Definition goes_on f t p m (c : ucall point) : Prop :=
  match c with
  | UYield l | UTau l => board [] (<[t := LOn p (Some l)]> f) m
  | UReturn => board [] (<[t := LOn p None]> f) m
  | UCreate fn x sz k => fn = fn_task_coroutine ∧ sz = 0 ∧ valid x ∧ at_ f x = LNew
      ∧ ∃ l, (∀ q, k q = l)
        ∧ ∀ y, created x y → board [] (<[x := y]> (<[t := LOn p (Some l)]> f)) m
  | _ => False
  end.

Lemma work_ok f t p y m :
  board [] f m → valid t → (y ≤ 3)%nat → at_ f t = LOn p (Some (TWork t y)) →
  ∃ m' c, work_loop t y m = Some (m', c) ∧ goes_on f t p m' c.
Proof using built.
  intros [Hc Hp Hl] Ht Hy Hf. destruct y as [|y].
  - eexists _, _. split; [done|]. cbn.
    assert (∀ x, valid x → pending (<[t := LOn p (Some (TNotify t 0))]> f) x = pending f x) as Hsame.
    { intros x Hx. apply pending_same. left. rewrite Hf. cbn. apply Z.ltb_ge. apply Hx. }
    split.
    + by eapply counts_same.
    + eapply plan_move; [done|done|exact Hf| |by intros x Hx _; rewrite Hsame].
      intros l [= <-]. cbn. destruct Ht. lia.
    + eapply (log_move f t _ m _ [Ended t; TaskGraph.Finished t]); [done|done| | | |by rewrite Hf|by rewrite Hf| | |].
      * cbn. by rewrite <- app_assoc.
      * repeat constructor; set_solver.
      * intros o [->|[->|?%not_elem_of_nil]%elem_of_cons]%elem_of_cons; [by rewrite Hf..|done].
      * rewrite Hf. by left.
      * intros _. right. by right; left.
      * set_solver.
  - eexists _, _. split; [done|]. cbn.
    assert (∀ x, valid x → pending (<[t := LOn p (Some (TWork t y))]> f) x = pending f x) as Hsame.
    { intros x Hx. apply pending_same. left. by rewrite Hf. }
    split.
    + by eapply counts_same.
    + eapply plan_move; [done|done|exact Hf| |by intros x Hx _; rewrite Hsame].
      intros l [= <-]. cbn. lia.
    + eapply log_same; [done|done|]. intros x. rewrite at_insert. case_decide; subst; [by rewrite Hf|done].
Qed.
(** A task whose coroutine exists has nothing to wait for. *)
Lemma ready f t d :
  plan [] f → valid t → is_new (at_ f t) = false → d ∈ deps t →
  notified (at_ f d) t = true ∧ finished (at_ f d) = true.
Proof using.
  intros Hp Ht Hf Hd. assert (pending f t = 0) as H0.
  { pose proof (pl_new _ _ Hp t Ht) as Hn. rewrite Hf in Hn. pose proof (pending_nonneg f t).
    destruct (deps t) eqn:He; [by apply not_elem_of_nil in Hd|]. specialize (Hn ltac:(done)).
    symmetry in Hn. apply Z.ltb_ge in Hn. lia. }
  assert (notified (at_ f d) t = true) as Hn.
  { destruct (notified (at_ f d) t) eqn:He; [done|]. unfold pending in H0.
    assert (d ∈ waits_for f t) as Hin by (apply list_elem_of_filter; done).
    destruct (waits_for f t); [by apply not_elem_of_nil in Hin|done]. }
  split; [done|]. by destruct (at_ f d) as [| |q [[]|]].
Qed.

Lemma goes_on_insert f t p l m c :
  goes_on (<[t := LOn p (Some l)]> f) t p m c → goes_on f t p m c.
Proof using.
  destruct c as [|k|k|o k|fn x sz k|q k|q k|k|k]; cbn; rewrite ?insert_insert_eq; try done.
  intros (-> & -> & Hx & Hn & l' & Hk & Hb). rewrite at_insert in Hn. case_decide; [done|].
  split_and!; try done. exists l'. split; [done|]. intros y Hy. specialize (Hb y Hy).
  by rewrite insert_insert_eq in Hb.
Qed.

Lemma task_found x : valid x → ∃ tk, zlookup T0 x = Some tk.
Proof using built.
  intros Hx. destruct (zlookup_lt_is_Some T0 x) as [tk Ht]; [|eauto].
  pose proof (wb_max built). pose proof (wb_length built). unfold valid in Hx. lia.
Qed.

Lemma start_ok f t p m :
  board [] f m → valid t → at_ f t = LOn p (Some (TStart t)) →
  ∃ m' c, step_point (TStart t) m = Some (m', c) ∧ goes_on f t p m' c.
Proof using built.
  intros [Hc Hp Hl] Ht Hf. destruct (task_found t Ht) as [task Htask].
  cbn [step_point]. unfold arr_get. rewrite (ct_task _ _ Hc _ _ Ht Htask). cbn [mbind option_bind].
  change (work (set_remaining (pending f t) task)) with (work task).
  assert (∃ y, work_yields (work task) = Some y ∧ (y ≤ 3)%nat) as (y & -> & Hy).
  { pose proof (wb_work built _ _ Ht Htask) as Hw.
    destruct (work task); [done|eexists; (split; [done|lia])..]. }
  cbn [mbind option_bind].
  set (f1 := <[t := LOn p (Some (TWork t y))]> f).
  assert (∀ x, pending f1 x = pending f x) as Hsame.
  { intros x. apply pending_same. left. by rewrite Hf. }
  assert (board [] f1 (say (Begun t) (say (Starting t) m))) as Hb.
  { split.
    - by eapply counts_same.
    - eapply plan_move; [done|done|exact Hf| |by intros x Hx _; rewrite Hsame].
      intros l [= <-]. by split.
    - eapply (log_move f t _ m _ [Starting t; Begun t]); [done|done| | | |by rewrite Hf|by rewrite Hf| |by left|].
      + cbn. by rewrite <- app_assoc.
      + repeat constructor; set_solver.
      + intros o [->|[->|?%not_elem_of_nil]%elem_of_cons]%elem_of_cons; [by rewrite Hf..|done].
      + intros _. right. by left.
      + intros _ d Hd. split; [|by apply (wb_deps built t)].
        apply (ready f t d); [done|done|by rewrite Hf|done]. }
  destruct (work_ok f1 t p y _ Hb Ht Hy (at_insert_eq _ _ _)) as (m' & c & -> & Hg).
  exists m', c. split; [done|]. by eapply goes_on_insert.
Qed.

(** The notification of task [i] by [t]. *)
Lemma passes f t p i x :
  at_ f t = LOn p (Some (TNotify t i)) → x ≠ i ∨ t ∉ deps x →
  pending (<[t := LOn p (Some (TNotify t (i + 1)))]> f) x = pending f x.
Proof using.
  intros Hf Hx. apply pending_same. destruct Hx as [Hx|]; [left|by right]. rewrite Hf. cbn.
  destruct (Z.ltb_spec x i), (Z.ltb_spec x (i + 1)); first [done|lia].
Qed.

Lemma counts_notify f f' m i tk :
  counts f m → valid i → zlookup T0 i = Some tk →
  (∀ x, valid x → x ≠ i → pending f' x = pending f x) →
  counts f' (Mem (zinsert i (set_remaining (pending f' i) (set_remaining (pending f i) tk)) (g_tasks m))
    (g_task_count m) (printed m)).
Proof using built.
  intros [Hc Hl Ht] Hi H0 Hx. split; cbn; [done|by rewrite length_zinsert|].
  intros x t Hv Hxt. pose proof (Ht _ _ Hv Hxt) as Hold. destruct (decide (x = i)) as [->|Hne].
  - rewrite H0 in Hxt. injection Hxt as ->. rewrite zlookup_zinsert_eq; [done|].
    rewrite Hl. pose proof (wb_max built). pose proof (wb_length built). unfold valid in Hv. lia.
  - by rewrite zlookup_zinsert_ne, Hx by congruence.
Qed.
(** The last dependency of [i] has notified it, and its coroutine is created. *)
Lemma plan_create f t p l i y :
  plan [] f → valid t → valid i → i ≠ t → at_ f t = LOn p (Some (TNotify t i)) →
  point_of t l → deps i ≠ [] → at_ f i = LNew →
  (∀ x, valid x → x ≠ i → pending (<[t := LOn p (Some l)]> f) x = pending f x) →
  pending (<[t := LOn p (Some l)]> f) i = 0 → created i y →
  plan [] (<[i := y]> (<[t := LOn p (Some l)]> f)).
Proof using.
  intros [Hself Hnew Hroot Hlost] Ht Hi Hit Hf Hl Hdi Hfi Hx H0 Hy.
  set (f' := <[t := LOn p (Some l)]> f) in *.
  assert (is_new y = false ∧ ∀ x, notified y x = false) as [Hyn Hyx] by (by destruct Hy as [[-> _]|[q ->]]).
  assert (at_ f' i = LNew) as Hf'i by (unfold f'; by rewrite at_insert_ne).
  assert (∀ x, pending (<[i := y]> f') x = pending f' x) as Hp.
  { intros x. apply pending_same. left. by rewrite Hf'i, Hyx. }
  split.
  - intros s q l' Hs. rewrite at_insert. case_decide; subst.
    + intros ->. destruct Hy as [[? _]|[q' Hy]]; [done|]. by injection Hy as <- ->.
    + unfold f'. rewrite at_insert. case_decide; subst; [|by apply Hself]. by intros [= _ <-].
  - intros x Hv Hd. rewrite Hp, at_insert. case_decide; subst; [by rewrite Hyn, H0|].
    assert (pending f' x = pending f x) as -> by (by apply Hx; congruence). unfold f'. rewrite at_insert. case_decide; subst; [|by apply Hnew].
    by rewrite <- Hnew, Hf.
  - intros x Hv Hd. rewrite at_insert. case_decide; subst; [done|]. unfold f'. rewrite at_insert.
    case_decide; subst; [|by apply Hroot]. rewrite <- Hroot, Hf by done. done.
  - intros x Hv. rewrite at_insert. case_decide; subst.
    + intros ->. destruct Hy as [[_ ?]|[q' ?]]; done.
    + unfold f'. rewrite at_insert. case_decide; subst; [done|by apply Hlost].
Qed.

(** Nothing is printed, and nothing starts or finishes. *)
Lemma log_notify f t p i m m' l :
  log f m → printed m' = printed m → at_ f t = LOn p (Some (TNotify t i)) →
  (l = None ∨ ∃ j, l = Some (TNotify t j)) → log (<[t := LOn p l]> f) m'.
Proof using.
  intros Hl Hp Hf Hn. eapply log_same; [done|done|]. intros x. rewrite at_insert.
  case_decide; subst; [|done]. rewrite Hf. by destruct Hn as [->|[j ->]].
Qed.

Lemma notify_ok f t p i m :
  board [] f m → valid t → 0 ≤ i ≤ n → at_ f t = LOn p (Some (TNotify t i)) →
  ∃ m' c, step_point (TNotify t i) m = Some (m', c) ∧ goes_on f t p m' c.
Proof using built.
  intros [Hc Hp Hl] Ht Hi Hf. cbn [step_point]. unfold notify. rewrite (ct_count _ _ Hc).
  destruct (Z.ltb_spec i n) as [Hlt|Hge]; cycle 1.
  { eexists _, _. split; [done|]. cbn.
    assert (∀ x, valid x → pending (<[t := LOn p None]> f) x = pending f x) as Hsame.
    { intros x Hx. apply pending_same. left. rewrite Hf. cbn. symmetry. apply Z.ltb_lt.
      unfold valid in Hx. lia. }
    split; [by eapply counts_same| |by eapply log_notify; [..|left]].
    eapply plan_move; [done|done|exact Hf|done|]. intros x Hx _. by rewrite Hsame. }
  assert (valid i) as Hv by (unfold valid; lia). destruct (task_found i Hv) as [tk Htk].
  unfold arr_get. rewrite (ct_task _ _ Hc _ _ Hv Htk). cbn [mbind option_bind].
  assert (depends_on t (set_remaining (pending f i) tk) = bool_decide (t ∈ deps i)) as ->.
  { unfold depends_on, deps. by rewrite Htk. }
  set (f' := <[t := LOn p (Some (TNotify t (i + 1)))]> f).
  assert (point_of t (TNotify t (i + 1))) as Hpt by (cbn; split; [done|lia]).
  case_bool_decide as Hd; cycle 1.
  { eexists _, _. split; [done|]. cbn.
    assert (∀ x, valid x → pending f' x = pending f x) as Hsame.
    { intros x Hx. eapply passes; [exact Hf|]. destruct (decide (x = i)); [subst; by right|by left]. }
    split; [by eapply counts_same| |eapply log_notify; [done|done|exact Hf|eauto]].
    eapply plan_move; [done|done|exact Hf|by intros l [= <-]|]. intros x Hx _. fold f'. by rewrite Hsame. }
  destruct (wb_nodup built i Hv) as [Hnd Hmax]. destruct (wb_deps built i t Hv Hd) as [_ Hrank].
  assert (i ≠ t) as Hit by (intros ->; lia).
  assert (∀ x, valid x → x ≠ i → pending f' x = pending f x) as Hother
    by (intros x _ Hx; eapply passes; [exact Hf|by left]).
  assert (pending f i = pending f' i + 1) as Hpi.
  { apply pending_notify; [done|done|rewrite Hf; cbn; apply Z.ltb_irrefl|cbn; apply Z.ltb_lt; lia]. }
  assert (pending f i ≤ MAX_DEPS) as Hpm.
  { unfold pending, waits_for. pose proof (length_filter (λ d, notified (at_ f d) i = false) (deps i)). lia. }
  pose proof (pending_nonneg f' i) as Hp0. unfold MAX_DEPS in Hpm.
  cbn [deps_remaining set_remaining]. rewrite cadd_ok by (consts; lia). cbn [mbind option_bind].
  replace (pending f i + -1) with (pending f' i) by lia.
  unfold arr_set. rewrite (proj2 (in_bounds_true _ _)).
  2: { rewrite (ct_length _ _ Hc). pose proof (wb_max built). pose proof (wb_length built).
       unfold valid in Hv. lia. }
  cbn [mbind option_bind].
  pose proof (counts_notify f f' m i tk Hc Hv Htk Hother) as Hcn. rewrite (ct_count _ _ Hc) in Hcn.
  assert (deps i ≠ []) as Hdi by (intros He; rewrite He in Hd; by apply not_elem_of_nil in Hd).
  destruct (Z.eqb_spec (pending f' i) 0) as [Hz|Hz].
  - eexists _, _. split; [done|].
    assert (at_ f i = LNew) as Hfi.
    { pose proof (pl_new _ _ Hp i Hv Hdi) as Hn. rewrite (proj2 (Z.ltb_lt _ _)) in Hn by lia.
      by destruct (at_ f i). }
    split_and!; [done..|]. exists (TNotify t (i + 1)). split; [done|]. intros y Hy. fold f'.
    assert (∀ x, valid x → pending (<[i := y]> f') x = pending f' x) as Hsame.
    { intros x _. apply pending_same. left. unfold f'. rewrite at_insert_ne, Hfi by done.
      by destruct Hy as [[-> _]|[q ->]]. }
    split.
    + by eapply counts_same.
    + by apply (plan_create f t p (TNotify t (i + 1)) i y).
    + eapply log_same; [eapply (log_notify f t p i m m (Some (TNotify t (i + 1)))); [done|done|done|eauto]|done|].
      intros x. rewrite at_insert. case_decide; subst; [|done]. rewrite at_insert_ne, Hfi by done.
      by destruct Hy as [[-> _]|[q ->]].
  - eexists _, _. split; [done|]. cbn. split; [done| |eapply log_notify; [done|done|exact Hf|eauto]].
    eapply plan_move; [done|done|exact Hf|by intros l [= <-]|]. intros x Hx _. fold f'.
    destruct (decide (x = i)) as [->|Hne]; [|by rewrite Hother].
    rewrite !(proj2 (Z.ltb_lt 0 _)) by lia. done.
Qed.

Lemma stretch_ok f t p l m :
  board [] f m → valid t → at_ f t = LOn p (Some l) →
  ∃ m' c, step_point l m = Some (m', c) ∧ goes_on f t p m' c.
Proof using built.
  intros Hb Ht Hf. pose proof (pl_self _ _ (bd_plan _ _ _ Hb) _ _ _ Ht Hf) as Hl.
  destruct l as [s|s y|s i]; cbn in Hl.
  - subst. by apply start_ok.
  - destruct Hl as [-> Hy]. by apply work_ok.
  - destruct Hl as [-> Hi]. by apply notify_ok.
Qed.
(** Main creates a root. *)
Lemma plan_root f x todo y :
  plan (x :: todo) f → valid x → deps x = [] → x ∉ todo → created x y → is_new (at_ f x) = true →
  plan todo (<[x := y]> f) ∧ ∀ z, pending (<[x := y]> f) z = pending f z.
Proof using.
  intros [Hself Hnew Hroot Hlost] Hx Hd Hin Hy Hf.
  assert (is_new y = false ∧ ∀ x, notified y x = false) as [Hyn Hyx] by (by destruct Hy as [[-> _]|[q ->]]).
  assert (∀ z, pending (<[x := y]> f) z = pending f z) as Hsame.
  { intros z. apply pending_same. left. rewrite Hyx. by destruct (at_ f x). }
  split; [|done]. split.
  - intros s q l Hs. rewrite at_insert. case_decide; subst; [|by apply Hself].
    intros ->. destruct Hy as [[? _]|[q' Hy]]; [done|]. by injection Hy as <- ->.
  - intros z Hz Hdz. rewrite Hsame, at_insert. case_decide; subst; [done|by apply Hnew].
  - intros z Hz Hdz. rewrite at_insert. case_decide; subst; [by rewrite Hyn|].
    rewrite Hroot, elem_of_cons by done. split; [by intros [->|?]|auto].
  - intros z Hz. rewrite at_insert. case_decide; subst; [|by apply Hlost].
    intros ->. destruct Hy as [[_ ?]|[q' ?]]; done.
Qed.

Lemma board_root f x todo y m :
  board (x :: todo) f m → valid x → deps x = [] → x ∉ todo → created x y → is_new (at_ f x) = true →
  board todo (<[x := y]> f) m.
Proof using.
  intros [Hc Hp Hl] Hx Hd Hin Hy Hf. destruct (plan_root _ _ _ _ Hp Hx Hd Hin Hy Hf) as [Hp' Hs].
  split; [by eapply counts_same|done|]. eapply log_same; [done|done|]. intros z. rewrite at_insert.
  case_decide; subst; [|done]. by destruct (at_ f z), Hy as [[-> _]|[q ->]].
Qed.

(** When all coroutines have returned, every task has finished. *)
Lemma all_finished f :
  plan [] f → (∀ x, valid x → at_ f x = LNew ∨ at_ f x = LLost ∨ ∃ p, at_ f x = LOn p None) →
  may_refuse ∨ ∀ x, valid x → ∃ p, at_ f x = LOn p None.
Proof using built.
  intros Hp Hall.
  set (lost := λ x, match at_ f x with LLost => true | _ => false end).
  destruct (decide (Exists lost (seqZ 0 n))) as [Hl|Hl]; [left|right].
  { apply Exists_exists in Hl as (x & Hx%elem_of_seqZ & Hl). apply (pl_lost _ _ Hp x); [unfold valid; lia|].
    unfold lost in Hl. by destruct (at_ f x). }
  assert (∀ x, valid x → at_ f x ≠ LLost) as Hnl.
  { intros x Hx He. apply Hl, Exists_exists. exists x. unfold lost. rewrite He. split; [|done].
    apply elem_of_seqZ. unfold valid in Hx. lia. }
  assert (∀ k x, (rank x < k)%nat → valid x → ∃ p, at_ f x = LOn p None) as Hk; [|by intros x; apply (Hk (S (rank x))); lia].
  induction k as [|k IH]; intros x Hk Hx; [lia|]. destruct (Hall x Hx) as [Hn|[Hn|Hn]];
    [exfalso|by apply Hnl in Hn|done].
  destruct (deps x) as [|d0 ds] eqn:Hd.
  - assert (x ∈ []) as Hin by (apply (pl_root _ _ Hp x); by rewrite ?Hn). by apply not_elem_of_nil in Hin.
  - pose proof (pl_new _ _ Hp x Hx) as Hnew. rewrite Hn, Hd in Hnew. specialize (Hnew ltac:(done)).
    symmetry in Hnew. apply Z.ltb_lt in Hnew. unfold pending in Hnew.
    destruct (waits_for f x) as [|d l] eqn:Hw; [done|].
    assert (d ∈ waits_for f x) as [Hdn Hdd]%list_elem_of_filter by (rewrite Hw; by left).
    destruct (wb_deps built x d Hx Hdd) as [Hvd Hr]. destruct (IH d ltac:(lia) Hvd) as [p Hpd].
    by rewrite Hpd in Hdn.
Qed.
End moves.
End graph.
End Graph.
