(* ===== verification/GraphRun.v ===== *)
(** * Running a task graph ([examples/task_graph.c])

    The program around [Graph]: main creates the tasks that depend on nothing
    and calls [co_run]; the coroutine of a task creates others.  The program
    ends with every task finished ([task_graph_completes]). *)

From stdpp Require Import gmap relations.
From S2P Require Import Prelude Ring Machine State RunQueue Api Ops Invariant.
From S2P Require Import Preserve Create Spec Refine Safety Threads Demo User Progress ForkJoin.
From S2P Require Import Buffers Staged Graph.

Module GraphRun.
Import TaskGraph Graph.

Lemma lf_task : LeafBodies point (option mem).
Proof.
  intros l [m|] z; [|done]. cbn. unfold run_body. cbn.
  destruct (step_point l m) as [[m' c]|] eqn:Hs; [|done]. cbn. intros ->.
  destruct l as [s|s y|s i]; cbn in Hs.
  - destruct (arr_get _ _) as [t|]; [|done]. cbn in Hs. destruct (work_yields (work t)); [|done].
    cbn in Hs. unfold work_loop in Hs. by case_match.
  - unfold work_loop in Hs. by destruct y.
  - unfold notify in Hs. destruct (i <? g_task_count m); [|done].
    destruct (arr_get _ _) as [o|]; [|done]. cbn in Hs. destruct (depends_on s o); [|done].
    destruct (cadd _ _) as [r|]; [|done]. cbn in Hs. destruct (arr_set _ _ _); [|done]. cbn in Hs.
    by case_match.
Qed.
#[export] Existing Instance lf_task.

(** ** The cost of a task *)

(** One for each stretch of its code; the last of its notifications is for
    task 15. *)
Definition cost_of (l : point) : nat :=
  match l with
  | TStart _ => 22
  | TWork _ y => y + 18
  | TNotify _ i => Z.to_nat (MAX_TASKS - i)
  end.

(** The tasks that have still to be created by others. *)
Definition waiting (t : Task) : Z := if 0 <? deps_remaining t then 1 else 0.
Definition bank (m : mem) : Z := sumZ (waiting <$> g_tasks m).

Lemma waiting_nonneg t : 0 ≤ waiting t.
Proof. unfold waiting. by case_match. Qed.

Lemma bank_nonneg m : 0 ≤ bank m.
Proof.
  unfold bank. induction (g_tasks m) as [|t ts IH]; cbn; [done|].
  pose proof (waiting_nonneg t). unfold sumZ in *. lia.
Qed.

Lemma bank_max m : bank m ≤ Z.of_nat (length (g_tasks m)).
Proof.
  unfold bank. induction (g_tasks m) as [|t ts IH]; cbn -[Z.of_nat]; [done|].
  assert (waiting t ≤ 1) by (unfold waiting; by case_match). unfold sumZ in *. lia.
Qed.

Lemma bank_set m i t t' c o :
  zlookup (g_tasks m) i = Some t →
  bank (Mem (zinsert i t' (g_tasks m)) c o) = bank m - waiting t + waiting t'.
Proof.
  unfold bank, zinsert, zlookup. cbn. destruct (0 <=? i); [intros Hi|done].
  rewrite list_fmap_insert. rewrite (sumZ_insert _ _ (waiting t)); [done|].
  by rewrite list_lookup_fmap, Hi.
Qed.

Definition pays (l : point) (m m' : mem) (c : ucall point) : Prop :=
  length (g_tasks m') = length (g_tasks m) ∧
  match c with
  | UReturn => bank m' = bank m
  | UTau l' | UYield l' => (cost_of l' < cost_of l)%nat ∧ bank m' ≤ bank m
  | UCreate _ _ _ k => (∀ q, (cost_of (k q) < cost_of l)%nat) ∧ bank m' + 1 = bank m
  | _ => True
  end.

Lemma step_pays l m m' c :
  Z.of_nat (length (g_tasks m)) = MAX_TASKS → step_point l m = Some (m', c) → pays l m m' c.
Proof.
  intros Hl Hs. unfold pays. destruct l as [s|s y|s i]; cbn in Hs.
  - destruct (arr_get _ _) as [t|]; [|done]. cbn in Hs. unfold work_loop in Hs.
    destruct (work t); cbn in Hs; [done|..]; injection Hs as <- <-; cbn; unfold bank, MAX_TASKS; cbn; lia.
  - unfold work_loop in Hs. destruct y; injection Hs as <- <-; cbn; unfold bank, MAX_TASKS; cbn; lia.
  - unfold notify in Hs. destruct (i <? g_task_count m); [|by injection Hs as <- <-].
    destruct (arr_get _ _) as [o|] eqn:Ho; [|done]. cbn in Hs. unfold arr_get in Ho.
    assert (i < MAX_TASKS) as Hi by (apply zlookup_Some_lt in Ho; lia).
    assert (cost_of (TNotify s (i + 1)) < cost_of (TNotify s i))%nat as Hc by (cbn; lia).
    destruct (depends_on s o); [|injection Hs as <- <-; split_and!; [done..|lia]].
    destruct (cadd _ _) as [r|] eqn:Hr; [|done]. cbn in Hs.
    unfold cadd in Hr. destruct (in_int _); [|done]. injection Hr as <-.
    set (r := deps_remaining o + -1) in *.
    unfold arr_set in Hs. destruct (in_bounds _ _); [|done]. cbn in Hs.
    pose proof (bank_set m i o (set_remaining r o) (g_task_count m) (printed m) Ho) as Hb.
    unfold waiting in Hb. cbn [deps_remaining set_remaining] in Hb.
    destruct (Z.eqb_spec r 0) as [Hz|Hz]; injection Hs as <- <-; cbn [g_tasks];
      rewrite length_zinsert; (split; [done|]); (split; [done|]); rewrite Hb;
      destruct (Z.ltb_spec 0 r), (Z.ltb_spec 0 (deps_remaining o)); lia.
Qed.

(** ** The coroutines of the tasks *)

Local Abbreviation T := (option (list (ptr * ptr)) + point)%type.
Local Instance graph_code : UserCode T (option mem) := program spawn_all.

Definition thread_at_point (o : option point) (th : thread T) : Prop :=
  match o with Some l => th = At (inr l) | None => th = Exiting end.

Section staff.
Variable n : Z.
Implicit Types (P : pool T (option mem)) (f : locs) (x : Z) (p : ptr).

(** The coroutines are those of distinct tasks, at the control points of [f]. *)
Record staff P f : Prop := {
  sf_reg : ∃ xs, NoDup xs ∧ Forall2 (λ p x, valid n x ∧ ∃ o, at_ f x = LOn p o) (p_reg P) xs;
  sf_thread p th : p_threads P !! Some p = Some th →
    ∃ x o, valid n x ∧ at_ f x = LOn p o ∧ thread_at_point o th;
  sf_same x y p o o' : valid n x → valid n y → at_ f x = LOn p o → at_ f y = LOn p o' → x = y;
  sf_dead p : p ∈ p_dead P → p_threads P !! Some p = None ∧ ∃ x, valid n x ∧ at_ f x = LOn p None;
  sf_live x p o : valid n x → at_ f x = LOn p o → live P p
}.

Lemma sf_reg_live P f p : staff P f → p ∈ p_reg P → live P p.
Proof using.
  intros Hs Hp. destruct (sf_reg _ _ Hs) as (xs & _ & Hf).
  apply list_elem_of_lookup in Hp as [i Hi].
  destruct (Forall2_lookup_l _ _ _ _ _ Hf Hi) as (x & _ & Hx & o & Ho). by eapply sf_live.
Qed.

(** There are at most as many as tasks. *)
Lemma sf_few P f x :
  staff P f → 0 ≤ n → valid n x → at_ f x = LNew → Z.of_nat (length (p_reg P)) < n.
Proof using.
  intros Hs Hn Hx Hf. destruct (sf_reg _ _ Hs) as (xs & Hnd & Hall).
  rewrite (Forall2_length _ _ _ Hall).
  assert (NoDup (x :: xs)) as Hnd'.
  { apply NoDup_cons. split; [|done]. intros [i Hi]%list_elem_of_lookup.
    destruct (Forall2_lookup_r _ _ _ _ _ Hall Hi) as (p & _ & _ & o & Ho). congruence. }
  assert (x :: xs ⊆+ seqZ 0 n) as Hsub%submseteq_length.
  { apply NoDup_submseteq; [done|]. intros y [->|Hy]%elem_of_cons; apply elem_of_seqZ.
    - unfold valid in Hx. lia.
    - apply list_elem_of_lookup in Hy as [i Hi].
      destruct (Forall2_lookup_r _ _ _ _ _ Hall Hi) as (p & _ & Hv & _). unfold valid in Hv. lia. }
  rewrite length_seqZ in Hsub. cbn in Hsub. lia.
Qed.

(** The thread of [x] goes on. *)
Lemma staff_goes P f x p o th o' th' u :
  staff P f → valid n x → at_ f x = LOn p o → p_threads P !! Some p = Some th →
  thread_at_point o' th' →
  staff (goes P (Some p) th' u) (<[x := LOn p o']> f).
Proof using.
  intros [Hr Ht Hsame Hd Hl] Hx Hf Hp Hth.
  assert (∀ y q o1, at_ (<[x := LOn p o']> f) y = LOn q o1 → ∃ o2, at_ f y = LOn q o2) as Hback.
  { intros y q o1. rewrite at_insert. case_decide; [subst|by eauto]. intros [= <- <-]. eauto. }
  assert (∀ y q o1, valid n y → at_ (<[x := LOn p o']> f) y = LOn q o1 → live P q) as Hlive.
  { intros y q o1 Hy (o2 & H2)%Hback. by eapply Hl. }
  split; cbn.
  - destruct Hr as (xs & Hnd & Hall). exists xs. split; [done|].
    eapply Forall2_impl; [exact Hall|]. intros q y [Hy [o1 Ho1]]. split; [done|].
    rewrite at_insert. case_decide; subst; [|eauto]. rewrite Hf in Ho1. injection Ho1 as -> _. eauto.
  - intros q th0 [[[= <-] <-]|[Hne Hq]]%lookup_insert_Some.
    + exists x, o'. by rewrite at_insert_eq.
    + destruct (Ht _ _ Hq) as (y & o1 & Hy & Ho1 & Hth1). exists y, o1.
      rewrite at_insert_ne; [done|]. intros ->. congruence.
  - intros y z q o1 o2 Hy Hz (o3 & H3)%Hback (o4 & H4)%Hback. by eapply Hsame.
  - intros q [Hq (y & Hy & Hn)]%Hd. assert (q ≠ p) by congruence.
    rewrite lookup_insert_ne by congruence. split; [done|]. exists y.
    rewrite at_insert_ne; [done|]. intros ->. congruence.
  - intros y q o1 Hy Ho. destruct (Hlive _ _ _ Hy Ho) as [Hq|Hq]; [left|by right]. cbn.
    rewrite lookup_insert. case_decide; eauto.
Qed.

(** Main goes on. *)
Lemma staff_main P P' f :
  staff P f → (∀ p, p_threads P' !! Some p = p_threads P !! Some p) →
  p_dead P' = p_dead P → p_reg P' = p_reg P → staff P' f.
Proof using.
  intros [Hr Ht Hsame Hd Hl] H1 H2 H3. split.
  - by rewrite H3.
  - intros p th. rewrite H1. apply Ht.
  - done.
  - intros p. rewrite H1, H2. apply Hd.
  - intros x p o Hx Hf. unfold live. rewrite H1, H2. by eapply Hl.
Qed.

Lemma staff_exit P f p :
  staff P f → p_threads P !! Some p = Some Exiting →
  staff (Pool (wake_thread p <$> delete (Some p) (p_threads P)) ({[p]} ∪ p_dead P)
           (p_reg P) (p_mem P)) f.
Proof using.
  intros [Hr Ht Hsame Hd Hl] Hp. split; cbn; [done| |done|..].
  - intros q th. rewrite lookup_fmap.
    intros (th0 & [Hne Hq]%lookup_delete_Some & ->)%fmap_Some.
    destruct (Ht _ _ Hq) as (y & [l|] & Hy & Hloc & Hth); cbn in Hth; subst;
      eexists y, _; by split_and!.
  - intros q [->%elem_of_singleton|[Hq He]%Hd]%elem_of_union.
    + rewrite lookup_fmap, lookup_delete_eq. split; [done|].
      destruct (Ht _ _ Hp) as (y & [l|] & Hy & Hloc & Hth); [done|eauto].
    + rewrite lookup_fmap, lookup_delete_ne by congruence. by rewrite Hq.
  - intros y q o Hy Hq. pose proof (Hl _ _ _ Hy Hq) as Hlive. unfold live in *. cbn.
    rewrite elem_of_union, elem_of_singleton.
    destruct (decide (q = p)) as [->|Hne]; [by right; left|].
    destruct Hlive as [[th Hlive]|]; [left|by right; right].
    rewrite lookup_fmap, lookup_delete_ne by congruence. rewrite Hlive. eauto.
Qed.

(** The creation of [x] fails. *)
Lemma staff_lost P f x : staff P f → at_ f x = LNew → staff P (<[x := LLost]> f).
Proof using.
  intros [Hr Ht Hsame Hd Hl] Hf.
  assert (∀ y q o, at_ (<[x := LLost]> f) y = LOn q o ↔ at_ f y = LOn q o) as He.
  { intros y q o. rewrite at_insert. case_decide; subst; [|done]. by rewrite Hf. }
  split.
  - destruct Hr as (xs & Hnd & Hall). exists xs. split; [done|].
    eapply Forall2_impl; [exact Hall|]. intros q y [Hy [o1 Ho1]]. split; [done|]. exists o1. by apply He.
  - intros p th (y & o & Hy & Ho & Hth)%Ht. exists y, o. by rewrite He.
  - intros y z q o o'. rewrite !He. apply Hsame.
  - intros p (Hp & y & Hy & Ho)%Hd. split; [done|]. exists y. by rewrite He.
  - intros y p o. rewrite He. apply Hl.
Qed.

(** It is created by thread [t], which goes on as [th]. *)
Lemma staff_create P f x p t th u :
  staff (goes P t th u) f → valid n x → at_ f x = LNew → ¬ live P p → t ≠ Some p →
  staff (Pool (<[Some p := At (inr (TStart x))]> (<[t := th]> (p_threads P)))
           (p_dead P) (p_reg P ++ [p]) u) (<[x := LOn p (Some (TStart x))]> f).
Proof using.
  intros [Hr Ht Hsame Hd Hl] Hx Hf Hp Htp.
  cbn in *.
  assert (∀ y q o, valid n y → at_ f y = LOn q o → q ≠ p) as Hfresh.
  { intros y q o Hy Ho ->. destruct (Hl _ _ _ Hy Ho) as [[th0 H0]|H0]; cbn in H0.
    - apply Hp. apply lookup_insert_Some in H0 as [[? _]|[_ H0]]; [done|]. left. eauto.
    - apply Hp. by right. }
  split; cbn.
  - destruct Hr as (xs & Hnd & Hall). exists (xs ++ [x]). split.
    + apply NoDup_app. split_and!; [done| |apply NoDup_singleton].
      intros y Hy ->%list_elem_of_singleton. apply list_elem_of_lookup in Hy as [i Hi].
      destruct (Forall2_lookup_r _ _ _ _ _ Hall Hi) as (q & _ & _ & o & Ho). congruence.
    + apply Forall2_app; [|constructor; [|done]; split; [done|]; rewrite at_insert_eq; eauto].
      eapply Forall2_impl; [exact Hall|]. intros q y [Hy [o Ho]]. split; [done|].
      rewrite at_insert_ne; [eauto|]. intros ->. congruence.
  - intros q th0 [[[= <-] <-]|[Hne Hq]]%lookup_insert_Some.
    + exists x, (Some (TStart x)). by rewrite at_insert_eq.
    + destruct (Ht _ _ Hq) as (y & o & Hy & Ho & Hth). exists y, o.
      rewrite at_insert_ne; [done|]. intros ->. congruence.
  - intros y z q o o' Hy Hz. rewrite !at_insert. repeat case_decide; subst; try done.
    + intros [= <- _] Ho. by destruct (Hfresh _ _ _ Hz Ho).
    + intros Ho [= <- _]. by destruct (Hfresh _ _ _ Hy Ho).
    + by eapply Hsame.
  - intros q Hq. destruct (Hd q Hq) as (Hn & y & Hy & Ho).
    rewrite lookup_insert_ne by (intros [= ->]; by eapply Hfresh). split; [done|].
    exists y. rewrite at_insert_ne; [done|]. intros ->. congruence.
  - intros y q o Hy. rewrite at_insert. unfold live. cbn. rewrite lookup_insert.
    case_decide as Hxy; [intros [= <- _]; rewrite decide_True by done; eauto|]. intros Ho.
    rewrite decide_False by (intros [= <-]; by eapply Hfresh). by eapply Hl.
Qed.

(** [co_run] has returned. *)
Lemma staff_joined P f :
  staff P f → (∀ p th, p_threads P !! Some p = Some th → awaits_thread th) →
  (∀ p, p_threads P !! Some p = None)
  ∧ ∀ x, valid n x → at_ f x = LNew ∨ at_ f x = LLost ∨ ∃ p, at_ f x = LOn p None.
Proof using.
  intros Hs Ha.
  assert (∀ p, p_threads P !! Some p = None) as Hn.
  { intros p. destruct (p_threads P !! Some p) as [th|] eqn:Hp; [|done]. exfalso.
    destruct (Ha _ _ Hp) as (o & z & ->).
    by destruct (sf_thread _ _ Hs _ _ Hp) as (y & [] & _ & _ & ?). }
  split; [done|]. intros x Hx. destruct (at_ f x) as [| |p o] eqn:Hf; [by left|by right; left|].
  right; right. destruct (sf_live _ _ Hs _ _ _ Hx Hf) as [[th Hp]|Hp]; [by rewrite Hn in Hp|].
  destruct (sf_dead _ _ Hs _ Hp) as (_ & y & Hy & Ho).
  rewrite (sf_same _ _ Hs _ _ _ _ _ Hy Hx Ho Hf) in Ho. rewrite Hf in Ho. injection Ho as ->. eauto.
Qed.
End staff.

(** ** The program *)

Definition spawn (todo : list Z) : option (list (ptr * ptr)) :=
  Some ((λ x, (fn_task_coroutine, x)) <$> todo).

(** What main and the tasks have still to do; a task yet to be created counts
    as one at its start. *)
Definition point_cost (x : T) : nat :=
  match x with
  | inl (Some todo) => 24 * length todo + 1
  | inl None => 0
  | inr l => cost_of l
  end.
Definition graph_cost (P : pool T (option mem)) : nat :=
  pool_cost (λ l _, point_cost l) P + 68 * Z.to_nat (from_option bank 0 (p_mem P)).

Section program.
Context `{R : Refusal, AL : Allocator, LK : LinkMap}.
Variables (n : Z) (T0 : list Task) (rank : Z → nat) (todo0 : list Z).
Hypothesis built : well_built n T0 rank.
Hypothesis roots_nodup : NoDup todo0.
Hypothesis roots_ok : ∀ x, x ∈ todo0 ↔ valid n x ∧ deps T0 x = [].
Implicit Types (P : pool T (option mem)) (f : locs) (x : Z) (p : ptr).

Inductive g_inv P : Prop :=
| g_creating todo f m : p_mem P = Some m → p_threads P !! None = Some (At (inl (spawn todo))) →
    staff n P f → board n T0 todo f m → NoDup todo →
    (∀ x, x ∈ todo → valid n x ∧ deps T0 x = []) → g_inv P
| g_running f m : p_mem P = Some m → p_threads P !! None = Some (InRun (inl None)) →
    staff n P f → board n T0 [] f m → g_inv P
| g_ended f m : p_mem P = Some m →
    (p_threads P !! None = Some (At (inl None)) ∨ p_threads P !! None = None) →
    (∀ p, p_threads P !! Some p = None) → board n T0 [] f m →
    (may_refuse ∨ ∀ x, valid n x → ∃ p, at_ f x = LOn p None) → g_inv P.

(** A task runs up to its next call. *)
Lemma task_call P f m p y c u P' :
  p_mem P = Some m → p_threads P !! None = Some (InRun (inl None)) → staff n P f →
  board n T0 [] f m → p_threads P !! Some p = Some (At y) →
  ustep y (p_mem P) = (c, u) → call_step P (Some p) u c P' → g_inv P'.
Proof using built.
  intros Hm Hrun Hs Hb Hp Hu Hc.
  destruct (sf_thread _ _ _ Hs _ _ Hp) as (t & [l|] & Ht & Hf & Hth); [|done].
  injection Hth as ->.
  destruct (stretch_ok n T0 rank built f t p l m Hb Ht Hf) as (m' & c' & Hstep & Hgo).
  cbn in Hu. unfold run_body in Hu. rewrite Hm in Hu. cbn in Hu. rewrite Hstep in Hu.
  injection Hu as <- <-.
  destruct c' as [|l'|l'|o l'|fn x sz k|q l'|q k|k|l']; try done; cbn in Hgo, Hc; inversion Hc; subst;
    try done.
  - eapply g_running; [done|by cbn; rewrite lookup_insert_ne| |exact Hgo]. by eapply staff_goes.
  - eapply g_running; [done|by cbn; rewrite lookup_insert_ne| |exact Hgo]. by eapply staff_goes.
  - eapply g_running; [done|by cbn; rewrite lookup_insert_ne| |exact Hgo]. by eapply staff_goes.
  - destruct Hgo as (-> & -> & Hx & Hfx & l' & Hk & Hgo). rewrite Hk.
    eapply g_running; [done|by cbn; rewrite lookup_insert_ne| |apply (Hgo LLost); by left].
    apply staff_lost; [by eapply staff_goes|]. rewrite at_insert_ne; [done|]. intros ->. congruence.
  - destruct Hgo as (-> & -> & Hx & Hfx & l' & Hk & Hgo). rewrite Hk.
    eapply g_running; [done|by cbn; rewrite !lookup_insert_ne| |eapply Hgo; by right; eexists].
    apply staff_create; [by eapply staff_goes|done| |done|].
    + rewrite at_insert_ne; [done|]. intros ->. congruence.
    + intros [= ->]. match goal with Hl : ¬ live _ _ |- _ => apply Hl end. left. eauto.
Qed.

Lemma main_call P todo f m c u P' :
  p_mem P = Some m → p_threads P !! None = Some (At (inl (spawn todo))) → staff n P f →
  board n T0 todo f m → NoDup todo → (∀ x, x ∈ todo → valid n x ∧ deps T0 x = []) →
  ustep (inl (spawn todo)) (p_mem P) = (c, u) → call_step P None u c P' → g_inv P'.
Proof using.
  intros Hm Ht Hs Hb Hnd Hroot Hu Hc. destruct todo as [|x todo]; injection Hu as <- <-.
  - inversion Hc; subst; [].
    eapply g_running; [done|apply lookup_insert_eq| |done]. eapply staff_main; [done| |done..].
    intros p. cbn. by rewrite lookup_insert_ne.
  - apply NoDup_cons in Hnd as [Hx Hnd]. destruct (Hroot x) as [Hv Hd]; [by left|].
    assert (is_new (at_ f x) = true) as Hn
      by (apply (pl_root _ _ _ _ (bd_plan _ _ _ _ _ Hb)); [done|done|by left]).
    assert (∀ y, created x y → board n T0 todo (<[x := y]> f) m) as Hb'.
    { intros y Hy. by eapply board_root. }
    assert (at_ f x = LNew) as Hf by (by destruct (at_ f x)).
    assert (∀ y, y ∈ todo → valid n y ∧ deps T0 y = []) as Hroot' by (intros y Hy; apply Hroot; by right).
    inversion Hc; subst.
    + eapply g_creating; [done|apply lookup_insert_eq| |apply Hb'; by left|done|done].
      apply staff_lost; [|done]. eapply staff_main; [done| |done..].
      intros p. cbn. by rewrite lookup_insert_ne.
    + eapply g_creating; [done|by cbn; rewrite lookup_insert_ne, lookup_insert_eq| |
        apply Hb'; by right; eexists|done|done].
      apply staff_create; [|done..]. eapply staff_main; [done| |done..].
      intros q. cbn. by rewrite lookup_insert_ne.
Qed.

Lemma g_inv_step P P' : g_inv P → pool_step P P' → g_inv P'.
Proof using built.
  intros HP Hs.
  destruct HP as [todo f m Hm Ht Hst Hb Hnd Hroot|f m Hm Ht Hst Hb|f m Hm Ht Hn Hb Hall];
    destruct Hs as [t y c u P1 Hy Hu Hin Hcs|p x Hp Hx Hlive|x Hx Ha]; try congruence.
  - destruct t as [p|]; [destruct Hin as [x Hx]; congruence|].
    rewrite Ht in Hy. injection Hy as <-. by eapply main_call.
  - destruct t as [p|]; [|congruence]. by eapply task_call.
  - eapply g_running; [done| |by apply staff_exit|done]. cbn.
    by rewrite lookup_fmap, lookup_delete_ne, Ht.
  - rewrite Ht in Hx. injection Hx as <-.
    destruct (staff_joined _ _ _ Hst Ha) as [Hn Hall].
    eapply g_ended; [done|left; apply lookup_insert_eq| |exact Hb|].
    + intros p. cbn. by rewrite lookup_insert_ne.
    + by eapply all_finished; [..|apply Hb|].
  - destruct t as [p|]; [by rewrite Hn in Hy|]. destruct Ht as [Ht|Ht]; [|congruence].
    rewrite Ht in Hy. injection Hy as <-. injection Hu as <- <-. inversion Hcs; subst; [|done].
    eapply g_ended; [done|right; apply lookup_delete_eq| |exact Hb|done].
    intros p. cbn. by rewrite lookup_delete_ne.
  - by destruct Ht; congruence.
Qed.

Lemma g_no_fault P e : g_inv P → pool_fault P e → False.
Proof using built.
  intros HP He. pose proof (wb_max _ _ _ built) as Hmax. unfold MAX_TASKS in Hmax.
  destruct HP as [todo f m Hm Ht Hst Hb Hnd Hroot|f m Hm Ht Hst Hb|f m Hm Ht Hn Hb Hall];
    destruct He as [t y c u e Hy Hu Hin Hf|p x q Hp Hx Hq Hlive]; try congruence.
  - destruct t as [p|]; [destruct (Hin ltac:(done)) as [x Hx]; congruence|].
    rewrite Ht in Hy. injection Hy as <-.
    destruct todo as [|x todo]; injection Hu as <- <-; inversion Hf; subst; [|by apply size_default].
    destruct (Hroot x) as [Hv Hd]; [by left|].
    assert (is_new (at_ f x) = true) as Hnew
      by (apply (pl_root _ _ _ _ (bd_plan _ _ _ _ _ Hb)); [done|done|by left]).
    assert (Z.of_nat (length (p_reg P)) < n); [|consts; lia].
    eapply sf_few; [done|unfold valid in Hv; lia|done|by destruct (at_ f x)].
  - destruct t as [p|]; [|congruence].
    destruct (sf_thread _ _ _ Hst _ _ Hy) as (t & [l|] & Hv & Hl & Hth); [|done].
    injection Hth as ->.
    destruct (stretch_ok n T0 rank built f t p l m Hb Hv Hl) as (m' & c' & Hstep & Hgo).
    cbn in Hu. unfold run_body in Hu. rewrite Hm in Hu. cbn in Hu. rewrite Hstep in Hu.
    injection Hu as <- <-. destruct c'; try done; inversion Hf; simplify_eq; cbn in Hgo;
      destruct Hgo as (Hfn & Hsz & Hx & Hfx & _); simplify_eq; [|by apply size_default].
    assert (Z.of_nat (length (p_reg P)) < n); [|consts; lia].
    eapply sf_few; [done|unfold valid in Hx; lia|done|done].
  - apply Hlive. by eapply sf_reg_live.
  - destruct t as [p|]; [by rewrite Hn in Hy|]. destruct Ht as [Ht|Ht]; [|congruence].
    rewrite Ht in Hy. injection Hy as <-. injection Hu as <- <-. inversion Hf.
Qed.

(** ** Termination *)

(** Thread [t], at [y], becomes [th]. *)
Lemma graph_goes P t y th (u : option mem) :
  p_threads P !! t = Some (At y) →
  (total (λ l, point_cost l) (<[t := th]> (p_threads P)) + (3 * point_cost y + 2)
   ≤ pool_cost (λ l _, point_cost l) P + thread_cost (λ l, point_cost l) th)%nat.
Proof using. intros Ht. by apply (goes_cost (λ l _, point_cost l) P t y u th). Qed.

Lemma graph_new P t th p y :
  ¬ live P p → t ≠ Some p →
  total (λ l, point_cost l) (<[Some p := At y]> (<[t := th]> (p_threads P)))
  = (3 * point_cost y + 2 + total (λ l, point_cost l) (<[t := th]> (p_threads P)))%nat.
Proof using.
  intros Hp Ht. rewrite total_insert; [done|]. rewrite lookup_insert_ne by done.
  apply eq_None_not_Some. intros Hs. apply Hp. by left.
Qed.

Lemma task_decreases P f m p y c u P' :
  p_mem P = Some m → staff n P f → board n T0 [] f m → p_threads P !! Some p = Some (At y) →
  ustep y (p_mem P) = (c, u) → call_step P (Some p) u c P' → (graph_cost P' < graph_cost P)%nat.
Proof using built.
  intros Hm Hs Hb Hp Hu Hc.
  destruct (sf_thread _ _ _ Hs _ _ Hp) as (t & [l|] & Ht & Hf & Hth); [|done].
  injection Hth as ->.
  destruct (stretch_ok n T0 rank built f t p l m Hb Ht Hf) as (m' & c' & Hstep & Hgo).
  assert (Z.of_nat (length (g_tasks m)) = MAX_TASKS) as Hlen
    by (rewrite (ct_length _ _ _ _ (bd_counts _ _ _ _ _ Hb)); apply built).
  pose proof (step_pays _ _ _ _ Hlen Hstep) as [_ Hpay].
  cbn in Hu. unfold run_body in Hu. rewrite Hm in Hu. cbn in Hu. rewrite Hstep in Hu.
  injection Hu as <- <-.
  pose proof (λ th, graph_goes P (Some p) (inr l) th (Some m') Hp) as Hgoes.
  pose proof (bank_nonneg m). pose proof (bank_nonneg m'). unfold graph_cost.
  destruct c' as [|l'|l'|o l'|fn x sz k|q l'|q k|k|l']; try done; cbn in Hgo, Hc; inversion Hc; subst;
    try done; unfold pool_cost at 1; cbn [p_threads p_mem goes from_option]; rewrite Hm;
    cbn [from_option].
  - specialize (Hgoes Exiting). cbn in Hgoes. lia.
  - specialize (Hgoes (At (inr l'))). cbn in Hgoes. lia.
  - specialize (Hgoes (At (inr l'))). cbn in Hgoes. lia.
  - specialize (Hgoes (At (inr (k NULL)))). cbn in Hgoes. destruct Hpay as [Hk Hpay].
    specialize (Hk NULL). lia.
  - rewrite graph_new; [|done|].
    2: { intros [= ->]. match goal with Hl : ¬ live _ _ |- _ => apply Hl end. left. eauto. }
    match goal with |- context [<[Some p := At (inr (k ?q))]> _] =>
      specialize (Hgoes (At (inr (k q)))); destruct Hpay as [Hk Hpay]; specialize (Hk q) end.
    cbn in *. lia.
Qed.

Lemma spawn_cost todo : point_cost (inl (spawn todo)) = (24 * length todo + 1)%nat.
Proof using. cbn -[Nat.mul]. by rewrite length_fmap. Qed.

Lemma main_decreases P m y c u P' :
  p_mem P = Some m → p_threads P !! None = Some (At (inl y)) → y = None ∨ (∃ todo, y = spawn todo) →
  ustep (inl y) (p_mem P) = (c, u) → call_step P None u c P' → (graph_cost P' < graph_cost P)%nat.
Proof using.
  intros Hm Ht Hy Hu Hc.
  pose proof (λ th, graph_goes P None (inl y) th (p_mem P) Ht) as Hgoes. unfold graph_cost.
  destruct Hy as [->|[[|x todo] ->]]; injection Hu as <- <-; inversion Hc; subst; try done;
    unfold pool_cost at 1; cbn [p_threads p_mem goes].
  - pose proof (total_delete (λ l, point_cost l) _ _ _ Ht) as Hd. unfold pool_cost. cbn in *. lia.
  - specialize (Hgoes (InRun (inl None))). cbn in Hgoes. lia.
  - match goal with |- context [<[None := At ?z]> _] => change z with (@inl _ point (spawn todo)) end.
    specialize (Hgoes (At (inl (spawn todo)))). rewrite !spawn_cost in Hgoes.
    cbn [length] in Hgoes. cbn [thread_cost] in Hgoes. rewrite spawn_cost in Hgoes. lia.
  - match goal with |- context [<[None := At ?z]> _] => change z with (@inl _ point (spawn todo)) end.
    rewrite graph_new by done.
    specialize (Hgoes (At (inl (spawn todo)))). rewrite !spawn_cost in Hgoes.
    cbn [length] in Hgoes. cbn [thread_cost] in Hgoes. rewrite spawn_cost in Hgoes. cbn. lia.
Qed.

Lemma graph_decreases P P' : g_inv P → pool_step P P' → (graph_cost P' < graph_cost P)%nat.
Proof using built.
  intros HP Hs.
  destruct Hs as [t y c u P1 Hy Hu Hin Hcs|p x Hp Hx Hlive|x Hx Ha].
  - destruct HP as [todo f m Hm Ht Hst Hb Hnd Hroot|f m Hm Ht Hst Hb|f m Hm Ht Hn Hb Hall].
    + destruct t as [p|]; [destruct Hin as [x Hx]; congruence|].
      rewrite Ht in Hy. injection Hy as <-. eapply main_decreases; eauto.
    + destruct t as [p|]; [|congruence]. by eapply task_decreases.
    + destruct t as [p|]; [by rewrite Hn in Hy|]. destruct Ht as [Ht|Ht]; [|congruence].
      rewrite Ht in Hy. injection Hy as <-. eapply main_decreases; eauto.
  - unfold graph_cost, pool_cost. cbn [p_threads p_mem].
    rewrite total_wake, (total_delete _ (p_threads P) _ _ Hp). cbn. lia.
  - unfold graph_cost, pool_cost. cbn [p_threads p_mem goes].
    pose proof (total_update (λ l, point_cost l) _ None _ (At x) Hx) as Ht. cbn in Ht. lia.
Qed.

(** ** The whole run *)

Lemma pending_new x : pending T0 ∅ x = Z.of_nat (length (deps T0 x)).
Proof using.
  unfold pending, waits_for. do 2 f_equal. induction (deps T0 x) as [|d ds IH]; [done|].
  rewrite filter_cons_True by done. by f_equal.
Qed.

Lemma g_inv_init : g_inv (init_pool (Some (Mem T0 n [])) (inl (spawn todo0))).
Proof using built roots_nodup roots_ok.
  eapply (g_creating _ todo0 ∅); [done|done| | |done|by intros x ?%roots_ok].
  - split; cbn; [|by intros p th; rewrite lookup_singleton_ne|done|by intros p ?%elem_of_empty|done].
    exists []. split; [by apply NoDup_nil_2|done].
  - split; split; cbn; try done; [|intros x Hx Hd|intros x Hx Hd; rewrite roots_ok; by split|
      by apply NoDup_nil_2|by intros o ?%not_elem_of_nil].
    + intros x t Hx Ht. rewrite Ht. rewrite pending_new.
      destruct (wb_count _ _ _ built _ _ Hx Ht) as [Hc Hr]. rewrite <- Hc, <- Hr. by destruct t.
    + rewrite pending_new. symmetry. apply Z.ltb_lt. destruct (deps T0 x); [done|]. cbn. lia.
Qed.

Lemma graph_cost_init :
  5 * Z.of_nat (graph_cost (init_pool (Some (Mem T0 n [])) (inl (spawn todo0)))) ≤ 12000.
Proof using built roots_nodup roots_ok.
  unfold graph_cost. rewrite init_cost, spawn_cost. cbn [from_option p_mem init_pool].
  pose proof (bank_max (Mem T0 n [])) as Hb. cbn [g_tasks] in Hb. rewrite (wb_length _ _ _ built) in Hb.
  pose proof (wb_max _ _ _ built) as Hmax. unfold MAX_TASKS in *.
  assert (length todo0 ≤ 16)%nat; [|lia].
  assert (todo0 ⊆+ seqZ 0 n) as Hsub%submseteq_length.
  { apply NoDup_submseteq; [done|]. intros x [Hx _]%roots_ok. apply elem_of_seqZ. unfold valid in Hx. lia. }
  rewrite length_seqZ in Hsub. lia.
Qed.

Lemma graph_run_total (σ : alloc_state) fuel :
  (refused_in (init_world σ (Some (Mem T0 n [])) (inl (spawn todo0))) → may_refuse) →
  12000 ≤ Z.of_nat fuel →
  match exec fuel (init_world σ (Some (Mem T0 n [])) (inl (spawn todo0))) with
  | Api.Finished w => ∃ f m, w_user w = Some m ∧ board n T0 [] f m
      ∧ (may_refuse ∨ ∀ x, valid n x → ∃ p, at_ f x = LOn p None)
  | _ => False
  end.
Proof using built roots_nodup roots_ok.
  intros Hmay Hf. pose proof graph_cost_init as Hc.
  pose proof (exec_ends body_point g_inv graph_cost g_inv_step graph_decreases) as He.
  specialize (He _ _ fuel (init_viewed body_point σ _ _ Hmay) g_inv_init).
  specialize (He ltac:(cbn [Threads.rank init_world w_cpu]; lia)).
  destruct (exec fuel _) as [w|e|w]; [|destruct He as (P & HP & He); by eapply g_no_fault|done].
  destruct He as (P & (_ & Hv & _) & HP & Hn). rewrite <- (vw_mem _ _ Hv).
  destruct HP as [|todo f m Hm Ht|f m Hm _ _ Hb Hall]; [congruence..|]. by exists f, m.
Qed.
End program.

(** ** Building a graph *)

(** What [x] depends on, in the order of [ds]. *)
Definition mine (x : Z) (ds : list (Z * Z)) : list Z :=
  snd <$> base.filter (λ xd, xd.1 = x) ds.

Lemma mine_snoc x ds y d : mine x (ds ++ [(y, d)]) = mine x ds ++ if decide (y = x) then [d] else [].
Proof.
  unfold mine. rewrite filter_app, fmap_app. f_equal. rewrite filter_cons, filter_nil. cbn.
  by case_decide.
Qed.

Lemma elem_of_mine x d ds : d ∈ mine x ds ↔ (x, d) ∈ ds.
Proof.
  unfold mine. rewrite list_elem_of_fmap. split.
  - intros ([y e] & -> & [Hy Hin]%list_elem_of_filter). cbn in *. by subst.
  - intros Hin. exists (x, d). split; [done|]. by apply list_elem_of_filter.
Qed.

Lemma NoDup_mine x ds : NoDup ds → NoDup (mine x ds).
Proof.
  intros Hn. induction Hn as [|[y d] ds Hin _ IH]; [by apply NoDup_nil_2|]. unfold mine in *.
  rewrite filter_cons. cbn. case_decide as Hy; [|done]. cbn. apply NoDup_cons. split; [|done].
  subst. intros Hd. by apply Hin, elem_of_mine.
Qed.

(** The registry while main builds the graph. *)
Definition task_ok (works : list (string * work_fn)) (ds : list (Z * Z)) (x : Z) (t : Task) : Prop :=
  Z.of_nat (length (dep_ids t)) = MAX_DEPS ∧
  (x < Z.of_nat (length works) →
     id t = x ∧ zlookup (snd <$> works) x = Some (work t)
     ∧ dep_count t = Z.of_nat (length (mine x ds))
     ∧ take (Z.to_nat (dep_count t)) (dep_ids t) = mine x ds).

Record built_as works ds (m : mem) : Prop := {
  ba_length : Z.of_nat (length (g_tasks m)) = MAX_TASKS;
  ba_count : g_task_count m = Z.of_nat (length works);
  ba_printed : printed m = [];
  ba_task x t : zlookup (g_tasks m) x = Some t → task_ok works ds x t
}.

Lemma zlookup_app_l {A} (l k : list A) i y :
  zlookup l i = Some y → zlookup (l ++ k) i = Some y.
Proof. unfold zlookup. destruct (0 <=? i); [|done]. by apply lookup_app_l_Some. Qed.

Lemma built_registers works :
  Z.of_nat (length works) ≤ MAX_TASKS →
  ∃ m, foldl (λ r w, m ← r; '(m, _) ← task_register w.1 w.2 m; Some m) (Some mem0) works = Some m
    ∧ built_as works [] m.
Proof.
  induction works as [|w works IH] using rev_ind; intros Hl.
  - eexists. split; [done|]. split; [done..|]. intros x t Ht.
    assert (t = MkTask "" (replicate (Z.to_nat MAX_DEPS) 0) 0 0 0 work_none) as ->.
    { unfold zlookup in Ht. destruct (0 <=? x); [|done].
      by apply lookup_replicate in Ht as [-> _]. }
    split; [done|]. cbn. intros Hx. apply zlookup_Some_lt in Ht. lia.
  - rewrite length_app in Hl. cbn in Hl. destruct IH as (m & Hm & Hb); [lia|].
    rewrite foldl_app, Hm. cbn. destruct Hb as [Hlen Hc Hp Ht].
    unfold task_register. rewrite Hc. unfold MAX_TASKS in *.
    rewrite cadd_ok by (consts; lia). cbn [mbind option_bind].
    unfold arr_get. destruct (zlookup_lt_is_Some (g_tasks m) (Z.of_nat (length works))) as [t0 H0]; [lia|].
    rewrite H0. cbn [mbind option_bind]. rewrite arr_set_ok by lia. cbn [mbind option_bind].
    eexists. split; [done|]. split; cbn.
    + by rewrite length_zinsert.
    + rewrite length_app. cbn. lia.
    + done.
    + intros x t Hx. destruct (decide (x = Z.of_nat (length works))) as [->|Hne].
      * rewrite zlookup_zinsert_eq in Hx by lia. injection Hx as <-. split; [by apply (Ht _ _ H0)|].
        intros _. split_and!; [done| |done|done]. cbn. rewrite zlookup_nat, fmap_app.
        rewrite lookup_app_r by (by rewrite length_fmap). by rewrite length_fmap, Nat.sub_diag.
      * rewrite zlookup_zinsert_ne in Hx by congruence. destruct (Ht _ _ Hx) as [Hd Hw].
        split; [done|]. rewrite length_app. cbn. intros Hlt. destruct Hw as (Hi & Hw & Hrest); [lia|].
        split_and!; [done| |by apply Hrest..]. rewrite fmap_app. by apply zlookup_app_l.
Qed.

Lemma take_zinsert (l : list Z) c (d : Z) :
  0 ≤ c < Z.of_nat (length l) →
  take (Z.to_nat (c + 1)) (zinsert c d l) = take (Z.to_nat c) l ++ [d].
Proof.
  intros Hc. unfold zinsert. rewrite (proj2 (Z.leb_le _ _)) by lia.
  replace (Z.to_nat (c + 1)) with (S (Z.to_nat c)) by lia.
  rewrite (take_S_r _ _ d) by (apply list_lookup_insert_eq; lia). by rewrite take_insert_ge by lia.
Qed.

Section dependencies.
Variables (works : list (string * work_fn)) (ds0 : list (Z * Z)).
Hypothesis works_max : Z.of_nat (length works) ≤ MAX_TASKS.
Hypothesis ds_valid : ∀ x d, (x, d) ∈ ds0 → valid (Z.of_nat (length works)) x.
Hypothesis ds_max : ∀ x, Z.of_nat (length (mine x ds0)) ≤ MAX_DEPS.

Lemma built_dependency ds y d m rest :
  ds0 = (ds ++ [(y, d)]) ++ rest → built_as works ds m →
  ∃ m', task_add_dep y d m = Some m' ∧ built_as works (ds ++ [(y, d)]) m'.
Proof using works_max ds_valid ds_max.
  intros Hds [Hlen Hc Hp Ht]. pose proof (ds_max y) as Hmax.
  assert (valid (Z.of_nat (length works)) y) as Hy.
  { apply (ds_valid y d). rewrite Hds, !elem_of_app. left; right. by left. }
  assert (Z.of_nat (length (mine y ds)) + 1 ≤ MAX_DEPS) as Hroom.
  { rewrite Hds in Hmax. unfold mine in Hmax at 1. rewrite filter_app, fmap_app in Hmax.
    change (snd <$> base.filter _ (ds ++ [(y, d)])) with (mine y (ds ++ [(y, d)])) in Hmax.
    rewrite mine_snoc, decide_True, !length_app in Hmax by done. cbn in Hmax. lia. }
  unfold valid, MAX_TASKS, MAX_DEPS in *. unfold task_add_dep, arr_get.
  destruct (zlookup_lt_is_Some (g_tasks m) y) as [t H0]; [lia|]. rewrite H0.
  destruct (Ht _ _ H0) as [Hd Hw]. destruct Hw as (Hi & Hw & Hcount & Htake); [lia|].
  unfold MAX_DEPS in Hd. cbn [mbind option_bind]. rewrite arr_set_ok by lia. cbn [mbind option_bind].
  rewrite cadd_ok by (consts; lia). cbn [mbind option_bind]. rewrite arr_set_ok by lia.
  cbn [mbind option_bind]. eexists. split; [done|]. split; cbn; [by rewrite length_zinsert|done..|].
  intros x t' Hx. destruct (decide (x = y)) as [->|Hne].
  - rewrite zlookup_zinsert_eq in Hx by lia. injection Hx as <-. split; cbn; [by rewrite length_zinsert|].
    intros _. rewrite mine_snoc, decide_True by done. split_and!; [done|done|rewrite length_app; cbn; lia|].
    by rewrite take_zinsert, Htake by lia.
  - rewrite zlookup_zinsert_ne in Hx by congruence. destruct (Ht _ _ Hx) as [Hd' Hw'].
    split; [done|]. rewrite mine_snoc, decide_False, app_nil_r by congruence. done.
Qed.

Lemma built_dependencies m0 :
  built_as works [] m0 →
  ∃ m, foldl (λ r td, m ← r; task_add_dep td.1 td.2 m) (Some m0) ds0 = Some m
    ∧ built_as works ds0 m.
Proof using works_max ds_valid ds_max.
  intros H0.
  assert (∀ ds rest, ds0 = ds ++ rest → ∃ m,
    foldl (λ r td, m ← r; task_add_dep td.1 td.2 m) (Some m0) ds = Some m ∧ built_as works ds m) as Hind;
    [|by apply (Hind ds0 []); rewrite app_nil_r].
  induction ds as [|[y d] ds IH] using rev_ind; intros rest Hds; [by exists m0|].
  destruct (IH ([(y, d)] ++ rest)) as (m & Hm & Hb); [by rewrite app_assoc|].
  rewrite foldl_app, Hm. cbn. by eapply built_dependency.
Qed.

(** [task_graph_finalize] *)
Lemma finalize_lookup m x :
  zlookup (g_tasks (task_graph_finalize m)) x
  = (λ t, if x <? g_task_count m then set_remaining (dep_count t) t else t) <$> zlookup (g_tasks m) x.
Proof using.
  unfold zlookup. destruct (Z.leb_spec 0 x); [|done]. cbn. rewrite list_lookup_imap.
  by rewrite Z2Nat.id by done.
Qed.

Hypothesis ds_nodup : NoDup ds0.
Variable rank : Z → nat.
Hypothesis ds_acyclic : ∀ x d, (x, d) ∈ ds0 →
  valid (Z.of_nat (length works)) d ∧ (rank d < rank x)%nat.
Hypothesis works_some : Forall (λ w, w.2 ≠ work_none) works.

Lemma finalized m x :
  built_as works ds0 m → valid (Z.of_nat (length works)) x →
  ∃ t, zlookup (g_tasks (task_graph_finalize m)) x = Some t ∧ task_ok works ds0 x t
    ∧ deps_remaining t = dep_count t.
Proof using works_max.
  intros [Hlen Hc Hp Ht] Hx. unfold valid in *.
  destruct (zlookup_lt_is_Some (g_tasks m) x) as [t H0]; [lia|].
  exists (set_remaining (dep_count t) t). rewrite finalize_lookup, H0. cbn.
  rewrite (proj2 (Z.ltb_lt _ _)) by lia. split; [done|]. split; [|done]. exact (Ht _ _ H0).
Qed.

Lemma finalized_deps m x :
  built_as works ds0 m → valid (Z.of_nat (length works)) x →
  deps (g_tasks (task_graph_finalize m)) x = mine x ds0.
Proof using works_max.
  intros Hb Hx. destruct (finalized m x Hb Hx) as (t & Ht & [_ Hok] & _). unfold deps. rewrite Ht.
  unfold task_deps. by apply Hok, Hx.
Qed.

Lemma graph_well_built m :
  built_as works ds0 m →
  well_built (Z.of_nat (length works)) (g_tasks (task_graph_finalize m)) rank.
Proof using works_max ds_max ds_nodup ds_acyclic works_some.
  intros Hb.
  assert (∀ x t, valid (Z.of_nat (length works)) x →
    zlookup (g_tasks (task_graph_finalize m)) x = Some t →
    task_ok works ds0 x t ∧ deps_remaining t = dep_count t) as Hfin.
  { intros x t Hx Ht. destruct (finalized m x Hb Hx) as (t' & Ht' & Hok). by simplify_eq. }
  split.
  - done.
  - cbn. rewrite length_imap. apply Hb.
  - intros x t Hx Ht. by apply (Hfin _ _ Hx Ht), Hx.
  - intros x t Hx Ht. destruct (Hfin _ _ Hx Ht) as [[_ Hok] Hr]. rewrite finalized_deps by done.
    split; [|done]. by apply Hok, Hx.
  - intros x t Hx Ht. destruct (Hfin _ _ Hx Ht) as [[_ Hok] _]. destruct Hok as (_ & Hw & _); [apply Hx|].
    unfold zlookup in Hw. destruct (0 <=? x); [|done].
    apply list_lookup_fmap_Some in Hw as ([nm w] & -> & Hin).
    by eapply (Forall_lookup_1 _ _ _ _ works_some) in Hin.
  - intros x Hx. rewrite finalized_deps by done. split; [by apply NoDup_mine|done].
  - intros x d Hx. rewrite finalized_deps, elem_of_mine by done. apply ds_acyclic.
Qed.

(** The tasks main creates. *)
Definition root_ids (m : mem) : list Z :=
  id <$> base.filter (λ t, dep_count t = 0) (take (Z.to_nat (g_task_count m)) (g_tasks m)).

Lemma roots_spawn m : Some (roots m) = spawn (root_ids m).
Proof using. unfold roots, spawn, root_ids. by rewrite <- list_fmap_compose. Qed.

Section root_ids.
Variable m : mem.
Hypothesis m_built : built_as works ds0 m.
Local Abbreviation tasks := (take (length works) (g_tasks (task_graph_finalize m))).

Lemma root_ids_tasks :
  root_ids (task_graph_finalize m) = id <$> base.filter (λ t, dep_count t = 0) tasks.
Proof using m_built.
  unfold root_ids. cbn [g_task_count task_graph_finalize].
  by rewrite (ba_count _ _ _ m_built), Nat2Z.id.
Qed.

Lemma task_at i t :
  tasks !! i = Some t → valid (Z.of_nat (length works)) (Z.of_nat i)
    ∧ task_ok works ds0 (Z.of_nat i) t.
Proof using works_max m_built.
  intros [Hi Hlt]%lookup_take_Some.
  assert (valid (Z.of_nat (length works)) (Z.of_nat i)) as Hv by (unfold valid; lia).
  split; [done|]. destruct (finalized m _ m_built Hv) as (t' & Ht' & Hok & _).
  rewrite zlookup_nat in Ht'. by simplify_eq.
Qed.

Lemma root_ids_nodup : NoDup (root_ids (task_graph_finalize m)).
Proof using works_max m_built.
  rewrite root_ids_tasks.
  apply (sublist_NoDup _ (id <$> tasks)); [|by apply fmap_sublist, sublist_filter].
  apply NoDup_alt. intros i j x Hi Hj.
  apply list_lookup_fmap_Some in Hi as (t & -> & Ht).
  apply list_lookup_fmap_Some in Hj as (t' & He & Ht').
  apply task_at in Ht as [Hv [_ Hok]]. apply task_at in Ht' as [Hv' [_ Hok']].
  destruct (Hok (proj2 Hv)) as [H1 _]. destruct (Hok' (proj2 Hv')) as [H2 _]. lia.
Qed.

Lemma elem_of_root_ids x :
  x ∈ root_ids (task_graph_finalize m)
  ↔ valid (Z.of_nat (length works)) x ∧ deps (g_tasks (task_graph_finalize m)) x = [].
Proof using works_max m_built.
  rewrite root_ids_tasks, list_elem_of_fmap. split.
  - intros (t & -> & [Hc [i Hi]%list_elem_of_lookup]%list_elem_of_filter).
    apply task_at in Hi as [Hv [_ Hok]]. destruct (Hok (proj2 Hv)) as (-> & _ & Hcount & _).
    split; [done|]. rewrite finalized_deps by done. apply length_zero_iff_nil. lia.
  - intros [Hv Hd]. rewrite finalized_deps in Hd by done.
    destruct (finalized m x m_built Hv) as (t & Ht & [_ Hok] & _).
    destruct (Hok (proj2 Hv)) as (Hi & _ & Hcount & _). exists t. split; [done|].
    apply list_elem_of_filter. rewrite Hd in Hcount. split; [done|].
    apply list_elem_of_lookup. exists (Z.to_nat x). apply lookup_take_Some. unfold valid in Hv.
    split; [|lia]. unfold zlookup in Ht. by rewrite (proj2 (Z.leb_le _ _)) in Ht by lia.
Qed.
End root_ids.

Lemma graph_built :
  ∃ m, graph works ds0 = Some (task_graph_finalize m) ∧ built_as works ds0 m.
Proof using works_max ds_valid ds_max.
  destruct (built_registers works works_max) as (m0 & Hm0 & Hb0).
  destruct (built_dependencies m0 Hb0) as (m & Hm & Hb). exists m. split; [|done].
  unfold graph. rewrite Hm0. cbn [mbind option_bind]. by rewrite Hm.
Qed.

Context `{AL : Allocator, LK : LinkMap}.

Lemma graph_completes (σ : alloc_state) fuel :
  12000 ≤ Z.of_nat fuel →
  match exec fuel (run_graph σ (graph works ds0)) with
  | Api.Finished w => ∃ m, w_user w = Some m ∧ NoDup (printed m)
      ∧ (∀ i x d, printed m !! i = Some (Starting x) → (x, d) ∈ ds0 →
           TaskGraph.Finished d ∈ take i (printed m))
      ∧ (refused_in (run_graph σ (graph works ds0)) ∨ ∀ x, valid (Z.of_nat (length works)) x →
           Starting x ∈ printed m ∧ TaskGraph.Finished x ∈ printed m)
  | _ => False
  end.
Proof using works_max ds_valid ds_max ds_nodup ds_acyclic works_some.
  intros Hf. destruct graph_built as (m & -> & Hb).
  pose proof (graph_well_built m Hb) as Hw.
  set (w0 := init_world (L := T) σ (Some (task_graph_finalize m)) (inl (spawn (root_ids (task_graph_finalize m))))).
  pose proof (graph_run_total (R := refused_in w0) _ _ _ _ Hw (root_ids_nodup m Hb)
    (elem_of_root_ids m Hb) σ fuel) as Hr.
  unfold run_graph. cbn [fmap option_fmap option_map]. rewrite roots_spawn. fold w0.
  assert (task_graph_finalize m = Mem (g_tasks (task_graph_finalize m)) (Z.of_nat (length works)) [])
    as He.
  { rewrite <- (ba_count _ _ _ Hb), <- (ba_printed _ _ _ Hb). done. }
  rewrite <- He in Hr. specialize (Hr (λ H, H) Hf). fold w0 in Hr. destruct (exec fuel _) as [w|e|w]; [|done..].
  destruct Hr as (f & m' & Hm' & [_ _ Hl] & Hall). exists m'. split_and!; [done|apply Hl|..].
  - intros i x d Hi Hd. apply (lg_order _ _ _ _ Hl i x d Hi).
    rewrite finalized_deps, elem_of_mine; [done|done|by eapply ds_valid].
  - destruct Hall as [|Hall]; [by left|right]. intros x Hx. destruct (Hall x Hx) as [p Hp].
    split; [apply (lg_started _ _ _ _ Hl x Hx)|apply (lg_finished _ _ _ _ Hl x Hx)]; by rewrite Hp.
Qed.
End dependencies.

(** C27: any graph that fits the tables (at most 16 tasks with a work function,
    each with at most 8 dependencies, none of them given twice) and whose
    dependencies follow some ranking is run to its end by main, for any
    allocator and within 12000 transitions: no task prints a line twice; a task
    starts only after all those it depends on have finished; and every task has
    run, unless [malloc] refuses a creation of this very run. *)
Theorem task_graph_completes `{AL : Allocator, LK : LinkMap} (works : list (string * work_fn))
    (ds : list (Z * Z)) (rank : Z → nat) (σ : alloc_state) fuel :
  Z.of_nat (length works) ≤ MAX_TASKS → Forall (λ w, w.2 ≠ work_none) works →
  NoDup ds → (∀ x, Z.of_nat (length (mine x ds)) ≤ MAX_DEPS) →
  (∀ x d, (x, d) ∈ ds → valid (Z.of_nat (length works)) x ∧ valid (Z.of_nat (length works)) d
                        ∧ (rank d < rank x)%nat) →
  12000 ≤ Z.of_nat fuel →
  match exec fuel (run_graph σ (graph works ds)) with
  | Api.Finished w => ∃ m, w_user w = Some m ∧ NoDup (printed m)
      ∧ (∀ i x d, printed m !! i = Some (Starting x) → (x, d) ∈ ds →
           TaskGraph.Finished d ∈ take i (printed m))
      ∧ (refused_in (run_graph σ (graph works ds)) ∨ ∀ x, valid (Z.of_nat (length works)) x →
           Starting x ∈ printed m ∧ TaskGraph.Finished x ∈ printed m)
  | _ => False
  end.
Proof. intros Hl Hw Hn Hm Hv Hf. by apply (graph_completes _ _ Hl (λ x d H, proj1 (Hv x d H)) Hm Hn rank (λ x d H, proj2 (Hv x d H)) Hw). Qed.

#[local] Existing Instance MachineDemo.link.

Definition demo_tasks : list (string * work_fn) :=
  [("fetch_data", work_fetch_data); ("parse_json", work_parse_json);
   ("fetch_config", work_fetch_config); ("validate", work_validate);
   ("enrich", work_enrich); ("write_output", work_write_output)].
Definition demo_deps : list (Z * Z) := [(3, 0); (3, 1); (4, 3); (4, 2); (5, 4)].

Lemma demo_deps_few : Forall (λ x, Z.of_nat (length (mine x demo_deps)) ≤ MAX_DEPS) (seqZ 0 6).
Proof. by apply (bool_decide_unpack _); vm_compute. Qed.

Lemma mine_few ds n :
  (∀ x d, (x, d) ∈ ds → valid n x) → Forall (λ x, Z.of_nat (length (mine x ds)) ≤ MAX_DEPS) (seqZ 0 n) →
  ∀ x, Z.of_nat (length (mine x ds)) ≤ MAX_DEPS.
Proof.
  intros Hv Hall x. destruct (decide (0 ≤ x < n)) as [Hx|Hx].
  - eapply Forall_forall in Hall; [exact Hall|]. apply elem_of_seqZ. lia.
  - destruct (mine x ds) as [|d l] eqn:Hd; [done|]. exfalso. apply Hx, (Hv x d), elem_of_mine.
    rewrite Hd. by left.
Qed.

Lemma demo_deps_valid x d :
  (x, d) ∈ demo_deps → valid 6 x ∧ valid 6 d ∧ (Z.to_nat d < Z.to_nat x)%nat.
Proof.
  intros Hin. assert (Forall (λ xd, 0 ≤ xd.2 < xd.1 ∧ xd.1 < 6) demo_deps) as Hall
    by (by apply (bool_decide_unpack _); vm_compute).
  eapply Forall_forall in Hall; [|exact Hin]. cbn in Hall. unfold valid. lia.
Qed.

Lemma build_not_refused : ¬ refused_in (run_graph heap0 build).
Proof. apply (refuses_spec 1000). by vm_compute. Qed.

(** The demo, in which [malloc] refuses nothing. *)
Lemma task_graph_completes_witness :
  match exec (Z.to_nat 12000) (run_graph heap0 build) with
  | Api.Finished w => ∃ m, w_user w = Some m ∧ NoDup (printed m)
      ∧ (∀ i x d, printed m !! i = Some (Starting x) → (x, d) ∈ demo_deps →
           TaskGraph.Finished d ∈ take i (printed m))
      ∧ (refused_in (run_graph heap0 build) ∨ ∀ x, valid 6 x →
           Starting x ∈ printed m ∧ TaskGraph.Finished x ∈ printed m)
  | _ => False
  end ∧ ¬ refused_in (run_graph heap0 build).
Proof.
  split; [|apply build_not_refused]. rewrite build_graph.
  apply (task_graph_completes (AL := bump_allocator) demo_tasks demo_deps Z.to_nat heap0 (Z.to_nat 12000)).
  - done.
  - repeat (apply Forall_cons; split; [done|]). by apply Forall_nil.
  - by apply (bool_decide_unpack _); vm_compute.
  - apply (mine_few _ 6 (λ x d H, proj1 (demo_deps_valid x d H))), demo_deps_few.
  - apply demo_deps_valid.
  - lia.
Defined.

(** A dependency given twice is counted twice and notified once: the task that
    has it never starts, and the program ends without it. *)
Example duplicate_dependency :
  match exec 1000 (run_graph heap0
    (graph [("a", work_parse_json); ("b", work_parse_json)] [(1, 0); (1, 0)])) with
  | Api.Finished w =>
      printed <$> w_user w = Some [Starting 0; Begun 0; Ended 0; TaskGraph.Finished 0]
  | _ => False
  end.
Proof. by vm_compute. Qed.
End GraphRun.
