(* ===== verification/AwaitChain.v ===== *)
(** * The await benchmarks ([benchmarks/bench_await_chain.c])

    Two scenarios on the library's own interface: a chain of coroutines each
    awaiting the next, and a coroutine that creates, awaits and frees others.
    The timing code is left out.  The library never unregisters a coroutine, so
    neither can be repeated: [await_bench_never_ends]. *)

From stdpp Require Import gmap.
From S2P Require Import Prelude Ring Machine State RunQueue Api Ops Invariant.
From S2P Require Import Safety Threads Demo User Progress ForkJoin.

Module AwaitChain.
Definition fn_chain_worker : ptr := 1.
Definition fn_leaf_worker : ptr := 2.
Definition fn_fan_root : ptr := 3.

(** The arrays [chain] of [run_linear_chain] and [leafs] of [fan_root].
    [args\[i\].idx] is [i], [args\[i\].depth] the depth of the run;
    [fan_iters] is the number of iterations that [run_fan_in] is called with
    after [run_linear_chain]. *)
Record mem := Mem {
  depth : Z; chain : list ptr; width : Z; leafs : list ptr; fan_iters : nat
}.
Definition set_chain (i : Z) (co : ptr) (m : mem) : mem :=
  Mem (depth m) (zinsert i co (chain m)) (width m) (leafs m) (fan_iters m).
Definition set_leaf (i : Z) (co : ptr) (m : mem) : mem :=
  Mem (depth m) (chain m) (width m) (zinsert i co (leafs m)) (fan_iters m).

Inductive point : Set :=
(* chain_worker, leaf_worker: at their start, and where they return *)
| CWorker (idx : Z) | LWorker | WEnd
(* fan_root: the creating, the awaiting and the freeing loop *)
| FCreate (i : Z) | FMade (i : Z) (co : ptr) | FAwait (i : Z) | FFree (i : Z)
(* run_linear_chain: iterations left, the creating and the freeing loop *)
| LIter (iters : nat) | LCreate (iters : nat) (i : Z)
| LMade (iters : nat) (i : Z) (co : ptr) | LFree (iters : nat) (i : Z)
(* run_fan_in *)
| RIter (iters : nat) | RRun (iters : nat) (root : ptr) | RFree (iters : nat) (root : ptr).

Definition chain_at (m : mem) (i : Z) : ptr := default NULL (zlookup (chain m) i).
Definition leaf_at (m : mem) (i : Z) : ptr := default NULL (zlookup (leafs m) i).

Definition code_step (l : point) (m : mem) : ucall point * mem :=
  match l with
  | CWorker idx =>
      if idx + 1 <? depth m then (UAwait (chain_at m (idx + 1)) WEnd, m)
      else (UReturn, m)
  | LWorker => (UYield WEnd, m)
  | WEnd => (UReturn, m)
  | FCreate i =>
      if i <? width m then (UCreate fn_leaf_worker i 0 (FMade i), m)
      else (UTau (FAwait 0), m)
  | FMade i co =>
      (UTau (FCreate (i + 1)), set_leaf i co m)
  | FAwait i =>
      if i <? width m then (UAwait (leaf_at m i) (FAwait (i + 1)), m)
      else (UTau (FFree 0), m)
  | FFree i =>
      if i <? width m then (UFree (leaf_at m i) (FFree (i + 1)), m) else (UReturn, m)
  | LIter O => (UTau (RIter (fan_iters m)), m)
  | LIter (S n) => (UTau (LCreate n (depth m - 1)), m)
  | LCreate n i =>
      if 0 <=? i then (UCreate fn_chain_worker i 0 (LMade n i), m)
      else (URun (LFree n 0), m)
  | LMade n i co =>
      (UTau (LCreate n (i - 1)), set_chain i co m)
  | LFree n i =>
      if i <? depth m then (UFree (chain_at m i) (LFree n (i + 1)), m)
      else (UTau (LIter n), m)
  | RIter O => (UReturn, m)
  | RIter (S n) => (UCreate fn_fan_root 0 0 (RRun n), m)
  | RRun n root => (URun (RFree n root), m)
  | RFree n root => (UFree root (RIter n), m)
  end.

#[export] Instance code : UserCode point mem := {|
  ustep := code_step;
  ufn fn arg := if fn =? fn_chain_worker then CWorker arg
                else if fn =? fn_leaf_worker then LWorker else FCreate 0
|}.

(** The arguments of the two calls in main, from what [atoi] makes of the
    command line: the depth, the width and the number of iterations. *)
Definition main_args (argv1 argv2 : option Z) : Z * Z * nat :=
  let depth := default 256 argv1 in
  let width := default 1024 argv2 in
  let iters := Z.to_nat 10000 in
  let depth := if depth <? 1 then 1 else depth in
  let width := if width <? 1 then 1 else width in
  let '(depth, iters) := if 4096 <? depth then (4096, Z.to_nat 1000) else (depth, iters) in
  let '(width, iters) := if 8192 <? width then (8192, Z.to_nat 1000) else (width, iters) in
  (depth, width, iters).

Definition mem0 (depth width : Z) (fan_iters : nat) : mem :=
  Mem depth (replicate (Z.to_nat depth) NULL) width (replicate (Z.to_nat width) NULL) fan_iters.

Definition main `{Allocator} (argv1 argv2 : option Z) (σ : alloc_state) : world point mem :=
  let '(depth, width, iters) := main_args argv1 argv2 in
  init_world σ (mem0 depth width iters) (LIter iters).

(** ** What the coroutines do *)

Definition worker_point (l : point) : Prop :=
  match l with
  | CWorker _ | LWorker | WEnd | FCreate _ | FMade _ _ | FAwait _ | FFree _ => True
  | _ => False
  end.

#[export] Instance workers_leaf : Leaf worker_point.
Proof.
  split.
  - intros fn arg _. cbn. by repeat case_match.
  - intros l u Hl. destruct l; try done; cbn; try (by case_match); done.
  - intros l u z Hl. by destruct l; cbn; repeat case_match.
Qed.

(** ** Termination *)

(** The transitions left, for [d] coroutines in the chain, [w] leafs and [f]
    iterations of the fan-in. *)
Definition root_cost (w : nat) : nat := 5 * w + 2.
Definition fan_cost (w n : nat) : nat := n * (root_cost w + 4).
Definition chain_cost (d w f n : nat) : nat := n * (4 * d + 3) + 1 + fan_cost w f.

Definition point_cost (l : point) (m : mem) : nat :=
  let d := Z.to_nat (depth m) in let w := Z.to_nat (width m) in let f := fan_iters m in
  match l with
  | CWorker _ | LWorker => 1
  | WEnd => 0
  | FCreate i => 3 * Z.to_nat (width m - i) + 2 * w + 2
  | FMade i _ => 3 * Z.to_nat (width m - (i + 1)) + 2 * w + 3
  | FAwait i => Z.to_nat (width m - i) + w + 1
  | FFree i => Z.to_nat (width m - i)
  | LIter n => chain_cost d w f n
  | LCreate n i => 3 * Z.to_nat (i + 1) + d + 2 + chain_cost d w f n
  | LMade n i _ => 3 * Z.to_nat i + d + 3 + chain_cost d w f n
  | LFree n i => Z.to_nat (depth m - i) + 1 + chain_cost d w f n
  | RIter n => fan_cost w n
  | RRun n _ => 2 + fan_cost w n
  | RFree n _ => 1 + fan_cost w n
  end.

#[export] Instance bench_costed : Costed point_cost (λ _, True).
Proof.
  split; [done| |].
  - intros l m _. destruct l; cbn -[Z.mul Nat.mul]; try case_match; cbn -[Z.mul Nat.mul];
      unfold chain_cost, fan_cost, root_cost; try lia.
  - intros l l' m _. assert (point_cost l (ustep l' m).2 = point_cost l m) as ->; [|done].
    destruct l'; cbn; try case_match; done.
Qed.

(** ** The registry fills up *)

Definition non_null (p : ptr) : bool := negb (p =? NULL).
Definition count (c : list ptr) : Z := Z.of_nat (length (filter non_null c)).

Lemma non_null_spec p : non_null p ↔ p ≠ NULL.
Proof. unfold non_null. destruct (Z.eqb_spec p NULL); cbn; naive_solver. Qed.

Lemma count_cons p (c : list ptr) : count (p :: c) = (if p =? NULL then 0 else 1) + count c.
Proof.
  unfold count. destruct (Z.eqb_spec p NULL) as [->|Hp].
  - by rewrite filter_cons_False by (by rewrite non_null_spec; auto).
  - rewrite filter_cons_True by by apply non_null_spec. cbn. lia.
Qed.

Lemma count_all (c : list ptr) : Forall non_null c → count c = Z.of_nat (length c).
Proof.
  intros Hc. unfold count. f_equal. f_equal. induction Hc as [|p c Hp _ IH]; [done|].
  by rewrite filter_cons_True, IH.
Qed.

Lemma drop_zinsert i (p : ptr) (c : list ptr) :
  0 ≤ i < Z.of_nat (length c) →
  drop (Z.to_nat i) (zinsert i p c) = p :: drop (Z.to_nat (i + 1)) c.
Proof.
  intros Hi. unfold zinsert. rewrite (proj2 (Z.leb_le _ _)) by lia.
  replace (Z.to_nat (i + 1)) with (S (Z.to_nat i)) by lia.
  rewrite (drop_S _ p) by (apply list_lookup_insert_eq; lia). by rewrite drop_insert_lt by lia.
Qed.

Section never.
Context `{Refusal}.
Variables (d : Z) (N : nat).
Hypothesis d_pos : 1 ≤ d.
Hypothesis too_many : MAX_COROUTINES < Z.of_nat N * d.
Implicit Types (P : pool point mem).

(** The coroutines registered so far, at least, by what main is doing: those of
    the iterations done, and those whose handles are in the array. *)
Definition done_count (n : nat) : Z := (Z.of_nat N - Z.of_nat n) * d.
Definition main_at (th : thread point) (c : list ptr) (r : Z) : Prop :=
  match th with
  | At (LIter n) => (n ≤ N)%nat ∧ done_count n ≤ r
  | At (LCreate n i) =>
      (n < N)%nat ∧ -1 ≤ i < d ∧ done_count (S n) + count (drop (Z.to_nat (i + 1)) c) ≤ r
  | At (LMade n i p) =>
      (n < N)%nat ∧ 0 ≤ i < d
      ∧ done_count (S n) + ((if p =? NULL then 0 else 1) + count (drop (Z.to_nat (i + 1)) c)) ≤ r
  | At (LFree n i) | InRun (LFree n i) =>
      (n < N)%nat ∧ 0 ≤ i ≤ d ∧ done_count (S n) + count c ≤ r
      ∧ Forall non_null (take (Z.to_nat i) c)
  | _ => False
  end.

Record filling P : Prop := {
  fi_depth : depth (p_mem P) = d;
  fi_chain : length (chain (p_mem P)) = Z.to_nat d;
  fi_reg : Z.of_nat (length (p_reg P)) ≤ MAX_COROUTINES;
  fi_null p : is_Some (p_threads P !! Some p) ∨ p ∈ p_dead P → p ≠ NULL;
  fi_leaf : leaf_pool worker_point P;
  fi_main : ∃ th, p_threads P !! None = Some th
              ∧ main_at th (chain (p_mem P)) (Z.of_nat (length (p_reg P)))
}.

Lemma main_at_more th c r r' : main_at th c r → r ≤ r' → main_at th c r'.
Proof using. destruct th as [[]| |[]|]; cbn; try done; intros; intuition lia. Qed.

(** Coroutines leave the handles alone. *)
Lemma worker_mem y m (c : ucall point) m' :
  worker_point y → code_step y m = (c, m') → chain m' = chain m ∧ depth m' = depth m.
Proof using. by destruct y; cbn; try case_match; intros ? [= _ <-]. Qed.

(** A call of main. *)
Lemma bench_call y m (c : ucall point) u P P' :
  p_mem P = m → p_threads P !! None = Some (At y) → code_step y m = (c, u) →
  depth m = d → length (chain m) = Z.to_nat d → (∀ p, p ∈ p_dead P → p ≠ NULL) →
  Z.of_nat (length (p_reg P)) ≤ MAX_COROUTINES →
  main_at (At y) (chain m) (Z.of_nat (length (p_reg P))) → call_step P None u c P' →
  p_mem P' = u ∧ depth u = d ∧ length (chain u) = Z.to_nat d
  ∧ ∃ th, p_threads P' !! None = Some th ∧ main_at th (chain u) (Z.of_nat (length (p_reg P'))).
Proof using d_pos too_many.
  intros Hm Ht Hc Hd Hl Hnull Hreg Hat Hcs.
  destruct y as [| | | | | |i|[|n]|n i|n i co|n i| | |]; cbn in Hat; try done; cbn in Hc.
  - injection Hc as <- <-. destruct Hat as [_ Hat]. unfold done_count in Hat. nia.
  - injection Hc as <- <-. inversion Hcs; subst. split_and!; [done..|].
    eexists. cbn. rewrite lookup_insert_eq. split; [done|]. cbn.
    rewrite Hd, drop_ge by lia. cbn. unfold count. cbn. split; [lia|]. split; lia.
  - destruct Hat as (Hn & Hi & Hat). destruct (Z.leb_spec 0 i); injection Hc as <- <-;
      inversion Hcs; subst; (split_and!; [done..|]); eexists; cbn.
    + rewrite lookup_insert_eq. split; [done|]. cbn. split_and!; [done|lia|lia|lia].
    + rewrite lookup_insert_ne, lookup_insert_eq by done. split; [done|]. cbn.
      rewrite length_app. cbn. rewrite (proj2 (Z.eqb_neq _ _)) by done. split_and!; [done|lia|lia|lia].
    + rewrite lookup_insert_eq. split; [done|]. cbn. replace i with (-1) in Hat by lia. cbn in Hat.
      rewrite take_0. split_and!; [done|lia|lia|by rewrite drop_0 in Hat|done].
  - destruct Hat as (Hn & Hi & Hat). injection Hc as <- <-. inversion Hcs; subst. cbn.
    rewrite length_zinsert. split_and!; [done..|]. eexists. rewrite lookup_insert_eq. split; [done|].
    cbn. split_and!; [done|lia|lia|]. replace (i - 1 + 1) with i by lia.
    rewrite drop_zinsert by lia. by rewrite count_cons.
  - destruct Hat as (Hn & Hi & Hat & Hf). destruct (Z.ltb_spec i (depth m)); injection Hc as <- <-;
      inversion Hcs; subst; (split_and!; [done..|]); eexists; cbn; rewrite lookup_insert_eq;
      (split; [done|]); cbn.
    + split_and!; [done|lia|lia|done|].
      replace (Z.to_nat (i + 1)) with (S (Z.to_nat i)) by lia.
      destruct (lookup_lt_is_Some_2 (chain (p_mem P)) (Z.to_nat i)) as [p Hp]; [lia|].
      rewrite (take_S_r _ _ p) by done. apply Forall_app. split; [done|]. apply Forall_singleton.
      apply non_null_spec, Hnull.
      match goal with Hq : chain_at _ _ ∈ _ |- _ => unfold chain_at, zlookup in Hq;
        by rewrite (proj2 (Z.leb_le _ _)), Hp in Hq by lia end.
    + replace i with d in * by lia. rewrite take_ge in Hf by lia. rewrite count_all in Hat by done.
      unfold done_count in *. split; lia.
Qed.

(** Any call keeps null out of the pool and the registry within its bound. *)
Lemma call_bounds P t (c : ucall point) u P' :
  is_Some (p_threads P !! t) →
  (∀ p, is_Some (p_threads P !! Some p) ∨ p ∈ p_dead P → p ≠ NULL) →
  Z.of_nat (length (p_reg P)) ≤ MAX_COROUTINES → call_step P t u c P' →
  (∀ p, is_Some (p_threads P' !! Some p) ∨ p ∈ p_dead P' → p ≠ NULL)
  ∧ Z.of_nat (length (p_reg P)) ≤ Z.of_nat (length (p_reg P')) ≤ MAX_COROUTINES.
Proof using N.
  intros Ht Hn Hr Hc.
  assert (∀ th, ∀ p, is_Some (<[t := th]> (p_threads P) !! Some p) ∨ p ∈ p_dead P → p ≠ NULL) as Hgo.
  { intros th p [Hp|Hp]; [|by apply Hn; right]. apply Hn. left.
    rewrite lookup_insert in Hp. case_decide; subst; done. }
  destruct Hc; cbn; try (split; [by apply Hgo|lia]).
  - split; [|lia]. intros p [Hp|Hp]; [|by apply Hn; right]. rewrite lookup_delete in Hp.
    case_decide; [by apply is_Some_None in Hp|]. by apply Hn; left.
  - rewrite length_app. cbn. split; [|lia]. intros q [Hq|Hq]; [|by apply Hn; right].
    rewrite lookup_insert in Hq. case_decide as Hpq; [by simplify_eq|]. exact (Hgo _ _ (or_introl Hq)).
  - split; [|lia]. intros p [Hp|Hp]; [exact (Hgo _ _ (or_introl Hp))|]. apply Hn. right.
    by apply elem_of_difference in Hp as [? _].
Qed.

Lemma worker_call P p (c : ucall point) u P' :
  call_step P (Some p) u c P' → is_Some (p_threads P !! Some p) →
  p_threads P' !! None = p_threads P !! None ∧ p_mem P' = u.
Proof using.
  intros Hc Hp. destruct Hc; cbn; try done; try (by rewrite lookup_insert_ne).
  by rewrite !lookup_insert_ne by done.
Qed.

Lemma filling_step P P' : filling P → pool_step P P' → filling P'.
Proof using d_pos too_many.
  intros [Hd Hl Hr Hn Hleaf (th & Hmain & Hat)] Hs.
  assert (leaf_pool worker_point P') as Hleaf'
    by exact (leaf_pool_step worker_point P P' Hleaf Hs).
  destruct Hs as [t y c u P' Ht Hu Hrun Hc|p x Hp Hx Hlive|x Hx Ha].
  - destruct (call_bounds _ _ _ _ _ ltac:(by eexists) Hn Hr Hc) as [Hn' Hr'].
    destruct t as [p|].
    + destruct (worker_call _ _ _ _ _ Hc ltac:(by eexists)) as [Hmain' Hm'].
      destruct (worker_mem _ _ _ _ (Hleaf _ _ Ht) Hu) as [Hch Hdp].
      split; rewrite ?Hm', ?Hch, ?Hdp, ?Hmain'; [done|done|lia|done|done|].
      exists th. split; [done|]. eapply main_at_more; [done|lia].
    + assert (th = At y) as -> by congruence.
      destruct (bench_call y _ c u P P' eq_refl Ht Hu Hd Hl ltac:(auto) Hr Hat Hc)
        as (Hm' & Hd' & Hl' & Hth').
      split; rewrite ?Hm'; [done|done|lia|done|done|done].
  - split; cbn; [done|done|done| |done|].
    + intros q [Hq|Hq].
      * rewrite lookup_fmap in Hq. apply fmap_is_Some in Hq. rewrite lookup_delete in Hq.
        case_decide; [by apply is_Some_None in Hq|]. by apply Hn; left.
      * apply elem_of_union in Hq as [->%elem_of_singleton|Hq]; apply Hn; [left; eauto|by right].
    + exists th. split; [|done]. rewrite lookup_fmap, lookup_delete_ne, Hmain by done. cbn.
      by destruct th as [[]| |[]|].
  - rewrite Hmain in Hx. injection Hx as ->. split; cbn; [done|done|done| |done|].
    + intros q Hq. apply Hn. by rewrite lookup_insert_ne in Hq by done.
    + eexists. rewrite lookup_insert_eq. split; [done|]. by destruct x.
Qed.

(** ** The chain *)

(** The place of the coroutine [p], the [j]-th of the live part [act] of the
    array, which starts at index [off]. *)
Definition linked P (off : nat) (act : list ptr) (j : nat) (th : thread point) : Prop :=
  match th with
  | At (CWorker idx) => idx = Z.of_nat (off + j)
  | At WEnd | Exiting => True
  | Awaiting o WEnd => act !! S j = Some o ∧ is_Some (p_threads P !! Some o)
  | _ => False
  end.

(** The coroutines of this iteration that have not been freed are those of the
    array from [off] on, and the one just created. *)
Definition active (th : thread point) (c : list ptr) (off : nat) (act : list ptr) : Prop :=
  match th with
  | At (LIter _) => off = Z.to_nat d ∧ act = []
  | At (LCreate _ i) => off = Z.to_nat (i + 1) ∧ act = drop off c
  | At (LMade _ i co) => off = Z.to_nat i ∧ act = co :: drop (S off) c
  | InRun (LFree _ i) | At (LFree _ i) => off = Z.to_nat i ∧ act = drop off c
  | _ => False
  end.

Definition started (th : thread point) : Prop :=
  match th with InRun _ => True | _ => False end.

Record ordered P : Prop := {
  or_main : ∃ th off act, p_threads P !! None = Some th ∧ active th (chain (p_mem P)) off act
    ∧ NoDup act
    ∧ (∀ p, p ∈ act → live P p)
    ∧ (∀ p th', p_threads P !! Some p = Some th' → ∃ j, act !! j = Some p ∧ linked P off act j th')
    ∧ (∀ n i, th = At (LFree n i) → ∀ p, p_threads P !! Some p = None)
}.

Lemma linked_more P P' off act j th :
  (∀ p, is_Some (p_threads P !! Some p) → is_Some (p_threads P' !! Some p)) →
  linked P off act j th → linked P' off act j th.
Proof using.
  intros Hm. destruct th as [| o [] | | ]; cbn; try done. intros [Ho Hs]. auto.
Qed.

(** A worker goes on. *)
Lemma ordered_goes P p off act j th n i th' u :
  p_threads P !! None = Some (InRun (LFree n i)) →
  active (InRun (LFree n i)) (chain (p_mem P)) off act → NoDup act →
  (∀ p, p ∈ act → live P p) →
  (∀ p th', p_threads P !! Some p = Some th' → ∃ j, act !! j = Some p ∧ linked P off act j th') →
  p_threads P !! Some p = Some th → act !! j = Some p → chain u = chain (p_mem P) →
  linked P off act j th' → ordered (goes P (Some p) th' u).
Proof using.
  intros Hmain Hact Hnd Hlive Hth Hp Hj Hu Hl.
  assert (∀ q, is_Some (p_threads P !! Some q) →
    is_Some (p_threads (goes P (Some p) th' u) !! Some q)) as Hmore.
  { intros q Hq. cbn. rewrite lookup_insert. by case_decide. }
  split. exists (InRun (LFree n i)), off, act. cbn [goes p_threads p_mem].
  rewrite lookup_insert_ne, Hu by done. split_and!; [done|done|done| | |done].
  - intros q [Hq|Hq]%Hlive; [left; by apply Hmore|by right].
  - intros q th2. rewrite lookup_insert_Some. intros [[[= <-] <-]|[Hne Hq]].
    + exists j. split; [done|]. by eapply linked_more.
    + destruct (Hth _ _ Hq) as (k & Hk & Hlk). exists k. split; [done|]. by eapply linked_more.
Qed.

Lemma worker_ordered P p y (c : ucall point) u P' n i :
  filling P → ordered P → p_threads P !! None = Some (InRun (LFree n i)) →
  p_threads P !! Some p = Some (At y) → ustep y (p_mem P) = (c, u) →
  call_step P (Some p) u c P' → ordered P'.
Proof using d_pos.
  intros Hf [(th & off & act & Hmain & Hact & Hnd & Hlive & Hth & _)] Hrun Hy Hu Hc.
  rewrite Hrun in Hmain. injection Hmain as <-.
  destruct (fi_main _ Hf) as (th & Hmain & Hat). rewrite Hrun in Hmain. injection Hmain as <-.
  destruct Hat as (_ & Hi & _). pose proof Hact as [Hoff Hdrop].
  destruct (Hth _ _ Hy) as (j & Hj & Hl).
  assert (Hgo : ∀ th', linked P off act j th' → ordered (goes P (Some p) th' (p_mem P)))
    by (intros th'; by eapply ordered_goes).
  destruct y as [idx| | | | | | | | | | | | |]; try done; cbn in Hu.
  - destruct (Z.ltb_spec (idx + 1) (depth (p_mem P))) as [Hlt|Hge]; injection Hu as <- <-;
      inversion Hc; subst; try discriminate; try (by apply Hgo).
    apply Hgo. cbn in Hl |- *. split; [|done]. rewrite lookup_drop.
    rewrite (fi_depth _ Hf) in Hlt. pose proof (fi_chain _ Hf) as Hlen.
    destruct (lookup_lt_is_Some_2 (chain (p_mem P)) (Z.to_nat i + S j)) as [q Hq]; [lia|].
    unfold chain_at, zlookup. rewrite (proj2 (Z.leb_le _ _)) by lia.
    replace (Z.to_nat (idx + 1)) with (Z.to_nat i + S j)%nat by lia. by rewrite Hq.
  - injection Hu as <- <-. inversion Hc; subst; [discriminate|by apply Hgo].
Qed.

(** A worker ends; the coroutine before it in the chain may go on. *)
Lemma exit_ordered P p x :
  ordered P → p_threads P !! Some p = Some Exiting → p_threads P !! None = Some (InRun x) →
  ordered (Pool (wake_thread p <$> delete (Some p) (p_threads P)) ({[p]} ∪ p_dead P) (p_reg P) (p_mem P)).
Proof using too_many d_pos N.
  intros [(th & off & act & Hmain & Hact & Hnd & Hlive & Hth & Hn)] Hp Hx.
  assert (th = InRun x) as -> by congruence.
  assert (∀ q, is_Some (p_threads P !! Some q) → q ≠ p →
    is_Some ((wake_thread p <$> delete (Some p) (p_threads P)) !! Some q)) as Hmore.
  { intros q Hq Hne. rewrite lookup_fmap, lookup_delete_ne by congruence. by apply fmap_is_Some. }
  split. exists (InRun x), off, act. cbn [p_threads p_mem]. split_and!; [|done|done| | |done].
  - by rewrite lookup_fmap, lookup_delete_ne, Hx by done.
  - intros q Hq. destruct (decide (q = p)) as [->|Hne]; [right; cbn; set_solver|].
    destruct (Hlive q Hq) as [Hl|Hl]; [left; by apply Hmore|right; cbn; set_solver].
  - intros q th'. rewrite lookup_fmap. intros (th2 & Hq & ->)%fmap_Some.
    apply lookup_delete_Some in Hq as [Hne Hq]. destruct (Hth _ _ Hq) as (j & Hj & Hl).
    exists j. split; [done|]. destruct th2 as [y|o y|y|]; cbn in *; try done.
    case_decide as Ho; [by destruct y|]. destruct y; try done. destruct Hl as [Ho' Hs].
    split; [done|]. by apply Hmore.
Qed.

(** When all workers wait there are none: each waits for the next. *)
Lemma no_workers P off act :
  (∀ p th, p_threads P !! Some p = Some th → awaits_thread th) →
  (∀ p th', p_threads P !! Some p = Some th' → ∃ j, act !! j = Some p ∧ linked P off act j th') →
  NoDup act → ∀ p, p_threads P !! Some p = None.
Proof using N.
  intros Ha Hth Hnd p. apply eq_None_not_Some. intros [th Hp].
  assert (∀ k, ∃ j q, (k ≤ j)%nat ∧ act !! j = Some q ∧ is_Some (p_threads P !! Some q)) as Hk.
  { induction k as [|k (j & q & Hkj & Hj & [th' Hq])].
    - destruct (Hth _ _ Hp) as (j & Hj & _). exists j, p. split_and!; [lia|done|by eexists].
    - destruct (Hth _ _ Hq) as (j' & Hj' & Hl). destruct (Ha _ _ Hq) as (o & y & ->).
      assert (j' = j) as -> by (by eapply NoDup_lookup). destruct y; try done.
      destruct Hl as [Ho Hs]. exists (S j), o. split_and!; [lia|done|done]. }
  destruct (Hk (length act)) as (j & q & Hj & Hl & _). apply lookup_lt_Some in Hl. lia.
Qed.

(** Main moves on; the coroutines stay where they are. *)
Lemma ordered_main P P' th off act off' act' u :
  P' = goes P None th u →
  (∀ p th', p_threads P !! Some p = Some th' → ∃ j, act !! j = Some p ∧ linked P off act j th') →
  (∀ p, p ∈ act' → live P p) → off' = off → act' = act →
  active th (chain u) off' act' → NoDup act' →
  (∀ n i, th = At (LFree n i) → ∀ p, p_threads P !! Some p = None) → ordered P'.
Proof using.
  intros -> Hth Hlive -> -> Hact Hnd Hn. split. exists th, off, act. cbn.
  rewrite lookup_insert_eq. split_and!; [done|done|done| | |].
  - intros p Hp. destruct (Hlive p Hp) as [Hl|Hl]; [left|by right]. cbn. by rewrite lookup_insert_ne.
  - intros p th'. rewrite lookup_insert_ne by done. intros Hp.
    destruct (Hth _ _ Hp) as (j & Hj & Hl). exists j. split; [done|]. eapply linked_more; [|done].
    intros q. cbn. by rewrite lookup_insert_ne.
  - intros n i Hni p. rewrite lookup_insert_ne by done. by eapply Hn.
Qed.

Lemma main_ordered P y (c : ucall point) u P' :
  filling P → ordered P → p_threads P !! None = Some (At y) → ustep y (p_mem P) = (c, u) →
  call_step P None u c P' → may_refuse ∨ ordered P'.
Proof using d_pos too_many.
  intros Hf [(th & off & act & Hmain & Hact & Hnd & Hlive & Hth & Hn)] Hy Hu Hc.
  rewrite Hy in Hmain. injection Hmain as <-.
  destruct (fi_main _ Hf) as (th & Hmain & Hat). rewrite Hy in Hmain. injection Hmain as <-.
  pose proof (fi_reg _ Hf) as Hreg. pose proof (fi_depth _ Hf) as Hd. pose proof (fi_chain _ Hf) as Hlen.
  destruct y as [| | | | | |i|[|n]|n i|n i co|n i| | |]; cbn in Hact, Hat; try done; cbn in Hu.
  - exfalso. destruct Hat as [_ Hat]. unfold done_count in Hat. lia.
  - right. injection Hu as <- <-. inversion Hc; subst. destruct Hact as [-> ->].
    eapply ordered_main; [done|done|done|reflexivity|reflexivity| |done|done].
    cbn. rewrite Hd, drop_ge by lia. split; [lia|done].
  - destruct Hat as (_ & Hi & _). destruct Hact as [-> ->].
    destruct (Z.leb_spec 0 i); injection Hu as <- <-; inversion Hc; subst; [by left|right..].
    + split. exists (At (LMade n i p)), (Z.to_nat i), (p :: drop (Z.to_nat (i + 1)) (chain (p_mem P))).
      cbn [p_threads p_mem]. rewrite lookup_insert_ne, lookup_insert_eq by done.
      replace (Z.to_nat (i + 1)) with (S (Z.to_nat i)) in * by lia.
      assert (∀ q, is_Some (p_threads P !! Some q) →
        is_Some (<[Some p:=At (ufn fn_chain_worker i)]> (<[None:=At (LMade n i p)]> (p_threads P)) !! Some q))
        as Hmore.
      { intros q Hq. rewrite lookup_insert. case_decide; [done|]. by rewrite lookup_insert_ne. }
      split_and!; [done|done| | | |done].
      * apply NoDup_cons. split; [|done]. by intros Hp%Hlive.
      * intros q [->|Hq]%elem_of_cons; [left; cbn; by rewrite lookup_insert_eq|].
        destruct (Hlive q Hq) as [Hl|Hl]; [left; by apply Hmore|by right].
      * intros q th'. rewrite lookup_insert_Some. intros [[[= <-] <-]|[Hne Hq]].
        { exists 0%nat. split; [done|]. cbn. lia. }
        rewrite lookup_insert_ne in Hq by done. destruct (Hth _ _ Hq) as (j & Hj & Hl).
        exists (S j). split; [done|]. apply (linked_more P (Pool _ (p_dead P) (p_reg P ++ [p]) (p_mem P)) _ _ _ _ Hmore) in Hl.
        destruct th' as [[]|o []| |]; cbn in *; try done. lia.
    + eapply ordered_main; [done|done|done| |reflexivity| |done|done]; [shelve|].
      cbn. replace i with (-1) by lia. done. Unshelve. lia.
  - right. injection Hu as <- <-. inversion Hc; subst. destruct Hact as [-> ->].
    destruct Hat as (_ & Hi & _).
    eapply ordered_main; [done|done|done|reflexivity|reflexivity| |done|done].
    cbn. split; [lia|]. rewrite drop_zinsert by lia.
    by replace (Z.to_nat (i + 1)) with (S (Z.to_nat i)) by lia.
  - right. destruct Hact as [-> ->]. destruct Hat as (_ & Hi & _).
    destruct (Z.ltb_spec i (depth (p_mem P))); injection Hu as <- <-; inversion Hc; subst.
    + destruct (lookup_lt_is_Some_2 (chain (p_mem P)) (Z.to_nat i)) as [q Hq]; [lia|].
      assert (chain_at (p_mem P) i = q) as Hci.
      { unfold chain_at, zlookup. by rewrite (proj2 (Z.leb_le _ _)), Hq by lia. }
      rewrite (drop_S _ q) in Hnd, Hlive by done. apply NoDup_cons in Hnd as [Hqn Hnd].
      split. exists (At (LFree n (i + 1))), (S (Z.to_nat i)), (drop (S (Z.to_nat i)) (chain (p_mem P))).
      cbn [p_threads p_mem p_dead]. rewrite lookup_insert_eq.
      assert (∀ p, <[None:=At (LFree n (i + 1))]> (p_threads P) !! Some p = None) as Hnone.
      { intros p. rewrite lookup_insert_ne by done. by eapply Hn. }
      split_and!; [done|cbn; split; [lia|done]|done| | |done].
      * intros r Hr. destruct (Hlive r) as [Hl|Hl]; [by right|left|right].
        { cbn. by rewrite lookup_insert_ne. }
        cbn. apply elem_of_difference. split; [done|]. rewrite elem_of_singleton. congruence.
      * intros r th'. by rewrite Hnone.
    + split. exists (At (LIter n)), (Z.to_nat d), []. cbn. rewrite lookup_insert_eq.
      split_and!; [done|done|done|by apply NoDup_nil_2|by intros p ?%not_elem_of_nil| |done].
      intros p th'. rewrite lookup_insert_ne by done. by rewrite (Hn n i).
Qed.

Lemma ordered_step P P' :
  filling P → ordered P → pool_step P P' → may_refuse ∨ ordered P'.
Proof using d_pos too_many.
  intros Hf Ho Hs. destruct (fi_main _ Hf) as (th & Hmain & Hat).
  destruct Hs as [t y c u P' Ht Hu Hrun Hc|p x Hp Hx Hlive|x Hx Ha].
  - destruct t as [p|]; [right|by eapply main_ordered].
    destruct (Hrun ltac:(done)) as [x Hx]. rewrite Hmain in Hx. injection Hx as ->.
    destruct x; try done. by eapply worker_ordered.
  - right. by eapply exit_ordered.
  - right. destruct Ho as [(th' & off & act & Hm & Hact & Hnd & Hlive & Hth & _)].
    rewrite Hx in Hm, Hmain. injection Hm as <-. injection Hmain as <-.
    destruct x as [| | | | | | | | | |n i| | |]; try done.
    pose proof (no_workers _ _ _ Ha Hth Hnd) as Hnone.
    by eapply ordered_main.
Qed.

(** No call is misused but the creation of one coroutine too many. *)
Lemma chain_fault P e :
  filling P → ordered P → pool_fault P e → e = AssertTooMany ∨ ∃ p, e = BadDeref p.
Proof using d_pos.
  intros Hf [(th & off & act & Hm & Hact & Hnd & Hlive & Hth & Hn)] He.
  destruct (fi_main _ Hf) as (th' & Hm' & Hat). rewrite Hm in Hm'. injection Hm' as <-.
  pose proof (fi_depth _ Hf) as Hd. pose proof (fi_chain _ Hf) as Hlen.
  assert (∀ i, 0 ≤ i < d → ∃ q, chain (p_mem P) !! Z.to_nat i = Some q ∧ chain_at (p_mem P) i = q) as Hchain.
  { intros i Hi. destruct (lookup_lt_is_Some_2 (chain (p_mem P)) (Z.to_nat i)) as [q Hq]; [lia|].
    exists q. split; [done|]. unfold chain_at, zlookup. by rewrite (proj2 (Z.leb_le _ _)), Hq by lia. }
  destruct He as [t y c u e Ht Hu Hrun He|p x q _ _ _ _]; [|by right; eexists].
  destruct t as [p|].
  - destruct (Hrun ltac:(done)) as [x Hx]. rewrite Hm in Hx. injection Hx as ->.
    destruct x as [| | | | | | | | | |n i| | |]; try done. cbn in Hat, Hact. destruct Hact as [-> ->].
    destruct Hat as (_ & Hi & _). destruct (Hth _ _ Ht) as (j & Hj & Hl).
    destruct y as [idx| | | | | | | | | | | | |]; try done; cbn in Hu.
    + destruct (Z.ltb_spec (idx + 1) (depth (p_mem P))); injection Hu as <- <-; [|by inversion He].
      cbn in Hl. destruct (Hchain (idx + 1)) as (q & Hq & Hc); [lia|]. rewrite Hc in He.
      assert (live P q) as Hq'.
      { apply Hlive. apply (list_elem_of_lookup_2 _ (S j)). rewrite lookup_drop.
        by replace (Z.to_nat i + S j)%nat with (Z.to_nat (idx + 1)) by lia. }
      assert (q ≠ NULL) by (by apply (fi_null _ Hf)). inversion He; subst; done.
    + injection Hu as <- <-. inversion He.
  - rewrite Hm in Ht. injection Ht as ->. destruct y as [| | | | | |i|[|n]|n i|n i co|n i| | |]; try done; cbn in Hu.
    + injection Hu as <- <-. inversion He.
    + injection Hu as <- <-. inversion He.
    + destruct (0 <=? i); injection Hu as <- <-; inversion He; subst; try (by left); try done.
      by pose proof size_default.
    + injection Hu as <- <-. inversion He.
    + cbn in Hact, Hat. destruct Hact as [-> ->]. destruct Hat as (_ & Hi & _).
      destruct (Z.ltb_spec i (depth (p_mem P))); injection Hu as <- <-; [|by inversion He].
      destruct (Hchain i) as (q & Hq & Hc); [lia|]. rewrite Hc in He.
      assert (live P q) as Hq'.
      { apply Hlive. apply (list_elem_of_lookup_2 _ 0%nat). rewrite lookup_drop. by rewrite Nat.add_0_r. }
      assert (q ≠ NULL) by (by apply (fi_null _ Hf)).
      inversion He as [| | | |? ? Hs| | | | | | |]; subst; try done. rewrite (Hn n i) in Hs by done.
      by apply is_Some_None in Hs.
Qed.
End never.

(** What holds of every pool that main reaches. *)
Lemma bench_invariant `{Refusal} d w N P :
  1 ≤ d → MAX_COROUTINES < Z.of_nat N * d →
  rtc pool_step (init_pool (mem0 d w N) (LIter N)) P →
  filling d N P ∧ (may_refuse ∨ ordered d P).
Proof.
  intros Hd Hmany Hr.
  apply (I_rtc (λ P, filling d N P ∧ (may_refuse ∨ ordered d P))
    ltac:(intros P1 P2 [Hf Ho] Hs; split; [by eapply filling_step|];
          destruct Ho as [Ho|Ho]; [by left|by eapply ordered_step])
    (init_pool (mem0 d w N) (LIter N))); [|done].
  assert (∀ p, (init_pool (mem0 d w N) (LIter N) : pool point mem).(p_threads) !! Some p = None) as Hn
      by (intros p; by apply lookup_singleton_ne).
  split; [|right]; split; cbn.
  - done.
  - by rewrite length_replicate.
  - by consts.
  - intros p [Hp|Hp]; [by rewrite Hn in Hp; apply is_Some_None in Hp|by apply not_elem_of_empty in Hp].
  - intros p th Hp. by rewrite Hn in Hp.
  - eexists. rewrite lookup_singleton_eq. split; [done|]. cbn. unfold done_count. lia.
  - exists (At (LIter N)), (Z.to_nat d), []. rewrite lookup_singleton_eq.
    split_and!; [done|done|by apply NoDup_nil_2|by intros p ?%not_elem_of_nil| |done].
    intros p th Hp. by rewrite Hn in Hp.
Qed.

Lemma main_args_spec argv1 argv2 :
  let '(d, w, n) := main_args argv1 argv2 in
  1 ≤ d ≤ 4096 ∧ 1 ≤ w ≤ 8192 ∧ 1000 ≤ Z.of_nat n ≤ 10000.
Proof.
  unfold main_args.
  destruct (Z.ltb_spec (default 256 argv1) 1), (Z.ltb_spec (default 1024 argv2) 1);
    repeat match goal with |- context [?a <? ?b] => destruct (Z.ltb_spec a b) end; lia.
Qed.

(** C40: the await benchmark never ends, whatever its arguments and whatever
    the allocator: its first scenario alone creates at least a thousand
    coroutines, and the library never unregisters one.  Within the fuel given
    it is stopped: by the assertion of [co_create] on the 513th coroutine, or
    before, by reading a coroutine that has been freed when another one
    finishes; or after a creation that [malloc] refuses, which it does not
    check. *)
Theorem await_bench_never_ends `{Allocator, LinkMap} argv1 argv2 (σ : alloc_state) fuel :
  10 ^ 10 ≤ Z.of_nat fuel →
  match exec fuel (main argv1 argv2 σ) with
  | Crashed e => e = AssertTooMany ∨ (∃ p, e = BadDeref p) ∨ refused_in (main argv1 argv2 σ)
  | _ => False
  end.
Proof.
  intros Hf. pose proof (main_args_spec argv1 argv2) as Ha. unfold main.
  destruct (main_args argv1 argv2) as [[d w] n]. destruct Ha as (Hd & Hw & Hn).
  set (w0 := init_world σ (mem0 d w n) (LIter n)).
  assert (MAX_COROUTINES < Z.of_nat n * d) as Hmany by (consts; nia).
  pose proof (run_terminates (H := refused_in w0) worker_point point_cost (λ _, True) σ
    (mem0 d w n) (LIter n) fuel (λ H, H) I) as Ht.
  specialize (Ht ltac:(cbn -[Nat.mul]; unfold chain_cost, fan_cost, root_cost; nia)).
  fold w0 in Ht. destruct (exec fuel w0) as [w1|e|w1]; [..|done].
  - destruct Ht as (P & _ & Hr & Hnone).
    destruct (bench_invariant (H := refused_in w0) d w n P) as [Hfill _]; [lia|done|done|].
    destruct (fi_main _ _ _ Hfill) as (th & Hth & _). congruence.
  - destruct Ht as (P & Hr & He).
    destruct (bench_invariant (H := refused_in w0) d w n P) as [Hfill [Href|Ho]]; [lia|done|done|by auto|].
    destruct (chain_fault d n ltac:(lia) P e Hfill Ho He); auto.
Qed.

#[local] Existing Instance MachineDemo.link.

(** The first scenario alone. *)
Definition run_linear_chain (depth iterations : nat) : world point mem :=
  init_world heap0 (mem0 (Z.of_nat depth) 0 0) (LIter iterations).
Definition run_fan_in (width iterations : nat) : world point mem :=
  init_world heap0 (mem0 0 (Z.of_nat width) 0) (RIter iterations).

Lemma await_bench_never_ends_witness :
  match exec (Z.to_nat (10 ^ 10)) (main None None heap0) with
  | Crashed e => e = AssertTooMany ∨ (∃ p, e = BadDeref p) ∨ refused_in (main None None heap0)
  | _ => False
  end.
Proof. apply (await_bench_never_ends (H := bump_allocator) None None heap0). lia. Defined.

(** One iteration of the linear chain at the benchmark's default depth of
    256: the wakeups cascade from the last coroutine to the first, every
    coroutine becomes DONE and is freed, and main returns. *)
Example linear_chain_one_iteration :
  match exec (Z.to_nat 20000) (run_linear_chain 256 1) with
  | Finished w => w_objs w = ∅ ∧ w_blocks w = ∅ ∧ s_count (w_S w) = 256
  | _ => False
  end.
Proof. by vm_compute. Qed.

(** Both benchmarks free coroutines and go on using the library, which
    keeps them in its registry.  When a coroutine finishes after that,
    [wakeup_waiters] reads a freed object: the second iteration of the linear
    chain, and already the first of the fan-in, have undefined behaviour. *)
Theorem await_bench_use_after_free :
  (match exec (Z.to_nat 20000) (run_linear_chain 2 2) with Crashed (BadDeref _) => True | _ => False end)
  ∧ (match exec (Z.to_nat 20000) (run_fan_in 1 1) with Crashed (BadDeref _) => True | _ => False end).
Proof. split; by vm_compute. Qed.
End AwaitChain.
