(* ===== verification/TimerWheel.v ===== *)
(** * The timer wheel ([examples/timer_wheel.c])

    Timers live in a pool; each slot of the wheel heads a list threaded through
    the pool by the [next] fields.  A pointer into the pool is the index of the
    entry.  Firing a timer creates, schedules, runs and destroys a coroutine;
    [co_schedule] and [co_destroy] are not functions of this library, so the
    model records the call of [co_create] (its tick, callback and argument) and
    goes on with the loop.  The demo's callbacks add no timers. *)

From stdpp Require Import gmap.
From S2P Require Import Prelude.

Module TimerWheel.
Definition WHEEL_SLOTS : Z := 16.
Definition WHEEL_MASK : Z := WHEEL_SLOTS - 1.
Definition MAX_TIMERS : Z := 64.

Record timer_entry := Entry {
  cb : Z;
  arg : Z;
  remaining_laps : Z;
  active : bool;
  next : option nat
}.
Definition zero_entry : timer_entry := Entry 0 0 0 false None.

Record wheel := Wheel {
  g_pool : list timer_entry;
  g_wheel : list (option nat);
  g_current_tick : Z;
  launched : list (Z * Z * Z)     (* tick, callback, argument *)
}.

Definition set_pool (p : list timer_entry) (w : wheel) : wheel :=
  Wheel p (g_wheel w) (g_current_tick w) (launched w).
Definition set_slot (s : nat) (h : option nat) (w : wheel) : wheel :=
  Wheel (g_pool w) (<[s := h]> (g_wheel w)) (g_current_tick w) (launched w).

Definition wheel_init : wheel :=
  Wheel (replicate (Z.to_nat MAX_TIMERS) zero_entry)
    (replicate (Z.to_nat WHEEL_SLOTS) None) 0 [].

Definition with_active (b : bool) (e : timer_entry) : timer_entry :=
  Entry (cb e) (arg e) (remaining_laps e) b (next e).
(** [t->remaining_laps--] *)
Definition lap (e : timer_entry) : timer_entry :=
  Entry (cb e) (arg e) (remaining_laps e - 1) (active e) (next e).
Definition with_next (h : option nat) (e : timer_entry) : timer_entry :=
  Entry (cb e) (arg e) (remaining_laps e) (active e) h.

(** The first entry from index [i] that is not active. *)
Fixpoint timer_alloc (pool : list timer_entry) (i : nat) : option nat :=
  match pool with
  | [] => None
  | e :: pool => if negb (active e) then Some i else timer_alloc pool (S i)
  end.

(** The slot of an unsigned 32-bit tick. *)
Definition slot_of (t : Z) : nat := Z.to_nat (Z.land (t mod 2 ^ 32) WHEEL_MASK).

Definition add_timer (delay cb arg : Z) (w : wheel) : wheel * option nat :=
  match timer_alloc (g_pool w) 0 with
  | None => (w, None)
  | Some i =>
      let slot := slot_of (g_current_tick w + delay) in
      let e := Entry cb arg (delay / WHEEL_SLOTS) true (mjoin (g_wheel w !! slot)) in
      (set_slot slot (Some i) (set_pool (<[i := e]> (g_pool w)) w), Some i)
  end.

(** The loop of [wheel_tick]: [fuel] bounds the length of the list. *)
Fixpoint tick_loop (fuel : nat) (slot : nat) (prev t : option nat) (w : wheel)
    : option wheel :=
  match t with
  | None => Some w
  | Some i =>
      match fuel with
      | O => None
      | S fuel =>
          e ← g_pool w !! i;
          let nxt := next e in
          if 0 <? remaining_laps e then
            tick_loop fuel slot (Some i) nxt (set_pool (alter lap i (g_pool w)) w)
          else
            let w := match prev with
                     | Some p => set_pool (alter (with_next nxt) p (g_pool w)) w
                     | None => set_slot slot nxt w
                     end in
            let w := Wheel (g_pool w) (g_wheel w) (g_current_tick w)
                       (launched w ++ [(g_current_tick w, cb e, arg e)]) in
            let w := set_pool (alter (with_active false) i (g_pool w)) w in
            tick_loop fuel slot prev nxt w
      end
  end.

Definition wheel_tick (w : wheel) : option wheel :=
  t ← cadd (g_current_tick w) 1;
  let slot := slot_of t in
  tick_loop (length (g_pool w)) slot None (mjoin (g_wheel w !! slot))
    (Wheel (g_pool w) (g_wheel w) t (launched w)).

(** ** Lists in the pool *)

(** From [h] the [next] fields lead through [l] to [h']; all are active. *)
Fixpoint lseg (pool : list timer_entry) (h : option nat) (l : list nat)
    (h' : option nat) : Prop :=
  match l with
  | [] => h = h'
  | i :: l => h = Some i ∧ ∃ e, pool !! i = Some e ∧ active e = true
                               ∧ lseg pool (next e) l h'
  end.

Lemma lseg_app pool h l1 l2 h' :
  lseg pool h (l1 ++ l2) h' ↔ ∃ m, lseg pool h l1 m ∧ lseg pool m l2 h'.
Proof.
  revert h. induction l1 as [|i l1 IH]; intros h; cbn.
  - split; [by exists h|]. by intros (m & -> & Hm).
  - split.
    + intros (-> & e & He & Ha & Hl). apply IH in Hl as (m & H1 & H2). eauto 10.
    + intros (m & (-> & e & He & Ha & H1) & H2). split; [done|].
      exists e. split_and!; [done|done|]. apply IH. eauto.
Qed.

(** Changes outside the list, and changes that keep [next] and [active]. *)
Lemma lseg_ext pool pool' h l h' :
  (∀ i e, i ∈ l → pool !! i = Some e → active e = true →
     ∃ e', pool' !! i = Some e' ∧ next e' = next e ∧ active e' = true) →
  lseg pool h l h' → lseg pool' h l h'.
Proof.
  revert h. induction l as [|i l IH]; intros h Hext; cbn; [done|].
  intros (-> & e & He & Ha & Hl). split; [done|].
  destruct (Hext i e) as (e' & He' & Hn & Ha'); [by left|done|done|].
  exists e'. split_and!; [done|done|]. rewrite Hn. apply IH; [|done].
  intros j f Hj. apply Hext. by right.
Qed.

Lemma lseg_frame pool i e h l h' :
  i ∉ l → lseg pool h l h' → lseg (<[i := e]> pool) h l h'.
Proof.
  intros Hi. apply lseg_ext. intros j f Hj Hf Ha. exists f.
  rewrite list_lookup_insert_ne; [done|]. by intros ->.
Qed.

Lemma lseg_frame_alter pool i f h l h' :
  i ∉ l → lseg pool h l h' → lseg (alter f i pool) h l h'.
Proof.
  intros Hi. apply lseg_ext. intros j e Hj He Ha. exists e.
  rewrite list_lookup_alter_ne; [done|]. by intros ->.
Qed.

Lemma lseg_keep pool i f h l h' :
  (∀ e, next (f e) = next e ∧ active (f e) = active e) →
  lseg pool h l h' → lseg (alter f i pool) h l h'.
Proof.
  intros Hf. apply lseg_ext. intros j e Hj He Ha. destruct (Hf e) as [Hn Ha'].
  destruct (decide (i = j)) as [->|Hne].
  - exists (f e). rewrite list_lookup_alter_eq, He. split_and!; [done|done|congruence].
  - exists e. by rewrite list_lookup_alter_ne.
Qed.

(** Redirecting the last [next] of a segment. *)
Lemma lseg_redirect pool h l p h' t :
  p ∉ l → lseg pool h (l ++ [p]) h' →
  lseg (alter (with_next t) p pool) h (l ++ [p]) t.
Proof.
  intros Hp (m & Hl & (-> & e & He & Ha & _))%lseg_app. apply lseg_app.
  exists (Some p). split; [by apply lseg_frame_alter|]. cbn. split; [done|].
  exists (with_next t e). rewrite list_lookup_alter_eq, He. by split_and!.
Qed.

Lemma lseg_lookup pool h l h' i :
  lseg pool h l h' → i ∈ l → ∃ e, pool !! i = Some e ∧ active e = true.
Proof.
  revert h. induction l as [|j l IH]; intros h; [by intros _ ?%not_elem_of_nil|].
  intros (_ & e & He & Ha & Hl) [->|Hi]%elem_of_cons; [by eexists|by eapply IH].
Qed.

(** ** One pass over a slot *)

(** An entry without its [next] field. *)
Record core := Core { k_cb : Z; k_arg : Z; k_laps : Z; k_active : bool }.
Definition core_of (e : timer_entry) : core :=
  Core (cb e) (arg e) (remaining_laps e) (active e).
Definition cores (w : wheel) : list core := core_of <$> g_pool w.

(** What a tick does to an entry of its slot. *)
Definition tick_core (c : core) : core :=
  if 0 <? k_laps c then Core (k_cb c) (k_arg c) (k_laps c - 1) (k_active c)
  else Core (k_cb c) (k_arg c) (k_laps c) false.
Definition pass (cs : list core) (l : list nat) : list core :=
  foldl (λ cs i, alter tick_core i cs) cs l.

Definition laps (cs : list core) (i : nat) : Z := default 0 (k_laps <$> cs !! i).

(** The timers of [l] that expire, those that stay, and what is launched. *)
Fixpoint expired (cs : list core) (l : list nat) : list nat :=
  match l with
  | [] => []
  | i :: l => if 0 <? laps cs i then expired cs l else i :: expired cs l
  end.
Fixpoint staying (cs : list core) (l : list nat) : list nat :=
  match l with
  | [] => []
  | i :: l => if 0 <? laps cs i then i :: staying cs l else staying cs l
  end.
Definition launch (cs : list core) (t : Z) (i : nat) : Z * Z * Z :=
  (t, default 0 (k_cb <$> cs !! i), default 0 (k_arg <$> cs !! i)).

(** An entry outside of [l] does not matter to [l]. *)
Lemma alter_split l cs f i t :
  i ∉ l →
  expired (alter f i cs) l = expired cs l ∧ staying (alter f i cs) l = staying cs l
  ∧ launch (alter f i cs) t <$> expired cs l = launch cs t <$> expired cs l.
Proof.
  induction l as [|j l IH]; intros Hi; [done|].
  apply not_elem_of_cons in Hi as [Hne Hi]. destruct (IH Hi) as (H1 & H2 & H3).
  assert (alter f i cs !! j = cs !! j) as Hj by by apply list_lookup_alter_ne.
  cbn. unfold laps, launch in *. rewrite Hj. fold (laps cs j).
  case_match; cbn; rewrite ?H1, ?H2; [done|]. by rewrite H3, Hj.
Qed.

(** The state after a pass over [rest], the list of [slot] past [pre]. *)
Record pass_spec (slot : nat) (pre rest : list nat) (w w' : wheel) : Prop := {
  ps_list : ∃ h, g_wheel w' = <[slot := h]> (g_wheel w)
    ∧ lseg (g_pool w') h (pre ++ staying (cores w) rest) None;
  ps_tick : g_current_tick w' = g_current_tick w;
  ps_launched : launched w'
    = launched w ++ (launch (cores w) (g_current_tick w) <$> expired (cores w) rest);
  ps_cores : cores w' = pass (cores w) rest;
  ps_others i : i ∉ pre → i ∉ rest → g_pool w' !! i = g_pool w !! i
}.

(** The first timer of the list, then the others. *)
Lemma pass_cons slot pre i rest w w1 w' :
  let stays := 0 <? laps (cores w) i in
  i ∉ rest →
  pass_spec slot (if stays then pre ++ [i] else pre) rest w1 w' →
  (∃ h, g_wheel w1 = <[slot := h]> (g_wheel w)) →
  g_current_tick w1 = g_current_tick w →
  launched w1
    = launched w ++ (if stays then [] else [launch (cores w) (g_current_tick w) i]) →
  cores w1 = alter tick_core i (cores w) →
  (∀ j, j ≠ i → j ∉ pre → g_pool w1 !! j = g_pool w !! j) →
  pass_spec slot pre (i :: rest) w w'.
Proof.
  intros stays Hi [(h & Hh & Hl) Ht Hla Hc Ho] (h0 & Hh0) Hwt Hwl Hwc Hout.
  destruct (alter_split rest (cores w) tick_core i (g_current_tick w) Hi) as (Hex & Hst & Hlau).
  split.
  - exists h. rewrite Hh, Hh0, list_insert_insert_eq. split; [done|].
    rewrite Hwc, Hst in Hl. cbn. fold stays. destruct stays; [|done].
    by rewrite <- app_assoc in Hl.
  - congruence.
  - rewrite Hla, Hwl, Hwt, Hwc, Hex, Hlau. cbn. fold stays.
    destruct stays; [by rewrite app_nil_r|by rewrite <- app_assoc].
  - by rewrite Hc, Hwc.
  - intros j Hjp [Hji Hjr]%not_elem_of_cons. rewrite Ho; [by apply Hout| |done].
    destruct stays; [|done]. by intros [?|?%list_elem_of_singleton]%elem_of_app.
Qed.

Lemma cores_lookup w i e : g_pool w !! i = Some e → cores w !! i = Some (core_of e).
Proof. intros He. unfold cores. by rewrite list_lookup_fmap, He. Qed.

Lemma cores_alter (p : list timer_entry) f g i :
  (∀ e, core_of (f e) = g (core_of e)) → core_of <$> alter f i p = alter g i (core_of <$> p).
Proof. intros Hf. apply list_fmap_alter, Forall_true. exact Hf. Qed.
Lemma cores_alter_id (p : list timer_entry) f i :
  (∀ e, core_of (f e) = core_of e) → core_of <$> alter f i p = core_of <$> p.
Proof. intros Hf. rewrite (cores_alter _ _ id) by done. by apply list_alter_id. Qed.

Lemma core_lap (p : list timer_entry) i e :
  p !! i = Some e → 0 < remaining_laps e →
  core_of <$> alter lap i p = alter tick_core i (core_of <$> p).
Proof.
  intros Hi Hpos. apply list_eq. intros j. rewrite list_lookup_fmap.
  destruct (decide (i = j)) as [<-|Hne].
  2:{ rewrite !list_lookup_alter_ne by done. by rewrite list_lookup_fmap. }
  rewrite !list_lookup_alter_eq, list_lookup_fmap, Hi. cbn.
  unfold tick_core. cbn. by rewrite (proj2 (Z.ltb_lt _ _)).
Qed.

Lemma core_expire (p : list timer_entry) i e :
  p !! i = Some e → remaining_laps e ≤ 0 →
  core_of <$> alter (with_active false) i p = alter tick_core i (core_of <$> p).
Proof.
  intros Hi Hneg. apply list_eq. intros j. rewrite list_lookup_fmap.
  destruct (decide (i = j)) as [<-|Hne].
  2:{ rewrite !list_lookup_alter_ne by done. by rewrite list_lookup_fmap. }
  rewrite !list_lookup_alter_eq, list_lookup_fmap, Hi. cbn.
  unfold tick_core. cbn. by rewrite (proj2 (Z.ltb_ge _ _)).
Qed.

(** Where the loop is: [pre] has been passed and stays, [t] heads [rest]. *)
Record at_loop (slot : nat) (pre rest : list nat) (t : option nat) (w : wheel) : Prop := {
  al_pre : ∃ h, g_wheel w !! slot = Some h ∧ lseg (g_pool w) h pre t;
  al_rest : lseg (g_pool w) t rest None;
  al_nodup : NoDup (pre ++ rest)
}.

(** After detaching the timer [i] that [pre] leads to. *)
Definition detach (slot : nat) (prev : option nat) (nxt : option nat) (w : wheel) : wheel :=
  match prev with
  | Some p => set_pool (alter (with_next nxt) p (g_pool w)) w
  | None => set_slot slot nxt w
  end.

Lemma detach_spec slot pre i e rest w :
  at_loop slot pre (i :: rest) (Some i) w → g_pool w !! i = Some e →
  let w1 := detach slot (last pre) (next e) w in
  (∃ h, g_wheel w1 = <[slot := h]> (g_wheel w) ∧ g_wheel w1 !! slot = Some h
        ∧ lseg (g_pool w1) h pre (next e))
  ∧ lseg (g_pool w1) (next e) rest None
  ∧ g_pool w1 !! i = Some e ∧ cores w1 = cores w
  ∧ (∀ j, j ∉ pre → g_pool w1 !! j = g_pool w !! j).
Proof.
  intros [(h & Hh & Hpre) (_ & e' & He' & Ha & Hrest) Hnd] He. simplify_eq.
  apply NoDup_app in Hnd as (Hnp & Hdisj & Hnr).
  destruct pre as [|p pre _] using rev_ind; cbn [last detach].
  - cbn. split_and!; try done. exists (next e'). split_and!; [done| |done].
    apply list_lookup_insert_eq. by eapply lookup_lt_Some.
  - rewrite last_snoc. cbn [detach].
    assert (p ∉ pre) as Hpp.
    { apply NoDup_app in Hnp as (_ & Hd & _). intros Hin.
      by apply (Hd p Hin), list_elem_of_singleton. }
    assert (p ∉ i :: rest) as Hpr.
    { apply Hdisj, elem_of_app. right. by left. }
    apply not_elem_of_cons in Hpr as [Hpi Hpr].
    split_and!.
    + exists h. split_and!; [by rewrite list_insert_id|done|by eapply lseg_redirect].
    + by apply lseg_frame_alter.
    + cbn. by rewrite list_lookup_alter_ne.
    + apply cores_alter_id. by intros [].
    + intros j Hj. cbn. apply list_lookup_alter_ne. intros ->.
      apply Hj, elem_of_app. right. by left.
Qed.

Lemma tick_loop_spec rest : ∀ fuel slot pre t w,
  (length rest ≤ fuel)%nat → at_loop slot pre rest t w →
  ∃ w', tick_loop fuel slot (last pre) t w = Some w' ∧ pass_spec slot pre rest w w'.
Proof.
  induction rest as [|i rest IH]; intros fuel slot pre t w Hfuel Hat.
  { destruct Hat as [(h & Hh & Hpre) Hrest _]. cbn in Hrest. subst t. exists w.
    split; [by destruct fuel|]. split; cbn; rewrite ?app_nil_r; try done.
    exists h. by rewrite list_insert_id. }
  destruct fuel as [|fuel]; [cbn in Hfuel; lia|].
  pose proof Hat as [(h & Hh & Hpre) (-> & e & He & Ha & Hrest) Hnd].
  pose proof Hnd as (Hnp & Hdisj & [Hir Hnr]%NoDup_cons)%NoDup_app.
  assert (i ∉ pre) as Hip by (intros Hin; apply (Hdisj i Hin); by left).
  assert (laps (cores w) i = remaining_laps e) as Hlaps.
  { unfold laps. by rewrite (cores_lookup _ _ _ He). }
  cbn [tick_loop]. rewrite He. cbn [mbind option_bind].
  destruct (Z.ltb_spec 0 (remaining_laps e)) as [Hpos|Hneg].
  - destruct (IH fuel slot (pre ++ [i]) (next e) (set_pool (alter lap i (g_pool w)) w))
      as (w' & Hw' & Hps).
    { cbn in Hfuel. lia. }
    { split; cbn; [|by apply lseg_frame_alter|by rewrite <- app_assoc].
      exists h. split; [done|]. apply lseg_app. exists (Some i).
      split; [by apply lseg_frame_alter|]. cbn. split; [done|]. exists (lap e).
      by rewrite list_lookup_alter_eq, He. }
    exists w'. rewrite last_snoc in Hw'. split; [done|].
    eapply pass_cons; rewrite ?Hlaps, ?(proj2 (Z.ltb_lt _ _) Hpos); [done|exact Hps|..].
    + exists h. cbn. by rewrite list_insert_id.
    + done.
    + by rewrite app_nil_r.
    + by apply (core_lap _ _ e).
    + intros j Hj _. by apply list_lookup_alter_ne.
  - fold (detach slot (last pre) (next e) w).
    destruct (detach_spec slot pre i e rest w Hat He)
      as ((h1 & Hw1 & Hh1 & Hpre1) & Hrest1 & He1 & Hc1 & Ho1).
    set (w1 := detach slot (last pre) (next e) w) in *.
    edestruct (IH fuel slot pre (next e)) as (w' & Hw' & Hps); cycle 2.
    { exists w'. split; [exact Hw'|].
      eapply pass_cons; rewrite ?Hlaps, ?(proj2 (Z.ltb_ge _ _) Hneg); [done|exact Hps|..].
      - by exists h1.
      - cbn. subst w1. by destruct (last pre).
      - cbn. subst w1. unfold launch. rewrite (cores_lookup _ _ _ He). cbn.
        by destruct (last pre).
      - cbn. rewrite <- Hc1. by apply (core_expire _ _ e).
      - intros j Hj Hjp. cbn. rewrite list_lookup_alter_ne by done. by apply Ho1. }
    { cbn in Hfuel. lia. }
    split; cbn; [|by apply lseg_frame_alter|by apply NoDup_app; split_and!; [..|];
      [|intros j Hj Hjr; apply (Hdisj j Hj); by right|]].
    exists h1. split; [done|]. by apply lseg_frame_alter.
Qed.

(** ** The wheel *)

(** The slots hold disjoint lists [ls] of the active timers. *)
Record wheel_ok (ls : list (list nat)) (w : wheel) : Prop := {
  wh_pool : Z.of_nat (length (g_pool w)) = MAX_TIMERS;
  wh_wheel : Z.of_nat (length (g_wheel w)) = WHEEL_SLOTS;
  wh_slots : Z.of_nat (length ls) = WHEEL_SLOTS;
  wh_list s h l : g_wheel w !! s = Some h → ls !! s = Some l → lseg (g_pool w) h l None;
  wh_nodup : NoDup (concat ls);
  wh_active i c : cores w !! i = Some c → k_active c = true →
    ∃ s l, ls !! s = Some l ∧ i ∈ l;
  wh_laps i c : cores w !! i = Some c → 0 ≤ k_laps c;
  wh_tick : 0 ≤ g_current_tick w ≤ INT_MAX;
  wh_past : Forall (λ r, r.1.1 ≤ g_current_tick w) (launched w)
}.

(** A timer of slot [s] with [n] laps fires at the [n]-th visit of the slot
    after the next one. *)
Definition due (tick s n : Z) : Z :=
  tick + ((s - tick - 1) mod WHEEL_SLOTS + 1) + WHEEL_SLOTS * n.

(** Timer [i] will launch [f] with [x] at tick [d]. *)
Definition pending (ls : list (list nat)) (w : wheel) (i : nat) (d f x : Z) : Prop :=
  ∃ s l c, ls !! s = Some l ∧ i ∈ l ∧ cores w !! i = Some c
    ∧ k_cb c = f ∧ k_arg c = x ∧ due (g_current_tick w) (Z.of_nat s) (k_laps c) = d.

Lemma slot_of_mod t : slot_of t = Z.to_nat (t mod WHEEL_SLOTS).
Proof.
  unfold slot_of. f_equal. change WHEEL_MASK with (Z.ones 4).
  rewrite Z.land_ones by lia. change WHEEL_SLOTS with (2 ^ 4).
  apply Z.mod_mod_divide. by exists (2 ^ 28).
Qed.

Lemma slot_of_bound t : (slot_of t < Z.to_nat WHEEL_SLOTS)%nat.
Proof.
  rewrite slot_of_mod. pose proof (Z.mod_pos_bound t WHEEL_SLOTS).
  unfold WHEEL_SLOTS in *. lia.
Qed.

Lemma concat_elem {A} (ls : list (list A)) s l x : ls !! s = Some l → x ∈ l → x ∈ concat ls.
Proof. intros Hs Hx. apply list_elem_of_In, in_concat. exists l.
  split; apply list_elem_of_In; [by eapply list_elem_of_lookup_2|done]. Qed.

Lemma concat_slot_inj {A} (ls : list (list A)) s s' l l' x :
  NoDup (concat ls) → ls !! s = Some l → ls !! s' = Some l' → x ∈ l → x ∈ l' → s = s'.
Proof.
  revert s s'. induction ls as [|k ls IH]; intros s s' Hnd Hs Hs' Hx Hx'; [done|].
  cbn in Hnd. apply NoDup_app in Hnd as (_ & Hd & Hnd).
  destruct s as [|s], s' as [|s']; cbn in Hs, Hs'; [done|..]; simplify_eq.
  - exfalso. apply (Hd x Hx). by eapply concat_elem.
  - exfalso. apply (Hd x Hx'). by eapply concat_elem.
  - f_equal. by eapply IH.
Qed.

Lemma concat_NoDup_slot {A} (ls : list (list A)) s l :
  NoDup (concat ls) → ls !! s = Some l → NoDup l.
Proof.
  revert s. induction ls as [|k ls IH]; intros [|s] Hnd Hs; simplify_eq/=;
    apply NoDup_app in Hnd as (Hk & _ & Hnd); [done|by eapply IH].
Qed.

Lemma concat_insert_sublist {A} (ls : list (list A)) s l l' :
  ls !! s = Some l → l' `sublist_of` l → concat (<[s := l']> ls) `sublist_of` concat ls.
Proof.
  revert s. induction ls as [|k ls IH]; intros [|s] Hs Hl; simplify_eq/=.
  - by apply sublist_app.
  - apply sublist_app; [done|by apply IH].
Qed.

Lemma staying_sublist cs l : staying cs l `sublist_of` l.
Proof. induction l as [|i l IH]; cbn; [done|]. case_match; by constructor. Qed.

Lemma elem_of_expired cs l i : i ∈ expired cs l ↔ i ∈ l ∧ laps cs i ≤ 0.
Proof.
  induction l as [|j l IH]; cbn.
  { rewrite elem_of_nil. tauto. }
  destruct (Z.ltb_spec 0 (laps cs j)); rewrite ?elem_of_cons, IH;
    intuition (subst; first [lia | auto]).
Qed.

Lemma elem_of_staying cs l i : i ∈ staying cs l ↔ i ∈ l ∧ 0 < laps cs i.
Proof.
  induction l as [|j l IH]; cbn.
  { rewrite elem_of_nil. tauto. }
  destruct (Z.ltb_spec 0 (laps cs j)); rewrite ?elem_of_cons, IH;
    intuition (subst; first [lia | auto]).
Qed.

Lemma pass_lookup l cs i :
  NoDup l → pass cs l !! i = (if bool_decide (i ∈ l) then tick_core else id) <$> cs !! i.
Proof.
  revert cs. unfold pass. induction l as [|j l IH]; intros cs Hnd; cbn.
  { by destruct (cs !! i). }
  apply NoDup_cons in Hnd as [Hj Hnd]. rewrite IH by done.
  destruct (decide (j = i)) as [->|Hne].
  - rewrite bool_decide_false by done. rewrite bool_decide_true by by left.
    rewrite list_lookup_alter_eq. by destruct (cs !! i).
  - rewrite list_lookup_alter_ne by done. f_equal.
    case_bool_decide as H1; case_bool_decide as H2; try done; exfalso.
    + by apply H2; right.
    + apply elem_of_cons in H2 as [->|]; done.
Qed.

Lemma laps_lookup cs i c : cs !! i = Some c → laps cs i = k_laps c.
Proof. intros Hc. unfold laps. by rewrite Hc. Qed.

(** ** One tick *)

Lemma core_inv w i c :
  cores w !! i = Some c → ∃ e, g_pool w !! i = Some e ∧ c = core_of e.
Proof. intros (e & -> & He)%list_lookup_fmap_Some. eauto. Qed.

Lemma length_pass cs l : length (pass cs l) = length cs.
Proof.
  unfold pass. revert cs. induction l as [|i l IH]; intros cs; cbn; [done|].
  by rewrite IH, length_alter.
Qed.

(** The due tick of a timer of the slot being visited, before and after. *)
Lemma due_here t s n : s = (t + 1) mod WHEEL_SLOTS → due t s n = t + 1 + WHEEL_SLOTS * n.
Proof.
  intros ->. unfold due. replace (((t + 1) mod WHEEL_SLOTS - t - 1) mod WHEEL_SLOTS) with 0; [lia|].
  rewrite <- Z.sub_add_distr, Zminus_mod_idemp_l, Z.sub_diag. done.
Qed.

Lemma due_passed t s n :
  s = (t + 1) mod WHEEL_SLOTS → due (t + 1) s (n - 1) = t + 1 + WHEEL_SLOTS * n.
Proof.
  intros ->. unfold due.
  replace (((t + 1) mod WHEEL_SLOTS - (t + 1) - 1) mod WHEEL_SLOTS) with (WHEEL_SLOTS - 1);
    [unfold WHEEL_SLOTS; lia|].
  rewrite <- Z.sub_add_distr, Zminus_mod_idemp_l.
  by replace (t + 1 - (t + 1 + 1)) with (-1) by lia.
Qed.

(** In another slot, the tick brings it one closer. *)
Lemma due_elsewhere t s n :
  0 ≤ s < WHEEL_SLOTS → s ≠ (t + 1) mod WHEEL_SLOTS → 0 ≤ n →
  t + 1 < due t s n ∧ due (t + 1) s n = due t s n.
Proof.
  intros Hs Hne Hn. unfold due, WHEEL_SLOTS in *.
  pose proof (Z.div_mod (t + 1) 16). pose proof (Z.mod_pos_bound (t + 1) 16).
  set (q := (t + 1) / 16) in *. set (r := (t + 1) mod 16) in *.
  assert ((s - t - 1) mod 16 = (s - r) mod 16) as ->.
  { replace (s - t - 1) with (s - r + (- q) * 16) by lia. apply Z.mod_add. lia. }
  assert ((s - (t + 1) - 1) mod 16 = (s - r - 1) mod 16) as ->.
  { replace (s - (t + 1) - 1) with (s - r - 1 + (- q) * 16) by lia. apply Z.mod_add. lia. }
  destruct (Z.lt_ge_cases s r) as [Hlt|Hge].
  - rewrite <- (Z.mod_add (s - r) 1), <- (Z.mod_add (s - r - 1) 1) by lia.
    rewrite !Z.mod_small by lia. lia.
  - rewrite !Z.mod_small by lia. lia.
Qed.

(** The wheel after the pass over slot [s], whose list is [l]. *)
Section after_pass.
Variables (ls : list (list nat)) (w w' : wheel) (s : nat) (l : list nat).
Local Abbreviation ticked :=
  (Wheel (g_pool w) (g_wheel w) (g_current_tick w + 1) (launched w)).
Hypotheses (Hok : wheel_ok ls w) (Hs : ls !! s = Some l)
  (Hmax : g_current_tick w < INT_MAX) (Hp : pass_spec s [] l ticked w').
Local Abbreviation ls' := (<[s := staying (cores w) l]> ls).

Lemma after_nodup : NoDup l.
Proof using Hok Hs. eapply concat_NoDup_slot; [apply Hok|exact Hs]. Qed.

Lemma after_core i :
  cores w' !! i = (if bool_decide (i ∈ l) then tick_core else id) <$> cores w !! i.
Proof using Hok Hs Hp.
  rewrite (ps_cores _ _ _ _ _ Hp). change (cores ticked) with (cores w).
  apply pass_lookup, after_nodup.
Qed.

Lemma after_lists s' h k :
  g_wheel w' !! s' = Some h → ls' !! s' = Some k → lseg (g_pool w') h k None.
Proof using Hok Hs Hp.
  destruct (ps_list _ _ _ _ _ Hp) as (h0 & Hh0 & Hseg). rewrite Hh0. cbn [g_wheel] in *.
  intros Hh Hk. destruct (decide (s = s')) as [<-|Hne].
  - rewrite list_lookup_insert_eq in Hk by (by eapply lookup_lt_Some). simplify_eq.
    apply list_lookup_insert_Some in Hh as [(_ & <- & _)|[Hne _]]; [exact Hseg|done].
  - rewrite list_lookup_insert_ne in Hh by done.
    rewrite list_lookup_insert_ne in Hk by done.
    eapply lseg_ext; [|by eapply (wh_list _ _ Hok)].
    intros i e Hi He Ha. exists e. rewrite (ps_others _ _ _ _ _ Hp); [by split_and!| |].
    + by apply not_elem_of_nil.
    + intros Hil. apply Hne. by eapply concat_slot_inj; [apply Hok|..].
Qed.

Lemma after_active i c :
  cores w' !! i = Some c → k_active c = true → ∃ s' k, ls' !! s' = Some k ∧ i ∈ k.
Proof using Hok Hs Hp.
  rewrite after_core. intros (c0 & Hc0 & ->)%fmap_Some. case_bool_decide as Hi.
  - unfold tick_core. destruct (Z.ltb_spec 0 (k_laps c0)); [|done]. intros _.
    exists s, (staying (cores w) l). split.
    + apply list_lookup_insert_eq. by eapply lookup_lt_Some.
    + apply elem_of_staying. split; [done|]. by rewrite (laps_lookup _ _ _ Hc0).
  - cbn. intros Ha. destruct (wh_active _ _ Hok _ _ Hc0 Ha) as (s' & k & Hk & Hik).
    exists s', k. split; [|done]. rewrite list_lookup_insert_ne; [done|].
    intros ->. by simplify_eq.
Qed.

Lemma after_ok : wheel_ok ls' w'.
Proof using Hok Hs Hp Hmax.
  destruct (ps_list _ _ _ _ _ Hp) as (h0 & Hh0 & _).
  pose proof (wh_tick _ _ Hok) as Htk. split.
  - rewrite <- (length_fmap core_of). fold (cores w').
    rewrite (ps_cores _ _ _ _ _ Hp), length_pass. unfold cores. cbn.
    rewrite length_fmap. apply Hok.
  - rewrite Hh0, length_insert. apply Hok.
  - rewrite length_insert. apply Hok.
  - apply after_lists.
  - eapply sublist_NoDup; [apply Hok|].
    by eapply concat_insert_sublist, staying_sublist.
  - apply after_active.
  - intros i c. rewrite after_core. intros (c0 & Hc0 & ->)%fmap_Some.
    pose proof (wh_laps _ _ Hok _ _ Hc0). case_bool_decide; [|done]. unfold tick_core.
    destruct (Z.ltb_spec 0 (k_laps c0)); cbn; lia.
  - rewrite (ps_tick _ _ _ _ _ Hp). cbn. lia.
  - rewrite (ps_launched _ _ _ _ _ Hp), (ps_tick _ _ _ _ _ Hp). cbn.
    apply Forall_app. split.
    + eapply Forall_impl; [apply Hok|]. intros r Hr. cbn in *. lia.
    + apply Forall_fmap, Forall_true. intros i. cbn. lia.
Qed.

(** A pending timer fires if it is due, and stays pending otherwise. *)
Lemma after_pending i d f x :
  s = slot_of (g_current_tick w + 1) → pending ls w i d f x →
  (d = g_current_tick w + 1 ∧ (d, f, x) ∈ launched w'
     ∧ ∀ c, cores w' !! i = Some c → k_active c = false)
  ∨ (g_current_tick w + 1 < d ∧ pending ls' w' i d f x).
Proof using Hok Hs Hp.
  intros Hslot (s1 & k & c & Hk & Hi & Hc & <- & <- & <-).
  pose proof (wh_laps _ _ Hok _ _ Hc) as Hlaps. pose proof (wh_tick _ _ Hok) as Htk.
  pose proof (laps_lookup _ _ _ Hc) as Hll.
  assert (Z.of_nat s1 < WHEEL_SLOTS) as Hs1.
  { apply lookup_lt_Some in Hk. pose proof (wh_slots _ _ Hok). lia. }
  assert (Z.of_nat s = (g_current_tick w + 1) mod WHEEL_SLOTS) as Hsz.
  { rewrite Hslot, slot_of_mod, Z2Nat.id; [done|]. apply Z.mod_pos_bound. done. }
  destruct (decide (s1 = s)) as [->|Hne].
  - assert (k = l) as -> by congruence.
    rewrite (due_here _ _ _ Hsz).
    destruct (Z.lt_ge_cases 0 (k_laps c)) as [Hpos|Hneg].
    + right. split; [unfold WHEEL_SLOTS; lia|].
      exists s, (staying (cores w) l), (tick_core c). split_and!.
      * apply list_lookup_insert_eq. by eapply lookup_lt_Some.
      * apply elem_of_staying. split; [done|lia].
      * rewrite after_core, bool_decide_true, Hc by done. done.
      * unfold tick_core. by case_match.
      * unfold tick_core. by case_match.
      * rewrite (ps_tick _ _ _ _ _ Hp). cbn. unfold tick_core.
        rewrite (proj2 (Z.ltb_lt _ _)) by done. cbn. by apply due_passed.
    + left. assert (k_laps c = 0) as Hz by lia. rewrite Hz. split_and!; [lia| |].
      * rewrite (ps_launched _ _ _ _ _ Hp). apply elem_of_app. right.
        change (cores ticked) with (cores w).
        apply list_elem_of_fmap. exists i. split.
        -- unfold launch. rewrite Hc. cbn [g_current_tick]. cbn. f_equal. f_equal. lia.
        -- apply elem_of_expired. split; [done|lia].
      * intros c'. rewrite after_core, bool_decide_true, Hc by done. cbn.
        intros [= <-]. unfold tick_core. by rewrite (proj2 (Z.ltb_ge _ _)).
  - right. destruct (due_elsewhere (g_current_tick w) (Z.of_nat s1) (k_laps c))
      as [Hlt Heq]; [lia|rewrite <- Hsz; lia|lia|].
    split; [done|]. exists s1, k, c. split_and!; try done.
    + by rewrite list_lookup_insert_ne.
    + rewrite after_core, bool_decide_false, Hc; [done|].
      intros Hil. apply Hne. by eapply concat_slot_inj; [apply Hok|..].
    + rewrite (ps_tick _ _ _ _ _ Hp). cbn. done.
Qed.
End after_pass.

(** [wheel_tick] passes over the slot of the new tick. *)
Lemma wheel_tick_pass ls w :
  wheel_ok ls w → g_current_tick w < INT_MAX →
  ∃ w' l, ls !! slot_of (g_current_tick w + 1) = Some l
    ∧ wheel_tick w = Some w'
    ∧ pass_spec (slot_of (g_current_tick w + 1)) [] l
        (Wheel (g_pool w) (g_wheel w) (g_current_tick w + 1) (launched w)) w'.
Proof.
  intros Hok Hmax. set (s := slot_of (g_current_tick w + 1)).
  pose proof (slot_of_bound (g_current_tick w + 1)) as Hsb. fold s in Hsb.
  pose proof (wh_tick _ _ Hok). pose proof (wh_slots _ _ Hok). pose proof (wh_wheel _ _ Hok).
  destruct (lookup_lt_is_Some_2 ls s) as [l Hl]; [lia|].
  destruct (lookup_lt_is_Some_2 (g_wheel w) s) as [h Hh]; [lia|].
  pose proof (wh_list _ _ Hok _ _ _ Hh Hl) as Hseg.
  assert (NoDup l) as Hnd by (eapply concat_NoDup_slot; [apply Hok|done]).
  assert (length l ≤ length (g_pool w))%nat as Hlen.
  { rewrite <- (length_seq (length (g_pool w)) 0). apply submseteq_length.
    apply NoDup_submseteq; [done|]. intros i Hi. apply elem_of_seq.
    destruct (lseg_lookup _ _ _ _ i Hseg Hi) as (e & He & _).
    apply lookup_lt_Some in He. lia. }
  unfold wheel_tick. rewrite cadd_ok by (unfold INT_MIN, INT_MAX in *; lia).
  cbn [mbind option_bind]. fold s. rewrite Hh. cbn [mjoin option_join].
  destruct (tick_loop_spec l (length (g_pool w)) s [] h
    (Wheel (g_pool w) (g_wheel w) (g_current_tick w + 1) (launched w))) as (w' & Hw' & Hp).
  - done.
  - split; cbn; [by exists h|done|done].
  - by exists w', l.
Qed.

Lemma wheel_tick_ok ls w :
  wheel_ok ls w → g_current_tick w < INT_MAX →
  ∃ w' ls', wheel_tick w = Some w' ∧ wheel_ok ls' w'
    ∧ g_current_tick w' = g_current_tick w + 1
    ∧ (∃ new, launched w' = launched w ++ new)
    ∧ ∀ i d f x, pending ls w i d f x →
        (d = g_current_tick w + 1 ∧ (d, f, x) ∈ launched w'
           ∧ ∀ c, cores w' !! i = Some c → k_active c = false)
        ∨ (g_current_tick w + 1 < d ∧ pending ls' w' i d f x).
Proof.
  intros Hok Hmax. destruct (wheel_tick_pass ls w Hok Hmax) as (w' & l & Hl & Hw' & Hp).
  eexists w', _. split; [done|]. split; [by eapply after_ok|].
  split; [by rewrite (ps_tick _ _ _ _ _ Hp)|].
  split; [eexists; apply (ps_launched _ _ _ _ _ Hp)|].
  intros i d f x Hpend. by eapply after_pending.
Qed.

(** ** Adding a timer *)

Lemma timer_alloc_spec pool : ∀ n i,
  timer_alloc pool n = Some i →
  (n ≤ i)%nat ∧ ∃ e, pool !! (i - n)%nat = Some e ∧ active e = false.
Proof.
  induction pool as [|e pool IH]; intros n i; cbn; [done|].
  destruct (active e) eqn:Ha; cbn.
  - intros Hi. destruct (IH _ _ Hi) as (Hle & e' & He' & Ha'). split; [lia|].
    exists e'. replace (i - n)%nat with (S (i - S n)) by lia. done.
  - intros [= ->]. split; [lia|]. exists e. by rewrite Nat.sub_diag.
Qed.

(** When a timer added now, with this delay, will fire. *)
Definition fire_tick (t delay : Z) : Z :=
  t + delay + if delay mod WHEEL_SLOTS =? 0 then WHEEL_SLOTS else 0.

Lemma due_added t delay :
  0 ≤ delay → due t ((t + delay) mod WHEEL_SLOTS) (delay / WHEEL_SLOTS) = fire_tick t delay.
Proof.
  intros Hd. unfold due, fire_tick.
  assert (((t + delay) mod WHEEL_SLOTS - t - 1) mod WHEEL_SLOTS
          = (delay - 1) mod WHEEL_SLOTS) as ->.
  { rewrite <- Z.sub_add_distr, Zminus_mod_idemp_l. f_equal. lia. }
  unfold WHEEL_SLOTS. pose proof (Z.div_mod delay 16). pose proof (Z.mod_pos_bound delay 16).
  destruct (Z.eqb_spec (delay mod 16) 0) as [Hz|Hz].
  - replace (delay - 1) with (15 + (delay / 16 - 1) * 16) by lia.
    rewrite Z.mod_add, (Z.mod_small 15) by lia. lia.
  - replace (delay - 1) with (delay mod 16 - 1 + (delay / 16) * 16) by lia.
    rewrite Z.mod_add, (Z.mod_small (delay mod 16 - 1)) by lia. lia.
Qed.

Lemma concat_insert_cons {A} (ls : list (list A)) s l (x : A) :
  ls !! s = Some l → concat (<[s := x :: l]> ls) ≡ₚ x :: concat ls.
Proof.
  revert s. induction ls as [|k ls IH]; intros [|s] Hs; simplify_eq/=; [done|].
  rewrite (IH s Hs). by rewrite Permutation_middle.
Qed.

Section add.
Variables (ls : list (list nat)) (w : wheel) (delay f x : Z) (i : nat).
Local Abbreviation s := (slot_of (g_current_tick w + delay)).
Local Abbreviation w' := (add_timer delay f x w).1.
Variables (l : list nat) (h : option nat) (e0 : timer_entry).
Hypotheses (Hok : wheel_ok ls w) (Ha : timer_alloc (g_pool w) 0 = Some i)
  (Hl : ls !! s = Some l) (Hh : g_wheel w !! s = Some h)
  (He0 : g_pool w !! i = Some e0) (Hfree : active e0 = false) (Hd : 0 ≤ delay).
Local Abbreviation new := (Entry f x (delay / WHEEL_SLOTS) true h).

Lemma add_state :
  w' = Wheel (<[i := new]> (g_pool w)) (<[s := Some i]> (g_wheel w)) (g_current_tick w)
         (launched w).
Proof using Ha Hh. unfold add_timer. by rewrite Ha, Hh. Qed.

Lemma free_fresh : i ∉ concat ls.
Proof using Hok He0 Hfree.
  intros Hin. apply list_elem_of_In, in_concat in Hin as (k & Hk & Hik).
  apply list_elem_of_In, list_elem_of_lookup in Hk as [s' Hk].
  apply list_elem_of_In in Hik.
  destruct (lookup_lt_is_Some_2 (g_wheel w) s') as [h' Hh'].
  { apply lookup_lt_Some in Hk. pose proof (wh_slots _ _ Hok).
    pose proof (wh_wheel _ _ Hok). lia. }
  pose proof (wh_list _ _ Hok _ _ _ Hh' Hk) as Hseg.
  destruct (lseg_lookup _ _ _ _ i Hseg Hik) as (e & He & Hae). congruence.
Qed.

Lemma add_core j :
  cores w' !! j = if decide (i = j) then Some (core_of new) else cores w !! j.
Proof using Ha Hh He0.
  rewrite add_state. unfold cores. cbn [g_pool]. rewrite !list_lookup_fmap.
  case_decide as Hij; subst; [|by rewrite list_lookup_insert_ne].
  rewrite list_lookup_insert_eq; [done|]. by eapply lookup_lt_Some.
Qed.

Lemma add_lists s' h' k :
  g_wheel w' !! s' = Some h' → <[s := i :: l]> ls !! s' = Some k →
  lseg (g_pool w') h' k None.
Proof using Hok Ha Hl Hh He0 Hfree.
  rewrite add_state. cbn [g_wheel g_pool]. intros Hh' Hk.
  pose proof free_fresh as Hfr.
  destruct (decide (s = s')) as [<-|Hne].
  - rewrite list_lookup_insert_eq in Hk by (by eapply lookup_lt_Some).
    rewrite list_lookup_insert_eq in Hh' by (by eapply lookup_lt_Some).
    injection Hh' as <-. injection Hk as <-. cbn. split; [done|]. exists new.
    rewrite list_lookup_insert_eq by (by eapply lookup_lt_Some).
    split_and!; [done|done|]. apply lseg_frame; [|by eapply (wh_list _ _ Hok)].
    intros Hil. apply Hfr. by eapply concat_elem.
  - rewrite list_lookup_insert_ne in Hk by done.
    rewrite list_lookup_insert_ne in Hh' by done.
    apply lseg_frame; [|by eapply (wh_list _ _ Hok)].
    intros Hik. apply Hfr. by eapply concat_elem.
Qed.

Lemma add_ok : wheel_ok (<[s := i :: l]> ls) w'.
Proof using Hok Ha Hl Hh He0 Hfree Hd.
  split; try (rewrite add_state; cbn; rewrite ?length_insert; apply Hok).
  - rewrite length_insert. apply Hok.
  - apply add_lists.
  - rewrite (concat_insert_cons _ _ _ _ Hl). apply NoDup_cons.
    split; [apply free_fresh|apply Hok].
  - intros j c. rewrite add_core. case_decide as Hij; [intros _ _|].
    + exists s, (i :: l). split; [apply list_lookup_insert_eq; by eapply lookup_lt_Some|].
      rewrite Hij. by left.
    + intros Hc Hac. destruct (wh_active _ _ Hok _ _ Hc Hac) as (s' & k & Hk & Hjk).
      destruct (decide (s = s')) as [Hs|Hne].
      * exists s, (i :: l). split; [apply list_lookup_insert_eq; by eapply lookup_lt_Some|].
        right. rewrite <- Hs, Hl in Hk. by injection Hk as ->.
      * exists s', k. by rewrite list_lookup_insert_ne.
  - intros j c. rewrite add_core. case_decide; [|by apply (wh_laps _ _ Hok)].
    intros [= <-]. cbn. apply Z.div_pos; [done|]. unfold WHEEL_SLOTS. lia.
Qed.

Lemma add_pending :
  pending (<[s := i :: l]> ls) w' i (fire_tick (g_current_tick w) delay) f x.
Proof using Hok Ha Hl Hh He0 Hd.
  exists s, (i :: l), (core_of new). split_and!.
  - apply list_lookup_insert_eq. by eapply lookup_lt_Some.
  - by left.
  - rewrite add_core. by rewrite decide_True.
  - done.
  - done.
  - rewrite add_state. cbn [g_current_tick core_of k_laps remaining_laps].
    rewrite slot_of_mod, Z2Nat.id by (apply Z.mod_pos_bound; done).
    by apply due_added.
Qed.

Lemma add_others j d g y :
  pending ls w j d g y → pending (<[s := i :: l]> ls) w' j d g y.
Proof using Hok Ha Hl Hh He0 Hfree.
  intros (s' & k & c & Hk & Hj & Hc & Hcb & Harg & Hdue).
  assert (i ≠ j) as Hij.
  { intros Heq. apply free_fresh. rewrite Heq. by eapply concat_elem. }
  assert (g_current_tick w' = g_current_tick w) as Ht by (by rewrite add_state).
  unfold pending. rewrite Ht. setoid_rewrite add_core.
  destruct (decide (s = s')) as [Hs|Hne].
  - exists s', (i :: l), c. rewrite decide_False by done. split_and!; try done.
    + rewrite <- Hs. apply list_lookup_insert_eq. by eapply lookup_lt_Some.
    + right. rewrite <- Hs, Hl in Hk. by injection Hk as ->.
  - exists s', k, c. rewrite decide_False by done.
    by rewrite list_lookup_insert_ne.
Qed.
End add.

(** ** Runs of the wheel *)

Inductive wheel_op := Add (delay cb arg : Z) | Tick.

Definition op_ok (o : wheel_op) : Prop :=
  match o with Add delay _ _ => 0 ≤ delay < 2 ^ 32 | Tick => True end.

Definition do_op (o : wheel_op) (w : wheel) : option wheel :=
  match o with Add delay f x => Some (add_timer delay f x w).1 | Tick => wheel_tick w end.

Fixpoint do_ops (os : list wheel_op) (w : wheel) : option wheel :=
  match os with [] => Some w | o :: os => w ← do_op o w; do_ops os w end.

(** The ticks in a run. *)
Fixpoint ticks (os : list wheel_op) : Z :=
  match os with [] => 0 | Tick :: os => 1 + ticks os | Add _ _ _ :: os => ticks os end.

Lemma wheel_init_ok : wheel_ok (replicate (Z.to_nat WHEEL_SLOTS) []) wheel_init.
Proof.
  split; [done|done|done|..|done|by constructor].
  - intros s h l. cbn [g_wheel wheel_init].
    intros [-> _]%lookup_replicate [-> _]%lookup_replicate. done.
  - apply NoDup_nil_2.
  - intros i c. unfold cores, wheel_init. cbn [g_pool].
    rewrite fmap_replicate. intros [-> _]%lookup_replicate. done.
  - intros i c. unfold cores, wheel_init. cbn [g_pool].
    rewrite fmap_replicate. intros [-> _]%lookup_replicate. done.
Qed.

(** What an addition does: the pool is full, or an entry of it is the timer. *)
Lemma add_timer_ok ls w delay f x :
  wheel_ok ls w → 0 ≤ delay →
  ∃ ls', wheel_ok ls' (add_timer delay f x w).1
    ∧ g_current_tick (add_timer delay f x w).1 = g_current_tick w
    ∧ (∀ i, (add_timer delay f x w).2 = Some i →
         pending ls' (add_timer delay f x w).1 i (fire_tick (g_current_tick w) delay) f x)
    ∧ launched (add_timer delay f x w).1 = launched w
    ∧ ∀ j d g y, pending ls w j d g y → pending ls' (add_timer delay f x w).1 j d g y.
Proof.
  intros Hok Hd. destruct (timer_alloc (g_pool w) 0) as [i|] eqn:Ha.
  - destruct (timer_alloc_spec _ _ _ Ha) as (_ & e0 & He0 & Hfree).
    rewrite Nat.sub_0_r in He0. set (s := slot_of (g_current_tick w + delay)).
    pose proof (slot_of_bound (g_current_tick w + delay)) as Hs. fold s in Hs.
    pose proof (wh_slots _ _ Hok). pose proof (wh_wheel _ _ Hok).
    destruct (lookup_lt_is_Some_2 ls s) as [l Hl]; [lia|].
    destruct (lookup_lt_is_Some_2 (g_wheel w) s) as [h Hh]; [lia|].
    exists (<[s := i :: l]> ls). split; [by eapply add_ok|].
    rewrite (add_state w delay f x i h Ha Hh) at 1.
    split; [done|]. split.
    { intros i'. unfold add_timer at 1. rewrite Ha. intros [= <-]. by eapply add_pending. }
    split; [by rewrite (add_state w delay f x i h Ha Hh)|].
    intros j d g y. by eapply add_others.
  - exists ls. unfold add_timer. rewrite Ha. by split_and!.
Qed.

Lemma do_op_ok ls w o :
  wheel_ok ls w → op_ok o → g_current_tick w + ticks [o] ≤ INT_MAX →
  ∃ w' ls', do_op o w = Some w' ∧ wheel_ok ls' w'
    ∧ g_current_tick w' = g_current_tick w + ticks [o]
    ∧ (∀ r, r ∈ launched w → r ∈ launched w')
    ∧ ∀ i d f x, pending ls w i d f x →
        (d = g_current_tick w' ∧ (d, f, x) ∈ launched w')
        ∨ pending ls' w' i d f x.
Proof.
  intros Hok Ho Hmax. destruct o as [delay f x|]; cbn in *.
  - destruct (add_timer_ok ls w delay f x) as (ls' & Hok' & Ht & _ & Hl & Hp); [done|lia|].
    eexists _, ls'. split; [done|]. split; [done|]. split; [lia|].
    split; [by rewrite Hl|]. eauto.
  - destruct (wheel_tick_ok ls w) as (w' & ls' & Hw & Hok' & Ht & (new & Hn) & Hp); [done|lia|].
    exists w', ls'. split; [done|]. split; [done|]. split; [lia|].
    split; [intros r; rewrite Hn, elem_of_app; by left|].
    intros i d g y Hd. destruct (Hp _ _ _ _ Hd) as [(-> & Hin & _)|[_ ?]]; [left|by right].
    split; [lia|done].
Qed.

Lemma do_ops_ok os : ∀ ls w,
  wheel_ok ls w → Forall op_ok os → g_current_tick w + ticks os ≤ INT_MAX →
  ∃ w' ls', do_ops os w = Some w' ∧ wheel_ok ls' w'
    ∧ g_current_tick w' = g_current_tick w + ticks os
    ∧ (∀ r, r ∈ launched w → r ∈ launched w')
    ∧ ∀ i d f x, pending ls w i d f x →
        (d, f, x) ∈ launched w' ∨ pending ls' w' i d f x.
Proof.
  induction os as [|o os IH]; intros ls w Hok Hos Hmax.
  { exists w, ls. cbn in *. split_and!; [done|done|lia|done|by right]. }
  apply Forall_cons in Hos as [Ho Hos].
  assert (ticks (o :: os) = ticks [o] + ticks os) as Ht by (destruct o; cbn; lia).
  assert (∀ os, 0 ≤ ticks os) as Hpos.
  { intros os'. induction os' as [|[] ? IHos]; cbn in *; lia. }
  pose proof (Hpos os).
  destruct (do_op_ok ls w o) as (w1 & ls1 & Hw1 & Hok1 & Ht1 & Hl1 & Hp1); [done|done|lia|].
  destruct (IH ls1 w1) as (w2 & ls2 & Hw2 & Hok2 & Ht2 & Hl2 & Hp2); [done|done|lia|].
  exists w2, ls2. cbn [do_ops]. rewrite Hw1. cbn [mbind option_bind].
  split; [done|]. split; [done|]. split; [lia|]. split; [auto|].
  intros i d f x Hp. destruct (Hp1 _ _ _ _ Hp) as [[_ ?]|?]; auto.
Qed.

(** A timer that is pending is an active entry, due later. *)
Lemma pending_entry ls w i d f x :
  wheel_ok ls w → pending ls w i d f x →
  g_current_tick w < d
  ∧ ∃ e, g_pool w !! i = Some e ∧ active e = true ∧ cb e = f ∧ arg e = x.
Proof.
  intros Hok (s & l & c & Hl & Hi & Hc & Hcb & Harg & Hd). split.
  - pose proof (wh_laps _ _ Hok _ _ Hc). unfold due in Hd.
    pose proof (Z.mod_pos_bound (Z.of_nat s - g_current_tick w - 1) WHEEL_SLOTS).
    unfold WHEEL_SLOTS in *. lia.
  - destruct (lookup_lt_is_Some_2 (g_wheel w) s) as [h Hh].
    { apply lookup_lt_Some in Hl. pose proof (wh_slots _ _ Hok).
      pose proof (wh_wheel _ _ Hok). lia. }
    destruct (lseg_lookup _ _ _ _ i (wh_list _ _ Hok _ _ _ Hh Hl) Hi) as (e & He & Ha).
    exists e. unfold cores in Hc. rewrite list_lookup_fmap, He in Hc. cbn in Hc.
    injection Hc as <-. done.
Qed.

(** What a finished run of operations says of its initial state. *)
Lemma do_ops_some os : ∀ ls w w',
  wheel_ok ls w → Forall op_ok os → do_ops os w = Some w' → ∃ ls', wheel_ok ls' w'.
Proof.
  induction os as [|o os IH]; intros ls w w' Hok Hos; cbn; [intros [= <-]; eauto|].
  apply Forall_cons in Hos as [Ho Hos].
  destruct (do_op o w) as [w1|] eqn:Hw1; cbn [mbind option_bind]; [|done]. intros Hw'.
  assert (g_current_tick w + ticks [o] ≤ INT_MAX) as Hmax.
  { pose proof (wh_tick _ _ Hok). destruct o; cbn; [lia|].
    apply Z.nlt_ge. intros Hlt. cbn in Hw1. unfold wheel_tick in Hw1.
    unfold cadd, in_int in Hw1. cbn in Hlt.
    by rewrite (proj2 (Z.leb_gt _ INT_MAX)), andb_false_r in Hw1 by lia. }
  destruct (do_op_ok ls w o) as (w2 & ls2 & Hw2 & Hok2 & _); [done..|].
  rewrite Hw1 in Hw2. injection Hw2 as <-. by eapply IH.
Qed.

(** C35: a timer added to a wheel in use fires at [fire_tick] of the tick and
    the delay.  Whatever timers are added meanwhile, each further tick returns
    (its loop ends); before [fire_tick] the timer keeps an active entry with
    its callback and argument and nothing is launched with that date; from
    then on its callback has been launched, at exactly that tick. *)
Theorem timer_fires pre post delay f x w w1 i :
  Forall op_ok pre → Forall op_ok post → 0 ≤ delay < 2 ^ 32 →
  do_ops pre wheel_init = Some w →
  add_timer delay f x w = (w1, Some i) →
  g_current_tick w + ticks post ≤ INT_MAX →
  let d := fire_tick (g_current_tick w) delay in
  ∃ w2, do_ops post w1 = Some w2
    ∧ g_current_tick w2 = g_current_tick w + ticks post
    ∧ if d <=? g_current_tick w2 then (d, f, x) ∈ launched w2
      else (∃ e, g_pool w2 !! i = Some e ∧ active e = true ∧ cb e = f ∧ arg e = x)
           ∧ Forall (λ r, r.1.1 ≠ d) (launched w2).
Proof.
  intros Hpre Hpost Hd Hw Hadd Hmax d.
  destruct (do_ops_some _ _ _ _ wheel_init_ok Hpre Hw) as (ls & Hok).
  destruct (add_timer_ok ls w delay f x) as (ls1 & Hok1 & Ht1 & Hp & _); [done|lia|].
  rewrite Hadd in Hok1, Ht1, Hp. cbn [fst snd] in *. specialize (Hp _ eq_refl).
  destruct (do_ops_ok post ls1 w1) as (w2 & ls2 & Hw2 & Hok2 & Ht2 & _ & Hp2);
    [done|done|lia|].
  exists w2. split; [done|]. split; [lia|].
  pose proof (wh_past _ _ Hok2) as Hpast. rewrite Forall_forall in Hpast.
  specialize (Hp2 _ _ _ _ Hp). fold d in Hp2. destruct (Z.leb_spec d (g_current_tick w2)).
  - destruct Hp2 as [?|Hp2]; [done|].
    destruct (pending_entry _ _ _ _ _ _ Hok2 Hp2). lia.
  - split.
    + destruct Hp2 as [Hin|Hp2]; [|by eapply pending_entry].
      specialize (Hpast _ Hin). cbn in Hpast. lia.
    + apply Forall_forall. intros r Hr. specialize (Hpast _ Hr). lia.
Qed.

Definition demo_adds : list wheel_op :=
  [Add 3 1 1; Add 5 1 2; Add 8 1 3; Add 4 2 0; Add 10 2 0; Add 7 3 1; Add 12 3 2].

Lemma timer_fires_witness :
  ∃ w w1 w2,
    do_ops demo_adds wheel_init = Some w
    ∧ add_timer 20 4 7 w = (w1, Some 7%nat)
    ∧ do_ops (replicate 19 Tick ++ [Add 1 5 5; Tick]) w1 = Some w2
    ∧ (20, 4, 7) ∈ launched w2.
Proof.
  destruct (do_ops demo_adds wheel_init) as [w|] eqn:Hw; [|by vm_compute in Hw].
  destruct (add_timer 20 4 7 w) as [w1 [i|]] eqn:Hadd;
    [|vm_compute in Hw; injection Hw as <-; vm_compute in Hadd; done].
  assert (i = 7%nat ∧ g_current_tick w = 0) as [-> H0].
  { vm_compute in Hw. injection Hw as <-. vm_compute in Hadd. by injection Hadd. }
  assert (ticks (replicate 19 Tick ++ [Add 1 5 5; Tick]) = 20) as Ht by done.
  destruct (timer_fires demo_adds (replicate 19 Tick ++ [Add 1 5 5; Tick]) 20 4 7 w w1 7)
    as (w2 & Hw2 & Ht2 & Hin).
  - unfold demo_adds. repeat (apply Forall_cons; split; [done|]). by apply Forall_nil.
  - cbn [replicate app]. repeat (apply Forall_cons; split; [done|]). by apply Forall_nil.
  - done.
  - done.
  - done.
  - rewrite H0, Ht. done.
  - exists w, w1, w2. rewrite Ht2, H0, Ht in Hin. done.
Defined.

(** A delay that is a multiple of the number of slots fires one revolution
    late: a callback asked for after 16 ticks is not launched by the first 31
    and is launched at tick 32. *)
Theorem timer_fires_late :
  ∃ w15 w31 w32,
    do_ops (Add 16 1 7 :: replicate 16 Tick) wheel_init = Some w15 ∧ launched w15 = []
    ∧ do_ops (replicate 15 Tick) w15 = Some w31 ∧ launched w31 = []
    ∧ wheel_tick w31 = Some w32 ∧ launched w32 = [(32, 1, 7)].
Proof. do 3 eexists. repeat (split; [by vm_compute|]). by vm_compute. Qed.
End TimerWheel.
