(* ===== verification/TimerMain.v ===== *)
(** * The timer wheel demo ([examples/timer_wheel.c], callbacks and main)

    [TimerWheel] says when a timer fires; here is what the demo prints.  A
    callback runs as the only coroutine there is, from its creation until
    [co_run] returns, so what it prints is what executing it alone prints
    ([callback_alone]).  [co_schedule], which [coroutine.h] does not declare,
    adds nothing to [co_create]; [co_destroy] prints nothing. *)

From stdpp Require Import gmap.
From S2P Require Import Prelude Ring Machine State RunQueue Api Demo User.
From S2P Require Import Threads Progress ForkJoin Rounds TimerWheel.

Module TimerMain.
Import TimerWheel.

(** ** The callbacks *)

Inductive line : Set :=
| HeartbeatFired (tick id : Z) | HeartbeatDone (tick id : Z)
| WatchdogFired (tick : Z)
| DelayedMessage (tick : Z) (msg : Z)
| TickHeader (tick : Z).

(** [g_current_tick] and the output; [*(int * )arg] and [msg] stand for the
    argument itself. *)
Record mem := Mem { current_tick : Z; printed : list line }.
Definition say (o : line) (m : mem) : mem := Mem (current_tick m) (printed m ++ [o]).

Definition heartbeat_cb : Z := 1.
Definition watchdog_cb : Z := 2.
Definition delayed_print_cb : Z := 3.

(** The callbacks at their start, [heartbeat_cb] also after its [co_yield]. *)
Inductive point : Set := Heartbeat (id : Z) | HeartbeatYielded (id : Z) | Watchdog | Delayed (msg : Z).

Definition step_point (l : point) (m : mem) : ucall point * mem :=
  match l with
  | Heartbeat id => (UYield (HeartbeatYielded id), say (HeartbeatFired (current_tick m) id) m)
  | HeartbeatYielded id => (UReturn, say (HeartbeatDone (current_tick m) id) m)
  | Watchdog => (UReturn, say (WatchdogFired (current_tick m)) m)
  | Delayed msg => (UReturn, say (DelayedMessage (current_tick m) msg) m)
  end.

#[export] Instance bodies : Bodies point mem := {|
  body_step := step_point;
  body_fn fn arg := if fn =? heartbeat_cb then Heartbeat arg
                    else if fn =? watchdog_cb then Watchdog else Delayed arg
|}.

#[export] Instance callbacks_yield : YieldBodies point mem.
Proof. by intros []. Qed.

(** A callback executed alone. *)
Definition fire (tick cb arg : Z) : list line :=
  default [] (printed <$> round_robin 2 [body_fn cb arg] (Mem tick [])).

(** What [wheel_tick] does with an expired timer: [co_create], [co_run] and the
    release of the coroutine. *)
Definition launch_code : fj_point → ucall fj_point := fork_join (32 * 1024) true.

Lemma callback_ends tick out cb arg :
  round_robin 2 [body_fn cb arg] (Mem tick out) = Some (Mem tick (out ++ fire tick cb arg)).
Proof.
  unfold fire. cbn [body_fn bodies].
  destruct (cb =? heartbeat_cb); [|destruct (cb =? watchdog_cb)]; cbn; unfold say; cbn;
    by rewrite <- ?app_assoc.
Qed.

Lemma callback_alone `{Allocator, LinkMap} tick out cb arg (σ : alloc_state) fuel :
  let w0 := init_world σ (Mem tick out) (inl (FCreate [(cb, arg)] [])) in
  let code := program launch_code in
  cb ≠ NULL → 45 ≤ Z.of_nat fuel → ¬ refused_in w0 →
  match exec fuel w0 with
  | Finished w => w_user w = Mem tick (out ++ fire tick cb arg)
  | _ => False
  end.
Proof.
  intros w0 code Hcb Hf Hr.
  pose proof (rounds_total (R := refused_in w0) Each (32 * 1024) true [(cb, arg)] (Mem tick out)) as Ht.
  specialize (Ht ltac:(by left) ltac:(by apply size_large) ltac:(by consts)
    ltac:(by repeat constructor) σ 2%nat _ fuel (λ H, H) (callback_ends tick out cb arg) ltac:(cbn; lia)).
  unfold w0, code, launch_code, fork_join. destruct (exec fuel _) as [w|e|w]; [|done..].
  by destruct Ht as [[Href _]|Ht].
Qed.

(** ** main *)

(** [for (tick = 0; tick < n; tick++)]: the header, then what the callbacks that
    [wheel_tick] launches print, in the order in which it launches them. *)
Fixpoint tick_for (n : nat) (w : wheel) : option (wheel * list line) :=
  match n with
  | O => Some (w, [])
  | S n =>
      '(w, out) ← tick_for n w;
      w' ← wheel_tick w;
      let fired := drop (length (launched w)) (launched w') in
      Some (w', out ++ TickHeader (Z.of_nat n + 1)
                  :: (fired ≫= λ '(tick, cb, arg), fire tick cb arg))
  end.

(** The messages are numbered: 1 is "hello from the future", 2 "all timers
    expired". *)
Definition main : option (list line) :=
  let add delay cb arg w := (add_timer delay cb arg w).1 in
  let w := add 12 delayed_print_cb 2 (add 7 delayed_print_cb 1
           (add 10 watchdog_cb 0 (add 4 watchdog_cb 0
           (add 8 heartbeat_cb 3 (add 5 heartbeat_cb 2 (add 3 heartbeat_cb 1 wheel_init)))))) in
  snd <$> tick_for 15 w.

Definition timers_at (tick : Z) : list line :=
  match tick with
  | 3 => [HeartbeatFired 3 1; HeartbeatDone 3 1]
  | 4 => [WatchdogFired 4]
  | 5 => [HeartbeatFired 5 2; HeartbeatDone 5 2]
  | 7 => [DelayedMessage 7 1]
  | 8 => [HeartbeatFired 8 3; HeartbeatDone 8 3]
  | 10 => [WatchdogFired 10]
  | 12 => [DelayedMessage 12 2]
  | _ => []
  end.

(** The demo prints each tick, with the timers that are due, at their delay. *)
Example timer_demo_output :
  main = Some (seqZ 1 15 ≫= λ tick, TickHeader tick :: timers_at tick).
Proof. by vm_compute. Qed.
End TimerMain.
