(* ===== verification/Resume.v ===== *)
(** * Coroutines that are resumed by name

    [examples/state_machine.c], [examples/recursive_fib.c] and
    [examples/async_io.c] are written for a library with [co_resume],
    [co_destroy] and [co_status], which this repository does not have.  Their
    own code is modelled; the library is not, and its part in the theorems is
    one of two:

    - [any_step]: nothing is known of the library but that each coroutine runs
      its own code in order.  Any coroutine may run next.
    - [Asymmetric]: the discipline the examples describe in their comments:
      [co_resume] runs the coroutine it names, until that one calls [co_yield]
      or returns, which continues the one that resumed it.  It is the law of an
      interface, [AsymmetricDemo.stack_lib] one implementation of it.

    What every schedule preserves, the discipline preserves
    ([follows_any]). *)

From stdpp Require Import gmap relations.
From S2P Require Import Prelude Ring Machine State.

(** What a stretch of code ends with: a call, and where the code goes on.
    [co_create] is given the first point of the function that starts. *)
Inductive acall (L : Type) : Type :=
| AReturn
| ATau (k : L)
| AYield (k : L)
| AResume (h : ptr) (k : L)
| ACreate (start : L) (k : ptr → L)
| ADestroy (h : ptr) (k : L)
| AStatus (h : ptr) (k : bool → L).    (* is [h] dead? *)
Arguments AReturn {L}.
Arguments ATau {L} k.
Arguments AYield {L} k.
Arguments AResume {L} h k.
Arguments ACreate {L} start k.
Arguments ADestroy {L} h k.
Arguments AStatus {L} h k.

(** One stretch of code; no answer where its behaviour is undefined. *)
Class ACode (L M : Type) := astep : L → M → option (M * acall L).

(** The control points of main ([None]) and of the coroutines that have been
    created and have neither returned nor been destroyed. *)
Record apool (L M : Type) := APool { ap_threads : gmap (option ptr) L; ap_mem : M }.
Arguments APool {L M} ap_threads ap_mem.
Arguments ap_threads {L M} a.
Arguments ap_mem {L M} a.

Definition is_dead {L} (T : gmap (option ptr) L) (h : ptr) : bool :=
  match T !! Some h with Some _ => false | None => true end.

Section any_schedule.
Context {L M : Type} `{ACode L M}.
Implicit Types (P : apool L M) (t : option ptr) (c : acall L) (T : gmap (option ptr) L).

(** Thread [t] makes the call [c]. *)
Inductive acall_step T t : acall L → gmap (option ptr) L → Prop :=
| ac_return : acall_step T t AReturn (delete t T)
| ac_tau k : acall_step T t (ATau k) (<[t := k]> T)
| ac_yield k : acall_step T t (AYield k) (<[t := k]> T)
| ac_resume h k : acall_step T t (AResume h k) (<[t := k]> T)
| ac_create_fails start k : acall_step T t (ACreate start k) (<[t := k NULL]> T)
| ac_create start k p : p ≠ NULL → T !! Some p = None → t ≠ Some p →
    acall_step T t (ACreate start k) (<[Some p := start]> (<[t := k p]> T))
| ac_destroy h k : t ≠ Some h → acall_step T t (ADestroy h k) (<[t := k]> (delete (Some h) T))
| ac_status h k :
    acall_step T t (AStatus h k) (<[t := k (is_dead T h)]> T).

(** Some thread runs up to its next call. *)
Inductive any_step P : apool L M → Prop :=
| any_step_intro t l m c T :
    ap_threads P !! t = Some l → astep l (ap_mem P) = Some (m, c) →
    acall_step (ap_threads P) t c T → any_step P (APool T m).

(** No thread can do anything undefined. *)
Definition all_defined P : Prop :=
  ∀ t l, ap_threads P !! t = Some l → is_Some (astep l (ap_mem P)).

Definition start_pool (x : L) (m : M) : apool L M := APool {[ None := x ]} m.

Lemma any_invariant (I : apool L M → Prop) P P' :
  (∀ P P', I P → any_step P P' → I P') → I P → rtc any_step P P' → I P'.
Proof. intros Hs HI Hr. induction Hr; eauto. Qed.
End any_schedule.

(** A measure of control points, summed over the threads. *)
Definition tsum {L} (f : L → nat) (T : gmap (option ptr) L) : nat :=
  map_fold (λ _ l n, f l + n)%nat 0%nat T.

Section tsum.
Context {L : Type} (f : L → nat).
Implicit Types (T : gmap (option ptr) L) (t : option ptr).

Lemma tsum_insert T t l : T !! t = None → tsum f (<[t := l]> T) = (f l + tsum f T)%nat.
Proof.
  intros Ht. unfold tsum. by rewrite (map_fold_insert_L (λ _ l n, f l + n)%nat) by (lia || done).
Qed.

Lemma tsum_delete T t l : T !! t = Some l → tsum f T = (f l + tsum f (delete t T))%nat.
Proof.
  intros Ht. unfold tsum. by rewrite (map_fold_delete_L (λ _ l n, f l + n)%nat _ t l) by (lia || done).
Qed.

Lemma tsum_update T t l l' :
  T !! t = Some l → (tsum f (<[t := l']> T) + f l = tsum f T + f l')%nat.
Proof.
  intros Ht. rewrite (tsum_delete _ _ _ Ht), <- insert_delete_eq, tsum_insert; [lia|].
  apply lookup_delete_eq.
Qed.

(** The continuation of a call, and the coroutine it creates, weigh at most
    [n]. *)
Definition call_bound (c : acall L) (n : nat) : Prop :=
  match c with
  | AReturn => True
  | ATau k | AYield k | AResume _ k | ADestroy _ k => (f k ≤ n)%nat
  | ACreate start k => ∀ p, (f start + f (k p) ≤ n)%nat
  | AStatus _ k => ∀ b, (f (k b) ≤ n)%nat
  end.

Lemma tsum_call T t l c T' n :
  T !! t = Some l → acall_step T t c T' → call_bound c n →
  (tsum f T' + f l ≤ tsum f T + n)%nat.
Proof.
  intros Ht Hs Hn.
  assert (∀ l', f l' ≤ n → tsum f (<[t := l']> T) + f l ≤ tsum f T + n)%nat as Hu
    by (intros l' Hl; rewrite (tsum_update _ _ _ l' Ht); lia).
  destruct Hs as [|k|k|h k|st k|st k p Hp Hf Hne|h k Hne|h k]; cbn in Hn; try (by apply Hu).
  - rewrite (tsum_delete _ _ _ Ht). lia.
  - apply Hu. specialize (Hn NULL). lia.
  - rewrite tsum_insert by by rewrite lookup_insert_ne.
    pose proof (tsum_update _ _ _ (k p) Ht). specialize (Hn p). lia.
  - assert (tsum f (delete (Some h) T) ≤ tsum f T)%nat as Hd.
    { destruct (T !! Some h) as [l'|] eqn:Hh; [rewrite (tsum_delete _ _ _ Hh); lia|].
      by rewrite delete_id. }
    assert (delete (Some h) T !! t = Some l) as Ht' by by rewrite lookup_delete_ne.
    pose proof (tsum_update _ _ _ k Ht'). lia.
Qed.

Lemma tsum_start x : tsum f {[ None := x ]} = f x.
Proof. unfold tsum. rewrite map_fold_singleton. lia. Qed.
End tsum.

(** ** A rule for every schedule

    [P] holds of the memory, [A] of each thread, [R] relates any two.  A stretch
    of code keeps [P], establishes [A] where it continues, and disturbs no
    thread that [R] relates to it. *)

Section rule.
Context {L M : Type} `{ACode L M} (P : M → Prop) (A : L → M → Prop) (R : L → L → Prop).

(** From [m] to [m'], [l] becomes [k] without getting in the way of others. *)
Definition takes_over (m m' : M) (l k : L) : Prop :=
  A k m' ∧ ∀ l', A l' m → R l l' → R k l'.

Definition next_ok (m m' : M) (l : L) (c : acall L) : Prop :=
  match c with
  | AReturn => True
  | ATau k | AYield k | AResume _ k | ADestroy _ k => takes_over m m' l k
  | ACreate start k =>
      takes_over m m' l start ∧ takes_over m m' l (k NULL)
      ∧ ∀ p, p ≠ NULL → takes_over m m' l (k p) ∧ R start (k p)
  | AStatus _ k => ∀ b, takes_over m m' l (k b)
  end.

Class Separate : Prop := {
  sp_sym l l' : R l l' → R l' l;
  sp_step l m : P m → A l m →
    ∃ m' c, astep l m = Some (m', c) ∧ P m' ∧ next_ok m m' l c
      ∧ ∀ l', A l' m → R l l' → A l' m'
}.

Record separate (Q : apool L M) : Prop := {
  se_mem : P (ap_mem Q);
  se_thread t l : ap_threads Q !! t = Some l → A l (ap_mem Q);
  se_apart t t' l l' : t ≠ t' → ap_threads Q !! t = Some l → ap_threads Q !! t' = Some l' → R l l'
}.

Section steps.
Context {HS : Separate}.
Implicit Types (T : gmap (option ptr) L) (t : option ptr).

(** The threads, once [t] has left its point. *)
Lemma separate_others Q t m' l :
  separate Q → ap_threads Q !! t = Some l →
  P m' → (∀ l', A l' (ap_mem Q) → R l l' → A l' m') →
  separate (APool (delete t (ap_threads Q)) m').
Proof using HS.
  intros [Hm Ht Ha] Hl HP Hrest. split; cbn; [done| |].
  - intros t' l' [Hne Hl']%lookup_delete_Some. eauto.
  - intros t1 t2 l1 l2 Hne [_ H1]%lookup_delete_Some [_ H2]%lookup_delete_Some. eauto.
Qed.

Lemma separate_put T t k m :
  separate (APool T m) → A k m → (∀ t' l', T !! t' = Some l' → R k l') →
  separate (APool (<[t := k]> T) m).
Proof using HS.
  intros [Hm Ht Ha] Hk HR. cbn in *. split; cbn; [done| |].
  - intros t' l' [[_ <-]|[_ Hl']]%lookup_insert_Some; eauto.
  - intros t1 t2 l1 l2 Hne [[<- <-]|[N1 H1]]%lookup_insert_Some [[<- <-]|[N2 H2]]%lookup_insert_Some;
      [done|eauto|apply sp_sym; eauto|eauto].
Qed.

Lemma separate_remove T t m : separate (APool T m) → separate (APool (delete t T) m).
Proof using.
  intros [Hm Ht Ha]. split; cbn in *; [done| |].
  - intros t' l' [Hne Hl']%lookup_delete_Some. eauto.
  - intros t1 t2 l1 l2 Hne [_ H1]%lookup_delete_Some [_ H2]%lookup_delete_Some. eauto.
Qed.

Lemma separate_step Q Q' : separate Q → any_step Q Q' → separate Q'.
Proof using HS.
  intros HQ [t l m c T Ht Hs Hc].
  destruct (sp_step l (ap_mem Q) (se_mem _ HQ) (se_thread _ HQ _ _ Ht))
    as (m' & c' & He & HP & Hn & Hrest).
  rewrite Hs in He. injection He as <- <-.
  pose proof (separate_others Q t m l HQ Ht HP Hrest) as HO.
  assert (∀ k, takes_over (ap_mem Q) m l k →
    ∀ t' l', delete t (ap_threads Q) !! t' = Some l' → R k l') as HR.
  { intros k [_ Hk] t' l' [Hne Hl']%lookup_delete_Some. apply Hk; [by eapply se_thread|].
    by apply (se_apart Q HQ t t' l l'). }
  assert (∀ k, takes_over (ap_mem Q) m l k → separate (APool (<[t := k]> (ap_threads Q)) m)) as Hgo.
  { intros k Hk. rewrite <- insert_delete_eq.
    apply separate_put; [done|apply Hk|by apply HR]. }
  destruct Hc as [|k|k|h k|st k|st k p Hp Hf Hne|h k Hne|h k]; cbn in Hn; try (by apply Hgo).
  - done.
  - destruct Hn as (_ & Hn & _). by apply Hgo.
  - destruct Hn as (Hst & _ & Hn). destruct (Hn p Hp) as [Hk HR'].
    apply separate_put; [by apply Hgo|apply Hst|].
    intros t' l' [[<- <-]|[Hne' Hl']]%lookup_insert_Some; [done|].
    apply (HR st Hst t'). by rewrite lookup_delete_ne.
  - rewrite <- delete_insert_ne by done.
    by apply separate_remove, Hgo.
Qed.

Lemma separate_start x m : P m → A x m → separate (start_pool x m).
Proof using.
  intros HP HA. split; cbn; [done| |].
  - by intros t l [_ <-]%lookup_singleton_Some.
  - by intros t t' l l' Hne [<- _]%lookup_singleton_Some [<- _]%lookup_singleton_Some.
Qed.

Lemma separate_run x m Q :
  P m → A x m → rtc any_step (start_pool x m) Q → separate Q ∧ all_defined Q.
Proof using HS.
  intros HP HA Hr.
  assert (separate Q) as HQ by
    (eapply any_invariant; [by apply separate_step|by apply separate_start|exact Hr]).
  split; [done|]. intros t l Ht.
  destruct (sp_step l (ap_mem Q) (se_mem _ HQ) (se_thread _ HQ _ _ Ht)) as (? & ? & -> & _). eauto.
Qed.
End steps.
End rule.
Arguments Separate {L M _} P A R.

(** ** The discipline *)

(** A library: [chain] is the coroutine that runs, the one that resumed it, and
    so on up to main; [handles] are the coroutines that are allocated. *)
Class Asymmetric := {
  lib : Type;
  lib0 : lib;
  chain : lib → list ptr;
  handles : lib → gset ptr;
  l_create : lib → lib * ptr;
  l_resume : ptr → lib → lib;
  l_leave : lib → lib;               (* [co_yield], and the return of a coroutine *)
  l_destroy : ptr → lib → lib;
  lib0_chain : chain lib0 = [];
  lib0_handles : handles lib0 = ∅;
  l_create_ok l : chain (l_create l).1 = chain l
    ∧ ((l_create l).2 = NULL ∧ handles (l_create l).1 = handles l
       ∨ (l_create l).2 ≠ NULL ∧ ((l_create l).2 ∉ handles l)
         ∧ handles (l_create l).1 = {[(l_create l).2]} ∪ handles l);
  l_resume_ok h l : h ∈ handles l → h ∉ chain l →
    chain (l_resume h l) = h :: chain l ∧ handles (l_resume h l) = handles l;
  l_leave_ok h c l : chain l = h :: c → chain (l_leave l) = c ∧ handles (l_leave l) = handles l;
  l_destroy_ok h l : h ∈ handles l → h ∉ chain l →
    chain (l_destroy h l) = chain l ∧ handles (l_destroy h l) = handles l ∖ {[h]}
}.

Inductive aoutcome (S : Type) : Type := AHalted | AStepped (s : S) | AFault.
Arguments AHalted {S}.
Arguments AStepped {S} s.
Arguments AFault {S}.

Section discipline.
Context `{Asymmetric} {L M : Type} `{ACode L M}.
Implicit Types (l : lib) (P : apool L M).

Definition current l : option ptr := head (chain l).

(** The call [c] of the current thread.  Undefined: main yields; the coroutine
    to resume has returned or waits for one that it resumed; the one to destroy
    does. *)
Definition follow (c : acall L) (l : lib) (T : gmap (option ptr) L)
    : option (lib * gmap (option ptr) L) :=
  let t := current l in
  match c with
  | AReturn => if t is Some _ then Some (l_leave l, delete t T) else Some (l, delete t T)
  | ATau k => Some (l, <[t := k]> T)
  | AYield k => if t is Some _ then Some (l_leave l, <[t := k]> T) else None
  | AResume h k =>
      if bool_decide (h ∈ handles l ∧ (h ∉ chain l) ∧ is_Some (T !! Some h))
      then Some (l_resume h l, <[t := k]> T) else None
  | ACreate start k =>
      let '(l, p) := l_create l in
      Some (l, if p =? NULL then <[t := k p]> T else <[Some p := start]> (<[t := k p]> T))
  | ADestroy h k =>
      if bool_decide (h ∈ handles l ∧ h ∉ chain l)
      then Some (l_destroy h l, <[t := k]> (delete (Some h) T)) else None
  | AStatus h k => Some (l, <[t := k (is_dead T h)]> T)
  end.

Definition advance (s : lib * apool L M) : aoutcome (lib * apool L M) :=
  let '(l, P) := s in
  match ap_threads P !! current l with
  | None => AHalted
  | Some x =>
      match astep x (ap_mem P) with
      | None => AFault
      | Some (m, c) =>
          match follow c l (ap_threads P) with
          | Some (l, T) => AStepped (l, APool T m)
          | None => AFault
          end
      end
  end.

Fixpoint adv (fuel : nat) (s : lib * apool L M) : lib * apool L M :=
  match fuel with
  | O => s
  | S fuel => match advance s with AStepped s => adv fuel s | _ => s end
  end.

Definition reaches (s s' : lib * apool L M) : Prop :=
  rtc (λ s s', advance s = AStepped s') s s'.

(** The coroutines are allocated. *)
Definition owned l P : Prop :=
  (∀ p, is_Some (ap_threads P !! Some p) → p ∈ handles l) ∧ (∀ p, p ∈ chain l → p ∈ handles l).

Lemma owned_start x m : owned lib0 (start_pool x m).
Proof.
  split; intros p; [|by rewrite lib0_chain; intros ?%not_elem_of_nil].
  cbn. rewrite lookup_singleton_ne by done. by intros [? ?].
Qed.

(** A step of the discipline is a step of the pool. *)
Lemma follow_call c l P T l' :
  owned l P → is_Some (ap_threads P !! current l) → follow c l (ap_threads P) = Some (l', T) →
  acall_step (ap_threads P) (current l) c T
  ∧ ∀ m, owned l' (APool T m).
Proof.
  intros [Ht Hc] Hcur Hf.
  assert (∀ (x : L) (p : ptr), is_Some (<[current l := x]> (ap_threads P) !! Some p) → p ∈ handles l) as Hins.
  { intros x p [y [[Hp _]|[_ Hp]]%lookup_insert_Some]; [apply Ht; by rewrite <- Hp|]. eauto. }
  destruct c as [|k|k|h k|st k|h k|h k]; cbn in Hf.
  - assert (T = delete (current l) (ap_threads P)) as -> by (destruct (current l); by simplify_eq).
    split; [constructor|]. intros m. unfold current in *. destruct (chain l) as [|p ch] eqn:Hl; cbn in Hf.
    + injection Hf as <-. split; cbn; [|by rewrite Hl].
      intros q [y [_ Hq]%lookup_delete_Some]. eauto.
    + injection Hf as <-. destruct (l_leave_ok p ch l Hl) as [H1 H2]. split; cbn; rewrite H2.
      * intros q [y [_ Hq]%lookup_delete_Some]. eauto.
      * intros q Hq. rewrite H1 in Hq. apply Hc. by right.
  - injection Hf as <- <-. split; [constructor|]. split; cbn; eauto.
  - unfold current in *. destruct (chain l) as [|p ch] eqn:Hl; [done|]. cbn in Hf.
    injection Hf as <- <-. split; [constructor|]. intros m.
    destruct (l_leave_ok p ch l Hl) as [H1 H2]. split; cbn; rewrite H2; [by apply Hins|].
    intros q Hq. rewrite H1 in Hq. apply Hc. by right.
  - case_bool_decide as Hh; [|done]. destruct Hh as (Hh & Hn & _). injection Hf as <- <-.
    split; [constructor|]. intros m. destruct (l_resume_ok h l Hh Hn) as [H1 H2].
    split; cbn; rewrite H2; [by apply Hins|]. rewrite H1.
    intros q [->|Hq]%elem_of_cons; eauto.
  - pose proof (l_create_ok l) as [Hch Hp]. destruct (l_create l) as [l1 p]. cbn in *.
    injection Hf as <- <-. destruct Hp as [[-> Hh]|(Hp & Hn & Hh)].
    + rewrite Z.eqb_refl. split; [constructor|]. intros m. split; cbn; rewrite Hh, ?Hch; eauto.
    + rewrite (proj2 (Z.eqb_neq _ _)) by done. split.
      * constructor; [done| |intros Hcp; apply Hn, Ht; by rewrite <- Hcp].
        apply eq_None_not_Some. by intros ?%Ht.
      * intros m. split; cbn; rewrite Hh, ?Hch; [|set_solver].
        intros q [y [[[= <-] _]|[_ Hq]]%lookup_insert_Some]; [set_solver|].
        apply elem_of_union_r. eapply Hins. eauto.
  - case_bool_decide as Hh; [|done]. destruct Hh as (Hh & Hn). injection Hf as <- <-.
    assert (current l ≠ Some h) as Hne.
    { unfold current. destruct (chain l); cbn; [done|]. set_solver. }
    split; [by constructor|]. intros m. destruct (l_destroy_ok h l Hh Hn) as [H1 H2].
    split; cbn; rewrite H2, ?H1.
    + intros q [y Hq]. apply lookup_insert_Some in Hq as [[Hq _]|[_ [Hhq Hq]%lookup_delete_Some]].
      * apply elem_of_difference. split; [apply Ht; by rewrite <- Hq|set_solver].
      * apply elem_of_difference. split; [eauto|set_solver].
    + intros q Hq. apply elem_of_difference. split; [eauto|]. set_solver.
  - injection Hf as <- <-. split; [constructor|]. split; cbn; eauto.
Qed.

Lemma advance_any l P l' P' :
  owned l P → advance (l, P) = AStepped (l', P') → any_step P P' ∧ owned l' P'.
Proof.
  intros Ho. cbn. destruct (ap_threads P !! current l) as [x|] eqn:Hx; [|done].
  destruct (astep x (ap_mem P)) as [[m c]|] eqn:Hs; [|done].
  destruct (follow c l (ap_threads P)) as [[l1 T]|] eqn:Hf; [|done]. intros [= <- <-].
  destruct (follow_call _ _ _ _ _ Ho ltac:(eauto) Hf) as [Hc Ho']. split; [by econstructor|done].
Qed.

Lemma follows_any l P l' P' :
  owned l P → reaches (l, P) (l', P') → rtc any_step P P' ∧ owned l' P'.
Proof.
  intros Ho Hr. remember (l, P) as s. remember (l', P') as s'. revert l P Heqs Ho.
  induction Hr as [s|s [l1 P1] s2 Hs _ IH]; intros l P -> Ho.
  - injection Heqs' as -> ->. by split.
  - destruct (advance_any _ _ _ _ Ho Hs) as [Ha Ho1].
    destruct (IH Heqs' _ _ eq_refl Ho1) as [Hr' Ho']. split; [by eapply rtc_l|done].
Qed.

Lemma adv_reaches n s : reaches s (adv n s).
Proof.
  revert s. induction n as [|n IH]; intros s; cbn; [by apply rtc_refl|].
  destruct (advance s) as [|s1|] eqn:Hs; [by apply rtc_refl| |by apply rtc_refl].
  eapply rtc_l; [exact Hs|apply IH].
Qed.
Lemma adv_any n x m : rtc any_step (start_pool x m) (adv n (lib0, start_pool x m)).2.
Proof.
  pose proof (adv_reaches n (lib0, start_pool x m)) as Hr.
  destruct (adv n (lib0, start_pool x m)) as [l P].
  by destruct (follows_any _ _ _ _ (owned_start x m) Hr).
Qed.

(** ** Runs, call by call *)

Lemma not_elem_of_add (p q : ptr) (X : gset ptr) : p ∉ {[q]} ∪ X → p ≠ q ∧ (p ∉ X).
Proof. by intros [?%not_elem_of_singleton ?]%not_elem_of_union. Qed.

(** The library state, as far as the laws tell. *)
Definition lib_at (c : list ptr) (X : gset ptr) l : Prop := chain l = c ∧ handles l = X.

Definition in_state (c : list ptr) (X : gset ptr) (T : gmap (option ptr) L) (m : M)
    (s : lib * apool L M) : Prop :=
  lib_at c X s.1 ∧ s.2 = APool T m.

(** From a state with this chain, these handles, threads and memory, the
    program gets to one that satisfies [Q]. *)
Definition leads (c : list ptr) (X : gset ptr) (T : gmap (option ptr) L) (m : M)
    (Q : lib * apool L M → Prop) : Prop :=
  ∀ s, in_state c X T m s → ∃ s', reaches s s' ∧ Q s'.

Lemma leads_now c X T m (Q : lib * apool L M → Prop) :
  (∀ s, in_state c X T m s → Q s) → leads c X T m Q.
Proof. intros HQ s Hs. exists s. split; [by apply rtc_refl|by apply HQ]. Qed.

Lemma leads_trans c X T m Q c' X' T' m' :
  leads c X T m (in_state c' X' T' m') → leads c' X' T' m' Q → leads c X T m Q.
Proof.
  intros H1 H2 s Hs. destruct (H1 s Hs) as (s1 & Hr1 & Hs1). destruct (H2 s1 Hs1) as (s2 & Hr2 & HQ).
  exists s2. split; [unfold reaches in *; by etrans|done].
Qed.

Section call_by_call.
Context (c : list ptr) (X : gset ptr) (T : gmap (option ptr) L) (m m' : M) (x : L)
  (Q : lib * apool L M → Prop).
Hypothesis here : T !! head c = Some x.
Implicit Types (h p : ptr) (k : L).

Lemma leads_step call :
  astep x m = Some (m', call) →
  (∀ l, lib_at c X l → ∃ l' T', follow call l T = Some (l', T')
     ∧ ∃ s', reaches (l', APool T' m') s' ∧ Q s') →
  leads c X T m Q.
Proof using here.
  intros Hs Hc [l P] [Hl HP]. cbn in HP. subst P. destruct (Hc l Hl) as (l' & T' & Hf & s' & Hr & HQ).
  exists s'. split; [|done]. eapply rtc_l; [|exact Hr]. cbn.
  destruct Hl as [Hch _]. cbn in Hch. unfold current in *. by rewrite Hch, here, Hs, Hf.
Qed.

Ltac leads_call := intros Hs; eapply leads_step; [exact Hs|]; intros l [Hch Hh];
  cbn [follow]; unfold current; rewrite ?Hch, ?Hh.

Lemma leads_tau k :
  astep x m = Some (m', ATau k) → leads c X (<[head c := k]> T) m' Q → leads c X T m Q.
Proof using here. intros Hs Hn. revert Hs. leads_call. eexists _, _. split; [done|]. by apply Hn. Qed.

Lemma leads_status h (k : bool → L) :
  astep x m = Some (m', AStatus h k) →
  leads c X (<[head c := k (is_dead T h)]> T) m' Q → leads c X T m Q.
Proof using here. intros Hs Hn. revert Hs. leads_call. eexists _, _. split; [done|]. by apply Hn. Qed.

Lemma leads_resume h k :
  astep x m = Some (m', AResume h k) → h ∈ X → (h ∉ c) → is_Some (T !! Some h) →
  leads (h :: c) X (<[head c := k]> T) m' Q → leads c X T m Q.
Proof using here.
  intros Hs Hx Hc Ht Hn. revert Hs. leads_call. rewrite bool_decide_true by done.
  eexists _, _. split; [done|]. apply Hn. split; [|done]. rewrite <- Hch, <- Hh in *.
  by apply l_resume_ok.
Qed.

Lemma leads_yield p c' k :
  c = p :: c' → astep x m = Some (m', AYield k) →
  leads c' X (<[Some p := k]> T) m' Q → leads c X T m Q.
Proof using here.
  intros Hc Hs Hn. revert Hs. leads_call. rewrite Hc in *. cbn.
  eexists _, _. split; [done|]. apply Hn. split; [|done]. rewrite <- Hh. by eapply l_leave_ok.
Qed.

Lemma leads_return p c' :
  c = p :: c' → astep x m = Some (m', AReturn) →
  leads c' X (delete (Some p) T) m' Q → leads c X T m Q.
Proof using here.
  intros Hc Hs Hn. revert Hs. leads_call. rewrite Hc in *. cbn.
  eexists _, _. split; [done|]. apply Hn. split; [|done]. rewrite <- Hh. by eapply l_leave_ok.
Qed.

(** Main returns. *)
Lemma leads_end :
  c = [] → astep x m = Some (m', AReturn) →
  leads [] X (delete None T) m' Q → leads c X T m Q.
Proof using here.
  intros Hc Hs Hn. revert Hs. leads_call. rewrite Hc in *. cbn. eexists _, _. split; [done|]. by apply Hn.
Qed.

Lemma leads_destroy h k :
  astep x m = Some (m', ADestroy h k) → h ∈ X → (h ∉ c) →
  leads c (X ∖ {[h]}) (<[head c := k]> (delete (Some h) T)) m' Q → leads c X T m Q.
Proof using here.
  intros Hs Hx Hc Hn. revert Hs. leads_call. rewrite bool_decide_true by done.
  eexists _, _. split; [done|]. apply Hn. split; [|done]. rewrite <- Hch, <- Hh in *.
  by apply l_destroy_ok.
Qed.

(** The library does not run out of coroutines while fewer than [n] exist. *)
Definition room (n : nat) : Prop := ∀ l, (size (handles l) < n)%nat → (l_create l).2 ≠ NULL.

Lemma leads_create n start (k : ptr → L) :
  astep x m = Some (m', ACreate start k) → room n → (size X < n)%nat →
  (∀ p, p ≠ NULL → (p ∉ X) → size ({[p]} ∪ X) = S (size X) →
     leads c ({[p]} ∪ X) (<[Some p := start]> (<[head c := k p]> T)) m' Q) →
  leads c X T m Q.
Proof using here.
  intros Hs Hroom Hx Hn. revert Hs. leads_call. rewrite <- Hh in Hx. specialize (Hroom l Hx).
  pose proof (l_create_ok l) as [Hch' Hp]. destruct (l_create l) as [l1 p]. cbn in *.
  destruct Hp as [[? _]|(_ & Hp & Hh')]; [done|]. rewrite Hh in *.
  rewrite (proj2 (Z.eqb_neq _ _)) by done. eexists _, _. split; [done|].
  apply (Hn p Hroom Hp); [by rewrite size_union, size_singleton by set_solver|]. split; [|done]. split; cbn; [by rewrite Hch'|done].
Qed.
End call_by_call.

Lemma leads_start x m (Q : lib * apool L M → Prop) :
  leads [] ∅ {[ None := x ]} m Q → ∃ s, reaches (lib0, start_pool x m) s ∧ Q s.
Proof. intros Hl. apply Hl. split; [|done]. split; [apply lib0_chain|apply lib0_handles]. Qed.

(** Main destroys the coroutines [hs] and returns; [k] are the points of that
    loop. *)
Lemma leads_destroy_all (k : list ptr → L) hs X T m (Q : lib * apool L M → Prop) :
  (∀ h hs, astep (k (h :: hs)) m = Some (m, ADestroy h (k hs))) →
  astep (k []) m = Some (m, AReturn) →
  NoDup hs → (∀ h, h ∈ hs → h ∈ X) → T !! None = Some (k hs) →
  (∀ s, ap_threads s.2 !! None = None → ap_mem s.2 = m →
     (∀ p, p ∈ hs ∨ T !! Some p = None → ap_threads s.2 !! Some p = None) → Q s) →
  leads [] X T m Q.
Proof.
  intros Hcons Hnil Hnd. revert X T. induction Hnd as [|h hs Hh _ IH]; intros X T HX Hm HQ.
  - eapply leads_end; [exact Hm|done|exact Hnil|]. apply leads_now. intros s [_ Hs].
    apply HQ; rewrite Hs; cbn; [apply lookup_delete_eq|done|].
    intros p [?%not_elem_of_nil|Hp]; [done|]. by rewrite lookup_delete_ne.
  - eapply leads_destroy; [exact Hm|apply Hcons|apply HX; by left|apply not_elem_of_nil|].
    cbn [hd_error]. apply IH; [|apply lookup_insert_eq|].
    + intros q Hq. apply elem_of_difference. split; [apply HX; by right|].
      intros ->%elem_of_singleton. done.
    + intros s Hs Hms Hd. apply HQ; [done..|]. intros p Hp. apply Hd.
      rewrite lookup_insert_ne by done. destruct (decide (p = h)) as [->|Hne].
      * right. apply lookup_delete_eq.
      * destruct Hp as [[->|Hp]%elem_of_cons|Hp]; [done|by left|right].
        rewrite lookup_delete_ne by congruence. done.
Qed.
End discipline.

(** [look], [here]: the lookup of a thread; [comp]: a stretch of code whose
    inputs are known; [side]: a side condition of a call. *)
Ltac look := cbn [hd_error];
  repeat first [rewrite lookup_insert_eq | rewrite lookup_insert_ne by congruence
               | rewrite lookup_delete_ne by congruence].
Ltac here := look; first [reflexivity | eassumption].
Ltac comp := lazy; reflexivity.
Ltac member :=
  repeat (apply elem_of_difference; split; [|apply not_elem_of_singleton; congruence]);
  repeat first [assumption | by apply elem_of_union_l, elem_of_singleton | apply elem_of_union_r].
Ltac off_chain :=
  rewrite ?not_elem_of_cons; split_and?; first [congruence | apply not_elem_of_nil].
Ltac side := first [assumption | solve [off_chain] | solve [member] | look; by eauto].


(** ** An implementation *)

Module AsymmetricDemo.
(** The chain, the handles and the next handle to give out. *)
Record stack_state := Stack { s_chain : list ptr; s_handles : gset ptr; s_next : Z }.

Definition fresh_handle (s : stack_state) : ptr :=
  Z.max 1 (1 + set_fold Z.max (s_next s) (s_handles s)).

Lemma set_fold_max (X : gset Z) z : z ≤ set_fold Z.max z X ∧ ∀ x, x ∈ X → x ≤ set_fold Z.max z X.
Proof.
  revert X. apply (set_fold_ind_L (λ r X, z ≤ r ∧ ∀ x, x ∈ X → x ≤ r)); [set_solver by lia|].
  intros x X r _ [Hz Hx]. split; [lia|].
  intros y [->%elem_of_singleton|Hy%Hx]%elem_of_union; lia.
Qed.

#[export, refine] Instance stack_lib : Asymmetric := {|
  lib := stack_state;
  lib0 := Stack [] ∅ 0;
  chain := s_chain;
  handles := s_handles;
  l_create s := let p := fresh_handle s in (Stack (s_chain s) ({[p]} ∪ s_handles s) p, p);
  l_resume h s := Stack (h :: s_chain s) (s_handles s) (s_next s);
  l_leave s := Stack (tail (s_chain s)) (s_handles s) (s_next s);
  l_destroy h s := Stack (s_chain s) (s_handles s ∖ {[h]}) (s_next s)
|}.
Proof.
  all: cbn; try done.
  - intros s. split; [done|right]. unfold fresh_handle.
    split_and!; [unfold NULL; lia| |done].
    intros Hin%(set_fold_max (s_handles s) (s_next s)). lia.
  - by intros h c s ->.
Defined.

Lemma stack_room n : room n.
Proof. intros l _. cbn. unfold fresh_handle, NULL. lia. Qed.
End AsymmetricDemo.
