(* ===== verification/FiberMain.v ===== *)
(** * main of the fiber pool ([examples/fiber_pool.c])

    [FiberPool] has the queue and the workers; here is main, which resumes the
    workers in rounds, on a library with [coroutine_resume] ([Resume]): it
    drains the queue, hands the tasks out in turn, and ends. *)

From stdpp Require Import gmap relations.
From S2P Require Import Prelude Ring Machine State RunQueue Api User Buffers FiberPool Resume.

Module FiberMain.
Import FiberPool.

(** [m_work] is what the workers see; [m_total] the total main prints and
    [m_exit] what it returns. *)
Record state := MkState { m_work : mem; m_total : option Z; m_exit : option Z }.

Definition set_work (w : mem) (m : state) : state := MkState w (m_total m) (m_exit m).
Definition set_exit (rc : Z) (m : state) : state := MkState (m_work m) (m_total m) (Some rc).

(** main: at its start, with whether its two [calloc]s succeed; in the loop
    that creates the fibers; at the condition of [while], at that of the [for] in it, and after [coroutine_resume];
    destroying the fibers.  A fiber: [worker_fn]. *)
Inductive main_point : Set :=
| MStart (args_ok fibers_ok : bool)
| MCreate (i : Z) (fibers : list ptr)
| MMade (i : Z) (fibers : list ptr) (p : ptr)
| MWhile (fibers : list ptr) (idle_rounds : Z)
| MFor (fibers : list ptr) (i idle_rounds : Z)
| MBack (fibers : list ptr) (i idle_rounds before : Z)
| MDestroy (fibers : list ptr)
| Fiber (l : point).

Section code.
(** The arguments, and what the memory of the queue held before. *)
Variables (num_fibers num_tasks : Z) (q0 : TaskQueue).

(** [total += args\[i\].processed] *)
Fixpoint sum_processed (l : list WorkerArg) (total : Z) : option Z :=
  match l with
  | [] => Some total
  | a :: l => total' ← cadd total (processed a); sum_processed l total'
  end.

Definition summary (fibers : list ptr) (m : state) : option (state * acall main_point) :=
  total ← sum_processed (args (m_work m)) 0;
  Some (MkState (m_work m) (Some total) (Some (if total =? num_tasks then 0 else 1)),
        ATau (MDestroy fibers)).

Definition main (l : main_point) (m : state) : option (state * acall main_point) :=
  let w := m_work m in
  match l with
  | MStart args_ok fibers_ok =>
      if (num_fibers <? 1) || (32 <? num_fibers) then Some (set_exit 1 m, AReturn)
      else if (num_tasks <? 1) || (QUEUE_CAP <? num_tasks) then Some (set_exit 1 m, AReturn)
      else
        q ← fill (Z.to_nat num_tasks) 0 (queue_init q0);
        if negb args_ok || negb fibers_ok then Some (set_exit 1 m, AReturn)
        else Some (set_work (Mem q (replicate (Z.to_nat num_fibers) (MkWorker 0 0)) []) m, ATau (MCreate 0 []))
  | MCreate i fibers =>
      if i <? num_fibers then
        as' ← arr_set (args w) i (MkWorker i 0);
        Some (set_work (Mem (queue w) as' (printed w)) m, ACreate (Fiber (WLoop i)) (MMade i fibers))
      else Some (m, ATau (MWhile fibers 0))
  | MMade i fibers p =>
      if p =? NULL then Some (set_exit 1 m, AReturn)
      else i' ← cadd i 1; Some (m, ATau (MCreate i' (fibers ++ [p])))
  | MWhile fibers idle_rounds =>
      if idle_rounds <? num_fibers then Some (m, ATau (MFor fibers 0 0)) else summary fibers m
  | MFor fibers i idle_rounds =>
      if i <? num_fibers then
        a ← arr_get (args w) i;
        h ← arr_get fibers i;
        Some (m, AResume h (MBack fibers i idle_rounds (processed a)))
      else Some (m, ATau (MWhile fibers idle_rounds))
  | MBack fibers i idle_rounds before =>
      a ← arr_get (args w) i;
      n ← (if (processed a =? before) && (size (queue w) =? 0) then cadd idle_rounds 1
           else Some idle_rounds);
      i' ← cadd i 1;
      Some (m, ATau (MFor fibers i' n))
  | MDestroy (h :: fibers) => Some (m, ADestroy h (MDestroy fibers))
  | MDestroy [] => Some (m, AReturn)
  | Fiber _ => None
  end.

(** [worker_fn] only yields. *)
Definition fiber (l : point) (m : state) : option (state * acall main_point) :=
  '(w, c) ← worker_step l (m_work m);
  match c with
  | UYield l => Some (set_work w m, AYield (Fiber l))
  | _ => None
  end.

Definition pool_code : ACode main_point state := λ l m,
  match l with Fiber l => fiber l m | _ => main l m end.

Definition state0 : state := MkState (Mem q0 [] []) None None.
End code.

(** ** The rounds *)

Lemma sum_processed_ok (l : list WorkerArg) z :
  Forall (λ a, 0 ≤ processed a) l → 0 ≤ z → z + sumZ (processed <$> l) ≤ INT_MAX →
  sum_processed l z = Some (z + sumZ (processed <$> l)).
Proof.
  intros Hl. revert z. induction Hl as [|a l Ha Hl IH]; intros z Hz Hs; cbn in *; [by rewrite Z.add_0_r|].
  assert (0 ≤ sumZ (processed <$> l)).
  { clear -Hl. induction Hl; cbn; lia. }
  rewrite cadd_ok by (consts; lia). cbn. rewrite IH by lia. f_equal. lia.
Qed.

Section rounds.
Context `{Asymmetric}.
Variables (F N : nat) (q0 : TaskQueue).
Hypothesis F_range : (1 ≤ F ≤ 32)%nat.
Hypothesis N_range : (1 ≤ N)%nat ∧ Z.of_nat N ≤ QUEUE_CAP.
Hypothesis q0_length : Z.of_nat (length (items q0)) = QUEUE_CAP.
Local Instance code : ACode main_point state := pool_code (Z.of_nat F) (Z.of_nat N) q0.
Implicit Types (m : state) (l : list Z) (T : gmap (option ptr) main_point) (hs : list ptr).

(** Task [t] is the turn of worker [(t - 1) mod F]. *)
Definition handed_out (t : Z) : out := Processing ((t - 1) mod Z.of_nat F) t.
Definition is_nil l : Z := match l with [] => 1 | _ => 0 end.

(** The tasks [l] are left, and the next one goes to worker [j mod F]. *)
Record turn (j : nat) m l : Prop := {
  tn_queue : ring_rep (queue (m_work m)) l;
  tn_length : (length l ≤ N)%nat;
  tn_left : l = seqZ (Z.of_nat (N - length l) + 1) (Z.of_nat (length l));
  tn_next : l ≠ [] → Z.of_nat (N - length l) mod Z.of_nat F = Z.of_nat j mod Z.of_nat F;
  tn_printed : printed (m_work m) = handed_out <$> seqZ 1 (Z.of_nat (N - length l));
  tn_args : length (args (m_work m)) = F;
  tn_ids i a : args (m_work m) !! i = Some a → id a = Z.of_nat i;
  tn_pos : Forall (λ a, 0 ≤ processed a) (args (m_work m));
  tn_sum : sumZ (processed <$> args (m_work m)) = Z.of_nat (N - length l)
}.

Lemma turn_wrap m l : turn F m l → turn 0 m l.
Proof. intros []. split; try done. intros Hl. rewrite tn_next0 by done. by rewrite Z_mod_same_full. Qed.

Lemma turn_int j m l a i :
  turn j m l → args (m_work m) !! i = Some a → 0 ≤ processed a ≤ Z.of_nat (N - length l).
Proof.
  intros [] Ha. split; [exact (Forall_lookup_1 _ _ _ _ tn_pos0 Ha)|]. rewrite <- tn_sum0.
  apply sumZ_member; [|by apply Forall_fmap].
  apply list_elem_of_fmap_2, list_elem_of_lookup. eauto.
Qed.

(** Worker [j] takes its turn. *)
Lemma fiber_turn j m l :
  (j < F)%nat → turn j m l →
  ∃ m' a a', astep (Fiber (WLoop (Z.of_nat j))) m = Some (m', AYield (Fiber (WLoop (Z.of_nat j))))
    ∧ turn (S j) m' (drop 1 l)
    ∧ args (m_work m) !! j = Some a ∧ args (m_work m') !! j = Some a'
    ∧ processed a' = processed a + (1 - is_nil l).
Proof using F_range N_range.
  intros Hj Ht. destruct (lookup_lt_is_Some_2 (args (m_work m)) j) as [a Ha].
  { by rewrite (tn_args _ _ _ Ht). }
  pose proof (turn_int _ _ _ _ _ Ht Ha) as Hp. destruct N_range as [_ HN]. unfold QUEUE_CAP in HN.
  pose proof (worker_step_pop j (m_work m) l a (tn_queue _ _ _ Ht) Ha ltac:(consts; lia)) as Hw.
  cbn [astep code pool_code]. unfold fiber. destruct l as [|x l].
  - rewrite Hw. cbn [mbind option_bind]. exists (set_work (m_work m) m), a, a.
    split_and!; [done| |done|done|cbn; lia]. destruct Ht. split; done.
  - destruct Hw as (q' & Hq & ->). cbn [mbind option_bind].
    exists (set_work (Mem q' (<[j := MkWorker (id a) (processed a + 1)]> (args (m_work m)))
      (printed (m_work m) ++ [Processing (id a) x])) m), a, (MkWorker (id a) (processed a + 1)).
    cbn [m_work set_work args]. apply lookup_lt_Some in Ha as Hlt.
    split_and!; [done| |done|by apply list_lookup_insert_eq|cbn; lia].
    destruct Ht as [_ Hl Hleft Hnext Hpr Hargs Hids Hpos Hsum]. cbn [length] in *.
    assert (N - length l = S (N - S (length l)))%nat as HS by lia.
    rewrite Nat2Z.inj_succ, seqZ_cons in Hleft by lia. injection Hleft as Hx Hleft.
    rewrite Z.pred_succ in Hleft. specialize (Hnext ltac:(done)).
    change (drop 1 (x :: l)) with l.
    split; cbn [m_work set_work queue args printed]; rewrite ?HS, ?Nat2Z.inj_succ in *.
    + done.
    + lia.
    + rewrite Hleft at 1. f_equal; lia.
    + intros _. rewrite <- !Z.add_1_r, Zplus_mod, Hnext, <- Zplus_mod. done.
    + rewrite Hpr, <- (Z.add_1_r (Z.of_nat (N - S (length l)))), seqZ_app, fmap_app by lia.
      f_equal. rewrite (seqZ_cons _ 1) by lia. cbn. unfold handed_out.
      replace (1 + Z.of_nat (N - S (length l)) - 1) with (Z.of_nat (N - S (length l))) by lia.
      rewrite Hx, (Hids _ _ Ha), Hnext, Z.mod_small by lia. by rewrite (Z.add_comm 1).
    + by rewrite length_insert.
    + intros i b Hb. apply list_lookup_insert_Some in Hb as [(<- & <- & _)|[_ Hb]]; [exact (Hids _ _ Ha)|by apply Hids].
    + apply Forall_insert; [done|]. cbn. lia.
    + rewrite list_fmap_insert. erewrite sumZ_insert by (by rewrite list_lookup_fmap, Ha). cbn. lia.
Qed.

Lemma is_nil_size j m l : turn j m l → (size (queue (m_work m)) =? 0) = (is_nil l =? 1).
Proof.
  intros Ht. pose proof (rr_size _ _ (tn_queue _ _ _ Ht)) as Hs. cbn in Hs. rewrite Hs.
  by destruct l.
Qed.

(** *** The fibers *)

Section fibers.
Variable hs : list ptr.
Variable X : gset ptr.
Hypothesis hs_length : length hs = F.
Hypothesis hs_nodup : NoDup hs.
Hypothesis hs_in : ∀ h, h ∈ hs → h ∈ X.

(** Each fiber is at the head of its loop, and there are no others. *)
Definition at_heads T : Prop :=
  (∀ i h, hs !! i = Some h → T !! Some h = Some (Fiber (WLoop (Z.of_nat i))))
  ∧ ∀ p, p ∉ hs → T !! Some p = None.

Lemma at_heads_main T x : at_heads T → at_heads (<[None := x]> T).
Proof using.
  intros [HT HN]. split; [intros i h Hi|intros p Hp]; rewrite lookup_insert_ne by done; eauto.
Qed.

Lemma at_heads_back T j h :
  at_heads T → hs !! j = Some h → at_heads (<[Some h := Fiber (WLoop (Z.of_nat j))]> T).
Proof using hs_nodup.
  intros [HT HN] Hj. split.
  - intros i h' Hi. destruct (decide (h' = h)) as [->|Hne].
    + rewrite lookup_insert_eq. by rewrite (NoDup_lookup _ _ _ _ hs_nodup Hi Hj).
    + rewrite lookup_insert_ne by congruence. eauto.
  - intros p Hp. rewrite lookup_insert_ne; [auto|]. intros [= ->].
    by eapply Hp, list_elem_of_lookup_2.
Qed.

(** One turn of the [for] loop. *)
Lemma fiber_turn_leads j n m l T Q :
  (j < F)%nat → 0 ≤ n ≤ Z.of_nat j → turn j m l → at_heads T →
  T !! None = Some (MFor hs (Z.of_nat j) n) →
  (∀ T' m', at_heads T' → T' !! None = Some (MFor hs (Z.of_nat (S j)) (n + is_nil l)) →
     turn (S j) m' (drop 1 l) → leads [] X T' m' Q) →
  leads [] X T m Q.
Proof using F_range N_range hs_in hs_length hs_nodup.
  intros Hj Hn Ht HT Hm Hnext. destruct (lookup_lt_is_Some_2 hs j) as [h Hh]; [lia|].
  destruct (fiber_turn j m l Hj Ht) as (m' & a & a' & Hf & Ht' & Ha & Ha' & Hp).
  eapply leads_resume; [exact Hm| |apply hs_in; by eapply list_elem_of_lookup_2|apply not_elem_of_nil| |].
  { cbn [astep code pool_code main]. rewrite (proj2 (Z.ltb_lt _ _)) by lia.
    unfold arr_get. rewrite !zlookup_nat, Ha, Hh. done. }
  { rewrite (proj1 HT _ _ Hh). eauto. }
  cbn [hd_error]. eapply leads_yield; [look; by apply HT|done|exact Hf|].
  eapply leads_tau; [here| |].
  { cbn [astep code pool_code main]. unfold arr_get. rewrite zlookup_nat, Ha'. cbn [mbind option_bind].
    rewrite Hp.
    assert ((if (processed a + (1 - is_nil l) =? processed a) && (size (queue (m_work m')) =? 0)
             then cadd n 1 else Some n) = Some (n + is_nil l)) as ->.
    { destruct l as [|x l]; cbn [is_nil].
      - rewrite (is_nil_size _ _ _ Ht'), Z.sub_diag, Z.add_0_r, Z.eqb_refl. cbn.
        by rewrite cadd_ok by (consts; lia).
      - rewrite (proj2 (Z.eqb_neq _ _)) by lia. by rewrite Z.add_0_r. }
    cbn [mbind option_bind]. rewrite cadd_ok by (consts; lia). done. }
  cbn [hd_error]. apply Hnext; [|look; by rewrite Z.add_1_r, Nat2Z.inj_succ|done].
  by apply at_heads_main, at_heads_back, Hh; apply at_heads_main.
Qed.

(** The [for] loop: those that find the queue empty are idle. *)
Lemma fiber_round k : ∀ j n m l T Q,
  (j + k = F)%nat → 0 ≤ n ≤ Z.of_nat j → turn j m l → at_heads T →
  T !! None = Some (MFor hs (Z.of_nat j) n) →
  (∀ T' m', at_heads T' → T' !! None = Some (MFor hs (Z.of_nat F) (n + Z.of_nat (k - length l))) →
     turn F m' (drop k l) → leads [] X T' m' Q) →
  leads [] X T m Q.
Proof using F_range N_range hs_in hs_length hs_nodup.
  induction k as [|k IH]; intros j n m l T Q Hj Hn Ht HT Hm Hnext.
  - assert (j = F) as -> by lia. apply Hnext; [done| |done]. by rewrite Z.add_0_r.
  - eapply (fiber_turn_leads j n m l); [lia|done..|]. intros T' m' HT' Hm' Ht'.
    assert (0 ≤ is_nil l ≤ 1) by (by destruct l).
    eapply (IH (S j)); [lia| |exact Ht'|exact HT'|exact Hm'|]; [lia|].
    intros T2 m2 HT2 Hm2 Ht2. apply Hnext; [done| |].
    + rewrite Hm2. do 2 f_equal. rewrite length_drop. destruct l; cbn [is_nil length]; lia.
    + rewrite drop_drop in Ht2. by rewrite Nat.add_1_l in Ht2.
Qed.

Definition drained (s : lib * apool main_point state) : Prop :=
  ap_threads s.2 !! None = None ∧ (∀ p, ap_threads s.2 !! Some p = None)
  ∧ m_total (ap_mem s.2) = Some (Z.of_nat N) ∧ m_exit (ap_mem s.2) = Some 0
  ∧ printed (m_work (ap_mem s.2)) = handed_out <$> seqZ 1 (Z.of_nat N).

(** The queue is empty: the summary. *)
Lemma summary_leads m T n :
  turn 0 m [] → at_heads T → T !! None = Some (MWhile hs n) → Z.of_nat F ≤ n → leads [] X T m drained.
Proof using F_range N_range hs_in hs_length hs_nodup.
  intros Ht HT Hm Hn.
  assert (sum_processed (args (m_work m)) 0 = Some (Z.of_nat N)) as Hs.
  { pose proof (tn_sum _ _ _ Ht) as Hsum. cbn [length] in Hsum. rewrite Nat.sub_0_r in Hsum.
    destruct N_range as [_ HN]. unfold QUEUE_CAP in HN.
    rewrite (sum_processed_ok _ 0), Hsum; [done|apply Ht|done|consts; lia]. }
  eapply leads_tau; [exact Hm| |].
  { cbn [astep code pool_code main]. rewrite (proj2 (Z.ltb_ge _ _)) by lia.
    unfold summary. rewrite Hs. cbn [mbind option_bind]. by rewrite Z.eqb_refl. }
  cbn [hd_error].
  eapply (leads_destroy_all MDestroy); [done|done|exact hs_nodup|exact hs_in|apply lookup_insert_eq|].
  intros s H1 H2 H3. unfold drained. rewrite H2. cbn. split_and!; [done| |done..|].
  - intros p. apply H3. rewrite lookup_insert_ne by done.
    destruct (decide (p ∈ hs)); [by left|right; by apply HT].
  - rewrite (tn_printed _ _ _ Ht). cbn [length]. by rewrite Nat.sub_0_r.
Qed.

(** From the condition of [while] on. *)
Lemma while_leads k : ∀ m l T n,
  (length l ≤ k)%nat → turn 0 m l → at_heads T → T !! None = Some (MWhile hs n) →
  0 ≤ n < Z.of_nat F → leads [] X T m drained.
Proof using F_range N_range hs_in hs_length hs_nodup.
  induction k as [|k IH]; intros m l T n Hk Ht HT Hm Hn;
    (eapply leads_tau; [exact Hm|cbn [astep code pool_code main];
       by rewrite (proj2 (Z.ltb_lt _ _)) by lia|]); cbn [hd_error];
    (eapply (fiber_round F 0 0); [done|lia|exact Ht|by apply at_heads_main|by look|]);
    intros T' m' HT' Hm' Ht'; rewrite Z.add_0_l in Hm';
    (eapply leads_tau; [exact Hm'|cbn [astep code pool_code main]; by rewrite Z.ltb_irrefl|]); cbn [hd_error].
  - assert (l = []) as -> by (by apply nil_length_inv; lia). rewrite drop_nil in Ht'.
    eapply summary_leads; [by apply turn_wrap|by apply at_heads_main|apply lookup_insert_eq|cbn; lia].
  - destruct l as [|x l].
    + rewrite drop_nil in Ht'.
      eapply summary_leads; [by apply turn_wrap|by apply at_heads_main|apply lookup_insert_eq|cbn; lia].
    + eapply IH; [|by apply turn_wrap|by apply at_heads_main|apply lookup_insert_eq|cbn; lia].
      rewrite length_drop. cbn in *. lia.
Qed.
End fibers.

(** ** The creation of the fibers *)

(** [args] when [i] fibers have been created. *)
Definition args_made (i : nat) : list WorkerArg :=
  ((λ j, MkWorker (Z.of_nat j) 0) <$> seq 0 i) ++ replicate (F - i) (MkWorker 0 0).
Definition made (q : TaskQueue) (i : nat) : state := MkState (Mem q (args_made i) []) None None.

Lemma args_made_next i :
  (i < F)%nat → arr_set (args_made i) (Z.of_nat i) (MkWorker (Z.of_nat i) 0) = Some (args_made (S i)).
Proof using F_range N_range q0.
  intros Hi. unfold args_made. rewrite arr_set_ok.
  2: { rewrite length_app, length_fmap, length_seq, length_replicate. lia. }
  f_equal. unfold zinsert. rewrite (proj2 (Z.leb_le _ _)), Nat2Z.id by lia.
  rewrite insert_app_r_alt by (rewrite length_fmap, length_seq; lia).
  rewrite length_fmap, length_seq, Nat.sub_diag. replace (F - i)%nat with (S (F - S i)) by lia.
  by rewrite seq_S, fmap_app, <- app_assoc.
Qed.

Lemma made_turn q : ring_rep q (seqZ 1 (Z.of_nat N)) → turn 0 (made q F) (seqZ 1 (Z.of_nat N)).
Proof using F_range N_range q0.
  intros Hq. assert (length (seqZ 1 (Z.of_nat N)) = N) as Hl by (rewrite length_seqZ; lia).
  assert (args_made F = (λ j, MkWorker (Z.of_nat j) 0) <$> seq 0 F) as Ha.
  { unfold args_made. by rewrite Nat.sub_diag, app_nil_r. }
  split; cbn [made m_work queue printed args]; rewrite ?Hl, ?Nat.sub_diag, ?Ha; try done.
  - by rewrite length_fmap, length_seq.
  - intros i a (j & -> & Hj)%list_lookup_fmap_Some.
    by apply lookup_seq in Hj as [-> _].
  - apply Forall_fmap, Forall_true. done.
  - rewrite <- list_fmap_compose. clear Ha. induction (seq 0 F); cbn; lia.
Qed.

Lemma fibers_lead q k : ∀ i hs X T,
  ring_rep q (seqZ 1 (Z.of_nat N)) → room F →
  (i + k = F)%nat → length hs = i → stdpp.base.size X = i → NoDup hs → (∀ h, h ∈ hs → h ∈ X) →
  at_heads hs T → T !! None = Some (MCreate (Z.of_nat i) hs) →
  leads [] X T (made q i) drained.
Proof using F_range N_range.
  induction k as [|k IH]; intros i hs X T Hq Hroom Hi Hl HX Hnd Hin HT Hm.
  - assert (i = F) as -> by lia.
    eapply leads_tau; [exact Hm|cbn [astep code pool_code main]; by rewrite Z.ltb_irrefl|]. cbn [hd_error].
    eapply (while_leads hs X Hl Hnd Hin N); [|by apply made_turn|by apply at_heads_main|apply lookup_insert_eq|lia].
    rewrite length_seqZ. lia.
  - eapply (leads_create [] X T (made q i) (made q (S i))); [exact Hm| |exact Hroom|lia|].
    { cbn [astep code pool_code main made m_work args queue printed].
      rewrite (proj2 (Z.ltb_lt _ _)), args_made_next by lia. done. }
    intros p Hp Hf Hs. cbn [hd_error]. assert (p ∉ hs) as Hph by (intros ?%Hin; done).
    eapply leads_tau; [here| |].
    { cbn [astep code pool_code main]. rewrite (proj2 (Z.eqb_neq _ _)) by done.
      rewrite cadd_ok by (consts; lia). done. }
    cbn [hd_error]. eapply (IH (S i) (hs ++ [p])); [done|done|lia|rewrite length_app; cbn; lia|by rewrite Hs, HX| | | |].
    + apply NoDup_app. split_and!; [done| |apply NoDup_singleton].
      intros h Hh ->%list_elem_of_singleton. done.
    + intros h [Hh| ->%list_elem_of_singleton]%elem_of_app; [apply elem_of_union_r; by apply Hin|member].
    + destruct HT as [HT HN]. apply at_heads_main. split.
      * intros j h [Hj|[Hge Hj]]%lookup_app_Some.
        -- rewrite !lookup_insert_ne; [by apply HT|done|].
           intros [= ->]. by eapply Hph, list_elem_of_lookup_2.
        -- apply list_lookup_singleton_Some in Hj as [Hz ->]. rewrite lookup_insert_eq.
           do 3 f_equal. lia.
      * intros r [Hr1 Hr2]%not_elem_of_app. rewrite !lookup_insert_ne; [by apply HN|done|].
        intros [= ->]. by apply Hr2, list_elem_of_singleton.
    + look. by rewrite Z.add_1_r, Nat2Z.inj_succ.
Qed.

(** C38: the fiber pool, on a library that resumes as its comments say: for 1 to
    32 fibers, which the library has room for, and 1 to [QUEUE_CAP] tasks, if
    its two [calloc]s succeed, main ends and returns 0, the total it
    prints is the number of tasks, the tasks have been processed in order, each
    once and by the fibers in turn, and no fiber is left. *)
Theorem fiber_pool_drains :
  room F →
  ∃ s, reaches (lib0, start_pool (MStart true true) (state0 q0)) s
    ∧ ap_threads s.2 !! None = None ∧ (∀ p, ap_threads s.2 !! Some p = None)
    ∧ m_total (ap_mem s.2) = Some (Z.of_nat N) ∧ m_exit (ap_mem s.2) = Some 0
    ∧ printed (m_work (ap_mem s.2)) = handed_out <$> seqZ 1 (Z.of_nat N).
Proof using F_range N_range q0_length.
  intros Hroom. apply (leads_start (MStart true true) (state0 q0) drained).
  assert (ring_rep (queue_init q0) []) as Hr by by apply ring_init_rep.
  destruct (fill_spec N 0 _ _ Hr) as (q & Hq & Hrq); [cbn; lia|].
  eapply (leads_tau _ _ _ _ (made q 0)); [apply lookup_singleton_eq| |].
  - cbn [astep code pool_code main]. rewrite !(proj2 (Z.ltb_ge _ _)) by lia. cbn [orb].
    rewrite !Nat2Z.id, Hq. cbn [mbind option_bind]. unfold made, args_made. by rewrite Nat.sub_0_r.
  - cbn [hd_error]. eapply (fibers_lead q F 0 []); [done|done|done|done|by rewrite size_empty|by apply NoDup_nil_2
      |by intros h ?%not_elem_of_nil| |apply lookup_insert_eq].
    split; [by intros i h ?|]. intros p _. rewrite lookup_insert_ne by done. by rewrite lookup_singleton_ne.
Qed.
End rounds.

#[local] Existing Instance AsymmetricDemo.stack_lib.
Lemma fiber_pool_drains_witness :
  ∃ s, reaches (H0 := pool_code 3 7 q_raw) (lib0, start_pool (MStart true true) (state0 q_raw)) s
    ∧ m_exit (ap_mem s.2) = Some 0
    ∧ printed (m_work (ap_mem s.2))
      = [Processing 0 1; Processing 1 2; Processing 2 3; Processing 0 4; Processing 1 5;
         Processing 2 6; Processing 0 7].
Proof.
  destruct (fiber_pool_drains 3 7 q_raw) as (s & Hr & _ & _ & _ & He & Hp).
  - lia.
  - split; [lia|by consts].
  - by vm_compute.
  - apply AsymmetricDemo.stack_room.
  - exists s. split_and!; [done..|]. rewrite Hp. by vm_compute.
Defined.

(** Arguments out of range are refused, and so is a failed [calloc]. *)
Example bad_arguments :
  m_exit (ap_mem (adv (H0 := pool_code 33 7 q_raw) 5 (lib0, start_pool (MStart true true) (state0 q_raw))).2) = Some 1
  ∧ m_exit (ap_mem (adv (H0 := pool_code 4 65 q_raw) 5 (lib0, start_pool (MStart true true) (state0 q_raw))).2) = Some 1
  ∧ m_exit (ap_mem (adv (H0 := pool_code 4 6 q_raw) 5 (lib0, start_pool (MStart true false) (state0 q_raw))).2) = Some 1.
Proof. by vm_compute. Qed.
End FiberMain.
