(* ===== verification/StateMachine.v ===== *)
(** * The state machine demo ([examples/state_machine.c])

    Four coroutines, one for each state and an event pump, share a queue of
    events; whichever runs pops the next event.  The library is the one of
    [Resume]; main's [co_run(co_pump)] is taken as [co_resume]. *)

From stdpp Require Import gmap relations.
From S2P Require Import Prelude Ring Machine State Resume.

Module StateMachine.
Inductive Event : Set := EVT_NONE | EVT_SYN | EVT_SYN_ACK | EVT_FIN | EVT_RESET | EVT_DATA.
#[export] Instance Event_eq_dec : EqDecision Event.
Proof. solve_decision. Defined.

Definition QUEUE_CAP : Z := 16.
Record EventQueue := Queue { buf : list Event; head : Z; tail : Z; len : Z }.

#[export] Instance queue_view : RingView EventQueue Event := {|
  ring_view q := Ring (buf q) (head q) (tail q) (len q);
  ring_cap := QUEUE_CAP
|}.

Definition event_name (e : Event) : string :=
  match e with
  | EVT_NONE => "NONE" | EVT_SYN => "SYN" | EVT_SYN_ACK => "SYN_ACK" | EVT_FIN => "FIN"
  | EVT_RESET => "RESET" | EVT_DATA => "DATA"
  end.

(** What the demo prints. *)
Inductive out : Set :=
| Overflow | SynWaiting | SynGot (e : Event) | ToEstablished | SynReset | Unexpected
| Up | EstGot (e : Event) | Transferred (total : Z) | TransferComplete | PeerClosed | EstReset
| Draining | FullyClosed
| Initiating | PeerAcknowledged | RunComplete (bytes : Z)
| CreateFailed | AllDone.

(** The lines that name an event. *)
Definition line (o : out) : option string :=
  match o with
  | SynGot e => Some ("[SYN_SENT]  got event: " +:+ event_name e)
  | EstGot e => Some ("[ESTABLISHED] got event: " +:+ event_name e)
  | _ => None
  end.

(** They tell which event it was. *)
Lemma line_event o o' : is_Some (line o) → line o = line o' → o = o'.
Proof.
  destruct o as [| |[]| | | | |[]| | | | | | | | | | |]; intros [t Ht]; try done;
    by destruct o' as [| |[]| | | | |[]| | | | | | | | | | |].
Qed.

Record mem := Mem {
  g_queue : EventQueue;
  co_syn_sent : ptr; co_established : ptr; co_closing : ptr; co_pump : ptr;
  g_bytes_transferred : Z;
  printed : list out
}.

Definition say (o : out) (m : mem) : mem :=
  Mem (g_queue m) (co_syn_sent m) (co_established m) (co_closing m) (co_pump m)
    (g_bytes_transferred m) (printed m ++ [o]).
Definition set_queue (q : EventQueue) (m : mem) : mem :=
  Mem q (co_syn_sent m) (co_established m) (co_closing m) (co_pump m)
    (g_bytes_transferred m) (printed m).
Definition set_bytes (n : Z) (m : mem) : mem :=
  Mem (g_queue m) (co_syn_sent m) (co_established m) (co_closing m) (co_pump m) n (printed m).

(** [queue_push(&g_queue, e)] and [queue_pop(&g_queue)] *)
Definition queue_push (e : Event) (m : mem) : option mem :=
  let q := g_queue m in
  if len q =? QUEUE_CAP then Some (say Overflow m)
  else
    b ← arr_set (buf q) (tail q) e;
    t ← cadd (tail q) 1;
    n ← cadd (len q) 1;
    Some (set_queue (Queue b (head q) (Z.rem t QUEUE_CAP) n) m).

Definition queue_pop (m : mem) : option (mem * Event) :=
  let q := g_queue m in
  if len q =? 0 then Some (m, EVT_NONE)
  else
    e ← arr_get (buf q) (head q);
    h ← cadd (head q) 1;
    n ← cadd (len q) (-1);
    Some (set_queue (Queue (buf q) (Z.rem h QUEUE_CAP) (tail q) n) m, e).

(** Main, after each of its calls; then the coroutines, at their start and
    after each of their calls. *)
Inductive point : Set :=
| MStart | MSyn (p : ptr) | MEst (p : ptr) | MClosing (p : ptr) | MPump (p : ptr)
| MDestroy (todo : list ptr)
| SynStart | SynWake | SynEnd
| EstStart | EstWake | EstEnd
| ClosingStart | ClosingWake
| PumpStart | PumpAck | PumpEst | PumpClosing | PumpEnd.

(** The loops' heads, up to [co_yield]. *)
Definition syn_head (m : mem) : mem * acall point := (say SynWaiting m, AYield SynWake).
Definition est_head (m : mem) : mem * acall point := (say Up m, AYield EstWake).

(** [state_syn_sent], after [co_yield] *)
Definition state_syn_sent (m : mem) : option (mem * acall point) :=
  '(m, e) ← queue_pop m;
  let m := say (SynGot e) m in
  match e with
  | EVT_SYN_ACK =>
      m ← queue_push EVT_DATA (say ToEstablished m);
      Some (m, AResume (co_established m) SynEnd)
  | EVT_RESET => Some (say SynReset m, AReturn)
  | _ => Some (syn_head (say Unexpected m))
  end.

(** [state_established], after [co_yield] *)
Definition state_established (m : mem) : option (mem * acall point) :=
  '(m, e) ← queue_pop m;
  let m := say (EstGot e) m in
  match e with
  | EVT_DATA =>
      n ← cadd (g_bytes_transferred m) 512;
      let m := say (Transferred n) (set_bytes n m) in
      if 1024 <=? n then
        m ← queue_push EVT_FIN (say TransferComplete m);
        Some (m, AResume (co_closing m) EstEnd)
      else
        m ← queue_push EVT_DATA m;
        Some (est_head m)
  | EVT_FIN => Some (say PeerClosed m, AResume (co_closing m) EstEnd)
  | EVT_RESET => Some (say EstReset m, AReturn)
  | _ => Some (est_head m)
  end.

(** [event_pump] and main, from one call to the next *)
Definition event_pump (l : point) (m : mem) : option (mem * acall point) :=
  match l with
  | PumpStart =>
      m ← queue_push EVT_SYN (say Initiating m);
      Some (m, AResume (co_syn_sent m) PumpAck)
  | PumpAck =>
      m ← queue_push EVT_SYN_ACK (say PeerAcknowledged m);
      Some (m, AResume (co_syn_sent m) PumpEst)
  | PumpEst => Some (m, AResume (co_established m) PumpClosing)
  | PumpClosing => Some (m, AResume (co_closing m) PumpEnd)
  | _ => Some (say (RunComplete (g_bytes_transferred m)) m, AReturn)
  end.

Definition main (l : point) (m : mem) : mem * acall point :=
  match l with
  | MSyn p =>
      (Mem (g_queue m) p (co_established m) (co_closing m) (co_pump m)
         (g_bytes_transferred m) (printed m), ACreate EstStart MEst)
  | MEst p =>
      (Mem (g_queue m) (co_syn_sent m) p (co_closing m) (co_pump m)
         (g_bytes_transferred m) (printed m), ACreate ClosingStart MClosing)
  | MClosing p =>
      (Mem (g_queue m) (co_syn_sent m) (co_established m) p (co_pump m)
         (g_bytes_transferred m) (printed m), ACreate PumpStart MPump)
  | MPump p =>
      let m := Mem (g_queue m) (co_syn_sent m) (co_established m) (co_closing m) p
                 (g_bytes_transferred m) (printed m) in
      if existsb (Z.eqb NULL) [co_syn_sent m; co_established m; co_closing m; co_pump m]
      then (say CreateFailed m, AReturn)
      else (m, AResume (co_pump m)
                 (MDestroy [co_syn_sent m; co_established m; co_closing m; co_pump m]))
  | MDestroy (h :: todo) => (m, ADestroy h (MDestroy todo))
  | MDestroy [] => (say AllDone m, AReturn)
  | _ => (m, ACreate SynStart MSyn)
  end.

#[export] Instance code : ACode point mem := λ l m,
  match l with
  | SynStart => Some (syn_head m)
  | SynWake => state_syn_sent m
  | EstStart => Some (est_head m)
  | EstWake => state_established m
  | ClosingStart => Some (say Draining m, AYield ClosingWake)
  | ClosingWake => Some (say FullyClosed m, AReturn)
  | SynEnd | EstEnd => Some (m, AReturn)
  | PumpStart | PumpAck | PumpEst | PumpClosing | PumpEnd => event_pump l m
  | MStart | MSyn _ | MEst _ | MClosing _ | MPump _ | MDestroy _ => Some (main l m)
  end.

(** [memset(&g_queue, 0, sizeof(g_queue))] *)
Definition mem0 : mem :=
  Mem (Queue (replicate (Z.to_nat QUEUE_CAP) EVT_NONE) 0 0 0) NULL NULL NULL NULL 0 [].

(** ** The queue *)

(** What follows speaks of the queue, the counter and the output. *)
Definition same_rest (m m' : mem) : Prop :=
  g_bytes_transferred m' = g_bytes_transferred m ∧ printed m' = printed m.

Lemma queue_push_ok e m q :
  ring_rep (g_queue m) q → Z.of_nat (length q) < QUEUE_CAP →
  ∃ m', queue_push e m = Some m' ∧ ring_rep (g_queue m') (q ++ [e]) ∧ same_rest m m'.
Proof.
  intros Hr Hlt. pose proof (rr_size _ _ Hr) as Hs. cbn in Hs. unfold queue_push.
  rewrite (proj2 (Z.eqb_neq _ _)) by lia. ring_push_ops Hr e.
  eexists. split; [done|]. split; [|done]. by apply (ring_push_rep (g_queue m)).
Qed.

Lemma queue_pop_ok m q :
  ring_rep (g_queue m) q →
  match q with
  | [] => queue_pop m = Some (m, EVT_NONE)
  | e :: q' => ∃ m', queue_pop m = Some (m', e) ∧ ring_rep (g_queue m') q' ∧ same_rest m m'
  end.
Proof.
  intros Hr. pose proof (rr_size _ _ Hr) as Hs. cbn in Hs. unfold queue_pop.
  destruct q as [|e q]; [by rewrite Hs|].
  rewrite (proj2 (Z.eqb_neq _ _)) by (rewrite Hs; cbn; lia). ring_pop_ops Hr.
  eexists. split; [done|]. split; [|done]. by eapply (ring_pop_rep (g_queue m)).
Qed.

(** ** Every schedule *)

(** How many more events a thread may push than it pops, and whether it may
    start the transfer of data. *)
Definition pushes (l : point) : nat :=
  match l with
  | MStart => 3
  | MSyn _ | MEst _ | MClosing _ | PumpStart => 2
  | PumpAck | SynStart | SynWake => 1
  | _ => 0
  end.

Definition starts (l : point) : nat :=
  match l with MStart | SynStart | SynWake => 1 | _ => 0 end.

Definition data_events (q : list Event) : nat := length (base.filter (λ e, e = EVT_DATA) q).

Lemma data_events_app q q' : data_events (q ++ q') = (data_events q + data_events q')%nat.
Proof. unfold data_events. by rewrite filter_app, length_app. Qed.

(** The threads may push [a] events in all, and start [b] transfers. *)
Record sm_ok (a b : nat) (q : list Event) (m : mem) : Prop := {
  sm_queue : ring_rep (g_queue m) q;
  sm_room : (length q + a ≤ 3)%nat;
  sm_once : (data_events q + b ≤ 1)%nat;
  sm_before : (1 ≤ b)%nat → g_bytes_transferred m = 0;
  sm_during : (1 ≤ data_events q)%nat → g_bytes_transferred m ≤ 512;
  sm_bytes : g_bytes_transferred m = 0 ∨ g_bytes_transferred m = 512 ∨ g_bytes_transferred m = 1024;
  sm_overflow : Overflow ∉ printed m;
  sm_complete : TransferComplete ∈ printed m → g_bytes_transferred m = 1024
}.

Lemma sm_ok_le a b a' b' q m : sm_ok a b q m → (a' ≤ a)%nat → (b' ≤ b)%nat → sm_ok a' b' q m.
Proof. intros [] Ha Hb. split; try done; lia. Qed.

(** Only these fields matter. *)
Lemma sm_ok_ext a b q m m' :
  sm_ok a b q m → g_queue m' = g_queue m → g_bytes_transferred m' = g_bytes_transferred m →
  printed m' = printed m → sm_ok a b q m'.
Proof. intros [] Hq Hb Hp. split; rewrite ?Hq, ?Hb, ?Hp; done. Qed.

Lemma sm_ok_say a b q m o :
  sm_ok a b q m → o ≠ Overflow → (o = TransferComplete → g_bytes_transferred m = 1024) →
  sm_ok a b q (say o m).
Proof.
  intros [] Ho Hc. split; try done; cbn; [apply not_elem_of_app; split; [done|]; by intros ?%list_elem_of_singleton|].
  intros [Hin|Hin]%elem_of_app; [auto|]. apply list_elem_of_singleton in Hin. auto.
Qed.

Lemma sm_ok_push e a b q m :
  sm_ok (S a) b q m →
  (e = EVT_DATA → g_bytes_transferred m ≤ 512 ∧ b = 0%nat ∧ data_events q = 0%nat) →
  ∃ m', queue_push e m = Some m' ∧ sm_ok a b (q ++ [e]) m'
    ∧ g_bytes_transferred m' = g_bytes_transferred m.
Proof.
  intros [] He. destruct (queue_push_ok e m q) as (m' & Hm' & Hr & Hb & Hp);
    [done|cbn in *; unfold QUEUE_CAP; lia|].
  exists m'. split; [done|]. split; [|done].
  assert (data_events [e] = if decide (e = EVT_DATA) then 1%nat else 0%nat) as Hd
    by (unfold data_events; rewrite filter_cons; by case_decide).
  split; rewrite ?Hb, ?Hp, ?length_app, ?data_events_app, ?Hd; try done; cbn; case_decide as Hde;
    try (destruct (He Hde) as (? & ? & ?)); try done; lia.
Qed.

(** The event popped; while it is out of the queue it can be pushed again. *)
Lemma sm_ok_pop a b q m :
  sm_ok a b q m →
  ∃ m' e q', queue_pop m = Some (m', e) ∧ g_bytes_transferred m' = g_bytes_transferred m
    ∧ sm_ok a b q' m'
    ∧ (e = EVT_DATA → sm_ok (S a) b q' m' ∧ g_bytes_transferred m ≤ 512 ∧ b = 0%nat
        ∧ data_events q' = 0%nat).
Proof.
  intros Hm. pose proof (queue_pop_ok m q (sm_queue _ _ _ _ Hm)) as Hp. destruct Hm.
  destruct q as [|e q].
  - exists m, EVT_NONE, []. by split_and!.
  - destruct Hp as (m' & Hm' & Hr & Hb & Hpr). exists m', e, q.
    assert (data_events (e :: q) = (if decide (e = EVT_DATA) then 1 else 0) + data_events q)%nat as Hd
      by (unfold data_events; rewrite filter_cons; by case_decide).
    rewrite Hd in *. cbn [length] in *.
    assert (∀ a', length q + a' ≤ 3 → sm_ok a' b q m')%nat as Hok.
    { intros a' Ha. split; rewrite ?Hb, ?Hpr; try done; case_decide; lia. }
    split_and!; [done|done|apply Hok; lia|]. intros ->. rewrite decide_True in * by done.
    split_and!; [apply Hok; lia|apply sm_during0|..]; lia.
Qed.

(** A stretch of code of a thread, the others having [a] and [b] left. *)
Definition stretch_ok (a b : nat) (r : option (mem * acall point)) : Prop :=
  ∃ m c a' b' q, r = Some (m, c) ∧ call_bound pushes c a' ∧ call_bound starts c b'
    ∧ sm_ok (a' + a) (b' + b) q m.

Lemma stretch_intro a b m c a' b' q :
  sm_ok (a' + a) (b' + b) q m → call_bound pushes c a' → call_bound starts c b' →
  stretch_ok a b (Some (m, c)).
Proof. intros. by exists m, c, a', b', q. Qed.

Lemma syn_sent_ok a b q m : sm_ok (1 + a) (1 + b) q m → stretch_ok a b (state_syn_sent m).
Proof.
  intros Hm. unfold state_syn_sent.
  destruct (sm_ok_pop _ _ _ _ Hm) as (m1 & e & q1 & -> & Hb & Hm1 & _). cbn [mbind option_bind].
  apply (sm_ok_say _ _ _ _ (SynGot e)) in Hm1; [|done..]. destruct e.
  3: { pose proof (sm_once _ _ _ _ Hm1). pose proof (sm_before _ _ _ _ Hm1) as H0.
       apply (sm_ok_say _ _ _ _ ToEstablished) in Hm1; [|done..].
       destruct (sm_ok_push EVT_DATA a b q1 (say ToEstablished (say (SynGot EVT_SYN_ACK) m1)))
         as (m2 & -> & Hm2 & _).
       - eapply sm_ok_le; [exact Hm1|lia..].
       - intros _. cbn in *. lia.
       - cbn [mbind option_bind]. eapply (stretch_intro _ _ _ _ 0 0); [exact Hm2|cbn; lia..]. }
  4: { eapply (stretch_intro _ _ _ _ 0 0); [|cbn; lia..].
       apply sm_ok_say; [|done..]. eapply sm_ok_le; [exact Hm1|lia..]. }
  all: eapply (stretch_intro _ _ _ _ 1 1); [repeat first [exact Hm1|apply sm_ok_say; [|done..]]|cbn; lia..].
Qed.

Lemma established_ok a b q m : sm_ok a b q m → stretch_ok a b (state_established m).
Proof.
  intros Hm. unfold state_established.
  destruct (sm_ok_pop _ _ _ _ Hm) as (m1 & e & q1 & -> & Hb & Hm1 & Hdata). cbn [mbind option_bind].
  pose proof (sm_bytes _ _ _ _ Hm) as Hbytes.
  destruct e; cbn [say set_bytes g_bytes_transferred];
    try (eapply (stretch_intro _ _ _ _ 0 0); [repeat first [exact Hm1|apply sm_ok_say; [|done..]]|cbn; lia..]).
  destruct (Hdata eq_refl) as (Hm2 & Hle & -> & Hq1). rewrite Hb.
  rewrite cadd_ok by (consts; lia). cbn [mbind option_bind].
  set (n := g_bytes_transferred m + 512).
  assert (sm_ok (S a) 0 q1 (say (Transferred n) (set_bytes n (say (EstGot EVT_DATA) m1)))) as Hm3.
  { apply sm_ok_say; [|done..]. apply (sm_ok_say _ _ _ _ (EstGot EVT_DATA)) in Hm2; [|done..].
    destruct Hm2. split; try done; cbn in *; [lia..|].
    intros Hc. apply sm_complete0 in Hc. lia. }
  destruct (Z.leb_spec 1024 n) as [Hn|Hn].
  - destruct (sm_ok_push EVT_FIN a 0 q1 (say TransferComplete (say (Transferred n)
      (set_bytes n (say (EstGot EVT_DATA) m1))))) as (m4 & -> & Hm4 & _).
    + apply sm_ok_say; [done..|]. intros _. cbn. lia.
    + done.
    + cbn [mbind option_bind]. eapply (stretch_intro _ _ _ _ 0 0); [exact Hm4|cbn; lia..].
  - destruct (sm_ok_push EVT_DATA a 0 q1 (say (Transferred n)
      (set_bytes n (say (EstGot EVT_DATA) m1)))) as (m4 & -> & Hm4 & _).
    + done.
    + intros _. cbn. lia.
    + cbn [mbind option_bind]. eapply (stretch_intro _ _ _ _ 0 0); [by apply sm_ok_say|cbn; lia..].
Qed.

Lemma main_stretch_ok a b q l m :
  match l with MStart | MSyn _ | MEst _ | MClosing _ | MPump _ | MDestroy _ => True | _ => False end →
  sm_ok (pushes l + a) (starts l + b) q m → stretch_ok a b (Some (main l m)).
Proof.
  intros Hl Hm. destruct l as [|p|p|p|p|[|h todo]| | | | | | | | | | | | |]; try done; cbn [main] in *.
  - eapply (stretch_intro _ _ _ _ 3 1); [exact Hm|cbn; lia..].
  - eapply (stretch_intro _ _ _ _ 2 0); [by eapply sm_ok_ext|cbn; lia..].
  - eapply (stretch_intro _ _ _ _ 2 0); [by eapply sm_ok_ext|cbn; lia..].
  - eapply (stretch_intro _ _ _ _ 2 0); [by eapply sm_ok_ext|cbn; lia..].
  - cbn zeta. destruct (existsb _ _); eapply (stretch_intro _ _ _ _ 0 0); try (cbn; lia).
    + apply sm_ok_say; [|done..]. by eapply sm_ok_ext.
    + by eapply sm_ok_ext.
  - eapply (stretch_intro _ _ _ _ 0 0); [by apply sm_ok_say|cbn; lia..].
  - eapply (stretch_intro _ _ _ _ 0 0); [exact Hm|cbn; lia..].
Qed.

Lemma pump_ok a b q l m :
  match l with PumpStart | PumpAck | PumpEst | PumpClosing | PumpEnd => True | _ => False end →
  sm_ok (pushes l + a) (starts l + b) q m → stretch_ok a b (event_pump l m).
Proof.
  intros Hl Hm. destruct l; try done; cbn [event_pump].
  - destruct (sm_ok_push EVT_SYN (1 + a) b q (say Initiating m)) as (m1 & -> & Hm1 & _);
      [by apply sm_ok_say|done|].
    eapply (stretch_intro _ _ _ _ 1 0); [exact Hm1|cbn; lia..].
  - destruct (sm_ok_push EVT_SYN_ACK a b q (say PeerAcknowledged m)) as (m1 & -> & Hm1 & _);
      [by apply sm_ok_say|done|].
    eapply (stretch_intro _ _ _ _ 0 0); [exact Hm1|cbn; lia..].
  - eapply (stretch_intro _ _ _ _ 0 0); [exact Hm|cbn; lia..].
  - eapply (stretch_intro _ _ _ _ 0 0); [exact Hm|cbn; lia..].
  - eapply (stretch_intro _ _ _ _ 0 0); [by apply sm_ok_say|cbn; lia..].
Qed.

Lemma stretch_all_ok a b q l m :
  sm_ok (pushes l + a) (starts l + b) q m → stretch_ok a b (astep l m).
Proof.
  intros Hm. destruct l; cbn [astep code];
    try (by eapply main_stretch_ok); try (by eapply pump_ok).
  - eapply (stretch_intro _ _ _ _ 1 1); [by apply sm_ok_say|cbn; lia..].
  - by eapply syn_sent_ok.
  - eapply (stretch_intro _ _ _ _ 0 0); [exact Hm|cbn; lia..].
  - eapply (stretch_intro _ _ _ _ 0 0); [by apply sm_ok_say|cbn; lia..].
  - by eapply established_ok.
  - eapply (stretch_intro _ _ _ _ 0 0); [exact Hm|cbn; lia..].
  - eapply (stretch_intro _ _ _ _ 0 0); [by apply sm_ok_say|cbn; lia..].
  - eapply (stretch_intro _ _ _ _ 0 0); [by apply sm_ok_say|cbn; lia..].
Qed.

Definition pool_ok (P : apool point mem) : Prop :=
  ∃ q, sm_ok (tsum pushes (ap_threads P)) (tsum starts (ap_threads P)) q (ap_mem P).

Lemma pool_thread_ok P t l :
  pool_ok P → ap_threads P !! t = Some l →
  stretch_ok (tsum pushes (ap_threads P) - pushes l) (tsum starts (ap_threads P) - starts l)
    (astep l (ap_mem P)).
Proof.
  intros [q Hq] Ht. eapply (stretch_all_ok _ _ q).
  pose proof (tsum_delete pushes _ _ _ Ht). pose proof (tsum_delete starts _ _ _ Ht).
  eapply sm_ok_le; [exact Hq|lia..].
Qed.

Lemma pool_ok_step P P' : pool_ok P → any_step P P' → pool_ok P'.
Proof.
  intros HP [t l m c T Ht Hs Hc].
  destruct (pool_thread_ok _ _ _ HP Ht) as (m' & c' & a' & b' & q & He & Ha & Hb & Hm).
  rewrite Hs in He. injection He as <- <-. exists q. cbn.
  pose proof (tsum_call pushes _ _ _ _ _ _ Ht Hc Ha). pose proof (tsum_delete pushes _ _ _ Ht).
  pose proof (tsum_call starts _ _ _ _ _ _ Ht Hc Hb). pose proof (tsum_delete starts _ _ _ Ht).
  eapply sm_ok_le; [exact Hm|lia..].
Qed.

Lemma pool_ok_start : pool_ok (start_pool MStart mem0).
Proof.
  exists []. cbn [ap_threads ap_mem start_pool]. rewrite !tsum_start.
  split; first [done|by apply ring_init_rep|by left|by intros ?%not_elem_of_nil|cbn; lia].
Qed.

Lemma sm_reach P : rtc any_step (start_pool MStart mem0) P → pool_ok P.
Proof. apply any_invariant; [apply pool_ok_step|apply pool_ok_start]. Qed.

(** the state machine demo, whatever the library schedules: no array
    access leaves its bounds and no counter overflows, the queue is a list of
    at most three events and the overflow message is never printed; the bytes
    transferred are 0, 512 or 1024, and 1024 when the transfer is announced as
    complete. *)
Theorem state_machine_safe P :
  rtc any_step (start_pool MStart mem0) P →
  all_defined P
  ∧ (∃ q, ring_rep (g_queue (ap_mem P)) q ∧ (length q ≤ 3)%nat)
  ∧ (Overflow ∉ printed (ap_mem P))
  ∧ (let n := g_bytes_transferred (ap_mem P) in n = 0 ∨ n = 512 ∨ n = 1024)
  ∧ (TransferComplete ∈ printed (ap_mem P) → g_bytes_transferred (ap_mem P) = 1024).
Proof.
  intros HP%sm_reach. split.
  - intros t l Ht. destruct (pool_thread_ok _ _ _ HP Ht) as (m & c & _ & _ & _ & He & _).
    rewrite He. eauto.
  - destruct HP as [q []]. split_and!; [|done..]. exists q. split; [done|lia].
Qed.

(** ** The discipline the demo describes *)

Section outcome.
Context `{Asymmetric}.

Definition halted (s : lib * apool point mem) : Prop := ap_threads s.2 !! None = None.

(** What the demo prints. *)
Definition transcript : list out :=
  [Initiating; SynWaiting; PeerAcknowledged; SynGot EVT_SYN; Unexpected; SynWaiting;
   Up; Draining; RunComplete 0; AllDone].

Definition final (s : lib * apool point mem) : Prop :=
  halted s ∧ printed (ap_mem s.2) = transcript ∧ g_bytes_transferred (ap_mem s.2) = 0.

(** Main has its four coroutines. *)
Lemma created_all m p :
  co_syn_sent m ≠ NULL → co_established m ≠ NULL → co_closing m ≠ NULL → p ≠ NULL →
  astep (MPump p) m
  = Some (Mem (g_queue m) (co_syn_sent m) (co_established m) (co_closing m) p
            (g_bytes_transferred m) (printed m),
          AResume p (MDestroy [co_syn_sent m; co_established m; co_closing m; p])).
Proof using.
  intros H1 H2 H3 H4. cbn [astep code main co_syn_sent co_established co_closing co_pump existsb].
  by rewrite !(λ q, proj2 (Z.eqb_neq NULL q)) by congruence.
Qed.

(** From the call of [co_run] on: [p1] to [p4] are the coroutines. *)
Lemma sm_runs p1 p2 p3 p4 X T m :
  NoDup [p1; p2; p3; p4] → p1 ∈ X → p2 ∈ X → p3 ∈ X → p4 ∈ X →
  T !! None = Some (MDestroy [p1; p2; p3; p4]) →
  T !! Some p1 = Some SynStart → T !! Some p2 = Some EstStart →
  T !! Some p3 = Some ClosingStart → T !! Some p4 = Some PumpStart →
  m = Mem (g_queue mem0) p1 p2 p3 p4 0 [] →
  leads [p4] X T m final.
Proof using.
  intros Hnd X1 X2 X3 X4 H0 H1 H2 H3 H4 Hm.
  assert (p1 ≠ p2 ∧ p1 ≠ p3 ∧ p1 ≠ p4 ∧ p2 ≠ p3 ∧ p2 ≠ p4 ∧ p3 ≠ p4) as (N1 & N2 & N3 & N4 & N5 & N6).
  { clear -Hnd. rewrite !NoDup_cons, !not_elem_of_cons in Hnd. tauto. }
  clear Hnd. rewrite Hm. clear Hm.
  eapply leads_resume; [here|comp|side..|].
  eapply leads_yield; [here|done|comp|].
  eapply leads_resume; [here|comp|side..|].
  eapply leads_yield; [here|done|comp|].
  eapply leads_resume; [here|comp|side..|].
  eapply leads_yield; [here|done|comp|].
  eapply leads_resume; [here|comp|side..|].
  eapply leads_yield; [here|done|comp|].
  eapply leads_return; [here|done|comp|].
  eapply leads_destroy; [here|comp|side..|].
  eapply leads_destroy; [here|comp|side..|].
  eapply leads_destroy; [here|comp|side..|].
  eapply leads_destroy; [here|comp|side..|].
  eapply leads_end; [here|done|comp|].
  apply leads_now. intros s [_ Hs]. unfold final, halted. rewrite Hs. cbn.
  by rewrite lookup_delete_eq.
Qed.

(** C31: the demo, run as its comments describe: [co_resume] runs a coroutine
    until it yields or returns.  Main ends, but the connection is never
    established: the pump queues SYN before SYN_ACK, [state_syn_sent] pops the
    SYN, calls it unexpected and waits again, and nothing resumes it; no byte is
    transferred. *)
Theorem state_machine_outcome :
  room 4 →
  ∃ s, reaches (lib0, start_pool MStart mem0) s
    ∧ ap_threads s.2 !! None = None ∧ printed (ap_mem s.2) = transcript
    ∧ g_bytes_transferred (ap_mem s.2) = 0.
Proof using.
  intros Hroom. apply (leads_start MStart mem0).
  eapply leads_create; [here|comp|exact Hroom|rewrite size_empty; lia|]. intros p1 H1 Hf1 S1.
  rewrite size_empty in S1. eapply leads_create; [here|comp|exact Hroom|lia|]. intros p2 H2 Hf2 S2.
  eapply leads_create; [here|comp|exact Hroom|lia|]. intros p3 H3 Hf3 S3.
  eapply leads_create; [here|comp|exact Hroom|lia|]. intros p4 H4 Hf4 S4. clear S1 S2 S3 S4.
  apply not_elem_of_add in Hf2 as [N1 _], Hf3 as [N2 [N3 _]%not_elem_of_add],
    Hf4 as [N4 [N5 [N6 _]%not_elem_of_add]%not_elem_of_add].
  eapply leads_resume; [here|by apply created_all|cbn; side..|].
  cbn [co_syn_sent co_established co_closing].
  eapply (sm_runs p1 p2 p3 p4); [|side|side|side|side|here|here|here|here|here|done].
  rewrite !NoDup_cons, !not_elem_of_cons. split_and!; try done; [apply not_elem_of_nil..|apply NoDup_nil_2].
Qed.
End outcome.

#[local] Existing Instance AsymmetricDemo.stack_lib.
Lemma state_machine_safe_witness :
  Overflow ∉ printed (ap_mem (adv 10 (lib0, start_pool MStart mem0)).2).
Proof.
  by destruct (state_machine_safe (adv 10 (lib0, start_pool MStart mem0)).2 (adv_any 10 _ _))
    as (_ & _ & Ho & _).
Defined.

Lemma state_machine_outcome_witness :
  ∃ s, reaches (lib0, start_pool MStart mem0) s
    ∧ ap_threads s.2 !! None = None ∧ printed (ap_mem s.2) = transcript
    ∧ g_bytes_transferred (ap_mem s.2) = 0.
Proof. apply state_machine_outcome. apply AsymmetricDemo.stack_room. Defined.
End StateMachine.
