(* ===== verification/Fib.v ===== *)
(** * The Fibonacci demo ([examples/recursive_fib.c])

    Two programs on a library with [co_resume] ([Resume]): a generator driven by
    its caller, and the recursive computation, one coroutine for each call, with
    results passed through [Future]s in the stack frames of their parents. *)

From stdpp Require Import gmap relations.
From S2P Require Import Prelude Ring Machine State Resume.

(** ** Fibonacci numbers *)

Definition fib_pair (n : nat) : Z * Z := Nat.iter n (λ p, (p.2, p.1 + p.2)) (0, 1).
Definition fib (n : nat) : Z := (fib_pair n).1.

Lemma fib_SS n : fib (S (S n)) = fib n + fib (S n).
Proof. done. Qed.

Lemma fib_nonneg n : 0 ≤ fib n ∧ 0 ≤ fib (S n).
Proof. induction n as [|n [IH1 IH2]]; [done|]. rewrite fib_SS. lia. Qed.

Lemma fib_mono n k : fib n ≤ fib (k + n) ∨ n = 1%nat.
Proof.
  destruct n as [|[|n]]; [left|by right|left].
  - rewrite Nat.add_0_r. apply fib_nonneg.
  - induction k as [|k IH]; [done|]. cbn [Nat.add]. rewrite !Nat.add_succ_r in *.
    rewrite (fib_SS (S (k + n))). pose proof (fib_nonneg (S (k + n))). lia.
Qed.

(** The last Fibonacci number that is a [long]. *)
Lemma fib_long n : (n ≤ 92)%nat → 0 ≤ fib n ≤ LONG_MAX.
Proof.
  intros Hn. split; [apply fib_nonneg|]. trans (fib 92); [|by vm_compute].
  destruct (fib_mono n (92 - n)) as [Hle| ->]; [|by vm_compute].
  replace (92 - n + n)%nat with 92%nat in Hle by lia. exact Hle.
Qed.

(** ** The generator *)

Module FibGen.
Record FibGenState := Gen { limit : Z; out : Z; done : Z }.

(** [state] of [run_generator], and what it prints: indices and numbers. *)
Record mem := Mem { state : FibGenState; printed : list (Z * Z) }.

(** [run_generator] after each of its calls; [fib_gen] at its start and after
    each of its two yields. *)
Inductive point : Set :=
| RStart (limit : Z) | RLoop (gen : ptr) | RResumed (gen : ptr) (idx : Z) | REnd
| GStart | GNext (i a b : Z) | GLast.

(** [fib_gen]: from the loop condition, and the whole body. *)
Definition gen_loop (i a b : Z) (m : mem) : mem * acall point :=
  let s := state m in
  if i <? limit s then (Mem (Gen (limit s) a (done s)) (printed m), AYield (GNext i a b))
  else (Mem (Gen (limit s) (out s) 1) (printed m), AYield GLast).

Definition fib_gen (l : point) (m : mem) : option (mem * acall point) :=
  match l with
  | GStart => Some (gen_loop 0 0 1 m)
  | GNext i a b =>
      tmp ← ladd a b;
      i' ← cadd i 1;
      Some (gen_loop i' b tmp m)
  | GLast => Some (m, AReturn)
  | _ => None
  end.

(** [run_generator]: from the loop condition, and the whole function. *)
Definition run_loop (gen : ptr) (idx : Z) (m : mem) : mem * acall point :=
  if done (state m) =? 0 then (m, AResume gen (RResumed gen idx)) else (m, ADestroy gen REnd).

Definition run_generator (l : point) (m : mem) : option (mem * acall point) :=
  match l with
  | RStart n => Some (Mem (Gen n 0 0) (printed m), ACreate GStart RLoop)
  | RLoop gen => if gen =? NULL then Some (m, AReturn) else Some (run_loop gen 0 m)
  | RResumed gen idx =>
      if done (state m) =? 0 then
        idx' ← cadd idx 1;
        Some (run_loop gen idx' (Mem (state m) (printed m ++ [(idx, out (state m))])))
      else Some (run_loop gen idx m)
  | REnd => Some (m, AReturn)
  | _ => None
  end.

#[export] Instance code : ACode point mem := λ l m,
  match l with
  | GStart | GNext _ _ _ | GLast => fib_gen l m
  | _ => run_generator l m
  end.

Definition mem0 : mem := Mem (Gen 0 0 0) [].

(** The first [n] numbers, with their indices. *)
Definition numbers (n : nat) : list (Z * Z) := (λ i, (Z.of_nat i, fib i)) <$> seq 0 n.

Section outcome.
Context `{Asymmetric}.
Variable n : nat.
Hypothesis n_long : (n ≤ 91)%nat.

Definition finished (s : lib * apool point mem) : Prop :=
  ap_threads s.2 !! None = None ∧ printed (ap_mem s.2) = numbers n.

(** The generator computes the number of index [i], or ends. *)
Definition produced (i : nat) (m : mem) : mem * acall point :=
  gen_loop (Z.of_nat i) (fib i) (fib (S i)) m.

(** From the resumption of the generator before its [i]-th number. *)
Lemma gen_leads k i g X T o l :
  (i + k = n)%nat → g ∈ X → T !! Some g = Some l → T !! None = Some (RResumed g (Z.of_nat i)) →
  astep l (Mem (Gen (Z.of_nat n) o 0) (numbers i))
    = Some (produced i (Mem (Gen (Z.of_nat n) o 0) (numbers i))) →
  leads [g] X T (Mem (Gen (Z.of_nat n) o 0) (numbers i)) finished.
Proof using n_long.
  revert i T o l. induction k as [|k IH]; intros i T o l Hi Hg Hl Hmain Hgen;
    unfold produced, gen_loop in Hgen; cbn [limit state] in Hgen.
  - rewrite (proj2 (Z.ltb_ge _ _)) in Hgen by lia.
    eapply leads_yield; [here|done|exact Hgen|].
    eapply leads_destroy; [here|done|side..|].
    eapply leads_end; [here|done|done|].
    apply leads_now. intros s [_ Hs]. unfold finished. rewrite Hs. cbn.
    rewrite lookup_delete_eq. split; [done|]. by replace i with n by lia.
  - rewrite (proj2 (Z.ltb_lt _ _)) in Hgen by lia.
    eapply leads_yield; [here|done|exact Hgen|].
    eapply leads_resume; [here| |side..|].
    { cbn. rewrite cadd_ok by (consts; lia). done. }
    cbn [state printed out]. rewrite <- (Nat2Z.inj_succ i) at 1.
    assert (numbers i ++ [(Z.of_nat i, fib i)] = numbers (S i)) as ->
      by (unfold numbers; by rewrite seq_S, fmap_app).
    eapply (IH (S i)); [lia|side|here|here|].
    cbn [astep code fib_gen]. rewrite ladd_ok by (rewrite <- fib_SS; apply fib_long; lia). cbn [mbind option_bind].
    rewrite cadd_ok by (consts; lia). cbn [mbind option_bind]. unfold produced.
    by rewrite <- fib_SS, Nat2Z.inj_succ.
Qed.

(** The generator, on any library that resumes and yields as the demo
    describes: for up to 91 numbers it is destroyed and main ends, and what is
    printed are the first Fibonacci numbers, in order, each with its index; no
    [long] overflows. *)
Theorem fib_generator :
  room 1 →
  ∃ s, reaches (lib0, start_pool (RStart (Z.of_nat n)) mem0) s
    ∧ ap_threads s.2 !! None = None ∧ printed (ap_mem s.2) = numbers n.
Proof using n_long.
  intros Hroom. apply (leads_start (RStart (Z.of_nat n)) mem0 finished).
  eapply leads_create; [here|done|exact Hroom|rewrite size_empty; lia|]. intros g Hg Hf _.
  eapply leads_resume; [here| |side..|].
  { cbn. rewrite (proj2 (Z.eqb_neq _ _)) by done. done. }
  eapply (gen_leads n 0); [done|side|here|here|done].
Qed.
End outcome.

#[local] Existing Instance AsymmetricDemo.stack_lib.
(** The 16 numbers of the demo. *)
Lemma fib_generator_witness :
  ∃ s, reaches (lib0, start_pool (RStart 16) mem0) s
    ∧ ap_threads s.2 !! None = None ∧ printed (ap_mem s.2) = numbers 16.
Proof. apply (fib_generator 16); [by apply leb_complete|apply AsymmetricDemo.stack_room]. Defined.
End FibGen.

(** ** The recursive computation *)

Module FibRec.
Record Future := MkFuture { value : Z; ready : Z }.

(** The variable [i] of a kind, in the stack frame [z]. *)
Definition addr : Set := (Z * nat)%type.
Record FibArgs := MkArgs { n : Z; result : addr }.

(** The frames of the functions that have not returned: for [fib_coro] the
    futures [f1], [f2] with the arguments [a1], [a2] that refer to them, for
    [run_recursive] [result] and [args]. *)
Abbreviation frames := (gmap Z (list (Future * FibArgs))).

(** [answers]: what [run_recursive] has returned so far. *)
Record mem := Mem { stack : frames; answers : list Z }.

Definition get (F : frames) (a : addr) : option (Future * FibArgs) := F !! a.1 ≫= (.!! a.2).
(** Writing a future; no answer when its frame is gone. *)
Definition post (F : frames) (a : addr) (f : Future) : option frames :=
  vars ← F !! a.1;
  v ← vars !! a.2;
  Some (<[a.1 := <[a.2 := (f, v.2)]> vars]> F).
Definition is_ready (F : frames) (a : addr) : option bool :=
  v ← get F a; Some (negb (ready v.1 =? 0)).
Definition new_frame (F : frames) : Z := fresh (dom F : gset Z).

(** [fib_coro] and [run_recursive], at their start and after each of their
    calls; [FLoop], [RLoop]: at the loop condition.  [todo] are the calls of
    [run_recursive] that main has left. *)
Inductive point : Set :=
| FEnter (a : addr)
| FMade1 (a : addr) (z : Z) (c1 : ptr)
| FLoop (a : addr) (z : Z) (c1 c2 : ptr)
| FHalf (a : addr) (z : Z) (c1 c2 : ptr)
| FTest (a : addr) (z : Z) (c1 c2 : ptr)
| FGone1 (a : addr) (z : Z) (c2 : ptr)
| FGone2 (a : addr) (z : Z)
| RNext (todo : list Z)
| RMade (todo : list Z) (z : Z) (root : ptr)
| RLoop (todo : list Z) (z : Z) (root : ptr)
| REnd (todo : list Z) (z : Z).

Definition with_stack (F : frames) (m : mem) : mem := Mem F (answers m).

(** The body of the loop of [fib_coro], from its second half. *)
Definition second_half (a : addr) (z : Z) (c1 c2 : ptr) (m : mem) : option (mem * acall point) :=
  r2 ← is_ready (stack m) (z, 1%nat);
  Some (m, if negb r2 then AResume c2 (FTest a z c1 c2) else ATau (FTest a z c1 c2)).

Definition fib_coro (l : point) (m : mem) : option (mem * acall point) :=
  let F := stack m in
  match l with
  | FEnter a =>
      v ← get F a;
      let n := n v.2 in
      if n <=? 1 then
        F ← post F (result v.2) (MkFuture n 1);
        Some (with_stack F m, AReturn)
      else
        n1 ← cadd n (-1);
        n2 ← cadd n (-2);
        let z := new_frame F in
        let f := MkFuture 0 0 in
        Some (with_stack (<[z := [(f, MkArgs n1 (z, 0%nat)); (f, MkArgs n2 (z, 1%nat))]]> F) m,
              ACreate (FEnter (z, 0%nat)) (FMade1 a z))
  | FMade1 a z c1 => Some (m, ACreate (FEnter (z, 1%nat)) (FLoop a z c1))
  | FLoop a z c1 c2 =>
      r1 ← is_ready F (z, 0%nat);
      r2 ← is_ready F (z, 1%nat);
      if negb r1 || negb r2 then
        if negb r1 then Some (m, AResume c1 (FHalf a z c1 c2)) else second_half a z c1 c2 m
      else Some (m, ADestroy c1 (FGone1 a z c2))
  | FHalf a z c1 c2 => second_half a z c1 c2 m
  | FTest a z c1 c2 =>
      r1 ← is_ready F (z, 0%nat);
      r2 ← is_ready F (z, 1%nat);
      Some (m, if negb r1 || negb r2 then AYield (FLoop a z c1 c2) else ATau (FLoop a z c1 c2))
  | FGone1 a z c2 => Some (m, ADestroy c2 (FGone2 a z))
  | FGone2 a z =>
      f1 ← get F (z, 0%nat);
      f2 ← get F (z, 1%nat);
      v ← get F a;
      sum ← ladd (value f1.1) (value f2.1);
      F ← post F (result v.2) (MkFuture sum 1);
      Some (with_stack (delete z F) m, AReturn)
  | _ => None
  end.

(** main's calls of [run_recursive] *)
Definition run_recursive (l : point) (m : mem) : option (mem * acall point) :=
  let F := stack m in
  match l with
  | RNext [] => Some (m, AReturn)
  | RNext (n :: todo) =>
      let z := new_frame F in
      Some (with_stack (<[z := [(MkFuture 0 0, MkArgs n (z, 0%nat))]]> F) m,
            ACreate (FEnter (z, 0%nat)) (RMade todo z))
  | RMade todo z root =>
      if root =? NULL then Some (Mem (delete z F) (answers m ++ [-1]), ATau (RNext todo))
      else Some (m, ATau (RLoop todo z root))
  | RLoop todo z root =>
      r ← is_ready F (z, 0%nat);
      Some (m, if negb r then AResume root (RLoop todo z root) else ADestroy root (REnd todo z))
  | REnd todo z =>
      v ← get F (z, 0%nat);
      Some (Mem (delete z F) (answers m ++ [value v.1]), ATau (RNext todo))
  | _ => None
  end.

#[export] Instance code : ACode point mem := λ l m,
  match l with
  | RNext _ | RMade _ _ _ | RLoop _ _ _ | REnd _ _ => run_recursive l m
  | _ => fib_coro l m
  end.

Definition mem0 : mem := Mem ∅ [].
(** main's calls, in order *)
Definition checks : list Z := [10; 0; 1; 5; 15; 20].
Definition expected : list Z := [0; 1; 5; 610; 6765].
(** What main returns, given the answers of its calls: the first is only
    printed. *)
Definition main_result (answers : list Z) : Z :=
  if forallb (λ '(got, want), got =? want) (zip (tail answers) expected) then 0 else 1.


(** *** Frames *)

Lemma get_in F z i vs v : F !! z = Some vs → vs !! i = Some v → get F (z, i) = Some v.
Proof. intros Hz Hi. unfold get. cbn. by rewrite Hz. Qed.

Lemma get_inv F a v : get F a = Some v → ∃ vs, F !! a.1 = Some vs ∧ vs !! a.2 = Some v.
Proof. unfold get. intros (vs & Hz & Hv)%bind_Some. eauto. Qed.

Lemma get_new F z vs a :
  F !! z = None → get (<[z := vs]> F) a = if decide (a.1 = z) then vs !! a.2 else get F a.
Proof.
  intros Hz. unfold get. destruct a as [y i]. cbn. case_decide as Hy; subst.
  - by rewrite lookup_insert_eq.
  - by rewrite lookup_insert_ne.
Qed.

Lemma get_delete F z a : get (delete z F) a = if decide (a.1 = z) then None else get F a.
Proof.
  unfold get. destruct a as [y i]. cbn. case_decide as Hy; subst.
  - by rewrite lookup_delete_eq.
  - by rewrite lookup_delete_ne.
Qed.

Lemma post_cell F a f v :
  get F a = Some v →
  ∃ F' vs, post F a f = Some F' ∧ F !! a.1 = Some vs ∧ F' = <[a.1 := <[a.2 := (f, v.2)]> vs]> F
    ∧ ∀ b, get F' b = if decide (b = a) then Some (f, v.2) else get F b.
Proof.
  intros (vs & Hz & Hv)%get_inv. unfold post. rewrite Hz. cbn. rewrite Hv. cbn.
  eexists _, vs. split_and!; [done..|]. destruct a as [z i]. intros [y j]. unfold get. cbn in *.
  destruct (decide (y = z)) as [->|Hy].
  - rewrite lookup_insert_eq, Hz. cbn. destruct (decide (j = i)) as [->|Hj].
    + rewrite decide_True by done. apply list_lookup_insert_eq. by eapply lookup_lt_Some.
    + rewrite decide_False by congruence. by apply list_lookup_insert_ne.
  - rewrite lookup_insert_ne by done. by rewrite decide_False by congruence.
Qed.

Lemma new_frame_fresh F : F !! new_frame F = None.
Proof. apply (not_elem_of_dom (D := gset Z)). exact (is_fresh (dom F : gset Z)). Qed.

(** *** Every schedule *)

Section any_schedule.
Variable todo0 : list Z.
Hypothesis todo_range : Forall (λ k, 0 ≤ k ≤ 92) todo0.
Implicit Types (F : frames) (a : addr) (l : point) (v : Future * FibArgs) (z : Z).

(** A future that is ready holds the Fibonacci number its arguments ask for. *)
Definition cell_ok a v : Prop :=
  result v.2 = a ∧ 0 ≤ n v.2 ≤ 92
  ∧ (ready v.1 = 0 ∨ ready v.1 = 1 ∧ value v.1 = fib (Z.to_nat (n v.2))).
Definition good F : Prop := ∀ a v, get F a = Some v → cell_ok a v.

Definition answer_ok (r k : Z) : Prop := r = fib (Z.to_nat k) ∨ r = -1.
Definition mem_ok (m : mem) : Prop :=
  good (stack m) ∧ Forall2 answer_ok (answers m) (take (length (answers m)) todo0).

Definition waiting F a (k : Z) : Prop := ∃ v, get F a = Some v ∧ ready v.1 = 0 ∧ n v.2 = k.
Definition all_ready F z : Prop := ∀ i v, get F (z, i) = Some v → ready v.1 = 1.
(** The frame [z] is that of a [fib_coro] that computes the future at [a]. *)
Definition parent F a z : Prop :=
  ∃ k v1 v2, waiting F a k ∧ 2 ≤ k ∧ F !! z = Some [v1; v2] ∧ n v1.2 = k - 1 ∧ n v2.2 = k - 2.
(** [z] is the frame of [run_recursive k], and [todo] is left after it. *)
Definition root_of (m : mem) (todo : list Z) z : Prop :=
  ∃ v, stack m !! z = Some [v] ∧ drop (length (answers m)) todo0 = n v.2 :: todo.

Definition thread_ok l (m : mem) : Prop :=
  let F := stack m in
  match l with
  | FEnter a => ∃ k, waiting F a k
  | FMade1 a z _ => parent F a z ∧ ∃ k, waiting F (z, 1%nat) k
  | FLoop a z _ _ | FHalf a z _ _ | FTest a z _ _ => parent F a z
  | FGone1 a z _ | FGone2 a z => parent F a z ∧ all_ready F z
  | RNext todo => drop (length (answers m)) todo0 = todo
  | RMade todo z c => root_of m todo z ∧ (c = NULL → ∃ k, waiting F (z, 0%nat) k)
  | RLoop todo z _ => root_of m todo z
  | REnd todo z => root_of m todo z ∧ all_ready F z
  end.

(** The futures that only [l] may fill, and its frame. *)
Definition claims l : list addr :=
  match l with
  | FEnter a | FLoop a _ _ _ | FHalf a _ _ _ | FTest a _ _ _ | FGone1 a _ _ | FGone2 a _ => [a]
  | FMade1 a z _ => [a; (z, 1%nat)]
  | RMade _ z c => if decide (c = NULL) then [(z, 0%nat)] else []
  | _ => []
  end.
Definition own l : option Z :=
  match l with
  | FEnter _ | RNext _ => None
  | FMade1 _ z _ | FLoop _ z _ _ | FHalf _ z _ _ | FTest _ z _ _ | FGone1 _ z _ | FGone2 _ z
  | RMade _ z _ | RLoop _ z _ | REnd _ z => Some z
  end.
Definition is_main l : bool :=
  match l with RNext _ | RMade _ _ _ | RLoop _ _ _ | REnd _ _ => true | _ => false end.

Definition apart l l' : Prop :=
  (∀ a, a ∈ claims l → a ∉ claims l') ∧ (∀ z, own l = Some z → own l' ≠ Some z)
  ∧ (is_main l = true → is_main l' = false).

(** What a stretch of code of [l] may do to the frames of others. *)
Definition grows v v' : Prop := v'.2 = v.2 ∧ (ready v.1 = 1 → ready v'.1 = 1).
Definition evolves l F F' : Prop :=
  (∀ a v, get F a = Some v → ready v.1 = 0 → a ∉ claims l → get F' a = Some v)
  ∧ ∀ z vs, F !! z = Some vs → own l ≠ Some z →
      ∃ vs', F' !! z = Some vs' ∧ Forall2 grows vs vs'.

Lemma grows_refl vs : Forall2 grows vs vs.
Proof using. induction vs; constructor; [by split|done]. Qed.

Lemma ev_refl l F : evolves l F F.
Proof using. split; [done|]. intros z vs Hz _. exists vs. split; [done|apply grows_refl]. Qed.

Lemma ev_trans l F F1 F2 : evolves l F F1 → evolves l F1 F2 → evolves l F F2.
Proof using.
  intros [H1 G1] [H2 G2]. split.
  - intros a v Ha Hr Hc. apply H2; [by apply H1|done..].
  - intros z vs Hz Ho. destruct (G1 z vs Hz Ho) as (vs1 & Hz1 & Hg1).
    destruct (G2 z vs1 Hz1 Ho) as (vs2 & Hz2 & Hg2). exists vs2. split; [done|].
    clear -Hg1 Hg2. revert vs2 Hg2. induction Hg1 as [|v v1 vs vs1 [Ha Hb] _ IH];
      intros vs2 Hg2; inversion Hg2 as [|? v2 ? ? [Ha' Hb']]; subst; constructor; [|by apply IH].
    split; [congruence|auto].
Qed.

Lemma ev_new l F z vs : F !! z = None → evolves l F (<[z := vs]> F).
Proof using.
  intros Hz. split.
  - intros a v Ha _ _. rewrite get_new by done. case_decide as Hy; [|done].
    apply get_inv in Ha as (? & Ha & _). congruence.
  - intros y ws Hy _. exists ws. split; [|apply grows_refl]. rewrite lookup_insert_ne; [done|congruence].
Qed.

Lemma ev_post l F a f v F' :
  get F a = Some v → ready v.1 = 0 → ready f = 1 → a ∈ claims l → post F a f = Some F' →
  evolves l F F'.
Proof using.
  intros Ha Hr Hf Hc Hp. destruct (post_cell F a f v Ha) as (F1 & vs & Hp' & Hz & HF & Hget).
  rewrite Hp in Hp'. injection Hp' as <-. split.
  - intros b w Hb _ Hn. rewrite Hget, decide_False; [done|]. by intros ->.
  - intros y ws Hy _. rewrite HF, lookup_insert. case_decide as Hay; [|by exists ws; split; [|apply grows_refl]].
    assert (ws = vs) as -> by congruence. eexists. split; [done|].
    apply get_inv in Ha as (vs' & Hz' & Hv). assert (vs' = vs) as -> by congruence.
    rewrite <- (list_insert_id vs a.2 v Hv) at 1.
    apply Forall2_insert; [apply grows_refl|]. by split.
Qed.

Lemma ev_delete l F z :
  own l = Some z → (∀ i v, get F (z, i) = Some v → ready v.1 = 1 ∨ (z, i) ∈ claims l) →
  evolves l F (delete z F).
Proof using.
  intros Ho Hz. split.
  - intros [y i] v Ha Hr Hn. rewrite get_delete. cbn. case_decide as Hy; [|done]. subst.
    destruct (Hz _ _ Ha); [lia|done].
  - intros y vs Hy Hne. exists vs. split; [|apply grows_refl]. rewrite lookup_delete_ne; [done|congruence].
Qed.

Lemma ev_waiting l F F' a k : evolves l F F' → a ∉ claims l → waiting F a k → waiting F' a k.
Proof using. intros [He _] Hc (v & Ha & Hr & Hk). exists v. split; [by apply He|done]. Qed.

Lemma ev_ready l F F' z vs :
  evolves l F F' → own l ≠ Some z → F !! z = Some vs → all_ready F z → all_ready F' z.
Proof using.
  intros [_ He] Ho Hz Hr i v Ha. destruct (He z vs Hz Ho) as (vs' & Hz' & Hg).
  apply get_inv in Ha as (ws & Hw & Hv). cbn in *. assert (ws = vs') as -> by congruence.
  destruct (Forall2_lookup_r _ _ _ _ _ Hg Hv) as (w & Hw' & _ & Hgr).
  apply Hgr, (Hr i). by eapply get_in.
Qed.

Lemma ev_parent l F F' a z :
  evolves l F F' → a ∉ claims l → own l ≠ Some z → parent F a z → parent F' a z.
Proof using.
  intros He Hc Ho (k & v1 & v2 & Hw & Hk & Hz & H1 & H2).
  destruct (proj2 He z _ Hz Ho) as (vs' & Hz' & Hg).
  apply Forall2_cons_inv_l in Hg as (w1 & vs1 & [Hw1 _] & Hg & ->).
  apply Forall2_cons_inv_l in Hg as (w2 & vs2 & [Hw2 _] & Hg & ->). apply Forall2_nil_inv_l in Hg as ->.
  exists k, w1, w2. rewrite Hw1, Hw2. split_and!; [by eapply ev_waiting|done..].
Qed.

Lemma ev_root l m m' todo z :
  evolves l (stack m) (stack m') → answers m' = answers m → own l ≠ Some z →
  root_of m todo z → root_of m' todo z.
Proof using.
  intros He Ha Ho (v & Hz & Hd). destruct (proj2 He z _ Hz Ho) as (vs' & Hz' & Hg).
  apply Forall2_cons_inv_l in Hg as (w1 & vs1 & [Hw1 _] & Hg & ->). apply Forall2_nil_inv_l in Hg as ->.
  exists w1. by rewrite Ha, Hw1.
Qed.

Lemma parent_waiting F a z : parent F a z → ∃ k, waiting F a k.
Proof using. intros (k & _ & _ & Hw & _). eauto. Qed.

(** Stability of what other threads rely on. *)
Lemma ev_thread l l' m m' :
  evolves l (stack m) (stack m') → answers m' = answers m ∨ is_main l = true →
  apart l l' → thread_ok l' m → thread_ok l' m'.
Proof using.
  intros He Ha (Hc & Ho & Hm) Hok.
  assert (∀ a, a ∈ claims l' → a ∉ claims l) as Hc' by (intros a H1 H2; by apply (Hc a)).
  assert (∀ z, own l' = Some z → own l ≠ Some z) as Ho' by (intros z H1 H2; by apply (Ho z)).
  assert (is_main l' = true → answers m' = answers m) as Hm'.
  { intros Hl. destruct Ha as [|Hl']; [done|]. specialize (Hm Hl'). congruence. }
  clear Hc Ho Hm Ha. destruct l' as [a|a z c|a z c d|a z c d|a z c d|a z c|a z|todo|todo z c|todo z c|todo z];
    cbn [thread_ok claims own is_main] in *;
    try specialize (Ho' z eq_refl); try specialize (Hm' eq_refl).
  - destruct Hok as [k Hk]. exists k. eapply ev_waiting; [exact He|apply Hc'; by left|done].
  - destruct Hok as [Hp [k Hk]]. split.
    + eapply ev_parent; [exact He|apply Hc'; by left|done..].
    + exists k. eapply ev_waiting; [exact He|apply Hc'; by right; left|done].
  - eapply ev_parent; [exact He|apply Hc'; by left|done..].
  - eapply ev_parent; [exact He|apply Hc'; by left|done..].
  - eapply ev_parent; [exact He|apply Hc'; by left|done..].
  - destruct Hok as [Hp Hr]. split; [eapply ev_parent; [exact He|apply Hc'; by left|done..]|].
    destruct Hp as (? & ? & ? & _ & _ & Hz & _). by eapply ev_ready.
  - destruct Hok as [Hp Hr]. split; [eapply ev_parent; [exact He|apply Hc'; by left|done..]|].
    destruct Hp as (? & ? & ? & _ & _ & Hz & _). by eapply ev_ready.
  - by rewrite Hm'.
  - destruct Hok as [Hr Hn]. split; [by eapply ev_root|]. intros Hcn. destruct (Hn Hcn) as [k Hk].
    exists k. eapply ev_waiting; [exact He| |done]. apply Hc'. rewrite decide_True by done. by left.
  - by eapply ev_root.
  - destruct Hok as [Hr Hrd]. split; [by eapply ev_root|].
    destruct Hr as (v & Hz & _). by eapply ev_ready.
Qed.

(** *** What a stretch of code leaves behind *)

Lemma waiting_get F a k : waiting F a k → is_Some (get F a).
Proof using. intros (v & Ha & _). eauto. Qed.

Lemma claims_exist l m a : thread_ok l m → a ∈ claims l → is_Some (get (stack m) a).
Proof using.
  assert (∀ F b y, parent F b y → is_Some (get F b)) as Hp
    by (intros F b y (k & _ & _ & Hw & _); by eapply waiting_get).
  intros Hl Ha. destruct l; cbn in *; try case_decide;
    repeat first [apply elem_of_cons in Ha as [->|Ha] | by apply not_elem_of_nil in Ha];
    try (by destruct Hl as [k Hk]; eapply waiting_get);
    try (by destruct Hl as [Hl [k Hk]]; eapply waiting_get);
    try (by destruct Hl as [Hl _]; eapply Hp); try (by eapply Hp).
  destruct Hl as [_ Hl]. destruct (Hl ltac:(done)) as [k Hk]. by eapply waiting_get.
Qed.

Lemma own_exists l m z : thread_ok l m → own l = Some z → is_Some (stack m !! z).
Proof using.
  assert (∀ F a y, parent F a y → is_Some (F !! y)) as Hp by (intros F a y (? & ? & ? & _ & _ & ? & _); eauto).
  assert (∀ todo y, root_of m todo y → is_Some (stack m !! y)) as Hr by (intros todo y (? & ? & _); eauto).
  intros Hl Ho. destruct l; cbn in *; simplify_eq; try (by eapply Hp); try (by eapply Hr);
    destruct Hl as [Hl _]; first [by eapply Hp | by eapply Hr].
Qed.

Lemma takes m m' l k :
  thread_ok k m' →
  (∀ a, a ∈ claims k → a ∈ claims l ∨ get (stack m) a = None) →
  (∀ z, own k = Some z → own l = Some z ∨ stack m !! z = None) →
  is_main k = is_main l ∨ is_main k = false →
  takes_over thread_ok apart m m' l k.
Proof using.
  intros Hk Hc Ho Hm. split; [done|]. intros l' Hl' (Rc & Ro & Rm). split_and!.
  - intros a Ha Ha'. destruct (Hc a Ha) as [|Hn]; [by apply (Rc a)|].
    destruct (claims_exist _ _ _ Hl' Ha') as [v Hv]. congruence.
  - intros z Hz Hz'. destruct (Ho z Hz) as [|Hn]; [by apply (Ro z)|].
    destruct (own_exists _ _ _ Hl' Hz') as [v Hv]. congruence.
  - intros Hmk. apply Rm. destruct Hm; congruence.
Qed.

Lemma good_new F z vs :
  F !! z = None → good F → (∀ i v, vs !! i = Some v → cell_ok (z, i) v) → good (<[z := vs]> F).
Proof using.
  intros Hz HF Hvs [y i] v. rewrite get_new by done. cbn. case_decide as Hy; [subst; eauto|apply HF].
Qed.

Lemma good_post F a v f F' :
  get F a = Some v → post F a f = Some F' → cell_ok a (f, v.2) → good F → good F'.
Proof using.
  intros Ha Hp Hf HF b w. destruct (post_cell F a f v Ha) as (F1 & vs & Hp' & _ & _ & Hget).
  rewrite Hp in Hp'. injection Hp' as <-. rewrite Hget. case_decide as Hb; [|apply HF].
  intros [= <-]. by subst.
Qed.

Lemma good_delete F z : good F → good (delete z F).
Proof using. intros HF a v. rewrite get_delete. case_decide; [done|apply HF]. Qed.

(** A stretch of code that is defined and keeps to what it owns. *)
Definition proper l (m : mem) (r : option (mem * acall point)) : Prop :=
  ∃ m' c, r = Some (m', c) ∧ mem_ok m' ∧ next_ok thread_ok apart m m' l c
    ∧ evolves l (stack m) (stack m') ∧ (answers m' = answers m ∨ is_main l = true).

Lemma proper_same l m c :
  mem_ok m → next_ok thread_ok apart m m l c → proper l m (Some (m, c)).
Proof using. intros Hm Hc. exists m, c. split_and!; [done..|apply ev_refl|by left]. Qed.

Lemma proper_stack l m c F' :
  mem_ok m → good F' → evolves l (stack m) F' →
  next_ok thread_ok apart m (with_stack F' m) l c → proper l m (Some (with_stack F' m, c)).
Proof using. intros [_ Hm] HF He Hc. exists (with_stack F' m), c. by split_and!; [..|left]. Qed.

(** The futures of a frame. *)
Lemma parent_cells F a z :
  good F → parent F a z →
  ∃ k v v1 v2, get F a = Some v ∧ ready v.1 = 0 ∧ n v.2 = k ∧ 2 ≤ k ≤ 92
    ∧ get F (z, 0%nat) = Some v1 ∧ n v1.2 = k - 1 ∧ get F (z, 1%nat) = Some v2 ∧ n v2.2 = k - 2
    ∧ F !! z = Some [v1; v2].
Proof using.
  intros HF (k & v1 & v2 & (v & Ha & Hr & Hk) & Hk2 & Hz & H1 & H2).
  destruct (HF _ _ Ha) as (_ & ? & _). exists k, v, v1, v2.
  split_and!; try done; [lia|by eapply get_in|by eapply get_in].
Qed.

Lemma is_ready_get F a v :
  good F → get F a = Some v →
  is_ready F a = Some (negb (ready v.1 =? 0))
  ∧ (negb (ready v.1 =? 0) = true → ready v.1 = 1 ∧ value v.1 = fib (Z.to_nat (n v.2))).
Proof using.
  intros HF Ha. unfold is_ready. rewrite Ha. split; [done|]. intros Hr.
  destruct (HF _ _ Ha) as (_ & _ & [H0|]); [by rewrite H0 in Hr|done].
Qed.

Lemma fib_1 k : 0 ≤ k ≤ 1 → k = fib (Z.to_nat k).
Proof using. intros Hk. assert (k = 0 ∨ k = 1) as [-> | ->] by lia; done. Qed.

Lemma fib_step k : 2 ≤ k → fib (Z.to_nat k) = fib (Z.to_nat (k - 1)) + fib (Z.to_nat (k - 2)).
Proof using.
  intros Hk. replace (Z.to_nat k) with (S (S (Z.to_nat (k - 2)))) by lia.
  rewrite fib_SS. replace (Z.to_nat (k - 1)) with (S (Z.to_nat (k - 2))) by lia. lia.
Qed.

Lemma enter_proper a m : mem_ok m → thread_ok (FEnter a) m → proper (FEnter a) m (astep (FEnter a) m).
Proof using.
  intros Hm [k (v & Ha & Hr & Hk)]. pose proof Hm as [HF _].
  destruct (HF _ _ Ha) as (Hres & Hn & _). cbn [astep code fib_coro]. rewrite Ha. cbn [mbind option_bind].
  destruct (Z.leb_spec (n v.2) 1) as [H1|H1].
  - rewrite Hres. destruct (post_cell _ _ (MkFuture (n v.2) 1) _ Ha) as (F' & vs & Hp & _).
    rewrite Hp. cbn [mbind option_bind]. apply proper_stack; [done| | |done].
    + eapply (good_post _ _ _ _ _ Ha Hp); [|done]. split_and!; cbn; [done|lia..|right].
      split; [done|]. apply fib_1. lia.
    + eapply (ev_post _ _ _ _ _ _ Ha Hr); [|by left|exact Hp]; done.
  - rewrite !cadd_ok by (consts; lia). cbn [mbind option_bind].
    set (z := new_frame (stack m)). pose proof (new_frame_fresh (stack m)) as Hz. fold z in Hz.
    set (fr := [_; _]).
    assert (∀ i w, fr !! i = Some w → get (<[z := fr]> (stack m)) (z, i) = Some w) as Hfr.
    { intros i w Hw. rewrite get_new, decide_True by done. done. }
    assert (waiting (<[z := fr]> (stack m)) a k) as Hwa.
    { exists v. split; [|done]. rewrite get_new by done. rewrite decide_False; [done|].
      intros Heq. apply get_inv in Ha as (? & Ha & _). congruence. }
    assert (∀ i, get (stack m) (z, i) = None) as Hnone by (intros i; unfold get; cbn; by rewrite Hz).
    assert (a.1 ≠ z) as Haz by (intros Heq; apply get_inv in Ha as (? & Ha & _); congruence).
    apply proper_stack; [done| |by apply ev_new|].
    + apply good_new; [done..|]. intros [|[|i]] w [= <-]; (split_and!; cbn; [done|lia..|by left]).
    + assert (∀ c, takes_over thread_ok apart m (with_stack (<[z := fr]> (stack m)) m) (FEnter a) (FMade1 a z c)) as Hmade.
      { intros c. apply takes; [| | |by left].
        - cbn. split; [|by eexists _, _; split; [by apply Hfr|]].
          exists k. eexists _, _. split_and!; [done|lia|apply lookup_insert_eq|cbn; lia..].
        - cbn. intros b [->|[->|Hb%not_elem_of_nil]%elem_of_cons]%elem_of_cons; [left; by left|by right|done].
        - cbn. intros y [= <-]. by right. }
      split_and!; [|done|intros p _; split; [done|]].
      * apply takes; [| |done|by left].
        -- by eexists _, _; split; [by apply Hfr|].
        -- intros b ->%list_elem_of_singleton. by right.
      * split_and!; [|done|done]. cbn. intros b ->%list_elem_of_singleton.
        rewrite !not_elem_of_cons. split_and!; [|done|apply not_elem_of_nil]. by intros <-.
Qed.

(** A continuation that claims and owns what [l] does. *)
Lemma takes_same l m k :
  thread_ok k m → claims k ⊆ claims l → own k = own l → is_main k = is_main l →
  takes_over thread_ok apart m m l k.
Proof using.
  intros Hk Hc Ho Hm. apply takes; [done|intros b Hb; left; by apply Hc| |by left].
  intros z Hz. left. congruence.
Qed.

Lemma made1_proper a z c m :
  mem_ok m → thread_ok (FMade1 a z c) m → proper (FMade1 a z c) m (astep (FMade1 a z c) m).
Proof using.
  intros Hm [Hp Hw]. cbn [astep code fib_coro]. apply proper_same; [done|].
  assert (∀ d, takes_over thread_ok apart m m (FMade1 a z c) (FLoop a z c d)) as Hk.
  { intros d. apply takes; [done| |by left|by left]. intros b Hb. left. cbn in *.
    apply list_elem_of_singleton in Hb as ->. by left. }
  split_and!; [|done|intros d _; split; [done|]].
  - apply takes; [done| |done|by left]. intros b Hb%list_elem_of_singleton. left. subst. by right; left.
  - pose proof Hm as [HF _]. destruct (parent_cells _ _ _ HF Hp) as (k & v & v1 & v2 & Ha & Hr & Hk1 & Hk2 & H1 & Hn1 & H2 & Hn2 & Hz).
    split_and!; [|done|done]. cbn. intros b Hb%list_elem_of_singleton ->%list_elem_of_singleton. subst.
    rewrite Ha in H2. injection H2 as <-. lia.
Qed.

Section looping.
Variables (a : addr) (z : Z) (m : mem).
Hypothesis Hm : mem_ok m.
Hypothesis Hp : parent (stack m) a z.

(** The points at which a [fib_coro] has its two children. *)
Definition in_loop l : Prop :=
  claims l = [a] ∧ own l = Some z ∧ is_main l = false.

Lemma loop_takes l k :
  in_loop l → in_loop k → thread_ok k m → takes_over thread_ok apart m m l k.
Proof using.
  intros (Hc & Ho & Hl) (Hc' & Ho' & Hl') Hk. apply takes_same; [done|by rewrite Hc, Hc'|congruence..].
Qed.

Lemma second_half_proper l c1 c2 : in_loop l → proper l m (second_half a z c1 c2 m).
Proof using Hm Hp.
  intros Hl. pose proof Hm as [HF _].
  destruct (parent_cells _ _ _ HF Hp) as (k & v & v1 & v2 & _ & _ & _ & _ & _ & _ & H2 & _).
  unfold second_half. destruct (is_ready_get _ _ _ HF H2) as [-> _]. cbn [mbind option_bind].
  apply proper_same; [done|]. destruct (negb _); by apply loop_takes.
Qed.

Lemma test_proper c1 c2 : proper (FTest a z c1 c2) m (astep (FTest a z c1 c2) m).
Proof using Hm Hp.
  pose proof Hm as [HF _].
  destruct (parent_cells _ _ _ HF Hp) as (k & v & v1 & v2 & _ & _ & _ & _ & H1 & _ & H2 & _).
  cbn [astep code fib_coro]. destruct (is_ready_get _ _ _ HF H1) as [-> _].
  destruct (is_ready_get _ _ _ HF H2) as [-> _]. cbn [mbind option_bind].
  apply proper_same; [done|]. destruct (_ || _); by apply loop_takes.
Qed.

Lemma loop_proper c1 c2 : proper (FLoop a z c1 c2) m (astep (FLoop a z c1 c2) m).
Proof using Hm Hp.
  pose proof Hm as [HF _].
  destruct (parent_cells _ _ _ HF Hp) as (k & v & v1 & v2 & _ & _ & _ & _ & H1 & _ & H2 & _ & Hz).
  cbn [astep code fib_coro].
  destruct (is_ready_get _ _ _ HF H1) as [-> R1], (is_ready_get _ _ _ HF H2) as [-> R2].
  cbn [mbind option_bind]. destruct (negb (negb (ready v1.1 =? 0))) eqn:E1; cbn [orb].
  - apply proper_same; [done|]. by apply loop_takes.
  - destruct (negb (negb (ready v2.1 =? 0))) eqn:E2; [by apply second_half_proper|].
    apply negb_false_iff in E1, E2. destruct (R1 E1) as [R1' _], (R2 E2) as [R2' _].
    apply proper_same; [done|]. apply loop_takes; [done..|]. split; [done|].
    intros [|[|i]] w Hw; apply get_inv in Hw as (vs & Hvs & Hw); cbn in *; simplify_eq/=; done.
Qed.

Lemma gone2_proper : all_ready (stack m) z → proper (FGone2 a z) m (astep (FGone2 a z) m).
Proof using Hm Hp.
  intros Hr. pose proof Hm as [HF _].
  destruct (parent_cells _ _ _ HF Hp) as (k & v & v1 & v2 & Ha & Hav & Hk & Hk2 & H1 & N1 & H2 & N2 & Hz).
  destruct (HF _ _ Ha) as (Hres & _ & _).
  destruct (HF _ _ H1) as (_ & _ & [R1|[_ V1]]); [by rewrite (Hr _ _ H1) in R1|].
  destruct (HF _ _ H2) as (_ & _ & [R2|[_ V2]]); [by rewrite (Hr _ _ H2) in R2|].
  cbn [astep code fib_coro]. rewrite H1, H2, Ha. cbn [mbind option_bind].
  assert (value v1.1 + value v2.1 = fib (Z.to_nat k)) as Hsum by (rewrite V1, V2, N1, N2; symmetry; apply fib_step; lia).
  rewrite ladd_ok, Hsum, Hres by (rewrite Hsum; apply fib_long; lia). cbn [mbind option_bind].
  destruct (post_cell _ _ (MkFuture (fib (Z.to_nat k)) 1) _ Ha) as (F' & vs & Hpost & _ & _ & Hget).
  rewrite Hpost. cbn [mbind option_bind].
  assert (∀ i w, get F' (z, i) = Some w → ready w.1 = 1) as Hr'.
  { intros i w. rewrite Hget. case_decide; [by intros [= <-]|]. apply Hr. }
  apply proper_stack; [done| | |done].
  - apply good_delete. eapply (good_post _ _ _ _ _ Ha Hpost); [|done].
    split_and!; cbn; [done|lia..|right]. by rewrite Hk.
  - eapply ev_trans; [eapply (ev_post _ _ _ _ _ _ Ha Hav); [|by left|exact Hpost]; done|].
    apply ev_delete; [done|]. intros i w Hw. left. by eapply Hr'.
Qed.
End looping.

(** *** Main *)

Lemma answers_snoc m todo k r :
  Forall2 answer_ok (answers m) (take (length (answers m)) todo0) →
  drop (length (answers m)) todo0 = k :: todo → answer_ok r k →
  Forall2 answer_ok (answers m ++ [r]) (take (length (answers m ++ [r])) todo0)
  ∧ drop (length (answers m ++ [r])) todo0 = todo.
Proof using.
  intros Hf Hd Hr. rewrite length_app. cbn [length]. rewrite Nat.add_1_r.
  assert (todo0 !! length (answers m) = Some k) as Hl.
  { rewrite <- (Nat.add_0_r (length _)), <- lookup_drop, Hd. done. }
  split.
  - erewrite take_S_r by exact Hl. apply Forall2_app; [done|]. by constructor.
  - by rewrite <- Nat.add_1_r, <- drop_drop, Hd.
Qed.

Lemma todo_bound m k todo : drop (length (answers m)) todo0 = k :: todo → 0 ≤ k ≤ 92.
Proof using todo_range.
  intros Hd. pose proof (Forall_drop _ (length (answers m)) _ todo_range) as Hf. rewrite Hd in Hf.
  by apply Forall_cons in Hf as [Hk _].
Qed.

Lemma next_proper todo m : mem_ok m → thread_ok (RNext todo) m → proper (RNext todo) m (astep (RNext todo) m).
Proof using todo_range.
  intros Hm Ht. pose proof Hm as [HF _]. destruct todo as [|k todo]; cbn [astep code run_recursive].
  { by apply proper_same. }
  set (z := new_frame (stack m)). pose proof (new_frame_fresh (stack m)) as Hz. fold z in Hz.
  set (fr := [_]). pose proof (todo_bound _ _ _ Ht) as Hk.
  assert (waiting (<[z := fr]> (stack m)) (z, 0%nat) k) as Hw.
  { eexists. split; [rewrite get_new, decide_True by done; done|by split]. }
  assert (get (stack m) (z, 0%nat) = None) as Hnone by (unfold get; cbn; by rewrite Hz).
  assert (root_of (with_stack (<[z := fr]> (stack m)) m) todo z) as Hroot
    by (eexists; split; [apply lookup_insert_eq|exact Ht]).
  apply proper_stack; [done| |by apply ev_new|split_and!; [| |intros p Hp; split]].
  - apply good_new; [done..|]. intros [|i] w [= <-]. split_and!; cbn; [done|lia..|by left].
  - apply takes; [by exists k| |done|by right]. intros b ->%list_elem_of_singleton. by right.
  - apply takes; [split; [done|intros _; by exists k]| |intros y [= <-]; by right|by left].
    cbn. intros b Hb. rewrite decide_True in Hb by done. apply list_elem_of_singleton in Hb as ->. by right.
  - apply takes; [by split| |intros y [= <-]; by right|by left].
    cbn. intros b. rewrite decide_False by done. by intros ?%not_elem_of_nil.
  - unfold apart. cbn. rewrite decide_False by done. split_and!; [|done|done]. intros b _. apply not_elem_of_nil.
Qed.

Lemma main_drops l m z r v todo :
  mem_ok m → own l = Some z → is_main l = true → stack m !! z = Some [v] →
  drop (length (answers m)) todo0 = n v.2 :: todo → answer_ok r (n v.2) →
  ready v.1 = 1 ∨ (z, 0%nat) ∈ claims l →
  proper l m (Some (Mem (delete z (stack m)) (answers m ++ [r]), ATau (RNext todo))).
Proof using.
  intros [HF Ha] Ho Hl Hz Hd Hr Hv. destruct (answers_snoc _ _ _ _ Ha Hd Hr) as [Hf Hd'].
  eexists _, _. split_and!; [done|by split; [apply good_delete|]| | |by right].
  - apply takes; [done|by intros b ?%not_elem_of_nil|done|by left].
  - apply ev_delete; [done|]. intros i w Hw. apply get_inv in Hw as (vs & Hvs & Hi). cbn in *.
    rewrite Hz in Hvs. injection Hvs as <-. destruct i; [|done]. by injection Hi as <-.
Qed.

Lemma run_proper l m :
  is_main l = true → mem_ok m → thread_ok l m → proper l m (astep l m).
Proof using todo_range.
  intros Hl Hm Ht. destruct l as [| | | | | | |todo|todo z root|todo z root|todo z]; try done;
    [by apply next_proper|..]; cbn [astep code run_recursive]; pose proof Hm as [HF Ha].
  - destruct Ht as [(v & Hz & Hd) Hw]. destruct (Z.eqb_spec root NULL) as [Hr|Hr].
    + eapply main_drops; [done..|by right|]. right. cbn. rewrite decide_True by done. by left.
    + apply proper_same; [done|]. apply takes; [by exists v| |by left|by left].
      by intros b ?%not_elem_of_nil.
  - destruct Ht as (v & Hz & Hd). assert (get (stack m) (z, 0%nat) = Some v) as Hg by by eapply get_in.
    destruct (is_ready_get _ _ _ HF Hg) as [-> R]. cbn [mbind option_bind].
    apply proper_same; [done|]. destruct (negb (ready v.1 =? 0)); cbn [negb]; apply takes_same; try done.
    + split; [by exists v|]. destruct (R eq_refl) as [R1 _]. intros i w Hw.
      apply get_inv in Hw as (vs & Hvs & Hi). cbn in *. rewrite Hz in Hvs. injection Hvs as <-.
      destruct i; [|done]. by injection Hi as <-.
    + by exists v.
  - destruct Ht as [(v & Hz & Hd) Hr]. assert (get (stack m) (z, 0%nat) = Some v) as Hg by by eapply get_in.
    rewrite Hg. cbn [mbind option_bind]. pose proof (Hr _ _ Hg) as R1.
    destruct (HF _ _ Hg) as (_ & _ & [R0|[_ V]]); [lia|].
    eapply main_drops; [done..|by left|by left].
Qed.

#[export] Instance fib_separate : Separate mem_ok thread_ok apart.
Proof using todo_range.
  split.
  - intros l l' (Hc & Ho & Hm). split_and!.
    + intros a H1 H2. by apply (Hc a).
    + intros z H1 H2. by apply (Ho z).
    + intros Hl'. destruct (is_main l); [|done]. by rewrite Hm in Hl'.
  - intros l m Hm Hl.
    assert (proper l m (astep l m)) as (m' & c & He & Hm' & Hn & Hev & Ha).
    { destruct l as [a|a z c|a z c d|a z c d|a z c d|a z c|a z|todo|todo z c|todo z c|todo z];
        try (by apply run_proper).
      - by apply enter_proper.
      - by apply made1_proper.
      - by apply loop_proper.
      - by apply (second_half_proper a z).
      - by apply test_proper.
      - cbn. apply proper_same; [done|]. by apply takes_same.
      - destruct Hl. by apply gone2_proper. }
    exists m', c. split_and!; [done..|]. intros l' Hl' Hap. by eapply ev_thread.
Qed.

(** C29: the recursive computation, whatever the library schedules and
    whichever creations fail: no future or argument block is used after the
    function it is a local variable of has returned, no [long] overflows, every
    future that is ready holds the Fibonacci number its arguments ask for, and
    what [run_recursive] has returned so far are Fibonacci numbers (-1 where
    the first coroutine could not be created). *)
Theorem fib_every_schedule P :
  rtc any_step (start_pool (RNext todo0) mem0) P →
  all_defined P
  ∧ (∀ a v, get (stack (ap_mem P)) a = Some v → ready v.1 ≠ 0 → value v.1 = fib (Z.to_nat (n v.2)))
  ∧ Forall2 answer_ok (answers (ap_mem P)) (take (length (answers (ap_mem P))) todo0).
Proof using todo_range.
  intros Hr. destruct (separate_run mem_ok thread_ok apart (RNext todo0) mem0 P) as [HP Hd]; [|done..|].
  - split; [|done]. intros a v Ha. by apply get_inv in Ha as (? & ? & _).
  - split; [done|]. destruct (se_mem _ _ _ _ HP) as [HF Ha]. split; [|done].
    intros a v Hv Hrd. by destruct (HF _ _ Hv) as (_ & _ & [|[_ Hval]]).
Qed.
End any_schedule.

(** *** The discipline the demo describes *)

Lemma post_frame F z vs i v f :
  vs !! i = Some v → post (<[z := vs]> F) (z, i) f = Some (<[z := <[i := (f, v.2)]> vs]> F).
Proof.
  intros Hi. unfold post. cbn [fst snd]. rewrite lookup_insert_eq. cbn [mbind option_bind].
  rewrite Hi. cbn [mbind option_bind]. by rewrite insert_insert_eq.
Qed.

Lemma post_other F F' z vs a f :
  a.1 ≠ z → post F a f = Some F' → post (<[z := vs]> F) a f = Some (<[z := vs]> F') ∧ F' !! z = F !! z.
Proof.
  intros Ha. unfold post. rewrite lookup_insert_ne by done.
  destruct (F !! a.1) as [ws|]; [|done]. cbn [mbind option_bind].
  destruct (ws !! a.2); [|done]. cbn [mbind option_bind]. intros [= <-].
  by rewrite insert_insert_ne, lookup_insert_ne.
Qed.

Lemma get_frame F z vs i : get (<[z := vs]> F) (z, i) = vs !! i.
Proof. unfold get. cbn. by rewrite lookup_insert_eq. Qed.

Lemma get_other F z vs a : a.1 ≠ z → get (<[z := vs]> F) a = get F a.
Proof. intros Ha. unfold get. by rewrite lookup_insert_ne. Qed.

(** The frame of [fib_coro] that computes [fib k], with its two futures. *)
Definition frame (z k : Z) (f1 f2 : Future) : list (Future * FibArgs) :=
  [(f1, MkArgs (k - 1) (z, 0%nat)); (f2, MkArgs (k - 2) (z, 1%nat))].
Definition empty : Future := MkFuture 0 0.
Definition holds (x : Z) : Future := MkFuture x 1.

(** [fib_coro] for [k] at least 2, stretch by stretch. *)
Section stretches.
Context (F : frames) (ans : list Z) (a : addr) (v : Future * FibArgs) (k : Z).
Hypothesis Ha : get F a = Some v.
Hypothesis Hn : n v.2 = k.
Hypothesis Hres : result v.2 = a.
Hypothesis Hk : 2 ≤ k ≤ 92.
Let z := new_frame F.

Lemma frame_ne : a.1 ≠ z.
Proof using Ha. intros Heq. apply get_inv in Ha as (? & Ha' & _). rewrite Heq in Ha'. unfold z in Ha'. by rewrite new_frame_fresh in Ha'. Qed.

Lemma enter_calls :
  astep (FEnter a) (Mem F ans)
  = Some (Mem (<[z := frame z k empty empty]> F) ans, ACreate (FEnter (z, 0%nat)) (FMade1 a z)).
Proof using Ha Hn Hk.
  cbn [astep code fib_coro stack]. rewrite Ha. cbn [mbind option_bind].
  rewrite Hn, (proj2 (Z.leb_gt _ _)), !cadd_ok by (consts; lia). done.
Qed.

Lemma loop_resumes c1 c2 f2 :
  astep (FLoop a z c1 c2) (Mem (<[z := frame z k empty f2]> F) ans)
  = Some (Mem (<[z := frame z k empty f2]> F) ans, AResume c1 (FHalf a z c1 c2)).
Proof using. cbn [astep code fib_coro stack]. unfold is_ready. by rewrite !get_frame. Qed.

Lemma half_resumes c1 c2 x :
  astep (FHalf a z c1 c2) (Mem (<[z := frame z k (holds x) empty]> F) ans)
  = Some (Mem (<[z := frame z k (holds x) empty]> F) ans, AResume c2 (FTest a z c1 c2)).
Proof using. cbn [astep code fib_coro stack]. unfold second_half, is_ready. cbn [stack]. by rewrite !get_frame. Qed.

Lemma test_loops c1 c2 x y :
  astep (FTest a z c1 c2) (Mem (<[z := frame z k (holds x) (holds y)]> F) ans)
  = Some (Mem (<[z := frame z k (holds x) (holds y)]> F) ans, ATau (FLoop a z c1 c2)).
Proof using. cbn [astep code fib_coro stack]. unfold is_ready. by rewrite !get_frame. Qed.

Lemma loop_ends c1 c2 x y :
  astep (FLoop a z c1 c2) (Mem (<[z := frame z k (holds x) (holds y)]> F) ans)
  = Some (Mem (<[z := frame z k (holds x) (holds y)]> F) ans, ADestroy c1 (FGone1 a z c2)).
Proof using. cbn [astep code fib_coro stack]. unfold is_ready. by rewrite !get_frame. Qed.

Lemma gone2_returns F' x y :
  0 ≤ x + y ≤ LONG_MAX → post F a (holds (x + y)) = Some F' →
  astep (FGone2 a z) (Mem (<[z := frame z k (holds x) (holds y)]> F) ans)
  = Some (Mem F' ans, AReturn).
Proof using Ha Hres.
  intros Hxy Hp. destruct (post_other F F' z (frame z k (holds x) (holds y)) a _ frame_ne Hp) as [Hp' Hz].
  cbn [astep code fib_coro stack]. rewrite !get_frame. cbn [frame lookup list_lookup mbind option_bind].
  rewrite get_other, Ha by apply frame_ne. cbn [mbind option_bind value fst holds].
  rewrite ladd_ok by done. cbn [mbind option_bind]. rewrite Hres. fold (holds (x + y)). rewrite Hp'.
  cbn [mbind option_bind]. unfold with_stack. cbn [answers]. do 3 f_equal.
  apply delete_insert_id. rewrite Hz. apply new_frame_fresh.
Qed.
End stretches.

Section outcome.
Context `{Asymmetric}.
Variable cap : nat.
Hypothesis enough : room cap.

Definition owns (X : gset ptr) (T : gmap (option ptr) point) : Prop :=
  ∀ q, is_Some (T !! Some q) → q ∈ X.

Lemma owns_insert X T q l : owns X T → q ∈ X → owns X (<[Some q := l]> T).
Proof using. intros HT Hq r [y [[[= <-] _]|[_ Hr]]%lookup_insert_Some]; [done|]. eauto. Qed.

Lemma owns_delete X T q : owns X T → owns X (delete (Some q) T).
Proof using. intros HT r [y [_ Hr]%lookup_delete_Some]. eauto. Qed.

Lemma owns_fresh X T q : owns X T → q ∉ X → T !! Some q = None.
Proof using. intros HT Hq. apply eq_None_not_Some. by intros ?%HT. Qed.

(** The coroutine at the head of the chain computes [fib k]: it returns, its
    future is filled, and nothing else is left behind. *)
Definition computes (k : nat) : Prop :=
  ∀ c X (T : gmap (option ptr) point) F F' ans p a v,
    T !! Some p = Some (FEnter a) → get F a = Some v → n v.2 = Z.of_nat k → result v.2 = a →
    owns X T → (∀ q, q ∈ p :: c → q ∈ X) →
    (size X + 2 * k ≤ cap)%nat → post F a (holds (fib k)) = Some F' →
    leads (p :: c) X T (Mem F ans) (in_state c X (delete (Some p) T) (Mem F' ans)).

Lemma computes_leaf k : (k ≤ 1)%nat → computes k.
Proof using.
  intros Hk c X T F F' ans p a v Hp Ha Hn Hres HT HX Hcap Hpost.
  eapply leads_return; [exact Hp|done| |by apply leads_now].
  cbn [astep code fib_coro stack]. rewrite Ha. cbn [mbind option_bind].
  rewrite Hn, (proj2 (Z.leb_le _ _)), Hres by lia.
  replace (MkFuture (Z.of_nat k) 1) with (holds (fib k)) by (destruct k as [|[]]; [done|done|lia]).
  by rewrite Hpost.
Qed.

(** The threads and the handles, once both children are gone. *)
Lemma two_gone (T : gmap (option ptr) point) p p1 p2 l1 l2 l3 l4 l5 l6 l7 l8 l9 :
  T !! Some p1 = None → T !! Some p2 = None → p1 ≠ p → p2 ≠ p →
  delete (Some p) (<[Some p := l9]> (delete (Some p2) (<[Some p := l8]> (delete (Some p1)
    (<[Some p := l7]> (delete (Some p2) (<[Some p := l6]> (delete (Some p1) (<[Some p := l5]>
      (<[Some p2 := l4]> (<[Some p := l3]> (<[Some p1 := l2]> (<[Some p := l1]> T)))))))))))))
  = delete (Some p) T.
Proof using.
  intros H1 H2 N1 N2. apply map_eq. intros t.
  destruct (decide (t = Some p)) as [->|Hp]; [by rewrite !lookup_delete_eq|].
  destruct (decide (t = Some p2)) as [->|Hp2]; [|destruct (decide (t = Some p1)) as [->|Hp1]];
    repeat first [rewrite lookup_delete_eq | rewrite lookup_delete_ne by congruence
                 | rewrite lookup_insert_ne by congruence]; done.
Qed.

Lemma handles_gone (X : gset ptr) (p1 p2 : ptr) :
  p1 ∉ X → p2 ∉ {[p1]} ∪ X → ({[p2]} ∪ ({[p1]} ∪ X)) ∖ {[p1]} ∖ {[p2]} = X.
Proof using. clear. set_solver. Qed.

Lemma computes_step k : (k + 2 ≤ 92)%nat → computes (S k) → computes k → computes (S (S k)).
Proof using enough.
  intros Hk IH1 IH2 c X T F F' ans p a v Hp Ha Hn Hres HT HX Hcap Hpost.
  set (z := new_frame F). assert (2 ≤ Z.of_nat (S (S k)) ≤ 92) as Hk2 by lia.
  eapply leads_create; [exact Hp|by eapply enter_calls|exact enough|lia|].
  intros p1 N1 Hf1 S1. fold z.
  assert (p1 ≠ p) as Np1 by (intros ->; apply Hf1, HX; by left).
  eapply leads_create; [here|done|exact enough|lia|].
  intros p2 N2 Hf2 S2. apply not_elem_of_add in Hf2 as Hf2'. destruct Hf2' as [N12 Hf2'].
  assert (p2 ≠ p) as Np2 by (intros ->; apply Hf2', HX; by left).
  set (X2 := {[p2]} ∪ ({[p1]} ∪ X)).
  assert (p1 ∈ X2 ∧ p2 ∈ X2) as [M1 M2] by (split; unfold X2; member).
  assert (∀ q, q ∈ X → q ∈ X2) as MX by (intros q Hq; by do 2 apply elem_of_union_r).
  assert (p ∈ X2) as Mp by (apply MX, HX; by left).
  assert (owns X2 T) as HT2 by (intros q Hq; by apply MX, HT).
  assert (p1 ∉ p :: c ∧ (p2 ∉ p :: c)) as [O1 O2]
    by (split; intros Hin; [by apply Hf1, HX|by apply Hf2', HX]).
  assert (T !! Some p1 = None ∧ T !! Some p2 = None) as [E1 E2] by (split; by apply (owns_fresh X)).
  assert (size X2 = S (S (size X))) as HS by (unfold X2; lia).
  assert (∀ q, q ∈ p :: c → q ∈ X2) as MC by (intros q Hq; by apply MX, HX).
  eapply leads_resume; [here|by eapply loop_resumes|done|exact O1|look; eauto|]. cbn [hd_error].
  eapply leads_trans.
  { eapply (IH1 (p :: c)); [look; reflexivity|rewrite get_frame; reflexivity|cbn; lia|done| | |lia
      |apply post_frame; reflexivity].
    - by repeat apply owns_insert.
    - by intros q [->|Hq]%elem_of_cons; [|apply MC]. }
  eapply leads_resume; [here|by eapply half_resumes|done|exact O2|look; eauto|]. cbn [hd_error].
  eapply leads_trans.
  { eapply (IH2 (p :: c)); [look; reflexivity|rewrite get_frame; reflexivity|cbn; lia|done| | |lia
      |apply post_frame; reflexivity].
    - by repeat first [apply owns_insert|apply owns_delete].
    - by intros q [->|Hq]%elem_of_cons; [|apply MC]. }
  eapply leads_tau; [here|by eapply test_loops|]. cbn [hd_error].
  eapply leads_destroy; [here|by eapply loop_ends|done|exact O1|]. cbn [hd_error].
  eapply leads_destroy; [here|done|by apply elem_of_difference; rewrite not_elem_of_singleton|exact O2|].
  cbn [hd_error].
  eapply leads_return; [here|done|eapply gone2_returns; [exact Ha|exact Hres| |]|].
  - split; [pose proof (fib_nonneg k); lia|]. rewrite Z.add_comm, <- fib_SS. apply fib_long. lia.
  - by rewrite Z.add_comm, <- fib_SS.
  - apply leads_now. intros s Hs. unfold X2 in Hs. rewrite handles_gone, two_gone in Hs by done. done.
Qed.

Lemma fib_computes k : (k ≤ 92)%nat → computes k.
Proof using enough.
  enough (∀ j, (j ≤ 91)%nat → computes j ∧ computes (S j)) as Hj.
  { intros Hk. destruct k as [|k]; [apply computes_leaf; lia|]. apply Hj. lia. }
  induction j as [|j IH]; intros Hj; [split; apply computes_leaf; lia|].
  destruct IH as [H0 H1]; [lia|]. split; [done|]. apply computes_step; [lia|done..].
Qed.

(** One call of [run_recursive], from main; [T] and [T'] hold no coroutine. *)
Definition only_main (T : gmap (option ptr) point) : Prop := ∀ p, T !! Some p = None.

Lemma run_leads (k : nat) todo T F ans (Q : lib * apool point mem → Prop) :
  (k ≤ 92)%nat → (2 * k + 1 ≤ cap)%nat → only_main T → T !! None = Some (RNext (Z.of_nat k :: todo)) →
  (∀ T', only_main T' → T' !! None = Some (RNext todo) →
     leads [] ∅ T' (Mem F (ans ++ [fib k])) Q) →
  leads [] ∅ T (Mem F ans) Q.
Proof using enough.
  intros Hk Hcap HT Hmain Hnext.
  eapply leads_create; [exact Hmain|done|exact enough|rewrite size_empty; lia|].
  intros p N1 Hf S1. rewrite size_empty in S1. cbn [hd_error].
  eapply leads_tau; [here|cbn; by rewrite (proj2 (Z.eqb_neq _ _))|]. cbn [hd_error].
  eapply leads_resume; [here| |side|apply not_elem_of_nil|look; eauto|].
  { cbn [astep code run_recursive with_stack stack answers]. unfold is_ready. by rewrite get_frame. }
  cbn [hd_error]. eapply leads_trans.
  { eapply (fib_computes k Hk []); [look; reflexivity|rewrite get_frame; reflexivity|done|done| | |lia
      |apply post_frame; reflexivity].
    - intros q [y Hy]. destruct (decide (q = p)) as [->|Hq]; [side|].
      rewrite !lookup_insert_ne in Hy by congruence. by rewrite HT in Hy.
    - intros q ->%list_elem_of_singleton. side. }
  eapply leads_destroy; [here| |side|apply not_elem_of_nil|].
  { cbn [astep code run_recursive with_stack stack answers]. unfold is_ready. by rewrite get_frame. }
  cbn [hd_error]. eapply leads_tau; [here| |].
  { cbn [astep code run_recursive with_stack stack answers]. rewrite get_frame. cbn [mbind option_bind lookup list_lookup].
    rewrite delete_insert_id by apply new_frame_fresh. done. }
  replace (({[p]} ∪ ∅) ∖ {[p]} : gset ptr) with (∅ : gset ptr) by (clear; set_solver).
  apply Hnext; cbn [hd_error].
  - intros q. rewrite !lookup_insert_ne by done. destruct (decide (q = p)) as [->|Hq];
      [by rewrite lookup_delete_eq|]. repeat (rewrite lookup_delete_ne by congruence).
    repeat first [rewrite lookup_insert_ne by congruence | rewrite lookup_delete_ne by congruence].
    apply HT.
  - by rewrite lookup_insert_eq.
Qed.

Lemma recursive_run (K : nat) (ks : list nat) :
  (K ≤ 92)%nat → (2 * K + 1 ≤ cap)%nat → Forall (λ k, (k ≤ K)%nat) ks →
  ∃ s, reaches (lib0, start_pool (RNext (Z.of_nat <$> ks)) mem0) s
    ∧ ap_threads s.2 = ∅ ∧ stack (ap_mem s.2) = ∅ ∧ answers (ap_mem s.2) = fib <$> ks.
Proof using enough.
  intros HK Hcap Hks.
  apply (leads_start (RNext (Z.of_nat <$> ks)) mem0 (λ s, ap_threads s.2 = ∅ ∧ stack (ap_mem s.2) = ∅
    ∧ answers (ap_mem s.2) = fib <$> ks)).
  enough (∀ ans T, only_main T → T !! None = Some (RNext (Z.of_nat <$> ks)) →
    leads [] ∅ T (Mem ∅ ans) (λ s, ap_threads s.2 = ∅ ∧ stack (ap_mem s.2) = ∅
      ∧ answers (ap_mem s.2) = ans ++ (fib <$> ks))) as Hl.
  { apply (Hl []); [by intros p; rewrite lookup_singleton_ne|apply lookup_singleton_eq]. }
  induction Hks as [|k ks Hk _ IH]; intros ans T HT Hm.
  - eapply leads_end; [exact Hm|done|done|]. apply leads_now. intros s [_ Hs]. rewrite Hs. cbn.
    split_and!; [|done|by rewrite app_nil_r]. apply map_eq. intros [p|]; [|by rewrite lookup_delete_eq].
    by rewrite lookup_delete_ne, lookup_empty.
  - eapply (run_leads k); [lia|lia|done|exact Hm|]. intros T' HT' Hm'.
    cbn [fmap list_fmap]. change (ans ++ fib k :: (fib <$> ks)) with (ans ++ ([fib k] ++ (fib <$> ks))).
    rewrite app_assoc. by apply IH.
Qed.
(** C30: the recursive computation as the demo runs it: on a library that
    resumes as its comments say and has room for [2 K + 1] coroutines, every
    call [run_recursive k] with [k] at most [K] returns, with the [k]-th
    Fibonacci number, and all coroutines and stack frames are gone at the
    end. *)
Theorem fib_recursive (K : nat) (ks : list nat) :
  (K ≤ 92)%nat → (2 * K + 1 ≤ cap)%nat → Forall (λ k, (k ≤ K)%nat) ks →
  ∃ s, reaches (lib0, start_pool (RNext (Z.of_nat <$> ks)) mem0) s
    ∧ ap_threads s.2 = ∅ ∧ stack (ap_mem s.2) = ∅ ∧ answers (ap_mem s.2) = fib <$> ks.
Proof using enough. apply recursive_run. Qed.
End outcome.

#[local] Existing Instance AsymmetricDemo.stack_lib.

(** main returns 0: its spot checks hold. *)
Theorem fib_main_result :
  ∃ s, reaches (lib0, start_pool (RNext checks) mem0) s
    ∧ ap_threads s.2 = ∅ ∧ main_result (answers (ap_mem s.2)) = 0.
Proof.
  destruct (recursive_run 41 (AsymmetricDemo.stack_room 41) 20 [10; 0; 1; 5; 15; 20]%nat)
    as (s & Hr & Ht & _ & Ha); [by apply leb_complete..|repeat constructor; by apply leb_complete|].
  exists s. split_and!; [done|done|]. by rewrite Ha.
Qed.

(** The six calls of the demo's main. *)
Lemma fib_recursive_witness :
  ∃ s, reaches (lib0, start_pool (RNext checks) mem0) s
    ∧ ap_threads s.2 = ∅ ∧ stack (ap_mem s.2) = ∅ ∧ answers (ap_mem s.2) = [55; 0; 1; 5; 610; 6765].
Proof.
  apply (fib_recursive 41 (AsymmetricDemo.stack_room 41) 20 [10; 0; 1; 5; 15; 20]%nat).
  - by apply leb_complete.
  - by apply leb_complete.
  - repeat constructor; by apply leb_complete.
Defined.

Lemma fib_every_schedule_witness :
  Forall2 answer_ok (answers (ap_mem (adv 100 (lib0, start_pool (RNext [3; 2]) mem0)).2))
    (take (length (answers (ap_mem (adv 100 (lib0, start_pool (RNext [3; 2]) mem0)).2))) [3; 2]).
Proof.
  by destruct (fib_every_schedule [3; 2] ltac:(repeat constructor; lia)
    (adv 100 (lib0, start_pool (RNext [3; 2]) mem0)).2 (adv_any 100 _ _)) as (_ & _ & Ha).
Defined.
End FibRec.
