(* ===== verification/AsyncIO.v ===== *)
(** * The asynchronous I/O demo ([examples/async_io.c])

    Workers submit requests to a table and yield until they are complete; main
    resumes the workers in rounds and advances a clock after each.  The library
    is the one of [Resume].  The theorem is about any workload of up to
    [MAX_OPS] workers: the demo's own is its witness. *)

From stdpp Require Import gmap relations.
From S2P Require Import Prelude Ring Machine State Resume.

Module AsyncIO.
Definition MAX_OPS : nat := 16.

Inductive io_op_t : Set := OP_READ | OP_WRITE.

Record io_request_t := Request {
  active : Z; kind : io_op_t; fd : Z; nbytes : Z; ticks_left : Z; worker_id : Z
}.

Record worker_args_t := Args {
  id : Z; op : io_op_t; file : Z; size : Z; latency : Z
}.

(** What the demo prints. *)
Inductive out : Set :=
| Starting (id : Z) (k : io_op_t) (fd nbytes : Z)
| QueueFull (id : Z)
| Complete (id : Z) (k : io_op_t) (nbytes elapsed : Z)
| AllDone (ticks : Z).

Record mem := Mem { io_queue : list io_request_t; global_tick : Z; printed : list out }.

Definition say (o : out) (m : mem) : mem := Mem (io_queue m) (global_tick m) (printed m ++ [o]).

(** [io_submit]: the slot, or -1. *)
Fixpoint submit_from (i : nat) (q : list io_request_t) (r : io_request_t) : list io_request_t * Z :=
  match q with
  | [] => ([], -1)
  | s :: q =>
      if active s =? 0 then (r :: q, Z.of_nat i)
      else let '(q', j) := submit_from (S i) q r in (s :: q', j)
  end.
Definition io_submit (k : io_op_t) (fd nbytes latency wid : Z) (m : mem) : mem * Z :=
  let '(q, slot) := submit_from 0 (io_queue m) (Request 1 k fd nbytes latency wid) in
  (Mem q (global_tick m) (printed m), slot).

(** [io_tick], one request and all of them; its result is not used. *)
Definition tick_one (r : io_request_t) : option io_request_t :=
  if active r =? 0 then Some r
  else
    t ← cadd (ticks_left r) (-1);
    Some (Request (if t <=? 0 then 0 else active r) (kind r) (fd r) (nbytes r) t (worker_id r)).
Definition io_tick (m : mem) : option mem :=
  q ← mapM (M := option) tick_one (io_queue m);
  t ← cadd (global_tick m) 1;
  Some (Mem q t (printed m)).

Definition io_done (slot : Z) (m : mem) : option bool :=
  r ← arr_get (io_queue m) slot; Some (active r =? 0).

(** main: creating the workers; at the head of [do]; in the [for] loop, at its
    head ([rest] are the workers to come), after the first [co_status], after
    [co_resume] and after the second [co_status]; destroying the workers.
    [io_worker]: at its start, and at its loop condition. *)
Inductive point : Set :=
| MCreate (i : nat) (workers : list ptr)
| MDo (workers : list ptr)
| MFor (workers rest : list ptr) (n : Z)
| MStatus (workers rest : list ptr) (h : ptr) (n : Z) (dead : bool)
| MResumed (workers rest : list ptr) (h : ptr) (n : Z)
| MCount (workers rest : list ptr) (n : Z) (dead : bool)
| MDestroy (rest : list ptr)
| WStart (i : nat)
| WLoop (i : nat) (slot start_tick : Z).

Section code.
Variable args : list worker_args_t.

(** [while (!io_done(slot)) co_yield();] and what follows. *)
Definition wait_loop (i : nat) (slot start_tick : Z) (m : mem) : option (mem * acall point) :=
  d ← io_done slot m;
  if (d : bool) then
    a ← args !! i;
    elapsed ← cadd (global_tick m) (- start_tick);
    Some (say (Complete (id a) (op a) (size a) elapsed) m, AReturn)
  else Some (m, AYield (WLoop i slot start_tick)).

Definition io_worker (i : nat) (m : mem) : option (mem * acall point) :=
  a ← args !! i;
  let '(m, slot) := io_submit (op a) (file a) (size a) (latency a) (id a)
                      (say (Starting (id a) (op a) (file a) (size a)) m) in
  if slot <? 0 then Some (say (QueueFull (id a)) m, AReturn)
  else wait_loop i slot (global_tick m) m.

(** The end of the [for] loop, and of the [do] loop. *)
Definition round_end (workers : list ptr) (n : Z) (m : mem) : option (mem * acall point) :=
  if 0 <? n then m ← io_tick m; Some (m, ATau (MDo workers))
  else Some (say (AllDone (global_tick m)) m, ATau (MDestroy workers)).

Definition main (l : point) (m : mem) : option (mem * acall point) :=
  match l with
  | MCreate i workers =>
      if (i <? length args)%nat then Some (m, ACreate (WStart i) (λ p, MCreate (S i) (workers ++ [p])))
      else Some (m, ATau (MDo workers))
  | MDo workers => Some (m, ATau (MFor workers workers 0))
  | MFor workers (h :: rest) n => Some (m, AStatus h (MStatus workers rest h n))
  | MFor workers [] n => round_end workers n m
  | MStatus workers rest h n dead =>
      if dead then Some (m, ATau (MFor workers rest n))
      else Some (m, AResume h (MResumed workers rest h n))
  | MResumed workers rest h n => Some (m, AStatus h (MCount workers rest n))
  | MCount workers rest n dead =>
      if dead then Some (m, ATau (MFor workers rest n))
      else n' ← cadd n 1; Some (m, ATau (MFor workers rest n'))
  | MDestroy (h :: rest) => Some (m, ADestroy h (MDestroy rest))
  | MDestroy [] => Some (m, AReturn)
  | _ => None
  end.

Definition async_code : ACode point mem := λ l m,
  match l with
  | WStart i => io_worker i m
  | WLoop i slot start_tick => wait_loop i slot start_tick m
  | _ => main l m
  end.
End code.

(** [memset(io_queue, 0, sizeof(io_queue))] *)
Definition idle : io_request_t := Request 0 OP_READ 0 0 0 0.
Definition mem0 : mem := Mem (replicate MAX_OPS idle) 0 [].

Definition demo_args : list worker_args_t :=
  [Args 0 OP_READ 3 64 2; Args 1 OP_READ 4 128 3; Args 2 OP_WRITE 5 32 1].

#[local] Existing Instance AsymmetricDemo.stack_lib.
#[local] Existing Instance async_code.
Example demo_output :
  printed (ap_mem (adv (H0 := async_code demo_args) 1000 (lib0, start_pool (MCreate 0 []) mem0)).2)
  = [Starting 0 OP_READ 3 64; Starting 1 OP_READ 4 128; Starting 2 OP_WRITE 5 32;
     Complete 2 OP_WRITE 32 1; Complete 0 OP_READ 64 2; Complete 1 OP_READ 128 3; AllDone 3].
Proof. by vm_compute. Qed.

(** ** Any workload *)

Section requests.
Implicit Types (a : worker_args_t) (t : Z).

(** The ticks a request takes: at least one. *)
Definition ticks a : Z := Z.max 1 (latency a).
(** The request of [a] at tick [t]. *)
Definition request a t : io_request_t :=
  Request (if t <? ticks a then 1 else 0) (op a) (file a) (size a) (latency a - Z.min t (ticks a)) (id a).

(** The workers that complete at [t], and those that are still waiting. *)
Definition completions (l : list worker_args_t) t : list out :=
  (λ a, Complete (id a) (op a) (size a) t) <$> base.filter (λ a, ticks a = t) l.
Definition waiting (l : list worker_args_t) t : Z :=
  Z.of_nat (length (base.filter (λ a, t < ticks a) l)).

Lemma completions_cons a l t :
  completions (a :: l) t = (if decide (ticks a = t) then [Complete (id a) (op a) (size a) t] else [])
    ++ completions l t.
Proof. unfold completions. rewrite filter_cons. by case_decide. Qed.

Lemma waiting_cons a l t : waiting (a :: l) t = (if t <? ticks a then 1 else 0) + waiting l t.
Proof.
  unfold waiting. rewrite filter_cons. case_decide as Hd.
  - rewrite (proj2 (Z.ltb_lt _ _)) by done. cbn [length]. lia.
  - destruct (Z.ltb_spec t (ticks a)); [done|lia].
Qed.

Lemma waiting_bound l t : 0 ≤ waiting l t ≤ Z.of_nat (length l).
Proof.
  unfold waiting. pose proof (length_filter (λ a, t < ticks a) l). lia.
Qed.

(** The tick at which the last of them completes. *)
Definition latest (l : list worker_args_t) : Z := foldr (λ a, Z.max (ticks a)) 0 l.

Lemma waiting_none l t : 0 ≤ t → waiting l t = 0 ↔ latest l ≤ t.
Proof.
  intros Ht. induction l as [|a l IH]; [cbn; by split|].
  rewrite waiting_cons. cbn. pose proof (waiting_bound l t). unfold latest in IH.
  destruct (Z.ltb_spec t (ticks a)); lia.
Qed.

Lemma latest_int l : Forall (λ a, INT_MIN < latency a ≤ INT_MAX) l → 0 ≤ latest l ≤ INT_MAX.
Proof.
  induction 1 as [|a l Ha _ IH]; cbn; [by consts|]. unfold latest, ticks in *. consts. lia.
Qed.

Lemma latest_pos l : l ≠ [] → 0 < latest l.
Proof.
  destruct l as [|a l]; [done|]. intros _. cbn. unfold ticks. lia.
Qed.

(** A request that is in flight loses a tick; the others do not change. *)
Lemma tick_request a t :
  0 ≤ t → INT_MIN < latency a ≤ INT_MAX → tick_one (request a t) = Some (request a (t + 1)).
Proof.
  intros Ht Hl. unfold tick_one, request, ticks. cbn [active ticks_left].
  destruct (Z.ltb_spec t (Z.max 1 (latency a))) as [Hlt|Hge]; cbn [Z.eqb].
  - rewrite cadd_ok by (consts; lia). cbn. f_equal. f_equal; [|lia].
    destruct (Z.leb_spec (latency a - Z.min t (Z.max 1 (latency a)) + -1) 0),
      (Z.ltb_spec (t + 1) (Z.max 1 (latency a))); try done; lia.
  - do 2 f_equal; [|lia]. destruct (Z.ltb_spec (t + 1) (Z.max 1 (latency a))); [lia|done].
Qed.

(** A submission takes the next free slot. *)
Lemma submit_next i q k r :
  Forall (λ s, active s ≠ 0) q →
  submit_from i (q ++ replicate (S k) idle) r = (q ++ r :: replicate k idle, Z.of_nat (i + length q)).
Proof.
  intros Hq. revert i. induction Hq as [|s q Hs _ IH]; intros i; cbn [app submit_from].
  - cbn. do 2 f_equal. lia.
  - rewrite (proj2 (Z.eqb_neq _ _)), IH by done. cbn. do 2 f_equal. lia.
Qed.

End requests.

Section workload.
Context `{Asymmetric}.
Variable args : list worker_args_t.
Hypothesis args_max : (length args ≤ MAX_OPS)%nat.
Hypothesis args_int : Forall (λ a, INT_MIN < latency a ≤ INT_MAX) args.
Local Instance workload_code : ACode point mem := async_code args.
Implicit Types (a : worker_args_t) (t : Z) (T : gmap (option ptr) point).

(** The tick at which the last request is complete. *)
Definition last_tick : Z := latest args.

(** The table at tick [t], once the first [j] workers have submitted. *)
Definition table (j : nat) t : list io_request_t :=
  ((λ a, request a t) <$> take j args) ++ replicate (MAX_OPS - j) idle.

Lemma table_lookup j t i a :
  (i < j)%nat → args !! i = Some a → zlookup (table j t) (Z.of_nat i) = Some (request a t).
Proof.
  intros Hi Ha. rewrite zlookup_nat. unfold table. apply lookup_app_l_Some.
  by rewrite list_lookup_fmap, lookup_take_lt, Ha.
Qed.

Lemma tick_table t m :
  0 ≤ t < INT_MAX → m = Mem (table (length args) t) t (printed m) →
  io_tick m = Some (Mem (table (length args) (t + 1)) (t + 1) (printed m)).
Proof.
  intros Ht ->. unfold io_tick. cbn [io_queue global_tick printed].
  assert (mapM (M := option) tick_one (table (length args) t) = Some (table (length args) (t + 1))) as ->.
  { apply mapM_Some_2. unfold table. rewrite take_ge by lia. apply Forall2_app.
    - apply Forall2_fmap_2, Forall_Forall2_diag. eapply Forall_impl; [exact args_int|].
      intros a Ha. apply tick_request; [lia|done].
    - by apply Forall2_replicate. }
  cbn. by rewrite cadd_ok by (consts; lia).
Qed.

Lemma submit_table j a :
  args !! j = Some a →
  submit_from 0 (table j 0) (request a 0) = (table (S j) 0, Z.of_nat j).
Proof.
  intros Ha. apply lookup_lt_Some in Ha as Hj. unfold table.
  replace (MAX_OPS - j)%nat with (S (MAX_OPS - S j)) by (unfold MAX_OPS in *; lia).
  rewrite submit_next.
  - rewrite (take_S_r _ _ _ Ha), fmap_app, <- app_assoc, length_fmap, length_take.
    cbn. do 2 f_equal. lia.
  - apply Forall_fmap, Forall_true. intros b. cbn. unfold ticks.
    destruct (Z.ltb_spec 0 (Z.max 1 (latency b))); lia.
Qed.

(** *** The threads *)

Section workers.
Variable hs : list ptr.
Variable X : gset ptr.
Hypothesis hs_length : length hs = length args.
Hypothesis hs_nodup : NoDup hs.
Hypothesis hs_in : ∀ h, h ∈ hs → h ∈ X.

(** Worker [i] is where [st] says. *)
Definition workers_at (st : nat → worker_args_t → option point) T : Prop :=
  ∀ i h a, hs !! i = Some h → args !! i = Some a → T !! Some h = st i a.

Lemma workers_main st T x : workers_at st T → workers_at st (<[None := x]> T).
Proof using. intros HT i h a Hh Ha. rewrite lookup_insert_ne by done. eauto. Qed.

Lemma workers_put st T j h x :
  workers_at st T → hs !! j = Some h →
  workers_at (λ i a, if decide (i = j) then Some x else st i a) (<[Some h := x]> T).
Proof.
  intros HT Hj i h' a Hi Ha. case_decide as Hij; subst.
  - assert (h' = h) as -> by congruence. apply lookup_insert_eq.
  - rewrite lookup_insert_ne; [eauto|]. intros [= <-]. by apply Hij; eapply NoDup_lookup.
Qed.

Lemma workers_drop st T j h :
  workers_at st T → hs !! j = Some h →
  workers_at (λ i a, if decide (i = j) then None else st i a) (delete (Some h) T).
Proof.
  intros HT Hj i h' a Hi Ha. case_decide as Hij; subst.
  - assert (h' = h) as -> by congruence. apply lookup_delete_eq.
  - rewrite lookup_delete_ne; [eauto|]. intros [= <-]. by apply Hij; eapply NoDup_lookup.
Qed.

Lemma workers_ext st st' T :
  workers_at st T → (∀ i a, args !! i = Some a → st i a = st' i a) → workers_at st' T.
Proof using. intros HT He i h a Hi Ha. rewrite <- He by done. eauto. Qed.

(** In the round of tick [t], once the workers before [j] have had their
    turn. *)
Definition in_round t (j i : nat) a : option point :=
  if (if (i <? j)%nat then t <? ticks a else t <=? ticks a)
  then Some (WLoop i (Z.of_nat i) 0) else None.
Definition in_first (j i : nat) a : option point :=
  if (i <? j)%nat then Some (WLoop i (Z.of_nat i) 0) else Some (WStart i).

Lemma in_round_next t j i a :
  i ≠ j → in_round t j i a = in_round t (S j) i a.
Proof.
  intros Hij. unfold in_round. destruct (Nat.ltb_spec i j), (Nat.ltb_spec i (S j)); first [done|lia].
Qed.

Lemma worker_here j : (j < length args)%nat →
  ∃ h a, hs !! j = Some h ∧ args !! j = Some a ∧ drop j hs = h :: drop (S j) hs
    ∧ drop j args = a :: drop (S j) args ∧ h ∈ X.
Proof.
  intros Hj. destruct (lookup_lt_is_Some_2 args j) as [a Ha]; [done|].
  destruct (lookup_lt_is_Some_2 hs j) as [h Hh]; [lia|]. exists h, a.
  split_and!; [done..| | |apply hs_in; by eapply list_elem_of_lookup_2]; by apply drop_S.
Qed.

(** What a worker does at its loop, at tick [t]. *)
Lemma wait_at i a t pr :
  args !! i = Some a → 0 ≤ t ≤ INT_MAX → t ≤ ticks a →
  wait_loop args i (Z.of_nat i) 0 (Mem (table (length args) t) t pr)
  = Some (if t <? ticks a
          then (Mem (table (length args) t) t pr, AYield (WLoop i (Z.of_nat i) 0))
          else (Mem (table (length args) t) t (pr ++ [Complete (id a) (op a) (size a) t]), AReturn)).
Proof.
  intros Ha Ht Hle. apply lookup_lt_Some in Ha as Hi. unfold wait_loop, io_done, arr_get. cbn [io_queue].
  rewrite (table_lookup _ _ _ _ Hi Ha). cbn [mbind option_bind request active].
  destruct (t <? ticks a); cbn; [done|]. rewrite Ha. cbn. rewrite cadd_ok by (consts; lia). cbn.
  unfold say. cbn. do 3 f_equal. do 2 f_equal. f_equal. lia.
Qed.

(** One turn of the [for] loop, at tick [t]; then all of them. *)
Lemma turn_leads t j n T pr Q h a rest :
  0 ≤ t ≤ INT_MAX → 0 ≤ n ≤ Z.of_nat j → (j < length args)%nat →
  hs !! j = Some h → args !! j = Some a → h ∈ X →
  workers_at (in_round t j) T → T !! None = Some (MFor hs (h :: rest) n) →
  (∀ T', workers_at (in_round t (S j)) T' →
     T' !! None = Some (MFor hs rest (n + if t <? ticks a then 1 else 0)) →
     leads [] X T' (Mem (table (length args) t) t
       (pr ++ if decide (ticks a = t) then [Complete (id a) (op a) (size a) t] else [])) Q) →
  leads [] X T (Mem (table (length args) t) t pr) Q.
Proof.
  intros Ht Hn Hj Hh Ha Hx HT Hm Hnext.
  pose proof (HT _ _ _ Hh Ha) as Hhere. unfold in_round in Hhere. rewrite Nat.ltb_irrefl in Hhere.
  eapply leads_status; [exact Hm|done|]. unfold is_dead. rewrite Hhere. cbn [hd_error].
  destruct (Z.leb_spec t (ticks a)) as [Hle|Hgt]; cycle 1.
  { eapply leads_tau; [here|done|]. cbn [hd_error].
    specialize (Hnext (<[None := MFor hs rest n]> (<[None := MStatus hs rest h n true]> T))).
    rewrite (proj2 (Z.ltb_ge _ _)), Z.add_0_r, decide_False, app_nil_r in Hnext by lia.
    apply Hnext; [|apply lookup_insert_eq]. do 2 apply workers_main.
    eapply workers_ext; [exact HT|]. intros i b Hb. destruct (decide (i = j)) as [->|]; [|by apply in_round_next].
    assert (b = a) as -> by congruence. unfold in_round.
    rewrite Nat.ltb_irrefl, (proj2 (Nat.ltb_lt _ _)) by lia.
    by rewrite (proj2 (Z.leb_gt _ _)), (proj2 (Z.ltb_ge _ _)) by lia. }
  eapply leads_resume; [here|done|done|apply not_elem_of_nil|look; eauto|]. cbn [hd_error].
  assert (∀ T', workers_at (λ i b, if decide (i = j) then (if t <? ticks a then Some (WLoop j (Z.of_nat j) 0) else None)
                                   else in_round t j i b) T' → workers_at (in_round t (S j)) T') as Hext.
  { intros T' HT'. eapply workers_ext; [exact HT'|]. intros i b Hb. cbn beta. destruct (decide (i = j)) as [->|]; [|by apply in_round_next].
    assert (b = a) as -> by congruence. unfold in_round. by rewrite (proj2 (Nat.ltb_lt _ _)) by lia. }
  pose proof (wait_at j a t pr Ha Ht Hle) as Hw.
  destruct (Z.ltb_spec t (ticks a)) as [Hlt|Hge].
  - eapply leads_yield; [here|done|exact Hw|].
    eapply leads_status; [here|done|]. unfold is_dead. rewrite lookup_insert_eq. cbn [hd_error].
    eapply leads_tau; [here|cbn; by rewrite cadd_ok by (unfold MAX_OPS in *; consts; lia)|]. cbn [hd_error].
    rewrite decide_False, app_nil_r in Hnext by lia.
    apply Hnext; [|apply lookup_insert_eq]. do 2 apply workers_main. apply Hext, workers_put; [|done].
    by do 2 apply workers_main.
  - eapply leads_return; [here|done|exact Hw|].
    eapply leads_status; [here|done|]. unfold is_dead. rewrite lookup_delete_eq. cbn [hd_error].
    eapply leads_tau; [here|done|]. cbn [hd_error].
    rewrite decide_True, Z.add_0_r in Hnext by lia.
    apply Hnext; [|apply lookup_insert_eq]. do 2 apply workers_main. apply Hext, workers_drop; [|done].
    by do 2 apply workers_main.
Qed.

Lemma round_leads t k : 0 ≤ t ≤ INT_MAX → ∀ j n T pr Q,
  (j + k = length args)%nat → 0 ≤ n ≤ Z.of_nat j →
  workers_at (in_round t j) T → T !! None = Some (MFor hs (drop j hs) n) →
  (∀ T', workers_at (in_round t (length args)) T' →
     T' !! None = Some (MFor hs [] (n + waiting (drop j args) t)) →
     leads [] X T' (Mem (table (length args) t) t (pr ++ completions (drop j args) t)) Q) →
  leads [] X T (Mem (table (length args) t) t pr) Q.
Proof.
  intros Ht. induction k as [|k IH]; intros j n T pr Q Hj Hn HT Hm Hnext.
  - assert (j = length args) as -> by lia. rewrite (drop_ge hs) in Hm by lia. rewrite (drop_ge args) in Hnext by lia.
    unfold completions, waiting in Hnext. cbn in Hnext.
    rewrite Z.add_0_r, app_nil_r in Hnext. by apply Hnext.
  - destruct (worker_here j) as (h & a & Hh & Ha & Hd & Hda & Hx); [lia|]. rewrite Hd in Hm.
    eapply (turn_leads t j n); [done|done|lia|exact Hh|exact Ha|exact Hx|exact HT|exact Hm|].
    intros T' HT' Hm'. eapply (IH (S j)); [lia| |exact HT'|exact Hm'|].
    + destruct (t <? ticks a); lia.
    + intros T2 HT2 Hm2. rewrite <- app_assoc, <- completions_cons, <- Hda.
      apply Hnext; [done|]. rewrite Hm2, Hda, waiting_cons. do 2 f_equal. lia.
Qed.

(** The first round: the workers submit their requests. *)
Definition starting a : out := Starting (id a) (op a) (file a) (size a).

Lemma io_worker_starts j a pr :
  args !! j = Some a →
  io_worker args j (Mem (table j 0) 0 pr)
  = Some (Mem (table (S j) 0) 0 (pr ++ [starting a]), AYield (WLoop j (Z.of_nat j) 0)).
Proof.
  intros Ha. unfold io_worker. rewrite Ha. cbn [mbind option_bind]. unfold io_submit, say.
  cbn [io_queue global_tick printed].
  assert (Request 1 (op a) (file a) (size a) (latency a) (id a) = request a 0) as ->.
  { unfold request, ticks. rewrite (proj2 (Z.ltb_lt _ _)) by lia. f_equal. lia. }
  rewrite (submit_table _ _ Ha). rewrite (proj2 (Z.ltb_ge _ _)) by lia.
  unfold wait_loop, io_done, arr_get. cbn [io_queue global_tick].
  rewrite (table_lookup (S j) 0 j a) by (done || lia). cbn [mbind option_bind request active].
  by rewrite (proj2 (Z.ltb_lt 0 (ticks a))) by (unfold ticks; lia).
Qed.

Lemma first_leads k : ∀ j T pr Q,
  (j + k = length args)%nat →
  workers_at (in_first j) T → T !! None = Some (MFor hs (drop j hs) (Z.of_nat j)) →
  (∀ T', workers_at (in_first (length args)) T' →
     T' !! None = Some (MFor hs [] (Z.of_nat (length args))) →
     leads [] X T' (Mem (table (length args) 0) 0 (pr ++ (starting <$> drop j args))) Q) →
  leads [] X T (Mem (table j 0) 0 pr) Q.
Proof.
  induction k as [|k IH]; intros j T pr Q Hj HT Hm Hnext.
  - assert (j = length args) as -> by lia. rewrite (drop_ge hs) in Hm by lia.
    rewrite (drop_ge args) in Hnext by lia. cbn in Hnext. rewrite app_nil_r in Hnext. by apply Hnext.
  - destruct (worker_here j) as (h & a & Hh & Ha & Hd & Hda & Hx); [lia|]. rewrite Hd in Hm.
    pose proof (HT _ _ _ Hh Ha) as Hhere. unfold in_first in Hhere. rewrite Nat.ltb_irrefl in Hhere.
    eapply leads_status; [exact Hm|done|]. unfold is_dead. rewrite Hhere. cbn [hd_error].
    eapply leads_resume; [here|done|done|apply not_elem_of_nil|look; eauto|]. cbn [hd_error].
    eapply leads_yield; [here|done|by apply io_worker_starts|].
    eapply leads_status; [here|done|]. unfold is_dead. rewrite lookup_insert_eq. cbn [hd_error].
    eapply leads_tau; [here|cbn; by rewrite cadd_ok by (unfold MAX_OPS in *; consts; lia)|]. cbn [hd_error].
    eapply (IH (S j)); [lia| |look; do 2 f_equal; lia|].
    + eapply workers_ext; [do 2 apply workers_main; apply workers_put; [|exact Hh]; do 2 apply workers_main; exact HT|].
      intros i b _. cbn beta. unfold in_first.
      destruct (decide (i = j)) as [->|Hij]; [by rewrite (proj2 (Nat.ltb_lt _ _)) by lia|].
      destruct (Nat.ltb_spec i j), (Nat.ltb_spec i (S j)); first [done|lia].
    + intros T' HT' Hm'. rewrite <- app_assoc, Hda in *. by apply Hnext.
Qed.

(** *** The end *)

Definition final_output (s : lib * apool point mem) : Prop :=
  ap_threads s.2 !! None = None ∧ global_tick (ap_mem s.2) = last_tick
  ∧ printed (ap_mem s.2) = (starting <$> args)
      ++ concat (completions args <$> seqZ 1 last_tick) ++ [AllDone last_tick].

(** What is printed before the round of tick [t]. *)
Definition so_far t : list out := (starting <$> args) ++ concat (completions args <$> seqZ 1 (t - 1)).

Lemma so_far_next t : 1 ≤ t → so_far t ++ completions args t = so_far (t + 1).
Proof.
  intros Ht. unfold so_far. rewrite <- app_assoc. f_equal.
  replace (t + 1 - 1) with ((t - 1) + 1) by lia. rewrite seqZ_app, fmap_app, concat_app by lia.
  f_equal. replace (1 + (t - 1)) with t by lia. rewrite seqZ_cons by lia. cbn. by rewrite app_nil_r.
Qed.

Lemma for_ends n m : astep (MFor hs [] n) m = round_end hs n m.
Proof. done. Qed.

(** The rounds from tick [t] on. *)
Lemma rounds_lead k : ∀ t T,
  last_tick - t = Z.of_nat k → 1 ≤ t → last_tick ≤ INT_MAX →
  workers_at (in_round t 0) T → T !! None = Some (MDo hs) →
  leads [] X T (Mem (table (length args) t) t (so_far t)) final_output.
Proof.
  induction k as [|k IH]; intros t T Hk Ht Hmax HT Hm;
    (eapply leads_tau; [exact Hm|done|]); cbn [hd_error];
    (eapply (round_leads t (length args) ltac:(lia) 0 0); [done|lia|by apply workers_main|look; by rewrite drop_0|]);
    intros T' HT' Hm'; rewrite (drop_0 args), so_far_next by lia; rewrite (drop_0 args), Z.add_0_l in Hm'.
  - assert (waiting args t = 0) as Hw by (apply waiting_none; [lia|]; fold last_tick; lia).
    eapply leads_tau; [exact Hm'|rewrite for_ends; unfold round_end; by rewrite Hw|]. cbn [hd_error].
    eapply (leads_destroy_all MDestroy); [done|done|exact hs_nodup|exact hs_in|apply lookup_insert_eq|].
    intros s Hs Hms _. unfold final_output. rewrite Hms. split_and!; [done|cbn; lia|].
    cbn [say printed global_tick]. unfold so_far. rewrite <- app_assoc.
    assert (t = last_tick) as <- by lia. by replace (t + 1 - 1) with t by lia.
  - assert (waiting args t ≠ 0) as Hw by (rewrite waiting_none by lia; fold last_tick; lia).
    pose proof (waiting_bound args t).
    eapply leads_tau; [exact Hm'| |].
    { rewrite for_ends. unfold round_end. rewrite (proj2 (Z.ltb_lt _ _)) by lia. by rewrite (tick_table t) by (done || lia). }
    cbn [hd_error printed]. eapply IH; [lia|lia|done| |apply lookup_insert_eq].
    apply workers_main. eapply workers_ext; [exact HT'|]. intros i a Ha. unfold in_round.
    apply lookup_lt_Some in Ha. rewrite (proj2 (Nat.ltb_lt _ _)) by done. cbn [Nat.ltb Nat.leb].
    destruct (Z.ltb_spec t (ticks a)), (Z.leb_spec (t + 1) (ticks a)); first [done|lia].
Qed.

Lemma loop_leads T :
  workers_at (in_first 0) T → T !! None = Some (MDo hs) →
  leads [] X T mem0 final_output.
Proof.
  intros HT Hm. eapply leads_tau; [exact Hm|done|]. cbn [hd_error].
  change mem0 with (Mem (table 0 0) 0 []).
  eapply (first_leads (length args) 0); [done|by apply workers_main|look; by rewrite drop_0|].
  intros T' HT' Hm'. rewrite drop_0. cbn [app]. pose proof (latest_int _ args_int) as Hl. fold last_tick in Hl.
  destruct (decide (length args = 0%nat)) as [H0|H0].
  - apply nil_length_inv in H0 as Hnil.
    eapply leads_tau; [exact Hm'|rewrite for_ends, H0; done|]. cbn [hd_error].
    eapply (leads_destroy_all MDestroy); [done|done|exact hs_nodup|exact hs_in|apply lookup_insert_eq|].
    intros s Hs Hms _. unfold final_output. rewrite Hms.
    assert (last_tick = 0) as -> by (unfold last_tick; by rewrite Hnil). split_and!; [done..|].
    cbn. by rewrite Hnil.
  - eapply leads_tau; [exact Hm'| |].
    { rewrite for_ends. unfold round_end. rewrite (proj2 (Z.ltb_lt _ _)) by lia. by rewrite (tick_table 0) by (consts; done). }
    cbn [hd_error printed]. replace (0 + 1) with 1 by lia.
    assert (0 < last_tick) as Hpos.
    { apply latest_pos. intros Hnil. by rewrite Hnil in H0. }
    assert ((starting <$> args) = so_far 1) as -> by (unfold so_far; cbn; by rewrite app_nil_r).
    eapply (rounds_lead (Z.to_nat (last_tick - 1))); [lia|lia|lia| |apply lookup_insert_eq].
    apply workers_main. eapply workers_ext; [exact HT'|]. intros i a Ha. unfold in_round, in_first.
    apply lookup_lt_Some in Ha. rewrite (proj2 (Nat.ltb_lt _ _)) by done. cbn [Nat.ltb Nat.leb].
    unfold ticks. by rewrite (proj2 (Z.leb_le _ _)) by lia.
Qed.
End workers.

(** *** The whole demo *)

Lemma create_leads k : ∀ hs X T,
  (length hs + k = length args)%nat → stdpp.base.size X = length hs → room (length args) →
  NoDup hs → (∀ h, h ∈ hs → h ∈ X) → workers_at hs (in_first 0) T →
  T !! None = Some (MCreate (length hs) hs) → leads [] X T mem0 final_output.
Proof.
  induction k as [|k IH]; intros hs X T Hl HX Hroom Hnd Hin HT Hm.
  - eapply leads_tau; [exact Hm|cbn [astep workload_code async_code main]; by rewrite (proj2 (Nat.ltb_ge _ _)) by lia|]. cbn [hd_error].
    apply (loop_leads hs); [lia|done|done| |apply lookup_insert_eq]. by apply workers_main.
  - eapply leads_create; [exact Hm|cbn [astep workload_code async_code main]; by rewrite (proj2 (Nat.ltb_lt _ _)) by lia|exact Hroom|lia|].
    intros p Hp Hf Hs. cbn [hd_error]. eapply (IH (hs ++ [p])).
    + rewrite length_app. cbn. lia.
    + rewrite Hs, length_app. cbn. lia.
    + done.
    + apply NoDup_app. split_and!; [done| |apply NoDup_singleton].
      intros h Hh ->%list_elem_of_singleton. by apply Hf, Hin.
    + intros h [Hh| ->%list_elem_of_singleton]%elem_of_app; [apply elem_of_union_r; by apply Hin|member].
    + intros i h a [Hi|[Hge Hi]]%lookup_app_Some Ha.
      * rewrite lookup_insert_ne; [|intros [= ->]; by eapply Hf, Hin, list_elem_of_lookup_2].
        rewrite lookup_insert_ne by done. by apply (HT i h a).
      * apply list_lookup_singleton_Some in Hi as [Hz ->]. rewrite lookup_insert_eq.
        unfold in_first. cbn. do 2 f_equal. lia.
    + look. by rewrite length_app, Nat.add_1_r.
Qed.

(** C32: the asynchronous I/O demo, on a library that resumes as its comments
    say, for any workload of up to [MAX_OPS] workers: all complete, each at the
    tick its latency says (at least one), those of one tick in order; main ends
    when the last has completed and the clock then shows the largest
    latency. *)
Theorem async_io_outcome :
  room (length args) →
  ∃ s, reaches (lib0, start_pool (MCreate 0 []) mem0) s
    ∧ ap_threads s.2 !! None = None ∧ global_tick (ap_mem s.2) = last_tick
    ∧ printed (ap_mem s.2) = (starting <$> args)
        ++ concat (completions args <$> seqZ 1 last_tick) ++ [AllDone last_tick].
Proof.
  intros Hroom. apply (leads_start (MCreate 0 []) mem0 final_output).
  apply (create_leads (length args) []); [done|by rewrite size_empty|done|by apply NoDup_nil_2
    |by intros h ?%not_elem_of_nil|by intros i h a ?|apply lookup_singleton_eq].
Qed.
End workload.

Lemma async_io_outcome_witness :
  ∃ s, reaches (H0 := async_code demo_args) (lib0, start_pool (MCreate 0 []) mem0) s
    ∧ ap_threads s.2 !! None = None ∧ global_tick (ap_mem s.2) = 3.
Proof.
  destruct (async_io_outcome demo_args) as (s & Hr & Ht & Hg & _).
  - by apply leb_complete.
  - by repeat constructor.
  - apply AsymmetricDemo.stack_room.
  - by exists s.
Defined.
End AsyncIO.
