(* ===== verification/Tests.v ===== *)
(** * The tests ([tests/test_pipeline.c], [test_stress.c], [test_basic.c],
      [test_edge_cases.c])

    Test programs of the library: what they check holds for every allocator as
    long as a program only creates, runs and then frees its coroutines; a test
    that goes on after [co_free] reads freed memory, whether the allocator
    reuses memory or not. *)

From stdpp Require Import gmap sorting.
From S2P Require Import Prelude Ring Machine State RunQueue Api Demo User Buffers.
From S2P Require Import Threads Progress ForkJoin Rounds.

(** ** An allocator that reuses memory *)

Module FirstFit.
(** The first gap of [n] bytes between the blocks, from [p] on. *)
Fixpoint gap (p n : Z) (bl : list (Z * Z)) : Z :=
  match bl with
  | [] => p
  | (q, m) :: bl => if p + n <=? q then p else gap (Z.max p (16 * ((q + m + 15) / 16))) n bl
  end.

Definition disjoint_from (p n : Z) (b : Z * Z) : bool := (p + n <=? b.1) || (b.1 + b.2 <=? p).

Definition by_address (a b : Z * Z) : Prop := a.1 ≤ b.1.
#[export] Instance by_address_dec : RelDecision by_address := λ a b, Z_le_dec a.1 b.1.

Definition first_fit (σ : ()) (bl : gmap ptr Z) (n : Z) : () * option ptr :=
  let blocks := map_to_list bl in
  let p := gap 0x10000 n (merge_sort by_address blocks) in
  if (0 <? p) && (p mod 16 =? 0) && (p + n <? 2 ^ 64) && forallb (disjoint_from p n) blocks
  then (σ, Some p) else (σ, None).

Definition allocator : Allocator.
Proof.
  refine {| alloc_state := (); alloc_block := first_fit |}.
  intros σ bl n σ' p Hn. unfold first_fit. destruct (_ && _) eqn:Hc; [|done]. intros [= _ <-].
  rewrite !andb_true_iff, Z.eqb_eq, !Z.ltb_lt in Hc. destruct Hc as [[[Hp Hm] Hr] Hd].
  split_and!; [done..|]. intros q m Hq. rewrite forallb_forall in Hd.
  specialize (Hd (q, m)). rewrite <- list_elem_of_In, elem_of_map_to_list in Hd. specialize (Hd Hq).
  unfold disjoint_from in Hd. apply orb_true_iff in Hd as [?%Z.leb_le|?%Z.leb_le]; cbn in *; lia.
Defined.
End FirstFit.

(** ** tests/test_pipeline.c *)

Module TestPipeline.
Definition N : Z := 20.
Definition RING_CAP : Z := 4.

Record Ring := MkRing { buf : list Z; head : Z; tail : Z; size : Z; done : bool }.
Definition ring_init : Ring := MkRing (replicate 4 0) 0 0 0 false.
Definition ring_full (r : Ring) : bool := size r =? RING_CAP.
Definition ring_empty (r : Ring) : bool := size r =? 0.
Definition set_done (r : Ring) : Ring := MkRing (buf r) (head r) (tail r) (size r) true.

(** The assertions, and the indices in their bounds; else no answer. *)
Definition ring_push (v : Z) (r : Ring) : option Ring :=
  if ring_full r then None
  else
    b ← arr_set (buf r) (tail r) v;
    t ← cadd (tail r) 1;
    n ← cadd (size r) 1;
    Some (MkRing b (head r) (Z.rem t RING_CAP) n (done r)).

Definition ring_pop (r : Ring) : option (Ring * Z) :=
  if ring_empty r then None
  else
    v ← arr_get (buf r) (head r);
    h ← cadd (head r) 1;
    n ← cadd (size r) (-1);
    Some (MkRing (buf r) (Z.rem h RING_CAP) (tail r) n (done r), v).

(** The rings [r1] and [r2], and [ca.sum]. *)
Record mem := Mem { r1 : Ring; r2 : Ring; sum : Z }.

(** [producer]: the loop condition and the inner loop; [squarer]: its loop,
    and with a value in hand; [consumer]. *)
Inductive point : Set := PFor (i : Z) | PFull (i : Z) | SLoop | SFull (v : Z) | CLoop.

Definition producer_push (i : Z) (m : mem) : option (mem * ucall point) :=
  if ring_full (r1 m) then Some (m, UYield (PFull i))
  else
    r ← ring_push i (r1 m);
    i' ← cadd i 1;
    Some (Mem r (r2 m) (sum m), UYield (PFor i')).

Definition squarer_push (v : Z) (m : mem) : option (mem * ucall point) :=
  if ring_full (r2 m) then Some (m, UYield (SFull v))
  else
    v2 ← (if in_int (v * v) then Some (v * v) else None);
    r ← ring_push v2 (r2 m);
    Some (Mem (r1 m) r (sum m), UYield SLoop).

Definition step_point (l : point) (m : mem) : option (mem * ucall point) :=
  match l with
  | PFor i =>
      if i <=? N then producer_push i m
      else Some (Mem (set_done (r1 m)) (r2 m) (sum m), UReturn)
  | PFull i => producer_push i m
  | SLoop =>
      if ring_empty (r1 m) then
        if done (r1 m) then Some (Mem (r1 m) (set_done (r2 m)) (sum m), UReturn)
        else Some (m, UYield SLoop)
      else
        '(r, v) ← ring_pop (r1 m);
        squarer_push v (Mem r (r2 m) (sum m))
  | SFull v => squarer_push v m
  | CLoop =>
      if ring_empty (r2 m) then
        if done (r2 m) then Some (m, UReturn) else Some (m, UYield CLoop)
      else
        '(r, v) ← ring_pop (r2 m);
        s ← ladd (sum m) v;
        Some (Mem (r1 m) r s, UYield CLoop)
  end.

#[export] Instance bodies : Bodies point (option mem) := {|
  body_step l := run_body (step_point l);
  body_fn fn _ := if fn =? 1 then PFor 1 else if fn =? 2 then SLoop else CLoop
|}.

#[export] Instance test_pipeline_yields : YieldBodies point (option mem).
Proof.
  intros l u. apply run_body_yields. intros m m' c Hs.
  destruct l; cbn in Hs; unfold producer_push, squarer_push in Hs; body_calls.
Qed.

(** main: it does not check what [co_create] returns. *)
Definition main : fj_point → ucall fj_point := fork_join_with Never 0 true.
Definition todo : list (ptr * ptr) := [(1, NULL); (2, NULL); (3, NULL)].
Definition mem0 : mem := Mem ring_init ring_init 0.
Definition expected : Z := N * (N + 1) * (2 * N + 1) / 6.

Lemma pipeline_turns : ∃ m, round_robin 90 (starts todo) (Some mem0) = Some (Some m) ∧ sum m = expected.
Proof. eexists. split; [by vm_compute|done]. Qed.

(** [test_pipeline] passes, for any allocator that refuses none of the three
    creations: it ends, and the sum is that of the squares up to 20. *)
Theorem test_pipeline_passes `{Allocator, LinkMap} (σ : alloc_state) fuel :
  let w0 := init_world σ (Some mem0) (inl (FCreate todo [])) in
  let code := program main in
  1000 ≤ Z.of_nat fuel → ¬ refused_in w0 →
  match exec fuel w0 with
  | Finished w => sum <$> w_user w = Some expected
  | _ => False
  end.
Proof.
  intros w0 code Hf Hr. destruct pipeline_turns as (m & Hm & Hs).
  pose proof (rounds_total (R := refused_in w0) Never 0 true todo (Some mem0)
    ltac:(by right) size_default ltac:(by consts) ltac:(by repeat constructor)
    σ 90 (Some m) fuel (λ H, H) Hm ltac:(cbn; lia)) as Ht.
  unfold w0, code, main. destruct (exec fuel _) as [w|e|w]; [|done..].
  destruct Ht as [[Href _]|Ht]; [by destruct (Hr Href)|]. rewrite Ht. cbn. by rewrite Hs.
Qed.
End TestPipeline.

(** ** Tests as lists of instructions

    The mains of the other tests are straight-line code; [coroutine.h] calls go
    to the library, [CHECK] and the final [assert]s record whether they hold. *)

Module Harness.
Record tmem (V : Type) := TMem { handles : list ptr; failures : nat; vars : V }.
Arguments TMem {V} _ _ _.
Arguments handles {V} _.
Arguments failures {V} _.
Arguments vars {V} _.

(** [ICreate fn size arg]: the argument may be a handle; coroutines are named by the
    order of their creation. *)
Inductive instr (V : Type) : Type :=
| ICreate (fn : ptr) (size : Z) (arg : list ptr → ptr)
| IRun
| ISet (f : V → V)
| ICheck (b : V → bool)
| ICheckState (i : nat) (s : CoState)
| ICheckId (b : Z → bool)
| IFree (i : nat)
| IBound (p : ptr)
| IResult (b : bool).
Arguments ICreate {V} fn size arg.
Arguments IRun {V}.
Arguments ISet {V} f.
Arguments ICheck {V} b.
Arguments ICheckState {V} i s.
Arguments ICheckId {V} b.
Arguments IFree {V} i.
Arguments IBound {V} p.
Arguments IResult {V} b.

Definition nth_handle {V} (m : tmem V) (i : nat) : ptr := nth i (handles m) NULL.
Definition set_vars {V} (f : V → V) (m : tmem V) : tmem V := TMem (handles m) (failures m) (f (vars m)).
Definition check {V} (b : bool) (m : tmem V) : tmem V :=
  if b then m else TMem (handles m) (S (failures m)) (vars m).

Section main.
Context {V L : Type} `{Bodies L (tmem V)}.

Definition main_step (l : list (instr V)) (m : tmem V) : ucall (list (instr V)) * tmem V :=
  match l with
  | [] => (UReturn, m)
  | ICreate fn size arg :: l => (UCreate fn (arg (handles m)) size (λ p, IBound p :: l), m)
  | IBound p :: l => (UTau l, TMem (handles m ++ [p]) (failures m) (vars m))
  | IRun :: l => (URun l, m)
  | ISet f :: l => (UTau l, set_vars f m)
  | ICheck b :: l => (UTau l, check (b (vars m)) m)
  | ICheckState i s :: l => (UState (nth_handle m i) (λ s', IResult (bool_decide (s' = s)) :: l), m)
  | ICheckId b :: l => (UId (λ i, IResult (b i) :: l), m)
  | IResult b :: l => (UTau l, check b m)
  | IFree i :: l => (UFree (nth_handle m i) l, m)
  end.

Definition test : UserCode (list (instr V) + L) (tmem V) := {|
  ustep x m := match x with
               | inl l => let '(c, m) := main_step l m in (ucall_map inl c, m)
               | inr l => let '(c, m) := body_step l m in (ucall_map inr c, m)
               end;
  ufn fn arg := inr (body_fn fn arg)
|}.

#[local] Existing Instance MachineDemo.link.

(** How a run ends: with the number of failed checks, or with an error. *)
Definition verdict `{Allocator} (σ : alloc_state) (v : V) (main : list (instr V)) : option (result error nat) :=
  match exec (H1 := test) (Z.to_nat 100000) (init_world σ (TMem [] 0 v) (inl main)) with
  | Finished w => Some (Ok (failures (w_user w)))
  | Crashed e => Some (Err e)
  | OutOfFuel _ => None
  end.

Definition reads_freed (r : option (result error nat)) : bool :=
  match r with Some (Err (BadDeref _)) => true | _ => false end.

(** With memory that is never reused, and with memory that is reused at once. *)
Definition fresh_memory v main := verdict (H0 := bump_allocator) heap0 v main.
Definition reused_memory v main := verdict (H0 := FirstFit.allocator) () v main.
End main.
End Harness.

(** ** tests/test_stress.c *)

Module ManyYields.
(** [prng_next], on 32 bits. *)
Definition prng_next (s : Z) : Z :=
  let wrap32 z := z mod 2 ^ 32 in
  let s := Z.lxor s (wrap32 (Z.shiftl s 13)) in
  let s := Z.lxor s (Z.shiftr s 17) in
  Z.lxor s (wrap32 (Z.shiftl s 5)).
Definition T1_N : nat := 200.
Definition T1_MAX_K : Z := 10.
Definition T1_BODY : ptr := 1.

(** The numbers of yields of the [n] coroutines. *)
Fixpoint yields_from (s : Z) (n : nat) : list Z :=
  match n with
  | O => []
  | S n => let s := prng_next s in s mod (T1_MAX_K + 1) :: yields_from s n
  end.
Definition todo : list (ptr * ptr) := (λ k, (T1_BODY, k)) <$> yields_from 0xdeadbeef T1_N.

(** [t1_body] at its loop condition; [t1_counter] is the memory. *)
Inductive point : Set := T1For (k i : Z).

Definition t1_body (l : point) (t1_counter : Z) : ucall point * Z :=
  match l with
  | T1For k i => if i <? k then (UYield (T1For k (i + 1)), t1_counter) else (UReturn, t1_counter + 1)
  end.

#[export] Instance bodies : Bodies point Z := {| body_step := t1_body; body_fn _ arg := T1For arg 0 |}.

#[export] Instance many_yields_yields : YieldBodies point Z.
Proof. intros [k i] c. cbn. by destruct (i <? k). Qed.

Definition test_many_yields : fj_point → ucall fj_point := fork_join_with Never 0 true.

Lemma many_turns : round_robin 2000 (starts todo) 0 = Some (Z.of_nat T1_N).
Proof. by vm_compute. Qed.

Lemma todo_ok : Forall (λ t, t.1 ≠ NULL) todo.
Proof. apply Forall_fmap, Forall_forall. by intros. Qed.

(** [test_many_yields] passes, for any allocator that refuses none of the 200
    creations: it ends, and every coroutine has counted. *)
Theorem many_yields_pass `{Allocator, LinkMap} (σ : alloc_state) fuel :
  let w0 := init_world σ 0 (inl (FCreate todo [])) in
  let code := program test_many_yields in
  25000 ≤ Z.of_nat fuel → ¬ refused_in w0 →
  match exec fuel w0 with
  | Finished w => w_user w = Z.of_nat T1_N
  | _ => False
  end.
Proof.
  intros w0 code Hf Hr.
  assert (length todo = 200%nat) as Hn by by vm_compute.
  pose proof (rounds_total (R := refused_in w0) Never 0 true todo 0
    ltac:(by right) size_default ltac:(rewrite Hn; consts; lia) todo_ok
    σ 2000 (Z.of_nat T1_N) fuel (λ H, H) many_turns ltac:(rewrite Hn; lia)) as Ht.
  unfold w0, code, test_many_yields. destruct (exec fuel _) as [w|e|w]; [|done..].
  by destruct Ht as [[Href _]|Ht]; [destruct (Hr Href)|].
Qed.
End ManyYields.

Module AwaitChainTest.
Import Harness.

Definition T2_CHAIN : nat := 32.
Definition T2_BODY : ptr := 1.

(** [t2_done]; the coroutines of the chain are created from the last to the
    first. *)
Abbreviation vars := (list Z).

Inductive point : Set :=
| T2Start (idx : nat) | T2Check (idx j : nat) | T2Checked (idx j : nat) (s : CoState).

(** [a->chain\[j\]] *)
Definition chain_at (m : tmem vars) (j : nat) : ptr := nth_handle m (T2_CHAIN - 1 - j).

Definition finish (idx : nat) (m : tmem vars) : tmem vars := set_vars (λ v, <[idx := 1]> v) m.

Definition step_point (l : point) (m : tmem vars) : ucall point * tmem vars :=
  match l with
  | T2Start idx =>
      if (S idx <? T2_CHAIN)%nat then (UAwait (chain_at m (S idx)) (T2Check idx (S idx)), m)
      else (UReturn, finish idx m)
  | T2Check idx j =>
      if (j <? T2_CHAIN)%nat then (UState (chain_at m j) (T2Checked idx j), m)
      else (UReturn, finish idx m)
  | T2Checked idx j s => (UTau (T2Check idx (S j)), check (bool_decide (s = CO_DONE)) m)
  end.

#[export] Instance bodies : Bodies point (tmem vars) := {|
  body_step := step_point;
  body_fn _ arg := T2Start (Z.to_nat arg)
|}.

Definition test_await_chain : list (instr vars) :=
  ((λ i, ICreate T2_BODY 0 (λ _, Z.of_nat i)) <$> reverse (seq 0 T2_CHAIN)) ++ [IRun]
  ++ [ICheck (λ v, forallb (Z.eqb 1) v)]
  ++ ((λ i, IFree (T2_CHAIN - 1 - i)) <$> seq 0 T2_CHAIN).

(** The test passes when it is run alone. *)
Example await_chain_alone :
  fresh_memory (replicate T2_CHAIN 0) test_await_chain = Some (Ok 0%nat).
Proof. by vm_compute. Qed.
End AwaitChainTest.

(** ** tests/test_basic.c *)

Module TestBasic.
Import Harness.

Record vars := Vars {
  ran_once : Z; id_a : Z; id_b : Z; seq_ : list Z; seq_pos : Z; await_result : Z;
  already_done_count : Z; arg_received : Z; many_count : Z
}.
Definition vars0 : vars := Vars 0 0 0 (replicate 6 0) 0 0 0 0 0.
Definition SEQ_LEN : nat := 6.
Definition MANY : nat := 64.

Definition fn_run_once : ptr := 1.
Definition fn_id : ptr := 2.
Definition fn_even : ptr := 3.
Definition fn_odd : ptr := 4.
Definition fn_producer : ptr := 5.
Definition fn_consumer : ptr := 6.
Definition fn_quick : ptr := 7.
Definition fn_waits_on_done : ptr := 8.
Definition fn_arg : ptr := 9.
Definition fn_many : ptr := 10.

(** The bodies; [body_even] and [body_odd] at their loop condition. *)
Inductive point : Set :=
| RunOnce | Id (a : Z) | IdKnown (a i : Z) | Seq (x : Z) (i : nat)
| Producer | ProducerYielded | Consumer (prod : ptr) | Quick | WaitsOnDone (p : ptr) | Waited
| Arg (v : Z) | Many | ManyYielded | End.

Definition set_ran (v : vars) : vars :=
  Vars 1 (id_a v) (id_b v) (seq_ v) (seq_pos v) (await_result v) (already_done_count v) (arg_received v) (many_count v).
(** [*(int * )arg = i], [arg] being [&id_a] (1) or [&id_b] (2). *)
Definition set_id (a i : Z) (v : vars) : vars :=
  Vars (ran_once v) (if a =? 1 then i else id_a v) (if a =? 1 then id_b v else i) (seq_ v) (seq_pos v)
    (await_result v) (already_done_count v) (arg_received v) (many_count v).
Definition set_seq (s : list Z) (n : Z) (v : vars) : vars :=
  Vars (ran_once v) (id_a v) (id_b v) s n (await_result v) (already_done_count v) (arg_received v) (many_count v).
Definition set_await (r : Z) (v : vars) : vars :=
  Vars (ran_once v) (id_a v) (id_b v) (seq_ v) (seq_pos v) r (already_done_count v) (arg_received v) (many_count v).
Definition set_done_count (n : Z) (v : vars) : vars :=
  Vars (ran_once v) (id_a v) (id_b v) (seq_ v) (seq_pos v) (await_result v) n (arg_received v) (many_count v).
Definition set_arg (n : Z) (v : vars) : vars :=
  Vars (ran_once v) (id_a v) (id_b v) (seq_ v) (seq_pos v) (await_result v) (already_done_count v) n (many_count v).
Definition set_many (n : Z) (v : vars) : vars :=
  Vars (ran_once v) (id_a v) (id_b v) (seq_ v) (seq_pos v) (await_result v) (already_done_count v) (arg_received v) n.

Definition step_point (l : point) (m : tmem vars) : ucall point * tmem vars :=
  match l with
  | RunOnce => (UReturn, set_vars set_ran m)
  | Id a => (UId (IdKnown a), m)
  | IdKnown a i => (UReturn, set_vars (set_id a i) m)
  | Seq x i =>
      if (i <? 3)%nat then
        (UYield (Seq x (S i)),
         set_vars (λ v, set_seq (zinsert (seq_pos v) x (seq_ v)) (seq_pos v + 1) v) m)
      else (UReturn, m)
  | Producer => (UYield ProducerYielded, m)
  | ProducerYielded => (UReturn, set_vars (set_await 42) m)
  | Consumer prod => (UAwait prod End, m)
  | Quick | End => (UReturn, m)
  | WaitsOnDone p => (UAwait p Waited, m)
  | Waited => (UReturn, set_vars (λ v, set_done_count (already_done_count v + 1) v) m)
  | Arg v => (UReturn, set_vars (set_arg v) m)
  | Many => (UYield ManyYielded, m)
  | ManyYielded => (UReturn, set_vars (λ v, set_many (many_count v + 1) v) m)
  end.

#[export] Instance bodies : Bodies point (tmem vars) := {|
  body_step := step_point;
  body_fn fn arg :=
    if fn =? fn_run_once then RunOnce else if fn =? fn_id then Id arg
    else if fn =? fn_even then Seq 0 0 else if fn =? fn_odd then Seq 1 0
    else if fn =? fn_producer then Producer else if fn =? fn_consumer then Consumer arg
    else if fn =? fn_quick then Quick else if fn =? fn_waits_on_done then WaitsOnDone arg
    else if fn =? fn_arg then Arg arg else Many
|}.

(** The tests; [k] coroutines have been created before. *)
Definition create (fn : ptr) (arg : Z) : instr vars := ICreate fn 0 (λ _, arg).
Definition create_with (fn : ptr) (i : nat) : instr vars := ICreate fn 0 (λ hs, nth i hs NULL).

Definition test_id_outside : list (instr vars) := [ICheckId (λ i, i =? 0)].
Definition test_run_once (k : nat) : list (instr vars) :=
  [ISet (λ v, Vars 0 (id_a v) (id_b v) (seq_ v) (seq_pos v) (await_result v) (already_done_count v)
                (arg_received v) (many_count v));
   create fn_run_once NULL; IRun; ICheck (λ v, ran_once v =? 1); ICheckState k CO_DONE; IFree k].
Definition test_co_id (k : nat) : list (instr vars) :=
  [create fn_id 1; create fn_id 2; IRun; ICheck (λ v, 0 <? id_a v); ICheck (λ v, 0 <? id_b v);
   ICheck (λ v, negb (id_a v =? id_b v)); IFree k; IFree (k + 1)].
Definition test_yield_interleave (k : nat) : list (instr vars) :=
  [ISet (set_seq (replicate SEQ_LEN (-1)) 0); create fn_even NULL; create fn_odd NULL; IRun;
   ICheck (λ v, bool_decide (seq_ v = [0; 1; 0; 1; 0; 1]));
   ICheck (λ v, seq_pos v =? Z.of_nat SEQ_LEN); IFree k; IFree (k + 1)].
Definition test_arg_passing (k : nat) : list (instr vars) :=
  [create fn_arg 1337; IRun; ICheck (λ v, arg_received v =? 1337); IFree k].
Definition test_await (k : nat) : list (instr vars) :=
  [ISet (set_await 0); create fn_producer NULL; create_with fn_consumer k; IRun;
   ICheck (λ v, await_result v =? 42); ICheckState k CO_DONE; ICheckState (k + 1) CO_DONE;
   IFree k; IFree (k + 1)].
Definition test_await_already_done (k : nat) : list (instr vars) :=
  [ISet (set_done_count 0); create fn_quick NULL; create_with fn_waits_on_done k; IRun;
   ICheck (λ v, already_done_count v =? 1); ICheckState (k + 1) CO_DONE; IFree k; IFree (k + 1)].
Definition test_many (k : nat) : list (instr vars) :=
  ISet (set_many 0) :: replicate MANY (create fn_many NULL) ++ [IRun]
  ++ [ICheck (λ v, many_count v =? Z.of_nat MANY)] ++ ((λ i, IFree (k + i)%nat) <$> seq 0 MANY).

Definition main : list (instr vars) :=
  test_id_outside ++ test_run_once 0 ++ test_co_id 1 ++ test_yield_interleave 3
  ++ test_arg_passing 5 ++ test_await 6 ++ test_await_already_done 8 ++ test_many 10.

Definition alone (t : list (instr vars)) : bool :=
  bool_decide (fresh_memory vars0 t = Some (Ok 0%nat)).

(** Each test passes when it is run alone. *)
Example basic_alone :
  forallb alone [test_id_outside; test_run_once 0; test_co_id 0; test_yield_interleave 0;
                 test_arg_passing 0; test_await 0; test_await_already_done 0; test_many 0] = true.
Proof. by vm_compute. Qed.

(** main reads a freed coroutine: at the end of the first coroutine of
    [test_co_id] if memory is not reused; when it is, not before
    [test_arg_passing], whose only coroutine cannot take the place of the two
    freed by [test_yield_interleave]. *)
Theorem basic_reads_freed :
  reads_freed (fresh_memory vars0 (test_id_outside ++ test_run_once 0 ++ test_co_id 1)) = true
  ∧ reads_freed (fresh_memory vars0 main) = true
  ∧ reused_memory vars0 (test_id_outside ++ test_run_once 0 ++ test_co_id 1 ++ test_yield_interleave 3)
    = Some (Ok 0%nat)
  ∧ reads_freed (reused_memory vars0 (test_id_outside ++ test_run_once 0 ++ test_co_id 1
      ++ test_yield_interleave 3 ++ test_arg_passing 5)) = true
  ∧ reads_freed (reused_memory vars0 main) = true.
Proof. split_and!; by vm_compute. Qed.
End TestBasic.

(** ** tests/test_edge_cases.c *)

Module EdgeCases.
Import Harness.

(** The globals, and the locals whose addresses are passed, by their names. *)
Abbreviation vars := (gmap string Z).
Definition get (x : string) (v : vars) : Z := default 0 (v !! x).
Definition set (x : string) (z : Z) (v : vars) : vars := <[x := z]> v.
Definition BURST_COUNT : nat := 500.
Definition MAGIC_VAL : Z := 0xCAFEBABEDEADBEEF.

Definition fn_state_probe : ptr := 1.
Definition fn_done_early : ptr := 2.
Definition fn_awaiter : ptr := 3.
Definition fn_big_arg : ptr := 4.
Definition fn_no_yield : ptr := 5.
Definition fn_run_a : ptr := 6.
Definition fn_run_b : ptr := 7.
Definition fn_burst : ptr := 8.

(** [g_probe_co] is the first handle. *)
Inductive point : Set :=
| Probe | Probed (s : CoState) | DoneEarly | Awaiter (target : ptr) | Awaited | BigArg | NoYield
| RunA | RunB | RunYielded (x : string) | Burst | End.

Definition step_point (l : point) (m : tmem vars) : ucall point * tmem vars :=
  match l with
  | Probe => (UState (nth_handle m 0) Probed, m)
  | Probed s => (UYield End, set_vars (set "g_state_while_running" (CoState_val s)) m)
  | DoneEarly | End => (UReturn, m)
  | Awaiter target => (UAwait target Awaited, m)
  | Awaited => (UReturn, set_vars (set "g_awaiter_reached_end" 1) m)
  | BigArg =>
      (UYield End, set_vars (λ v, set "g_big_idx" (get "arg.idx" v)
                                    (set "g_big_magic" (get "arg.magic" v) v)) m)
  | NoYield => (UReturn, set_vars (set "g_no_yield_done" 1) m)
  | RunA => (UYield (RunYielded "g_run_a"), m)
  | RunB => (UYield (RunYielded "g_run_b"), m)
  | RunYielded x => (UReturn, set_vars (set x 1) m)
  | Burst => (UReturn, set_vars (λ v, set "counter" (get "counter" v + 1) v) m)
  end.

#[export] Instance bodies : Bodies point (tmem vars) := {|
  body_step := step_point;
  body_fn fn arg :=
    if fn =? fn_state_probe then Probe else if fn =? fn_done_early then DoneEarly
    else if fn =? fn_awaiter then Awaiter arg else if fn =? fn_big_arg then BigArg
    else if fn =? fn_no_yield then NoYield else if fn =? fn_run_a then RunA
    else if fn =? fn_run_b then RunB else Burst
|}.

Definition create (fn : ptr) : instr vars := ICreate fn 0 (λ _, NULL).
Definition expect (x : string) (z : Z) : instr vars := ICheck (λ v, get x v =? z).

Definition test_coid_outside : list (instr vars) := [ICheckId (λ i, i =? 0)].
Definition test_co_state_transitions (k : nat) : list (instr vars) :=
  [create fn_state_probe; ICheckState k CO_READY; IRun;
   expect "g_state_while_running" (CoState_val CO_RUNNING); ICheckState k CO_DONE; IFree k].
Definition test_await_already_done (k : nat) : list (instr vars) :=
  [create fn_done_early; IRun; ICheckState k CO_DONE; ISet (set "g_awaiter_reached_end" 0);
   ICreate fn_awaiter 0 (λ hs, nth k hs NULL); IRun; expect "g_awaiter_reached_end" 1;
   IFree k; IFree (k + 1)].
Definition test_large_arg (k : nat) : list (instr vars) :=
  [ISet (set "arg.magic" MAGIC_VAL); ISet (set "arg.idx" 99); create fn_big_arg; IRun;
   expect "g_big_magic" MAGIC_VAL; expect "g_big_idx" 99; IFree k].
Definition test_no_yield (k : nat) : list (instr vars) :=
  [ISet (set "g_no_yield_done" 0); create fn_no_yield; IRun; expect "g_no_yield_done" 1;
   ICheckState k CO_DONE; IFree k].
Definition test_multiple_runs (k : nat) : list (instr vars) :=
  [create fn_run_a; IRun; expect "g_run_a" 1; create fn_run_b; IRun; expect "g_run_b" 1; expect "g_run_a" 1;
   IFree k; IFree (k + 1)].
Definition test_burst_create_free (k : nat) : list (instr vars) :=
  replicate BURST_COUNT (create fn_burst) ++ [IRun]
  ++ (seq 0 BURST_COUNT ≫= λ i, [ICheckState (k + i) CO_DONE; IFree (k + i)])
  ++ [expect "counter" (Z.of_nat BURST_COUNT)].

Definition alone (t : list (instr vars)) : bool :=
  bool_decide (fresh_memory ∅ t = Some (Ok 0%nat)).

(** Each of the first six tests passes when it is run alone. *)
Example edge_cases_alone :
  forallb alone [test_coid_outside; test_co_state_transitions 0; test_await_already_done 0;
                 test_large_arg 0; test_no_yield 0; test_multiple_runs 0] = true.
Proof. by vm_compute. Qed.

Definition main : list (instr vars) :=
  test_coid_outside ++ test_co_state_transitions 0 ++ test_await_already_done 1
  ++ test_large_arg 3 ++ test_no_yield 4 ++ test_multiple_runs 5 ++ test_burst_create_free 7.

(** Together they read a freed coroutine, whether memory is reused or not. *)
Theorem edge_cases_read_freed :
  reads_freed (fresh_memory ∅ main) = true ∧ reads_freed (reused_memory ∅ main) = true.
Proof. split; by vm_compute. Qed.
End EdgeCases.
