(* ===== verification/YieldTests.v ===== *)
(** * The tests whose coroutines only yield ([tests/test_timer.c],
      [test_generator.c], [test_semaphore.c], [test_barrier.c],
      [test_scheduler.c], [test_fiber_pool.c])

    A test prepares its variables, creates coroutines, calls [co_run] and checks
    the variables.  test_timer and test_generator are programs in phases
    ([Phases]), the tests of test_semaphore and test_barrier programs that fork
    and join ([ForkJoin]): what they check holds for every allocator that
    refuses none of their creations; so do those of test_scheduler and
    test_fiber_pool, each in one of the two forms, but for the one that awaits
    and the one that frees a coroutine which has not run.  As a whole
    test_barrier, which frees after each of its tests, reads freed coroutines. *)

From stdpp Require Import gmap.
From S2P Require Import Prelude Ring Machine State RunQueue Api Demo User Buffers.
From S2P Require Import Threads Progress ForkJoin Rounds Phases Tests.

Module Suite.

(** The variables of a test: arrays of integers (a scalar has one element), by
    the name of the variable or field and the number of the object it belongs
    to; and how many checks have passed and failed.  An access outside an array
    is undefined behaviour. *)
Record mem := Mem { vars : gmap (string * Z) (list Z); passed : nat; failed : nat }.

Definition geti (x : string) (o i : Z) (m : mem) : option Z :=
  a ← vars m !! (x, o); arr_get a i.
Definition puti (x : string) (o i v : Z) (m : mem) : option mem :=
  a ← vars m !! (x, o); a ← arr_set a i v;
  Some (Mem (<[(x, o) := a]> (vars m)) (passed m) (failed m)).
Definition get (x : string) (o : Z) : mem → option Z := geti x o 0.
Definition put (x : string) (o v : Z) : mem → option mem := puti x o 0 v.
Definition incr (x : string) (o : Z) (m : mem) : option mem :=
  v ← get x o m; v ← cadd v 1; put x o v m.

(** A test: its variables, the size of the stacks, the coroutines it creates
    and its checks. *)
Record test := Test {
  setup : list ((string * Z) * list Z);
  size : Z;
  todo : list (ptr * ptr);
  checks : list (mem → option bool)
}.

Definition prepare (t : test) (u : option mem) : option mem :=
  m ← u; Some (Mem (list_to_map (setup t) ∪ vars m) (passed m) (failed m)).
Definition check (c : mem → option bool) (u : option mem) : option mem :=
  m ← u; b ← c m;
  Some (if b : bool then Mem (vars m) (S (passed m)) (failed m)
        else Mem (vars m) (passed m) (S (failed m))).
Definition verify (cs : list (mem → option bool)) (u : option mem) : option mem :=
  foldl (λ u c, check c u) u cs.

Definition equal (x : string) (o i v : Z) (m : mem) : option bool :=
  v' ← geti x o i m; Some (v' =? v).
Definition holds (x : string) (o : Z) (f : Z → bool) (m : mem) : option bool := f <$> get x o m.

(** main calls the tests one after the other. *)
Fixpoint phases_of (before : option mem → option mem) (ts : list test) : list (phase (option mem)) :=
  match ts with
  | [] => []
  | t :: ts => Phase (λ u, prepare t (before u)) (size t) (todo t) :: phases_of (verify (checks t)) ts
  end.
Definition main (ts : list test) : list (phase (option mem)) := phases_of id ts.
Definition finish (ts : list test) : option mem → option mem :=
  verify (from_option checks [] (last ts)).

Definition mem0 : option mem := Some (Mem ∅ 0 0).

(** The outcome: the checks that have passed and failed. *)
Definition outcome (u : option mem) : option (nat * nat) := (λ m, (passed m, failed m)) <$> u.

Section suite.
Context {L : Type} `{Bodies L (option mem), !YieldBodies L (option mem)}.

Definition suite (k : nat) (ts : list test) : option (nat * nat) :=
  run_phases (finish ts) k (main ts) mem0 ≫= outcome.

(** If the tests pass when they are executed by turns, they pass. *)
Lemma suite_passes `{Allocator, LinkMap} (σ : alloc_state) k ts r fuel :
  let w0 := init_world σ mem0 (inl (PhNext (main ts))) in
  let code := phased (finish ts) in
  suite k ts = Some r → Forall phase_ok (main ts) → Z.of_nat (creations (main ts)) ≤ MAX_COROUTINES →
  (5 * to_go k (main ts) ≤ fuel)%nat → ¬ refused_in w0 →
  match exec fuel w0 with
  | Finished w => outcome (w_user w) = Some r
  | _ => False
  end.
Proof using All.
  intros w0 code Hs Hok Hc Hf Hr. unfold suite in Hs.
  destruct (run_phases _ _ _ _) as [u|] eqn:Hu; [|done]. cbn in Hs.
  pose proof (phases_total (finish ts) σ (main ts) mem0 k u fuel Hok Hc Hu Hf Hr) as Ht.
  unfold w0, code. by destruct (exec fuel _); subst.
Qed.

(** One test on its own, freeing its coroutines or not: what it leaves, after
    its checks. *)
Definition alone (k : nat) (t : test) : option (nat * nat) :=
  round_robin k (starts (todo t)) (prepare t mem0) ≫= λ u, outcome (verify (checks t) u).

Lemma alone_passes `{Allocator, LinkMap} (σ : alloc_state) k t free r fuel :
  let w0 := init_world σ (prepare t mem0) (inl (FCreate (todo t) [])) in
  let code := program (fork_join_with Never (size t) free) in
  alone k t = Some r → ¬ 0 < wrap64 (size t) < 16 → Z.of_nat (length (todo t)) ≤ MAX_COROUTINES →
  Forall (λ fa : ptr * ptr, fa.1 ≠ NULL) (todo t) →
  (5 * (2 * k + 2 * length (todo t) + 3) ≤ fuel)%nat → ¬ refused_in w0 →
  match exec fuel w0 with
  | Finished w => outcome (verify (checks t) (w_user w)) = Some r
  | _ => False
  end.
Proof using All.
  intros w0 code Ha Hsz Hm Hfn Hf Hr. unfold alone in Ha.
  destruct (round_robin _ _ _) as [u|] eqn:Hu; [|done]. cbn in Ha.
  pose proof (rounds_total (R := refused_in w0) Never (size t) free (todo t) (prepare t mem0)
    (or_intror Hr) Hsz Hm Hfn σ k u fuel id Hu Hf) as Ht.
  unfold w0, code. destruct (exec fuel _) as [w|e|w]; [|done..].
  destruct Ht as [[Href _]| ->]; [by destruct (Hr Href)|done].
Qed.
(** A test that passes all its checks when it is executed by turns, and whose
    program is one [rounds_total] speaks of. *)
Definition passes_alone (k : nat) (t : test) : Prop :=
  alone k t = Some (length (checks t), 0)%nat ∧ (size t =? 0) || (16 <=? size t) && (size t <? 2 ^ 64)
  ∧ (length (todo t) ≤ 32)%nat ∧ Forall (λ fa : ptr * ptr, fa.1 ≠ NULL) (todo t).

Lemma tests_pass `{Allocator, LinkMap} (σ : alloc_state) k ts t free fuel :
  Forall (passes_alone k) ts → t ∈ ts →
  let w0 := init_world σ (prepare t mem0) (inl (FCreate (todo t) [])) in
  let code := program (fork_join_with Never (size t) free) in
  (10 * k + 400 ≤ fuel)%nat → ¬ refused_in w0 →
  match exec fuel w0 with
  | Finished w => outcome (verify (checks t) (w_user w)) = Some (length (checks t), 0)%nat
  | _ => False
  end.
Proof using All.
  intros Hts Ht w0 code Hf Hr.
  destruct (proj1 (Forall_forall _ _) Hts _ Ht) as (Hp & Hsz & Hlen & Hfn).
  apply (alone_passes σ k t free (length (checks t), 0)%nat fuel);
    [done| |consts; lia|done|lia|done].
  apply Is_true_true, orb_true_iff in Hsz as [->%Z.eqb_eq|Hsz]; [apply size_default|].
  apply andb_true_iff in Hsz as [Hlo%Z.leb_le Hhi%Z.ltb_lt]. by apply size_large.
Qed.
End suite.

(** Decides it for each of a list of closed tests. *)
Ltac passes_alone :=
  repeat apply Forall_cons_2; try apply Forall_nil_2;
  (split_and!; [by vm_compute|by vm_compute|by apply leb_complete|by repeat constructor]).
End Suite.

(** ** tests/test_timer.c *)

Module TestTimer.
Import Suite.

Definition fn_ticker : ptr := 1.
Definition fn_one_shot_timer : ptr := 2.
Definition fn_periodic_timer : ptr := 3.

(** [one_shot_timer] at its start and at its loop; [periodic_timer] at its
    start, at its outer and at its inner loop; [ticker] at its loop.  [ts] is
    the number of the [TimerState]. *)
Inductive point : Set :=
| OneShot (ts : Z) | OneShotLoop (ts start : Z)
| Periodic (ts : Z) | PeriodicOuter (ts last : Z) | PeriodicInner (ts last : Z)
| Ticker.

Definition one_shot_loop (ts start : Z) (m : mem) : option (mem * ucall point) :=
  now ← get "g_tick" 0 m; elapsed ← cadd now (- start);
  deadline ← get "deadline_ticks" ts m;
  if elapsed <? deadline then Some (m, UYield (OneShotLoop ts start))
  else
    c ← get "cancelled" ts m;
    if c =? 0 then m ← put "fired_at_tick" ts now m; Some (m, UReturn) else Some (m, UReturn).

Definition periodic_inner (ts last : Z) (m : mem) : option (mem * ucall point) :=
  now ← get "g_tick" 0 m; elapsed ← cadd now (- last);
  period ← get "periodic_period" ts m;
  if elapsed <? period then Some (m, UYield (PeriodicInner ts last))
  else
    m ← incr "periodic_count" ts m; m ← put "fired_at_tick" ts now m;
    Some (m, UYield (PeriodicOuter ts now)).

Definition periodic_outer (ts last : Z) (m : mem) : option (mem * ucall point) :=
  n ← get "periodic_count" ts m; limit ← get "periodic_limit" ts m;
  if n <? limit then Some (m, UTau (PeriodicInner ts last)) else Some (m, UReturn).

Definition step_point (l : point) (m : mem) : option (mem * ucall point) :=
  match l with
  | OneShot ts =>
      c ← get "cancelled" ts m;
      if negb (c =? 0) then Some (m, UReturn)
      else start ← get "g_tick" 0 m; one_shot_loop ts start m
  | OneShotLoop ts start => one_shot_loop ts start m
  | Periodic ts => last ← get "g_tick" 0 m; periodic_outer ts last m
  | PeriodicOuter ts last => periodic_outer ts last m
  | PeriodicInner ts last => periodic_inner ts last m
  | Ticker =>
      now ← get "g_tick" 0 m; limit ← get "max_ticks" 0 m;
      if now <? limit then m ← incr "g_tick" 0 m; Some (m, UYield Ticker) else Some (m, UReturn)
  end.

#[export] Instance bodies : Bodies point (option mem) := {|
  body_step l := run_body (step_point l);
  body_fn fn arg :=
    if fn =? fn_ticker then Ticker
    else if fn =? fn_one_shot_timer then OneShot arg else Periodic arg
|}.

#[export] Instance yields : YieldBodies point (option mem).
Proof.
  intros l u. apply run_body_yields. intros m m' c.
  destruct l; cbn; unfold one_shot_loop, periodic_outer, periodic_inner; intros Hs; body_calls.
Qed.

(** A [TimerState], and the variables every test starts with. *)
Definition timer (ts deadline cancelled period limit : Z) : list ((string * Z) * list Z) :=
  [(("deadline_ticks", ts), [deadline]); (("fired_at_tick", ts), [0]); (("cancelled", ts), [cancelled]);
   (("periodic_period", ts), [period]); (("periodic_count", ts), [0]); (("periodic_limit", ts), [limit])].
Definition ticks (max_ticks : Z) : list ((string * Z) * list Z) :=
  [(("g_tick", 0), [0]); (("max_ticks", 0), [max_ticks])].
Definition ticker : ptr * ptr := (fn_ticker, NULL).
Definition one_shot (ts : Z) : ptr * ptr := (fn_one_shot_timer, ts).

Definition fired (ts : Z) (f : Z → bool) : mem → option bool := holds "fired_at_tick" ts f.

Definition test_single_timer : test :=
  Test (ticks 20 ++ timer 0 5 0 0 0) 32768 [ticker; one_shot 0]
    [fired 0 (λ v, 5 <=? v); fired 0 (λ v, v <=? 6)].
Definition test_two_timers_ordered : test :=
  Test (ticks 20 ++ timer 1 3 0 0 0 ++ timer 2 7 0 0 0) 32768 [ticker; one_shot 1; one_shot 2]
    [fired 1 (λ v, 0 <? v); fired 2 (λ v, 0 <? v);
     λ m, a ← get "fired_at_tick" 1 m; b ← get "fired_at_tick" 2 m; Some (a <? b)].
Definition test_cancelled_timer : test :=
  Test (ticks 20 ++ timer 0 5 1 0 0) 32768 [ticker; one_shot 0] [fired 0 (λ v, v =? 0)].
Definition test_zero_deadline : test :=
  Test (ticks 10 ++ timer 0 0 0 0 0) 32768 [ticker; one_shot 0] [fired 0 (λ v, v <=? 1)].
Definition test_periodic_timer : test :=
  Test (ticks 50 ++ timer 0 0 0 4 3) 32768 [ticker; (fn_periodic_timer, 0)]
    [holds "periodic_count" 0 (λ v, v =? 3); fired 0 (λ v, (11 <=? v) && (v <=? 14))].
Definition N_CONCURRENT : Z := 8.
Definition test_concurrent_timers : test :=
  Test (ticks 100 ++ (seqZ 0 N_CONCURRENT ≫= λ i, timer i ((i + 1) * 5) 0 0 0)) 32768
    (ticker :: (one_shot <$> seqZ 0 N_CONCURRENT))
    [λ m, bs ← mapM (λ i, v ← get "fired_at_tick" i m;
                       let target := (i + 1) * 5 in Some ((target <=? v) && (v <=? target + 2)))
                 (seqZ 0 N_CONCURRENT);
          Some (forallb id bs)].

Definition tests : list test :=
  [test_single_timer; test_two_timers_ordered; test_cancelled_timer; test_zero_deadline;
   test_periodic_timer; test_concurrent_timers].

(** test_timer passes: all ten checks hold, for every allocator that refuses
    none of its creations. *)
Theorem test_timer_passes `{Allocator, LinkMap} (σ : alloc_state) fuel :
  let w0 := init_world σ mem0 (inl (PhNext (main tests))) in
  let code := phased (finish tests) in
  20000 ≤ Z.of_nat fuel → ¬ refused_in w0 →
  match exec fuel w0 with
  | Finished w => outcome (w_user w) = Some (10, 0)%nat
  | _ => False
  end.
Proof.
  intros w0 code Hf Hr. apply (suite_passes σ 300 tests (10, 0)%nat fuel); [by vm_compute| |done| |done].
  - repeat constructor; by first [apply size_large|done].
  - transitivity (Z.to_nat 20000); [by apply leb_complete|lia].
Qed.
End TestTimer.

(** ** tests/test_generator.c

    The [assert]s compare a pointer with 0: they hold even of null. *)

Module TestGenerator.
Import Suite.

Definition fn_gen_range : ptr := 1.
Definition fn_gen_fib : ptr := 2.
Definition fn_gen_step : ptr := 3.
Definition fn_gen_early : ptr := 4.

(** The generators at their loop conditions, with their local variables; [c] is
    the number of the context. *)
Inductive point : Set :=
| GenRange (c i : Z) | GenFib (c a b : Z) | GenFibNext (c a b : Z)
| GenStep (c : Z) | GenStepLoop (c v i : Z) | GenEarly (c i : Z).

(** [c->out\[c->idx++\] = v] *)
Definition emit (c v : Z) (m : mem) : option mem :=
  idx ← get "idx" c m; m ← incr "idx" c m; puti "out" c idx v m.

(** [(int)z] *)
Definition to_int (z : Z) : Z := (z + 2 ^ 31) mod 2 ^ 32 - 2 ^ 31.

Definition gen_fib (c a b : Z) (m : mem) : option (mem * ucall point) :=
  idx ← get "idx" c m; cap ← get "cap" c m;
  if idx <? cap then m ← emit c (to_int a) m; Some (m, UYield (GenFibNext c a b))
  else Some (m, UReturn).

Definition gen_step_loop (c v i : Z) (m : mem) : option (mem * ucall point) :=
  n ← get "n" c m;
  if i <? n then
    m ← emit c v m; step ← get "step" c m; v ← cadd v step;
    Some (m, UYield (GenStepLoop c v (i + 1)))
  else Some (m, UReturn).

Definition step_point (l : point) (m : mem) : option (mem * ucall point) :=
  match l with
  | GenRange c i =>
      n ← get "n" c m;
      if i <? n then m ← emit c i m; Some (m, UYield (GenRange c (i + 1))) else Some (m, UReturn)
  | GenFib c a b => gen_fib c a b m
  | GenFibNext c a b => t ← ladd a b; gen_fib c b t m
  | GenStep c => v ← get "start" c m; gen_step_loop c v 0 m
  | GenStepLoop c v i => gen_step_loop c v i m
  | GenEarly c i =>
      if i <? 100 then
        m ← incr "count" c m; limit ← get "limit" c m; last ← cadd limit (-1);
        if last <=? i then Some (m, UReturn) else Some (m, UYield (GenEarly c (i + 1)))
      else Some (m, UReturn)
  end.

#[export] Instance bodies : Bodies point (option mem) := {|
  body_step l := run_body (step_point l);
  body_fn fn arg :=
    if fn =? fn_gen_range then GenRange arg 0 else if fn =? fn_gen_fib then GenFib arg 0 1
    else if fn =? fn_gen_step then GenStep arg else GenEarly arg 0
|}.

#[export] Instance yields : YieldBodies point (option mem).
Proof.
  intros l u. apply run_body_yields. intros m m' c.
  destruct l; cbn; unfold gen_fib, gen_step_loop; intros Hs; body_calls.
Qed.

(** [EXPECT_EQ] on the elements of [out]. *)
Definition expect_out (c : Z) (want : list Z) : list (mem → option bool) :=
  imap (λ i v, equal "out" c (Z.of_nat i) v) want.
Definition expect (x : string) (c v : Z) : mem → option bool := equal x c 0 v.

Definition test_range_generator : test :=
  Test [(("n", 0), [8]); (("out", 0), replicate 8 0); (("idx", 0), [0])] (32 * 1024)
    [(fn_gen_range, 0)]
    (expect "idx" 0 8 :: expect_out 0 (seqZ 0 8)).
Definition test_fibonacci_generator : test :=
  Test [(("out", 0), replicate 10 0); (("cap", 0), [10]); (("idx", 0), [0])] (32 * 1024)
    [(fn_gen_fib, 0)]
    (expect "idx" 0 10 :: expect_out 0 [0; 1; 1; 2; 3; 5; 8; 13; 21; 34]).
Definition step_ctx (c start step : Z) : list ((string * Z) * list Z) :=
  [(("start", c), [start]); (("step", c), [step]); (("n", c), [5]); (("out", c), replicate 5 0);
   (("idx", c), [0])].
Definition test_multiple_generators : test :=
  Test (step_ctx 0 0 2 ++ step_ctx 1 1 3) (32 * 1024) [(fn_gen_step, 0); (fn_gen_step, 1)]
    ([expect "idx" 0 5; expect "idx" 1 5]
     ++ expect_out 0 [0; 2; 4; 6; 8] ++ expect_out 1 [1; 4; 7; 10; 13]).
Definition test_early_termination : test :=
  Test [(("limit", 0), [5]); (("count", 0), [0])] (32 * 1024) [(fn_gen_early, 0)]
    [expect "count" 0 5].

Definition tests : list test :=
  [test_range_generator; test_fibonacci_generator; test_multiple_generators; test_early_termination].

(** test_generator passes: all 33 checks hold, for every allocator that refuses
    none of its creations. *)
Theorem test_generator_passes `{Allocator, LinkMap} (σ : alloc_state) fuel :
  let w0 := init_world σ mem0 (inl (PhNext (main tests))) in
  let code := phased (finish tests) in
  1000 ≤ Z.of_nat fuel → ¬ refused_in w0 →
  match exec fuel w0 with
  | Finished w => outcome (w_user w) = Some (33, 0)%nat
  | _ => False
  end.
Proof.
  intros w0 code Hf Hr. apply (suite_passes σ 20 tests (33, 0)%nat fuel); [by vm_compute| |done| |done].
  - repeat constructor; by first [apply size_large|done].
  - transitivity (Z.to_nat 1000); [by apply leb_complete|lia].
Qed.
End TestGenerator.

(** ** tests/test_semaphore.c

    Written for schedulers that are objects: [co_spawn(sched, ...)] stands for
    [co_create], and each test has a scheduler of its own. *)

Module TestSemaphore.
Import Suite.

Definition fn_t1_consumer : ptr := 1.
Definition fn_t1_producer : ptr := 2.
Definition fn_t2_worker : ptr := 3.
Definition fn_t3_inc : ptr := 4.
Definition fn_t4_waiter : ptr := 5.
Definition fn_t5_waiter : ptr := 6.
Definition fn_t5_releaser : ptr := 7.

(** The code after a [sem_wait_coro], whose loop is [Wait]; the other points
    are the rest of the bodies. *)
Inductive after : Set := T1Second | T2Inside | T3Locked (i : Z) | T4Ran | T5Released (id : Z).
Inductive point : Set :=
| Wait (k : after) | T1First | T1Push (v : Z) | T2Leave | T3Loop (i : Z) | T3Write (i tmp : Z)
| T5Start | T5Loop (i : Z).

(** [a\[n++\] = v] *)
Definition push (a n : string) (v : Z) (m : mem) : option mem :=
  i ← get n 0 m; m ← incr n 0 m; puti a 0 i v m.
Definition sem_post_coro : mem → option mem := incr "count" 0.

Definition go_on (k : after) (m : mem) : option (mem * ucall point) :=
  match k with
  | T1Second => m ← push "t1_order" "t1_idx" 2 m; Some (m, UYield (T1Push 4))
  | T2Inside =>
      m ← incr "t2_slots_used" 0 m;
      n ← get "t2_slots_used" 0 m; top ← get "t2_max_concurrent" 0 m;
      m ← (if top <? n then put "t2_max_concurrent" 0 n m else Some m);
      Some (m, UYield T2Leave)
  | T3Locked i => tmp ← get "t3_counter" 0 m; Some (m, UYield (T3Write i tmp))
  | T4Ran => m ← put "t4_ran" 0 1 m; Some (m, UReturn)
  | T5Released id => m ← push "t5_release_order" "t5_rel_idx" id m; Some (m, UReturn)
  end.

Definition T5_N : Z := 4.

Definition step_point (l : point) (m : mem) : option (mem * ucall point) :=
  match l with
  | Wait k =>
      n ← get "count" 0 m;
      if n <=? 0 then Some (m, UYield (Wait k)) else m ← put "count" 0 (n - 1) m; go_on k m
  | T1First => m ← push "t1_order" "t1_idx" 1 m; m ← sem_post_coro m; Some (m, UYield (T1Push 3))
  | T1Push v => m ← push "t1_order" "t1_idx" v m; Some (m, UReturn)
  | T2Leave =>
      n ← get "t2_slots_used" 0 m; m ← put "t2_slots_used" 0 (n - 1) m; m ← sem_post_coro m;
      Some (m, UReturn)
  | T3Loop i => iters ← get "iters" 0 m; if i <? iters then Some (m, UTau (Wait (T3Locked i))) else Some (m, UReturn)
  | T3Write i tmp =>
      v ← cadd tmp 1; m ← put "t3_counter" 0 v m; m ← sem_post_coro m;
      Some (m, UYield (T3Loop (i + 1)))
  | T5Start => Some (m, UYield (T5Loop 0))
  | T5Loop i =>
      if i <? T5_N then m ← sem_post_coro m; Some (m, UYield (T5Loop (i + 1))) else Some (m, UReturn)
  end.

#[export] Instance bodies : Bodies point (option mem) := {|
  body_step l := run_body (step_point l);
  body_fn fn arg :=
    if fn =? fn_t1_consumer then Wait T1Second else if fn =? fn_t1_producer then T1First
    else if fn =? fn_t2_worker then Wait T2Inside else if fn =? fn_t3_inc then T3Loop 0
    else if fn =? fn_t4_waiter then Wait T4Ran else if fn =? fn_t5_waiter then Wait (T5Released arg)
    else T5Start
|}.

Lemma go_on_yields k m m' c :
  go_on k m = Some (m', c) → yields_only c.
Proof. destruct k; cbn; intros Hs; body_calls. Qed.

#[export] Instance yields : YieldBodies point (option mem).
Proof.
  intros l u. apply run_body_yields. intros m m' c. destruct l as [k| | | | | | |]; cbn; [|intros Hs; body_calls..].
  intros Hs. apply bind_Some in Hs as (n & _ & Hs). destruct (n <=? 0); [by injection Hs as <- <-|].
  apply bind_Some in Hs as (m1 & _ & Hs). by eapply go_on_yields.
Qed.

Definition test_basic_ordering : test :=
  Test [(("t1_order", 0), replicate 4 0); (("t1_idx", 0), [0]); (("count", 0), [0])] (64 * 1024)
    [(fn_t1_consumer, NULL); (fn_t1_producer, NULL)]
    [equal "t1_order" 0 0 1; equal "t1_order" 0 1 2].
Definition test_semaphore_count : test :=
  Test [(("t2_slots_used", 0), [0]); (("t2_max_concurrent", 0), [0]); (("count", 0), [2])] (64 * 1024)
    (replicate 5 (fn_t2_worker, NULL)) [holds "t2_max_concurrent" 0 (λ v, v <=? 2)].
Definition test_mutex_exclusion : test :=
  Test [(("t3_counter", 0), [0]); (("iters", 0), [10]); (("count", 0), [1])] (64 * 1024)
    (replicate 2 (fn_t3_inc, NULL)) [equal "t3_counter" 0 0 (2 * 10)].
Definition test_post_before_wait : test :=
  Test [(("t4_ran", 0), [0]); (("count", 0), [1])] (64 * 1024) [(fn_t4_waiter, NULL)]
    [equal "t4_ran" 0 0 1].
Definition test_fifo_release : test :=
  Test [(("t5_release_order", 0), replicate (Z.to_nat T5_N) (-1)); (("t5_rel_idx", 0), [0]);
        (("count", 0), [0])] (64 * 1024)
    ((pair fn_t5_waiter <$> seqZ 0 T5_N) ++ [(fn_t5_releaser, NULL)])
    [λ m, bs ← mapM (λ i, equal "t5_release_order" 0 i i m) (seqZ 0 T5_N); Some (forallb id bs)].

Definition tests : list test :=
  [test_basic_ordering; test_semaphore_count; test_mutex_exclusion; test_post_before_wait;
   test_fifo_release].

Lemma semaphore_tests_alone : Forall (passes_alone 120) tests.
Proof. passes_alone. Qed.

(** Every test of test_semaphore passes, for every allocator that refuses none
    of its creations. *)
Theorem test_semaphore_passes `{Allocator, LinkMap} (σ : alloc_state) t fuel :
  t ∈ tests →
  let w0 := init_world σ (prepare t mem0) (inl (FCreate (todo t) [])) in
  let code := program (fork_join_with Never (size t) false) in
  2000 ≤ Z.of_nat fuel → ¬ refused_in w0 →
  match exec fuel w0 with
  | Finished w => outcome (verify (checks t) (w_user w)) = Some (length (checks t), 0)%nat
  | _ => False
  end.
Proof. intros Ht w0 code Hf Hr. eapply tests_pass; [apply semaphore_tests_alone|done|lia|done]. Qed.
End TestSemaphore.

(** ** tests/test_barrier.c *)

Module TestBarrier.
Import Suite.

Definition fn_worker (n : Z) : ptr := n.
Definition LARGE_N : Z := 32.
Definition MIXED_N : Z := 6.
Definition WORK_ITERS : Z := 100.

(** What a worker does after a [barrier_wait]: [t2_worker] has two; [acc] is
    what [t6_worker] has added up. *)
Inductive after : Set :=
| T1After (id : Z) | T2Phase1 (id : Z) | T2Phase2 (id : Z) | T3After | T4After (id : Z)
| T5After (id : Z) | T6After (id acc : Z).

(** The workers at their start ([id] is what their argument points to), the
    loops of [t5_worker] and [t6_worker] before the barrier, and the loop of
    [barrier_wait]. *)
Inductive point : Set :=
| Start (n id : Z) | T5Loop (id i : Z) | T6Loop (id i acc : Z)
| Spin (gen : Z) (k : after) | Go (k : after).

(** [barrier_wait] *)
Definition barrier_wait (k : after) (m : mem) : option (mem * ucall point) :=
  gen ← get "generation" 0 m; m ← incr "arrived" 0 m;
  arrived ← get "arrived" 0 m; total ← get "total" 0 m;
  if arrived =? total then
    m ← put "arrived" 0 0 m; m ← incr "generation" 0 m; Some (m, UTau (Go k))
  else Some (m, UTau (Spin gen k)).

(** [for (i = 0; i < n; i++) acc += i], from [i] on. *)
Fixpoint add_up (n : nat) (i acc : Z) : option Z :=
  match n with O => Some acc | S n => acc ← ladd acc i; add_up n (i + 1) acc end.

Definition go_on (k : after) (m : mem) : option (mem * ucall point) :=
  match k with
  | T1After id => m ← puti "t1_after" 0 id 1 m; Some (m, UReturn)
  | T2Phase1 id => m ← puti "t2_phase" 0 id 2 m; barrier_wait (T2Phase2 id) m
  | T2Phase2 id => m ← puti "t2_phase" 0 id 3 m; Some (m, UReturn)
  | T3After => m ← put "t3_reached" 0 1 m; Some (m, UReturn)
  | T4After id =>
      i ← get "t4_log_pos" 0 m; m ← incr "t4_log_pos" 0 m; m ← puti "t4_log" 0 i id m;
      Some (m, UReturn)
  | T5After id => m ← puti "t5_done" 0 id 1 m; Some (m, UReturn)
  | T6After id acc =>
      acc ← add_up (Z.to_nat WORK_ITERS) 0 acc; m ← puti "t6_total" 0 id acc m; Some (m, UReturn)
  end.

Definition step_point (l : point) (m : mem) : option (mem * ucall point) :=
  match l with
  | Start n id =>
      if n =? 1 then m ← puti "t1_before" 0 id 1 m; barrier_wait (T1After id) m
      else if n =? 2 then m ← puti "t2_phase" 0 id 1 m; barrier_wait (T2Phase1 id) m
      else if n =? 3 then barrier_wait T3After m
      else if n =? 4 then m ← incr "t4_arrived" 0 m; barrier_wait (T4After id) m
      else if n =? 5 then Some (m, UTau (T5Loop id 0))
      else Some (m, UTau (T6Loop id 0 0))
  | T5Loop id i =>
      if i <? Z.rem id 5 then Some (m, UYield (T5Loop id (i + 1))) else barrier_wait (T5After id) m
  | T6Loop id i acc =>
      if i <? WORK_ITERS * (id + 1) then
        acc ← ladd acc i;
        Some (m, if Z.rem i 20 =? 0 then UYield (T6Loop id (i + 1) acc) else UTau (T6Loop id (i + 1) acc))
      else m ← puti "t6_partial" 0 id acc m; barrier_wait (T6After id acc) m
  | Spin gen k =>
      now ← get "generation" 0 m;
      if now =? gen then Some (m, UYield (Spin gen k)) else Some (m, UTau (Go k))
  | Go k => go_on k m
  end.

#[export] Instance bodies : Bodies point (option mem) := {|
  body_step l := run_body (step_point l);
  body_fn fn arg := Start fn arg
|}.

Lemma wait_yields k m m' c :
  barrier_wait k m = Some (m', c) → yields_only c.
Proof. unfold barrier_wait. intros Hs; body_calls. Qed.

#[export] Instance yields : YieldBodies point (option mem).
Proof.
  intros l u. apply run_body_yields. intros m m' c.
  destruct l as [n id|id i|id i acc|gen k|k]; cbn.
  - repeat destruct (_ =? _); intros Hs; try (by injection Hs as <- <-); try by eapply wait_yields.
    all: apply bind_Some in Hs as (m1 & _ & Hs); by eapply wait_yields.
  - intros Hs. case_match; [by injection Hs as <- <-|by eapply wait_yields].
  - intros Hs. case_match; apply bind_Some in Hs as (m1 & _ & Hs); [|by eapply wait_yields].
    injection Hs as <- <-. by destruct (Z.rem i 20 =? 0).
  - intros Hs; body_calls.
  - destruct k; cbn; try (intros Hs; body_calls; fail). intros Hs. apply bind_Some in Hs as (m1 & _ & Hs). by eapply wait_yields.
Qed.

(** [barrier_init], and the worker [n] for the coroutines [ids]. *)
Definition barrier_init (n : Z) : list ((string * Z) * list Z) :=
  [(("total", 0), [n]); (("arrived", 0), [0]); (("generation", 0), [0])].
Definition workers (n : Z) (ids : list Z) : list (ptr * ptr) := pair (fn_worker n) <$> ids.
Definition zeros (x : string) (n : Z) : (string * Z) * list Z := ((x, 0), replicate (Z.to_nat n) 0).
Definition all_equal (x : string) (n v : Z) : list (mem → option bool) :=
  (λ i, equal x 0 i v) <$> seqZ 0 n.

Definition test_basic_barrier : test :=
  Test (barrier_init 3 ++ [zeros "t1_before" 3; zeros "t1_after" 3]) 0 (workers 1 (seqZ 0 3))
    [λ m, bs ← mapM (λ i, equal "t1_before" 0 i 1 m) (seqZ 0 3); Some (forallb id bs);
     λ m, bs ← mapM (λ i, equal "t1_after" 0 i 1 m) (seqZ 0 3); Some (forallb id bs)].
Definition test_barrier_reuse : test :=
  Test (barrier_init 4 ++ [zeros "t2_phase" 4]) 0 (workers 2 (seqZ 0 4)) (all_equal "t2_phase" 4 3).
Definition test_barrier_single : test :=
  Test (barrier_init 1 ++ [zeros "t3_reached" 1]) 0 (workers 3 [0]) (all_equal "t3_reached" 1 1).
(** How often [id] is in [t4_log]. *)
Definition seen (id : Z) (m : mem) : option bool :=
  log ← vars m !! ("t4_log", 0); Some (length (filter (λ v, v = id) log) =? 1)%nat.
Definition test_barrier_ordering : test :=
  Test (barrier_init 4 ++ [zeros "t4_log_pos" 1; zeros "t4_arrived" 1; (("t4_log", 0), replicate 4 (-1))]) 0
    (workers 4 (seqZ 0 4))
    (equal "t4_log_pos" 0 0 4 :: equal "t4_arrived" 0 0 4
     :: ((λ i m, id ← geti "t4_log" 0 i m; Some ((0 <=? id) && (id <? 4))) <$> seqZ 0 4)
     ++ (seen <$> seqZ 0 4)).
Definition test_barrier_large : test :=
  Test (barrier_init LARGE_N ++ [zeros "t5_done" LARGE_N]) 0 (workers 5 (seqZ 0 LARGE_N))
    (all_equal "t5_done" LARGE_N 1).
Definition test_barrier_mixed_work : test :=
  Test (barrier_init MIXED_N ++ [zeros "t6_partial" MIXED_N; zeros "t6_total" MIXED_N]) 0
    (workers 6 (seqZ 0 MIXED_N))
    (seqZ 0 MIXED_N ≫= λ i,
       [λ m, v ← geti "t6_partial" 0 i m; Some (0 <? v);
        λ m, v ← geti "t6_partial" 0 i m; v' ← geti "t6_total" 0 i m; Some (v <=? v')]).

Definition tests : list test :=
  [test_basic_barrier; test_barrier_reuse; test_barrier_single; test_barrier_ordering;
   test_barrier_large; test_barrier_mixed_work].

Lemma barrier_tests_alone : Forall (passes_alone 3000) tests.
Proof. passes_alone. Qed.

(** Every test of test_barrier passes when it is run alone, for every allocator
    that refuses none of its creations. *)
Theorem test_barrier_passes `{Allocator, LinkMap} (σ : alloc_state) t fuel :
  t ∈ tests →
  let w0 := init_world σ (prepare t mem0) (inl (FCreate (todo t) [])) in
  let code := program (fork_join_with Never (size t) true) in
  31000 ≤ Z.of_nat fuel → ¬ refused_in w0 →
  match exec fuel w0 with
  | Finished w => outcome (verify (checks t) (w_user w)) = Some (length (checks t), 0)%nat
  | _ => False
  end.
Proof. intros Ht w0 code Hf Hr. eapply tests_pass; [apply barrier_tests_alone|done|lia|done]. Qed.

(** main, as the tests of [Tests.Harness]. *)
#[local] Instance harness_bodies : Bodies point (Harness.tmem (option mem)) := {|
  body_step l m :=
    let '(c, u) := run_body (step_point l) (Harness.vars m) in
    (c, Harness.TMem (Harness.handles m) (Harness.failures m) u);
  body_fn fn arg := Start fn arg
|}.

Definition holds_now (c : mem → option bool) (u : option mem) : bool := default false (u ≫= c).
Definition as_instrs (k : nat) (t : test) : list (Harness.instr (option mem)) :=
  Harness.ISet (prepare t)
  :: ((λ fa : ptr * ptr, Harness.ICreate fa.1 (size t) (λ _, fa.2)) <$> todo t) ++ [Harness.IRun]
  ++ ((λ i, Harness.IFree (k + i)%nat) <$> seq 0 (length (todo t)))
  ++ ((λ c, Harness.ICheck (holds_now c)) <$> checks t).
Fixpoint main_from (k : nat) (ts : list test) : list (Harness.instr (option mem)) :=
  match ts with
  | [] => []
  | t :: ts => as_instrs k t ++ main_from (k + length (todo t))%nat ts
  end.

(** After the first test main reads a freed coroutine, whether memory is reused
    or not. *)
Theorem barrier_reads_freed :
  Harness.fresh_memory mem0 (main_from 0 (take 1 tests)) = Some (Ok 0%nat)
  ∧ Harness.reads_freed (Harness.fresh_memory mem0 (main_from 0 tests)) = true
  ∧ Harness.reads_freed (Harness.reused_memory mem0 (main_from 0 tests)) = true.
Proof. split_and!; by vm_compute. Qed.
End TestBarrier.

(** ** tests/test_scheduler.c

    [co_schedule] and [co_destroy] are not functions of this library, whose
    [co_create] puts the coroutine into the queue: the first stands for nothing,
    the second for [co_free]. *)

Module TestScheduler.
Import Suite.

Definition RR_N : Z := 5.
Definition fn_rr_coro : ptr := 1.
Definition fn_finishing_coro : ptr := 2.
Definition fn_single_coro : ptr := 3.

(** [rr_coro] and [finishing_coro] at their loops, [single_coro] with the
    yields it has left. *)
Inductive point : Set := RR (id i : Z) | Finishing (steps i : Z) | Single (left : nat).

Definition push (a n : string) (v : Z) (m : mem) : option mem :=
  i ← get n 0 m; m ← incr n 0 m; puti a 0 i v m.

Definition step_point (l : point) (m : mem) : option (mem * ucall point) :=
  match l with
  | RR id i =>
      if i <? 3 then m ← push "rr_order" "rr_pos" id m; Some (m, UYield (RR id (i + 1)))
      else Some (m, UReturn)
  | Finishing steps i =>
      if i <? steps then Some (m, UYield (Finishing steps (i + 1)))
      else m ← incr "finish_count" 0 m; Some (m, UReturn)
  | Single (S n) => Some (m, UYield (Single n))
  | Single O => m ← put "empty_queue_ok" 0 1 m; Some (m, UReturn)
  end.

#[export] Instance bodies : Bodies point (option mem) := {|
  body_step l := run_body (step_point l);
  body_fn fn arg :=
    if fn =? fn_rr_coro then RR arg 0 else if fn =? fn_finishing_coro then Finishing arg 0
    else Single 2
|}.

#[export] Instance yields : YieldBodies point (option mem).
Proof.
  intros l u. apply run_body_yields. intros m m' c. destruct l as [| |[|n]]; cbn; intros Hs; body_calls.
Qed.

Definition test_round_robin : test :=
  Test [(("rr_order", 0), replicate (Z.to_nat (RR_N * 3)) (-1)); (("rr_pos", 0), [0])] (32 * 1024)
    (pair fn_rr_coro <$> seqZ 0 RR_N)
    [λ m, bs ← mapM (λ j, equal "rr_order" 0 j (j mod RR_N) m) (seqZ 0 (RR_N * 3)); Some (forallb id bs)].
Definition step_counts : list Z := [1; 2; 3; 0; 5].
Definition test_completion : test :=
  Test [(("finish_count", 0), [0])] (32 * 1024) (pair fn_finishing_coro <$> step_counts)
    [equal "finish_count" 0 0 (Z.of_nat (length step_counts))].
Definition test_run_returns : test :=
  Test [(("empty_queue_ok", 0), [0])] (32 * 1024) [(fn_single_coro, NULL)] [equal "empty_queue_ok" 0 0 1].

Definition tests : list test := [test_round_robin; test_completion; test_run_returns].

Lemma scheduler_tests_alone : Forall (passes_alone 60) tests.
Proof. passes_alone. Qed.

(** The first three tests of test_scheduler pass when they are run alone, for
    every allocator that refuses none of their creations. *)
Theorem test_scheduler_passes `{Allocator, LinkMap} (σ : alloc_state) t fuel :
  t ∈ tests →
  let w0 := init_world σ (prepare t mem0) (inl (FCreate (todo t) [])) in
  let code := program (fork_join_with Never (size t) true) in
  1000 ≤ Z.of_nat fuel → ¬ refused_in w0 →
  match exec fuel w0 with
  | Finished w => outcome (verify (checks t) (w_user w)) = Some (length (checks t), 0)%nat
  | _ => False
  end.
Proof. intros Ht w0 code Hf Hr. eapply tests_pass; [apply scheduler_tests_alone|done|lia|done]. Qed.

(** [test_await]: [inner_coro] and [outer_coro]; [seq_] is what
    [await_seq] holds up to [await_pos]. *)
Definition fn_inner_coro : ptr := 4.
Definition fn_outer_coro : ptr := 5.
Inductive await_point : Set :=
| Inner | InnerYielded | Outer | OuterMade (inner : ptr) | OuterBack (inner : ptr) | OuterEnd.

Definition log (v : Z) (m : Harness.tmem (list Z)) : Harness.tmem (list Z) :=
  Harness.set_vars (λ s, s ++ [v]) m.
Definition await_step (l : await_point) (m : Harness.tmem (list Z)) : ucall await_point * Harness.tmem (list Z) :=
  match l with
  | Inner => (UYield InnerYielded, log 2 m)
  | InnerYielded => (UReturn, log 4 m)
  | Outer => (UCreate fn_inner_coro NULL (32 * 1024) OuterMade, log 1 m)
  | OuterMade inner => (UAwait inner (OuterBack inner), m)
  | OuterBack inner => (UFree inner OuterEnd, log 3 m)
  | OuterEnd => (UReturn, m)
  end.
#[local] Instance await_bodies : Bodies await_point (Harness.tmem (list Z)) := {|
  body_step := await_step;
  body_fn fn arg := if fn =? fn_inner_coro then Inner else Outer
|}.

Definition nth_is (i : nat) (v : Z) (s : list Z) : bool := bool_decide (s !! i = Some v).
Definition test_await : list (Harness.instr (list Z)) :=
  [Harness.ICreate fn_outer_coro (64 * 1024) (λ _, NULL); Harness.IRun;
   Harness.ICheck (nth_is 0 1); Harness.ICheck (nth_is 1 2); Harness.ICheck (nth_is 2 3);
   Harness.IFree 0].

(** [test_await] frees the inner coroutine before the outer one has finished:
    the outer one's last step reads it. *)
Theorem test_await_reads_freed :
  Harness.reads_freed (Harness.fresh_memory [] test_await) = true
  ∧ Harness.reads_freed (Harness.reused_memory [] test_await) = true.
Proof. split; by vm_compute. Qed.

(** Its third check would not hold either: [co_await] waits until the other is
    DONE, so the inner coroutine writes 4 before the outer one writes 3. *)
#[local] Existing Instance MachineDemo.link.
#[local] Instance await_code : UserCode (list (Harness.instr (list Z)) + await_point) (Harness.tmem (list Z)) :=
  Harness.test.
Definition await_demo : world (list (Harness.instr (list Z)) + await_point) (Harness.tmem (list Z)) :=
  init_world heap0 (Harness.TMem [] 0 []) (inl test_await).
Example test_await_sequence :
  ∃ n w, steps n await_demo w ∧ Harness.vars (w_user w) = [1; 2; 4; 3].
Proof.
  exists 20%nat, (default await_demo (go 20 await_demo)).
  split; [apply go_steps; by vm_compute|by vm_compute].
Qed.
End TestScheduler.

(** ** tests/test_fiber_pool.c

    [co_scheduler()] stands for [co_run]. *)

Module TestFiberPool.
Import Suite.

Definition MAX_RESULTS : Z := 64.
Definition fn_simple_task : ptr := 1.

(** [simple_task] at its loop; [a] is the number of its [TaskArgs]. *)
Inductive point : Set := Task (a i : Z).

Definition step_point (l : point) (m : mem) : option (mem * ucall point) :=
  match l with
  | Task a i =>
      n ← get "yields" a m;
      if i <? n then Some (m, UYield (Task a (i + 1)))
      else
        k ← get "g_result_count" 0 m;
        if k <? MAX_RESULTS then
          id ← get "task_id" a m; v ← get "output_value" a m;
          m ← puti "g_results.task_id" 0 k id m; m ← puti "g_results.result" 0 k v m;
          m ← incr "g_result_count" 0 m; Some (m, UReturn)
        else Some (m, UReturn)
  end.

#[export] Instance bodies : Bodies point (option mem) := {|
  body_step l := run_body (step_point l);
  body_fn fn arg := Task arg 0
|}.

#[export] Instance yields : YieldBodies point (option mem).
Proof. intros l u. apply run_body_yields. intros m m' c. destruct l; cbn; intros Hs; body_calls. Qed.

Definition reset_results : list ((string * Z) * list Z) :=
  [(("g_result_count", 0), [0]); (("g_results.task_id", 0), replicate (Z.to_nat MAX_RESULTS) 0);
   (("g_results.result", 0), replicate (Z.to_nat MAX_RESULTS) 0)].
Definition args (a task_id yields output_value : Z) : list ((string * Z) * list Z) :=
  [(("task_id", a), [task_id]); (("yields", a), [yields]); (("output_value", a), [output_value])].

(** One task, run to its end, and the results expected of it. *)
Definition one (task_id yields output_value : Z) (cs : list (mem → option bool)) : test :=
  Test (reset_results ++ args 0 task_id yields output_value) (32 * 1024) [(fn_simple_task, 0)]
    (equal "g_result_count" 0 0 1 :: cs).
Definition test_single_task : test :=
  one 7 0 99 [equal "g_results.task_id" 0 0 7; equal "g_results.result" 0 0 99].
Definition test_multi_yield_task : test := one 3 5 77 [equal "g_results.result" 0 0 77].
Definition BATCH : Z := 16.
(** Some result is that of task [i]. *)
Definition found (i : Z) (m : mem) : option bool :=
  n ← get "g_result_count" 0 m;
  bs ← mapM (λ j, id ← geti "g_results.task_id" 0 j m; v ← geti "g_results.result" 0 j m;
                   Some ((id =? i) && (v =? i * 10))) (seqZ 0 n);
  Some (existsb id bs).
Definition test_batch_tasks : test :=
  Test (reset_results ++ (seqZ 0 BATCH ≫= λ i, args i i (Z.rem i 4) (i * 10))) (32 * 1024)
    (pair fn_simple_task <$> seqZ 0 BATCH)
    (equal "g_result_count" 0 0 BATCH :: (found <$> seqZ 0 BATCH)).
(** The two rounds of [test_pool_reuse]. *)
Definition pool_reuse_1 : test := one 100 2 111 [].
Definition pool_reuse_2 : test := one 200 3 222 [equal "g_results.result" 0 0 222].

Definition tests : list test :=
  [test_single_task; test_multi_yield_task; test_batch_tasks; pool_reuse_1; pool_reuse_2].

Lemma fiber_pool_tests_alone : Forall (passes_alone 100) tests.
Proof. passes_alone. Qed.

(** The tests of test_fiber_pool that run their coroutines pass when they are
    run alone, for every allocator that refuses none of their creations. *)
Theorem test_fiber_pool_passes `{Allocator, LinkMap} (σ : alloc_state) t fuel :
  t ∈ tests →
  let w0 := init_world σ (prepare t mem0) (inl (FCreate (todo t) [])) in
  let code := program (fork_join_with Never (size t) true) in
  2000 ≤ Z.of_nat fuel → ¬ refused_in w0 →
  match exec fuel w0 with
  | Finished w => outcome (verify (checks t) (w_user w)) = Some (length (checks t), 0)%nat
  | _ => False
  end.
Proof. intros Ht w0 code Hf Hr. eapply tests_pass; [apply fiber_pool_tests_alone|done|lia|done]. Qed.

#[local] Instance idle_bodies : Bodies point (Harness.tmem ()) := {|
  body_step l m := (UReturn, m);
  body_fn fn arg := Task arg 0
|}.

(** [test_create_free], the first test of the program: it frees a coroutine that
    has not run, and the assertion of [co_free] stops it. *)
Theorem test_create_free_aborts :
  Harness.fresh_memory () [Harness.ICreate fn_simple_task (32 * 1024) (λ _, 0); Harness.IFree 0]
  = Some (Err AssertFreeNotDone).
Proof. by vm_compute. Qed.
End TestFiberPool.
